(* ===== verification/_CoqProject ===== *)
-Q . S2P
Prelude.v
Crates.v
Clock.v
Hashing.v
Chunking.v
Range.v
Listing.v
Policy.v
Disk.v
Tables.v
Store.v
FactLog.v
Typed.v
Objects.v
BlockStore.v
Seaweed.v
GC.v
Replication.v
S3.v
S3Props.v
Sync.v
Noise.v
Handshake.v
Transfer.v
Internal.v
Sizes.v
Config.v
SocketAddr.v
Startup.v
Manifests.v
Cli.v
Cluster.v
Node.v
Deployment.v
Peers.v
Sweep.v
Grace.v
Calls.v
Handlers.v
Refines.v
Service.v
Tests.v
NoiseTests.v
StorageTests.v
