(* ===== verification/Prelude.v ===== *)
(** * Shardscape: a verification development

    Shardscape is a self-hosted S3 server that runs at several sites.  Each site keeps its
    metadata in an embedded SQLite store and its data as content-addressed blocks; sites
    exchange metadata as an append-only log of facts, merged by last write wins, and pull
    each other's blocks in the background.  This library models the program's own logic and
    proves the properties that make it correct.  File paths below are under the crate's
    [src] directory.

    ** The parts and how they interact

    - An S3 request reaches a handler (storage.rs), which authorizes it against the caller's
      policy (db.rs), asks the disk guard (disk.rs) before writing, cuts a body into chunks
      (chunking.rs), stores each as a block and writes the object's manifest to the metadata
      store (store.rs).  A GET reads the manifest, plans the blocks of the range, and streams
      them, fetching from a peer what is not held locally.
    - Every write of the store carries a timestamp of the cluster clock (clock.rs) and appends
      a fact to the log in the same transaction.  A peer pulls the log page by page over the
      internal endpoints (main.rs), which run over an encrypted stream
      (noise_transport.rs), and applies the facts.
    - Applying a block announcement queues a pull; the drain of that queue fetches the block.
      A periodic sweep removes local blocks that no manifest names.
    - A node starts from a configuration file (config.rs), opens its database, joins a peer if
      asked to, and then serves requests and runs its background tasks (main.rs).

    ** Files

    - [Prelude] (this file): bytes and strings, results and the state-and-error monad with its
      notation, machine integers, byte order of keys, a stable sort for ORDER BY, the
      iteration order of hash maps, shared lemmas and tactics.
    - [Crates]: the third-party functions the sources call (blake3, md5, hex, uuid, fastcdc)
      as classes with their documented behaviour, and [Reference], an instance of each that
      runs.
    - [Clock]: [ClusterClock] and the offset measurement.
    - [Hashing]: shard ids and the key range of a prefix (hashing.rs).
    - [Chunking]: the fixed-size and content-defined strategies behind the trait
      [ChunkingStrategy], its contract [LawfulChunking], and the streaming of a body.
    - [Range]: HTTP ranges and the slicing of blocks (storage.rs).
    - [Listing]: delimiter grouping and truncation (storage.rs).
    - [Policy]: policy evaluation (db.rs) and the presets of create-user (main.rs).
    - [Disk]: the write guard (disk.rs).
    - [Tables]: the rows and tables of the store, the facts, serde_json as the class [Json],
      and the laws of the last-write-wins upsert every table shares.
    - [Store]: one definition per method of [Store] (store.rs).  SQLite tables are finite maps
      by primary key; a method runs under the connection's mutex, so it is one function.
    - [FactLog]: [site], the step relation of a store under any sequence of its methods, with
      the facts it has logged and seen; convergence.
    - [Typed]: well-formedness of the tables, kept by every method.
    - [Objects]: [list_page] and the theorems on listings.
    - [BlockStore]: the blob trait and its contract [LawfulBlob]; [LocalBlob], the file
      backend with every system call able to fail; [DistributedBlockStore].
    - [Seaweed]: the SeaweedFS backend over an HTTP client, which satisfies the contract too.
    - [GC]: [sweep_orphaned_blocks], snapshot and visits separately.
    - [Replication]: [plan_replication] and [drain_replication_queue]; [Backend], a node with
      its guard.
    - [S3], [S3Props]: every handler on the store and block store of a node, and their
      properties.
    - [Sync]: [sync_facts_once] and [gossip_membership].
    - [Noise]: the poll functions of [NoiseStream], over any inner stream and any cipher with
      the stated contracts.
    - [Handshake]: [accept] and [connect], the two ends of the handshake that leads to it.
    - [Transfer]: two ends whose tasks write messages and read bytes, polled in any order, over
      inner streams with the contract [Socket]; the adapter [Throttle].
    - [Internal]: [handle_internal_request], query decoding, the join handshake.
    - [Sizes]: [parse_size] and [format_bytes] with the f64 arithmetic they use (disk.rs).
    - [Config]: the configuration, its file, and what is built from it (config.rs).
    - [SocketAddr]: the parser of listen addresses ([SocketAddr::from_str] of std).
    - [Startup]: [run_server] up to its loops, the parsing and binding of both listen addresses
      included, and the commands init, join, create-user and status (main.rs).
    - [Manifests]: render-k8s (main.rs).
    - [Cli]: the subcommands with their flags and defaults, what they print, and [main].
    - [Cluster]: the abstract replicated log: sites that call methods of their stores, pull
      each other's logs page by page, join and crash, as a step relation.
    - [Node]: one round of each background task, and [run_event], everything that can happen
      to a running node: whole requests and rounds, and also the single calls of [store_block],
      [get_block] and [drain_entry] and single visits of a sweep that these consist of;
      relations every event keeps ([NodeRelation], [SweepRelation]).
    - [Deployment]: running nodes with their pulls as a step relation; its metadata refines
      [Cluster].
    - [Peers]: the client side of requests to peers with their timeouts, and block fetches
      across several sites.
    - [Sweep]: the visits of a sweep interleaved with all other events; [Grace]: uploads under
      scheduled and forced sweeps; [Calls]: the calls of the metadata store and of the backend
      one at a time, with the stores and deletions of blocks under way.
    - [Handlers]: the handlers of storage.rs as written, over the traits [ObjectStore] and
      [BlockStore] as classes whose every method may fail or panic, with the error messages.
      [Refines] gives the two implementations of the traits and relates each handler to the one
      of [S3]; [Service] has what holds for all implementations, and one that fails at will.
    - [Tests], [NoiseTests], [StorageTests]: the unit tests of the sources under their names,
      evaluated, or proved to pass for all values of what they draw.

    ** How code becomes definitions

    A Rust function is a definition with its name.  [Result] is [result], a panic is the
    error [Panic] ([TaskPanic] in a handler, [SweepPanic] in a sweep, [ChunkerPanics] in a
    chunker, whose other failure is [LoopsForever]), a loop that need not end runs on fuel and
    returns [None] when the fuel is used up.  A function that changes a node is a
    computation [io W E A] on its state, which keeps the state reached when it fails.  A
    [u64] or [i64] is a [Z] with its wrap-around written out ([wrap_u64], [wrap_i64], a
    release build).  A function that reads the clock takes the reading as an argument; what a
    peer answers, what the file system reports and the order a hash map iterates in are
    arguments too, so that the theorems hold for all of them.

    ** What the theorems show

    - Data path: a PUT or the completion of a multipart upload is acknowledged, and when the
      node's clock is strictly past the last write of the key, GET streams back what was
      uploaded, whole and by every range; when it is not (two writes in one microsecond, a clock
      set back, a newer replicated write) the key keeps the object it had
      ([put_get_roundtrip], [complete_multipart_roundtrip]).  Chunking loses nothing and does
      not depend on framing, within the sizes the chunker accepts ([cdc_stream_bounds]); blocks read back are the blocks
      stored, and a block file is all or nothing under failures ([store_get_block],
      [get_block_integrity], [local_put_atomic]).
    - Replication: sites that have seen the same facts agree whatever the order
      ([replicas_converge]), reads return the newest write ([get_object_winner]), deletions
      are not undone by older writes, a pull ends and misses nothing; the endpoint serves
      exactly the log.  For any number of sites and any interleaving of their operations,
      pages and crashes, a site has seen what its cursors say ([cluster_sound]), and one round
      of pulls makes all agree ([cluster_round_converges]).
    - Whole nodes: every event of a running node is a sequence of store methods that keeps
      metadata and backend in agreement, so deployments refine the abstract cluster
      ([deployment_refines]), converge when no pull is under way ([deployment_converges]) and
      never serve a block under a wrong hash ([deployment_blocks_sound]), also when a fetch
      passes through several sites ([peer_fetch_correct]).  Equal timestamps on one key are
      the exception to convergence, excluded by the hypotheses [conflict_free] and [no_ties]
      and shown to be needed ([lww_tie_diverges]).  In [Deployment] storing a block and the
      visit of a sweep to one block are single steps; [calls_blocks_sound] takes them apart,
      down to single calls of store and backend, and holds as long as no store of a block
      overlaps the deletion of the same block, where it does fail ([gc_delete_race]).
    - Safety of deletion: a sweep keeps every block a manifest names, respects the grace
      period, and reclaims the rest, also when its visits interleave with every other event of
      the node ([sweep_interleaved_safe]), and the grace period covers an upload from its first
      block to its manifest ([upload_within_grace]), except from a forced sweep that is marked
      meanwhile ([forced_sweep_loses_upload]).  A grace deadline past the range of the system's
      time makes a sweep panic ([gc_deadline_panics]), which deletes nothing that is live.  The
      pull queue drops an entry only when its block is held or gone ([drain_never_evicts]); a
      cycle the guard does not pause pulls what peers deliver of its page of at most 500 due
      entries ([drain_pulls]).
    - Listings: pages are sorted, exact and complete for what the query of a cursor selects:
      the keys with the prefix, unless the cursor is below the prefix
      ([list_objects_cursor_escapes_prefix]); following the token of a plain listing neither
      repeats nor skips.
    - Access: policies decide as specified, denied or guarded requests change nothing,
      internal requests cannot touch objects or users.
    - Failures: over any stores behind the traits, a write that fails at whatever call changed
      no object ([writes_all_or_nothing]), a put is acknowledged only when every call it needs
      succeeded, one after the other in the states they left ([put_acknowledged]), a batch delete accounts for every key
      ([delete_objects_reports]) and listings end ([list_page_ends]); on a node's own stores
      these handlers are those of the data path ([service_refines]).
    - Transport: the encrypted stream delivers a front part of what was accepted under every
      schedule and fragmentation, all of it once drained, and its reads end; under any
      schedule that keeps polling the tasks everything written is read within a bounded number
      of rounds ([transfer_completes]); two ends with
      the same secret reach such a stream and another secret is refused ([secure_channel],
      [wrong_secret_refused]); calls to peers end within fixed times ([peer_calls_bounded]).
    - Operation: a restart continues where the node stopped, the commands [init] prints bring up
      the site and, under another site id, a second one ([quickstart]; with the default id of
      both the peer is forgotten, [default_join_forgets_peer]), sizes are read exactly below [2^53] and what is printed is read back.
    - Behaviour that contradicts a comment or a document is shown by a theorem on a concrete
      input, mostly in the [..Runs] module of its file (such as [delimiter_page_repeats],
      [gc_dedup_race], [gc_delete_race], [copy_object_source_unchecked],
      [joined_bootstrap_replaces_admin], [collected_block_ping_pong],
      [inverted_range_takes_rest], [cdc_sizes_rejected_panics]).
    The [..Runs] modules also hold the concrete inputs on which the hypotheses of the
    theorems hold.

    ** Bounds and fuel

    - The chunking loops take the buffer's length plus one; each round removes a byte or
      more ([fixed_loop_total], [cdc_loop_total]).  With a chunk size of zero no fuel is
      enough ([fixed_zero_diverges]).
    - The delimiter scan reads pages of 1000 keys up to 100,000, so [GATHER_FUEL] = 101
      pages always suffice.  Over an arbitrary object store, whose pages may hold a single key,
      [SCAN_ROUNDS] = 100,001 rounds do: every round but the last adds a key.
    - [chunks_exact] and [chunks] take the length plus one.
    - A pull of [n] new facts needs fewer than [n / 500 + 2] pages; the theorems take any
      fuel above that.  A flush takes the buffer's length plus one; a read from an honest
      peer at most 65,540 rounds, one for every byte a frame can lack.  A transfer takes at
      most [enough_rounds] polls of each task, linear in the bytes and in how long the inner
      streams may stall.
    - [mesh_fetch] takes the number of sites a block request may be passed on through; its
      theorem holds for every number.  [scale_loop] has a round per unit.
    - Times in [Peers] are microseconds; a step of the network that never ends has no time.

    ** Not modelled

    SQL text and SQLite itself: its tables are finite maps, and its I/O errors appear only as
    failures of trait methods in [Handlers] and [Service].  Errors of the file system outside
    [LocalBlob] and the configuration file.  Whether an address can be bound is an argument of
    [run_server]; the serving of connections after that is the requests of [Node].  A method of
    the store or of a backend is a single step wherever tasks interleave.  The tokenizing of
    arguments (clap), HTTP parsing (hyper), TOML and JSON syntax, the ciphers and handshake messages of the
    snow crate and the statvfs call are parameters with their documented behaviour.  Log
    output other than the link messages and the timestamps in S3 answers are left out.  Atomics are single
    values.  A SeaweedFS cluster is used by one node.

    ** Plan

    Next: fetches that change the nodes they pass through, deadlines of whole rounds of the
    background tasks, and sites that share a SeaweedFS cluster. *)

From Stdlib Require Export ZArith Lia.
From Stdlib Require Ascii String.
From stdpp Require Export base gmap strings list fin_maps sorting.
Export (notations) Stdlib.Strings.Ascii.
Export Stdlib.Strings.Ascii (ascii(..), N_of_ascii, ascii_of_N, ascii_N_embedding, N_ascii_embedding, N_ascii_bounded, ascii_dec).
Export Stdlib.Strings.String (list_ascii_of_string, string_of_list_ascii, string_of_list_ascii_of_string, list_ascii_of_string_of_list_ascii).
#[global] Open Scope Z_scope.

Declare Scope shard_scope.
Delimit Scope shard_scope with shard.
#[global] Open Scope shard_scope.

Create HintDb shard.

(** ** Bytes *)

(** A Rust [u8] is an [ascii] (eight bits); [Vec<u8>], [Bytes] and [BytesMut] contents are
    lists of them, and a [String] is Stdlib's [string], its UTF-8 bytes in order. *)
Abbreviation bytes := (list ascii).

Definition as_bytes (s : string) : bytes := list_ascii_of_string s.
Definition of_bytes (b : bytes) : string := string_of_list_ascii b.

(** Length of a byte vector as the integer Rust's [len()] gives. *)
Definition blen (b : bytes) : Z := Z.of_nat (length b).

Lemma blen_nonneg b : 0 ≤ blen b.
Proof. unfold blen. lia. Qed.

Lemma blen_app a b : blen (a ++ b) = blen a + blen b.
Proof. unfold blen. rewrite length_app. lia. Qed.

(** ** Results and the state-and-error monad *)

(** Rust's [Result<A, E>]. *)
Inductive result (E A : Type) : Type :=
  | Ok (a : A)
  | Err (e : E).
Arguments Ok {E A} a.
Arguments Err {E A} e.

(** A Rust panic ([unwrap], [expect], index out of range): the task unwinds. *)
Inductive panic : Type := Panic.

(** A fallible computation over a mutable world [W]: an error keeps the writes made
    before it, as an early return with [?] does. *)
Definition io (W E A : Type) : Type := W → result E A * W.

Definition ret {W E A} (a : A) : io W E A := λ w, (Ok a, w).
Definition fail {W E A} (e : E) : io W E A := λ w, (Err e, w).
Definition bind {W E A B} (m : io W E A) (k : A → io W E B) : io W E B := λ w,
  match m w with
  | (Ok a, w') => k a w'
  | (Err e, w') => (Err e, w')
  end.

(** [m] with its error mapped, Rust's [map_err]. *)
Definition map_err {W E F A} (f : E → F) (m : io W E A) : io W F A := λ w,
  match m w with
  | (Ok a, w') => (Ok a, w')
  | (Err e, w') => (Err (f e), w')
  end.

(** [m] run for its effect with its outcome as a value: [match m.await { Ok.., Err.. }],
    [let _ = m.await] and [if let Ok(..) = m.await] all start from it. *)
Definition attempt {W E F A} (m : io W E A) : io W F (result E A) := λ w,
  let '(r, w') := m w in (Ok r, w').

(** A pure result used in a computation with [?]. *)
Definition lift {W E A} (r : result E A) : io W E A := λ w, (r, w).

Notation "'let!' x ':=' m 'in' k" := (bind m (λ x, k))
  (at level 10, x name, m at level 100, k at level 200) : shard_scope.
Notation "'let!' ' p ':=' m 'in' k" := (bind m (λ x, match x with p => k end))
  (at level 10, p strict pattern, m at level 100, k at level 200) : shard_scope.
Notation "'do!' m ';' k" := (bind m (λ _, k))
  (at level 10, m at level 100, k at level 200) : shard_scope.

(** The loop [for x in l { body?; }]. *)
Fixpoint for_each {W E A} (body : A → io W E unit) (l : list A) : io W E unit :=
  match l with
  | [] => ret tt
  | x :: l' => do! body x; for_each body l'
  end.

(** The loop [for x in l { out.push(body(x)?) }]. *)
Fixpoint map_each {W E A B} (body : A → io W E B) (l : list A) : io W E (list B) :=
  match l with
  | [] => ret []
  | x :: l' => let! y := body x in let! ys := map_each body l' in ret (y :: ys)
  end.

Lemma bind_ok {W E A B} (m : io W E A) (k : A → io W E B) w a w' :
  m w = (Ok a, w') → bind m k w = k a w'.
Proof. intros H. unfold bind. by rewrite H. Qed.

Lemma bind_err {W E A B} (m : io W E A) (k : A → io W E B) w e w' :
  m w = (Err e, w') → bind m k w = (Err e, w').
Proof. intros H. unfold bind. by rewrite H. Qed.

Lemma bind_inv {W E A B} (m : io W E A) (k : A → io W E B) w b w' :
  bind m k w = (Ok b, w') → ∃ a w1, m w = (Ok a, w1) ∧ k a w1 = (Ok b, w').
Proof. unfold bind. destruct (m w) as [[a|e] w1]; naive_solver. Qed.

(** An invariant of the body is an invariant of the whole loop, whatever the outcome. *)
Lemma for_each_invariant {W E A} (I : W → Prop) (body : A → io W E unit) l w :
  (∀ x w, x ∈ l → I w → I (body x w).2) → I w → I (for_each body l w).2.
Proof.
  revert w. induction l as [|x l IH]; intros w Hb Hw; simpl; [done|].
  unfold bind. destruct (body x w) as [[[]|e] w1] eqn:E1; simpl.
  - apply IH; [intros; apply Hb; [by right|done]|].
    specialize (Hb x w ltac:(left) Hw). by rewrite E1 in Hb.
  - specialize (Hb x w ltac:(left) Hw). by rewrite E1 in Hb.
Qed.

(** ** Machine integers *)

Definition wrap_u64 (z : Z) : Z := z mod 2 ^ 64.
Definition wrap_i64 (z : Z) : Z := (z + 2 ^ 63) mod 2 ^ 64 - 2 ^ 63.
Definition in_i64 (z : Z) : Prop := - 2 ^ 63 ≤ z < 2 ^ 63.
Definition in_u64 (z : Z) : Prop := 0 ≤ z < 2 ^ 64.

Lemma wrap_u64_small z : in_u64 z → wrap_u64 z = z.
Proof. unfold in_u64, wrap_u64. intros. by rewrite Z.mod_small. Qed.

Lemma wrap_i64_small z : in_i64 z → wrap_i64 z = z.
Proof. unfold in_i64, wrap_i64. intros. rewrite Z.mod_small; lia. Qed.

Lemma wrap_i64_range z : in_i64 (wrap_i64 z).
Proof. unfold in_i64, wrap_i64. pose proof (Z.mod_pos_bound (z + 2^63) (2^64)). lia. Qed.

#[export] Hint Resolve wrap_i64_range : shard.

(** ** Strings: order, prefixes, suffixes and search *)

(** Rust compares strings, and SQLite compares TEXT under its BINARY collation, byte by
    byte: Stdlib's [String.compare]. *)
Definition str_le (s t : string) : Prop := String.leb s t = true.
Definition str_lt (s t : string) : Prop := String.ltb s t = true.

#[global] Instance str_le_dec : RelDecision str_le.
Proof. intros s t. unfold str_le. apply _. Defined.
#[global] Instance str_lt_dec : RelDecision str_lt.
Proof. intros s t. unfold str_lt. apply _. Defined.

Lemma str_le_stdpp s t : str_le s t ↔ String.le s t.
Proof. unfold str_le, String.le. by rewrite Is_true_true. Qed.

#[global] Instance str_le_po : PartialOrder str_le.
Proof.
  split; [split|].
  - intros s. by apply str_le_stdpp.
  - intros s t u. rewrite !str_le_stdpp. by intros; etrans.
  - intros s t. rewrite !str_le_stdpp. apply (anti_symm String.le).
Qed.
#[global] Instance str_le_total : Total str_le.
Proof. intros s t. rewrite !str_le_stdpp. apply (total String.le). Qed.

Lemma str_lt_le s t : str_lt s t ↔ str_le s t ∧ s ≠ t.
Proof.
  unfold str_lt, str_le, String.ltb, String.leb.
  destruct (s ?= t)%string eqn:E.
  - apply String.compare_eq_iff in E. naive_solver.
  - split; [|done]. intros _. split; [done|]. intros ->.
    assert ((t ?= t)%string = Eq) as H; [|congruence].
    clear E. induction t as [|a t IH]; simpl; [done|].
    unfold Ascii.compare. by rewrite N.compare_refl.
  - naive_solver.
Qed.

Lemma str_le_lt_eq s t : str_le s t ↔ str_lt s t ∨ s = t.
Proof.
  rewrite str_lt_le. split.
  - intros H. destruct (decide (s = t)); auto.
  - intros [[]| ->]; [done|reflexivity].
Qed.

Lemma str_lt_irrefl s : ¬ str_lt s s.
Proof. rewrite str_lt_le. naive_solver. Qed.

Lemma str_lt_not_le s t : ¬ str_lt s t ↔ str_le t s.
Proof.
  rewrite str_lt_le. split.
  - intros H. destruct (total str_le s t) as [H'|]; [|done].
    destruct (decide (s = t)) as [->|]; [reflexivity|naive_solver].
  - intros H [H1 H2]. apply H2. by apply (anti_symm str_le).
Qed.

#[global] Instance str_lt_trans : Transitive str_lt.
Proof.
  intros s t u. rewrite !str_lt_le. intros [H1 H2] [H3 H4]. split; [by etrans|].
  intros ->. apply H2. by apply (anti_symm str_le).
Qed.

Lemma str_lt_le_trans s t u : str_lt s t → str_le t u → str_lt s u.
Proof. intros H [H'| ->]%str_le_lt_eq; [by etrans|done]. Qed.

Lemma str_le_lt_trans s t u : str_le s t → str_lt t u → str_lt s u.
Proof. intros [H| ->]%str_le_lt_eq H'; [by etrans|done]. Qed.

(** Comparison looks at the first differing byte. *)
Lemma str_lt_cons a s b t :
  str_lt (String a s) (String b t) ↔
    (N_of_ascii a < N_of_ascii b)%N ∨ (a = b ∧ str_lt s t).
Proof.
  unfold str_lt, String.ltb. simpl. unfold Ascii.compare.
  destruct (N.compare_spec (N_of_ascii a) (N_of_ascii b)) as [H|H|H].
  - assert (a = b) as ->.
    { by rewrite <- (ascii_N_embedding a), <- (ascii_N_embedding b), H. }
    split; [naive_solver|]. intros [?|[_ ?]]; [lia|done].
  - naive_solver.
  - split; [done|]. intros [?|[-> ?]]; lia.
Qed.

Lemma str_lt_nil_r s : ¬ str_lt s "".
Proof. unfold str_lt, String.ltb. by destruct s. Qed.

Lemma str_lt_nil_cons a s : str_lt "" (String a s).
Proof. done. Qed.

(** [str::starts_with], [str::strip_prefix], [str::strip_suffix] for one character. *)
Definition starts_with (s p : string) : bool := String.prefix p s.

Fixpoint strip_prefix (s p : string) {struct p} : option string :=
  match p, s with
  | EmptyString, _ => Some s
  | String a p', String b s' => if decide (a = b) then strip_prefix s' p' else None
  | _, EmptyString => None
  end.

Fixpoint strip_suffix_char (s : string) (c : ascii) : option string :=
  match s with
  | EmptyString => None
  | String a EmptyString => if decide (a = c) then Some "" else None
  | String a s' => String a <$> strip_suffix_char s' c
  end.

(** [str::find] for a string pattern: the least byte offset where it occurs. *)
Fixpoint find (s pat : string) : option nat :=
  if starts_with s pat then Some 0%nat
  else match s with
       | EmptyString => None
       | String _ s' => S <$> find s' pat
       end.

Lemma append_cons a s t : String.append (String a s) t = String a (String.append s t).
Proof. done. Qed.

Lemma as_bytes_append (s t : string) : as_bytes (String.append s t) = as_bytes s ++ as_bytes t.
Proof. unfold as_bytes. induction s as [|a s IH]; [done|]. rewrite append_cons. simpl. by rewrite IH. Qed.

Lemma append_nil_l s : String.append "" s = s.
Proof. done. Qed.

Lemma strip_prefix_Some s p r : strip_prefix s p = Some r ↔ s = String.append p r.
Proof.
  revert s. induction p as [|a p IH]; intros s; simpl; [rewrite append_nil_l; naive_solver|].
  rewrite append_cons. destruct s as [|b s]; [split; discriminate|].
  destruct (decide (a = b)) as [->|Hne]; [rewrite IH|]; naive_solver.
Qed.

Lemma starts_with_spec s p : starts_with s p = true ↔ ∃ r, s = String.append p r.
Proof.
  unfold starts_with. revert s. induction p as [|a p IH]; intros s; simpl.
  - split; [by exists s|by destruct s].
  - setoid_rewrite append_cons. destruct s as [|b s]; simpl; [naive_solver|].
    destruct (ascii_dec a b) as [->|Hne]; [rewrite IH|]; naive_solver.
Qed.

Lemma starts_with_strip s p : starts_with s p = true ↔ is_Some (strip_prefix s p).
Proof.
  rewrite starts_with_spec. unfold is_Some. by setoid_rewrite strip_prefix_Some.
Qed.

Lemma strip_suffix_char_Some s c r :
  strip_suffix_char s c = Some r ↔ s = String.append r (String c "").
Proof.
  revert r. induction s as [|a s IH]; intros r; [by destruct r|].
  destruct s as [|b s].
  - simpl. destruct r as [|x [|y r]]; rewrite ?append_cons, ?append_nil_l;
      destruct (decide (a = c)); naive_solver.
  - change (strip_suffix_char (String a (String b s)) c)
      with (String a <$> strip_suffix_char (String b s) c).
    rewrite fmap_Some. setoid_rewrite IH. destruct r as [|x r].
    + rewrite append_nil_l. naive_solver.
    + rewrite append_cons. split; [by intros (? & -> & [= -> ->])|].
      intros [= -> ->]. by exists r.
Qed.

Lemma append_assoc (s t u : string) :
  String.append s (String.append t u) = String.append (String.append s t) u.
Proof. induction s as [|a s IH]; [done|]. by rewrite !append_cons, IH. Qed.

(** A prefix and its extensions sort together. *)
Lemma str_le_append p r : str_le p (String.append p r).
Proof.
  apply str_lt_not_le. induction p as [|a p IH]; [apply str_lt_nil_r|].
  rewrite append_cons, str_lt_cons. intros [?|[_ ?]]; [lia|auto].
Qed.

(** ** Lists *)

(** Stable insertion sort by a decidable total order: what [sort_by], [sort_by_key] and
    SQL's ORDER BY compute. *)
Section sort_by.
Context {A : Type} (R : relation A) `{!RelDecision R}.

Fixpoint insert_by (x : A) (l : list A) : list A :=
  match l with
  | [] => [x]
  | y :: l' => if decide (R x y) then x :: y :: l' else y :: insert_by x l'
  end.

Definition sort_by (l : list A) : list A := foldr insert_by [] l.

Lemma insert_by_perm x l : insert_by x l ≡ₚ x :: l.
Proof.
  induction l as [|y l IH]; simpl; [done|].
  destruct (decide (R x y)); [done|]. rewrite IH. by constructor.
Qed.

Lemma sort_by_perm l : sort_by l ≡ₚ l.
Proof. induction l as [|x l IH]; simpl; [done|]. by rewrite insert_by_perm, IH. Qed.

Lemma elem_of_sort_by x l : x ∈ sort_by l ↔ x ∈ l.
Proof. by rewrite sort_by_perm. Qed.

Lemma length_sort_by l : length (sort_by l) = length l.
Proof. by rewrite sort_by_perm. Qed.

(** A sorted list is left as it is. *)
Lemma sort_by_id l : StronglySorted R l → sort_by l = l.
Proof.
  induction 1 as [|x l Hs IH Hf]; simpl; [done|]. rewrite IH.
  destruct Hf as [|y l Hxy _]; simpl; [done|]. by rewrite decide_True.
Qed.

Context `{!Transitive R, !Total R}.

Lemma insert_by_sorted x l : StronglySorted R l → StronglySorted R (insert_by x l).
Proof.
  induction 1 as [|y l Hs IH Hf]; simpl; [by repeat constructor|].
  destruct (decide (R x y)) as [Hxy|Hxy].
  - constructor; [by constructor|]. constructor; [done|].
    eapply Forall_impl; [exact Hf|]. intros z Hz. by etrans.
  - constructor; [done|]. rewrite insert_by_perm. constructor; [|done].
    by destruct (total R x y).
Qed.

Lemma sort_by_sorted l : StronglySorted R (sort_by l).
Proof. induction l; simpl; [constructor|by apply insert_by_sorted]. Qed.
End sort_by.

#[export] Hint Resolve sort_by_sorted : shard.

(** [slice::chunks_exact(n)]: the complete chunks of [n] bytes, the tail left out. *)
Fixpoint chunks_exact {A} (fuel : nat) (n : nat) (l : list A) : list (list A) :=
  match fuel with
  | O => []
  | S f => if decide (n ≤ length l)%nat
           then take n l :: chunks_exact f n (drop n l) else []
  end.

(** The order in which rows of a query without ORDER BY, or entries of a [HashMap], are
    visited: unspecified, so the components take it as a parameter. *)
Class IterOrder := {
  iter_order : ∀ {A : Type}, list A → list A;
  iter_order_perm : ∀ {A : Type} (l : list A), iter_order l ≡ₚ l;
}.

Lemma elem_of_iter_order `{!IterOrder} {A} (x : A) l : x ∈ iter_order l ↔ x ∈ l.
Proof. by rewrite iter_order_perm. Qed.

(** Insertion order, and its reverse: two orders the class admits. *)
Definition order_id : IterOrder := {| iter_order _ l := l; iter_order_perm _ l := Permutation_refl l |}.
Definition order_rev : IterOrder := {| iter_order _ l := rev l; iter_order_perm _ l := Permutation_sym (Permutation_rev l) |}.

Lemma foldl_invariant {A B} (I : A → Prop) (f : A → B → A) l a :
  (∀ a b, b ∈ l → I a → I (f a b)) → I a → I (foldl f a l).
Proof.
  revert a. induction l as [|b l IH]; intros a Hf Ha; simpl; [done|].
  apply IH; [intros; apply Hf; [by right|done]|]. apply Hf; [by left|done].
Qed.

(** Folding pairwise commuting updates does not depend on the order. *)
Lemma foldl_perm {A B} (f : A → B → A) l1 l2 a :
  l1 ≡ₚ l2 →
  (∀ a x y, x ∈ l1 → y ∈ l1 → f (f a x) y = f (f a y) x) →
  foldl f a l1 = foldl f a l2.
Proof.
  intros Hp. revert a. induction Hp as [|x l1 l2 Hp IH|x y l|l1 l2 l3 Hp1 IH1 Hp2 IH2];
    intros a Hc; simpl.
  - done.
  - apply IH. intros; apply Hc; by right.
  - rewrite Hc; [done|repeat constructor..].
  - rewrite IH1; [|done]. apply IH2. intros b x y Hx Hy.
    apply Hc; by rewrite Hp1.
Qed.

(** ** Tactics *)

(** Split a matched result and clear the impossible branches. *)
Ltac case_result :=
  match goal with
  | H : context [match ?x with Ok _ => _ | Err _ => _ end] |- _ =>
      let E := fresh "E" in destruct x eqn:E; simplify_eq
  | |- context [match ?x with Ok _ => _ | Err _ => _ end] =>
      let E := fresh "E" in destruct x eqn:E; simplify_eq
  end.

(** Unfold a monadic definition down to its matches. *)
Ltac run_io := unfold bind, ret, fail, lift, attempt, map_err in *; simpl in *.

(** ** Computations that move a state along a relation *)

Definition moves {W E A} (R : relation W) (m : io W E A) : Prop := ∀ w, R w (m w).2.

Section moves.
Context {W : Type} (R : relation W) `{!PreOrder R}.

Lemma moves_still {E A} (m : io W E A) : (∀ w, (m w).2 = w) → moves R m.
Proof. intros Hm w. rewrite Hm. reflexivity. Qed.

Lemma moves_ret {E A} (a : A) : moves R (ret (E := E) a).
Proof. by apply moves_still. Qed.

Lemma moves_fail {E A} (e : E) : moves R (fail (A := A) e).
Proof. by apply moves_still. Qed.

Lemma moves_lift {E A} (r : result E A) : moves R (lift r).
Proof. by apply moves_still. Qed.

Lemma moves_bind {E A B} (m : io W E A) (k : A → io W E B) :
  moves R m → (∀ a, moves R (k a)) → moves R (bind m k).
Proof.
  intros Hm Hk w. specialize (Hm w). unfold bind. destruct (m w) as [[a|e] w1]; [|done].
  etrans; [exact Hm|apply Hk].
Qed.

Lemma moves_map_err {E F A} (f : E → F) (m : io W E A) : moves R m → moves R (map_err f m).
Proof. intros Hm w. specialize (Hm w). unfold map_err. by destruct (m w) as [[a|e] w1]. Qed.

Lemma moves_attempt {E F A} (m : io W E A) : moves R m → moves R (attempt (F := F) m).
Proof. intros Hm w. specialize (Hm w). unfold attempt. by destruct (m w). Qed.

Lemma moves_for_each {E A} (body : A → io W E unit) xs :
  (∀ x, moves R (body x)) → moves R (for_each body xs).
Proof. intros Hb. induction xs; [apply moves_ret|]. by apply moves_bind. Qed.

Lemma moves_map_each {E A B} (body : A → io W E B) xs :
  (∀ x, moves R (body x)) → moves R (map_each body xs).
Proof.
  intros Hb. induction xs; [apply moves_ret|]. apply moves_bind; [done|]. intros y.
  apply moves_bind; [done|]. intros ys. apply moves_ret.
Qed.
End moves.

Create HintDb moves.
#[export] Hint Resolve moves_ret moves_fail moves_lift : moves.

(** Decompose a computation along its structure. *)
Ltac moves_step :=
  first
    [ progress intros
    | solve [eauto with moves typeclass_instances nocore]
    | apply moves_bind; [typeclasses eauto|..]
    | apply moves_for_each; [typeclasses eauto|..]
    | apply moves_map_each; [typeclasses eauto|..]
    | apply moves_map_err
    | apply moves_attempt
    | match goal with |- moves _ (match ?x with _ => _ end) => destruct x end ].
Ltac moves_auto := repeat moves_step.
