(* ===== verification/Crates.v ===== *)
(** * Third-party crates the sources call

    blake3, md-5, hex, uuid and fastcdc are not part of the repository.  Each is a class:
    its functions are fields and the documented behaviour the sources rely on are its
    laws.  The components are stated over the classes; [Reference] gives one small
    implementation of each, which shows the laws can hold and lets concrete runs be
    evaluated.  The JSON codec is in [Store], next to the types it encodes. *)

From S2P Require Import Prelude.

(** [blake3::hash(data).as_bytes()]: 32 bytes.  No injectivity is assumed; theorems that
    need two blocks to have different digests say so about those blocks. *)
Class Blake3 := {
  blake3 : bytes → bytes;
  blake3_length : ∀ b, length (blake3 b) = 32%nat;
}.

(** [Md5]: the digest of all bytes fed by [update]. *)
Class Md5 := { md5 : bytes → bytes }.

(** [hex::encode] and [hex::decode]: two characters per byte, none of them a dot (they are
    hexadecimal digits), and decoding inverts. *)
Class Hex := {
  hex_encode : bytes → string;
  hex_decode : string → option bytes;
  hex_decode_encode : ∀ b, hex_decode (hex_encode b) = Some b;
  hex_encode_length : ∀ b, String.length (hex_encode b) = (2 * length b)%nat;
  hex_encode_no_dot : ∀ b, ("."%char : ascii) ∉ as_bytes (hex_encode b);
}.

Lemma hex_encode_inj `{!Hex} b c : hex_encode b = hex_encode c → b = c.
Proof. intros Heq%(f_equal hex_decode). rewrite !hex_decode_encode in Heq. congruence. Qed.

(** [Uuid]: 128-bit identifiers with a canonical text form. *)
Class UuidCodec := {
  Uuid : Type;
  uuid_to_string : Uuid → string;
  uuid_parse_str : string → option Uuid;
  uuid_parse_to_string : ∀ u, uuid_parse_str (uuid_to_string u) = Some u;
}.

Lemma uuid_to_string_inj `{!UuidCodec} u v : uuid_to_string u = uuid_to_string v → u = v.
Proof. intros Heq%(f_equal uuid_parse_str). rewrite !uuid_parse_to_string in Heq. congruence. Qed.

(** The sizes [fastcdc::v2020::FastCDC::new] accepts: its documented constants
    [MINIMUM_MIN..=MINIMUM_MAX], [AVERAGE_MIN..=AVERAGE_MAX] and [MAXIMUM_MIN..=MAXIMUM_MAX];
    it panics on any other. *)
Definition fastcdc_accepts (min avg max : nat) : Prop :=
  64 ≤ Z.of_nat min ≤ 1048576 ∧ 256 ≤ Z.of_nat avg ≤ 4194304 ∧ 1024 ≤ Z.of_nat max ≤ 16777216.

#[export] Instance fastcdc_accepts_dec min avg max : Decision (fastcdc_accepts min avg max).
Proof. unfold fastcdc_accepts. apply _. Defined.

(** [fastcdc::v2020::FastCDC::new(buf, min, avg, max).next()]: the first chunk of the
    buffer as [(offset, length)], or the panic of [new] on sizes out of its limits.  With
    accepted, ordered sizes the chunk starts at offset 0, is not empty, lies inside the
    buffer and is at most [max] long; it is the whole buffer or not below [min] (the scan
    moves two bytes at a time, so from [min] rounded down to even); an empty buffer has no
    chunk. *)
Class FastCdc := {
  fastcdc_first : bytes → nat → nat → nat → result panic (option (nat * nat));
  fastcdc_first_panics : ∀ buf min avg max,
    fastcdc_first buf min avg max = Err Panic ↔ ¬ fastcdc_accepts min avg max;
  fastcdc_first_bounds : ∀ buf min avg max off len,
    (min ≤ avg)%nat → (avg ≤ max)%nat →
    fastcdc_first buf min avg max = Ok (Some (off, len)) →
    off = 0%nat ∧ (0 < len)%nat ∧ (len ≤ length buf)%nat ∧ (len ≤ max)%nat ∧
    (len = length buf ∨ 2 * (min / 2) ≤ len)%nat;
  fastcdc_first_None : ∀ buf min avg max,
    fastcdc_first buf min avg max = Ok None → buf = [];
}.

Module Reference.

(** The first 32 bytes, padded with zeros: injective on short blocks. *)
Definition pad_hash (b : bytes) : bytes := take 32 (b ++ replicate 32 Ascii.zero).

#[local] Instance blake3_pad : Blake3.
Proof.
  refine {| blake3 := pad_hash |}.
  intros b. unfold pad_hash. rewrite length_take, length_app, length_replicate. lia.
Defined.

#[local] Instance md5_rev : Md5 := {| md5 := λ b, rev b |}.

Definition nibble (n : N) : ascii :=
  if (n <? 10)%N then ascii_of_N (48 + n) else ascii_of_N (87 + n).

Definition unnibble (c : ascii) : option N :=
  let n := N_of_ascii c in
  if (48 <=? n)%N && (n <=? 57)%N then Some (n - 48)%N
  else if (97 <=? n)%N && (n <=? 102)%N then Some (n - 87)%N
  else if (65 <=? n)%N && (n <=? 70)%N then Some (n - 55)%N
  else None.

Fixpoint lower_hex (b : bytes) : string :=
  match b with
  | [] => ""
  | c :: b' =>
      String (nibble (N_of_ascii c / 16)) (String (nibble (N_of_ascii c mod 16)) (lower_hex b'))
  end.

Fixpoint unhex (s : string) : option bytes :=
  match s with
  | EmptyString => Some []
  | String hi (String lo s') =>
      h ← unnibble hi; l ← unnibble lo; r ← unhex s'; Some (ascii_of_N (16 * h + l) :: r)
  | _ => None
  end.

Lemma unhex_lower_hex b : unhex (lower_hex b) = Some b.
Proof.
  induction b as [|c b IH]; [done|].
  cbn [lower_hex unhex].
  assert (unnibble (nibble (N_of_ascii c / 16)) = Some (N_of_ascii c / 16)%N ∧
          unnibble (nibble (N_of_ascii c mod 16)) = Some (N_of_ascii c mod 16)%N ∧
          ascii_of_N (16 * (N_of_ascii c / 16) + N_of_ascii c mod 16) = c) as (-> & -> & H).
  { by destruct c as [[] [] [] [] [] [] [] []]. }
  simpl. rewrite IH. simpl. by rewrite H.
Qed.

#[local] Instance hex_lower : Hex.
Proof.
  refine {| hex_encode := lower_hex; hex_decode := unhex; hex_decode_encode := unhex_lower_hex |}.
  - intros b. induction b as [|c b IH]; [done|]. cbn [lower_hex String.length]. rewrite IH. simpl. lia.
  - intros b. induction b as [|c b IH]; [by intros ?%elem_of_nil|].
    change (as_bytes (lower_hex (c :: b))) with
      (nibble (N_of_ascii c / 16) :: nibble (N_of_ascii c mod 16) :: as_bytes (lower_hex b)).
    rewrite !elem_of_cons. intros [Hc|[Hc|Hc]]; [| |by apply IH];
      by destruct c as [[] [] [] [] [] [] [] []].
Defined.

(** Identifiers that are their own text. *)
#[local] Instance uuid_text : UuidCodec :=
  {| Uuid := string; uuid_to_string s := s; uuid_parse_str := Some; uuid_parse_to_string _ := eq_refl |}.

(** Cuts every [max] bytes. *)
#[local] Instance fastcdc_max : FastCdc.
Proof.
  refine {| fastcdc_first buf min avg max :=
              if decide (fastcdc_accepts min avg max) then
                Ok match buf with [] => None | _ => Some (0, Nat.min (length buf) max)%nat end
              else Err Panic |}.
  - intros buf min avg max. by case_decide.
  - intros buf min avg max off len ??. case_decide as Ha; [|done].
    destruct buf as [|a buf]; [done|]. set (n := length (a :: buf)).
    assert (0 < n)%nat by (unfold n; cbn [length]; lia). clearbody n. intros [= <- <-].
    pose proof (Nat.Div0.mul_div_le min 2). destruct Ha as (? & ? & ?). lia.
  - intros buf min avg max. case_decide; [|done]. by destruct buf.
Defined.

End Reference.
