(* ===== verification/Clock.v ===== *)
(** * The cluster clock (src/clock.rs)

    [ClusterClock] adds a signed millisecond offset to the system clock; [now_micros] is
    the last-write-wins timestamp of every mutating row.  The file also holds the offset
    computation of the join handshake and of the periodic clock sync (src/main.rs). *)

From S2P Require Import Prelude.

(** [SystemTime] as the nanoseconds since the Unix epoch it denotes; it may lie before
    the epoch. *)
Definition SystemTime : Type := Z.

Record ClusterClock : Type := mkClock { offset_ms : Z }.

Definition new (offset : Z) : ClusterClock := mkClock offset.
Definition set_offset (_ : ClusterClock) (offset : Z) : ClusterClock := mkClock offset.
Definition get_offset (c : ClusterClock) : Z := offset_ms c.

(** [duration_since(UNIX_EPOCH).unwrap_or_else(|e| e.duration()).as_micros() as i64]: a
    time before the epoch contributes its distance to it. *)
Definition system_micros (t : SystemTime) : Z := wrap_i64 (Z.abs t / 1000).

Definition now_micros (c : ClusterClock) (t : SystemTime) : Z :=
  wrap_i64 (system_micros t + wrap_i64 (offset_ms c * 1000)).

(** The arithmetic [refresh_clock_offset] and [perform_join_handshake] share, from the
    peer's answer and the measured round trip.  [duration_since(UNIX_EPOCH)?] fails before
    the epoch; [i64] division by 1000 truncates toward zero. *)
Inductive clock_error : Type := BeforeEpoch.

Definition measured_offset_ms (cluster_time_micros rtt_micros : Z) (t : SystemTime)
    : result clock_error Z :=
  if t <? 0 then Err BeforeEpoch else
  let local_now_micros := wrap_i64 (t / 1000) in
  let adjusted_leader_time := wrap_i64 (cluster_time_micros + wrap_i64 (rtt_micros / 2)) in
  let offset_micros := wrap_i64 (adjusted_leader_time - local_now_micros) in
  Ok (Z.quot offset_micros 1000).

(** The periodic sync only moves the clock when the drift exceeds 10 ms. *)
Definition refresh_clock_offset (c : ClusterClock) (cluster_time_micros rtt_micros : Z)
    (t : SystemTime) : result clock_error ClusterClock :=
  match measured_offset_ms cluster_time_micros rtt_micros t with
  | Err e => Err e
  | Ok offset =>
      let old_offset := get_offset c in
      Ok (if 10 <? Z.abs (offset - old_offset) then set_offset c offset else c)
  end.

(** ** Bounds *)

(** Clock readings for which the arithmetic of the code stays inside [i64]: times within
    about 146,000 years of the epoch and offsets of the same magnitude. *)
Definition clock_in_range (c : ClusterClock) (t : SystemTime) : Prop :=
  0 ≤ t < 2 ^ 62 * 1000 ∧ - 2 ^ 62 ≤ offset_ms c * 1000 < 2 ^ 62.

Lemma now_micros_value c t :
  clock_in_range c t → now_micros c t = t / 1000 + offset_ms c * 1000.
Proof.
  intros [Ht Ho]. unfold now_micros, system_micros. rewrite Z.abs_eq by lia.
  assert (0 ≤ t / 1000 < 2 ^ 62).
  { split; [apply Z.div_pos; lia|]. apply Z.div_lt_upper_bound; lia. }
  rewrite (wrap_i64_small (t / 1000)), (wrap_i64_small (offset_ms c * 1000)), wrap_i64_small;
    unfold in_i64; lia.
Qed.

(** In range, the clock is the system time in microseconds plus the offset, so it is
    monotone in the system time under a fixed offset and a larger offset gives a later
    reading. *)
Theorem now_micros_monotone c t1 t2 :
  clock_in_range c t1 → clock_in_range c t2 → t1 ≤ t2 →
  now_micros c t1 ≤ now_micros c t2 ∧ now_micros c t2 - now_micros c t1 = t2 / 1000 - t1 / 1000.
Proof.
  intros H1 H2 Hle. rewrite !now_micros_value by done.
  pose proof (Z.div_le_mono t1 t2 1000). lia.
Qed.

Lemma now_micros_monotone_witness :
  now_micros (new 500) 1000000 ≤ now_micros (new 500) 3000000 ∧
  now_micros (new 500) 3000000 - now_micros (new 500) 1000000 = 2000.
Proof.
  apply (now_micros_monotone (new 500) 1000000 3000000);
    unfold clock_in_range, new; simpl; lia.
Defined.

(** A clock sync against a peer whose clock reads [cluster] and whose answer took [rtt]
    succeeds, and afterwards the local cluster clock is within one sync threshold of the
    peer's adjusted time: 10 ms for an offset left alone plus 1 ms for the truncation to
    milliseconds. *)
Theorem refresh_clock_offset_converges c cluster rtt t :
  0 ≤ t < 2 ^ 61 * 1000 → 0 ≤ cluster < 2 ^ 61 → 0 ≤ rtt < 2 ^ 60 →
  clock_in_range c t →
  ∃ c', refresh_clock_offset c cluster rtt t = Ok c' ∧
        Z.abs (now_micros c' t - (cluster + rtt / 2)) < 11000.
Proof.
  intros Ht Hc Hr [Ht' Ho].
  assert (0 ≤ t / 1000 < 2 ^ 61).
  { split; [apply Z.div_pos; lia|]. apply Z.div_lt_upper_bound; lia. }
  assert (0 ≤ rtt / 2 < 2 ^ 59).
  { split; [apply Z.div_pos; lia|]. apply Z.div_lt_upper_bound; lia. }
  set (d := cluster + rtt / 2 - t / 1000).
  assert (measured_offset_ms cluster rtt t = Ok (Z.quot d 1000)) as Hm.
  { unfold measured_offset_ms. destruct (Z.ltb_spec t 0); [lia|].
    rewrite (wrap_i64_small (rtt / 2)), (wrap_i64_small (cluster + rtt / 2)),
      (wrap_i64_small (t / 1000)), wrap_i64_small; unfold in_i64; subst d; lia || done. }
  pose proof (Z.quot_rem' d 1000) as Hq.
  pose proof (Z.rem_bound_abs d 1000 ltac:(lia)) as Hb.
  unfold refresh_clock_offset. rewrite Hm. eexists; split; [done|]. unfold get_offset.
  destruct (Z.ltb_spec 10 (Z.abs (d ÷ 1000 - offset_ms c))) as [Hl|Hl];
    rewrite now_micros_value by (split; simpl; lia); simpl; lia.
Qed.

Lemma refresh_clock_offset_converges_witness :
  ∃ c', refresh_clock_offset (new 0) 5000000 200 1000000 = Ok c' ∧
        Z.abs (now_micros c' 1000000 - (5000000 + 200 / 2)) < 11000.
Proof.
  apply (refresh_clock_offset_converges (new 0) 5000000 200 1000000);
    unfold clock_in_range, new; simpl; lia.
Defined.
