(* ===== verification/Hashing.v ===== *)
(** * Shard ids and prefix key ranges (src/hashing.rs)

    [prefix_key_range] turns a listing prefix into the bounds of an index scan.  The
    theorems show the bounds select exactly the keys with the prefix, and for which
    prefixes the function panics. *)

From S2P Require Import Prelude Crates.

Definition NUM_SHARDS : Z := 64.

(** [(blake3::hash(key).as_bytes()[0] as i32) & (NUM_SHARDS - 1)] *)
Definition compute_shard_id `{!Blake3} (key : string) : Z :=
  match blake3 (as_bytes key) with
  | b0 :: _ => Z.land (Z.of_N (N_of_ascii b0)) (NUM_SHARDS - 1)
  | [] => 0
  end.

(** ** [String::from_utf8]: the well-formed byte sequences of UTF-8. *)
Definition in_range (lo hi : N) (c : ascii) : bool :=
  (lo <=? N_of_ascii c)%N && (N_of_ascii c <=? hi)%N.
Definition continuation (c : ascii) : bool := in_range 128 191 c.

Fixpoint utf8_valid (b : bytes) : bool :=
  match b with
  | [] => true
  | c0 :: r =>
      if in_range 0 127 c0 then utf8_valid r
      else if in_range 194 223 c0 then
        match r with c1 :: r1 => continuation c1 && utf8_valid r1 | _ => false end
      else if in_range 224 239 c0 then
        match r with
        | c1 :: c2 :: r2 =>
            (if in_range 224 224 c0 then in_range 160 191 c1
             else if in_range 237 237 c0 then in_range 128 159 c1
             else continuation c1) && continuation c2 && utf8_valid r2
        | _ => false
        end
      else if in_range 240 244 c0 then
        match r with
        | c1 :: c2 :: c3 :: r3 =>
            (if in_range 240 240 c0 then in_range 144 191 c1
             else if in_range 244 244 c0 then in_range 128 143 c1
             else continuation c1) && continuation c2 && continuation c3 && utf8_valid r3
        | _ => false
        end
      else false
  end.

(** The loop of [increment_prefix], on the bytes from the last one: increment the last
    byte below 0xFF, or pop it.  [expect("prefix was valid UTF-8")] is the panic. *)
Fixpoint increment_loop (rbytes : bytes) : result panic (option string) :=
  match rbytes with
  | [] => Ok None
  | b :: rest =>
      if (N_of_ascii b <? 255)%N then
        let bytes := rev (ascii_of_N (N_of_ascii b + 1) :: rest) in
        if utf8_valid bytes then Ok (Some (of_bytes bytes)) else Err Panic
      else increment_loop rest
  end.

Definition increment_prefix (prefix : string) : result panic (option string) :=
  increment_loop (rev (as_bytes prefix)).

Definition prefix_key_range (prefix : string) : result panic (string * option string) :=
  match increment_prefix prefix with
  | Ok upper => Ok (prefix, upper)
  | Err p => Err p
  end.

(** ** Helper lemmas *)

(** The upper bound computed from the front of the prefix. *)
Fixpoint next_prefix (p : string) : option string :=
  match p with
  | EmptyString => None
  | String a p' =>
      match next_prefix p' with
      | Some u => Some (String a u)
      | None => if (N_of_ascii a <? 255)%N then Some (String (ascii_of_N (N_of_ascii a + 1)) "") else None
      end
  end.

Lemma of_bytes_cons a b : of_bytes (a :: b) = String a (of_bytes b).
Proof. done. Qed.

Lemma next_prefix_snoc p a :
  next_prefix (of_bytes (p ++ [a])) =
    if (N_of_ascii a <? 255)%N then Some (of_bytes (p ++ [ascii_of_N (N_of_ascii a + 1)]))
    else next_prefix (of_bytes p).
Proof.
  induction p as [|b p IH]; simpl.
  - by destruct (N_of_ascii a <? 255)%N.
  - change (of_bytes (b :: p ++ [a])) with (String b (of_bytes (p ++ [a]))). simpl.
    change (string_of_list_ascii (p ++ [a])) with (of_bytes (p ++ [a])). rewrite IH.
    by destruct (N_of_ascii a <? 255)%N.
Qed.

Lemma increment_loop_next rb u :
  increment_loop rb = Ok u → next_prefix (of_bytes (rev rb)) = u.
Proof.
  induction rb as [|b rb IH]; simpl; [by intros [= <-]|].
  rewrite next_prefix_snoc. destruct (N_of_ascii b <? 255)%N; [|done].
  destruct (utf8_valid _); [by intros [= <-]|done].
Qed.

Lemma increment_prefix_next p u : increment_prefix p = Ok u → next_prefix p = u.
Proof.
  intros H%increment_loop_next. unfold as_bytes in H. rewrite rev_involutive in H.
  unfold of_bytes in H. by rewrite string_of_list_ascii_of_string in H.
Qed.

Definition below (k : string) (u : option string) : Prop :=
  match u with Some u => str_lt k u | None => True end.

Lemma N_of_ascii_succ a :
  (N_of_ascii a < 255)%N → N_of_ascii (ascii_of_N (N_of_ascii a + 1)) = (N_of_ascii a + 1)%N.
Proof. intros. apply N_ascii_embedding. lia. Qed.

Lemma N_of_ascii_inj a b : N_of_ascii a = N_of_ascii b → a = b.
Proof. intros H. by rewrite <- (ascii_N_embedding a), H, ascii_N_embedding. Qed.

Lemma str_le_cons a s b t :
  str_le (String a s) (String b t) ↔ (N_of_ascii a < N_of_ascii b)%N ∨ (a = b ∧ str_le s t).
Proof. rewrite !str_le_lt_eq, str_lt_cons. naive_solver. Qed.

Lemma next_prefix_exact p k :
  str_le p k ∧ below k (next_prefix p) ↔ ∃ r, k = String.append p r.
Proof.
  revert k. induction p as [|a p IH]; intros k.
  { split; [by exists k|]. intros _. split; [|done]. rewrite str_le_lt_eq.
    destruct k; [by right|by left]. }
  destruct k as [|b k].
  { split; [|by intros [r ?]]. intros [H%str_lt_not_le _]. by destruct H. }
  setoid_rewrite append_cons. rewrite str_le_cons. simpl.
  assert (∀ u, str_lt (String b k) (String a u) ↔
            (N_of_ascii b < N_of_ascii a)%N ∨ (b = a ∧ str_lt k u)) as Hlt.
  { intros u. by rewrite str_lt_cons. }
  assert ((∃ r, String b k = String a (String.append p r)) ↔
          b = a ∧ (str_le p k ∧ below k (next_prefix p))) as ->.
  { rewrite IH. naive_solver. }
  destruct (next_prefix p) as [u|] eqn:Hn; simpl.
  - rewrite Hlt. split; [|naive_solver].
    intros [[?|[-> ?]] [?|[? ?]]]; subst; lia || done.
  - pose proof (N_ascii_bounded b).
    destruct (N.ltb_spec (N_of_ascii a) 255) as [Ha|Ha]; simpl.
    + rewrite str_lt_cons, N_of_ascii_succ by done. split.
      * intros [[?|[-> ?]] [?|[? ?%str_lt_nil_r]]]; [lia|done..].
      * intros [-> [? _]]. split; [by right|left; lia].
    + split; [intros [[?|[-> ?]] _]; [lia|done]|intros [-> [? _]]; by eauto].
Qed.

Lemma utf8_valid_app p q : utf8_valid p = true → utf8_valid (p ++ q) = utf8_valid q.
Proof.
  remember (length p) as n eqn:Hn. revert p Hn.
  induction n as [n IH] using lt_wf_ind. intros p ->.
  destruct p as [|c0 p]; [done|]. simpl.
  destruct (in_range 0 127 c0); [apply IH with (m := length p); simpl; lia || done|].
  destruct (in_range 194 223 c0).
  { destruct p as [|c1 p]; [done|]. simpl. intros [-> Hp]%andb_true_iff.
    apply IH with (m := length p); simpl; lia || done. }
  destruct (in_range 224 239 c0).
  { destruct p as [|c1 [|c2 p]]; [done..|]. simpl. intros [[-> ->]%andb_true_iff Hp]%andb_true_iff.
    apply IH with (m := length p); simpl; lia || done. }
  destruct (in_range 240 244 c0); [|done].
  destruct p as [|c1 [|c2 [|c3 p]]]; [done..|]. simpl.
  intros [[[-> ->]%andb_true_iff ->]%andb_true_iff Hp]%andb_true_iff.
  apply IH with (m := length p); simpl; lia || done.
Qed.

Lemma utf8_valid_ascii b : Forall (λ c, in_range 0 127 c = true) b → utf8_valid b = true.
Proof. induction 1 as [|c b Hc _ IH]; simpl; [done|]. by rewrite Hc. Qed.

(** ** Properties *)

(** The shard id of any key is one of the 64 shards. *)
Theorem compute_shard_id_range `{!Blake3} key : 0 ≤ compute_shard_id key < NUM_SHARDS.
Proof.
  unfold compute_shard_id, NUM_SHARDS. destruct (blake3 _) as [|b0 ?]; [lia|].
  change (64 - 1) with (Z.ones 6). rewrite Z.land_ones by lia.
  apply Z.mod_pos_bound. lia.
Qed.

(** When [prefix_key_range] returns bounds, [lower <= key < upper] (no upper bound when
    there is none) holds of exactly the keys that start with the prefix: the index scan
    neither misses a key with the prefix nor returns one without it. *)
Theorem prefix_key_range_exact prefix lower upper key :
  prefix_key_range prefix = Ok (lower, upper) →
  (starts_with key prefix = true ↔ str_le lower key ∧ below key upper).
Proof.
  unfold prefix_key_range. intros H.
  destruct (increment_prefix prefix) as [u|] eqn:Hi; simplify_eq.
  apply increment_prefix_next in Hi as <-.
  by rewrite starts_with_spec, next_prefix_exact.
Qed.

Lemma prefix_key_range_exact_witness :
  prefix_key_range "logs/2024-" = Ok ("logs/2024-", Some "logs/2024.") ∧
  (starts_with "logs/2024-12" "logs/2024-" = true ↔
     str_le "logs/2024-" "logs/2024-12" ∧ below "logs/2024-12" (Some "logs/2024.")).
Proof.
  split; [reflexivity|]. apply (prefix_key_range_exact "logs/2024-" _ _ "logs/2024-12").
  reflexivity.
Defined.

(** A prefix of ASCII characters other than DEL (0x7F) never panics. *)
Theorem prefix_key_range_ascii_total prefix :
  Forall (λ c, in_range 0 126 c = true) (as_bytes prefix) →
  ∃ bounds, prefix_key_range prefix = Ok bounds.
Proof.
  intros Ha. unfold prefix_key_range, increment_prefix.
  destruct (rev (as_bytes prefix)) as [|b rest] eqn:Hr; simpl; [eauto|].
  assert (Forall (λ c, in_range 0 126 c = true) (rest ++ [b])) as Hf.
  { rewrite <- (Permutation_cons_append rest b), <- Hr, <- Permutation_rev. done. }
  apply Forall_app in Hf as [Hrest [Hb _]%Forall_cons].
  unfold in_range in Hb. apply andb_true_iff in Hb as [_ Hb%N.leb_le].
  destruct (N.ltb_spec (N_of_ascii b) 255); [|lia].
  rewrite utf8_valid_ascii; [by eauto|].
  apply Forall_app. split.
  - rewrite <- Permutation_rev. eapply Forall_impl; [exact Hrest|].
    unfold in_range. intros c [_ Hc%N.leb_le]%andb_true_iff.
    apply andb_true_iff. split; apply N.leb_le; lia.
  - constructor; [|done]. unfold in_range. rewrite N_of_ascii_succ by lia.
    apply andb_true_iff. split; apply N.leb_le; lia.
Qed.

Lemma prefix_key_range_ascii_total_witness :
  ∃ bounds, prefix_key_range "photos/" = Ok bounds.
Proof. apply prefix_key_range_ascii_total. repeat constructor. Defined.

Definition DEL : string := String (ascii_of_N 127) "".

(** A valid UTF-8 prefix that ends in DEL makes [prefix_key_range] panic: the last byte
    is incremented to 0x80, which is not UTF-8, and [expect] fails. *)
Theorem prefix_key_range_panics prefix :
  utf8_valid (as_bytes prefix) = true →
  utf8_valid (as_bytes (String.append prefix DEL)) = true ∧
  prefix_key_range (String.append prefix DEL) = Err Panic.
Proof.
  intros Hv. rewrite as_bytes_append, utf8_valid_app by done. split; [done|].
  unfold prefix_key_range, increment_prefix. rewrite as_bytes_append, rev_app_distr. simpl.
  by rewrite rev_involutive, utf8_valid_app.
Qed.

Lemma prefix_key_range_panics_witness :
  utf8_valid (as_bytes (String.append "tmp" DEL)) = true ∧
  prefix_key_range (String.append "tmp" DEL) = Err Panic.
Proof. apply (prefix_key_range_panics "tmp"). reflexivity. Defined.
