(* ===== verification/Chunking.v ===== *)
(** * Chunking strategies (src/chunking.rs) and their selection (src/config.rs)

    A strategy cuts complete chunks off the front of a byte buffer ([process]) and flushes
    what is left at the end of the stream ([finalize]).  [process] loops until the buffer
    is too short.  Two configurations never get there: a fixed chunk size of zero loops
    forever, and content-defined sizes outside the limits of the fastcdc crate panic; the
    model of [process] returns which of the two happened. *)

From S2P Require Import Prelude Crates.

(** How a call of [process] fails to return. *)
Inductive chunk_failure : Type :=
  | LoopsForever
  | ChunkerPanics.

Class ChunkingStrategy := {
  process : bytes → result chunk_failure (list bytes * bytes);
  finalize : bytes → option bytes * bytes;
}.

(** What the upload handlers rely on. *)
Class LawfulChunking `{!ChunkingStrategy} := {
  process_total : ∀ buf, ∃ r, process buf = Ok r;
  process_concat : ∀ buf chunks rest, process buf = Ok (chunks, rest) → buf = concat chunks ++ rest;
  process_nonempty : ∀ buf chunks rest, process buf = Ok (chunks, rest) → Forall (λ c, c ≠ []) chunks;
  finalize_flush : ∀ buf, finalize buf = (if decide (buf = []) then None else Some buf, []);
}.

(** ** [FixedSizeStrategy] *)

Record FixedSizeStrategy : Type := { chunk_size : nat }.

(** [while buffer.len() >= self.chunk_size { push(buffer.split_to(self.chunk_size)) }] *)
Fixpoint fixed_loop (fuel : nat) (s : FixedSizeStrategy) (buffer : bytes)
    : result chunk_failure (list bytes * bytes) :=
  match fuel with
  | O => Err LoopsForever
  | S f =>
      if decide (chunk_size s ≤ length buffer)%nat then
        match fixed_loop f s (drop (chunk_size s) buffer) with
        | Ok (completed_chunks, rest) => Ok (take (chunk_size s) buffer :: completed_chunks, rest)
        | Err e => Err e
        end
      else Ok ([], buffer)
  end.

(** A buffer of [n] bytes holds at most [n] nonempty chunks: [n + 1] tests of the loop
    condition are enough whenever the loop ends. *)
Definition fixed_process (s : FixedSizeStrategy) (buffer : bytes) : result chunk_failure (list bytes * bytes) :=
  fixed_loop (S (length buffer)) s buffer.

(** [if !buffer.is_empty() { Some(buffer.split().freeze()) } else { None }], in both
    strategies. *)
Definition flush (buffer : bytes) : option bytes * bytes :=
  match buffer with
  | [] => (None, [])
  | _ => (Some buffer, [])
  end.

Definition fixed_strategy (s : FixedSizeStrategy) : ChunkingStrategy :=
  {| process := fixed_process s; finalize := flush |}.

(** ** [DynamicCDCStrategy] *)

Record DynamicCDCStrategy : Type := { min_size : nat; avg_size : nat; max_size : nat }.

(** Sizes the fastcdc crate accepts, in order. *)
Definition cdc_wf (s : DynamicCDCStrategy) : Prop :=
  fastcdc_accepts (min_size s) (avg_size s) (max_size s) ∧
  (min_size s ≤ avg_size s)%nat ∧ (avg_size s ≤ max_size s)%nat.

(** [usize::try_into::<u32>()]. *)
Definition fits_u32 (n : nat) : bool := Z.of_nat n <? 2 ^ 32.

Section cdc.
Context `{!FastCdc}.

Fixpoint cdc_loop (fuel : nat) (s : DynamicCDCStrategy) (buffer : bytes)
    : result chunk_failure (list bytes * bytes) :=
  match fuel with
  | O => Err LoopsForever
  | S f =>
      if decide (length buffer < min_size s)%nat then Ok ([], buffer) else
      if negb (fits_u32 (min_size s) && fits_u32 (avg_size s) && fits_u32 (max_size s)) then
        Err ChunkerPanics
      else
      match fastcdc_first buffer (min_size s) (avg_size s) (max_size s) with
      | Err Panic => Err ChunkerPanics
      | Ok (Some (offset, len)) =>
          let end_ := (offset + len)%nat in
          if decide (end_ < length buffer ∨ max_size s ≤ len)%nat then
            match cdc_loop f s (drop end_ buffer) with
            | Ok (completed_chunks, rest) => Ok (take end_ buffer :: completed_chunks, rest)
            | Err e => Err e
            end
          else Ok ([], buffer)
      | Ok None => Ok ([], buffer)
      end
  end.

Definition cdc_process (s : DynamicCDCStrategy) (buffer : bytes) : result chunk_failure (list bytes * bytes) :=
  cdc_loop (S (length buffer)) s buffer.

Definition cdc_strategy (s : DynamicCDCStrategy) : ChunkingStrategy :=
  {| process := cdc_process s; finalize := flush |}.

(** ** Selection from the configuration *)

Inductive ChunkingConfig : Type :=
  | Fixed (max_block_size : nat)
  | Cdc (min_block_size avg_block_size max_block_size : nat).

Definition chunker_of_config (c : ChunkingConfig) : ChunkingStrategy :=
  match c with
  | Cdc min avg max => cdc_strategy {| min_size := min; avg_size := avg; max_size := max |}
  | Fixed max => fixed_strategy {| chunk_size := max |}
  end.
End cdc.

(** The chunking part of the upload loop: each frame of the body is appended to the buffer
    and the completed chunks are taken off; the rest is flushed at the end. *)
Section stream.
Context `{!ChunkingStrategy}.

Fixpoint feed (frames : list bytes) (buffer : bytes) : result chunk_failure (list bytes * bytes) :=
  match frames with
  | [] => Ok ([], buffer)
  | frame :: frames' =>
      match process (buffer ++ frame) with
      | Ok (chunks, rest) =>
          match feed frames' rest with
          | Ok (more, rest') => Ok (chunks ++ more, rest')
          | Err e => Err e
          end
      | Err e => Err e
      end
  end.

Definition chunk_stream (frames : list bytes) : result chunk_failure (list bytes) :=
  match feed frames [] with
  | Ok (chunks, rest) =>
      Ok (chunks ++ match (finalize rest).1 with Some tail => [tail] | None => [] end)
  | Err e => Err e
  end.
End stream.

(** ** Lemmas *)

Lemma flush_spec buf : flush buf = (if decide (buf = []) then None else Some buf, []).
Proof. by destruct buf. Qed.

Lemma Forall_removelast {A} (P : A → Prop) l : Forall P l → Forall P (removelast l).
Proof.
  destruct (decide (l = [])) as [->|Hl]; [done|]. destruct (exists_last Hl) as (l' & x & ->).
  rewrite removelast_last. by intros [? _]%Forall_app.
Qed.

Lemma concat_snoc {A} (ls : list (list A)) l : concat (ls ++ [l]) = concat ls ++ l.
Proof. rewrite concat_app. simpl. by rewrite app_nil_r. Qed.

(** Any strategy loop that cuts nonempty prefixes: both strategies are instances. *)
Section fixed.
Context (s : FixedSizeStrategy) (Hs : (0 < chunk_size s)%nat).

Lemma fixed_loop_total fuel buf :
  (length buf < fuel)%nat → ∃ r, fixed_loop fuel s buf = Ok r.
Proof.
  revert buf. induction fuel as [|f IH]; intros buf Hf; [lia|]. simpl.
  destruct (decide _); [|by eexists].
  destruct (IH (drop (chunk_size s) buf)) as [[cs r] Hr]; [rewrite length_drop; lia|].
  rewrite Hr. by eexists.
Qed.

(** More fuel does not change a result. *)
Lemma fixed_loop_fuel f1 f2 buf r :
  fixed_loop f1 s buf = Ok r → (f1 ≤ f2)%nat → fixed_loop f2 s buf = Ok r.
Proof.
  revert f2 buf r. induction f1 as [|f1 IH]; intros f2 buf r; simpl; [done|].
  intros H Hle. destruct f2 as [|f2]; [lia|]. simpl. destruct (decide _); [|done].
  destruct (fixed_loop f1 s _) as [[cs r']|] eqn:E; [|done].
  by rewrite (IH f2 _ _ E) by lia.
Qed.

Lemma fixed_loop_concat fuel buf chunks rest :
  fixed_loop fuel s buf = Ok (chunks, rest) →
  buf = concat chunks ++ rest ∧ Forall (λ c, length c = chunk_size s) chunks ∧
  (length rest < chunk_size s)%nat.
Proof.
  revert buf chunks. induction fuel as [|f IH]; intros buf chunks; simpl; [done|].
  destruct (decide _) as [Hc|Hc].
  - destruct (fixed_loop f s _) as [[cs r]|] eqn:E; [|done]. intros [= <- <-].
    apply IH in E as (E1 & E2 & E3). simpl. rewrite <- app_assoc, <- E1, take_drop.
    split_and!; [done| |done]. constructor; [|done]. rewrite length_take. lia.
  - intros [= <- <-]. simpl. split_and!; [done|done|lia].
Qed.

#[export] Instance fixed_lawful : @LawfulChunking (fixed_strategy s).
Proof.
  split; simpl.
  - intros buf. apply fixed_loop_total. lia.
  - intros buf cs r H. by apply fixed_loop_concat in H as [? _].
  - intros buf cs r H. apply fixed_loop_concat in H as (_ & H & _).
    eapply Forall_impl; [exact H|]. intros c Hc ->. simpl in Hc. lia.
  - apply flush_spec.
Qed.
End fixed.

Section cdc_lemmas.
Context `{!FastCdc} (s : DynamicCDCStrategy) (Hs : cdc_wf s).

Lemma cdc_wf_fits : fits_u32 (min_size s) && fits_u32 (avg_size s) && fits_u32 (max_size s) = true.
Proof. destruct Hs as [(? & ? & ?) _]. unfold fits_u32. rewrite !andb_true_iff, !Z.ltb_lt. lia. Qed.

(** With accepted sizes the constructor does not panic. *)
Lemma cdc_first_cases buf :
  (fastcdc_first buf (min_size s) (avg_size s) (max_size s) = Ok None ∧ buf = []) ∨
  ∃ len, fastcdc_first buf (min_size s) (avg_size s) (max_size s) = Ok (Some (0%nat, len)) ∧
    (0 < len)%nat ∧ (len ≤ length buf)%nat ∧ (len ≤ max_size s)%nat ∧
    (len = length buf ∨ 2 * (min_size s / 2) ≤ len)%nat.
Proof.
  destruct Hs as (Ha & Hm & HM).
  destruct (fastcdc_first _ _ _ _) as [[[off len]|]|[]] eqn:E.
  - right. apply fastcdc_first_bounds in E as (-> & E); [|done..]. by exists len.
  - left. split; [done|]. by eapply fastcdc_first_None.
  - by apply fastcdc_first_panics in E.
Qed.

Lemma cdc_loop_total fuel buf :
  (length buf < fuel)%nat → ∃ r, cdc_loop fuel s buf = Ok r.
Proof.
  revert buf. induction fuel as [|f IH]; intros buf Hf; [lia|]. simpl.
  destruct (decide _); [by eexists|]. rewrite cdc_wf_fits. simpl.
  destruct (cdc_first_cases buf) as [[-> _]|(len & -> & ? & ? & ? & _)]; [by eexists|].
  destruct (decide _); [|by eexists].
  destruct (IH (drop (0 + len) buf)) as [[cs r] Hr]; [rewrite length_drop; lia|].
  rewrite Hr. by eexists.
Qed.

(** A chunk within the configured sizes. *)
Definition cdc_sized (c : bytes) : Prop :=
  (0 < length c ≤ max_size s ∧ 2 * (min_size s / 2) ≤ length c)%nat.

Lemma cdc_loop_concat fuel buf chunks rest :
  cdc_loop fuel s buf = Ok (chunks, rest) →
  buf = concat chunks ++ rest ∧ Forall cdc_sized chunks ∧ (length rest ≤ max_size s)%nat.
Proof.
  destruct Hs as (_ & Hm & HM). pose proof (Nat.Div0.mul_div_le (min_size s) 2).
  revert buf chunks. induction fuel as [|f IH]; intros buf chunks; simpl; [done|].
  destruct (decide _) as [Hc|Hc]; [intros [= <- <-]; split_and!; [done..|lia]|].
  rewrite cdc_wf_fits. simpl.
  destruct (cdc_first_cases buf) as [[-> ->]|(len & -> & ? & ? & ? & Hmin)].
  { intros [= <- <-]. split_and!; [done..|simpl; lia]. }
  destruct (decide _) as [He|He].
  - destruct (cdc_loop f s _) as [[cs r]|] eqn:E; [|done]. intros [= <- <-].
    apply IH in E as (E1 & E2 & E3). cbn [concat]. rewrite <- app_assoc, <- E1, take_drop.
    split_and!; [done| |done]. constructor; [|done]. unfold cdc_sized. rewrite length_take.
    generalize dependent (2 * (min_size s / 2))%nat. intros k. lia.
  - intros [= <- <-]. split_and!; [done..|lia].
Qed.

#[export] Instance cdc_lawful : @LawfulChunking (cdc_strategy s).
Proof.
  split; simpl.
  - intros buf. apply cdc_loop_total. lia.
  - intros buf cs r Hl. by apply cdc_loop_concat in Hl as [? _].
  - intros buf cs r Hl. apply cdc_loop_concat in Hl as (_ & Hl & _).
    eapply Forall_impl; [exact Hl|]. intros c [Hc _] ->. simpl in Hc. lia.
  - apply flush_spec.
Qed.
End cdc_lemmas.

Section stream_lemmas.
Context `{!ChunkingStrategy, !LawfulChunking}.

Lemma feed_spec frames buf :
  ∃ chunks rest, feed frames buf = Ok (chunks, rest) ∧
    buf ++ concat frames = concat chunks ++ rest ∧ Forall (λ c, c ≠ []) chunks.
Proof.
  revert buf. induction frames as [|f fs IH]; intros buf; simpl.
  - exists [], buf. split_and!; [done|by rewrite app_nil_r|done].
  - destruct (process_total (buf ++ f)) as [[cs r] Hp]. rewrite Hp. simpl.
    destruct (IH r) as (cs' & r' & Hf & Hc & Hn). rewrite Hf. simpl.
    exists (cs ++ cs'), r'. split; [done|].
    pose proof (process_nonempty _ _ _ Hp). apply process_concat in Hp.
    split; [|by apply Forall_app]. rewrite concat_app, <- app_assoc, <- Hc, !app_assoc.
    by rewrite Hp.
Qed.

Lemma chunk_stream_spec frames :
  ∃ chunks, chunk_stream frames = Ok chunks ∧ concat chunks = concat frames ∧
    Forall (λ c, c ≠ []) chunks.
Proof.
  unfold chunk_stream. destruct (feed_spec frames []) as (cs & r & -> & Hc & Hn). simpl.
  rewrite finalize_flush. simpl in *. eexists. split; [done|].
  destruct (decide (r = [])) as [->|Hr]; simpl.
  - by rewrite app_nil_r, Hc, app_nil_r.
  - rewrite concat_snoc. split; [done|]. apply Forall_app. by repeat constructor.
Qed.
End stream_lemmas.

(** The reference chunking of a byte string: every [n] bytes, then the remainder. *)
Definition fixed_reference (s : FixedSizeStrategy) (body : bytes) : list bytes :=
  match fixed_process s body with
  | Ok (chunks, rest) => chunks ++ match rest with [] => [] | _ => [rest] end
  | Err _ => []
  end.

(** Chunks of the given size are determined by the bytes they concatenate to. *)
Lemma chunks_unique n (cs1 cs2 : list bytes) r1 r2 :
  (0 < n)%nat →
  Forall (λ c, length c = n) cs1 → Forall (λ c, length c = n) cs2 →
  (length r1 < n)%nat → (length r2 < n)%nat →
  concat cs1 ++ r1 = concat cs2 ++ r2 → cs1 = cs2 ∧ r1 = r2.
Proof.
  intros Hn H1. revert cs2. induction H1 as [|c1 cs1 Hc1 _ IH]; intros cs2 H2 Hr1 Hr2 Heq.
  - destruct H2 as [|c2 cs2 Hc2 _]; [done|]. exfalso.
    apply (f_equal length) in Heq. simpl in Heq. rewrite !length_app in Heq. lia.
  - destruct H2 as [|c2 cs2 Hc2 H2].
    + exfalso. apply (f_equal length) in Heq. simpl in Heq. rewrite !length_app in Heq. lia.
    + simpl in Heq. rewrite <- !app_assoc in Heq.
      apply app_inj_1 in Heq as [-> Heq]; [|lia].
      by destruct (IH cs2) as [-> ->].
Qed.

Lemma fixed_process_iff s buf chunks rest :
  (0 < chunk_size s)%nat →
  fixed_process s buf = Ok (chunks, rest) ↔
  buf = concat chunks ++ rest ∧ Forall (λ c, length c = chunk_size s) chunks ∧
  (length rest < chunk_size s)%nat.
Proof.
  intros Hs. split; [by apply fixed_loop_concat|]. intros (-> & Hc & Hr).
  destruct (fixed_loop_total s Hs (S (length (concat chunks ++ rest))) (concat chunks ++ rest))
    as [[cs r] Hl]; [lia|].
  unfold fixed_process. rewrite Hl. apply fixed_loop_concat in Hl as (Heq & Hc' & Hr'); [|done].
  by destruct (chunks_unique (chunk_size s) chunks cs rest r) as [-> ->].
Qed.

Lemma fixed_feed s frames buf :
  (0 < chunk_size s)%nat → (length buf < chunk_size s)%nat →
  @feed (fixed_strategy s) frames buf = fixed_process s (buf ++ concat frames).
Proof.
  intros Hs. revert buf. induction frames as [|f fs IH]; intros buf Hb; simpl.
  - symmetry. apply fixed_process_iff; [done|]. by rewrite app_nil_r.
  - destruct (fixed_loop_total s Hs (S (length (buf ++ f))) (buf ++ f)) as [[cs r] Hl]; [lia|].
    change (fixed_process s (buf ++ f)) with (fixed_loop (S (length (buf ++ f))) s (buf ++ f)).
    rewrite Hl. simpl. apply fixed_loop_concat in Hl as (Heq & Hc & Hr); [|done].
    rewrite IH by done.
    destruct (fixed_loop_total s Hs (S (length (r ++ concat fs))) (r ++ concat fs))
      as [[cs' r'] Hl']; [lia|].
    change (fixed_process s (r ++ concat fs))
      with (fixed_loop (S (length (r ++ concat fs))) s (r ++ concat fs)).
    rewrite Hl'. simpl. apply fixed_loop_concat in Hl' as (Heq' & Hc' & Hr'); [|done].
    symmetry. apply fixed_process_iff; [done|]. split_and!; [|by apply Forall_app|done].
    by rewrite app_assoc, Heq, concat_app, <- !app_assoc, Heq'.
Qed.

(** ** Properties *)

(** C27: under a fixed chunk size above zero, how the body arrives in frames does not matter:
    the streamed chunks are the reference chunking of the concatenated body. *)
Theorem fixed_stream_equivalence s frames :
  (0 < chunk_size s)%nat →
  @chunk_stream (fixed_strategy s) frames = Ok (fixed_reference s (concat frames)).
Proof.
  intros Hs. unfold chunk_stream, fixed_reference. rewrite fixed_feed by (done || simpl; lia).
  simpl. destruct (fixed_loop_total s Hs (S (length (concat frames))) (concat frames))
    as [[cs r] Hl]; [lia|].
  unfold fixed_process. rewrite Hl. simpl. by destruct r.
Qed.

Lemma fixed_stream_equivalence_witness :
  @chunk_stream (fixed_strategy {| chunk_size := 3 |})
    [as_bytes "ab"; as_bytes "cdefg"; as_bytes "h"]
  = Ok [as_bytes "abc"; as_bytes "def"; as_bytes "gh"].
Proof.
  rewrite (fixed_stream_equivalence {| chunk_size := 3 |}); [reflexivity|simpl; lia].
Defined.

(** Feeding keeps the completed chunks within the sizes and the buffer below the maximum. *)
Lemma cdc_feed_sized `{!FastCdc} s (Hs : cdc_wf s) fs : ∀ buf cs r,
  (length buf ≤ max_size s)%nat → @feed (cdc_strategy s) fs buf = Ok (cs, r) →
  Forall (cdc_sized s) cs ∧ (length r ≤ max_size s)%nat.
Proof.
  induction fs as [|f fs IH]; intros buf cs r Hb Hf; simpl in Hf.
  - injection Hf as <- <-. done.
  - destruct (cdc_process s (buf ++ f)) as [[cs1 r1]|] eqn:Hp; [|done]. simpl in Hf.
    apply cdc_loop_concat in Hp as (_ & Hp1 & Hp2); [|done].
    destruct (feed fs r1) as [[cs2 r2]|] eqn:Hf2; [|done]. injection Hf as <- <-.
    destruct (IH _ _ _ Hp2 Hf2). split; [by apply Forall_app|done].
Qed.

(** C28: content-defined chunking with sizes in order and within the limits of the fastcdc
    crate neither panics nor loops on any body, loses and reorders nothing; no chunk, the
    flushed tail included, is empty or longer than [max_size], and no chunk but the last is
    shorter than [min_size] (rounded down to even, the crate's two-byte step). *)
Theorem cdc_stream_bounds `{!FastCdc} s frames :
  cdc_wf s →
  ∃ chunks, @chunk_stream (cdc_strategy s) frames = Ok chunks ∧
    concat chunks = concat frames ∧ Forall (λ c, 0 < length c ≤ max_size s)%nat chunks ∧
    Forall (λ c, 2 * (min_size s / 2) ≤ length c)%nat (removelast chunks).
Proof.
  intros Hs. pose proof (cdc_lawful s Hs) as HL.
  destruct (@feed_spec _ HL frames []) as (cs & r & Hf & Hc & _).
  destruct (cdc_feed_sized s Hs frames [] cs r) as [H1 H2]; [simpl; lia|done|].
  assert (Forall (λ c, 0 < length c ≤ max_size s)%nat cs ∧
    Forall (λ c, 2 * (min_size s / 2) ≤ length c)%nat cs) as [H3 H4] by (by apply Forall_and).
  unfold chunk_stream. rewrite Hf. simpl. eexists. split; [done|]. simpl in Hc.
  destruct r as [|x r]; simpl.
  - rewrite app_nil_r in *. split_and!; [done|done|by apply Forall_removelast].
  - rewrite concat_snoc, removelast_last. split_and!; [done| |done]. apply Forall_app. split; [done|].
    constructor; [|done]. simpl in *. lia.
Qed.

Lemma cdc_stream_bounds_witness :
  ∃ chunks, @chunk_stream (@cdc_strategy Reference.fastcdc_max {| min_size := 64; avg_size := 256; max_size := 1024 |})
      [replicate 700 "a"%char; replicate 800 "b"%char] = Ok chunks ∧
    concat chunks = concat [replicate 700 "a"%char; replicate 800 "b"%char] ∧
    Forall (λ c, 0 < length c ≤ 1024)%nat chunks ∧
    Forall (λ c, 2 * (64 / 2) ≤ length c)%nat (removelast chunks).
Proof.
  apply (@cdc_stream_bounds Reference.fastcdc_max {| min_size := 64; avg_size := 256; max_size := 1024 |}).
  unfold cdc_wf, fastcdc_accepts. cbn [min_size avg_size max_size]. lia.
Defined.

(** Configured sizes are not validated: outside the crate's limits every buffer of at least
    [min_size] bytes makes [process] panic. *)
Theorem cdc_sizes_rejected_panics `{!FastCdc} s buf :
  ¬ fastcdc_accepts (min_size s) (avg_size s) (max_size s) → (min_size s ≤ length buf)%nat →
  cdc_process s buf = Err ChunkerPanics.
Proof.
  intros Ha Hb. unfold cdc_process. cbn [cdc_loop]. rewrite decide_False by lia.
  destruct (negb _); [done|]. by rewrite (proj2 (fastcdc_first_panics _ _ _ _) Ha).
Qed.

Lemma cdc_sizes_rejected_panics_witness :
  @cdc_process Reference.fastcdc_max {| min_size := 2; avg_size := 4; max_size := 8 |} (as_bytes "abc") =
  Err ChunkerPanics.
Proof.
  apply cdc_sizes_rejected_panics; [|simpl; lia].
  unfold fastcdc_accepts. cbn [min_size avg_size max_size]. lia.
Defined.

(** A configured block size of zero makes the fixed strategy loop forever on every
    buffer: no number of iterations reaches an exit. *)
Theorem fixed_zero_diverges s fuel buf :
  chunk_size s = 0%nat → fixed_loop fuel s buf = Err LoopsForever.
Proof.
  intros Hs. revert buf. induction fuel as [|f IH]; intros buf; simpl; [done|].
  destruct (decide _) as [Hc|Hc]; [|lia]. by rewrite IH.
Qed.

Lemma fixed_zero_diverges_witness :
  fixed_loop 100 {| chunk_size := 0 |} (as_bytes "abc") = Err LoopsForever.
Proof. apply fixed_zero_diverges. reflexivity. Defined.
