(* ===== verification/Range.v ===== *)
(** * Byte ranges (src/storage.rs: [resolve_range], [slice_blocks_for_range],
    [slice_block_bytes])

    A ranged GET resolves the HTTP range against the object size, finds the blocks that
    overlap it from their recorded sizes, and slices only those.  The central theorem says
    the slices put together are exactly the requested bytes of the object. *)

From S2P Require Import Prelude.

(** [s3s::dto::Range] *)
Inductive Range : Type :=
  | RangeInt (first : Z) (last : option Z)
  | RangeSuffix (len : Z).

Definition resolve_range (range : Range) (size : Z) : option (Z * Z) :=
  if size =? 0 then None else
  match range with
  | RangeInt first last =>
      if size <=? first then None else
      let end_ := Z.min (default (size - 1) last) (size - 1) in
      if end_ <? first then None else Some (first, end_)
  | RangeSuffix length =>
      if length =? 0 then None else
      let len := Z.min length size in
      Some (size - len, size - 1)
  end.

(** The loop over [sizes.iter().enumerate()] with its running [offset], in [u64] arithmetic that
    wraps: the last block the range reaches into ends before it starts when [end_] is below
    [start]. *)
Fixpoint slice_loop (i : nat) (offset : Z) (sizes : list Z) (start end_ : Z)
    : list (nat * Z * Z) :=
  match sizes with
  | [] => []
  | sz0 :: sizes' =>
      let sz := Z.max sz0 0 in
      let block_start := offset in
      let block_end := wrap_u64 (offset + sz) in
      if (sz =? 0) || (block_end <=? start) || (end_ <? block_start)
      then slice_loop (S i) block_end sizes' start end_
      else
        let s := Z.max start block_start - block_start in
        let e := wrap_u64 (Z.min end_ (wrap_u64 (block_end - 1)) - block_start) in
        (i, s, wrap_u64 (wrap_u64 (e - s) + 1)) :: slice_loop (S i) block_end sizes' start end_
  end.

Definition slice_blocks_for_range (sizes : list Z) (start end_ : Z) : list (nat * Z * Z) :=
  slice_loop 0 0 sizes start end_.

Definition slice_block_bytes (data : bytes) (skip : Z) (take_ : option Z) : bytes :=
  let data := drop (Z.to_nat (Z.min skip (blen data))) data in
  match take_ with
  | Some t => take (Z.to_nat (Z.min t (blen data))) data
  | None => data
  end.

(** ** Specification *)

(** Bytes [start ..= end_] of a byte string. *)
Definition byte_range (start end_ : Z) (b : bytes) : bytes :=
  take (Z.to_nat (end_ - start + 1)) (drop (Z.to_nat start) b).

(** The bytes a plan selects from the blocks it indexes. *)
Definition run_plan (blocks : list bytes) (plan : list (nat * Z * Z)) : bytes :=
  concat (map (λ '(i, skip, n), slice_block_bytes (nth i blocks []) skip (Some n)) plan).

(** ** Lemmas *)

Lemma slice_block_bytes_some data skip n :
  slice_block_bytes data skip (Some n) = take (Z.to_nat n) (drop (Z.to_nat skip) data).
Proof.
  unfold slice_block_bytes.
  assert (drop (Z.to_nat (Z.min skip (blen data))) data = drop (Z.to_nat skip) data) as ->.
  { unfold blen. destruct (Z.le_gt_cases skip (Z.of_nat (length data))).
    - by rewrite Z.min_l by done.
    - rewrite !drop_ge by lia. done. }
  set (d := drop _ data). unfold blen. destruct (Z.le_gt_cases n (Z.of_nat (length d))).
  - by rewrite Z.min_l by done.
  - rewrite !take_ge by lia. done.
Qed.

Lemma slice_block_bytes_whole data : slice_block_bytes data 0 None = data.
Proof. unfold slice_block_bytes. by rewrite Z.min_l by apply blen_nonneg. Qed.

(** Where the range is not inverted no subtraction wraps. *)
Lemma slice_arith o sz start end_ : 0 ≤ o → 0 < sz → o + sz < 2 ^ 64 → 0 ≤ start ≤ end_ → start < o + sz → o ≤ end_ →
  let s := Z.max start o - o in
  let e := wrap_u64 (Z.min end_ (wrap_u64 (o + sz - 1)) - o) in
  e = Z.min end_ (o + sz - 1) - o ∧ wrap_u64 (wrap_u64 (e - s) + 1) = Z.min end_ (o + sz - 1) - o - s + 1.
Proof.
  intros ?????? s e. assert (e = Z.min end_ (o + sz - 1) - o) as He.
  { unfold e. rewrite (wrap_u64_small (o + sz - 1)) by (unfold in_u64; lia). apply wrap_u64_small. unfold in_u64. lia. }
  split; [done|]. rewrite He. unfold s. rewrite (wrap_u64_small (_ - _)) by (unfold in_u64; lia).
  apply wrap_u64_small. unfold in_u64. lia.
Qed.

Definition sum_sizes (sizes : list Z) : Z := foldr Z.add 0 sizes.

Lemma sum_sizes_concat (blocks : list bytes) :
  sum_sizes (map blen blocks) = blen (concat blocks).
Proof.
  induction blocks as [|b bs IH]; simpl; [done|]. unfold blen in *. rewrite IH, length_app. lia.
Qed.

(** The slices of the blocks from absolute offset [o] on. *)
Lemma slice_loop_spec pre blocks o start end_ :
  0 ≤ o → o + blen (concat blocks) < 2 ^ 64 → 0 ≤ start ≤ end_ →
  run_plan (pre ++ blocks) (slice_loop (length pre) o (map blen blocks) start end_) =
    take (Z.to_nat (end_ + 1 - Z.max start o)) (drop (Z.to_nat (start - o)) (concat blocks)).
Proof.
  revert pre o. induction blocks as [|b bs IH]; intros pre o Ho Hlt Hr; simpl.
  { unfold run_plan. simpl. by rewrite drop_nil, take_nil. }
  simpl in Hlt. unfold blen in Hlt. rewrite length_app in Hlt.
  rewrite Z.max_l by (unfold blen; lia).
  rewrite wrap_u64_small by (unfold in_u64, blen; lia).
  rewrite drop_app, take_app.
  specialize (IH (pre ++ [b]) (o + blen b)).
  rewrite length_app, <- app_assoc in IH. simpl in IH. rewrite Nat.add_1_r in IH.
  assert (Hn : drop (Z.to_nat (start - o) - length b) (concat bs)
               = drop (Z.to_nat (start - (o + blen b))) (concat bs)).
  { f_equal. unfold blen. lia. }
  rewrite Hn, length_drop.
  replace (Z.to_nat (end_ + 1 - Z.max start o) - (length b - Z.to_nat (start - o)))%nat
    with (Z.to_nat (end_ + 1 - Z.max start (o + blen b))) by (unfold blen; lia).
  rewrite <- IH by (unfold blen in *; lia).
  destruct (Z.eqb_spec (blen b) 0) as [H0|H0]; simpl.
  { destruct b; [|unfold blen in H0; simpl in H0; lia]. by rewrite drop_nil, take_nil. }
  destruct (Z.leb_spec (o + blen b) start) as [H1|H1]; simpl.
  { rewrite drop_ge by (unfold blen in *; lia). by rewrite take_nil. }
  destruct (Z.ltb_spec end_ o) as [H2|H2]; simpl.
  { replace (Z.to_nat (end_ + 1 - Z.max start o)) with 0%nat by lia. done. }
  unfold run_plan at 1. cbn [map concat]. rewrite slice_block_bytes_some.
  rewrite app_nth2, Nat.sub_diag by lia. cbn [nth]. fold (run_plan (pre ++ b :: bs)).
  unfold run_plan. f_equal.
  destruct (slice_arith o (blen b) start end_) as [_ Harith]; [unfold blen in *; lia..|]. cbv zeta in Harith. rewrite Harith. clear Harith.
  assert (Z.to_nat (Z.max start o - o) = Z.to_nat (start - o)) as -> by lia.
  set (k := Z.to_nat (start - o)). set (d := drop k b).
  assert (length d = (length b - k)%nat) as Hd by (subst d; apply length_drop).
  destruct (Z.leb_spec (o + blen b - 1) end_) as [H3|H3].
  - rewrite !take_ge; [done|unfold blen in *; lia..].
  - f_equal. unfold blen in *. lia.
Qed.

Lemma run_plan_range blocks start end_ :
  0 ≤ start ≤ end_ → blen (concat blocks) < 2 ^ 64 →
  run_plan blocks (slice_blocks_for_range (map blen blocks) start end_)
  = byte_range start end_ (concat blocks).
Proof.
  intros Hr Hl. unfold slice_blocks_for_range.
  pose proof (slice_loop_spec [] blocks 0 start end_) as H. simpl in H.
  rewrite H by lia. unfold byte_range. f_equal; [lia|]. f_equal. lia.
Qed.

Lemma slice_loop_index sizes start end_ : ∀ i o p,
  p ∈ slice_loop i o sizes start end_ → (i ≤ p.1.1 < i + length sizes)%nat.
Proof.
  induction sizes as [|sz sizes IH]; intros i o p; simpl; [by intros ?%elem_of_nil|].
  destruct (_ || _); [|intros [->|Hp]%elem_of_cons; [simpl; lia|]; revert Hp];
    intros Hp%IH; lia.
Qed.

Lemma resolve_range_inside range size start end_ :
  match range with
  | RangeInt first last => 0 ≤ first ∧ match last with Some l => 0 ≤ l | None => True end
  | RangeSuffix n => 0 ≤ n
  end →
  0 ≤ size → resolve_range range size = Some (start, end_) → 0 ≤ start ≤ end_ ∧ end_ < size.
Proof.
  intros Hr Hs. unfold resolve_range. destruct (Z.eqb_spec size 0) as [|Hne]; [done|].
  destruct range as [first last|n].
  - destruct (Z.leb_spec size first); [done|].
    destruct (Z.ltb_spec (Z.min (default (size - 1) last) (size - 1)) first); [done|].
    intros [= <- <-]. lia.
  - destruct (Z.eqb_spec n 0); [done|]. intros [= <- <-]. lia.
Qed.

(** ** Properties *)

(** A resolved range lies inside the object and is not empty; a range is refused exactly
    when it selects no byte: an empty object, a first byte past the end, an inverted range
    or an empty suffix. *)
Theorem resolve_range_spec range size :
  0 ≤ size →
  match range with
  | RangeInt first last => 0 ≤ first ∧ match last with Some l => 0 ≤ l | None => True end
  | RangeSuffix n => 0 ≤ n
  end →
  match resolve_range range size with
  | Some (start, end_) => 0 ≤ start ≤ end_ ∧ end_ < size ∧
      match range with
      | RangeInt first last => start = first ∧ end_ = Z.min (default (size - 1) last) (size - 1)
      | RangeSuffix n => end_ = size - 1 ∧ end_ - start + 1 = Z.min n size
      end
  | None => size = 0 ∨
      match range with
      | RangeInt first last => size ≤ first ∨ default (size - 1) last < first
      | RangeSuffix n => n = 0
      end
  end.
Proof.
  intros Hs Hr. unfold resolve_range.
  destruct (Z.eqb_spec size 0) as [|Hne]; [by left|].
  destruct range as [first last|n].
  - destruct (Z.leb_spec size first); [naive_solver|].
    destruct (Z.ltb_spec (Z.min (default (size - 1) last) (size - 1)) first); [right; right; lia|].
    split_and!; lia.
  - destruct (Z.eqb_spec n 0); [by right|]. split_and!; lia.
Qed.

Lemma resolve_range_spec_witness :
  match resolve_range (RangeInt 5 (Some 99)) 10 with
  | Some (start, end_) => 0 ≤ start ≤ end_ ∧ end_ < 10 ∧ start = 5 ∧ end_ = Z.min 99 (10 - 1)
  | None => 10 = 0 ∨ 10 ≤ 5 ∨ 99 < 5
  end.
Proof. apply (resolve_range_spec (RangeInt 5 (Some 99)) 10); lia. Defined.

(** C26: for blocks whose recorded sizes are their lengths, the slices
    [slice_blocks_for_range] plans are, put together, exactly bytes [start ..= end] of the
    object. *)
Theorem slice_blocks_for_range_correct blocks start end_ :
  0 ≤ start ≤ end_ → blen (concat blocks) < 2 ^ 64 →
  run_plan blocks (slice_blocks_for_range (map blen blocks) start end_)
  = byte_range start end_ (concat blocks).
Proof. apply run_plan_range. Qed.

Lemma slice_blocks_for_range_correct_witness :
  run_plan [as_bytes "abcd"; as_bytes "efg"; as_bytes "hij"]
    (slice_blocks_for_range (map blen [as_bytes "abcd"; as_bytes "efg"; as_bytes "hij"]) 3 7)
  = byte_range 3 7 (as_bytes "abcdefghij").
Proof.
  apply (slice_blocks_for_range_correct [as_bytes "abcd"; as_bytes "efg"; as_bytes "hij"] 3 7);
    [lia|reflexivity].
Defined.

(** Every planned slice names an existing block and overlaps the range: it takes at
    least one byte, lies inside its block, and no block is planned twice. *)
Theorem slice_blocks_for_range_bounds sizes start end_ :
  0 ≤ start ≤ end_ → Forall (λ sz, 0 ≤ sz) sizes → sum_sizes sizes < 2 ^ 64 →
  Forall (λ '(i, skip, n), ∃ sz, sizes !! i = Some sz ∧ 0 ≤ skip ∧ 0 < n ∧ skip + n ≤ sz)
    (slice_blocks_for_range sizes start end_) ∧
  StronglySorted (λ p q, (p.1.1 < q.1.1)%nat) (slice_blocks_for_range sizes start end_).
Proof.
  intros Hr Hnn Hsum. unfold slice_blocks_for_range.
  assert (∀ pre o, 0 ≤ o → o + sum_sizes sizes < 2 ^ 64 →
    Forall (λ '(i, skip, n), (length pre ≤ i)%nat ∧
        ∃ sz, (pre ++ sizes) !! i = Some sz ∧ 0 ≤ skip ∧ 0 < n ∧ skip + n ≤ sz)
      (slice_loop (length pre) o sizes start end_) ∧
    StronglySorted (λ p q, (p.1.1 < q.1.1)%nat) (slice_loop (length pre) o sizes start end_)) as H.
  { clear Hsum. induction Hnn as [|sz sizes Hsz Hnn IH]; intros pre o Ho Hlt; simpl.
    { split; constructor. }
    simpl in Hlt.
    assert (0 ≤ sum_sizes sizes) by (clear -Hnn; induction Hnn; simpl; lia).
    rewrite Z.max_l, wrap_u64_small by (unfold in_u64; lia).
    destruct (IH (pre ++ [sz]) (o + sz)) as [IH1 IH2]; [lia..|].
    rewrite length_app, <- app_assoc in IH1. rewrite length_app in IH2.
    simpl in IH1, IH2. rewrite Nat.add_1_r in IH1, IH2.
    assert (Forall (λ '(i, skip, n), (length pre ≤ i)%nat ∧ ∃ sz', (pre ++ sz :: sizes) !! i = Some sz'
       ∧ 0 ≤ skip ∧ 0 < n ∧ skip + n ≤ sz') (slice_loop (S (length pre)) (o + sz) sizes start end_)) as IH3.
    { eapply Forall_impl; [exact IH1|]. intros [[i k] n] [? ?]. split; [lia|done]. }
    destruct (Z.eqb_spec sz 0) as [|?]; [by split|]. destruct (Z.leb_spec (o + sz) start); [by split|].
    destruct (Z.ltb_spec end_ o); [by split|]. simpl. split.
    - constructor; [|done]. split; [lia|]. exists sz. rewrite lookup_app_r, Nat.sub_diag by lia.
      destruct (slice_arith o sz start end_) as [_ Harith]; [lia..|]. cbv zeta in Harith. rewrite Harith.
      split_and!; [done|lia..].
    - constructor; [done|]. eapply Forall_impl; [exact IH1|]. intros [[i k] m] [? ?]. simpl. lia. }
  destruct (H [] 0) as [H1 H2]; [lia..|]. simpl in *. split; [|done].
  eapply Forall_impl; [exact H1|]. intros [[i k] n] [_ ?]. done.
Qed.

Lemma slice_blocks_for_range_bounds_witness :
  Forall (λ '(i, skip, n), ∃ sz, [4; 3; 3] !! i = Some sz ∧ 0 ≤ skip ∧ 0 < n ∧ skip + n ≤ sz)
    (slice_blocks_for_range [4; 3; 3] 3 7) ∧
  StronglySorted (λ p q, (p.1.1 < q.1.1)%nat) (slice_blocks_for_range [4; 3; 3] 3 7).
Proof.
  apply (slice_blocks_for_range_bounds [4; 3; 3] 3 7); [lia|repeat constructor; lia|simpl; lia].
Defined.

(** An inverted range is not refused here: inside one block, [5 ..= 2] takes everything from
    byte 5 to the end of the block. *)
Example inverted_range_takes_rest :
  slice_blocks_for_range [10] 5 2 = [(0%nat, 5, 2 ^ 64 - 2)] ∧
  run_plan [as_bytes "abcdefghij"] (slice_blocks_for_range [10] 5 2) = as_bytes "fghij".
Proof. split; vm_compute; reflexivity. Qed.
