(* ===== verification/Listing.v ===== *)
(** * Delimiter grouping and page truncation (src/storage.rs: [group_by_delimiter],
    [merge_and_truncate])

    The pure part of an S3 listing: keys that share a path segment below the prefix
    collapse into one common prefix, and contents and common prefixes together are cut to
    [max_keys] in key order. *)

From S2P Require Import Prelude.

(** A listed object: key, size, etag. *)
Abbreviation obj := (string * Z * string)%type.
Definition obj_key (o : obj) : string := o.1.1.

(** The common prefix a key collapses into, if any: [strip_prefix], [find], and the
    [format!] of prefix, segment and delimiter. *)
Definition collapse (prefix delimiter key : string) : option string :=
  match strip_prefix key prefix with
  | None => None
  | Some rest =>
      match find rest delimiter with
      | Some idx => Some (prefix +:+ String.substring 0 idx rest +:+ delimiter)
      | None => None
      end
  end.

(** [common.last() != Some(cp) && !common.contains(&cp)] *)
Definition unseen (common : list string) (cp : string) : bool :=
  bool_decide (last common ≠ Some cp) && bool_decide (cp ∉ common).

Definition group_step (prefix delimiter : string) (acc : list obj * list string) (o : obj)
    : list obj * list string :=
  let '(contents, common) := acc in
  match collapse prefix delimiter (obj_key o) with
  | Some cp => (contents, if unseen common cp then common ++ [cp] else common)
  | None => (contents ++ [o], common)
  end.

Definition group_by_delimiter (objects : list obj) (prefix delimiter : string)
    : list obj * list string :=
  foldl (group_step prefix delimiter) ([], []) objects.

(** [enum Item] of [merge_and_truncate]. *)
Inductive Item : Type :=
  | Obj (o : obj)
  | Prefix (p : string).

Definition item_key (i : Item) : string :=
  match i with Obj o => obj_key o | Prefix p => p end.

Definition by_key (a b : string * Item) : Prop := str_le a.1 b.1.
#[global] Instance by_key_dec : RelDecision by_key.
Proof. intros a b. unfold by_key. apply _. Defined.

Definition kept_contents (l : list (string * Item)) : list obj :=
  omap (λ p, match p.2 with Obj o => Some o | Prefix _ => None end) l.
Definition kept_common (l : list (string * Item)) : list string :=
  omap (λ p, match p.2 with Obj _ => None | Prefix p => Some p end) l.

(** The merged, key-ordered items before truncation. *)
Definition merged_items (contents : list obj) (common : list string) : list (string * Item) :=
  sort_by by_key (map (λ o, (obj_key o, Obj o)) contents ++ map (λ p, (p, Prefix p)) common).

Definition merge_and_truncate (contents : list obj) (common : list string) (max_keys : nat)
    : list obj * list string * bool * option string :=
  let merged := merged_items contents common in
  let is_truncated := bool_decide (max_keys < length merged)%nat in
  let merged := take max_keys merged in
  let next_token := if is_truncated then fst <$> last merged else None in
  (kept_contents merged, kept_common merged, is_truncated, next_token).

(** ** Lemmas *)

Lemma unseen_spec common cp : unseen common cp = true ↔ cp ∉ common.
Proof.
  unfold unseen. rewrite andb_true_iff, !bool_decide_eq_true. split; [by intros [_ ?]|].
  intros Hn. split; [|done]. intros Hl. apply Hn.
  apply last_Some in Hl as [l' ->]. set_solver.
Qed.

Lemma group_fold prefix delimiter objects contents common :
  NoDup common →
  let r := foldl (group_step prefix delimiter) (contents, common) objects in
  r.1 = contents ++ filter (λ o, collapse prefix delimiter (obj_key o) = None) objects ∧
  NoDup r.2 ∧
  ∀ cp, cp ∈ r.2 ↔ cp ∈ common ∨ ∃ o, o ∈ objects ∧ collapse prefix delimiter (obj_key o) = Some cp.
Proof.
  revert contents common. induction objects as [|o os IH]; intros contents common Hnd; simpl.
  { rewrite app_nil_r. split_and!; [done..|]. set_solver. }
  destruct (collapse prefix delimiter (obj_key o)) as [cp|] eqn:Hc.
  - rewrite filter_cons_False by congruence.
    destruct (unseen common cp) eqn:Hu.
    + apply unseen_spec in Hu.
      destruct (IH contents (common ++ [cp])) as (H1 & H2 & H3).
      { apply NoDup_app. split_and!; [done|set_solver|apply NoDup_singleton]. }
      split_and!; [done..|]. intros cp'. rewrite H3. set_solver.
    + assert (cp ∈ common) as Hin.
      { destruct (decide (cp ∈ common)); [done|]. by apply unseen_spec in n; rewrite n in Hu. }
      destruct (IH contents common Hnd) as (H1 & H2 & H3).
      split_and!; [done..|]. intros cp'. rewrite H3. set_solver.
  - rewrite filter_cons_True by done.
    destruct (IH (contents ++ [o]) common Hnd) as (H1 & H2 & H3).
    rewrite <- app_assoc in H1. split_and!; [done..|]. intros cp'. rewrite H3. set_solver.
Qed.

#[global] Instance by_key_trans : Transitive by_key.
Proof. intros a b c. unfold by_key. apply (transitivity (R := str_le)). Qed.
#[global] Instance by_key_total : Total by_key.
Proof. intros a b. apply (total str_le). Qed.


Lemma kept_items l :
  map Obj (kept_contents l) ++ map Prefix (kept_common l) ≡ₚ map snd l.
Proof.
  induction l as [|[k [o|p]] l IH]; [done|..]; unfold kept_contents, kept_common in *; simpl.
  - by rewrite IH.
  - rewrite <- IH. symmetry. apply Permutation_middle.
Qed.

Lemma merged_items_perm contents common :
  map snd (merged_items contents common) ≡ₚ map Obj contents ++ map Prefix common.
Proof.
  unfold merged_items. rewrite (sort_by_perm by_key), map_app, !map_map. simpl. done.
Qed.

Lemma merged_items_keys contents common :
  Forall (λ p, p.1 = item_key p.2) (merged_items contents common).
Proof.
  unfold merged_items. rewrite (sort_by_perm by_key). apply Forall_app.
  split; apply Forall_forall; intros p; rewrite list_elem_of_fmap; by intros (? & -> & ?).
Qed.

Lemma merged_items_sorted contents common :
  StronglySorted by_key (merged_items contents common).
Proof. apply sort_by_sorted; apply _. Qed.

Lemma merged_keys_sorted contents common n :
  StronglySorted str_le (map fst (take n (merged_items contents common))).
Proof.
  assert (∀ l, StronglySorted by_key l → StronglySorted str_le (map fst l)) as H.
  { induction 1 as [|x l _ IH Hf]; simpl; constructor; [done|]. by apply Forall_map. }
  apply H. eapply StronglySorted_app_1_l. rewrite take_drop. apply merged_items_sorted.
Qed.

(** A sorted page: its last key is its greatest. *)
Lemma sorted_last_max (l : list string) k :
  StronglySorted str_le l → last l = Some k → ∀ x, x ∈ l → str_le x k.
Proof.
  intros Hs Hl x Hx. apply last_Some in Hl as [l' ->].
  apply elem_of_app in Hx as [Hx|Hx]; [|set_solver by eauto].
  eapply StronglySorted_app_1_elem_of; [exact Hs|done|set_solver].
Qed.

(** ** Properties *)

(** [group_by_delimiter] keeps, in order, exactly the keys with no delimiter past the
    prefix, and reports each other key's common prefix exactly once. *)
Theorem group_by_delimiter_spec objects prefix delimiter :
  let '(contents, common) := group_by_delimiter objects prefix delimiter in
  contents = filter (λ o, collapse prefix delimiter (obj_key o) = None) objects ∧
  NoDup common ∧
  ∀ cp, cp ∈ common ↔ ∃ o, o ∈ objects ∧ collapse prefix delimiter (obj_key o) = Some cp.
Proof.
  unfold group_by_delimiter.
  pose proof (group_fold prefix delimiter objects [] [] (NoDup_nil_2 (A := string))) as H.
  destruct (foldl _ _ _) as [contents common]. simpl in H. destruct H as (H1 & H2 & H3).
  split_and!; [done..|]. intros cp. rewrite H3. set_solver.
Qed.

(** A truncated listing keeps the first [max_keys] of contents and common prefixes in key
    order: nothing is invented or lost, every kept key is at most every dropped one, the
    truncation flag says whether something was dropped, and the continuation token is the
    greatest kept key, present exactly when the page is truncated and not empty. *)
Theorem merge_and_truncate_spec contents common max_keys :
  let '(kc, kp, truncated, token) := merge_and_truncate contents common max_keys in
  let kept := map Obj kc ++ map Prefix kp in
  ∃ dropped,
    kept ++ dropped ≡ₚ map Obj contents ++ map Prefix common ∧
    (∀ i j, i ∈ kept → j ∈ dropped → str_le (item_key i) (item_key j)) ∧
    length kept = Nat.min max_keys (length contents + length common) ∧
    (truncated = true ↔ dropped ≠ []) ∧
    (∀ k, token = Some k → k ∈ map item_key kept ∧ ∀ i, i ∈ kept → str_le (item_key i) k) ∧
    (is_Some token ↔ truncated = true ∧ kept ≠ []).
Proof.
  unfold merge_and_truncate. set (m := merged_items contents common).
  pose proof (kept_items (take max_keys m)) as Hk.
  pose proof (merged_items_perm contents common) as Hp. fold m in Hp.
  assert (length m = length contents + length common)%nat as Hlen.
  { apply Permutation_length in Hp. by rewrite length_app, !length_map in Hp. }
  pose proof (merged_items_keys contents common) as Hkeys. fold m in Hkeys.
  rewrite <- (take_drop max_keys m) in Hkeys. apply Forall_app in Hkeys as [Hk1 Hk2].
  assert (map item_key (map snd (take max_keys m)) = map fst (take max_keys m)) as Hfst.
  { rewrite map_map. apply map_ext_Forall. eapply Forall_impl; [exact Hk1|]. done. }
  exists (map snd (drop max_keys m)). split_and!.
  - by rewrite Hk, <- map_app, take_drop.
  - intros i j. rewrite Hk. rewrite !list_elem_of_fmap. intros (p & -> & Hi) (q & -> & Hj).
    rewrite Forall_forall in Hk1, Hk2. rewrite <- (Hk1 _ Hi), <- (Hk2 _ Hj).
    pose proof (merged_items_sorted contents common) as Hs. fold m in Hs.
    rewrite <- (take_drop max_keys m) in Hs.
    by apply (StronglySorted_app_1_elem_of _ _ _ _ _ Hs).
  - by rewrite Hk, length_map, length_take, Hlen.
  - rewrite bool_decide_eq_true, <- (length_zero_iff_nil (map _ _)), length_map, length_drop. lia.
  - intros k. destruct (bool_decide _); [|done]. intros Hlast.
    rewrite <- fmap_last in Hlast. rewrite (Permutation_map item_key Hk), Hfst.
    split; [by apply last_Some_elem_of|]. intros i Hi.
    apply (sorted_last_max _ _ (merged_keys_sorted contents common max_keys) Hlast).
    fold m. rewrite <- Hfst. rewrite Hk in Hi. by apply list_elem_of_fmap_2.
  - rewrite <- length_zero_iff_nil, Hk, length_map, length_zero_iff_nil.
    destruct (bool_decide _); [|split; [by intros [? ?]|naive_solver]].
    rewrite fmap_is_Some, last_is_Some. naive_solver.
Qed.

(** On concrete data, a listing with delimiter [/] of five keys cut to three items. *)
Example merge_and_truncate_example :
  let '(contents, common) := group_by_delimiter
    [("a.txt", 1, "e"); ("docs/x", 2, "e"); ("docs/y", 3, "e"); ("img/z", 4, "e"); ("z", 5, "e")] "" "/" in
  merge_and_truncate contents common 3
  = ([("a.txt", 1, "e")], ["docs/"; "img/"], true, Some "img/").
Proof. reflexivity. Qed.
