(* ===== verification/Policy.v ===== *)
(** * The policy engine (src/db.rs) and the preset policies (src/main.rs)

    A policy is a list of statements; a request is allowed when some matching statement
    allows it and no matching statement denies it.  The presets of [shardscape create-user]
    are policies of one Allow statement. *)

From S2P Require Import Prelude.

Record PolicyStatement : Type := {
  effect : string;
  actions : list string;
  resources : list string;
}.

Record Policy : Type := { statements : list PolicyStatement }.

#[global] Instance PolicyStatement_eq_dec : EqDecision PolicyStatement.
Proof. solve_decision. Defined.
#[global] Instance Policy_eq_dec : EqDecision Policy.
Proof. solve_decision. Defined.

Abbreviation star := "*"%char.

Definition wildcard_match (pattern value : string) : bool :=
  if bool_decide (pattern = "*") then true else
  match strip_suffix_char pattern star with
  | Some prefix => starts_with value prefix
  | None => bool_decide (pattern = value)
  end.

Definition matches (stmt : PolicyStatement) (action resource : string) : bool :=
  let action_match := existsb (λ a, wildcard_match a action) (actions stmt) in
  let resource_match := existsb (λ r, wildcard_match r resource) (resources stmt) in
  action_match && resource_match.

(** The loop of [Policy::is_allowed]: a matching Deny returns at once. *)
Fixpoint allowed_loop (stmts : list PolicyStatement) (action resource : string) (allowed : bool) : bool :=
  match stmts with
  | [] => allowed
  | stmt :: stmts' =>
      if matches stmt action resource then
        if bool_decide (effect stmt = "Deny") then false
        else allowed_loop stmts' action resource
               (if bool_decide (effect stmt = "Allow") then true else allowed)
      else allowed_loop stmts' action resource allowed
  end.

Definition is_allowed (p : Policy) (action resource : string) : bool :=
  allowed_loop (statements p) action resource false.

(** ** The resource name of a request ([StorageBackend::authorize]) *)

Definition resource_name (bucket key : option string) : string :=
  match bucket, key with
  | Some b, Some k => "arn:ss:bucket:::" +:+ b +:+ "/" +:+ k
  | Some b, None => "arn:ss:bucket:::" +:+ b
  | None, _ => "*"
  end.

(** ** Preset policies *)

Definition admin_policy : Policy :=
  {| statements := [{| effect := "Allow"; actions := ["*"]; resources := ["*"] |}] |}.

Definition bucket_resource (bucket : option string) : string :=
  match bucket with
  | Some b => "arn:ss:bucket:::" +:+ b +:+ "*"
  | None => "*"
  end.

Definition readonly_actions : list string :=
  ["s3:GetObject"; "s3:HeadObject"; "s3:ListBucket"; "s3:ListAllMyBuckets";
   "s3:ListMultipartUploadParts"; "s3:ListBucketMultipartUploads"].

Definition readonly_policy (bucket : option string) : Policy :=
  {| statements := [{| effect := "Allow"; actions := readonly_actions;
                       resources := [bucket_resource bucket] |}] |}.

Definition readwrite_actions : list string :=
  ["s3:GetObject"; "s3:HeadObject"; "s3:PutObject"; "s3:DeleteObject"; "s3:ListBucket";
   "s3:ListAllMyBuckets"; "s3:CreateBucket"; "s3:DeleteBucket"; "s3:AbortMultipartUpload";
   "s3:ListMultipartUploadParts"; "s3:ListBucketMultipartUploads"].

Definition readwrite_policy (bucket : option string) : Policy :=
  {| statements := [{| effect := "Allow"; actions := readwrite_actions;
                       resources := [bucket_resource bucket] |}] |}.

(** The preset selection of [run_create_user]; another name is refused. *)
Definition preset_policy (preset : string) (bucket : option string) : option Policy :=
  if bool_decide (preset = "admin") then Some admin_policy
  else if bool_decide (preset = "readonly") then Some (readonly_policy bucket)
  else if bool_decide (preset = "readwrite") then Some (readwrite_policy bucket)
  else None.

(** ** Lemmas *)

(** What the documentation says a pattern matches: itself, or every extension of the part
    before a trailing star. *)
Definition pattern_denotes (pattern value : string) : Prop :=
  pattern = value ∧ strip_suffix_char pattern star = None ∨
  ∃ prefix rest, pattern = prefix +:+ "*" ∧ value = prefix +:+ rest.

Lemma wildcard_match_spec pattern value :
  wildcard_match pattern value = true ↔ pattern_denotes pattern value.
Proof.
  unfold wildcard_match, pattern_denotes.
  destruct (bool_decide_reflect (pattern = "*")) as [->|Hne].
  - split; [|done]. intros _. right. exists "", value. done.
  - destruct (strip_suffix_char pattern star) as [p|] eqn:Hs.
    + rewrite starts_with_spec. apply strip_suffix_char_Some in Hs as ->. split.
      * intros [r ->]. right. by exists p, r.
      * intros [[_ [=]]|(p' & r & Hp & ->)].
        apply strip_suffix_char_Some in Hp.
        assert (strip_suffix_char (p +:+ "*") star = Some p) as Hq
          by by apply strip_suffix_char_Some.
        rewrite Hq in Hp. injection Hp as ->. by exists r.
    + rewrite bool_decide_eq_true. split; [by left|].
      intros [[? _]|(p & r & Hp & _)]; [done|].
      apply strip_suffix_char_Some in Hp. congruence.
Qed.

Lemma existsb_match patterns value :
  existsb (λ a, wildcard_match a value) patterns = true ↔
  ∃ a, a ∈ patterns ∧ pattern_denotes a value.
Proof.
  rewrite existsb_exists. setoid_rewrite wildcard_match_spec.
  by setoid_rewrite <- list_elem_of_In.
Qed.

(** A statement that matches with effect [e]. *)
Definition applies (e action resource : string) (s : PolicyStatement) : Prop :=
  matches s action resource = true ∧ effect s = e.

Lemma allowed_loop_spec stmts action resource allowed :
  allowed_loop stmts action resource allowed = true ↔
  ¬ Exists (applies "Deny" action resource) stmts ∧
  (allowed = true ∨ Exists (applies "Allow" action resource) stmts).
Proof.
  revert allowed. induction stmts as [|s stmts IH]; intros allowed; simpl.
  { rewrite !Exists_nil. tauto. }
  rewrite !Exists_cons. unfold applies at 1 3.
  destruct (matches s action resource) eqn:Hm; [|rewrite IH; intuition congruence].
  destruct (bool_decide_reflect (effect s = "Deny")) as [Hd|Hd]; [intuition congruence|].
  rewrite IH. destruct (bool_decide_reflect (effect s = "Allow")) as [Ha|Ha];
    intuition congruence.
Qed.

Lemma is_allowed_Exists p action resource :
  is_allowed p action resource = true ↔
  ¬ Exists (applies "Deny" action resource) (statements p) ∧
  Exists (applies "Allow" action resource) (statements p).
Proof. unfold is_allowed. rewrite allowed_loop_spec. intuition congruence. Qed.

(** A one-statement Allow policy allows what the statement matches. *)
Lemma single_allow acts ress action resource :
  is_allowed {| statements := [{| effect := "Allow"; actions := acts; resources := ress |}] |}
    action resource = true ↔
  (∃ a, a ∈ acts ∧ pattern_denotes a action) ∧ (∃ r, r ∈ ress ∧ pattern_denotes r resource).
Proof.
  rewrite is_allowed_Exists. simpl. rewrite !Exists_cons, !Exists_nil. unfold applies, matches. simpl.
  rewrite andb_true_iff, !existsb_match. intuition congruence.
Qed.

(** ** Properties *)

(** C34: a request is allowed exactly when a matching statement has the effect Allow and no
    matching statement has the effect Deny: explicit denial wins, and the order of the
    statements is irrelevant. *)
Theorem is_allowed_spec p action resource :
  is_allowed p action resource = true ↔
  (∃ s, s ∈ statements p ∧ matches s action resource = true ∧ effect s = "Allow") ∧
  (∀ s, s ∈ statements p → matches s action resource = true → effect s ≠ "Deny").
Proof.
  rewrite is_allowed_Exists, !Exists_exists. unfold applies. split.
  - intros [H1 (s & ? & ? & ?)]. split; [by exists s|]. intros s' ? ? ?. apply H1. by exists s'.
  - intros [H1 H2]. split; [|done]. intros (s & ? & ? & ?). by destruct (H2 s).
Qed.

(** The readonly preset allows no action outside its six read actions, on any resource
    and for any bucket restriction; the readwrite preset with a bucket allows nothing on a
    resource that does not start with that bucket's name. *)
Theorem preset_policies_confine bucket action resource :
  (is_allowed (readonly_policy bucket) action resource = true → action ∈ readonly_actions) ∧
  ∀ b, is_allowed (readwrite_policy (Some b)) action resource = true →
       starts_with resource ("arn:ss:bucket:::" +:+ b) = true ∧ action ∈ readwrite_actions.
Proof.
  assert (∀ acts : list string, (∀ a, a ∈ acts → strip_suffix_char a star = None) →
    (∃ a, a ∈ acts ∧ pattern_denotes a action) → action ∈ acts) as Hexact.
  { intros acts Hstar (a & Ha & [[-> _]|(p & r & -> & _)]); [done|].
    specialize (Hstar _ Ha). apply eq_None_not_Some in Hstar. destruct Hstar.
    exists p. by apply strip_suffix_char_Some. }
  split.
  - intros [Hm _]%single_allow. apply Hexact; [|done].
    intros a Ha. repeat (apply elem_of_cons in Ha as [->|Ha]; [done|]).
    by apply not_elem_of_nil in Ha.
  - intros b [Hm (r & Hr & Hd)]%single_allow. apply list_elem_of_singleton in Hr as ->. split.
    + assert (strip_suffix_char (bucket_resource (Some b)) star
              = Some ("arn:ss:bucket:::" +:+ b)) as Hb.
      { apply strip_suffix_char_Some. simpl. by rewrite <- append_assoc. }
      destruct Hd as [[_ Hn]|(p & q & Hp & ->)]; [congruence|].
      apply strip_suffix_char_Some in Hp. apply starts_with_spec. exists q. congruence.
    + apply Hexact; [|done]. intros a Ha.
      repeat (apply elem_of_cons in Ha as [->|Ha]; [done|]). by apply not_elem_of_nil in Ha.
Qed.

(** The bucket restriction of the readwrite preset is a name prefix: a key restricted to
    bucket [b] may also write every object of every bucket whose name extends [b]. *)
Theorem bucket_restriction_leaks b suffix key :
  is_allowed (readwrite_policy (Some b)) "s3:PutObject"
    (resource_name (Some (b +:+ suffix)) (Some key)) = true.
Proof.
  apply single_allow. split.
  - exists "s3:PutObject". split; [set_solver|]. by left.
  - eexists. split; [by left|]. right.
    exists ("arn:ss:bucket:::" +:+ b), (suffix +:+ "/" +:+ key).
    simpl. by rewrite !append_assoc.
Qed.

(** The readwrite preset denies ListObjectVersions: the action the handler asks for is
    not among its actions. *)
Theorem readwrite_denies_list_versions bucket resource :
  is_allowed (readwrite_policy bucket) "s3:ListBucketVersions" resource = false.
Proof. done. Qed.
