(* ===== verification/Disk.v ===== *)
(** * The disk write guard (src/disk.rs)

    [DiskGuard] caches the free space of the data volume and the bytes held locally, and
    refuses writes when the free space is below a reserve or the usage has reached a cap.
    The limits are numbers of bytes; [Sizes] reads them from text. *)

From S2P Require Import Prelude.

Inductive GuardTrip : Type := LowFreeSpace | OverQuota.

#[global] Instance GuardTrip_eq_dec : EqDecision GuardTrip.
Proof. solve_decision. Defined.

Definition u64_max : Z := 2 ^ 64 - 1.

(** The two atomics are plain fields: the model sees one value of each at a time. *)
Record DiskGuard : Type := mkGuard {
  min_free_bytes : Z;
  free : Z;
  max_bytes : Z;
  local_usage : Z;
}.

(** The guard [from_config] builds from its parsed limits, before its first [refresh]. *)
Definition fresh_guard (min max : Z) : DiskGuard := mkGuard min u64_max max 0.
Definition disabled : DiskGuard := fresh_guard 0 0.

(** The free bytes [statvfs] reports for unprivileged users: [f_bavail * f_frsize], two [u64]; a
    failed call has no answer. *)
Definition statvfs_free (answer : option (Z * Z)) : option Z :=
  (λ '(f_bavail, f_frsize), wrap_u64 (f_bavail * f_frsize)) <$> answer.

(** [refresh] samples [statvfs] only when the reserve is enabled; a failed call keeps the
    last reading. *)
Definition refresh (g : DiskGuard) (statvfs_free : option Z) : DiskGuard :=
  if 0 <? min_free_bytes g then
    match statvfs_free with
    | Some f => mkGuard (min_free_bytes g) f (max_bytes g) (local_usage g)
    | None => g
    end
  else g.

Definition set_local_usage (g : DiskGuard) (n : Z) : DiskGuard :=
  mkGuard (min_free_bytes g) (free g) (max_bytes g) n.

Definition enabled (g : DiskGuard) : bool := (0 <? min_free_bytes g) || (0 <? max_bytes g).
Definition free_space_enabled (g : DiskGuard) : bool := 0 <? min_free_bytes g.
Definition quota_enabled (g : DiskGuard) : bool := 0 <? max_bytes g.

Definition check (g : DiskGuard) : option GuardTrip :=
  if (0 <? min_free_bytes g) && (free g <? min_free_bytes g) then Some LowFreeSpace
  else if (0 <? max_bytes g) && (max_bytes g <=? local_usage g) then Some OverQuota
  else None.

Definition writes_allowed (g : DiskGuard) : bool :=
  match check g with None => true | Some _ => false end.

(** The guard's numbers are [u64]. *)
Definition guard_wf (g : DiskGuard) : Prop :=
  in_u64 (min_free_bytes g) ∧ in_u64 (free g) ∧ in_u64 (max_bytes g) ∧ in_u64 (local_usage g).

(** ** Properties *)

(** Writes are allowed exactly when each enabled limit is respected: the free reading is
    at least the reserve and the usage is below the cap; a tripped guard names the reserve
    first, and a disabled limit never trips. *)
Theorem check_spec g :
  guard_wf g →
  (check g = None ↔
     (min_free_bytes g = 0 ∨ min_free_bytes g ≤ free g) ∧
     (max_bytes g = 0 ∨ local_usage g < max_bytes g)) ∧
  (check g = Some LowFreeSpace ↔ free g < min_free_bytes g) ∧
  (check g = Some OverQuota ↔
     min_free_bytes g ≤ free g ∧ max_bytes g ≠ 0 ∧ max_bytes g ≤ local_usage g).
Proof.
  intros (H1 & H2 & H3 & H4). unfold in_u64 in *. unfold check.
  destruct (Z.ltb_spec 0 (min_free_bytes g)), (Z.ltb_spec (free g) (min_free_bytes g)),
    (Z.ltb_spec 0 (max_bytes g)), (Z.leb_spec (max_bytes g) (local_usage g)); simpl;
    split_and!; split; intros; try discriminate; try (lia || done).
Qed.

Lemma check_spec_witness :
  check (mkGuard 100 50 0 0) = Some LowFreeSpace ∧
  ((check (mkGuard 100 50 0 0) = None ↔ (100 = 0 ∨ 100 ≤ 50) ∧ (0 = 0 ∨ 0 < 0)) ∧
   (check (mkGuard 100 50 0 0) = Some LowFreeSpace ↔ 50 < 100) ∧
   (check (mkGuard 100 50 0 0) = Some OverQuota ↔ 100 ≤ 50 ∧ 0 ≠ 0 ∧ 0 ≤ 0)).
Proof.
  split; [reflexivity|]. apply (check_spec (mkGuard 100 50 0 0)).
  unfold guard_wf, in_u64. simpl. lia.
Defined.
