(* ===== verification/Tables.v ===== *)
(** * The tables of the embedded store and the facts of its log (src/store.rs)

    Each SQLite table is a finite map from its primary key to a row record; the fact log is
    the list of its rows.  Every table with an [updated_at] column is written with the same
    statement shape, [INSERT .. ON CONFLICT DO UPDATE .. WHERE excluded.updated_at >
    table.updated_at]; [lww_upsert] is that statement and its lemmas are the last-write-wins
    register laws the rest of the development uses. *)

From S2P Require Import Prelude Crates Clock Policy.

(** Errors of the metadata and block layers ([anyhow::Error] by the place that raises it), and the
    panic of a sweep, which unwinds the task that runs it. *)
Inductive error : Type :=
  | InvalidHex
  | InvalidJson
  | TimeBeforeEpoch
  | BlobError
  | FetchError
  | BlockNotFound (hash : bytes)
  | BlockUnavailable (hash : bytes)
  | StoreError
  | SweepPanic.

(** ** Rows *)

Record ObjectRow : Type := mkObject {
  o_blocks : bytes; o_size : Z; o_etag : string; o_shard : Z; o_ts : Z; o_deleted : bool
}.
Record BlockRow : Type := mkBlock { b_size : Z; b_ts : Z }.
Record LocationRow : Type := mkLocation { l_fid : bytes; l_ts : Z }.
Record UserRow : Type := mkUser { u_secret : string; u_policy : string; u_ts : Z }.
Record PartRow : Type := mkPart { p_blocks : bytes; p_size : Z; p_etag : string }.
Record NodeRow : Type := mkNode { n_url : string; n_heartbeat : Z }.
Record QueueRow : Type := mkQueue { q_next : Z; q_attempts : Z; q_enqueued : Z }.
Record FactRow : Type := mkFact { f_seq : Z; f_ts : Z; f_kind : string; f_payload : string }.

#[global] Instance QueueRow_eq_dec : EqDecision QueueRow.
Proof. solve_decision. Defined.

(** ** The store *)

Record Store : Type := mkStore {
  objects : gmap (string * string) ObjectRow;
  blocks : gmap bytes BlockRow;
  block_locations : gmap (bytes * string) LocationRow;
  pending_deletions : gmap bytes Z;
  users : gmap string UserRow;
  multipart_uploads : gmap (string * string) string;
  parts : gmap (string * string * Z) PartRow;
  nodes : gmap string NodeRow;
  replication_queue : gmap (string * bytes) QueueRow;
  fact_log : list FactRow;
  replication_cursors : gmap string Z;
  local_location_id : string;
  clock : ClusterClock;
}.

(** A migrated, empty store. *)
Definition empty_store (id : string) (c : ClusterClock) : Store :=
  mkStore ∅ ∅ ∅ ∅ ∅ ∅ ∅ ∅ ∅ [] ∅ id c.

Definition with_objects (s : Store) t := mkStore t (blocks s) (block_locations s) (pending_deletions s) (users s) (multipart_uploads s) (parts s) (nodes s) (replication_queue s) (fact_log s) (replication_cursors s) (local_location_id s) (clock s).
Definition with_blocks (s : Store) t := mkStore (objects s) t (block_locations s) (pending_deletions s) (users s) (multipart_uploads s) (parts s) (nodes s) (replication_queue s) (fact_log s) (replication_cursors s) (local_location_id s) (clock s).
Definition with_locations (s : Store) t := mkStore (objects s) (blocks s) t (pending_deletions s) (users s) (multipart_uploads s) (parts s) (nodes s) (replication_queue s) (fact_log s) (replication_cursors s) (local_location_id s) (clock s).
Definition with_pending (s : Store) t := mkStore (objects s) (blocks s) (block_locations s) t (users s) (multipart_uploads s) (parts s) (nodes s) (replication_queue s) (fact_log s) (replication_cursors s) (local_location_id s) (clock s).
Definition with_users (s : Store) t := mkStore (objects s) (blocks s) (block_locations s) (pending_deletions s) t (multipart_uploads s) (parts s) (nodes s) (replication_queue s) (fact_log s) (replication_cursors s) (local_location_id s) (clock s).
Definition with_uploads (s : Store) t := mkStore (objects s) (blocks s) (block_locations s) (pending_deletions s) (users s) t (parts s) (nodes s) (replication_queue s) (fact_log s) (replication_cursors s) (local_location_id s) (clock s).
Definition with_parts (s : Store) t := mkStore (objects s) (blocks s) (block_locations s) (pending_deletions s) (users s) (multipart_uploads s) t (nodes s) (replication_queue s) (fact_log s) (replication_cursors s) (local_location_id s) (clock s).
Definition with_nodes (s : Store) t := mkStore (objects s) (blocks s) (block_locations s) (pending_deletions s) (users s) (multipart_uploads s) (parts s) t (replication_queue s) (fact_log s) (replication_cursors s) (local_location_id s) (clock s).
Definition with_queue (s : Store) t := mkStore (objects s) (blocks s) (block_locations s) (pending_deletions s) (users s) (multipart_uploads s) (parts s) (nodes s) t (fact_log s) (replication_cursors s) (local_location_id s) (clock s).
Definition with_log (s : Store) t := mkStore (objects s) (blocks s) (block_locations s) (pending_deletions s) (users s) (multipart_uploads s) (parts s) (nodes s) (replication_queue s) t (replication_cursors s) (local_location_id s) (clock s).
Definition with_cursors (s : Store) t := mkStore (objects s) (blocks s) (block_locations s) (pending_deletions s) (users s) (multipart_uploads s) (parts s) (nodes s) (replication_queue s) (fact_log s) t (local_location_id s) (clock s).
Definition with_clock (s : Store) c := mkStore (objects s) (blocks s) (block_locations s) (pending_deletions s) (users s) (multipart_uploads s) (parts s) (nodes s) (replication_queue s) (fact_log s) (replication_cursors s) (local_location_id s) c.

(** ** Facts *)

(** [Fact]; the policy of a user travels as a [serde_json::Value]. *)
Inductive Fact (Value : Type) : Type :=
  | ObjectPut (bucket key : string) (blocks : list string) (size : Z) (etag : string)
  | ObjectDelete (bucket key : string)
  | BlockAnnounce (hash location_id fid : string) (size : Z)
  | UserPut (access_key secret_key : string) (policy : Value).
Arguments ObjectPut {Value}.
Arguments ObjectDelete {Value}.
Arguments BlockAnnounce {Value}.
Arguments UserPut {Value}.

Definition kind_str {Value} (f : Fact Value) : string :=
  match f with
  | ObjectPut _ _ _ _ _ => "object_put"
  | ObjectDelete _ _ => "object_delete"
  | BlockAnnounce _ _ _ _ => "block_announce"
  | UserPut _ _ _ => "user_put"
  end.

Record FactRecord (Value : Type) : Type := mkRecord { seq : Z; ts : Z; fact : Fact Value }.
Arguments mkRecord {Value}.
Arguments seq {Value}.
Arguments ts {Value}.
Arguments fact {Value}.

(** The serde_json calls of the store: policies, and facts whose policy value came from a
    policy, survive being written and read back, also when a policy goes through its [Value]
    form first. *)
Class Json := {
  Value : Type;
  policy_to_value : Policy → Value;
  policy_to_string : Policy → string;
  value_to_string : Value → string;
  policy_from_str : string → option Policy;
  fact_to_string : Fact Value → string;
  fact_from_str : string → option (Fact Value);
  policy_string_roundtrip : ∀ p, policy_from_str (policy_to_string p) = Some p;
  policy_value_roundtrip : ∀ p, policy_from_str (value_to_string (policy_to_value p)) = Some p;
  fact_roundtrip : ∀ f,
    match f with UserPut _ _ v => ∃ p, v = policy_to_value p | _ => True end →
    fact_from_str (fact_to_string f) = Some f;
}.

(** The facts this site writes: the value of a [UserPut] is a serialised policy. *)
Definition own_fact `{!Json} (f : Fact Value) : Prop :=
  match f with UserPut _ _ v => ∃ p, v = policy_to_value p | _ => True end.

(** One codec with these laws: a document is a list of tokens, each written with an escape
    before every character and a terminator; it lets the store be run on concrete inputs. *)
Module JsonReference.

Fixpoint put_token (s rest : string) : string :=
  match s with
  | EmptyString => String ";" rest
  | String c s' => String "." (String c (put_token s' rest))
  end.
Definition put_tokens (l : list string) : string := foldr put_token "" l.

Fixpoint get_tokens (i : string) : option (list string) :=
  match i with
  | EmptyString => Some []
  | String ";" r => l ← get_tokens r; Some ("" :: l)
  | String "." (String c r) =>
      l ← get_tokens r; match l with s :: l' => Some (String c s :: l') | [] => None end
  | _ => None
  end.

Lemma get_put_tokens l : get_tokens (put_tokens l) = Some l.
Proof.
  induction l as [|s l IH]; [done|].
  change (put_tokens (s :: l)) with (put_token s (put_tokens l)).
  induction s as [|c s IHs].
  - change (get_tokens (put_token "" (put_tokens l))) with (l ← get_tokens (put_tokens l); Some ("" :: l)).
    by rewrite IH.
  - change (get_tokens (put_token (String c s) (put_tokens l))) with
      (l ← get_tokens (put_token s (put_tokens l)); match l with s :: l' => Some (String c s :: l') | [] => None end).
    by rewrite IHs.
Qed.

(** A statement is its effect, its actions and its resources, each with a tag. *)
Definition statement_tokens (s : PolicyStatement) : list string :=
  String "e" (effect s) :: (String "a" <$> actions s) ++ (String "r" <$> resources s).
Definition policy_tokens (p : Policy) : list string := concat (statement_tokens <$> statements p).

Definition read_token (tok : string) (acc : list PolicyStatement * list string * list string)
    : list PolicyStatement * list string * list string :=
  let '(stmts, acts, ress) := acc in
  match tok with
  | String "e" e => ({| effect := e; actions := acts; resources := ress |} :: stmts, [], [])
  | String "a" x => (stmts, x :: acts, ress)
  | String "r" x => (stmts, acts, x :: ress)
  | _ => acc
  end.
Definition policy_of_tokens (l : list string) : Policy :=
  {| statements := (foldr read_token ([], [], []) l).1.1 |}.

Lemma policy_of_policy_tokens p : policy_of_tokens (policy_tokens p) = p.
Proof.
  destruct p as [l]. unfold policy_of_tokens, policy_tokens. simpl. f_equal.
  assert (foldr read_token ([], [], []) (concat (statement_tokens <$> l)) = (l, [], [])) as ->; [|done].
  induction l as [|[e acts ress] l IH]; [done|]. rewrite fmap_cons. cbn [concat].
  rewrite foldr_app, IH. unfold statement_tokens. cbn [effect actions resources foldr].
  rewrite foldr_app.
  assert (foldr read_token (l, [], []) (String "r" <$> ress) = (l, [], ress)) as ->.
  { induction ress as [|r ress IHr]; [done|]. rewrite fmap_cons. cbn [foldr]. by rewrite IHr. }
  assert (foldr read_token (l, [], ress) (String "a" <$> acts) = (l, acts, ress)) as ->; [|done].
  induction acts as [|r acts IHr]; [done|]. rewrite fmap_cons. cbn [foldr]. by rewrite IHr.
Qed.

(** Integers in binary. *)
Fixpoint pos_to_string (p : positive) : string :=
  match p with
  | xH => ""
  | xO p => String "0" (pos_to_string p)
  | xI p => String "1" (pos_to_string p)
  end.
Fixpoint string_to_pos (s : string) : positive :=
  match s with
  | EmptyString => xH
  | String c s' => if decide (c = "0"%char) then xO (string_to_pos s') else xI (string_to_pos s')
  end.

Lemma string_to_pos_to_string p : string_to_pos (pos_to_string p) = p.
Proof. induction p as [p IH|p IH|]; cbn; rewrite ?IH; done. Qed.

Definition z_to_string (z : Z) : string := pos_to_string (encode z).
Definition z_of_string (s : string) : Z := default 0 (decode (string_to_pos s)).

Lemma z_of_z_to_string z : z_of_string (z_to_string z) = z.
Proof. unfold z_of_string, z_to_string. by rewrite string_to_pos_to_string, decode_encode. Qed.

Definition fact_tokens (f : Fact Policy) : list string :=
  match f with
  | ObjectPut b k bl s e => "P" :: b :: k :: z_to_string s :: e :: bl
  | ObjectDelete b k => ["D"; b; k]
  | BlockAnnounce h l fid s => ["A"; h; l; fid; z_to_string s]
  | UserPut a sk p => "U" :: a :: sk :: policy_tokens p
  end.
Definition fact_of_tokens (l : list string) : option (Fact Policy) :=
  match l with
  | "P" :: b :: k :: s :: e :: bl => Some (ObjectPut b k bl (z_of_string s) e)
  | "D" :: b :: k :: [] => Some (ObjectDelete b k)
  | "A" :: h :: loc :: fid :: s :: [] => Some (BlockAnnounce h loc fid (z_of_string s))
  | "U" :: a :: sk :: p => Some (UserPut a sk (policy_of_tokens p))
  | _ => None
  end%string.

Definition write_policy (p : Policy) : string := put_tokens (policy_tokens p).
Definition read_policy (s : string) : option Policy := policy_of_tokens <$> get_tokens s.

Lemma read_write_policy p : read_policy (write_policy p) = Some p.
Proof. unfold read_policy, write_policy. rewrite get_put_tokens. simpl. by rewrite policy_of_policy_tokens. Qed.

Definition json_tokens : Json.
Proof.
  refine {| Value := Policy; policy_to_value p := p; policy_to_string := write_policy;
            value_to_string := write_policy; policy_from_str := read_policy;
            fact_to_string f := put_tokens (fact_tokens f);
            fact_from_str s := get_tokens s ≫= fact_of_tokens |}.
  - apply read_write_policy.
  - apply read_write_policy.
  - intros f _. rewrite get_put_tokens. destruct f; simpl;
      by rewrite ?z_of_z_to_string, ?policy_of_policy_tokens.
Defined.

End JsonReference.

(** ** Last-write-wins tables *)

Section lww.
Context `{Countable K} {V : Type} (updated_at : V → Z).
Implicit Types (m : gmap K V) (k : K) (v : V).

Definition lww_upsert (k : K) (v : V) (m : gmap K V) : gmap K V :=
  match m !! k with
  | Some old => if updated_at old <? updated_at v then <[k := v]> m else m
  | None => <[k := v]> m
  end.

(** The register laws: the value at [k] after a write. *)
Definition lww_join (o : option V) (v : V) : option V :=
  match o with
  | Some old => if updated_at old <? updated_at v then Some v else Some old
  | None => Some v
  end.

Lemma lww_upsert_lookup k v m : lww_upsert k v m !! k = lww_join (m !! k) v.
Proof.
  unfold lww_upsert, lww_join. destruct (m !! k) as [old|] eqn:E; [|by rewrite lookup_insert_eq].
  destruct (_ <? _); [by rewrite lookup_insert_eq|done].
Qed.

Lemma lww_upsert_lookup_ne k k' v m : k ≠ k' → lww_upsert k v m !! k' = m !! k'.
Proof.
  intros Hne. unfold lww_upsert. destruct (m !! k); [destruct (_ <? _)|];
    rewrite ?lookup_insert_ne; done.
Qed.

Lemma lww_upsert_is_Some k k' v m :
  is_Some (lww_upsert k v m !! k') ↔ k = k' ∨ is_Some (m !! k').
Proof.
  destruct (decide (k = k')) as [->|Hne].
  - rewrite lww_upsert_lookup. unfold lww_join.
    destruct (m !! k'); [destruct (_ <? _)|]; naive_solver.
  - rewrite lww_upsert_lookup_ne by done. naive_solver.
Qed.

(** Two writes are compatible when they address different keys, carry different
    timestamps, or write the same value: equal timestamps with different values are the only
    conflict. *)
Definition lww_compatible (p q : K * V) : Prop :=
  p.1 = q.1 → updated_at p.2 = updated_at q.2 → p.2 = q.2.

Lemma lww_upsert_comm p q m :
  lww_compatible p q →
  lww_upsert p.1 p.2 (lww_upsert q.1 q.2 m) = lww_upsert q.1 q.2 (lww_upsert p.1 p.2 m).
Proof.
  destruct p as [k v], q as [k' v']. unfold lww_compatible. simpl. intros Hc.
  apply map_eq. intros i.
  destruct (decide (k = k')) as [<-|Hne].
  - destruct (decide (k = i)) as [<-|Hi]; [|by rewrite !lww_upsert_lookup_ne by done].
    rewrite !lww_upsert_lookup. unfold lww_join.
    specialize (Hc eq_refl).
    destruct (m !! k) as [o|];
      repeat match goal with |- context [?a <? ?b] => destruct (Z.ltb_spec a b) end;
      try done; try lia; try (f_equal; (apply Hc || symmetry; apply Hc); lia).
  - destruct (decide (k = i)) as [<-|Hi].
    + rewrite lww_upsert_lookup, !(lww_upsert_lookup_ne k') by done.
      by rewrite lww_upsert_lookup.
    + rewrite (lww_upsert_lookup_ne k) by done.
      destruct (decide (k' = i)) as [<-|Hi'].
      * rewrite !lww_upsert_lookup. by rewrite lww_upsert_lookup_ne.
      * by rewrite !lww_upsert_lookup_ne by done.
Qed.

Lemma lww_upsert_idem k v m : lww_upsert k v (lww_upsert k v m) = lww_upsert k v m.
Proof.
  apply map_eq. intros i. destruct (decide (k = i)) as [<-|Hi];
    [|by rewrite !lww_upsert_lookup_ne by done].
  rewrite !lww_upsert_lookup. unfold lww_join.
  destruct (m !! k) as [o|];
    repeat match goal with |- context [?a <? ?b] => destruct (Z.ltb_spec a b) end; done || lia.
Qed.

(** Timestamps never go back. *)
Lemma lww_upsert_mono k v m i old :
  m !! i = Some old → ∃ new, lww_upsert k v m !! i = Some new ∧ updated_at old ≤ updated_at new.
Proof.
  intros Hi. destruct (decide (k = i)) as [<-|Hne].
  - rewrite lww_upsert_lookup, Hi. unfold lww_join.
    destruct (Z.ltb_spec (updated_at old) (updated_at v)); eexists; split; done || lia.
  - rewrite lww_upsert_lookup_ne by done. exists old. split; [done|lia].
Qed.

(** A whole sequence of writes; which value ends up at a key is the specification of a
    last-write-wins register: the initial value or one of the writes, with a timestamp that
    none of the candidates exceeds. *)
Definition lww_apply (m : gmap K V) (ws : list (K * V)) : gmap K V :=
  foldl (λ m p, lww_upsert p.1 p.2 m) m ws.

Definition candidate (m : gmap K V) (ws : list (K * V)) (k : K) (v : V) : Prop :=
  m !! k = Some v ∨ (k, v) ∈ ws.

Lemma lww_apply_spec m ws k :
  match lww_apply m ws !! k with
  | Some v => candidate m ws k v ∧ ∀ w, candidate m ws k w → updated_at w ≤ updated_at v
  | None => ∀ w, ¬ candidate m ws k w
  end.
Proof.
  unfold lww_apply, candidate. revert m. induction ws as [|[k' v'] ws IH]; intros m; simpl.
  { destruct (m !! k) as [v|] eqn:E; simplify_eq; [|set_solver].
    split; [by left|]. intros w [[= <-]|Hw]; [lia|set_solver]. }
  specialize (IH (lww_upsert k' v' m)).
  destruct (decide (k' = k)) as [->|Hne].
  - rewrite lww_upsert_lookup in IH. unfold lww_join in IH.
    destruct (foldl _ _ _ !! k) as [v|]; simpl.
    + destruct IH as [Hv Hmax]. destruct (m !! k) as [o|] eqn:E.
      * destruct (Z.ltb_spec (updated_at o) (updated_at v')).
        -- split; [destruct Hv as [[= <-]|?]; [right; left|right; by right]|].
           intros w [[= <-]|[Hw|Hw]%elem_of_cons].
           ++ assert (updated_at v' ≤ updated_at v) by (apply Hmax; by left). lia.
           ++ injection Hw as ->. apply Hmax. by left.
           ++ apply Hmax. by right.
        -- split; [destruct Hv as [[= <-]|?]; [by left|right; by right]|].
           intros w [[= <-]|[Hw|Hw]%elem_of_cons].
           ++ apply Hmax. by left.
           ++ injection Hw as ->.
              assert (updated_at o ≤ updated_at v) by (apply Hmax; by left). lia.
           ++ apply Hmax. by right.
      * split; [destruct Hv as [[= <-]|?]; [right; left|right; by right]|].
        intros w [[=]|[Hw|Hw]%elem_of_cons]; [|apply Hmax; by right].
        injection Hw as ->. apply Hmax. by left.
    + exfalso. destruct (m !! k) as [o|]; [destruct (_ <? _)|]; eapply IH; by left.
  - rewrite lww_upsert_lookup_ne in IH by done.
    destruct (foldl _ _ _ !! k) as [v|]; simpl.
    + destruct IH as [Hv Hmax]. split; [destruct Hv; [by left|right; by right]|].
      intros w [Hw|[Hw|Hw]%elem_of_cons]; [apply Hmax; by left| |apply Hmax; by right].
      congruence.
    + intros w [Hw|[Hw|Hw]%elem_of_cons]; [eapply IH; by left|congruence|eapply IH; by right].
Qed.

Lemma lww_apply_perm m ws1 ws2 :
  ws1 ≡ₚ ws2 →
  (∀ p q, p ∈ ws1 → q ∈ ws1 → lww_compatible p q) →
  lww_apply m ws1 = lww_apply m ws2.
Proof.
  intros Hp Hc. apply foldl_perm; [done|]. intros a x y Hx Hy. by apply lww_upsert_comm, Hc.
Qed.
End lww.

(** Two sequences of writes with the same candidates, none of them in conflict, build the
    same table, whatever their order and repetitions. *)
Definition lww_tie_free `{Countable K} {V} (updated_at : V → Z) (m : gmap K V)
    (ws : list (K * V)) : Prop :=
  ∀ k v w, candidate m ws k v → candidate m ws k w → updated_at v = updated_at w → v = w.

Lemma lww_apply_agree `{Countable K} {V} (updated_at : V → Z) (m1 m2 : gmap K V) ws1 ws2 :
  lww_tie_free updated_at m1 ws1 →
  (∀ k v, candidate m1 ws1 k v ↔ candidate m2 ws2 k v) →
  lww_apply updated_at m1 ws1 = lww_apply updated_at m2 ws2.
Proof.
  intros Htie Hsame. apply map_eq. intros k.
  pose proof (lww_apply_spec updated_at m1 ws1 k) as H1.
  pose proof (lww_apply_spec updated_at m2 ws2 k) as H2.
  destruct (lww_apply updated_at m1 ws1 !! k) as [v1|], (lww_apply updated_at m2 ws2 !! k) as [v2|].
  - destruct H1 as [Hc1 Hm1], H2 as [Hc2 Hm2]. f_equal.
    apply (Htie k); [done|by apply Hsame|].
    apply Z.le_antisymm; [apply Hm2; by apply Hsame|apply Hm1; by apply Hsame].
  - destruct H1 as [Hc1 _]. by destruct (H2 v1); apply Hsame.
  - destruct H2 as [Hc2 _]. by destruct (H1 v2); apply Hsame.
  - done.
Qed.

(** A write that keeps the timestamp when a table is viewed through [g] is a write of the
    view. *)
Lemma lww_upsert_fmap `{Countable K} {V W} (ts : V → Z) (ts' : W → Z) (g : V → W) k v (m : gmap K V) :
  (∀ v, ts' (g v) = ts v) → g <$> lww_upsert ts k v m = lww_upsert ts' k (g v) (g <$> m).
Proof.
  intros Hg. unfold lww_upsert. rewrite lookup_fmap.
  destruct (m !! k) as [old|]; simpl; [rewrite !Hg; destruct (_ <? _)|]; by rewrite ?fmap_insert.
Qed.

Lemma lww_apply_app `{Countable K} {V} (ts : V → Z) (m : gmap K V) ws1 ws2 :
  lww_apply ts m (ws1 ++ ws2) = lww_apply ts (lww_apply ts m ws1) ws2.
Proof. apply foldl_app. Qed.
