(* ===== verification/Store.v ===== *)
(** * The embedded metadata store (src/store.rs)

    One definition per method of [Store].  A method runs under the connection mutex, so it
    is a function of the whole store; a method that reads the clock takes the system time
    [t] of its reading.  Errors the code itself raises (hex, JSON, a time before the epoch)
    are results; SQLite's own I/O errors are not modelled.  A SELECT without ORDER BY
    returns its rows in the order [iter_order] gives. *)

From S2P Require Import Prelude Crates Clock Hashing Listing Policy Tables.

Definition now_micros (s : Store) (t : SystemTime) : Z := Clock.now_micros (clock s) t.
Definition now_millis (s : Store) (t : SystemTime) : Z := Z.quot (now_micros s t) 1000.

(** ** Block hash lists *)

Definition encode_blocks (blocks : list bytes) : bytes := concat blocks.
Definition decode_blocks (raw : bytes) : list bytes := chunks_exact (S (length raw)) 32 raw.

(** ** Replication backoff *)

Definition REPLICATION_BACKOFF_BASE_MS : Z := 60000.
Definition REPLICATION_BACKOFF_CAP_MS : Z := 6 * 60 * 60 * 1000.
Definition REPLICATION_DRAIN_PAGE : nat := 500.
Definition REPLICATION_STUCK_ATTEMPTS : Z := 10.

(** [checked_shl] is [None] only for a shift of 64 or more; bits shifted out are lost. *)
Definition checked_shl (x shift : Z) : option Z :=
  if shift <? 64 then Some (wrap_i64 (Z.shiftl x shift)) else None.

Definition replication_backoff_ms (attempts : Z) : Z :=
  if attempts <=? 0 then REPLICATION_BACKOFF_BASE_MS else
  let shift := Z.min attempts 40 in
  Z.min (default REPLICATION_BACKOFF_CAP_MS (checked_shl REPLICATION_BACKOFF_BASE_MS shift))
        REPLICATION_BACKOFF_CAP_MS.

(** [ReplicationEntry] of src/db.rs. *)
Record ReplicationEntry : Type := mkEntry {
  e_hash : bytes; e_next_attempt_at : Z; e_attempts : Z; e_enqueued_at : Z
}.

Section store.
Context `{!Blake3, !Hex, !UuidCodec, !Json, !IterOrder}.

(** ** Blocks *)

(** The locations of a block, [None] when there are none. *)
Definition get_block_fids (s : Store) (hash : bytes) : option (gmap string bytes) :=
  let m : gmap string bytes :=
    list_to_map (omap (λ '((h, loc), r), if decide (h = hash) then Some (loc, l_fid r) else None)
                      (map_to_list (block_locations s))) in
  if decide (m = ∅) then None else Some m.

Definition block_size (s : Store) (h : bytes) : Z := default 0 (b_size <$> blocks s !! h).
Definition block_sizes (s : Store) (hashes : list bytes) : list Z := block_size s <$> hashes.

Definition get_local_block_fid (s : Store) (hash : bytes) : option bytes :=
  l_fid <$> block_locations s !! (hash, local_location_id s).

Definition upsert_block_location (hash : bytes) (location_id : string) (fid : bytes)
    (size ts : Z) (s : Store) : Store :=
  let s := with_blocks s (lww_upsert b_ts hash (mkBlock size ts) (blocks s)) in
  with_locations s (lww_upsert l_ts (hash, location_id) (mkLocation fid ts) (block_locations s)).

Definition insert_block (s : Store) (t : SystemTime) (hash fid : bytes) (size : Z) : Store :=
  upsert_block_location hash (local_location_id s) fid size (now_micros s t) s.

(** [INTEGER PRIMARY KEY AUTOINCREMENT]: one more than any sequence number used so far (no
    row of the log is ever deleted). *)
Definition max_seq (l : list FactRow) : Z := foldr Z.max 0 (f_seq <$> l).
Definition append_fact_tx (ts : Z) (f : Fact Value) (s : Store) : Store :=
  let row := mkFact (max_seq (fact_log s) + 1) ts (kind_str f) (fact_to_string f) in
  with_log s (fact_log s ++ [row]).

Definition store_local_block (s : Store) (t : SystemTime) (hash fid : bytes) (size : Z) : Store :=
  let ts := now_micros s t in
  let s1 := upsert_block_location hash (local_location_id s) fid size ts s in
  append_fact_tx ts
    (BlockAnnounce (hex_encode hash) (local_location_id s) (hex_encode fid) size) s1.

Definition add_block_location (s : Store) (t : SystemTime) (hash : bytes) (location_id : string)
    (fid : bytes) : Store :=
  upsert_block_location hash location_id fid (block_size s hash) (now_micros s t) s.

(** ** Objects *)

Definition live_rows (s : Store) : list (string * string * ObjectRow) :=
  filter (λ r, o_deleted r.2 = false) (map_to_list (objects s)).

(** [SELECT bucket, MIN(updated_at) .. GROUP BY bucket ORDER BY bucket]. *)
Definition min_ts (ts : list Z) : Z :=
  match ts with [] => 0 | x :: l => foldr Z.min x l end.
Definition list_buckets (s : Store) : list (string * Z) :=
  (λ b, (b, min_ts (o_ts ∘ snd <$> filter (λ r, r.1.1 = b) (live_rows s)))) <$>
    sort_by str_le (remove_dups ((λ r, r.1.1) <$> live_rows s)).

Definition put_object_row (bucket key : string) (encoded : bytes) (size : Z) (etag : string)
    (shard_id : Z) (deleted : bool) (ts : Z) (s : Store) : Store :=
  with_objects s
    (lww_upsert o_ts (bucket, key) (mkObject encoded size etag shard_id ts deleted) (objects s)).

Definition insert_object (s : Store) (t : SystemTime) (bucket : string) (shard_id : Z)
    (key : string) (blocks : list bytes) (size : Z) (etag : string) : Store :=
  let ts := now_micros s t in
  let encoded := encode_blocks blocks in
  let s1 := put_object_row bucket key encoded size etag shard_id false ts s in
  append_fact_tx ts (ObjectPut bucket key (hex_encode <$> blocks) size etag) s1.

Definition get_object (s : Store) (bucket key : string) : option (list bytes * Z * string) :=
  match objects s !! (bucket, key) with
  | Some r =>
      if o_deleted r then None else Some (decode_blocks (o_blocks r), o_size r, o_etag r)
  | None => None
  end.

Definition delete_object (s : Store) (t : SystemTime) (bucket key : string) : Store :=
  let ts := now_micros s t in
  let shard_id := compute_shard_id key in
  let s1 := put_object_row bucket key [] 0 "" shard_id true ts s in
  append_fact_tx ts (ObjectDelete bucket key) s1.

(** The WHERE clause the code assembles: with a cursor only [key > after], without one the
    prefix's inclusive lower bound; the prefix's upper bound in both cases. *)
Definition in_page (after lower upper : option string) (key : string) : bool :=
  match after, lower with
  | Some a, _ => bool_decide (str_lt a key)
  | None, Some l => bool_decide (str_le l key)
  | None, None => true
  end &&
  match upper with Some u => bool_decide (str_lt key u) | None => true end.

Definition obj_le (a b : obj) : Prop := str_le (obj_key a) (obj_key b).
#[global] Instance obj_le_dec : RelDecision obj_le.
Proof. intros a b. unfold obj_le. apply _. Defined.

(** [SELECT key, size, etag .. ORDER BY key ASC], before its LIMIT. *)
Definition select_objects (s : Store) (bucket : string) (after lower upper : option string)
    : list obj :=
  sort_by obj_le
    ((λ r, (r.1.2, o_size r.2, o_etag r.2)) <$>
       filter (λ r, r.1.1 = bucket ∧ in_page after lower upper r.1.2 = true) (live_rows s)).

Definition list_objects (s : Store) (bucket : string) (after prefix : option string)
    (page_size : nat) : result panic (list obj * bool) :=
  let run (lower upper : option string) :=
    let rows := take (page_size + 1) (select_objects s bucket after lower upper) in
    let is_truncated := bool_decide (page_size < length rows)%nat in
    Ok (take page_size rows, is_truncated) in
  match prefix with
  | None => run None None
  | Some p =>
      match prefix_key_range p with
      | Err e => Err e
      | Ok (l, u) => run (Some l) u
      end
  end.

(** ** Mark and sweep *)

Definition compute_live_block_set (s : Store) : gset bytes :=
  list_to_set ((live_rows s ≫= λ r, decode_blocks (o_blocks r.2)) ++
               (map_to_list (parts s) ≫= λ r, decode_blocks (p_blocks r.2))).

Definition list_local_block_hashes (s : Store) : list bytes :=
  iter_order (omap (λ '((h, loc), _), if decide (loc = local_location_id s) then Some h else None)
                   (map_to_list (block_locations s))).

Definition add_pending_deletion (s : Store) (hash : bytes) (not_before : SystemTime)
    : result error Store :=
  if not_before <? 0 then Err TimeBeforeEpoch else
  let ms := wrap_i64 (not_before / 1000000) in
  Ok (with_pending s (<[hash := ms]> (pending_deletions s))).

Definition get_pending_deletions (s : Store) : list (bytes * Z) :=
  iter_order (map_to_list (pending_deletions s)).

Definition remove_pending_deletion (s : Store) (hash : bytes) : Store :=
  with_pending s (delete hash (pending_deletions s)).

(** Removes this site's location; the block row goes with the last location. *)
Definition locations_of (s : Store) (hash : bytes) : list string :=
  omap (λ '((h, loc), _), if decide (h = hash) then Some loc else None)
       (map_to_list (block_locations s)).
Definition delete_local_block (s : Store) (hash : bytes) : bool * Store :=
  let removed := bool_decide (is_Some (block_locations s !! (hash, local_location_id s))) in
  let s1 := with_locations s (delete (hash, local_location_id s) (block_locations s)) in
  let s2 := if decide (locations_of s1 hash = []) then with_blocks s1 (delete hash (blocks s1))
            else s1 in
  (removed, s2).

(** ** Multipart uploads *)

Definition insert_multipart (s : Store) (bucket : string) (upload_id : Uuid) (key : string) : Store :=
  with_uploads s (<[(bucket, uuid_to_string upload_id) := key]> (multipart_uploads s)).

Definition get_multipart_key (s : Store) (bucket : string) (upload_id : Uuid) : option string :=
  multipart_uploads s !! (bucket, uuid_to_string upload_id).

Definition delete_parts (s : Store) (bucket : string) (upload_id : Uuid) : Store :=
  with_parts s (filter (λ r, ¬ (r.1.1.1 = bucket ∧ r.1.1.2 = uuid_to_string upload_id)) (parts s)).

Definition delete_multipart_upload (s : Store) (bucket : string) (upload_id : Uuid) : Store :=
  let s1 := with_uploads s (delete (bucket, uuid_to_string upload_id) (multipart_uploads s)) in
  delete_parts s1 bucket upload_id.

Definition insert_part (s : Store) (bucket : string) (upload_id : Uuid) (part_number : Z)
    (blocks : list bytes) (size : Z) (etag : string) : Store :=
  with_parts s (<[(bucket, uuid_to_string upload_id, part_number) :=
                    mkPart (encode_blocks blocks) size etag]> (parts s)).

Definition part : Type := Z * list bytes * Z * string.
Definition part_number (p : part) : Z := p.1.1.1.
Definition part_blocks (p : part) : list bytes := p.1.1.2.
Definition part_size (p : part) : Z := p.1.2.
Definition part_etag (p : part) : string := p.2.
Definition part_le (a b : part) : Prop := part_number a ≤ part_number b.
#[global] Instance part_le_dec : RelDecision part_le.
Proof. intros a b. unfold part_le. apply _. Defined.

Definition list_parts (s : Store) (bucket : string) (upload_id : Uuid) : list part :=
  sort_by part_le
    (omap (λ '((b, u, n), r),
             if decide (b = bucket ∧ u = uuid_to_string upload_id)
             then Some (n, decode_blocks (p_blocks r), p_size r, p_etag r) else None)
          (map_to_list (parts s))).

(** SQLite's LIKE: ['%'] matches any sequence, ['_'] any one character, and letters of
    ASCII match in either case. *)
Definition lower (c : ascii) : ascii :=
  let n := N_of_ascii c in if (65 <=? n)%N && (n <=? 90)%N then ascii_of_N (n + 32) else c.

Fixpoint skip_continuation (s : string) : string :=
  match s with
  | String c s' => if continuation c then skip_continuation s' else s
  | EmptyString => s
  end.
Definition skip_char (s : string) : option string :=
  match s with
  | EmptyString => None
  | String c s' => Some (if (192 <=? N_of_ascii c)%N then skip_continuation s' else s')
  end.

Fixpoint some_suffix (f : string → bool) (s : string) : bool :=
  f s || match s with String _ s' => some_suffix f s' | EmptyString => false end.

Fixpoint like (pattern s : string) : bool :=
  match pattern with
  | EmptyString => bool_decide (s = EmptyString)
  | String c p =>
      if decide (c = "%"%char) then some_suffix (like p) s
      else if decide (c = "_"%char) then
        match skip_char s with Some s' => like p s' | None => false end
      else match s with
           | String d s' => bool_decide (lower c = lower d) && like p s'
           | EmptyString => false
           end
  end.

Definition upload_le (a b : string * string) : Prop :=
  str_lt a.1 b.1 ∨ (a.1 = b.1 ∧ str_le a.2 b.2).
#[global] Instance upload_le_dec : RelDecision upload_le.
Proof. intros a b. unfold upload_le. apply _. Defined.

Definition list_multipart_uploads (s : Store) (bucket : string) (prefix key_marker : option string)
    (max_uploads : nat) : list (string * string) :=
  let selected :=
    omap (λ '((b, u), key),
            if decide (b = bucket) then
              if match prefix with Some p => like (p +:+ "%") key | None => true end &&
                 match key_marker with Some m => bool_decide (str_lt m key) | None => true end
              then Some (key, u) else None
            else None)
         (map_to_list (multipart_uploads s)) in
  take (max_uploads + 1) (sort_by upload_le selected).

(** ** Nodes *)

Definition upsert_node (s : Store) (t : SystemTime) (location_id api_url : string) : Store :=
  with_nodes s (<[location_id := mkNode api_url (now_millis s t)]> (nodes s)).

Definition register_node (s : Store) (t : SystemTime) (api_url : string) : Store :=
  upsert_node s t (local_location_id s) api_url.

Definition record_peer (s : Store) (t : SystemTime) (location_id api_url : string) : Store :=
  if decide (location_id = local_location_id s) then s else upsert_node s t location_id api_url.

Definition all_nodes (s : Store) : list (string * string) :=
  (λ r, (r.1, n_url r.2)) <$> iter_order (map_to_list (nodes s)).

Definition get_peers (s : Store) : list (string * string) :=
  filter (λ r, r.1 ≠ local_location_id s) (all_nodes s).

Definition get_peers_with_urls (s : Store) : gmap string string := list_to_map (get_peers s).

(** ** Replication queue *)

Definition enqueue_one (now_ms : Z) (hash : bytes) (q : gmap (string * bytes) QueueRow)
    (target : string) : gmap (string * bytes) QueueRow :=
  match q !! (target, hash) with
  | Some _ => q
  | None => <[(target, hash) := mkQueue 0 0 now_ms]> q
  end.

Definition enqueue_replication (s : Store) (t : SystemTime) (hash : bytes)
    (target_ids : list string) : Store :=
  with_queue s (foldl (enqueue_one (now_millis s t) hash) (replication_queue s) target_ids).

Definition entry_le (a b : ReplicationEntry) : Prop := e_next_attempt_at a ≤ e_next_attempt_at b.
#[global] Instance entry_le_dec : RelDecision entry_le.
Proof. intros a b. unfold entry_le. apply _. Defined.

Definition get_replication_queue (s : Store) (t : SystemTime) : list ReplicationEntry :=
  let now := now_millis s t in
  let selected :=
    omap (λ '((target, h), r),
            if decide (target = local_location_id s ∧ q_next r ≤ now)
            then Some (mkEntry h (q_next r) (q_attempts r) (q_enqueued r)) else None)
         (iter_order (map_to_list (replication_queue s))) in
  take REPLICATION_DRAIN_PAGE (sort_by entry_le selected).

Definition dequeue_replication (s : Store) (hash : bytes) : Store :=
  with_queue s (delete (local_location_id s, hash) (replication_queue s)).

Definition defer_replication (s : Store) (t : SystemTime) (entry : ReplicationEntry) : Store :=
  let new_next := wrap_i64 (now_millis s t + replication_backoff_ms (e_attempts entry)) in
  with_queue s
    (alter (λ r, mkQueue new_next (q_attempts r + 1) (q_enqueued r))
           (local_location_id s, e_hash entry) (replication_queue s)).

Definition get_stuck_replications (s : Store) : list (bytes * Z * Z) :=
  omap (λ '((target, h), r),
          if decide (target = local_location_id s ∧ REPLICATION_STUCK_ATTEMPTS ≤ q_attempts r)
          then Some (h, q_attempts r, q_enqueued r) else None)
       (iter_order (map_to_list (replication_queue s))).

(** ** Fact log *)

Fixpoint read_records (rows : list FactRow) : result error (list (FactRecord Value)) :=
  match rows with
  | [] => Ok []
  | r :: rows' =>
      match fact_from_str (f_payload r) with
      | None => Err InvalidJson
      | Some f =>
          match read_records rows' with
          | Err e => Err e
          | Ok out => Ok (mkRecord (f_seq r) (f_ts r) f :: out)
          end
      end
  end.

Definition seq_le (a b : FactRow) : Prop := f_seq a ≤ f_seq b.
#[global] Instance seq_le_dec : RelDecision seq_le.
Proof. intros a b. unfold seq_le. apply _. Defined.

(** [LIMIT] with a negative value is no limit. *)
Definition sql_limit {A} (limit : Z) (l : list A) : list A :=
  if limit <? 0 then l else take (Z.to_nat limit) l.

Definition facts_since (s : Store) (after limit : Z) : result error (list (FactRecord Value)) :=
  read_records
    (sql_limit limit (sort_by seq_le (filter (λ r, after < f_seq r) (fact_log s)))).

Definition get_cursor (s : Store) (peer : string) : Z := default 0 (replication_cursors s !! peer).

Definition set_cursor (s : Store) (peer : string) (last_seq : Z) : Store :=
  with_cursors s (lww_upsert id peer last_seq (replication_cursors s)).

Definition put_user_row (access_key secret_key policy_json : string) (ts : Z) (s : Store) : Store :=
  with_users s (lww_upsert u_ts access_key (mkUser secret_key policy_json ts) (users s)).

(** Decoding comes before any write, so a fact that does not decode changes nothing. *)
Definition apply_fact (s : Store) (t : SystemTime) (rec : FactRecord Value) : result error Store :=
  let ts := ts rec in
  match fact rec with
  | ObjectPut bucket key blocks size etag =>
      match mapM hex_decode blocks with
      | None => Err InvalidHex
      | Some decoded =>
          let encoded := encode_blocks decoded in
          let shard_id := compute_shard_id key in
          Ok (put_object_row bucket key encoded size etag shard_id false ts s)
      end
  | ObjectDelete bucket key =>
      let shard_id := compute_shard_id key in
      Ok (put_object_row bucket key [] 0 "" shard_id true ts s)
  | BlockAnnounce hash location_id fid size =>
      match hex_decode hash, hex_decode fid with
      | Some hash_b, Some fid_b =>
          let s1 := upsert_block_location hash_b location_id fid_b size ts s in
          let have_local := block_locations s1 !! (hash_b, local_location_id s) in
          let need_pull := bool_decide (have_local = None) &&
                           bool_decide (location_id ≠ local_location_id s) in
          Ok (if need_pull then enqueue_replication s1 t hash_b [local_location_id s] else s1)
      | _, _ => Err InvalidHex
      end
  | UserPut access_key secret_key policy =>
      Ok (put_user_row access_key secret_key (value_to_string policy) ts s)
  end.

(** ** Accounting *)

(** Sizes of the blocks of the join of this site's locations with [blocks]. *)
Definition local_block_bytes (s : Store) : Z :=
  foldr Z.add 0
    (omap (λ '((h, loc), _),
             if decide (loc = local_location_id s) then b_size <$> blocks s !! h else None)
          (map_to_list (block_locations s))).

Record StoreStats : Type := mkStats {
  st_live_objects : Z; st_local_blocks : Z; st_local_block_bytes : Z;
  st_pending_deletions : Z; st_pending_pulls : Z; st_fact_count : Z
}.

Definition stats (s : Store) : StoreStats := {|
  st_live_objects := Z.of_nat (length (live_rows s));
  st_local_blocks :=
    Z.of_nat (length (filter (λ r, r.1.2 = local_location_id s) (map_to_list (block_locations s))));
  st_local_block_bytes := local_block_bytes s;
  st_pending_deletions := Z.of_nat (size (pending_deletions s));
  st_pending_pulls :=
    Z.of_nat (length (filter (λ r, r.1.1 = local_location_id s) (map_to_list (replication_queue s))));
  st_fact_count := Z.of_nat (length (fact_log s));
|}.

(** ** Users *)

Definition create_user (s : Store) (t : SystemTime) (access_key secret_key : string)
    (policy : Policy) : Store :=
  let ts := now_micros s t in
  let policy_value := policy_to_value policy in
  let policy_json := policy_to_string policy in
  let s1 := put_user_row access_key secret_key policy_json ts s in
  append_fact_tx ts (UserPut access_key secret_key policy_value) s1.

Definition get_user (s : Store) (access_key : string) : result error (option (string * Policy)) :=
  match users s !! access_key with
  | None => Ok None
  | Some r =>
      match policy_from_str (u_policy r) with
      | Some policy => Ok (Some (u_secret r, policy))
      | None => Err InvalidJson
      end
  end.

End store.
