(* ===== verification/FactLog.v ===== *)
(** * The replicated fact log (src/store.rs)

    A site is a store together with the operations it has run.  [site] is the step relation
    of one store: every method that changes it, in any order and at any clock reading, with
    the stamped facts it has logged itself ([own]) and the facts it has logged or applied
    ([seen]).  The object and user tables are last-write-wins registers over [seen], so
    sites that have seen the same facts agree. *)

From S2P Require Import Prelude Crates Clock Hashing Listing Policy Tables Store.

Section factlog.
Context `{!Blake3, !Hex, !UuidCodec, !Json, !IterOrder}.

Abbreviation stamped := (Z * Fact Value)%type.

(** The mutating methods of [Store]. *)
Inductive op : Type :=
  | OpInsertBlock (hash fid : bytes) (size : Z)
  | OpStoreLocalBlock (hash fid : bytes) (size : Z)
  | OpAddBlockLocation (hash : bytes) (location_id : string) (fid : bytes)
  | OpInsertObject (bucket key : string) (blocks : list bytes) (size : Z) (etag : string)
  | OpDeleteObject (bucket key : string)
  | OpAddPendingDeletion (hash : bytes) (not_before : SystemTime)
  | OpRemovePendingDeletion (hash : bytes)
  | OpDeleteLocalBlock (hash : bytes)
  | OpInsertMultipart (bucket : string) (upload_id : Uuid) (key : string)
  | OpDeleteMultipartUpload (bucket : string) (upload_id : Uuid)
  | OpInsertPart (bucket : string) (upload_id : Uuid) (n : Z) (blocks : list bytes) (size : Z) (etag : string)
  | OpDeleteParts (bucket : string) (upload_id : Uuid)
  | OpRegisterNode (api_url : string)
  | OpRecordPeer (location_id api_url : string)
  | OpEnqueueReplication (hash : bytes) (targets : list string)
  | OpDequeueReplication (hash : bytes)
  | OpDeferReplication (e : ReplicationEntry)
  | OpSetCursor (peer : string) (last_seq : Z)
  | OpCreateUser (access_key secret_key : string) (policy : Policy)
  | OpApplyFact (rec : FactRecord Value)
  | OpSetOffset (offset : Z).

(** A failed call leaves the store as it was; [insert_object] is called with the shard of
    its key everywhere. *)
Definition run_op (s : Store) (t : SystemTime) (o : op) : Store :=
  match o with
  | OpInsertBlock h fid size => insert_block s t h fid size
  | OpStoreLocalBlock h fid size => store_local_block s t h fid size
  | OpAddBlockLocation h loc fid => add_block_location s t h loc fid
  | OpInsertObject b k bl size etag => insert_object s t b (compute_shard_id k) k bl size etag
  | OpDeleteObject b k => delete_object s t b k
  | OpAddPendingDeletion h nb => match add_pending_deletion s h nb with Ok s' => s' | Err _ => s end
  | OpRemovePendingDeletion h => remove_pending_deletion s h
  | OpDeleteLocalBlock h => (delete_local_block s h).2
  | OpInsertMultipart b u k => insert_multipart s b u k
  | OpDeleteMultipartUpload b u => delete_multipart_upload s b u
  | OpInsertPart b u n bl size etag => insert_part s b u n bl size etag
  | OpDeleteParts b u => delete_parts s b u
  | OpRegisterNode url => register_node s t url
  | OpRecordPeer loc url => record_peer s t loc url
  | OpEnqueueReplication h ts => enqueue_replication s t h ts
  | OpDequeueReplication h => dequeue_replication s h
  | OpDeferReplication e => defer_replication s t e
  | OpSetCursor p n => set_cursor s p n
  | OpCreateUser a sk p => create_user s t a sk p
  | OpApplyFact rec => match apply_fact s t rec with Ok s' => s' | Err _ => s end
  | OpSetOffset off => with_clock s (set_offset (clock s) off)
  end.

(** The facts an operation logs, and the facts it takes into account. *)
Definition logs (s : Store) (t : SystemTime) (o : op) : list stamped :=
  match o with
  | OpStoreLocalBlock h fid size =>
      [(now_micros s t, BlockAnnounce (hex_encode h) (local_location_id s) (hex_encode fid) size)]
  | OpInsertObject b k bl size etag =>
      [(now_micros s t, ObjectPut b k (hex_encode <$> bl) size etag)]
  | OpDeleteObject b k => [(now_micros s t, ObjectDelete b k)]
  | OpCreateUser a sk p => [(now_micros s t, UserPut a sk (policy_to_value p))]
  | _ => []
  end.

Definition sees (s : Store) (t : SystemTime) (o : op) : list stamped :=
  match o with
  | OpApplyFact rec => [(ts rec, fact rec)]
  | _ => logs s t o
  end.

Inductive site : Store → list stamped → list stamped → Prop :=
  | site_open id c : site (empty_store id c) [] []
  | site_run s own seen t o :
      site s own seen → site (run_op s t o) (own ++ logs s t o) (seen ++ sees s t o).

(** ** The tables as registers over the facts seen *)

Definition object_write (x : stamped) : option ((string * string) * ObjectRow) :=
  match x.2 with
  | ObjectPut b k bl size etag =>
      (λ d, ((b, k), mkObject (encode_blocks d) size etag (compute_shard_id k) x.1 false)) <$>
        mapM hex_decode bl
  | ObjectDelete b k => Some ((b, k), mkObject [] 0 "" (compute_shard_id k) x.1 true)
  | _ => None
  end.

(** What [get_user] reads from a row. *)
Definition user_view (r : UserRow) : string * option Policy * Z :=
  (u_secret r, policy_from_str (u_policy r), u_ts r).

Definition user_write (x : stamped) : option (string * (string * option Policy * Z)) :=
  match x.2 with
  | UserPut a sk v => Some (a, (sk, policy_from_str (value_to_string v), x.1))
  | _ => None
  end.

Lemma mapM_hex_encode bl : mapM hex_decode (hex_encode <$> bl) = Some bl.
Proof.
  induction bl as [|b bl IH]; [done|]. rewrite fmap_cons. cbn [mapM].
  rewrite hex_decode_encode. cbn. rewrite IH. done.
Qed.

Lemma run_op_objects s t o :
  objects (run_op s t o) = lww_apply o_ts (objects s) (omap object_write (sees s t o)).
Proof.
  destruct o; try done; simpl.
  - unfold object_write. simpl. rewrite mapM_hex_encode. done.
  - unfold add_pending_deletion. by destruct (_ <? _).
  - unfold delete_local_block. simpl. by destruct (decide _).
  - unfold record_peer. by destruct (decide _).
  - unfold apply_fact, object_write. destruct rec as [n ts0 []]; simpl; try done.
    + destruct (mapM hex_decode blocks); done.
    + destruct (hex_decode hash), (hex_decode fid); try done.
      by destruct (bool_decide _ && _).
Qed.

Lemma run_op_users s t o :
  user_view <$> users (run_op s t o) =
    lww_apply snd (user_view <$> users s) (omap user_write (sees s t o)).
Proof.
  destruct o; try done; simpl.
  - unfold add_pending_deletion. by destruct (_ <? _).
  - unfold delete_local_block. simpl. by destruct (decide _).
  - unfold record_peer. by destruct (decide _).
  - rewrite (lww_upsert_fmap _ snd) by done. unfold user_view at 1. simpl.
    by rewrite policy_string_roundtrip, policy_value_roundtrip.
  - unfold apply_fact. destruct rec as [n ts0 []]; simpl; try done.
    + by destruct (mapM hex_decode blocks).
    + destruct (hex_decode hash), (hex_decode fid); try done.
      by destruct (bool_decide _ && _).
    + by rewrite (lww_upsert_fmap _ snd) by done.
Qed.

Lemma site_objects s own seen :
  site s own seen → objects s = lww_apply o_ts ∅ (omap object_write seen).
Proof.
  induction 1 as [|s own seen t o _ IH]; [done|].
  by rewrite run_op_objects, IH, omap_app, lww_apply_app.
Qed.

Lemma site_users s own seen :
  site s own seen → user_view <$> users s = lww_apply snd ∅ (omap user_write seen).
Proof.
  induction 1 as [|s own seen t o _ IH]; [done|].
  by rewrite run_op_users, IH, omap_app, lww_apply_app.
Qed.

(** ** The log itself *)

Fixpoint log_from (n : Z) (own : list stamped) : list FactRow :=
  match own with
  | [] => []
  | x :: r => mkFact n x.1 (kind_str x.2) (fact_to_string x.2) :: log_from (n + 1) r
  end.

Fixpoint records_from (n : Z) (own : list stamped) : list (FactRecord Value) :=
  match own with
  | [] => []
  | x :: r => mkRecord n x.1 x.2 :: records_from (n + 1) r
  end.

Lemma log_from_app n l1 l2 :
  log_from n (l1 ++ l2) = log_from n l1 ++ log_from (n + Z.of_nat (length l1)) l2.
Proof.
  revert n. induction l1 as [|x l1 IH]; intros n; simpl.
  - f_equal. lia.
  - rewrite IH. do 3 f_equal. lia.
Qed.

Lemma max_seq_log_from own : ∀ n, 1 ≤ n →
  max_seq (log_from n own) = if decide (own = []) then 0 else n + Z.of_nat (length own) - 1.
Proof.
  unfold max_seq. induction own as [|x own IH]; intros n Hn; [done|].
  simpl. rewrite IH by lia. destruct (decide (own = [])) as [->|]; simpl; lia.
Qed.

Lemma append_log_from own f ts0 s :
  fact_log s = log_from 1 own →
  fact_log (append_fact_tx ts0 f s) = log_from 1 (own ++ [(ts0, f)]).
Proof.
  intros Hlog. unfold append_fact_tx. simpl. rewrite Hlog, log_from_app. simpl.
  do 3 f_equal. rewrite max_seq_log_from by lia.
  destruct (decide (own = [])) as [->|]; simpl; lia.
Qed.

Lemma site_log s own seen :
  site s own seen → fact_log s = log_from 1 own ∧ Forall (λ x, own_fact x.2) own.
Proof.
  induction 1 as [|s own seen t o _ [IHl IHf]]; [done|].
  assert (Forall (λ x, own_fact x.2) (logs s t o)) as Hf.
  { destruct o; repeat constructor. simpl. eauto. }
  split; [|by apply Forall_app]. destruct o; cbn [run_op logs];
    unfold store_local_block, insert_object, delete_object, create_user;
    rewrite ?app_nil_r; try (apply append_log_from); try done.
  - unfold add_pending_deletion. by destruct (_ <? _).
  - unfold delete_local_block. simpl. by destruct (decide _).
  - unfold record_peer. by destruct (decide _).
  - unfold apply_fact. destruct rec as [n ts0 []]; simpl; try done.
    + by destruct (mapM hex_decode blocks).
    + destruct (hex_decode hash), (hex_decode fid); try done.
      by destruct (bool_decide _ && _).
Qed.

Lemma site_own_seen s own seen x : site s own seen → x ∈ own → x ∈ seen.
Proof.
  induction 1 as [|s own seen t o _ IH]; [done|].
  rewrite !elem_of_app. intros [?|Hx]; [by left; apply IH|right].
  by destruct o; simpl in *; try (by apply elem_of_nil in Hx).
Qed.

Lemma log_from_seqs n own r : r ∈ log_from n own → n ≤ f_seq r.
Proof.
  revert n. induction own as [|x own IH]; intros n; simpl; [by intros ?%elem_of_nil|].
  intros [->|Hr]%elem_of_cons; simpl; [lia|]. specialize (IH _ Hr). lia.
Qed.

Lemma log_from_sorted n own : sort_by seq_le (log_from n own) = log_from n own.
Proof.
  revert n. induction own as [|x own IH]; intros n; simpl; [done|].
  rewrite IH. destruct (log_from (n + 1) own) as [|r l] eqn:E; simpl; [done|].
  rewrite decide_True; [done|]. unfold seq_le. simpl.
  assert (r ∈ log_from (n + 1) own) as Hr by (rewrite E; left).
  pose proof (log_from_seqs _ _ _ Hr). lia.
Qed.

Lemma filter_log_from after own : ∀ n, n ≤ after + 1 →
  filter (λ r, after < f_seq r) (log_from n own) =
    log_from (after + 1) (drop (Z.to_nat (after + 1 - n)) own).
Proof.
  induction own as [|x own IH]; intros n Hn; simpl; [by rewrite drop_nil|].
  destruct (decide (n = after + 1)) as [->|Hne].
  - rewrite Z.sub_diag. simpl. rewrite filter_cons_True by (simpl; lia). f_equal.
    assert (∀ m l, after < m → filter (λ r, after < f_seq r) (log_from m l) = log_from m l) as Hall.
    { clear. intros m l. revert m. induction l as [|y l IH]; intros m Hm; simpl; [done|].
      rewrite filter_cons_True by (simpl; lia). f_equal. apply IH. lia. }
    apply Hall. lia.
  - rewrite filter_cons_False by (simpl; lia). rewrite IH by lia.
    replace (Z.to_nat (after + 1 - n)) with (S (Z.to_nat (after + 1 - (n + 1)))) by lia. done.
Qed.

Lemma take_log_from k own : ∀ n, take k (log_from n own) = log_from n (take k own).
Proof.
  revert own. induction k as [|k IH]; intros [|x own] n; simpl; try done. by rewrite IH.
Qed.

Lemma read_log_from own : ∀ n,
  Forall (λ x, own_fact x.2) own → read_records (log_from n own) = Ok (records_from n own).
Proof.
  induction own as [|x own IH]; intros n Hf; simpl; [done|].
  apply Forall_cons in Hf as [Hx Hf]. rewrite fact_roundtrip by exact Hx. by rewrite IH.
Qed.

Lemma site_facts_since s own seen after limit :
  site s own seen → 0 ≤ after → 0 ≤ limit →
  facts_since s after limit =
    Ok (records_from (after + 1) (take (Z.to_nat limit) (drop (Z.to_nat after) own))).
Proof.
  intros [Hl Hf]%site_log Ha Hlim. unfold facts_since, sql_limit.
  rewrite (proj2 (Z.ltb_ge _ _)) by lia.
  rewrite Hl, filter_log_from by lia. rewrite log_from_sorted, take_log_from.
  replace (after + 1 - 1) with after by lia.
  apply read_log_from. by apply Forall_take, Forall_drop.
Qed.

(** ** Registers *)

(** The register a fact writes; block announcements write none. *)
Definition register (f : Fact Value) : option (string * string + string) :=
  match f with
  | ObjectPut b k _ _ _ | ObjectDelete b k => Some (inl (b, k))
  | UserPut a _ _ => Some (inr a)
  | BlockAnnounce _ _ _ _ => None
  end.

(** No two different facts write one register at the same microsecond. *)
Definition conflict_free (seen : list stamped) : Prop :=
  ∀ x y, x ∈ seen → y ∈ seen → x.1 = y.1 → register x.2 = register y.2 →
         is_Some (register x.2) → x = y.

Lemma candidate_omap {K V} `{Countable K} (w : stamped → option (K * V)) seen k v :
  candidate ∅ (omap w seen) k v ↔ ∃ x, x ∈ seen ∧ w x = Some (k, v).
Proof.
  unfold candidate. rewrite lookup_empty, list_elem_of_omap. split; [|by right].
  by intros [?|?].
Qed.

Lemma object_write_Some x k v :
  object_write x = Some (k, v) → register x.2 = Some (inl k) ∧ o_ts v = x.1.
Proof.
  unfold object_write. destruct x as [ts0 []]; simpl; try done.
  - destruct (mapM hex_decode blocks); [|done]. simpl. by intros [= <- <-].
  - by intros [= <- <-].
Qed.

Lemma user_write_Some x k v :
  user_write x = Some (k, v) → register x.2 = Some (inr k) ∧ v.2 = x.1.
Proof. unfold user_write. destruct x as [ts0 []]; simpl; try done. by intros [= <- <-]. Qed.

Lemma conflict_free_objects seen :
  conflict_free seen → lww_tie_free o_ts ∅ (omap object_write seen).
Proof.
  intros Hc k v w (x & Hx & Hv)%candidate_omap (y & Hy & Hw)%candidate_omap Hts.
  destruct (object_write_Some _ _ _ Hv), (object_write_Some _ _ _ Hw).
  assert (x = y) as ->; [|congruence]. apply Hc; [done..|congruence|congruence|naive_solver].
Qed.

Lemma conflict_free_users seen :
  conflict_free seen → lww_tie_free snd ∅ (omap user_write seen).
Proof.
  intros Hc k v w (x & Hx & Hv)%candidate_omap (y & Hy & Hw)%candidate_omap Hts.
  destruct (user_write_Some _ _ _ Hv), (user_write_Some _ _ _ Hw).
  assert (x = y) as ->; [|congruence]. apply Hc; [done..|congruence|congruence|naive_solver].
Qed.

Lemma omap_agree {K V} `{Countable K} (w : stamped → option (K * V)) seen1 seen2 k v :
  (∀ x, x ∈ seen1 ↔ x ∈ seen2) →
  candidate ∅ (omap w seen1) k v ↔ candidate ∅ (omap w seen2) k v.
Proof. intros Hs. rewrite !candidate_omap. by setoid_rewrite Hs. Qed.

(** [get_user] reads the view only. *)
Definition view_user (v : string * option Policy * Z) : result error (option (string * Policy)) :=
  match v.1.2 with Some p => Ok (Some (v.1.1, p)) | None => Err InvalidJson end.

Lemma get_user_view s a :
  get_user s a = match (user_view <$> users s) !! a with Some v => view_user v | None => Ok None end.
Proof. unfold get_user. rewrite lookup_fmap. by destruct (users s !! a). Qed.

Lemma sites_agree s1 s2 own1 own2 seen1 seen2 :
  site s1 own1 seen1 → site s2 own2 seen2 →
  (∀ x, x ∈ seen1 ↔ x ∈ seen2) → conflict_free seen1 →
  objects s1 = objects s2 ∧
  (∀ bucket key, get_object s1 bucket key = get_object s2 bucket key) ∧
  (∀ bucket after prefix n, list_objects s1 bucket after prefix n = list_objects s2 bucket after prefix n) ∧
  (∀ access_key, get_user s1 access_key = get_user s2 access_key).
Proof.
  intros Hs1 Hs2 Hs Hc.
  assert (objects s1 = objects s2) as Ho.
  { rewrite (site_objects _ _ _ Hs1), (site_objects _ _ _ Hs2).
    apply lww_apply_agree; [by apply conflict_free_objects|]. intros. by apply omap_agree. }
  split_and!; [done| | |].
  - intros. unfold get_object. by rewrite Ho.
  - intros. unfold list_objects, select_objects, live_rows. by rewrite Ho.
  - intros a. rewrite !get_user_view, (site_users _ _ _ Hs1), (site_users _ _ _ Hs2).
    erewrite lww_apply_agree; [done|by apply conflict_free_users|]. intros. by apply omap_agree.
Qed.

(** C5: convergence.  Two sites that have logged or applied the same set of facts, in any
    order, any number of times and interleaved with any other operation, hold the same
    object table and answer every object read, listing and user lookup alike, as long as no
    two different facts wrote the same register at the same timestamp. *)
Theorem replicas_converge s1 s2 own1 own2 seen1 seen2 :
  site s1 own1 seen1 → site s2 own2 seen2 →
  (∀ x, x ∈ seen1 ↔ x ∈ seen2) → conflict_free seen1 →
  objects s1 = objects s2 ∧
  (∀ bucket key, get_object s1 bucket key = get_object s2 bucket key) ∧
  (∀ bucket after prefix n, list_objects s1 bucket after prefix n = list_objects s2 bucket after prefix n) ∧
  (∀ access_key, get_user s1 access_key = get_user s2 access_key).
Proof. apply sites_agree. Qed.

(** C11: what an object read returns.  The manifest [get_object] returns was put by a fact
    the site has seen whose timestamp no other write of the key exceeds; [None] means
    that no write of the key was seen, or that a delete with the greatest timestamp was. *)
Theorem get_object_winner s own seen bucket key :
  site s own seen →
  match get_object s bucket key with
  | Some (bl, size, etag) =>
      ∃ ts0 hs d, (ts0, ObjectPut bucket key hs size etag) ∈ seen ∧ mapM hex_decode hs = Some d ∧
        bl = decode_blocks (encode_blocks d) ∧
        ∀ x v, x ∈ seen → object_write x = Some ((bucket, key), v) → x.1 ≤ ts0
  | None =>
      (∀ x v, x ∈ seen → object_write x ≠ Some ((bucket, key), v)) ∨
      ∃ ts0, (ts0, ObjectDelete bucket key) ∈ seen ∧
        ∀ x v, x ∈ seen → object_write x = Some ((bucket, key), v) → x.1 ≤ ts0
  end.
Proof.
  intros Hsite. pose proof (lww_apply_spec o_ts ∅ (omap object_write seen) (bucket, key)) as Hw.
  unfold get_object. rewrite (site_objects _ _ _ Hsite).
  destruct (lww_apply _ _ _ !! _) as [r|].
  - destruct Hw as [(x & Hx & Hr)%candidate_omap Hmax].
    destruct (object_write_Some _ _ _ Hr) as [_ Hts].
    assert (∀ y v, y ∈ seen → object_write y = Some ((bucket, key), v) → y.1 ≤ x.1) as Hm.
    { intros y v Hy Hv. rewrite <- Hts. destruct (object_write_Some _ _ _ Hv) as [_ <-].
      apply Hmax, candidate_omap. eauto. }
    clear Hts. destruct x as [ts0 []]; unfold object_write in Hr; simpl in Hr; try done.
    + destruct (mapM hex_decode blocks) as [d|] eqn:Ed; [|done]. simplify_eq/=. do 3 eexists. by split_and!.
    + simplify_eq/=. right. eexists. by split.
  - left. intros x v Hx Hv. apply (Hw v), candidate_omap. eauto.
Qed.

(** C23: a tombstone is final against older writes.  Once a site has seen the delete of a
    key, no put stamped earlier than the delete brings the key back, whenever it arrives. *)
Theorem delete_not_resurrected s own seen bucket key ts0 :
  site s own seen → (ts0, ObjectDelete bucket key) ∈ seen →
  (∀ ts1 hs size etag, (ts1, ObjectPut bucket key hs size etag) ∈ seen → ts1 < ts0) →
  get_object s bucket key = None.
Proof.
  intros Hsite Hd Hp.
  pose proof (lww_apply_spec o_ts ∅ (omap object_write seen) (bucket, key)) as Hw.
  unfold get_object. rewrite (site_objects _ _ _ Hsite).
  destruct (lww_apply _ _ _ !! _) as [r|]; [|done].
  destruct Hw as [(x & Hx & Hr)%candidate_omap Hmax].
  assert (ts0 ≤ o_ts r) as Hle.
  { apply (Hmax (mkObject [] 0 "" (compute_shard_id key) ts0 true)), candidate_omap. eauto. }
  destruct x as [ts1 []]; unfold object_write in Hr; simpl in Hr; try done.
  - destruct (mapM hex_decode blocks) as [d|]; [|done]. simplify_eq/=.
    specialize (Hp _ _ _ _ Hx). lia.
  - by simplify_eq/=.
Qed.

(** The log.  The rows of a site's own log carry the sequence numbers 1, 2, 3, .. in the
    order the facts were logged, and [facts_since] serves, for any cursor and limit, the
    next facts after the cursor in that order. *)
Theorem facts_since_page s own seen after limit :
  site s own seen → 0 ≤ after → 0 ≤ limit →
  facts_since s after limit =
    Ok (records_from (after + 1) (take (Z.to_nat limit) (drop (Z.to_nat after) own))).
Proof. apply site_facts_since. Qed.

(** Equal timestamps are not resolved.  Two puts of one key with the same timestamp and
    different content leave two fresh sites with different objects when the sites apply
    them in different orders. *)
Theorem lww_tie_diverges id c t bucket key ts0 :
  let p1 := mkRecord 1 ts0 (ObjectPut bucket key [] 1 "a") in
  let p2 := mkRecord 2 ts0 (ObjectPut bucket key [] 2 "b") in
  let apply rs := foldl (λ s r, run_op s t (OpApplyFact r)) (empty_store id c) rs in
  get_object (apply [p1; p2]) bucket key = Some ([], 1, "a") ∧
  get_object (apply [p2; p1]) bucket key = Some ([], 2, "b").
Proof.
  cbn. unfold get_object, put_object_row, lww_upsert. simpl.
  rewrite !lookup_empty. simpl. rewrite !lookup_insert_eq. simpl.
  rewrite !Z.ltb_irrefl, !lookup_insert_eq. done.
Qed.

(** The backoff schedule of the pull queue: one minute doubled per failed attempt, at
    most six hours, for every number of attempts. *)
Theorem replication_backoff_closed_form attempts :
  replication_backoff_ms attempts =
    Z.min (REPLICATION_BACKOFF_BASE_MS * 2 ^ Z.max 0 attempts) REPLICATION_BACKOFF_CAP_MS.
Proof.
  unfold replication_backoff_ms, REPLICATION_BACKOFF_CAP_MS, REPLICATION_BACKOFF_BASE_MS.
  destruct (Z.leb_spec attempts 0) as [Hle|Hlt].
  { by rewrite Z.max_l by lia. }
  rewrite Z.max_r by lia. unfold checked_shl.
  destruct (Z.ltb_spec (Z.min attempts 40) 64); [|lia]. cbn [default]. unfold id.
  rewrite Z.shiftl_mul_pow2 by lia.
  assert (∀ n, 0 ≤ n ≤ 40 → 0 ≤ 2 ^ n ≤ 2 ^ 40) as Hpow.
  { intros n Hn. split; [by apply Z.pow_nonneg|]. apply Z.pow_le_mono_r; lia. }
  rewrite wrap_i64_small.
  2: { unfold in_i64. specialize (Hpow (Z.min attempts 40) ltac:(lia)). lia. }
  destruct (Z.le_gt_cases attempts 40) as [Ha|Ha]; [by rewrite (Z.min_l attempts) by lia|].
  rewrite (Z.min_r attempts) by lia.
  assert (2 ^ 40 ≤ 2 ^ attempts) as Hbig by (apply Z.pow_le_mono_r; lia).
  change (2 ^ 40) with 1099511627776 in *. clear Hpow. generalize dependent (2 ^ attempts). lia.
Qed.
End factlog.

(** ** Concrete runs *)

Module FactLogRuns.
#[local] Existing Instances Reference.blake3_pad Reference.hex_lower Reference.uuid_text.
#[local] Existing Instances JsonReference.json_tokens order_id.

(** Site [a] puts a key and deletes it; site [b] applies the two facts in the other order. *)
Definition put_a : op := OpInsertObject "bk" "k" [] 3 "e".
Definition delete_a : op := OpDeleteObject "bk" "k".
Definition put_fact : FactRecord Value := mkRecord 1 5000 (ObjectPut "bk" "k" [] 3 "e").
Definition delete_fact : FactRecord Value := mkRecord 2 6000 (ObjectDelete "bk" "k").

Definition run_a (s : Store) : Store := run_op (run_op s 5000000 put_a) 6000000 delete_a.
Definition run_b (s : Store) : Store :=
  run_op (run_op s 9000000 (OpApplyFact delete_fact)) 9000000 (OpApplyFact put_fact).

Lemma site_a : site (run_a (empty_store "a" (Clock.new 0)))
  [(5000, fact put_fact); (6000, fact delete_fact)] [(5000, fact put_fact); (6000, fact delete_fact)].
Proof. exact (site_run _ _ _ 6000000 delete_a (site_run _ _ _ 5000000 put_a (site_open _ _))). Qed.

Lemma site_b : site (run_b (empty_store "b" (Clock.new 7)))
  [] [(6000, fact delete_fact); (5000, fact put_fact)].
Proof. exact (site_run _ _ _ 9000000 (OpApplyFact put_fact)
    (site_run _ _ _ 9000000 (OpApplyFact delete_fact) (site_open _ _))). Qed.

Lemma replicas_converge_witness :
  objects (run_a (empty_store "a" (Clock.new 0))) = objects (run_b (empty_store "b" (Clock.new 7))).
Proof.
  refine (proj1 (replicas_converge _ _ _ _ _ _ site_a site_b _ _)).
  - intros x. rewrite !elem_of_cons. tauto.
  - intros x y. rewrite !elem_of_cons, !elem_of_nil.
    intros [->|[->|[]]] [->|[->|[]]]; simpl; first [done|lia].
Defined.

Lemma get_object_winner_witness :
  ∃ ts0, (ts0, ObjectDelete "bk" "k") ∈ [(5000, fact put_fact); (6000, fact delete_fact)].
Proof.
  pose proof (get_object_winner _ _ _ "bk" "k" site_a) as Hw.
  change (get_object (run_a (empty_store "a" (Clock.new 0))) "bk" "k") with
    (@None (list bytes * Z * string)) in Hw.
  destruct Hw as [Hno|(ts0 & Hin & _)]; [|by exists ts0].
  exfalso. refine (Hno (6000, fact delete_fact) _ _ eq_refl). set_solver.
Defined.

Lemma delete_not_resurrected_witness :
  get_object (run_b (empty_store "b" (Clock.new 7))) "bk" "k" = None.
Proof.
  apply (delete_not_resurrected _ _ _ "bk" "k" 6000 site_b); [by left|].
  intros ts1 hs size etag. rewrite !elem_of_cons, elem_of_nil.
  intros [?|[?|[]]]; simplify_eq/=. lia.
Defined.

Lemma facts_since_page_witness :
  facts_since (run_a (empty_store "a" (Clock.new 0))) 1 500 = Ok [mkRecord 2 6000 (ObjectDelete "bk" "k")].
Proof. refine (facts_since_page _ _ _ 1 500 site_a _ _); lia. Defined.

End FactLogRuns.
