(* ===== verification/Typed.v ===== *)
(** * Well-formed stores (src/store.rs)

    The schema's columns carry more structure than their SQL types: shard ids, tombstones,
    the rows of [blocks] and [block_locations], which are kept in step without a foreign
    key, the retry counters and the numbering of the log.  Every method keeps it. *)

From S2P Require Import Prelude Crates Clock Hashing Listing Policy Tables Store FactLog.

Section typed.
Context `{!Blake3, !Hex, !UuidCodec, !Json, !IterOrder}.

(** A row of [objects]: its shard is that of its key, and a tombstone holds nothing. *)
Definition object_typed (key : string) (r : ObjectRow) : Prop :=
  o_shard r = compute_shard_id key ∧
  (o_deleted r = true → o_blocks r = [] ∧ o_size r = 0 ∧ o_etag r = "").

(** A block has a size row exactly when it has a location. *)
Definition blocks_typed (s : Store) : Prop :=
  ∀ h, is_Some (blocks s !! h) ↔ ∃ loc, is_Some (block_locations s !! (h, loc)).

Record typed (s : Store) : Prop := {
  ty_objects bucket key r : objects s !! (bucket, key) = Some r → object_typed key r;
  ty_blocks : blocks_typed s;
  ty_queue k r : replication_queue s !! k = Some r → 0 ≤ q_attempts r;
  ty_log i r : fact_log s !! i = Some r → f_seq r = Z.of_nat i + 1;
}.

(** ** Objects *)

Lemma upsert_objects_typed (m : gmap (string * string) ObjectRow) b k row :
  (∀ bucket key r, m !! (bucket, key) = Some r → object_typed key r) → object_typed k row →
  ∀ bucket key r, lww_upsert o_ts (b, k) row m !! (bucket, key) = Some r → object_typed key r.
Proof.
  intros Hm Hrow bucket key r. destruct (decide ((b, k) = (bucket, key))) as [[= -> ->]|Hne].
  - rewrite lww_upsert_lookup. unfold lww_join. destruct (m !! (bucket, key)) as [old|] eqn:Ho.
    + destruct (_ <? _); intros [= <-]; [done|by eapply Hm].
    + by intros [= <-].
  - rewrite lww_upsert_lookup_ne by done. apply Hm.
Qed.

Lemma put_typed k encoded size etag ts0 :
  object_typed k (mkObject encoded size etag (compute_shard_id k) ts0 false).
Proof. by split. Qed.
Lemma tombstone_typed k ts0 : object_typed k (mkObject [] 0 "" (compute_shard_id k) ts0 true).
Proof. by split. Qed.
#[local] Hint Resolve upsert_objects_typed put_typed tombstone_typed : shard.

(** ** Blocks and locations *)

Lemma upsert_blocks_typed s h loc fid size ts0 :
  blocks_typed s → blocks_typed (upsert_block_location h loc fid size ts0 s).
Proof.
  intros Hs h'. simpl. rewrite lww_upsert_is_Some, (Hs h'). setoid_rewrite lww_upsert_is_Some. split.
  - intros [->|[l Hl]]; [exists loc; by left|exists l; by right].
  - intros [l [[= -> ->]|Hl]]; [by left|right; eauto].
Qed.

Lemma elem_of_locations s h loc : loc ∈ locations_of s h ↔ is_Some (block_locations s !! (h, loc)).
Proof.
  unfold locations_of. rewrite list_elem_of_omap. split.
  - intros ([[h' l] r] & Hin & Hx). destruct (decide (h' = h)) as [->|]; [|done]. simplify_eq.
    apply elem_of_map_to_list in Hin. eauto.
  - intros [r Hr]. exists ((h, loc), r). split; [by apply elem_of_map_to_list|]. by rewrite decide_True.
Qed.

Lemma delete_blocks_typed s h : blocks_typed s → blocks_typed (delete_local_block s h).2.
Proof.
  intros Hs h'. unfold delete_local_block. cbn [snd]. set (s1 := with_locations s _).
  assert (∀ h' loc, block_locations s1 !! (h', loc) =
    if decide ((h, local_location_id s) = (h', loc)) then None else block_locations s !! (h', loc)) as Hl1.
  { intros h1 loc. simpl. destruct (decide _) as [<-|Hne]; [by rewrite lookup_delete_eq|by rewrite lookup_delete_ne]. }
  destruct (decide (h' = h)) as [->|Hne].
  - destruct (decide (locations_of s1 h = [])) as [Hn|Hn].
    + cbn [with_blocks blocks block_locations]. rewrite lookup_delete_eq.
      split; [by intros [? ?]|]. intros [loc Hr%elem_of_locations]. rewrite Hn in Hr. by apply elem_of_nil in Hr.
    + cbn [with_locations blocks]. change (blocks s1) with (blocks s). rewrite (Hs h). split.
      * intros _. destruct (locations_of s1 h) as [|loc ls] eqn:E; [done|]. exists loc.
        apply elem_of_locations. rewrite E. by left.
      * intros [loc [r Hr]]. exists loc. rewrite Hl1 in Hr. destruct (decide _); [done|]. eauto.
  - assert (blocks (if decide (locations_of s1 h = []) then with_blocks s1 (delete h (blocks s1)) else s1) !! h' = blocks s !! h') as ->.
    { destruct (decide _); [|done]. cbn [with_blocks blocks]. by rewrite lookup_delete_ne. }
    rewrite (Hs h'). assert (∀ loc, block_locations (if decide (locations_of s1 h = []) then with_blocks s1 (delete h (blocks s1)) else s1) !! (h', loc) = block_locations s !! (h', loc)) as Heq.
    { intros loc. transitivity (block_locations s1 !! (h', loc)); [by destruct (decide _)|].
      rewrite Hl1. rewrite decide_False; [done|]. congruence. }
    by setoid_rewrite Heq.
Qed.

(** ** The queue *)

Lemma enqueue_typed now h targets : ∀ q : gmap (string * bytes) QueueRow,
  (∀ k r, q !! k = Some r → 0 ≤ q_attempts r) →
  ∀ k r, foldl (enqueue_one now h) q targets !! k = Some r → 0 ≤ q_attempts r.
Proof.
  induction targets as [|t0 targets IH]; intros q Hq; [done|]. apply IH. intros k r. unfold enqueue_one.
  destruct (q !! (t0, h)); [apply Hq|]. intros [[<- <-]|[_ Hr]]%lookup_insert_Some; [simpl; lia|by eapply Hq].
Qed.

Lemma defer_typed s t e :
  (∀ k r, replication_queue s !! k = Some r → 0 ≤ q_attempts r) →
  ∀ k r, replication_queue (defer_replication s t e) !! k = Some r → 0 ≤ q_attempts r.
Proof.
  intros Hq k r. simpl. rewrite lookup_alter_Some. intros [(_ & r0 & Hr0 & ->)|[_ Hr]]; [|by eapply Hq].
  simpl. specialize (Hq _ _ Hr0). lia.
Qed.

(** ** Every method *)

(** The methods other than those of the log, which [site_log] covers. *)
Lemma run_op_typed s t o :
  typed s → (∀ i r, fact_log (run_op s t o) !! i = Some r → f_seq r = Z.of_nat i + 1) → typed (run_op s t o).
Proof.
  intros [Ho Hb Hq _] Hl. destruct o; cbn [run_op] in *; try (split; [exact Ho|exact Hb|exact Hq|exact Hl]).
  - split; [exact Ho|by apply upsert_blocks_typed|exact Hq|exact Hl].
  - split; [exact Ho|by apply upsert_blocks_typed|exact Hq|exact Hl].
  - split; [exact Ho|by apply upsert_blocks_typed|exact Hq|exact Hl].
  - split; [|exact Hb|exact Hq|exact Hl]. intros ???. simpl. eauto with shard.
  - split; [|exact Hb|exact Hq|exact Hl]. intros ???. simpl. eauto with shard.
  - unfold add_pending_deletion in *. by destruct (_ <? _).
  - split; [|by apply delete_blocks_typed| |exact Hl]; unfold delete_local_block; simpl; by destruct (decide _).
  - unfold record_peer in *. by destruct (decide _).
  - split; [exact Ho|exact Hb|by apply enqueue_typed|exact Hl].
  - split; [exact Ho|exact Hb| |exact Hl]. intros k r. simpl. rewrite lookup_delete_Some. intros [_ ?]. by eapply Hq.
  - split; [exact Ho|exact Hb|by apply defer_typed|exact Hl].
  - unfold apply_fact in *. destruct rec as [n ts0 []]; simpl in *.
    + destruct (mapM hex_decode _); [|by split]. split; [|exact Hb|exact Hq|exact Hl].
      intros ???. simpl. eauto with shard.
    + split; [|exact Hb|exact Hq|exact Hl]. intros ???. simpl. eauto with shard.
    + destruct (hex_decode hash), (hex_decode fid); try by split.
      assert (blocks_typed (upsert_block_location l location_id l0 size ts0 s)) as Hb' by by apply upsert_blocks_typed.
      destruct (_ && _); (split; [exact Ho|exact Hb'| |exact Hl]); [by apply enqueue_typed|exact Hq].
    + by split.
Qed.

Lemma log_from_lookup own : ∀ n i r, log_from n own !! i = Some r → f_seq r = n + Z.of_nat i.
Proof.
  induction own as [|x own IH]; intros n i r; [done|]. destruct i as [|i]; simpl.
  - intros [= <-]. simpl. lia.
  - intros Hr%IH. lia.
Qed.

Lemma site_is_typed s own seen : site s own seen → typed s.
Proof.
  intros Hs. assert (∀ s own seen, site s own seen → ∀ i r, fact_log s !! i = Some r → f_seq r = Z.of_nat i + 1) as Hlog.
  { intros s0 own0 seen0 [Hl _]%site_log i r Hr. rewrite Hl in Hr. apply log_from_lookup in Hr. lia. }
  induction Hs as [id c|s own seen t o Hs IH].
  - split; try done. intros h. simpl. split; [by intros [? ?]|]. by intros [? [? ?]].
  - apply run_op_typed; [exact IH|]. by apply (Hlog _ _ _ (site_run _ _ _ t o Hs)).
Qed.

(** C19: stores are well formed.  In every store reached by any sequence of methods, at any
    clock readings and with any facts applied: an object's shard is that of its key and lies
    in the shard range, a tombstone names no blocks, a block has a size row exactly when it
    has a location, retry counters are not negative, and the log is numbered 1, 2, 3 and so on. *)
Theorem store_well_formed s own seen :
  site s own seen →
  (∀ bucket key r, objects s !! (bucket, key) = Some r →
     o_shard r = compute_shard_id key ∧ 0 ≤ o_shard r < NUM_SHARDS ∧
     (o_deleted r = true → o_blocks r = [] ∧ o_size r = 0 ∧ o_etag r = "")) ∧
  (∀ h, is_Some (blocks s !! h) ↔ ∃ loc, is_Some (block_locations s !! (h, loc))) ∧
  (∀ k r, replication_queue s !! k = Some r → 0 ≤ q_attempts r) ∧
  (∀ i r, fact_log s !! i = Some r → f_seq r = Z.of_nat i + 1).
Proof.
  intros Hs%site_is_typed. split_and!; [|by apply Hs..]. intros b k r Hr.
  destruct (ty_objects _ Hs _ _ _ Hr) as [Hsh Ht]. rewrite Hsh. split_and!; [done|apply compute_shard_id_range..|done].
Qed.
End typed.

Lemma store_well_formed_witness :
  (∀ k r, replication_queue (FactLogRuns.run_a (empty_store "a" (Clock.new 0))) !! k = Some r → 0 ≤ q_attempts r) ∧
  (∀ i r, fact_log (FactLogRuns.run_a (empty_store "a" (Clock.new 0))) !! i = Some r → f_seq r = Z.of_nat i + 1).
Proof. exact (proj2 (proj2 (store_well_formed _ _ _ FactLogRuns.site_a))). Defined.
