(* ===== verification/Objects.v ===== *)
(** * Manifests and listings (src/store.rs [list_objects], src/storage.rs [list_page])

    [select_objects] is the whole ordered selection behind a listing; a page is a prefix of
    it and the next page, asked for with the last key as cursor, is the rest.  The file also
    shows that a manifest survives its storage as concatenated hashes. *)

From S2P Require Import Prelude Crates Clock Hashing Listing Policy Tables Store.

(** ** One page of a bucket listing *)

Definition SCAN_CAP : nat := Z.to_nat 100000.
Definition SCAN_PAGE : nat := Z.to_nat 1000.

(** The scan of the delimiter case; [None] is a loop that has not finished within the
    fuel. *)
Fixpoint gather (fuel : nat) (s : Store) (bucket : string) (cursor prefix : option string)
    (gathered : list obj) : option (result panic (list obj)) :=
  match fuel with
  | O => None
  | S f =>
      match list_objects s bucket cursor prefix SCAN_PAGE with
      | Err e => Some (Err e)
      | Ok (page, more) =>
          let lastk := obj_key <$> last page in
          let gathered := gathered ++ page in
          match lastk with
          | Some k =>
              if more && bool_decide (length gathered < SCAN_CAP)%nat
              then gather f s bucket (Some k) prefix gathered
              else Some (Ok gathered)
          | None => Some (Ok gathered)
          end
      end
  end.

(** At most a hundred full pages and one more. *)
Definition GATHER_FUEL : nat := 101.

Definition page : Type := list obj * list string * bool * option string.

Definition list_page (s : Store) (bucket : string) (start_after prefix delimiter : option string)
    (max_keys : nat) : option (result panic page) :=
  match delimiter with
  | None =>
      match list_objects s bucket start_after prefix max_keys with
      | Err e => Some (Err e)
      | Ok (objects, is_truncated) =>
          let next_token := if is_truncated then obj_key <$> last objects else None in
          Some (Ok (objects, [], is_truncated, next_token))
      end
  | Some delim =>
      match gather GATHER_FUEL s bucket start_after prefix [] with
      | None => None
      | Some (Err e) => Some (Err e)
      | Some (Ok gathered) =>
          let '(contents, common) := group_by_delimiter gathered (default "" prefix) delim in
          Some (Ok (merge_and_truncate contents common max_keys))
      end
  end.

(** ** Manifests *)

Lemma chunks_exact_concat (n : nat) (ls : list bytes) (fuel : nat) :
  (0 < n)%nat → Forall (λ b, length b = n) ls → (length (concat ls) < fuel)%nat →
  chunks_exact fuel n (concat ls) = ls.
Proof.
  intros Hn. revert fuel. induction ls as [|b ls IH]; intros [|f] Hf Hl; simpl in *; try lia.
  - rewrite decide_False by lia. done.
  - apply Forall_cons in Hf as [Hb Hf]. rewrite length_app in *.
    rewrite decide_True by lia. rewrite take_app_length' by done. rewrite drop_app_length' by done.
    f_equal. apply IH; [done|lia].
Qed.

Lemma decode_encode_blocks bs :
  Forall (λ b, length b = 32%nat) bs → decode_blocks (encode_blocks bs) = bs.
Proof. intros. apply chunks_exact_concat; [lia|done|]. unfold encode_blocks. lia. Qed.

(** ** The selection *)

Section listing.
Implicit Types (s : Store) (bucket : string) (o : obj).

#[global] Instance obj_le_trans : Transitive obj_le.
Proof. intros a b c. unfold obj_le. intros. by etrans. Qed.
#[global] Instance obj_le_total : Total obj_le.
Proof. intros a b. unfold obj_le. apply (total str_le). Qed.

(** An object of the bucket a listing may show. *)
Definition live_object s bucket o : Prop :=
  ∃ r, objects s !! (bucket, obj_key o) = Some r ∧ o_deleted r = false ∧
       o = (obj_key o, o_size r, o_etag r).

Lemma elem_of_select s bucket after lower upper o :
  o ∈ select_objects s bucket after lower upper ↔
    live_object s bucket o ∧ in_page after lower upper (obj_key o) = true.
Proof.
  unfold select_objects, live_rows, live_object. rewrite elem_of_sort_by, list_elem_of_fmap.
  split.
  - intros ([[b k] r] & -> & ([Hb Hin] & (Hd & Hm)%list_elem_of_filter)%list_elem_of_filter).
    apply elem_of_map_to_list in Hm. simpl in *. subst b. unfold obj_key. simpl. eauto.
  - intros [(r & Hr & Hd & Ho) Hin]. exists ((bucket, obj_key o), r). split; [done|].
    apply list_elem_of_filter. split; [done|]. apply list_elem_of_filter. split; [done|].
    by apply elem_of_map_to_list.
Qed.

Lemma NoDup_keys (l : list (string * string * ObjectRow)) bucket :
  NoDup l.*1 → (∀ r, r ∈ l → r.1.1 = bucket) → NoDup ((λ r, r.1.2) <$> l).
Proof.
  induction l as [|[[b k] r] l IH]; simpl; intros Hnd Hb; [constructor|].
  apply NoDup_cons in Hnd as [Hni Hnd]. apply NoDup_cons. split.
  - intros ([[b' k'] r'] & Hk & Hin)%list_elem_of_fmap. simpl in Hk. subst k'.
    apply Hni, list_elem_of_fmap. exists ((b', k), r'). split; [|done]. simpl.
    assert (b = bucket) as -> by (apply (Hb ((b, k), r)); by left).
    assert (b' = bucket) as -> by (apply (Hb ((b', k), r')); by right). done.
  - apply IH; [done|]. intros. apply Hb. by right.
Qed.

Lemma NoDup_filter_fst {A B} (P : A * B → Prop) `{∀ x, Decision (P x)} (l : list (A * B)) :
  NoDup l.*1 → NoDup (filter P l).*1.
Proof.
  induction l as [|x l IH]; [done|]. cbn [fmap list_fmap]. intros [Hni Hnd]%NoDup_cons.
  rewrite filter_cons. destruct (decide (P x)); [|auto]. cbn [fmap list_fmap].
  apply NoDup_cons. split; [|auto]. intros (y & Hy & [_ Hin]%list_elem_of_filter)%list_elem_of_fmap.
  apply Hni, list_elem_of_fmap. eauto.
Qed.

Lemma select_keys_NoDup s bucket after lower upper :
  NoDup (obj_key <$> select_objects s bucket after lower upper).
Proof.
  unfold select_objects. rewrite sort_by_perm, <- list_fmap_compose.
  apply (NoDup_keys _ bucket).
  - apply NoDup_filter_fst, NoDup_filter_fst, NoDup_fst_map_to_list.
  - intros r [[? _] _]%list_elem_of_filter. done.
Qed.

Lemma strongly_sorted_lt (l : list obj) :
  StronglySorted obj_le l → NoDup (obj_key <$> l) → StronglySorted str_lt (obj_key <$> l).
Proof.
  induction 1 as [|o l Hs IH Hf]; intros Hnd; simpl in *; [constructor|].
  apply NoDup_cons in Hnd as [Hni Hnd]. constructor; [by apply IH|].
  apply Forall_forall. intros k (o' & -> & Ho')%list_elem_of_fmap.
  apply str_lt_le. split; [by apply (proj1 (Forall_forall _ _) Hf)|].
  intros Heq. apply Hni, list_elem_of_fmap. eauto.
Qed.

Lemma select_sorted s bucket after lower upper :
  StronglySorted str_lt (obj_key <$> select_objects s bucket after lower upper).
Proof.
  apply strongly_sorted_lt; [|apply select_keys_NoDup]. apply sort_by_sorted; apply _.
Qed.

Lemma sorted_fmap_app (l1 l2 : list obj) :
  StronglySorted str_lt (obj_key <$> l1 ++ l2) →
  StronglySorted str_lt (obj_key <$> l1) ∧ StronglySorted str_lt (obj_key <$> l2) ∧
  ∀ a b, a ∈ l1 → b ∈ l2 → str_lt (obj_key a) (obj_key b).
Proof.
  induction l1 as [|o l1 IH]; simpl; intros Hs.
  - split_and!; [constructor|done|]. by intros a b ?%elem_of_nil.
  - inversion Hs as [|? ? Hs' Hf]; subst. destruct (IH Hs') as (Hs1 & Hs2 & Hlt).
    rewrite fmap_app, Forall_app in Hf. destruct Hf as [Hf1 Hf2].
    split_and!; [by constructor|done|].
    intros a b [->|Ha]%elem_of_cons Hb; [|by apply Hlt].
    apply (proj1 (Forall_forall _ _) Hf2), list_elem_of_fmap. eauto.
Qed.

(** A strictly sorted list is determined by its elements. *)
Lemma sorted_unique (l1 l2 : list obj) :
  StronglySorted str_lt (obj_key <$> l1) → StronglySorted str_lt (obj_key <$> l2) →
  (∀ o, o ∈ l1 ↔ o ∈ l2) → l1 = l2.
Proof.
  revert l2. induction l1 as [|a l1 IH]; intros [|b l2] Hs1 Hs2 Heq.
  - done.
  - exfalso. apply (elem_of_nil b), Heq. by left.
  - exfalso. apply (elem_of_nil a), Heq. by left.
  - cbn [fmap list_fmap] in *. inversion Hs1 as [|? ? Hs1' Hf1]; subst.
    inversion Hs2 as [|? ? Hs2' Hf2]; subst.
    rewrite Forall_fmap, Forall_forall in Hf1, Hf2. simpl in Hf1, Hf2.
    assert (a = b) as <-.
    { assert (a ∈ b :: l2) as [|Ha]%elem_of_cons by (apply Heq; by left); [done|].
      assert (b ∈ a :: l1) as [|Hb]%elem_of_cons by (apply Heq; by left); [done|].
      destruct (str_lt_irrefl (obj_key a)). etrans; [by apply Hf1|by apply Hf2]. }
    f_equal. apply IH; [done..|]. intros o. split; intros Ho.
    + assert (o ∈ a :: l2) as [->|]%elem_of_cons by (apply Heq; by right); [|done].
      destruct (str_lt_irrefl (obj_key a)). by apply Hf1.
    + assert (o ∈ a :: l1) as [->|]%elem_of_cons by (apply Heq; by right); [|done].
      destruct (str_lt_irrefl (obj_key a)). by apply Hf2.
Qed.

Lemma in_page_later after lower upper k k' :
  in_page after lower upper k = true →
  in_page (Some k) lower upper k' = true ↔ in_page after lower upper k' = true ∧ str_lt k k'.
Proof.
  unfold in_page. intros Hk. rewrite !andb_true_iff in *. destruct Hk as [Hk _].
  assert (str_lt k k' → match after, lower with
    | Some a, _ => bool_decide (str_lt a k')
    | None, Some l => bool_decide (str_le l k')
    | None, None => true end = true) as Hmono.
  { intros Hlt. destruct after as [a|]; [|destruct lower as [l|]]; [| |done];
      rewrite bool_decide_eq_true in *; [by etrans|].
    etrans; [done|]. apply str_lt_le in Hlt. apply Hlt. }
  rewrite bool_decide_eq_true. tauto.
Qed.

(** The selection after the last key of a page is what the page left over. *)
Lemma select_after s bucket after lower upper n o :
  last (take n (select_objects s bucket after lower upper)) = Some o →
  select_objects s bucket (Some (obj_key o)) lower upper =
    drop n (select_objects s bucket after lower upper).
Proof.
  intros Hl. set (L := select_objects s bucket after lower upper) in *.
  pose proof (select_sorted s bucket after lower upper) as HL. fold L in HL.
  rewrite <- (take_drop n L) in HL. destruct (sorted_fmap_app _ _ HL) as (Hs1 & Hs2 & Hlt).
  apply last_Some in Hl as [l Hl].
  assert (o ∈ take n L) as Ho by (rewrite Hl; apply elem_of_app; right; by left).
  assert (o ∈ L) as HoL by (rewrite <- (take_drop n L); apply elem_of_app; by left).
  assert (in_page after lower upper (obj_key o) = true) as Hin
    by apply (proj1 (elem_of_select _ _ _ _ _ _) HoL).
  apply sorted_unique; [apply select_sorted|done|]. intros o'.
  pose proof (elem_of_select s bucket after lower upper o') as He. fold L in He.
  rewrite elem_of_select, (in_page_later after) by done.
  split.
  - intros (Hlo & Hin' & Hlt'). assert (o' ∈ L) as Ho' by tauto. clear He. rewrite <- (take_drop n L) in Ho'. apply elem_of_app in Ho' as [Ho'|]; [|done].
    exfalso. rewrite Hl in Ho', Hs1. destruct (sorted_fmap_app _ _ Hs1) as (_ & _ & Hlt1).
    apply elem_of_app in Ho' as [Ho'|Ho'].
    + apply (str_lt_irrefl (obj_key o)). etrans; [done|]. apply Hlt1; [done|by left].
    + apply list_elem_of_singleton in Ho' as ->. by apply (str_lt_irrefl (obj_key o)).
  - intros Ho'. assert (o' ∈ L) as [??]%He
      by (rewrite <- (take_drop n L); apply elem_of_app; by right).
    split_and!; [done..|by apply Hlt].
Qed.

(** The bounds of the scan, and a page as a prefix of the selection. *)
Definition bounds (prefix : option string) : result panic (option string * option string) :=
  match prefix with
  | None => Ok (None, None)
  | Some p => match prefix_key_range p with Ok (l, u) => Ok (Some l, u) | Err e => Err e end
  end.

Lemma list_objects_eq s bucket after prefix n :
  list_objects s bucket after prefix n =
    match bounds prefix with
    | Err e => Err e
    | Ok (l, u) =>
        let L := select_objects s bucket after l u in
        Ok (take n L, bool_decide (n < length L)%nat)
    end.
Proof.
  assert (∀ L : list obj,
    Ok (E := panic) (take n (take (n + 1) L), bool_decide (n < length (take (n + 1) L))%nat) =
    Ok (take n L, bool_decide (n < length L)%nat)) as HL.
  { intros L. rewrite take_take, length_take. do 2 f_equal; [f_equal; lia|].
    apply bool_decide_ext. lia. }
  unfold list_objects, bounds. destruct prefix as [p|]; [|apply HL].
  destruct (prefix_key_range p) as [[l u]|e]; [apply HL|done].
Qed.








(** ** Paging through a bucket *)

Lemma list_objects_next s bucket after prefix n rows truncated o :
  list_objects s bucket after prefix n = Ok (rows, truncated) → last rows = Some o →
  ∃ l u, bounds prefix = Ok (l, u) ∧
    select_objects s bucket after l u =
      rows ++ select_objects s bucket (Some (obj_key o)) l u.
Proof.
  rewrite list_objects_eq. destruct (bounds prefix) as [[l u]|]; [|done].
  cbv zeta. intros [= <- <-] Hl. exists l, u. split; [done|].
  by rewrite (select_after _ _ _ _ _ _ _ Hl), take_drop.
Qed.

(** The scan of [list_page] returns the selection, or at least [SCAN_CAP] of it. *)
Lemma gather_spec fuel s bucket prefix l u : bounds prefix = Ok (l, u) → ∀ cursor acc,
  (SCAN_CAP ≤ length acc + fuel * SCAN_PAGE)%nat → (length acc < SCAN_CAP)%nat →
  ∃ n, gather fuel s bucket cursor prefix acc =
         Some (Ok (acc ++ take n (select_objects s bucket cursor l u))) ∧
       (n < length (select_objects s bucket cursor l u) → SCAN_CAP ≤ length acc + n)%nat.
Proof.
  intros Hb. assert (0 < SCAN_PAGE)%nat as Hpos by (unfold SCAN_PAGE; lia).
  induction fuel as [|f IH]; intros cursor acc Hf Ha; [lia|].
  cbn [gather]. rewrite list_objects_eq, Hb. cbv zeta.
  set (L := select_objects s bucket cursor l u). cbv beta iota zeta.
  destruct (last (take SCAN_PAGE L)) as [o|] eqn:Hl; cbn [fmap option_fmap option_map].
  - destruct (decide (SCAN_PAGE < length L)%nat) as [Hm|Hm].
    + rewrite bool_decide_true by done. cbn [andb].
      assert (length (acc ++ take SCAN_PAGE L) = length acc + SCAN_PAGE)%nat as Hlen.
      { rewrite length_app, length_take. lia. }
      destruct (decide (length (acc ++ take SCAN_PAGE L) < SCAN_CAP)%nat) as [Hc|Hc].
      * rewrite bool_decide_true by done.
        destruct (IH (Some (obj_key o)) (acc ++ take SCAN_PAGE L)) as (n & Hg & Hn);
          [lia|done|]. setoid_rewrite Hg.
        rewrite (select_after _ _ _ _ _ _ _ Hl) in Hn |- *. fold L in Hn |- *.
        exists (SCAN_PAGE + n)%nat. split; [|rewrite length_drop in Hn; lia].
        by rewrite <- app_assoc, take_take_drop.
      * rewrite bool_decide_false by done. exists SCAN_PAGE. split; [done|]. lia.
    + rewrite bool_decide_false by done. cbn [andb]. exists SCAN_PAGE. split; [done|]. lia.
  - exists SCAN_PAGE. split; [done|]. apply last_None in Hl.
    intros Hlt. apply (f_equal length) in Hl. rewrite length_take in Hl.
    cbn [length] in Hl. lia.
Qed.

(** A delimiter listing is complete and its scan terminates.  When the prefix does not
    panic and the selection is smaller than the scan cap, [list_page] with a delimiter
    returns the grouping of the whole selection, cut to [max_keys]. *)
Theorem list_page_delimiter_complete s bucket after prefix delim max_keys l u :
  bounds prefix = Ok (l, u) →
  (length (select_objects s bucket after l u) < SCAN_CAP)%nat →
  list_page s bucket after prefix (Some delim) max_keys =
    Some (Ok (let '(contents, common) :=
                group_by_delimiter (select_objects s bucket after l u) (default "" prefix) delim in
              merge_and_truncate contents common max_keys)).
Proof.
  intros Hb Hlen. unfold list_page.
  destruct (gather_spec GATHER_FUEL s bucket prefix l u Hb after []) as (n & -> & Hn).
  - unfold GATHER_FUEL, SCAN_CAP, SCAN_PAGE. cbn [length]. lia.
  - unfold SCAN_CAP. cbn [length]. lia.
  - rewrite take_ge; [by destruct (group_by_delimiter _ _ _)|].
    simpl in Hn. destruct (decide (length (select_objects s bucket after l u) ≤ n)%nat); [done|].
    specialize (Hn ltac:(lia)). lia.
Qed.

(** Paging without a delimiter loses and repeats nothing: the rows of a page followed by
    the whole selection after its continuation token are the whole selection. *)
Theorem list_page_continues s bucket after prefix max_keys rows common truncated token :
  list_page s bucket after prefix None max_keys = Some (Ok (rows, common, truncated, Some token)) →
  ∃ l u, bounds prefix = Ok (l, u) ∧ common = [] ∧ truncated = true ∧ length rows = max_keys ∧
    select_objects s bucket after l u = rows ++ select_objects s bucket (Some token) l u.
Proof.
  unfold list_page. destruct (list_objects s bucket after prefix max_keys) as [[rs tr]|] eqn:Hl; [|done].
  destruct tr; [|done]. destruct (last rs) as [o|] eqn:Ho; [|done]. intros [= -> <- <- <-].
  destruct (list_objects_next _ _ _ _ _ _ _ _ Hl Ho) as (l & u & Hb & Hs).
  exists l, u. split_and!; [done..| |done].
  rewrite list_objects_eq, Hb in Hl. cbv zeta in Hl. injection Hl as <- Ht.
  apply bool_decide_eq_true in Ht. rewrite length_take. lia.
Qed.
End listing.

(** ** Concrete listings *)

Module ListingRuns.

(** A bucket with the keys [a/x], [a/y], [b] and [docs/z], and a tombstone at [c]. *)
Definition demo : Store :=
  foldl (λ s '(k, n, d), put_object_row "bk" k [] n "e" 0 d 1 s)
        (empty_store "a" (Clock.new 0))
        [("docs/z", 4, false); ("a/y", 2, false); ("b", 3, false); ("c", 9, true); ("a/x", 1, false)].


Lemma list_page_delimiter_complete_witness :
  list_page demo "bk" None (Some "a/") (Some "/") 10 =
    Some (Ok ([("a/x", 1, "e"); ("a/y", 2, "e")], [], false, None)).
Proof.
  rewrite (list_page_delimiter_complete demo "bk" None (Some "a/") "/" 10 (Some "a/") (Some "a0")).
  - vm_compute. reflexivity.
  - reflexivity.
  - unfold SCAN_CAP. apply Nat.ltb_lt. vm_compute. reflexivity.
Defined.

Lemma list_page_continues_witness :
  ∃ l u, bounds None = Ok (l, u) ∧ ([] : list string) = [] ∧ true = true ∧
    length [("a/x", 1, "e"); ("a/y", 2, "e")] = 2%nat ∧
    select_objects demo "bk" None l u =
      [("a/x", 1, "e"); ("a/y", 2, "e")] ++ select_objects demo "bk" (Some "a/y") l u.
Proof. apply (list_page_continues demo "bk" None None 2). vm_compute. reflexivity. Defined.

(** A cursor below the prefix lets keys outside the prefix into the page: with a prefix
    the lower bound is dropped as soon as there is a cursor. *)
Theorem list_objects_cursor_escapes_prefix :
  list_objects demo "bk" (Some "a/y") (Some "docs/") 10 =
    Ok ([("b", 3, "e"); ("docs/z", 4, "e")], false) ∧ starts_with "b" "docs/" = false.
Proof. vm_compute. done. Qed.

(** When a page of a delimiter listing ends with a common prefix, its continuation token
    is that prefix, which sorts before every key below it: the next page repeats it, with
    the same token, and a client that follows the tokens never reaches the next entry. *)
Theorem delimiter_page_repeats :
  list_page demo "bk" None None (Some "/") 1 = Some (Ok ([], ["a/"], true, Some "a/")) ∧
  list_page demo "bk" (Some "a/") None (Some "/") 1 = Some (Ok ([], ["a/"], true, Some "a/")).
Proof. vm_compute. done. Qed.

End ListingRuns.
