(* ===== verification/BlockStore.v ===== *)
(** * The distributed block store (src/storage.rs: [BlobStore], [LocalBlob],
    [DistributedBlockStore])

    [BlobStore] is the physical backend behind a trait; its contract is [LawfulBlob].
    [LocalBlob], the file system backend, implements it with its temporary file and rename
    and with every system call able to fail.  [DistributedBlockStore] is written and proved
    against the contract alone. *)

From S2P Require Import Prelude Crates Clock Hashing Listing Policy Tables Store.

(** ** The backend interface *)

Class BlobStore := {
  Blob : Type;
  put : bytes → bytes → io Blob error bytes;
  get : bytes → bytes → io Blob error bytes;
  delete_blob : bytes → bytes → io Blob error unit;
}.

(** What a backend promises, about the bytes it holds for a hash under the token [fid]: what
    was put is there, and putting, getting or deleting one block keeps the others.  A call
    may fail; a [healthy] backend is one where calls succeed. *)
Class LawfulBlob `{!Blake3, !BlobStore} := {
  content : Blob → bytes → bytes → option bytes;
  healthy : Blob → Prop;
  put_content : ∀ h d b fid b', put h d b = (Ok fid, b') → blake3 d = h → content b' h fid = Some d;
  put_frame : ∀ h d b h' fid' x, h' ≠ h → content b h' fid' = Some x → content (put h d b).2 h' fid' = Some x;
  get_content : ∀ h fid b x d b', content b h fid = Some x → get h fid b = (Ok d, b') → d = x;
  get_frame : ∀ h fid b h' fid' x, content b h' fid' = Some x → content (get h fid b).2 h' fid' = Some x;
  delete_frame : ∀ h fid b h' fid' x y, h' ≠ h → content b h fid = Some y → content b h' fid' = Some x →
    content (delete_blob h fid b).2 h' fid' = Some x;
  healthy_put : ∀ h d b, healthy b → healthy (put h d b).2 ∧ ∃ fid, (put h d b).1 = Ok fid;
  healthy_get : ∀ h fid b d, healthy b → content b h fid = Some d → get h fid b = (Ok d, b);
}.

(** A backend that addresses files by hash: deleting a block touches nothing else, whatever
    its token. *)
Class SteadyBlob `{!Blake3, !BlobStore, !LawfulBlob} := {
  delete_exact : ∀ h fid b h' fid', h' ≠ h → content (delete_blob h fid b).2 h' fid' = content b h' fid';
}.

(** ** The local file system backend *)

Module LocalBlob.
Section local.
Context `{!Hex}.

(** The files below the root by path, and the outcome of the system calls to come: [None]
    succeeds, [Some n] fails, a write after [n] bytes.  Calls past the list succeed. *)
Abbreviation Path := (list string).
Record Disk : Type := mkDisk { files : gmap Path bytes; faults : list (option nat) }.

(** [root/aa/bb/<hex>], by its components below the root.  A digest is 32 bytes long, so the
    slices of its hex form are inside it. *)
Definition path_for (hash : bytes) : Path :=
  let hex := hex_encode hash in [String.substring 0 2 hex; String.substring 2 2 hex; hex].

(** [path_for(hash).with_extension(tmp)]: the last component has no extension to replace. *)
Definition tmp_for (hash : bytes) : Path :=
  let hex := hex_encode hash in [String.substring 0 2 hex; String.substring 2 2 hex; hex +:+ ".tmp"].

Definition syscall (d : Disk) : option nat * Disk :=
  match faults d with
  | [] => (None, d)
  | o :: rest => (o, mkDisk (files d) rest)
  end.

Definition create_dir_all : io Disk error unit := λ d,
  match syscall d with (None, d') => (Ok tt, d') | (Some _, d') => (Err BlobError, d') end.

Definition write_file (path : Path) (data : bytes) : io Disk error unit := λ d,
  match syscall d with
  | (None, d') => (Ok tt, mkDisk (<[path := data]> (files d')) (faults d'))
  | (Some n, d') => (Err BlobError, mkDisk (<[path := take n data]> (files d')) (faults d'))
  end.

Definition rename (from to : Path) : io Disk error unit := λ d,
  match syscall d with
  | (None, d') =>
      match files d' !! from with
      | Some data => (Ok tt, mkDisk (<[to := data]> (delete from (files d'))) (faults d'))
      | None => (Err BlobError, d')
      end
  | (Some _, d') => (Err BlobError, d')
  end.

Definition read_file (path : Path) : io Disk error bytes := λ d,
  match syscall d with
  | (None, d') => match files d' !! path with Some data => (Ok data, d') | None => (Err BlobError, d') end
  | (Some _, d') => (Err BlobError, d')
  end.

(** [Ok] also when there is no such file. *)
Definition remove_file (path : Path) : io Disk error unit := λ d,
  match syscall d with
  | (None, d') => (Ok tt, mkDisk (delete path (files d')) (faults d'))
  | (Some _, d') => (Err BlobError, d')
  end.

Definition LOCAL : bytes := as_bytes "local".

Definition local_put (hash data : bytes) : io Disk error bytes :=
  let path := path_for hash in
  do! create_dir_all;
  let tmp := tmp_for hash in
  do! write_file tmp data;
  do! rename tmp path;
  ret LOCAL.

Definition local_get (hash _fid : bytes) : io Disk error bytes := read_file (path_for hash).

Definition local_delete (hash _fid : bytes) : io Disk error unit := remove_file (path_for hash).

#[export] Instance local_blob : BlobStore :=
  {| Blob := Disk; put := local_put; get := local_get; delete_blob := local_delete |}.

(** *** Paths *)

Lemma path_for_inj h h' : path_for h = path_for h' → h = h'.
Proof. unfold path_for. intros [= _ _ Hx]. by apply hex_encode_inj. Qed.

(** A temporary file is never the file of a block. *)
Lemma tmp_for_ne h h' : tmp_for h ≠ path_for h'.
Proof.
  unfold tmp_for, path_for. intros [= _ _ Hx]. apply (hex_encode_no_dot h').
  rewrite <- Hx, as_bytes_append. apply elem_of_app. right. by left.
Qed.

(** *** The contract *)

Definition local_content (d : Disk) (h _fid : bytes) : option bytes := files d !! path_for h.

(** Every outcome of a put: the block is written whole under its own path, or the files of
    all blocks are as before. *)
Lemma local_put_files h data d :
  let '(r, d') := local_put h data d in
  (∀ h', h' ≠ h → files d' !! path_for h' = files d !! path_for h') ∧
  match r with
  | Ok fid => fid = LOCAL ∧ files d' !! path_for h = Some data
  | Err _ => files d' !! path_for h = files d !! path_for h
  end.
Proof.
  unfold local_put, bind, create_dir_all, write_file, rename, ret, syscall.
  assert (∀ h', tmp_for h ≠ path_for h') as Htmp by (intros; apply tmp_for_ne).
  assert (∀ h', h' ≠ h → path_for h ≠ path_for h') as Hp.
  { intros h' Hne Heq. by apply Hne, path_for_inj. }
  destruct d as [fs [|[n|] [|[m|] [|[k|] rest]]]]; simpl;
    rewrite ?lookup_insert_eq; simpl;
    split; try done; intros; rewrite ?lookup_insert_ne, ?lookup_insert_eq, ?lookup_delete_ne, ?lookup_insert_ne by auto; done.
Qed.

Context `{!Blake3}.
#[export] Instance local_lawful : LawfulBlob.
Proof.
  refine {| content := local_content; healthy d := faults d = [] |}; unfold local_content; simpl.
  - intros h d b fid b' Hp _. pose proof (local_put_files h d b) as Hf. rewrite Hp in Hf. apply Hf.
  - intros h d b h' fid' x Hne <-. pose proof (local_put_files h d b) as Hf.
    destruct (local_put h d b) as [r b']. by apply Hf.
  - intros h fid b x d b'. unfold local_get, read_file, syscall.
    destruct (faults b) as [|[n|] rest]; simpl; destruct (files b !! _); naive_solver.
  - intros h fid b h' fid' x. unfold local_get, read_file, syscall.
    destruct (faults b) as [|[n|] rest]; simpl; by destruct (files b !! path_for h).
  - intros h fid b h' fid' x y Hne _ <-. unfold local_delete, remove_file, syscall.
    destruct (faults b) as [|[n|] rest]; simpl; try done; apply lookup_delete_ne; auto using path_for_inj.
  - intros h d [fs fa] Hh. simpl in Hh. subst fa.
    unfold local_put, bind, create_dir_all, write_file, rename, syscall. simpl.
    rewrite lookup_insert_eq. simpl. eauto.
  - intros h fid [fs fa] d Hh Hc. simpl in *. subst fa. unfold local_get, read_file, syscall. simpl.
    by rewrite Hc.
Defined.

#[export] Instance local_steady : SteadyBlob.
Proof.
  split. intros h fid b h' fid' Hne. simpl. unfold local_content, local_delete, remove_file, syscall.
  destruct (faults b) as [|[n|] rest]; simpl; try done; apply lookup_delete_ne; auto using path_for_inj.
Qed.
End local.
End LocalBlob.

(** ** The distributed store *)

Section distributed.
Context `{!Blake3, !Hex, !UuidCodec, !Json, !IterOrder, !BlobStore}.

(** A node's metadata store and blob backend. *)
Record Node : Type := mkNodeState { db : Store; blob : Blob }.

(** [noise_fetch_block]: what peers answer over the network is not under this node's
    control. *)
Context (noise_fetch_block : string → bytes → result error bytes).

Definition read_db {A} (f : Store → A) : io Node error A := λ n, (Ok (f (db n)), n).
Definition write_db (f : Store → Store) : io Node error unit := λ n,
  (Ok tt, mkNodeState (f (db n)) (blob n)).
Definition on_blob {A} (m : io Blob error A) : io Node error A := λ n,
  let '(r, b) := m (blob n) in (r, mkNodeState (db n) b).

Definition promote_block_locally (t : SystemTime) (hash data : bytes) : io Node error unit :=
  let! fid := read_db (λ s, get_local_block_fid s hash) in
  match fid with
  | Some _ => ret tt
  | None =>
      let size := blen data in
      let! fid := on_blob (put hash data) in
      write_db (λ s, store_local_block s t hash fid size)
  end.

Definition store_block (t : SystemTime) (block_data : bytes) (size : Z) : io Node error bytes :=
  let hash := blake3 block_data in
  let! local := read_db (λ s, get_local_block_fid s hash) in
  match local with
  | Some _ => ret hash
  | None =>
      let! fid := on_blob (put hash block_data) in
      do! write_db (λ s, store_local_block s t hash fid size);
      ret hash
  end.

(** The loop of [get_block] over the known peers. *)
Fixpoint fetch_loop (t : SystemTime) (hash : bytes) (locations : gmap string bytes)
    (peers : list (string * string)) : io Node error bytes :=
  match peers with
  | [] => fail (BlockUnavailable hash)
  | (peer_id, peer_url) :: rest =>
      if decide (is_Some (locations !! peer_id)) then
        match noise_fetch_block peer_url hash with
        | Ok data =>
            let! promoted := attempt (promote_block_locally t hash data) in
            match promoted with
            | Ok _ => ret data
            | Err _ =>
                do! write_db (λ s, enqueue_replication s t hash [local_location_id s]);
                ret data
            end
        | Err _ => fetch_loop t hash locations rest
        end
      else fetch_loop t hash locations rest
  end.

Definition get_block (t : SystemTime) (hash : bytes) : io Node error bytes :=
  let! local := read_db (λ s, get_local_block_fid s hash) in
  match local with
  | Some fid => on_blob (get hash fid)
  | None =>
      let! fids := read_db (λ s, get_block_fids s hash) in
      match fids with
      | None => fail (BlockNotFound hash)
      | Some locations =>
          let! peers := read_db get_peers_with_urls in
          fetch_loop t hash locations (iter_order (map_to_list peers))
      end
  end.

Definition add_usage (_hash : bytes) : io Node error unit := ret tt.
Definition remove_reference (_hash : bytes) : io Node error unit := ret tt.
Definition promote_local (t : SystemTime) (hash data : bytes) : io Node error unit :=
  promote_block_locally t hash data.
Definition fetch_from_peer (peer_url : string) (hash : bytes) : io Node error bytes :=
  lift (noise_fetch_block peer_url hash).
Definition delete_block (hash fid : bytes) : io Node error unit := on_blob (delete_blob hash fid).

(** ** What the metadata says about the local bytes *)

Context `{!LawfulBlob}.

(** The contents in play: blocks whose digests do not collide. *)
Context (U : bytes → Prop).

(** Every block the metadata records as local is on the backend under its token, and it is
    the content its hash names. *)
Definition node_ok (n : Node) : Prop :=
  ∀ h fid, get_local_block_fid (db n) h = Some fid →
    ∃ d, content (blob n) h fid = Some d ∧ U d ∧ blake3 d = h.

Lemma get_local_store_local_block s t h fid size h' :
  get_local_block_fid s h = None →
  get_local_block_fid (store_local_block s t h fid size) h' =
    if decide (h' = h) then Some fid else get_local_block_fid s h'.
Proof.
  unfold get_local_block_fid. simpl. intros Hn. apply fmap_None in Hn.
  destruct (decide (h' = h)) as [->|Hne].
  - rewrite lww_upsert_lookup, Hn. done.
  - rewrite lww_upsert_lookup_ne by congruence. done.
Qed.

Lemma get_local_enqueue s t h targets h' :
  get_local_block_fid (enqueue_replication s t h targets) h' = get_local_block_fid s h'.
Proof. done. Qed.

(** Storing a block keeps every block that was there, on every outcome. *)
Lemma put_node_ok n t h d size :
  node_ok n → get_local_block_fid (db n) h = None → U d → blake3 d = h →
  node_ok ((let! fid := on_blob (put h d) in write_db (λ s, store_local_block s t h fid size)) n).2.
Proof.
  intros Hok Hn HU Hh. unfold bind, on_blob, write_db.
  destruct (put h d (blob n)) as [[fid|e] b'] eqn:Hp; cbn [snd];
    intros h' fid'; cbn [db blob].
  - rewrite get_local_store_local_block by done. destruct (decide (h' = h)) as [->|Hne].
    + intros [= <-]. exists d. split_and!; [by eapply put_content|done..].
    + intros Hl. destruct (Hok _ _ Hl) as (d' & Hc & ?). exists d'. split; [|done].
      pose proof (put_frame h d (blob n) h' fid' d' Hne Hc) as Hf. by rewrite Hp in Hf.
  - intros Hl. destruct (Hok _ _ Hl) as (d' & Hc & ?). exists d'. split; [|done].
    assert (h' ≠ h) by (intros ->; congruence).
    pose proof (put_frame h d (blob n) h' fid' d' ltac:(done) Hc) as Hf. by rewrite Hp in Hf.
Qed.

Lemma promote_node_ok n t h d :
  node_ok n → U d → blake3 d = h → node_ok (promote_block_locally t h d n).2.
Proof.
  intros Hok HU Hh. unfold promote_block_locally, read_db, bind at 1.
  destruct (get_local_block_fid (db n) h) eqn:Hl; [done|]. by apply put_node_ok.
Qed.

(** A block stored with [store_block] is local afterwards, and nothing local is lost. *)
Lemma store_block_spec n t d size :
  node_ok n → U d →
  let '(r, n') := store_block t d size n in
  node_ok n' ∧
  (∀ h fid, get_local_block_fid (db n) h = Some fid → get_local_block_fid (db n') h = Some fid) ∧
  match r with
  | Ok h => h = blake3 d ∧ is_Some (get_local_block_fid (db n') h)
  | Err _ => db n' = db n
  end.
Proof.
  intros Hok HU. unfold store_block, read_db, bind, write_db, ret.
  destruct (get_local_block_fid (db n) (blake3 d)) as [fid|] eqn:Hl.
  { split_and!; [done..|]. eauto. }
  pose proof (put_node_ok n t (blake3 d) d size Hok Hl HU eq_refl) as Hput.
  unfold bind, write_db in Hput. unfold on_blob in *.
  destruct (put (blake3 d) d (blob n)) as [[fid|e] b'] eqn:Hp; cbn [db blob snd] in *.
  - split; [exact Hput|]. split.
    + intros h fid' Hl'. rewrite get_local_store_local_block by done.
      destruct (decide _) as [->|]; congruence.
    + split; [done|]. rewrite get_local_store_local_block by done. by rewrite decide_True.
  - by split_and!.
Qed.

(** A local block is read back from the backend. *)
Lemma get_block_local n t d :
  node_ok n → healthy (blob n) → U d →
  (∀ d', U d' → blake3 d' = blake3 d → d' = d) →
  is_Some (get_local_block_fid (db n) (blake3 d)) →
  get_block t (blake3 d) n = (Ok d, n).
Proof.
  intros Hok Hh HU Hinj [fid Hl]. unfold get_block, read_db, bind, on_blob. rewrite Hl.
  destruct (Hok _ _ Hl) as (d' & Hc & HU' & Hd'). apply Hinj in Hd' as ->; [|done].
  rewrite (healthy_get _ _ _ _ Hh Hc). by destruct n.
Qed.

Lemma fetch_loop_node_ok t h locs peers n :
  (∀ url h d, noise_fetch_block url h = Ok d → U d ∧ blake3 d = h) →
  node_ok n → node_ok (fetch_loop t h locs peers n).2.
Proof.
  intros Hhonest. revert n. induction peers as [|[pid url] peers IH]; intros n Hok; [done|].
  cbn [fetch_loop]. destruct (decide _); [|by apply IH].
  destruct (noise_fetch_block url h) as [d|e] eqn:Hf; [|by apply IH].
  destruct (Hhonest _ _ _ Hf) as [HU Hd].
  pose proof (promote_node_ok n t h d Hok HU Hd) as Hp.
  unfold bind, attempt, ret, write_db.
  destruct (promote_block_locally t h d n) as [[[]|e] n']; [done|].
  intros h' fid'. simpl. rewrite get_local_enqueue. apply Hp.
Qed.

Lemma get_block_node_ok n t h :
  (∀ url h d, noise_fetch_block url h = Ok d → U d ∧ blake3 d = h) →
  node_ok n → node_ok (get_block t h n).2.
Proof.
  intros Hhonest Hok. unfold get_block, read_db, bind at 1.
  destruct (get_local_block_fid (db n) h) as [fid|] eqn:Hl.
  - unfold on_blob. destruct (get h fid (blob n)) as [r b'] eqn:Hg.
    intros h' fid' Hl'. destruct (Hok _ _ Hl') as (d & Hc & ?). exists d. split; [|done].
    pose proof (get_frame h fid (blob n) h' fid' d Hc) as Hf. by rewrite Hg in Hf.
  - unfold bind at 1. destruct (get_block_fids (db n) h) as [locs|]; [|done].
    unfold bind. by apply fetch_loop_node_ok.
Qed.
End distributed.

(** ** Properties *)

Section properties.
Context `{!Blake3, !Hex, !UuidCodec, !Json, !IterOrder, !BlobStore, !LawfulBlob}.
Context (noise_fetch_block : string → bytes → result error bytes) (U : bytes → Prop).

(** C18: a stored block is read back.  On a node whose metadata and backend agree, with a
    backend whose calls succeed, [store_block] succeeds with the digest of the data and
    [get_block] of that digest then returns the data, also when the block was already
    there, as long as the contents in play do not collide with it. *)
Theorem store_get_block n t t' d size :
  node_ok U n → healthy (blob n) → U d →
  (∀ d', U d' → blake3 d' = blake3 d → d' = d) →
  ∃ n', store_block t d size n = (Ok (blake3 d), n') ∧ node_ok U n' ∧
    get_block noise_fetch_block t' (blake3 d) n' = (Ok d, n').
Proof.
  intros Hok Hh HU Hinj. pose proof (store_block_spec U n t d size Hok HU) as Hs.
  assert (healthy (blob (store_block t d size n).2) ∧ ∃ h, (store_block t d size n).1 = Ok h)
    as [Hh' [h Hr]].
  { unfold store_block, read_db, bind, write_db, ret, on_blob.
    destruct (get_local_block_fid (db n) (blake3 d)); [by eauto|].
    destruct (healthy_put (blake3 d) d _ Hh) as [Hh' [fid Hf]].
    destruct (put (blake3 d) d (blob n)) as [r b']. simpl in *. subst r. eauto. }
  destruct (store_block t d size n) as [r n']. simpl in *. subst r.
  destruct Hs as (Hok' & _ & -> & Hl). exists n'. split_and!; [done..|].
  by apply (get_block_local _ U).
Qed.

(** C20: integrity of block reads.  When peers only answer with bytes that match the
    requested hash, whatever [get_block] returns hashes to the hash it was asked for, and the
    node's metadata and backend still agree afterwards, on every path: local read, fetch
    with promotion, promotion failure and failed fetches. *)
Theorem get_block_integrity n t h :
  (∀ url h d, noise_fetch_block url h = Ok d → U d ∧ blake3 d = h) →
  node_ok U n →
  let '(r, n') := get_block noise_fetch_block t h n in
  node_ok U n' ∧ ∀ d, r = Ok d → blake3 d = h.
Proof.
  intros Hhonest Hok. pose proof (get_block_node_ok noise_fetch_block U n t h Hhonest Hok) as Hn.
  assert (∀ d, (get_block noise_fetch_block t h n).1 = Ok d → blake3 d = h) as Hr.
  { intros d. unfold get_block, read_db, bind.
    destruct (get_local_block_fid (db n) h) as [fid|] eqn:Hl.
    - unfold on_blob. destruct (get h fid (blob n)) as [r b'] eqn:Hg. simpl. intros ->.
      destruct (Hok _ _ Hl) as (d' & Hc & _ & Hd'). by rewrite (get_content _ _ _ _ _ _ Hc Hg).
    - destruct (get_block_fids (db n) h) as [locs|]; [|done]. clear Hn.
      induction (iter_order _) as [|[pid url] peers IH]; [done|]. cbn [fetch_loop].
      destruct (decide _); [|done]. destruct (noise_fetch_block url h) as [d'|] eqn:Hf; [|done].
      unfold bind, attempt, ret, write_db.
      destruct (promote_block_locally t h d' n) as [[?|?] ?]; simpl; intros [= <-];
        by eapply Hhonest. }
  by destruct (get_block noise_fetch_block t h n) as [r n'].
Qed.

(** C29: a put of the file backend is atomic under every failure of its system calls,
    including a partial write: afterwards the block's file is complete or as it was, and no
    other block's file has changed. *)
Theorem local_put_atomic (h data : bytes) (d : LocalBlob.Disk) :
  let d' := (LocalBlob.local_put h data d).2 in
  (∀ h', h' ≠ h → LocalBlob.local_content d' h' [] = LocalBlob.local_content d h' []) ∧
  (LocalBlob.local_content d' h [] = LocalBlob.local_content d h [] ∨
   LocalBlob.local_content d' h [] = Some data).
Proof.
  pose proof (LocalBlob.local_put_files h data d) as Hf.
  destruct (LocalBlob.local_put h data d) as [[fid|e] d']; simpl; destruct Hf as [Hf Hh].
  - split; [done|]. right. apply Hh.
  - split; [done|]. by left.
Qed.
End properties.

Module BlockRuns.
#[local] Existing Instances Reference.blake3_pad Reference.hex_lower Reference.uuid_text.
#[local] Existing Instances JsonReference.json_tokens order_id LocalBlob.local_blob LocalBlob.local_lawful.

Definition hello : bytes := as_bytes "hello".
Definition empty_node : Node :=
  mkNodeState (empty_store "a" (Clock.new 0)) (LocalBlob.mkDisk ∅ []).
Definition no_peers (_ : string) (_ : bytes) : result error bytes := Err FetchError.

Lemma store_get_block_witness :
  ∃ n', store_block 1000 hello 5 empty_node = (Ok (blake3 hello), n') ∧
    node_ok (λ d, d = hello) n' ∧
    get_block no_peers 2000 (blake3 hello) n' = (Ok hello, n').
Proof.
  apply (store_get_block no_peers (λ d, d = hello) empty_node 1000 2000 hello 5);
    [by intros h fid|reflexivity|reflexivity|by intros d' ->].
Defined.

(** A node that knows site [b] as holder of the block of [hello], and a peer that answers
    every request with other bytes. *)
Definition remote_node : Node :=
  let s := upsert_block_location (blake3 hello) "b" LocalBlob.LOCAL 5 1 (empty_store "a" (Clock.new 0)) in
  mkNodeState (record_peer s 1000 "b" "http://b") (LocalBlob.mkDisk ∅ []).
Definition liar (_ : string) (_ : bytes) : result error bytes := Ok (as_bytes "evil").

(** A peer that holds the block and nothing else. *)
Definition honest (_ : string) (h : bytes) : result error bytes :=
  if decide (h = blake3 hello) then Ok hello else Err FetchError.

Lemma get_block_integrity_witness :
  (get_block honest 2000 (blake3 hello) remote_node).1 = Ok hello ∧
  let '(r, n') := get_block honest 2000 (blake3 hello) remote_node in
  node_ok (λ d, d = hello) n' ∧ ∀ d, r = Ok d → blake3 d = blake3 hello.
Proof.
  split; [vm_compute; reflexivity|].
  apply (get_block_integrity honest (λ d, d = hello) remote_node 2000 (blake3 hello)).
  - intros url h d. unfold honest. destruct (decide (h = blake3 hello)) as [->|]; [|done].
    by intros [= <-].
  - intros h fid. unfold get_local_block_fid, remote_node. simpl.
    unfold lww_upsert. rewrite lookup_empty. rewrite lookup_insert_ne by done. done.
Defined.

(** Bytes fetched from a peer are not checked against the hash: a wrong answer is
    returned to the reader, stored under the hash and announced, and served locally from
    then on. *)
Theorem get_block_unverified :
  let '(r, n') := get_block liar 2000 (blake3 hello) remote_node in
  r = Ok (as_bytes "evil") ∧
  get_local_block_fid (db n') (blake3 hello) = Some LocalBlob.LOCAL ∧
  length (fact_log (db n')) = 1%nat ∧
  (get_block no_peers 3000 (blake3 hello) n').1 = Ok (as_bytes "evil").
Proof. vm_compute. done. Qed.
End BlockRuns.
