(* ===== verification/Seaweed.v ===== *)
(** * The SeaweedFS backend (src/storage.rs: [SeaweedBlob])

    The second implementation of the blob trait: a master assigns a file id, a volume server
    holds the bytes, both over HTTP.  The HTTP client and the SeaweedFS cluster are outside
    the repository, so they are a class; [LawfulSeaweed] is what SeaweedFS documents of its
    endpoints.  Unlike the file backend, the token is what locates the bytes.  The backend
    satisfies the contract [LawfulBlob], so what is proved of nodes and deployments against
    it holds with SeaweedFS too. *)

From S2P Require Import Prelude Crates Clock Hashing Listing Policy Tables Store BlockStore.

(** ** HTTP *)

(** A request by its URL; [None] when it fails before a status arrives, and the body [None]
    when it breaks off.  [fid_of_json] is the string field [fid] of a JSON body, with [None]
    for a body that is not JSON. *)
Class HttpClient := {
  Net : Type;
  http_get : string → Net → option (Z * option bytes) * Net;
  http_put : string → bytes → Net → option Z * Net;
  http_delete : string → Net → option Z * Net;
  fid_of_json : bytes → option (option string);
}.

Definition is_success (status : Z) : bool := (200 <=? status) && (status <? 300).

Section seaweed.
Context `{!HttpClient} (master_url volume_url : string).

Definition volume_file (fid : string) : string := volume_url +:+ "/" +:+ fid.

(** The status of the assignment is not looked at, only its body. *)
Definition assign_fid : io Net error string := λ w,
  match http_get (master_url +:+ "/dir/assign") w with
  | (Some (_, Some body), w') =>
      match fid_of_json body with
      | Some (Some fid) => (Ok fid, w')
      | _ => (Err BlobError, w')
      end
  | (_, w') => (Err BlobError, w')
  end.

Definition volume_put (fid : string) (data : bytes) : io Net error unit := λ w,
  match http_put (volume_file fid) data w with
  | (Some status, w') => (if is_success status then Ok tt else Err BlobError, w')
  | (None, w') => (Err BlobError, w')
  end.

Definition seaweed_put (_hash data : bytes) : io Net error bytes :=
  let! fid := assign_fid in
  do! volume_put fid data;
  ret (as_bytes fid).

(** [std::str::from_utf8]. *)
Definition fid_text (fid : bytes) : io Net error string :=
  if utf8_valid fid then ret (of_bytes fid) else fail BlobError.

Definition seaweed_get (_hash fid : bytes) : io Net error bytes :=
  let! fid := fid_text fid in
  λ w, match http_get (volume_file fid) w with
       | (Some (status, Some body), w') => (if is_success status then Ok body else Err BlobError, w')
       | (_, w') => (Err BlobError, w')
       end.

(** The outcome of the request is ignored. *)
Definition seaweed_delete (_hash fid : bytes) : io Net error unit :=
  let! fid := fid_text fid in
  λ w, (Ok tt, (http_delete (volume_file fid) w).2).

Definition seaweed_blob : BlobStore :=
  {| Blob := Net; put := seaweed_put; get := seaweed_get; delete_blob := seaweed_delete |}.
End seaweed.

(** ** What SeaweedFS promises *)

(** [stored w url] are the bytes the volume server holds under a URL.  The master hands out
    ids that are not in use; a successful PUT stores the body and a failed one may or may
    not; a GET answers with success only what is stored; nothing else changes. *)
Class LawfulSeaweed `{!HttpClient} (master_url volume_url : string) := {
  stored : Net → string → option bytes;
  fid_utf8 : ∀ body fid, fid_of_json body = Some (Some fid) → utf8_valid (as_bytes fid) = true;
  assign_fresh : ∀ w w' status body fid,
    http_get (master_url +:+ "/dir/assign") w = (Some (status, Some body), w') →
    fid_of_json body = Some (Some fid) → stored w (volume_file volume_url fid) = None;
  http_get_keeps : ∀ w url url', stored (http_get url w).2 url' = stored w url';
  put_stores : ∀ w fid data status w', http_put (volume_file volume_url fid) data w = (Some status, w') →
    is_success status = true → stored w' (volume_file volume_url fid) = Some data;
  put_keeps : ∀ w fid data url, url ≠ volume_file volume_url fid →
    stored (http_put (volume_file volume_url fid) data w).2 url = stored w url;
  get_answers : ∀ w fid status body w', http_get (volume_file volume_url fid) w = (Some (status, Some body), w') →
    is_success status = true → stored w (volume_file volume_url fid) = Some body;
  delete_keeps : ∀ w fid url, url ≠ volume_file volume_url fid →
    stored (http_delete (volume_file volume_url fid) w).2 url = stored w url;
  (** A cluster that is up assigns ids, stores what it is sent and serves what it has. *)
  up : Net → Prop;
  up_assign : ∀ w, up w → ∃ status body fid w',
    http_get (master_url +:+ "/dir/assign") w = (Some (status, Some body), w') ∧
    fid_of_json body = Some (Some fid) ∧ up w';
  up_put : ∀ w fid data, up w → ∃ status w',
    http_put (volume_file volume_url fid) data w = (Some status, w') ∧ is_success status = true ∧ up w';
  up_get : ∀ w fid data, up w → stored w (volume_file volume_url fid) = Some data → ∃ status,
    http_get (volume_file volume_url fid) w = (Some (status, Some data), w) ∧ is_success status = true;
}.

Section lawful.
Context `{!HttpClient} (master_url volume_url : string) `{!LawfulSeaweed master_url volume_url}.

Abbreviation at_ fid := (volume_file volume_url (of_bytes fid)).

Lemma of_as_bytes s : of_bytes (as_bytes s) = s.
Proof. apply string_of_list_ascii_of_string. Qed.

Lemma assign_frame w url : stored (assign_fid master_url w).2 url = stored w url.
Proof.
  pose proof (http_get_keeps w (master_url +:+ "/dir/assign") url) as Hg. unfold assign_fid.
  destruct (http_get _ w) as [[[status [body|]]|] w']; [|done..]. by destruct (fid_of_json body) as [[fid|]|].
Qed.

Lemma assign_unused w fid w' : assign_fid master_url w = (Ok fid, w') →
  stored w (volume_file volume_url fid) = None ∧ utf8_valid (as_bytes fid) = true.
Proof.
  unfold assign_fid. destruct (http_get _ w) as [[[status [body|]]|] w1] eqn:Hg; [|done..].
  destruct (fid_of_json body) as [[fid'|]|] eqn:Hf; [|done..]. intros [= <- <-]. split; [by eapply assign_fresh|by eapply fid_utf8].
Qed.

(** Every outcome of a put. *)
Lemma seaweed_put_files hash data w :
  let '(r, w') := seaweed_put master_url volume_url hash data w in
  (∀ fid x, stored w (at_ fid) = Some x → stored w' (at_ fid) = Some x) ∧
  match r with
  | Ok fid => stored w (at_ fid) = None ∧ stored w' (at_ fid) = Some data ∧
      ∀ x w2, seaweed_get volume_url hash fid w' = (Ok x, w2) → x = data
  | Err _ => True
  end.
Proof.
  unfold seaweed_put, bind. destruct (assign_fid master_url w) as [[fid|e] w1] eqn:Ha.
  2: { split; [|done]. intros f x. rewrite <- (assign_frame w). by rewrite Ha. }
  destruct (assign_unused w fid w1 Ha) as [Hfresh Hutf].
  assert (∀ url, stored w1 url = stored w url) as Hw1 by (intros; rewrite <- (assign_frame w), Ha; done).
  assert (∀ f x w2, volume_put volume_url fid data w1 = (x, w2) → f ≠ volume_file volume_url fid → stored w2 f = stored w f) as Hkeep.
  { intros f x w2 Hp Hf. rewrite <- Hw1, <- (put_keeps w1 fid data) by done. unfold volume_put in Hp.
    by destruct (http_put _ _ _) as [[status|] w3]; simplify_eq. }
  destruct (volume_put volume_url fid data w1) as [[[]|e] w2] eqn:Hp; cbn [ret];
    (split; [intros f x Hx; rewrite (Hkeep _ _ _ eq_refl); [done|congruence]|]); [|done].
  rewrite of_as_bytes. assert (stored w2 (volume_file volume_url fid) = Some data) as Hst.
  { unfold volume_put in Hp. destruct (http_put _ _ _) as [[status|] w3] eqn:Hh; [|done].
    destruct (is_success status) eqn:Hs; simplify_eq. by eapply put_stores. }
  split_and!; [done|done|]. intros x w3. unfold seaweed_get, fid_text, bind. rewrite Hutf, of_as_bytes. cbn [ret].
  destruct (http_get _ w2) as [[[status [body|]]|] w4] eqn:Hg; [|done..].
  destruct (is_success status) eqn:Hs; [|done]. intros [= -> ->]. apply get_answers in Hg; [congruence|done].
Qed.

(** The SeaweedFS backend keeps blocks apart.  A put that succeeds has stored the bytes
    under a token nothing was stored under before; whatever a put's outcome, every file that
    was stored is still there; and a successful get returns what is stored under the token. *)
Theorem seaweed_put_spec hash data w :
  let '(r, w') := seaweed_put master_url volume_url hash data w in
  (∀ fid x, stored w (at_ fid) = Some x → stored w' (at_ fid) = Some x) ∧
  match r with
  | Ok fid => stored w (at_ fid) = None ∧ stored w' (at_ fid) = Some data ∧
      ∀ x w2, seaweed_get volume_url hash fid w' = (Ok x, w2) → x = data
  | Err _ => True
  end.
Proof. apply seaweed_put_files. Qed.

(** *** The backend contract *)

Context `{!Blake3}.

(** The bytes under a token count as those of the hash they have. *)
Definition seaweed_content (w : Net) (h fid : bytes) : option bytes :=
  if utf8_valid fid then
    d ← stored w (at_ fid); if decide (blake3 d = h) then Some d else None
  else None.

Lemma seaweed_content_Some w h fid d :
  seaweed_content w h fid = Some d ↔ utf8_valid fid = true ∧ stored w (at_ fid) = Some d ∧ blake3 d = h.
Proof.
  unfold seaweed_content. destruct (utf8_valid fid); [|naive_solver].
  destruct (stored w (at_ fid)) as [x|]; simpl; [|naive_solver]. destruct (decide _); naive_solver.
Qed.

Lemma seaweed_get_inv h fid w d w' : seaweed_get volume_url h fid w = (Ok d, w') → stored w (at_ fid) = Some d.
Proof.
  unfold seaweed_get, fid_text, bind. destruct (utf8_valid fid); [|done]. cbn [ret].
  destruct (http_get _ w) as [[[status [body|]]|] w1] eqn:Hg; [|done..].
  destruct (is_success status) eqn:Hs; [|done]. intros [= -> ->]. by eapply get_answers.
Qed.

Lemma seaweed_get_keeps h fid w url : stored (seaweed_get volume_url h fid w).2 url = stored w url.
Proof.
  unfold seaweed_get, fid_text, bind. destruct (utf8_valid fid); [|done]. cbn [ret].
  pose proof (http_get_keeps w (at_ fid) url) as Hk.
  by destruct (http_get _ w) as [[[status [body|]]|] w1].
Qed.

(** SeaweedFS satisfies the contract of a backend. *)
#[export] Instance seaweed_lawful : @LawfulBlob _ (seaweed_blob master_url volume_url).
Proof.
  refine (@Build_LawfulBlob _ (seaweed_blob master_url volume_url) seaweed_content up _ _ _ _ _ _ _); simpl.
  - intros h d w fid w' Hp Hd. apply seaweed_content_Some. split_and!; [| |done].
    + unfold seaweed_put in Hp. apply bind_inv in Hp as (f & w1 & Ha & Hp). apply bind_inv in Hp as (? & w2 & _ & Hp).
      injection Hp as <- _. by apply assign_unused in Ha as [_ ?].
    + pose proof (seaweed_put_files h d w) as Hs. rewrite Hp in Hs. apply Hs.
  - intros h d w h' fid' x _ (Hu & Hst & Hx)%seaweed_content_Some. apply seaweed_content_Some. split_and!; [done| |done].
    pose proof (seaweed_put_files h d w) as Hs. destruct (seaweed_put _ _ h d w). by apply Hs.
  - intros h fid w x d w' (_ & Hst & _)%seaweed_content_Some Hg%seaweed_get_inv. congruence.
  - intros h fid w h' fid' x (Hu & Hst & Hx)%seaweed_content_Some. apply seaweed_content_Some.
    by rewrite seaweed_get_keeps.
  - intros h fid w h' fid' x y Hne (Hu & Hy & Hhy)%seaweed_content_Some (Hu' & Hx & Hhx)%seaweed_content_Some.
    apply seaweed_content_Some. split_and!; [done| |done]. unfold seaweed_delete, fid_text, bind. rewrite Hu. cbn [ret snd].
    rewrite delete_keeps; [done|]. intros Heq. rewrite Heq in Hx. congruence.
  - intros h d w Hup. unfold seaweed_put, bind, assign_fid.
    destruct (up_assign w Hup) as (st & body & fid & w1 & -> & -> & Hup1). unfold volume_put.
    destruct (up_put w1 fid d Hup1) as (st2 & w2 & -> & -> & Hup2). cbn. eauto.
  - intros h fid w d Hup (Hu & Hst & _)%seaweed_content_Some. unfold seaweed_get, fid_text, bind. rewrite Hu. cbn [ret].
    destruct (up_get w _ d Hup Hst) as (st & -> & ->). done.
Defined.
End lawful.

(** ** A volume server in memory *)

Module SeaweedRuns.
(** The files by URL; the master picks an id no file has. *)
Definition fids_in_use (w : gmap string bytes) : list string :=
  omap (λ u, strip_prefix u "v/") (map_to_list w).*1.
Definition pick (w : gmap string bytes) : string :=
  "1," +:+ of_bytes (replicate (S (foldr Nat.max 0%nat (String.length <$> fids_in_use w))) "x"%char).

#[local] Instance memory : HttpClient := {|
  Net := gmap string bytes;
  http_get url w :=
    if decide (url = "m/dir/assign") then (Some (200, Some (as_bytes (pick w))), w)
    else match w !! url with Some b => (Some (200, Some b), w) | None => (Some (404, Some []), w) end;
  http_put url data w := (Some 201, <[url := data]> w);
  http_delete url w := (Some 202, delete url w);
  fid_of_json body := if utf8_valid body then Some (Some (of_bytes body)) else None;
|}.

(** The picked id is longer than any in use. *)
Lemma pick_unused w : w !! volume_file "v" (pick w) = None.
Proof.
  destruct (w !! volume_file "v" (pick w)) as [b|] eqn:Hw; [|done]. exfalso.
  assert (pick w ∈ fids_in_use w) as Hin.
  { apply list_elem_of_omap. exists (volume_file "v" (pick w)). split; [|by apply strip_prefix_Some].
    apply list_elem_of_fmap. exists (volume_file "v" (pick w), b). split; [done|]. by apply elem_of_map_to_list. }
  assert (∀ l f, f ∈ l → (String.length f ≤ foldr Nat.max 0 (String.length <$> l))%nat) as Hmax.
  { intros l f Hf. induction l as [|g l IH]; [by apply elem_of_nil in Hf|].
    apply elem_of_cons in Hf as [->|Hf]; [apply Nat.le_max_l|]. etrans; [exact (IH Hf)|apply Nat.le_max_r]. }
  apply Hmax in Hin. revert Hin. unfold pick at 1.
  set (n := foldr Nat.max 0%nat _).
  assert (∀ k, String.length (of_bytes (replicate k "x"%char)) = k) as Hlen.
  { induction k as [|k IH]; [done|]. change (S (String.length (of_bytes (replicate k "x"%char))) = S k). by rewrite IH. }
  change (String.length ("1," +:+ of_bytes (replicate (S n) "x"%char))) with
    (S (S (String.length (of_bytes (replicate (S n) "x"%char))))). rewrite Hlen. lia.
Qed.

Lemma pick_utf8 w : utf8_valid (as_bytes (pick w)) = true.
Proof.
  unfold pick. rewrite as_bytes_append. set (k := S _). clearbody k.
  assert (as_bytes (of_bytes (replicate k "x"%char)) = replicate k "x"%char) as ->
    by apply list_ascii_of_string_of_list_ascii.
  change (utf8_valid (replicate k "x"%char) = true). induction k as [|k IH]; [done|exact IH].
Qed.

Lemma volume_not_assign fid : volume_file "v" fid ≠ "m/dir/assign".
Proof. done. Qed.

#[local] Instance memory_lawful : LawfulSeaweed "m" "v".
Proof.
  refine {| stored (w : Net) url := (w : gmap string bytes) !! url; up _ := True |}; simpl.
  - intros body fid. destruct (utf8_valid body) eqn:Hu; [|done]. intros [= <-].
    unfold as_bytes, of_bytes. by rewrite list_ascii_of_string_of_list_ascii.
  - intros w w' status body fid [= _ <- _]. destruct (utf8_valid _); [|done]. intros [= <-].
    rewrite of_as_bytes. apply pick_unused.
  - intros w url url'. destruct (decide _); [done|]. by destruct ((w : gmap string bytes) !! url).
  - intros w fid data status w' [= <- <-] _. apply lookup_insert_eq.
  - intros w fid data url Hne. by apply lookup_insert_ne.
  - intros w fid status body w'. destruct ((w : gmap string bytes) !! _) as [b|]; intros [= <- <- <-]; done.
  - intros w fid url Hne. by apply lookup_delete_ne.
  - intros w _. eexists 200, (as_bytes (pick w)), (pick w), w. split_and!; [done| |exact I].
    rewrite pick_utf8. by rewrite of_as_bytes.
  - intros w fid data _. by eexists 201, _.
  - intros w fid data _ Hw. exists 200. by rewrite Hw.
Defined.

(** A block is put into the empty volume and read back. *)
Definition no_files : Net := (∅ : gmap string bytes).
Lemma seaweed_put_spec_witness :
  let '(r, w') := seaweed_put "m" "v" (as_bytes "h") (as_bytes "data") no_files in
  r = Ok (as_bytes "1,x") ∧ stored w' (volume_file "v" "1,x") = Some (as_bytes "data").
Proof.
  pose proof (seaweed_put_spec "m" "v" (as_bytes "h") (as_bytes "data") no_files) as Hs.
  destruct (seaweed_put "m" "v" (as_bytes "h") (as_bytes "data") no_files) as [r w'] eqn:E.
  assert (r = Ok (as_bytes "1,x")) as -> by (by (vm_compute in E; injection E as <- _)).
  split; [done|]. apply Hs.
Defined.

(** A node over this backend reads back what it stored. *)
#[local] Existing Instances Reference.blake3_pad Reference.hex_lower Reference.uuid_text.
#[local] Existing Instances JsonReference.json_tokens order_id.
#[local] Instance memory_blob : BlobStore := seaweed_blob "m" "v".
Example seaweed_node_reads_back :
  let n0 := mkNodeState (empty_store "a" (Clock.new 0)) no_files in
  let stored := store_block 5000000 (as_bytes "data") 4 n0 in
  fst stored = Ok (blake3 (as_bytes "data")) ∧
  fst (get_block (λ _ _, Err FetchError) 6000000 (blake3 (as_bytes "data")) (snd stored)) = Ok (as_bytes "data").
Proof. split; vm_compute; reflexivity. Qed.
End SeaweedRuns.
