(* ===== verification/GC.v ===== *)
(** * Mark-and-sweep garbage collection (src/storage.rs: [sweep_orphaned_blocks])

    A sweep takes a snapshot (the live set, the local blocks, the pending deletions and the
    time), then visits the local blocks one by one.  The snapshot and the visit of one block
    are separate definitions, as other tasks of the node run between them. *)

From S2P Require Import Prelude Crates Clock Hashing Listing Policy Tables Store BlockStore.

(** What the sweep reads before it changes anything. *)
Record Snapshot : Type := mkSnapshot {
  sn_live : gset bytes; sn_local : list bytes; sn_pending : gmap bytes Z; sn_now : Z
}.

Section gc.
Context `{!Blake3, !Hex, !UuidCodec, !Json, !IterOrder, !BlobStore}.
(** [config.storage.gc_grace_period_seconds], a [u64]. *)
Context (gc_grace_period_seconds : Z).

(** [duration_since(UNIX_EPOCH)?.as_millis() as i64] of the system clock. *)
Definition epoch_millis (t : SystemTime) : result error Z :=
  if t <? 0 then Err TimeBeforeEpoch else Ok (wrap_i64 (t / 1000000)).

Definition grace_ms : Z := wrap_i64 (wrap_i64 gc_grace_period_seconds * 1000).

Definition mark (t : SystemTime) : io Node error Snapshot :=
  let! live := read_db compute_live_block_set in
  let! local := read_db list_local_block_hashes in
  let! pending := read_db (λ s, list_to_map (get_pending_deletions s)) in
  let! now := lift (epoch_millis t) in
  ret (mkSnapshot live local pending now).

(** [SystemTime::now() + Duration::from_secs(grace)] has its seconds in an [i64] and panics
    otherwise. *)
Definition deadline_fits (t : SystemTime) : bool := t / 1000000000 + gc_grace_period_seconds <? 2 ^ 63.

(** [let _ = db.add_pending_deletion(hash, now + grace)]: a failure is ignored, the panic of the
    addition is not. *)
Definition note_orphan (t : SystemTime) (hash : bytes) : io Node error unit :=
  if deadline_fits t then
    write_db (λ s, match add_pending_deletion s hash (t + gc_grace_period_seconds * 1000000000) with
                   | Ok s' => s'
                   | Err _ => s
                   end)
  else fail SweepPanic.

(** The orphan's deadline, recorded on its first sighting. *)
Definition orphan_deadline (sn : Snapshot) (t : SystemTime) (hash : bytes) : io Node error Z :=
  match sn_pending sn !! hash with
  | Some at_ => ret at_
  | None => do! note_orphan t hash; ret (wrap_i64 (sn_now sn + grace_ms))
  end.

(** The sweep of one confirmed orphan: location row, bytes, pending row. *)
Definition reap (hash : bytes) : io Node error unit :=
  let! fid := read_db (λ s, get_local_block_fid s hash) in
  do! match fid with
      | Some fid_bytes =>
          let! removed := read_db (λ s, (delete_local_block s hash).1) in
          do! write_db (λ s, (delete_local_block s hash).2);
          if removed
          then let! _r := attempt (F := error) (delete_block hash fid_bytes) in ret tt
          else ret tt
      | None => ret tt
      end;
  write_db (λ s, remove_pending_deletion s hash).

Definition sweep_hash (force : bool) (sn : Snapshot) (t : SystemTime) (hash : bytes)
    : io Node error unit :=
  if decide (hash ∈ sn_live sn) then
    match sn_pending sn !! hash with
    | Some _ => write_db (λ s, remove_pending_deletion s hash)
    | None => ret tt
    end
  else
    let! reap_at := orphan_deadline sn t hash in
    if negb force && (sn_now sn <? reap_at) then ret tt else reap hash.

(** Pending rows of blocks that are no longer local. *)
Definition drop_stale (sn : Snapshot) (entry : bytes * Z) : io Node error unit :=
  if decide (entry.1 ∈ sn_local sn) then ret tt
  else write_db (λ s, remove_pending_deletion s entry.1).

Definition sweep_orphaned_blocks (force : bool) (t : SystemTime) : io Node error unit :=
  let! sn := mark t in
  do! for_each (sweep_hash force sn t) (sn_local sn);
  for_each (drop_stale sn) (iter_order (map_to_list (sn_pending sn))).

Definition reap_orphaned_blocks (t : SystemTime) : io Node error unit := sweep_orphaned_blocks false t.
Definition force_sweep_orphaned_blocks (t : SystemTime) : io Node error unit := sweep_orphaned_blocks true t.

(** The times at which a sweep can compute: a clock past the epoch, and a deadline that the
    clock can represent. *)
Definition sweep_time (t : SystemTime) : Prop :=
  0 ≤ t ∧ 0 ≤ gc_grace_period_seconds ∧ deadline_fits t = true.

(** ** The decision for one block *)

Definition reap_time (sn : Snapshot) (hash : bytes) : Z :=
  match sn_pending sn !! hash with Some at_ => at_ | None => wrap_i64 (sn_now sn + grace_ms) end.

(** The block is an orphan whose time has come, or the sweep is forced. *)
Definition reaped (force : bool) (sn : Snapshot) (hash : bytes) : bool :=
  bool_decide (hash ∉ sn_live sn) && (force || (reap_time sn hash <=? sn_now sn)).

(** The pending row a visited block has afterwards. *)
Definition pending_after (force : bool) (sn : Snapshot) (t : SystemTime) (hash : bytes) : option Z :=
  if decide (hash ∈ sn_live sn) then None
  else if reaped force sn hash then None
  else match sn_pending sn !! hash with
       | Some at_ => Some at_
       | None => Some (wrap_i64 ((t + gc_grace_period_seconds * 1000000000) / 1000000))
       end.

(** What is observed of the backend about a block; deleting another block does not change it. *)
Context (obs : Blob → bytes → bytes → option bytes).
Context (obs_delete : ∀ h fid b h' fid', h' ≠ h → obs (delete_blob h fid b).2 h' fid' = obs b h' fid').

(** Two nodes with the same manifests. *)
Definition same_manifests (n n' : Node) : Prop :=
  objects (db n') = objects (db n) ∧ parts (db n') = parts (db n) ∧
  users (db n') = users (db n) ∧ fact_log (db n') = fact_log (db n) ∧
  replication_queue (db n') = replication_queue (db n) ∧
  local_location_id (db n') = local_location_id (db n).

Lemma same_manifests_refl n : same_manifests n n.
Proof. done. Qed.

Lemma same_manifests_trans n1 n2 n3 :
  same_manifests n1 n2 → same_manifests n2 n3 → same_manifests n1 n3.
Proof. unfold same_manifests. intuition congruence. Qed.

Lemma delete_local_lookup s h h' :
  get_local_block_fid (delete_local_block s h).2 h' =
    if decide (h' = h) then None else get_local_block_fid s h'.
Proof.
  unfold delete_local_block, get_local_block_fid. cbn [snd].
  destruct (decide (locations_of _ _ = [])); simpl;
    (destruct (decide (h' = h)) as [->|Hne];
     [by rewrite lookup_delete_eq|by rewrite lookup_delete_ne by congruence]).
Qed.

Lemma delete_local_pending s h :
  pending_deletions (delete_local_block s h).2 = pending_deletions s.
Proof. unfold delete_local_block. simpl. by destruct (decide _). Qed.

Lemma delete_local_manifests n h b :
  same_manifests n (mkNodeState (delete_local_block (db n) h).2 b).
Proof. unfold delete_local_block, same_manifests. simpl. by destruct (decide _). Qed.

Lemma delete_local_removed s h fid :
  get_local_block_fid s h = Some fid → (delete_local_block s h).1 = true.
Proof.
  unfold get_local_block_fid, delete_local_block. simpl. intros (r & Hr & _)%fmap_Some.
  apply bool_decide_eq_true. rewrite Hr. eauto.
Qed.

(** What the visit of one block does to every block. *)
Record visited (force : bool) (sn : Snapshot) (t : SystemTime) (hash : bytes) (n n' : Node) : Prop := {
  visited_manifests : same_manifests n n';
  visited_local : ∀ h, get_local_block_fid (db n') h =
    if decide (h = hash) then if reaped force sn h then None else get_local_block_fid (db n) h
    else get_local_block_fid (db n) h;
  visited_pending : ∀ h, pending_deletions (db n') !! h =
    if decide (h = hash) then pending_after force sn t h else pending_deletions (db n) !! h;
  visited_content : ∀ h fid, h ≠ hash ∨ reaped force sn h = false →
    obs (blob n') h fid = obs (blob n) h fid;
}.

Lemma lookup_changed (m m' : gmap bytes Z) (x : option Z) hash :
  m' = partial_alter (λ _, x) hash m →
  ∀ h, m' !! h = if decide (h = hash) then x else m !! h.
Proof.
  intros -> h. destruct (decide (h = hash)) as [->|Hne].
  - by rewrite lookup_partial_alter_eq.
  - by rewrite lookup_partial_alter_ne by congruence.
Qed.

(** Recording a first sighting changes only the pending row. *)
Lemma orphan_deadline_spec sn t hash n :
  sweep_time t → pending_deletions (db n) !! hash = sn_pending sn !! hash →
  ∃ n1, orphan_deadline sn t hash n = (Ok (reap_time sn hash), n1) ∧
    same_manifests n n1 ∧ blob n1 = blob n ∧
    (∀ h, get_local_block_fid (db n1) h = get_local_block_fid (db n) h) ∧
    ∀ h, pending_deletions (db n1) !! h =
      if decide (h = hash)
      then match sn_pending sn !! hash with
           | Some at_ => Some at_
           | None => Some (wrap_i64 ((t + gc_grace_period_seconds * 1000000000) / 1000000))
           end
      else pending_deletions (db n) !! h.
Proof.
  intros (Ht & Hg & Hfit) Hp. unfold orphan_deadline, reap_time.
  destruct (sn_pending sn !! hash) as [at_|] eqn:Hs.
  - exists n. split_and!; try done. intros h. by destruct (decide (h = hash)) as [->|].
  - unfold note_orphan, add_pending_deletion, write_db, bind, ret. rewrite Hfit.
    rewrite (proj2 (Z.ltb_ge _ _)) by lia. eexists. split_and!; try done.
    by apply lookup_changed.
Qed.

Lemma reap_spec hash n :
  is_Some (get_local_block_fid (db n) hash) →
  ∃ n', reap hash n = (Ok tt, n') ∧ same_manifests n n' ∧
    (∀ h, get_local_block_fid (db n') h =
            if decide (h = hash) then None else get_local_block_fid (db n) h) ∧
    (∀ h, pending_deletions (db n') !! h =
            if decide (h = hash) then None else pending_deletions (db n) !! h) ∧
    ∀ h fid, h ≠ hash → obs (blob n') h fid = obs (blob n) h fid.
Proof.
  intros [fid Hl]. unfold reap, read_db, write_db, bind, ret, attempt. rewrite Hl.
  rewrite (delete_local_removed _ _ _ Hl). unfold delete_block, on_blob. cbn [db blob].
  destruct (delete_blob hash fid (blob n)) as [r b'] eqn:Hdel.
  eexists. split; [done|]. split; [exact (delete_local_manifests n hash b')|].
  split; [exact (delete_local_lookup (db n) hash)|]. split.
  - apply lookup_changed. rewrite <- (delete_local_pending (db n) hash). done.
  - intros h f Hne. rewrite <- (obs_delete hash fid (blob n) h f Hne). by rewrite Hdel.
Qed.

Lemma reaped_live force sn h : h ∈ sn_live sn → reaped force sn h = false.
Proof. intros. unfold reaped. by rewrite bool_decide_false by auto. Qed.

Lemma reaped_orphan force sn h :
  h ∉ sn_live sn → reaped force sn h = negb (negb force && (sn_now sn <? reap_time sn h)).
Proof.
  intros. unfold reaped. rewrite bool_decide_true by done. rewrite Z.leb_antisym.
  by destruct force, (_ <? _).
Qed.

Lemma sweep_hash_spec force sn t hash n :
  sweep_time t → is_Some (get_local_block_fid (db n) hash) →
  pending_deletions (db n) !! hash = sn_pending sn !! hash →
  (sweep_hash force sn t hash n).1 = Ok tt ∧
  visited force sn t hash n (sweep_hash force sn t hash n).2.
Proof.
  intros Ht Hl Hp. unfold sweep_hash, pending_after.
  destruct (decide (hash ∈ sn_live sn)) as [Hlive|Hlive].
  { pose proof (reaped_live force _ _ Hlive) as Hr.
    destruct (sn_pending sn !! hash) as [a|] eqn:Hs; (split; [done|]); split; try done;
      simpl; intros h; try (destruct (decide (h = hash)) as [->|Hne]; [by rewrite Hr|done]);
      unfold pending_after.
    - destruct (decide (h = hash)) as [->|]; [by rewrite decide_True, lookup_delete_eq|].
      by rewrite lookup_delete_ne.
    - destruct (decide (h = hash)) as [->|]; [|done]. by rewrite decide_True. }
  pose proof (reaped_orphan force _ _ Hlive) as Hr.
  destruct (orphan_deadline_spec sn t hash n Ht Hp) as (n1 & Hd & Hm & Hb & Hgl & Hpd).
  unfold bind. rewrite Hd. destruct (negb force && _); simpl in Hr.
  - split; [done|]. split; [done| | |].
    + intros h. simpl. rewrite Hgl. destruct (decide (h = hash)) as [->|]; [by rewrite Hr|done].
    + intros h. simpl. rewrite Hpd. unfold pending_after. destruct (decide (h = hash)) as [->|]; [|done].
      by rewrite decide_False, Hr by done.
    + intros h f _. simpl. by rewrite Hb.
  - destruct (reap_spec hash n1) as (n' & -> & Hm' & Hgl' & Hpd' & Hc'); [by rewrite Hgl|].
    split; [done|]. split; simpl.
    + by eapply same_manifests_trans.
    + intros h. rewrite Hgl', Hgl. destruct (decide (h = hash)) as [->|]; [by rewrite Hr|done].
    + intros h. rewrite Hpd', Hpd. unfold pending_after.
      destruct (decide (h = hash)) as [->|]; [|done]. by rewrite decide_False, Hr by done.
    + intros h f Hor. rewrite Hc'; [by rewrite Hb|]. intros ->. destruct Hor; congruence.
Qed.

(** ** The whole sweep *)

Lemma sweep_list_spec force sn t l : ∀ n,
  sweep_time t → NoDup l →
  (∀ h, h ∈ l → is_Some (get_local_block_fid (db n) h) ∧
                pending_deletions (db n) !! h = sn_pending sn !! h) →
  ∃ n', for_each (sweep_hash force sn t) l n = (Ok tt, n') ∧ same_manifests n n' ∧
    (∀ h, get_local_block_fid (db n') h =
       if decide (h ∈ l) then if reaped force sn h then None else get_local_block_fid (db n) h
       else get_local_block_fid (db n) h) ∧
    (∀ h, pending_deletions (db n') !! h =
       if decide (h ∈ l) then pending_after force sn t h else pending_deletions (db n) !! h) ∧
    (∀ h fid, h ∉ l ∨ reaped force sn h = false → obs (blob n') h fid = obs (blob n) h fid).
Proof.
  induction l as [|x l IH]; intros n Ht Hnd Hl.
  { exists n. split_and!; try done; intros h; rewrite decide_False by (by intros ?%elem_of_nil); done. }
  apply NoDup_cons in Hnd as [Hx Hnd]. cbn [for_each]. unfold bind.
  destruct (Hl x) as [Hlx Hpx]; [by left|].
  destruct (sweep_hash_spec force sn t x n Ht Hlx Hpx) as [Hr [Hm Hloc Hpen Hcon]].
  destruct (sweep_hash force sn t x n) as [r n1]. simpl in *. subst r.
  destruct (IH n1) as (n' & -> & Hm' & Hloc' & Hpen' & Hcon'); [done..| |].
  { intros h Hh. assert (h ≠ x) by (intros ->; done).
    rewrite Hloc, Hpen, !decide_False by done. apply Hl. by right. }
  exists n'. split; [done|]. split; [by eapply same_manifests_trans|]. split; [|split].
  - intros h. rewrite Hloc', Hloc. destruct (decide (h = x)) as [->|Hne].
    + rewrite (decide_False (P := x ∈ l)) by done. by rewrite decide_True by (by left).
    + rewrite (decide_ext (h ∈ x :: l) (h ∈ l)); [done|]. rewrite elem_of_cons. naive_solver.
  - intros h. rewrite Hpen', Hpen. destruct (decide (h = x)) as [->|Hne].
    + rewrite (decide_False (P := x ∈ l)) by done. by rewrite decide_True by (by left).
    + rewrite (decide_ext (h ∈ x :: l) (h ∈ l)); [done|]. rewrite elem_of_cons. naive_solver.
  - intros h f Hor. rewrite not_elem_of_cons in Hor. rewrite Hcon', Hcon; [done|tauto|tauto].
Qed.

Lemma drop_stale_spec sn es : ∀ n,
  ∃ n', for_each (drop_stale sn) es n = (Ok tt, n') ∧ same_manifests n n' ∧ blob n' = blob n ∧
    block_locations (db n') = block_locations (db n) ∧
    ∀ h, pending_deletions (db n') !! h =
      if decide (h ∈ es.*1 ∧ h ∉ sn_local sn) then None else pending_deletions (db n) !! h.
Proof.
  induction es as [|[x a] es IH]; intros n.
  { exists n. by split_and!. }
  cbn [for_each]. unfold bind, drop_stale at 1. simpl.
  destruct (decide (x ∈ sn_local sn)) as [Hx|Hx].
  - destruct (IH n) as (n' & He & Hm & Hb & Hl & Hp). exists n'. split_and!; try done.
    intros h. rewrite Hp. apply decide_ext. rewrite elem_of_cons. naive_solver.
  - destruct (IH (mkNodeState (remove_pending_deletion (db n) x) (blob n))) as (n' & He & Hm & Hb & Hl & Hp).
    exists n'. split_and!; try done. intros h. rewrite Hp. simpl.
    destruct (decide (h = x)) as [->|Hne].
    + rewrite lookup_delete_eq. repeat case_decide; try done.
      all: exfalso; rewrite elem_of_cons in *; tauto.
    + rewrite lookup_delete_ne by done. apply decide_ext. rewrite elem_of_cons. naive_solver.
Qed.

(** The snapshot [mark] takes. *)
Definition snapshot (s : Store) (t : SystemTime) : Snapshot :=
  mkSnapshot (compute_live_block_set s) (list_local_block_hashes s) (pending_deletions s)
             (wrap_i64 (t / 1000000)).

Lemma mark_eq t n : 0 ≤ t → mark t n = (Ok (snapshot (db n) t), n).
Proof.
  intros Ht. unfold mark, read_db, bind, lift, ret, epoch_millis, snapshot.
  rewrite (proj2 (Z.ltb_ge _ _)) by lia. do 3 f_equal. unfold get_pending_deletions.
  rewrite <- (list_to_map_to_list (pending_deletions (db n))) at 2.
  apply list_to_map_proper; [|apply iter_order_perm].
  rewrite iter_order_perm. apply NoDup_fst_map_to_list.
Qed.

Lemma elem_of_local s h : h ∈ list_local_block_hashes s ↔ is_Some (get_local_block_fid s h).
Proof.
  unfold list_local_block_hashes, get_local_block_fid.
  rewrite elem_of_iter_order, list_elem_of_omap, fmap_is_Some. split.
  - intros ([[h' loc] r] & Hin & Heq). apply elem_of_map_to_list in Hin.
    destruct (decide _) as [->|]; [|done]. injection Heq as ->. eauto.
  - intros [r Hr]. exists ((h, local_location_id s), r). split; [by apply elem_of_map_to_list|].
    by rewrite decide_True.
Qed.

Lemma local_NoDup s : NoDup (list_local_block_hashes s).
Proof.
  unfold list_local_block_hashes. rewrite iter_order_perm.
  pose proof (NoDup_fst_map_to_list (block_locations s)) as Hnd.
  induction (map_to_list (block_locations s)) as [|[[h loc] r] l IH]; [constructor|].
  cbn [fmap list_fmap] in Hnd. apply NoDup_cons in Hnd as [Hni Hnd]. simpl.
  destruct (decide (loc = local_location_id s)) as [->|]; [|by apply IH].
  apply NoDup_cons. split; [|by apply IH].
  intros ([[h' loc'] r'] & Hin & Heq)%list_elem_of_omap. apply Hni, list_elem_of_fmap.
  exists ((h', loc'), r'). destruct (decide _) as [->|]; [|done]. by injection Heq as ->.
Qed.

(** The exact effect of a sweep on every block. *)
Lemma sweep_exact force t n :
  sweep_time t →
  let sn := snapshot (db n) t in
  ∃ n', sweep_orphaned_blocks force t n = (Ok tt, n') ∧ same_manifests n n' ∧
    (∀ h, get_local_block_fid (db n') h =
       if reaped force sn h then None else get_local_block_fid (db n) h) ∧
    (∀ h, pending_deletions (db n') !! h =
       if decide (is_Some (get_local_block_fid (db n) h)) then pending_after force sn t h else None) ∧
    (∀ h fid, reaped force sn h = false → obs (blob n') h fid = obs (blob n) h fid).
Proof.
  intros Ht sn. unfold sweep_orphaned_blocks, bind. rewrite mark_eq by apply Ht. fold sn.
  destruct (sweep_list_spec force sn t (sn_local sn) n Ht) as (n1 & -> & Hm & Hl & Hp & Hc).
  { apply local_NoDup. }
  { intros h Hh. by rewrite <- elem_of_local. }
  destruct (drop_stale_spec sn (iter_order (map_to_list (sn_pending sn))) n1)
    as (n' & -> & Hm' & Hb' & Hl' & Hp').
  exists n'. split; [done|]. split; [by eapply same_manifests_trans|]. split_and!.
  - intros h. transitivity (get_local_block_fid (db n1) h).
    { unfold get_local_block_fid. destruct Hm' as (_ & _ & _ & _ & _ & ->). by rewrite Hl'. }
    rewrite Hl. destruct (decide (h ∈ sn_local sn)) as [|Hn]; [done|].
    simpl in Hn. rewrite elem_of_local in Hn. apply eq_None_not_Some in Hn. rewrite Hn.
    by destruct (reaped _ _ _).
  - intros h. rewrite Hp', Hp. simpl.
    destruct (decide (is_Some (get_local_block_fid (db n) h))) as [Hs|Hn].
    + apply elem_of_local in Hs. rewrite decide_False by naive_solver. by rewrite decide_True.
    + rewrite <- elem_of_local in Hn. rewrite (decide_False (P := h ∈ _)) by done.
      case_decide as Hnp; [done|].
      apply eq_None_not_Some. intros [a Ha]. apply Hnp. split; [|done].
      apply list_elem_of_fmap. exists (h, a). split; [done|].
      by apply elem_of_iter_order, elem_of_map_to_list.
  - intros h f Hr. rewrite Hb'. apply Hc. by right.
Qed.

(** Manifests unchanged, and the blocks of [L] with their locations and bytes. *)
Definition spares (L : gset bytes) (n n' : Node) : Prop :=
  same_manifests n n' ∧ ∀ h, h ∈ L → get_local_block_fid (db n') h = get_local_block_fid (db n) h ∧
    ∀ fid, obs (blob n') h fid = obs (blob n) h fid.

#[local] Instance spares_preorder L : PreOrder (spares L).
Proof.
  split; [by intros n|]. intros n1 n2 n3 [Hm1 Hs1] [Hm2 Hs2]. split; [by eapply same_manifests_trans|].
  intros h Hh. destruct (Hs1 h Hh) as [E1 C1], (Hs2 h Hh) as [E2 C2]. split; [congruence|].
  intros fid. by rewrite C2.
Qed.

Lemma spares_pending L s s' bl :
  (∃ p, s' = with_pending s p) → spares L (mkNodeState s bl) (mkNodeState s' bl).
Proof. by intros [p ->]. Qed.

Lemma spares_note L t h : moves (spares L) (note_orphan t h).
Proof.
  unfold note_orphan. destruct (deadline_fits _); [|apply moves_fail, _].
  intros [s bl]. apply spares_pending. cbn [db]. unfold add_pending_deletion.
  destruct (_ <? _); [|by eexists]. exists (pending_deletions s). by destruct s.
Qed.

Lemma spares_reap L h : h ∉ L → moves (spares L) (reap h).
Proof.
  intros Hh n. destruct (get_local_block_fid (db n) h) as [fid|] eqn:Hl.
  - destruct (reap_spec h n) as (n' & -> & Hm & Hl' & _ & Hc); [by eauto|].
    split; [done|]. intros h' Hh'. assert (h' ≠ h) by (by intros ->). rewrite Hl', decide_False by done.
    split; [done|]. intros. by apply Hc.
  - unfold reap, bind, read_db, ret, write_db. rewrite Hl. by apply spares_pending; eexists.
Qed.

(** Whatever its outcome, a sweep spares the blocks that are live when it starts. *)
Lemma sweep_spares force t n : spares (compute_live_block_set (db n)) n (sweep_orphaned_blocks force t n).2.
Proof.
  set (L := compute_live_block_set (db n)).
  unfold sweep_orphaned_blocks, mark, bind at 1, read_db, bind, lift. destruct (epoch_millis t); [|done].
  cbn [ret]. set (sn := mkSnapshot _ _ _ _). change L with (sn_live sn). clearbody sn. clear L.
  apply (moves_bind (spares (sn_live sn)) (for_each (sweep_hash force sn t) (sn_local sn))
    (λ _, for_each (drop_stale sn) _)).
  - apply moves_for_each; [apply _|]. intros h. unfold sweep_hash. destruct (decide _) as [|Hno].
    { destruct (sn_pending sn !! h); [|apply moves_ret, _]. intros [s bl]. by apply spares_pending; eexists. }
    apply moves_bind; [apply _| |intros at_; destruct (_ && _); [apply moves_ret, _|by apply spares_reap]].
    unfold orphan_deadline. destruct (sn_pending sn !! h); [apply moves_ret, _|].
    apply moves_bind; [apply _|apply spares_note|intros; apply moves_ret, _].
  - intros _. apply moves_for_each; [apply _|]. intros e. unfold drop_stale. destruct (decide _); [apply moves_ret, _|].
    intros [s bl]. by apply spares_pending; eexists.
Qed.

End gc.

(** ** Properties *)

Section properties.
Context `{!Blake3, !Hex, !UuidCodec, !Json, !IterOrder, !BlobStore, !LawfulBlob, !SteadyBlob}.
Context (gc_grace_period_seconds : Z).
Abbreviation sweep := (sweep_orphaned_blocks gc_grace_period_seconds).

(** A sweep leaves the manifests alone, whatever its outcome and the backend. *)
Lemma sweep_manifests force t n : same_manifests n (sweep force t n).2.
Proof. apply (sweep_spares gc_grace_period_seconds (λ _ _ _, None) ltac:(done)). Qed.

(** The rows after a sweep, on any backend. *)
Lemma sweep_rows force t n :
  sweep_time gc_grace_period_seconds t →
  let sn := snapshot (db n) t in
  ∃ n', sweep force t n = (Ok tt, n') ∧ same_manifests n n' ∧
    (∀ h, get_local_block_fid (db n') h =
       if reaped gc_grace_period_seconds force sn h then None else get_local_block_fid (db n) h) ∧
    (∀ h, pending_deletions (db n') !! h =
       if decide (is_Some (get_local_block_fid (db n) h)) then pending_after gc_grace_period_seconds force sn t h else None).
Proof.
  intros Ht sn. destruct (sweep_exact gc_grace_period_seconds (λ _ _ _, None) ltac:(done) force t n Ht)
    as (n' & He & Hm & Hl & Hp & _). by exists n'.
Qed.

Lemma object_blocks_live s bucket key bs size etag h :
  get_object s bucket key = Some (bs, size, etag) → h ∈ bs → h ∈ compute_live_block_set s.
Proof.
  unfold get_object, compute_live_block_set. destruct (objects s !! (bucket, key)) as [r|] eqn:Hr; [|done].
  destruct (o_deleted r) eqn:Hd; [done|]. intros [= <- _ _] Hh.
  apply elem_of_list_to_set, elem_of_app. left. apply list_elem_of_bind.
  exists ((bucket, key), r). split; [done|]. unfold live_rows. apply list_elem_of_filter.
  split; [done|]. by apply elem_of_map_to_list.
Qed.

Lemma part_blocks_live s bucket u p h :
  p ∈ list_parts s bucket u → h ∈ part_blocks p → h ∈ compute_live_block_set s.
Proof.
  unfold list_parts, compute_live_block_set. rewrite elem_of_sort_by, list_elem_of_omap.
  intros ([[[b u'] n] r] & Hin & Heq) Hh. destruct (decide _); [|done]. injection Heq as <-.
  apply elem_of_list_to_set, elem_of_app. right. apply list_elem_of_bind. by exists ((b, u', n), r).
Qed.

Lemma live_same n n' : same_manifests n n' →
  compute_live_block_set (db n') = compute_live_block_set (db n).
Proof. intros (Ho & Hp & _). unfold compute_live_block_set, live_rows. by rewrite Ho, Hp. Qed.

(** C6: garbage collection never takes a referenced block.  Whatever the outcome of a sweep,
    forced or not, the blocks of every live object and of every part of an upload in progress
    keep their location and their bytes, and objects and parts are unchanged; and the sweep
    completes at every time [sweep_time] admits (the clock is past the epoch and the deadline,
    now plus the grace period, has its seconds in an [i64]; otherwise the addition panics). *)
Theorem gc_live_safe force t n :
  ∃ r n', sweep force t n = (r, n') ∧ (sweep_time gc_grace_period_seconds t → r = Ok tt) ∧
    (∀ bucket key bs size etag, get_object (db n) bucket key = Some (bs, size, etag) →
       get_object (db n') bucket key = Some (bs, size, etag) ∧
       ∀ h, h ∈ bs → get_local_block_fid (db n') h = get_local_block_fid (db n) h ∧
                     ∀ fid, content (blob n') h fid = content (blob n) h fid) ∧
    (∀ bucket u p h, p ∈ list_parts (db n) bucket u → h ∈ part_blocks p →
       p ∈ list_parts (db n') bucket u ∧
       get_local_block_fid (db n') h = get_local_block_fid (db n) h ∧
       ∀ fid, content (blob n') h fid = content (blob n) h fid).
Proof.
  destruct (sweep_spares gc_grace_period_seconds content delete_exact force t n) as [(Ho & Hp & _) Hlive].
  exists (sweep force t n).1, (sweep force t n).2. split; [apply surjective_pairing|]. split_and!.
  - intros Ht. by destruct (sweep_rows force t n Ht) as (n' & -> & _).
  - intros bucket key bs size etag Hget. split; [unfold get_object in *; by rewrite Ho|].
    intros h Hh. eapply Hlive, object_blocks_live; eauto.
  - intros bucket u p h Hin Hh. split; [unfold list_parts in *; by rewrite Hp|].
    eapply Hlive, part_blocks_live; eauto.
Qed.

(** The deadline panics.  With a grace period so long that the deadline is no time, the first
    orphan a sweep sees that has no pending row stops it, before it collects anything. *)
Theorem gc_deadline_panics force sn t h n :
  h ∉ sn_live sn → sn_pending sn !! h = None → deadline_fits gc_grace_period_seconds t = false →
  sweep_hash gc_grace_period_seconds force sn t h n = (Err SweepPanic, n).
Proof.
  intros Hl Hp Hf. unfold sweep_hash, orphan_deadline, note_orphan, bind.
  by rewrite decide_False, Hp, Hf by done.
Qed.

(** The grace period.  A scheduled sweep only removes a local block that is referenced by
    no manifest and that an earlier sweep had recorded with a deadline that has passed. *)
Theorem gc_grace_respected t n h :
  0 ≤ t → 0 < gc_grace_period_seconds → t / 1000000 + gc_grace_period_seconds * 1000 < 2 ^ 62 →
  is_Some (get_local_block_fid (db n) h) →
  get_local_block_fid (db (sweep false t n).2) h = None →
  h ∉ compute_live_block_set (db n) ∧
  ∃ deadline, pending_deletions (db n) !! h = Some deadline ∧ deadline ≤ t / 1000000.
Proof.
  intros Ht Hg Hb Hl0. assert (0 ≤ t / 1000000) by (apply Z.div_pos; lia).
  assert (deadline_fits gc_grace_period_seconds t = true) as Hfit.
  { unfold deadline_fits. apply Z.ltb_lt. replace 1000000000 with (1000000 * 1000) by lia.
    rewrite <- Z.div_div by lia.
    assert (t / 1000000 / 1000 ≤ t / 1000000) by (apply Z.div_le_upper_bound; lia). lia. }
  destruct (sweep_rows false t n) as (n' & -> & _ & Hl & _); [split_and!; [lia|lia|done]|].
  simpl. rewrite Hl. destruct (reaped _ _ _ _) eqn:Hr; [|intros Hn; rewrite Hn in Hl0; by destruct Hl0].
  intros _. unfold reaped in Hr. apply andb_true_iff in Hr as [Hn%bool_decide_eq_true Hr%Z.leb_le].
  split; [done|]. unfold reap_time in Hr. simpl in Hr.
  rewrite (wrap_i64_small (t / 1000000)) in Hr by (unfold in_i64; lia).
  destruct (pending_deletions (db n) !! h) as [a|]; [by eauto|].
  unfold grace_ms in Hr. rewrite (wrap_i64_small gc_grace_period_seconds) in Hr by (unfold in_i64; lia).
  rewrite (wrap_i64_small (_ * 1000)) in Hr by (unfold in_i64; lia).
  rewrite wrap_i64_small in Hr by (unfold in_i64; lia). lia.
Qed.

(** C22: what a sweep leaves behind.  After a sweep at a time [sweep_time] admits (it does not
    panic) the pending table has a row exactly for the local blocks no manifest references; a
    forced sweep leaves no such block. *)
Theorem gc_sweep_complete force t n :
  sweep_time gc_grace_period_seconds t →
  let n' := (sweep force t n).2 in
  (∀ h, is_Some (pending_deletions (db n') !! h) ↔
        is_Some (get_local_block_fid (db n') h) ∧ h ∉ compute_live_block_set (db n')) ∧
  (force = true → ∀ h, is_Some (get_local_block_fid (db n') h) → h ∈ compute_live_block_set (db n')).
Proof.
  intros Ht. destruct (sweep_rows force t n Ht) as (n' & -> & Hm & Hl & Hp).
  simpl. rewrite (live_same _ _ Hm). split.
  - intros h. rewrite Hp, Hl. unfold pending_after. set (sn := snapshot (db n) t).
    destruct (decide (is_Some (get_local_block_fid (db n) h))) as [Hs|Hn].
    + destruct (decide (h ∈ sn_live sn)) as [Hlive|Hlive].
      { split; [by intros [? ?]|]. intros [_ Hno]. by destruct Hno. }
      destruct (reaped _ _ _ _).
      { split; [by intros [? ?]|]. by intros [[? ?] _]. }
      split; [done|]. intros _. destruct (sn_pending sn !! h); eauto.
    + split; [by intros [? ?]|]. intros [Hs _]. destruct (reaped _ _ _ _); [by destruct Hs|done].
  - intros -> h. rewrite Hl. unfold reaped. simpl. intros Hs.
    destruct (decide (h ∈ compute_live_block_set (db n))) as [|Hno]; [done|].
    rewrite bool_decide_true in Hs by done. by destruct Hs.
Qed.
End properties.

Module GCRuns.
#[local] Existing Instances Reference.blake3_pad Reference.hex_lower Reference.uuid_text.
#[local] Existing Instances JsonReference.json_tokens order_id LocalBlob.local_blob LocalBlob.local_lawful LocalBlob.local_steady.

Definition hello : bytes := as_bytes "hello".
Definition h0 : bytes := blake3 hello.
Definition second : Z := 1000000000.

(** A node that stored a block no object names and swept once: the block is pending. *)
Definition orphan_node : Node :=
  let n := mkNodeState (empty_store "a" (Clock.new 0)) (LocalBlob.mkDisk ∅ []) in
  let n := (store_block (100 * second) hello 5 n).2 in
  (sweep_orphaned_blocks 60 false (110 * second) n).2.

Lemma gc_live_safe_witness :
  let n := mkNodeState (insert_object (db orphan_node) (120 * second) "bk" 0 "k" [h0] 5 "e") (blob orphan_node) in
  is_Some (get_local_block_fid (db n) h0) ∧
  ∃ n', sweep_orphaned_blocks 60 true (500 * second) n = (Ok tt, n') ∧
    get_local_block_fid (db n') h0 = get_local_block_fid (db n) h0.
Proof.
  intros n. split; [vm_compute; eauto|].
  destruct (gc_live_safe 60 true (500 * second) n) as (r & n' & He & Hr & Ho & _).
  rewrite Hr in He by (split_and!; [unfold second; lia|lia|reflexivity]).
  exists n'. split; [exact He|].
  apply (Ho "bk" "k" [h0] 5 "e"); [vm_compute; reflexivity|by left].
Defined.

Lemma gc_grace_respected_witness :
  h0 ∉ compute_live_block_set (db orphan_node) ∧
  ∃ deadline, pending_deletions (db orphan_node) !! h0 = Some deadline ∧ deadline ≤ 500 * second / 1000000.
Proof.
  apply (gc_grace_respected 60 (500 * second) orphan_node h0); try (unfold second; lia).
  - vm_compute. reflexivity.
  - vm_compute. eauto.
  - vm_compute. reflexivity.
Defined.

Lemma gc_sweep_complete_witness :
  is_Some (get_local_block_fid (db (sweep_orphaned_blocks 60 false (120 * second) orphan_node).2) h0) ∧
  is_Some (pending_deletions (db (sweep_orphaned_blocks 60 false (120 * second) orphan_node).2) !! h0).
Proof.
  destruct (gc_sweep_complete 60 false (120 * second) orphan_node) as [Hp _];
    [split_and!; [unfold second; lia|lia|reflexivity]|].
  split; [vm_compute; eauto|]. apply (proj2 (Hp h0)). split; [vm_compute; eauto|].
  apply (bool_decide_unpack _). vm_compute. exact I.
Defined.

Lemma gc_deadline_panics_witness :
  sweep_hash (2 ^ 63) false (mkSnapshot ∅ [h0] ∅ 100) (100 * second) h0 orphan_node = (Err SweepPanic, orphan_node).
Proof. apply gc_deadline_panics; [by apply not_elem_of_empty|reflexivity|reflexivity]. Defined.

(** The deduplication race.  A sweep marks while the block is an orphan past its grace;
    an upload then finds the block already local, so it stores nothing, and writes its
    manifest; the sweep goes on and deletes the block.  The object is listed and its only
    block can no longer be found, although no forced sweep was involved. *)
Theorem gc_dedup_race :
  let t := 500 * second in
  let sn := snapshot (db orphan_node) t in
  let upload :=
    let! h := store_block t hello 5 in
    do! write_db (λ s, insert_object s t "bk" 0 "k" [h] 5 "e");
    sweep_hash 60 false sn t h in
  let '(r, n) := upload orphan_node in
  r = Ok tt ∧ get_object (db n) "bk" "k" = Some ([h0], 5, "e") ∧
  (get_block (λ _ _, Err FetchError) t h0 n).1 = Err (BlockNotFound h0).
Proof. vm_compute. done. Qed.

(** The deletion race.  [reap] removes the location row and then the bytes.  An upload of the
    same content in between finds no row, so it writes the file again and records it; the
    sweep then deletes that file.  The node has the block on record as local, so it neither
    fetches it from a peer nor stores it again when the same content is uploaded once more,
    but its bytes are gone. *)
Theorem gc_delete_race :
  let t := 500 * second in
  let upload := let! h := store_block t hello 5 in write_db (λ s, insert_object s t "bk" 0 "k" [h] 5 "e") in
  let reap_and_upload :=
    let! fid := read_db (λ s, get_local_block_fid s h0) in
    do! write_db (λ s, (delete_local_block s h0).2);
    do! upload;
    do! delete_block h0 (default [] fid);
    do! write_db (λ s, remove_pending_deletion s h0);
    upload in
  let '(r, n) := reap_and_upload orphan_node in
  r = Ok tt ∧ get_object (db n) "bk" "k" = Some ([h0], 5, "e") ∧
  get_local_block_fid (db n) h0 = Some LocalBlob.LOCAL ∧
  content (blob n) h0 LocalBlob.LOCAL = None ∧
  (get_block (λ _ _, Ok hello) t h0 n).1 = Err BlobError.
Proof. vm_compute. done. Qed.
End GCRuns.
