(* ===== verification/Replication.v ===== *)
(** * The pull queue (src/storage.rs: [plan_replication], [drain_replication_queue])

    Each site pulls the blocks its queue names.  One cycle takes a page of due entries and
    decides for each, from metadata alone, whether to drop it, to defer it or where to fetch
    from; a failed fetch or promotion reschedules the entry with backoff. *)

From S2P Require Import Prelude Crates Clock Hashing Listing Policy Disk Tables Store BlockStore GC.

Inductive ReplicationPlan : Type :=
  | Drop
  | Defer
  | FetchFrom (candidates : list (string * string)).

Section replication.
Context `{!Blake3, !Hex, !UuidCodec, !Json, !IterOrder, !BlobStore}.
Context (noise_fetch_block : string → bytes → result error bytes).
Context (gc_grace_period_seconds : Z).

Definition plan_replication (locations : gmap string bytes) (local_id : string)
    (peers : gmap string string) : ReplicationPlan :=
  if decide (locations = ∅ ∨ is_Some (locations !! local_id)) then Drop else
  let candidates :=
    filter (λ p, is_Some (locations !! p.1)) (iter_order (map_to_list peers)) in
  match candidates with
  | [] => Defer
  | _ => FetchFrom candidates
  end.

(** The first candidate that answers. *)
Fixpoint fetch_first (hash : bytes) (candidates : list (string * string)) : option bytes :=
  match candidates with
  | [] => None
  | (_, peer_url) :: rest =>
      match noise_fetch_block peer_url hash with
      | Ok data => Some data
      | Err _ => fetch_first hash rest
      end
  end.

Definition defer_entry (t : SystemTime) (entry : ReplicationEntry) : io Node error unit :=
  write_db (λ s, defer_replication s t entry).

Definition drain_entry (t : SystemTime) (peers : gmap string string) (entry : ReplicationEntry)
    : io Node error unit :=
  let hash := e_hash entry in
  let! locations := read_db (λ s, default ∅ (get_block_fids s hash)) in
  let! local_id := read_db local_location_id in
  match plan_replication locations local_id peers with
  | Drop => write_db (λ s, dequeue_replication s hash)
  | Defer => defer_entry t entry
  | FetchFrom candidates =>
      let! outcome :=
        match fetch_first hash candidates with
        | Some data => attempt (promote_local t hash data)
        | None => ret (Err FetchError)
        end in
      match outcome with
      | Ok _ => write_db (λ s, dequeue_replication s hash)
      | Err _ => defer_entry t entry
      end
  end.

(** The backend of a node with its disk guard. *)
Record Backend : Type := mkBackend { node : Node; disk_guard : DiskGuard }.

Definition on_node {A} (m : io Node error A) : io Backend error A := λ b,
  let '(r, n) := m (node b) in (r, mkBackend n (disk_guard b)).

(** [statvfs_free] is what the file system reports when the guard is refreshed. *)
Definition drain_replication_queue (t : SystemTime) (statvfs_free : option Z) : io Backend error unit := λ b,
  match check (disk_guard b) with
  | Some _ =>
      let '(r, n') := force_sweep_orphaned_blocks gc_grace_period_seconds t (node b) in
      match r with
      | Err SweepPanic => (Err SweepPanic, mkBackend n' (disk_guard b))
      | _ =>
          let g := refresh (disk_guard b) statvfs_free in
          (Ok tt, mkBackend n' (set_local_usage g (wrap_u64 (local_block_bytes (db n')))))
      end
  | None =>
      on_node
        (let! entries := read_db (λ s, get_replication_queue s t) in
         match entries with
         | [] => ret tt
         | _ => let! peers := read_db get_peers_with_urls in for_each (drain_entry t peers) entries
         end) b
  end.

(** ** Locations *)

Lemma get_block_fids_lookup s h loc :
  default ∅ (get_block_fids s h) !! loc = l_fid <$> block_locations s !! (h, loc).
Proof.
  unfold get_block_fids.
  set (l := omap _ (map_to_list (block_locations s))).
  assert (NoDup l.*1) as Hnd.
  { unfold l. clear l. pose proof (NoDup_fst_map_to_list (block_locations s)) as Hnd.
    induction (map_to_list (block_locations s)) as [|[[h' loc'] r] l IH]; [constructor|].
    cbn [fmap list_fmap] in Hnd. apply NoDup_cons in Hnd as [Hni Hnd]. simpl.
    destruct (decide (h' = h)) as [->|]; [|by apply IH]. cbn [fmap list_fmap fst].
    apply NoDup_cons. split; [|by apply IH].
    intros ([loc'' fid] & Heq & ([[h'' l''] r''] & Hin & Hx)%list_elem_of_omap)%list_elem_of_fmap.
    simpl in Heq. subst loc''. destruct (decide (h'' = h)) as [->|]; [|done].
    injection Hx as -> _. apply Hni, list_elem_of_fmap. by exists ((h, loc'), r''). }
  assert ((list_to_map l : gmap string bytes) !! loc = l_fid <$> block_locations s !! (h, loc)) as Hl.
  { apply option_eq. intros fid. rewrite <- elem_of_list_to_map by done. unfold l.
    rewrite list_elem_of_omap, fmap_Some. split.
    - intros ([[h' loc'] r] & Hin & Hx). apply elem_of_map_to_list in Hin.
      destruct (decide (h' = h)) as [->|]; [|done]. injection Hx as -> <-. eauto.
    - intros (r & Hr & ->). exists ((h, loc), r). split; [by apply elem_of_map_to_list|].
      by rewrite decide_True. }
  destruct (decide (_ = ∅)) as [He|He]; [|exact Hl].
  cbn [default]. rewrite <- Hl, He. done.
Qed.

Lemma get_block_fids_empty s h :
  default ∅ (get_block_fids s h) = ∅ ↔ ∀ loc, block_locations s !! (h, loc) = None.
Proof.
  rewrite map_eq_iff. split; intros Hx loc; specialize (Hx loc).
  - rewrite get_block_fids_lookup, lookup_empty in Hx. by apply fmap_None in Hx.
  - by rewrite get_block_fids_lookup, Hx, lookup_empty.
Qed.

(** ** One entry *)

Context `{!LawfulBlob}.

(** The part of a node one entry depends on. *)
Record agree (h : bytes) (n n' : Node) : Prop := {
  agree_id : local_location_id (db n') = local_location_id (db n);
  agree_clock : clock (db n') = clock (db n);
  agree_queue : replication_queue (db n') !! (local_location_id (db n), h) =
                replication_queue (db n) !! (local_location_id (db n), h);
  agree_locations : ∀ loc, block_locations (db n') !! (h, loc) = block_locations (db n) !! (h, loc);
}.

Lemma agree_refl h n : agree h n n.
Proof. done. Qed.

Lemma agree_trans h n1 n2 n3 : agree h n1 n2 → agree h n2 n3 → agree h n1 n3.
Proof.
  intros [Hi1 Hc1 Hq1 Hl1] [Hi2 Hc2 Hq2 Hl2]. split; [congruence..| |].
  - rewrite Hi1 in Hq2. congruence.
  - intros loc. by rewrite Hl2.
Qed.

Lemma promote_agree t h d h' n : h' ≠ h → agree h' n (promote_block_locally t h d n).2.
Proof.
  intros Hne. unfold promote_block_locally, read_db, bind, on_blob, write_db, ret.
  destruct (get_local_block_fid (db n) h); [done|].
  destruct (put h d (blob n)) as [[fid|e] b']; [|done].
  split; try done. intros loc. simpl. by rewrite lww_upsert_lookup_ne by congruence.
Qed.

Lemma drain_entry_agree t peers e h n :
  h ≠ e_hash e → agree h n (drain_entry t peers e n).2.
Proof.
  intros Hne. assert (∀ n', agree h n n' → agree h n (defer_entry t e n').2) as Hd.
  { intros n' [Hi Hc Hq Hl]. split; try done. simpl. rewrite lookup_alter_ne by congruence. done. }
  assert (∀ n', agree h n n' → agree h n (write_db (λ s, dequeue_replication s (e_hash e)) n').2) as Hq.
  { intros n' [Hi Hc Hq Hl]. split; try done. simpl. rewrite lookup_delete_ne by congruence. done. }
  unfold drain_entry, read_db, bind. destruct (plan_replication _ _ _).
  - by apply Hq.
  - by apply Hd.
  - destruct (fetch_first _ _) as [d|]; unfold attempt, promote_local, ret; [|by apply Hd].
    pose proof (promote_agree t (e_hash e) d h n Hne) as Hp.
    destruct (promote_block_locally t (e_hash e) d n) as [[r|r] n']; [by apply Hq|by apply Hd].
Qed.

(** A drain of other entries leaves this entry's part alone. *)
Lemma drain_list_agree t peers es h n :
  Forall (λ e, h ≠ e_hash e) es → agree h n (for_each (drain_entry t peers) es n).2.
Proof.
  intros Hf. apply (for_each_invariant (agree h n)); [|done].
  intros e w He Hw. eapply agree_trans; [exact Hw|]. apply drain_entry_agree.
  by apply (proj1 (Forall_forall _ _) Hf).
Qed.

Lemma drain_entry_ok t peers e n : (drain_entry t peers e n).1 = Ok tt.
Proof.
  unfold drain_entry, read_db, bind. destruct (plan_replication _ _ _); try done.
  destruct (fetch_first _ _) as [d|]; unfold attempt, promote_local, ret; [|done].
  by destruct (promote_block_locally t (e_hash e) d n) as [[r|r] n'].
Qed.

Lemma drain_list_split t peers l1 e l2 n :
  let n1 := (for_each (drain_entry t peers) l1 n).2 in
  let n2 := (drain_entry t peers e n1).2 in
  for_each (drain_entry t peers) (l1 ++ e :: l2) n = for_each (drain_entry t peers) l2 n2.
Proof.
  revert n. induction l1 as [|x l1 IH]; intros n; simpl.
  - unfold bind. pose proof (drain_entry_ok t peers e n) as Hok.
    destruct (drain_entry t peers e n) as [r n']. simpl in *. by subst r.
  - unfold bind. pose proof (drain_entry_ok t peers x n) as Hok.
    destruct (drain_entry t peers x n) as [r n']. simpl in *. subst r. apply IH.
Qed.

(** What happens to an entry, by the state of its block. *)
Definition held (n : Node) (h : bytes) : Prop := is_Some (get_local_block_fid (db n) h).
Definition queued (n : Node) (h : bytes) : option QueueRow :=
  replication_queue (db n) !! (local_location_id (db n), h).

Lemma drain_entry_evicts t peers e n :
  queued (drain_entry t peers e n).2 (e_hash e) = None →
  queued n (e_hash e) = None ∨ (∀ loc, block_locations (db n) !! (e_hash e, loc) = None) ∨
  held (drain_entry t peers e n).2 (e_hash e).
Proof.
  unfold drain_entry, read_db, bind. set (h := e_hash e).
  assert (∀ n', queued (defer_entry t e n').2 h = None → queued n' h = None) as Hd.
  { intros n'. unfold queued. simpl. rewrite lookup_alter_eq. apply fmap_None. }
  unfold plan_replication. destruct (decide (_ ∨ _)) as [[He|Hs]|Hn].
  - intros _. right. left. by apply get_block_fids_empty.
  - intros _. right. right. rewrite get_block_fids_lookup in Hs. exact Hs.
  - destruct (filter _ _) as [|c cs]; [intros Hq; left; by apply Hd|].
    destruct (fetch_first _ _) as [d|]; unfold attempt, promote_local, ret;
      [|intros Hq; left; by apply Hd].
    unfold promote_block_locally, read_db, bind, on_blob, write_db, ret.
    destruct (get_local_block_fid (db n) h) as [fid|] eqn:Hl.
    { intros _. right. right. change (is_Some (get_local_block_fid (db n) h)).
      by rewrite Hl. }
    destruct (put h d (blob n)) as [[fid|er] b'].
    + intros _. right. right. unfold held, get_local_block_fid. simpl.
      apply fmap_is_Some, lww_upsert_is_Some. by left.
    + intros Hq. left. apply Hd in Hq. exact Hq.
Qed.

Lemma drain_entry_healthy t peers e n :
  healthy (blob n) → healthy (blob (drain_entry t peers e n).2).
Proof.
  intros Hh. unfold drain_entry, read_db, bind. destruct (plan_replication _ _ _); try done.
  destruct (fetch_first _ _) as [d|]; unfold attempt, promote_local, ret; [|done].
  unfold promote_block_locally, read_db, bind, on_blob, write_db, ret.
  destruct (get_local_block_fid (db n) _); [done|].
  destruct (healthy_put (e_hash e) d _ Hh) as [Hh' [fid Hf]].
  destruct (put (e_hash e) d (blob n)) as [r b']. simpl in *. by subst r.
Qed.

Lemma fetch_first_None h cs :
  fetch_first h cs = None ↔ ∀ p, p ∈ cs → ∃ err, noise_fetch_block p.2 h = Err err.
Proof.
  induction cs as [|[id url] cs IH]; simpl.
  - split; [by intros _ p ?%elem_of_nil|done].
  - setoid_rewrite elem_of_cons. destruct (noise_fetch_block url h) as [d|er] eqn:Hf.
    + split; [done|]. intros Hx. destruct (Hx (id, url)) as [er Her]; [by left|]. simpl in Her. congruence.
    + rewrite IH. split; [|by auto]. intros Hx p [->|Hp]; [by eauto|by auto].
Qed.

(** The candidates of an entry whose block is elsewhere. *)
Lemma plan_elsewhere n h peers :
  ¬ held n h → (∃ loc, is_Some (block_locations (db n) !! (h, loc))) →
  plan_replication (default ∅ (get_block_fids (db n) h)) (local_location_id (db n)) peers =
    match filter (λ p, is_Some (default ∅ (get_block_fids (db n) h) !! p.1)) (iter_order (map_to_list peers)) with
    | [] => Defer
    | cs => FetchFrom cs
    end.
Proof.
  intros Hh [loc Hloc]. unfold plan_replication. rewrite decide_False; [by destruct (filter _ _)|].
  intros [He|Hs].
  - rewrite get_block_fids_empty in He. rewrite He in Hloc. by destruct Hloc.
  - rewrite get_block_fids_lookup in Hs. by apply Hh.
Qed.

Lemma drain_entry_pulls t peers e n pid url d :
  healthy (blob n) → ¬ held n (e_hash e) →
  peers !! pid = Some url → is_Some (block_locations (db n) !! (e_hash e, pid)) →
  noise_fetch_block url (e_hash e) = Ok d →
  held (drain_entry t peers e n).2 (e_hash e) ∧ queued (drain_entry t peers e n).2 (e_hash e) = None.
Proof.
  intros Hh Hn Hp Hl Hf. unfold drain_entry, read_db, bind.
  rewrite (plan_elsewhere n) by (first [exact Hn|by exists pid]).
  assert ((pid, url) ∈ filter (λ p, is_Some (default ∅ (get_block_fids (db n) (e_hash e)) !! p.1))
            (iter_order (map_to_list peers))) as Hin.
  { apply list_elem_of_filter. split; [cbn [fst]; rewrite get_block_fids_lookup; by apply fmap_is_Some|].
    by apply elem_of_iter_order, elem_of_map_to_list. }
  destruct (filter _ _) as [|c cs]; [by apply elem_of_nil in Hin|].
  destruct (fetch_first _ _) as [d'|] eqn:Hff.
  2: { rewrite fetch_first_None in Hff. destruct (Hff _ Hin) as [er Her]. simpl in Her. congruence. }
  unfold attempt, promote_local, promote_block_locally, read_db, bind, on_blob, write_db, ret.
  destruct (get_local_block_fid (db n) (e_hash e)) as [fid|] eqn:Hloc.
  { destruct Hn. unfold held. rewrite Hloc. eauto. }
  destruct (healthy_put (e_hash e) d' _ Hh) as [Hh' [fid Hfid]].
  destruct (put (e_hash e) d' (blob n)) as [r b']. simpl in Hfid. subst r. split.
  - unfold held, get_local_block_fid. simpl. apply fmap_is_Some, lww_upsert_is_Some. by left.
  - unfold queued. simpl. by rewrite lookup_delete_eq.
Qed.

Lemma drain_entry_defers t peers e n row :
  ¬ held n (e_hash e) → (∃ loc, is_Some (block_locations (db n) !! (e_hash e, loc))) →
  (∀ url, ∃ err, noise_fetch_block url (e_hash e) = Err err) →
  queued n (e_hash e) = Some row →
  queued (drain_entry t peers e n).2 (e_hash e) =
    Some (mkQueue (wrap_i64 (now_millis (db n) t + replication_backoff_ms (e_attempts e)))
                  (q_attempts row + 1) (q_enqueued row)).
Proof.
  intros Hn Hl Hf Hq. unfold drain_entry, read_db, bind. rewrite plan_elsewhere by done.
  assert (queued (defer_entry t e n).2 (e_hash e) =
    Some (mkQueue (wrap_i64 (now_millis (db n) t + replication_backoff_ms (e_attempts e)))
                  (q_attempts row + 1) (q_enqueued row))) as Hd.
  { unfold queued in *. simpl. by rewrite lookup_alter_eq, Hq. }
  destruct (filter _ _) as [|c cs]; [exact Hd|].
  rewrite (proj2 (fetch_first_None _ _)); [exact Hd|]. intros p _. apply Hf.
Qed.

(** ** A page of entries *)

Lemma queue_entry s t e :
  e ∈ get_replication_queue s t →
  ∃ r, replication_queue s !! (local_location_id s, e_hash e) = Some r ∧ q_next r ≤ now_millis s t ∧
    e = mkEntry (e_hash e) (q_next r) (q_attempts r) (q_enqueued r).
Proof.
  unfold get_replication_queue. intros He%subseteq_take. revert He.
  rewrite elem_of_sort_by, list_elem_of_omap. intros ([[tg h] r] & Hin & Hx).
  apply elem_of_iter_order, elem_of_map_to_list in Hin.
  destruct (decide _) as [[-> Hle]|]; [|done]. injection Hx as <-. simpl. eauto.
Qed.

Lemma queue_NoDup s t : NoDup (e_hash <$> get_replication_queue s t).
Proof.
  unfold get_replication_queue. rewrite fmap_take. eapply sublist_NoDup; [|apply sublist_take].
  rewrite sort_by_perm, iter_order_perm.
  pose proof (NoDup_fst_map_to_list (replication_queue s)) as Hnd.
  induction (map_to_list (replication_queue s)) as [|[[tg h] r] l IH]; [constructor|].
  cbn [fmap list_fmap] in Hnd. apply NoDup_cons in Hnd as [Hni Hnd]. simpl.
  destruct (decide _) as [[-> Hle]|]; [|by apply IH]. cbn [fmap list_fmap e_hash].
  apply NoDup_cons. split; [|by apply IH].
  intros (e & Heq & ([[tg' h'] r'] & Hin & Hx)%list_elem_of_omap)%list_elem_of_fmap.
  destruct (decide _) as [[-> _]|]; [|done]. injection Hx as <-. simpl in Heq. subst h'.
  apply Hni, list_elem_of_fmap. by exists ((local_location_id s, h), r').
Qed.

(** An entry of the page is processed once, in a state that has its part unchanged, and
    nothing after it touches that part. *)
Lemma drain_page t peers es e n :
  NoDup (e_hash <$> es) → e ∈ es →
  ∃ n1, agree (e_hash e) n n1 ∧ (healthy (blob n) → healthy (blob n1)) ∧
    agree (e_hash e) (drain_entry t peers e n1).2 (for_each (drain_entry t peers) es n).2.
Proof.
  intros Hnd (l1 & l2 & ->)%list_elem_of_split.
  rewrite fmap_app in Hnd. cbn [fmap list_fmap] in Hnd.
  apply NoDup_app in Hnd as (_ & Hdis & [Hni _]%NoDup_cons).
  exists (for_each (drain_entry t peers) l1 n).2. split_and!.
  - apply drain_list_agree, Forall_forall. intros x Hx Heq.
    apply (Hdis (e_hash x)); [by apply list_elem_of_fmap_2|]. rewrite <- Heq. by left.
  - intros Hh. apply (for_each_invariant (λ w, healthy (blob w))); [|done].
    intros x w _. apply drain_entry_healthy.
  - rewrite drain_list_split. apply drain_list_agree, Forall_forall. intros x Hx Heq.
    apply Hni. rewrite Heq. by apply list_elem_of_fmap_2.
Qed.

Lemma agree_queued h n n' : agree h n n' → queued n' h = queued n h.
Proof. intros [Hi _ Hq _]. unfold queued. by rewrite Hi. Qed.

Lemma agree_held h n n' : agree h n n' → held n' h ↔ held n h.
Proof. intros [Hi _ _ Hl]. unfold held, get_local_block_fid. by rewrite Hi, Hl. Qed.

(** The state after a cycle that is not paused. *)
Lemma drain_unpaused t statvfs b :
  check (disk_guard b) = None →
  drain_replication_queue t statvfs b =
    (let '(r, n) := for_each (drain_entry t (get_peers_with_urls (db (node b))))
                      (get_replication_queue (db (node b)) t) (node b) in
     (r, mkBackend n (disk_guard b))).
Proof.
  intros Hg. unfold drain_replication_queue, on_node, read_db, bind. rewrite Hg.
  by destruct (get_replication_queue (db (node b)) t).
Qed.

Lemma drain_list_ok t peers es n : (for_each (drain_entry t peers) es n).1 = Ok tt.
Proof.
  revert n. induction es as [|e es IH]; intros n; [done|]. simpl. unfold bind.
  pose proof (drain_entry_ok t peers e n) as Hok.
  destruct (drain_entry t peers e n) as [r n']. simpl in Hok. subst r. apply IH.
Qed.

(** ** Properties *)

(** C16: the queue never loses a block.  After a cycle, paused by the disk guard or not, and
    whatever fetches and writes failed, an entry of this site's queue is still there unless
    the block is now held locally or had no known location.  The cycle completes unless the
    forced sweep of a paused one panics on its deadline ([sweep_time] excludes that). *)
Theorem drain_never_evicts t statvfs b h row :
  queued (node b) h = Some row →
  let '(r, b') := drain_replication_queue t statvfs b in
  (sweep_time gc_grace_period_seconds t → r = Ok tt) ∧
              (is_Some (queued (node b') h) ∨ held (node b') h ∨
               ∀ loc, block_locations (db (node b)) !! (h, loc) = None).
Proof.
  intros Hq. destruct (check (disk_guard b)) as [trip|] eqn:Hc.
  - unfold drain_replication_queue. rewrite Hc. unfold force_sweep_orphaned_blocks.
    pose proof (sweep_rows gc_grace_period_seconds true t (node b)) as Hrows.
    destruct (sweep_manifests gc_grace_period_seconds true t (node b)) as (_ & _ & _ & _ & Hqq & Hi).
    assert (∀ n', n' = (sweep_orphaned_blocks gc_grace_period_seconds true t (node b)).2 → is_Some (queued n' h)) as Hkeep.
    { intros n' ->. unfold queued in *. rewrite Hqq, Hi, Hq. eauto. }
    destruct (sweep_orphaned_blocks _ true t (node b)) as [r n']. simpl in Hkeep.
    assert (sweep_time gc_grace_period_seconds t → r = Ok tt) as Hr
      by (intros Ht; by destruct (Hrows Ht) as (? & [= -> ->] & _)).
    destruct r as [|[]]; (split; [first [done|intros Ht; by specialize (Hr Ht)]|left; by apply Hkeep]).
  - rewrite drain_unpaused by done. set (peers := get_peers_with_urls _). set (es := get_replication_queue _ _).
    pose proof (drain_list_ok t peers es (node b)) as Hok.
    assert (is_Some (queued (for_each (drain_entry t peers) es (node b)).2 h) ∨
      held (for_each (drain_entry t peers) es (node b)).2 h ∨
      ∀ loc, block_locations (db (node b)) !! (h, loc) = None) as Hgoal.
    2: { destruct (for_each _ _ _) as [r n']. simpl in *. by subst r. }
    clear Hok. destruct (decide (h ∈ e_hash <$> es)) as [(e & -> & He)%list_elem_of_fmap|Hno].
    + destruct (drain_page t peers es e (node b) (queue_NoDup _ _) He) as (n1 & H1a & _ & H2a).
      rewrite (agree_queued _ _ _ H2a), (agree_held _ _ _ H2a).
      destruct (queued (drain_entry t peers e n1).2 (e_hash e)) as [row'|] eqn:Hq'; [left; eauto|].
      apply drain_entry_evicts in Hq' as [Hq'|[Hq'|Hq']].
      * rewrite (agree_queued _ _ _ H1a), Hq in Hq'. done.
      * right. right. intros loc. by rewrite <- (agree_locations _ _ _ H1a).
      * right. by left.
    + left. assert (agree h (node b) (for_each (drain_entry t peers) es (node b)).2) as Ha.
      { apply drain_list_agree, Forall_forall. intros x Hx ->. apply Hno. by apply list_elem_of_fmap_2. }
      rewrite (agree_queued _ _ _ Ha), Hq. eauto.
Qed.

(** C30: an entry of the page is pulled.  In a cycle that the disk guard does not pause, on a
    working backend, the block of every entry of the cycle's page (the at most 500 due rows
    [get_replication_queue] returns, not every due row) that is not yet local and that some
    known peer both has on record and delivers is held locally after the cycle, and its entry
    is gone. *)
Theorem drain_pulls t statvfs b e pid url d :
  check (disk_guard b) = None → healthy (blob (node b)) →
  e ∈ get_replication_queue (db (node b)) t → ¬ held (node b) (e_hash e) →
  get_peers_with_urls (db (node b)) !! pid = Some url →
  is_Some (block_locations (db (node b)) !! (e_hash e, pid)) →
  noise_fetch_block url (e_hash e) = Ok d →
  let b' := (drain_replication_queue t statvfs b).2 in
  held (node b') (e_hash e) ∧ queued (node b') (e_hash e) = None.
Proof.
  intros Hc Hh He Hn Hp Hl Hf. rewrite drain_unpaused by done.
  destruct (drain_page t (get_peers_with_urls (db (node b))) _ e (node b) (queue_NoDup _ _) He)
    as (n1 & Ha1 & Hh1 & Ha2).
  destruct (for_each _ _ _) as [r n']. simpl in *.
  rewrite (agree_queued _ _ _ Ha2), (agree_held _ _ _ Ha2).
  eapply drain_entry_pulls; eauto.
  - by rewrite (agree_held _ _ _ Ha1).
  - by rewrite (agree_locations _ _ _ Ha1).
Qed.

(** A due entry whose block no peer delivers is kept and rescheduled: one more attempt,
    due again after the backoff for the attempts so far, first enqueued when it was. *)
Theorem drain_defers t statvfs b e :
  check (disk_guard b) = None →
  e ∈ get_replication_queue (db (node b)) t → ¬ held (node b) (e_hash e) →
  (∃ loc, is_Some (block_locations (db (node b)) !! (e_hash e, loc))) →
  (∀ url, ∃ err, noise_fetch_block url (e_hash e) = Err err) →
  queued (node (drain_replication_queue t statvfs b).2) (e_hash e) =
    Some (mkQueue (wrap_i64 (now_millis (db (node b)) t + replication_backoff_ms (e_attempts e)))
                  (e_attempts e + 1) (e_enqueued_at e)).
Proof.
  intros Hc He Hn [loc Hl] Hf. rewrite drain_unpaused by done.
  destruct (drain_page t (get_peers_with_urls (db (node b))) _ e (node b) (queue_NoDup _ _) He)
    as (n1 & Ha1 & _ & Ha2).
  destruct (queue_entry _ _ _ He) as (r & Hr & _ & Hre).
  destruct (for_each _ _ _) as [rr n']. simpl in *. rewrite (agree_queued _ _ _ Ha2).
  rewrite (drain_entry_defers _ _ _ _ r); [|by rewrite (agree_held _ _ _ Ha1)| |done|].
  - unfold now_millis, now_micros. rewrite (agree_clock _ _ _ Ha1). by rewrite Hre.
  - exists loc. by rewrite (agree_locations _ _ _ Ha1).
  - by rewrite (agree_queued _ _ _ Ha1).
Qed.
End replication.

Module ReplicationRuns.
#[local] Existing Instances Reference.blake3_pad Reference.hex_lower Reference.uuid_text.
#[local] Existing Instances JsonReference.json_tokens order_id LocalBlob.local_blob LocalBlob.local_lawful.

Definition hello : bytes := as_bytes "hello".
Definition h0 : bytes := blake3 hello.

(** Site [a] knows peer [b] and has applied [b]'s announcement of a block. *)
Definition announce : FactRecord Value :=
  mkRecord 1 10 (BlockAnnounce (hex_encode h0) "b" (hex_encode LocalBlob.LOCAL) 5).
Definition queued_store : Store :=
  let s := record_peer (empty_store "a" (Clock.new 0)) 1000000 "b" "http://b" in
  match apply_fact s 2000000 announce with Ok s' => s' | Err _ => s end.
Definition waiting : Backend :=
  mkBackend (mkNodeState queued_store (LocalBlob.mkDisk ∅ [])) disabled.
Definition entry : ReplicationEntry := mkEntry h0 0 0 2.

Definition up (_ : string) (_ : bytes) : result error bytes := Ok hello.
Definition down (_ : string) (_ : bytes) : result error bytes := Err FetchError.

Lemma entry_due : entry ∈ get_replication_queue (db (node waiting)) 5000000.
Proof.
  assert (get_replication_queue (db (node waiting)) 5000000 = [entry]) as -> by (vm_compute; reflexivity).
  by left.
Qed.

Lemma not_held : ¬ held (node waiting) (e_hash entry).
Proof. vm_compute. by intros [? ?]. Qed.

Lemma drain_never_evicts_witness :
  let '(r, b') := drain_replication_queue down 60 5000000 None waiting in
  (sweep_time 60 5000000 → r = Ok tt) ∧
  (is_Some (queued (node b') h0) ∨ held (node b') h0 ∨
   ∀ loc, block_locations (db (node waiting)) !! (h0, loc) = None).
Proof.
  apply (drain_never_evicts down 60 5000000 None waiting h0 (mkQueue 0 0 2)).
  vm_compute. reflexivity.
Defined.

Lemma drain_pulls_witness :
  let b' := (drain_replication_queue up 60 5000000 None waiting).2 in
  held (node b') h0 ∧ queued (node b') h0 = None.
Proof.
  apply (drain_pulls up 60 5000000 None waiting entry "b" "http://b" hello);
    [reflexivity|reflexivity|exact entry_due|exact not_held|vm_compute; reflexivity
    |vm_compute; eauto|reflexivity].
Defined.

Lemma drain_defers_witness :
  queued (node (drain_replication_queue down 60 5000000 None waiting).2) h0 = Some (mkQueue 60005 1 2).
Proof.
  etransitivity; [apply (drain_defers down 60 5000000 None waiting entry)|].
  - reflexivity.
  - exact entry_due.
  - exact not_held.
  - exists "b". vm_compute. eauto.
  - intros url. by exists FetchError.
  - vm_compute. reflexivity.
Defined.
End ReplicationRuns.
