(* ===== verification/S3.v ===== *)
(** * The S3 handlers (src/storage.rs: [impl S3 for StorageBackend])

    One definition per handler, over the interfaces of the store, the block store and the
    chunker.  A handler is a computation on the node's backend that may stop with an S3
    error code; the request's credentials and inputs are its arguments.  The backend has a
    database, as [StorageBackend::new] gives it one (without, [authorize] admits everything;
    only unit tests build such a backend).  Response fields that are the time of the answer
    ([last_modified], [initiated]) or that only repeat the request are left out; the messages
    of errors are in [Handlers]; the blocks after the first of a GET are fetched in order (the
    code keeps two fetches in flight and delivers them in order). *)

From stdpp Require Import pretty.
From S2P Require Import Prelude Crates Clock Hashing Chunking Range Listing Policy Disk Tables Store.
From S2P Require Import Objects BlockStore GC Replication.

Inductive S3ErrorCode : Type :=
  | AccessDenied | InternalError | InvalidAccessKeyId | InvalidArgument | InvalidRange
  | InvalidRequest | NoSuchKey | NoSuchUpload | NotImplemented | ServiceUnavailable | SlowDown.

#[global] Instance S3ErrorCode_eq_dec : EqDecision S3ErrorCode.
Proof. solve_decision. Defined.

(** How a handler ends early: with an S3 error, by a panic of its task, or not at all. *)
Inductive stop : Type :=
  | Fault (code : S3ErrorCode)
  | TaskPanic
  | Diverges.

(** ** Text of requests and responses *)

Definition dquote : ascii := Ascii.Ascii false true false false false true false false.
Definition quoted (etag : string) : string := String dquote (etag +:+ String dquote "").

(** [trim_matches] for the double quote. *)
Fixpoint trim_front (b : bytes) : bytes :=
  match b with
  | c :: b' => if decide (c = dquote) then trim_front b' else b
  | [] => []
  end.
Definition trim_quotes (s : string) : string :=
  of_bytes (rev (trim_front (rev (trim_front (as_bytes s))))).

(** [str::parse] for integers: an optional sign ([-] only for signed types), then decimal
    digits, within the type's bounds. *)
Definition digit (c : ascii) : option Z :=
  let n := Z.of_N (N_of_ascii c) in if (48 <=? n) && (n <=? 57) then Some (n - 48) else None.
Fixpoint parse_digits (acc : Z) (s : string) : option Z :=
  match s with
  | EmptyString => Some acc
  | String c s' => d ← digit c; parse_digits (acc * 10 + d) s'
  end.
Definition parse_nat (s : string) : option Z :=
  match s with EmptyString => None | _ => parse_digits 0 s end.
Definition parse_u64 (s : string) : option Z :=
  v ← match s with String "+" s' => parse_nat s' | _ => parse_nat s end;
  if v <? 2 ^ 64 then Some v else None.
Definition parse_i32 (s : string) : option Z :=
  v ← match s with
      | String "+" s' => parse_nat s'
      | String "-" s' => Z.opp <$> parse_nat s'
      | _ => parse_nat s
      end;
  if (- 2 ^ 31 <=? v) && (v <? 2 ^ 31) then Some v else None.

(** [splitn(2, '-')] with both pieces present. *)
Fixpoint split_dash (s : string) : option (string * string) :=
  match s with
  | EmptyString => None
  | String c s' =>
      if decide (c = "-"%char) then Some ("", s')
      else '(a, b) ← split_dash s'; Some (String c a, b)
  end.

(** A count limit of a request: [unwrap_or(1000).max(1) as usize]. *)
Definition page_limit (max : option Z) : nat := Z.to_nat (Z.max (default 1000 max) 1).

(** [CopySource] *)
Inductive CopySource : Type :=
  | FromBucket (bucket key : string)
  | FromAccessPoint.

Section s3.
Context `{!Blake3, !Md5, !Hex, !UuidCodec, !Json, !IterOrder, !BlobStore, !ChunkingStrategy}.
Context (noise_fetch_block : string → bytes → result error bytes).

Abbreviation handler A := (io Backend stop A).

(** Calls of the metadata store and of the block store from a handler. *)
Definition ask {A} (f : Store → A) : handler A := λ b, (Ok (f (db (node b))), b).
Definition tell (f : Store → Store) : handler unit := λ b,
  (Ok tt, mkBackend (mkNodeState (f (db (node b))) (blob (node b))) (disk_guard b)).
Definition block_call {A} (code : S3ErrorCode) (m : io Node error A) : handler A :=
  map_err (λ _, Fault code) (on_node m).
(** [let _ = m.await]: the outcome is ignored. *)
Definition ignore {A} (m : io Node error A) : handler unit :=
  let! _r := attempt (on_node m) in ret tt.
Definition reject {A} (code : S3ErrorCode) : handler A := fail (Fault code).
Definition ok_or {A} (code : S3ErrorCode) (o : option A) : handler A :=
  match o with Some a => ret a | None => reject code end.

(** ** Authorization and admission *)

(** [ShardscapeAuth::get_secret_key] *)
Definition get_secret_key (access_key : string) : handler string :=
  let! user := ask (λ s, get_user s access_key) in
  match user with
  | Ok (Some (secret, _)) => ret secret
  | Ok None => reject InvalidAccessKeyId
  | Err _ => reject InternalError
  end.

Definition authorize (credentials : option string) (action : string) (bucket key : option string)
    : handler unit :=
  match credentials with
  | None => reject AccessDenied
  | Some access_key =>
      let! user := ask (λ s, get_user s access_key) in
      match user with
      | Ok (Some (_, policy)) =>
          if is_allowed policy action (resource_name bucket key) then ret tt else reject AccessDenied
      | Ok None => reject AccessDenied
      | Err _ => reject InternalError
      end
  end.

Definition check_writable : handler unit := λ b,
  match check (disk_guard b) with
  | Some _ => (Err (Fault ServiceUnavailable), b)
  | None => (Ok tt, b)
  end.

(** ** The upload loop *)

(** Its variables: the chunk buffer, the hashes and size so far and the bytes hashed by
    md5. *)
Record Upload : Type := mkUpload {
  current_chunk : bytes; block_hashes : list bytes; total_size : Z; digested : bytes
}.
Definition start_upload : Upload := mkUpload [] [] 0 [].

Definition store_one (t : SystemTime) (u : Upload) (block_data : bytes) : handler Upload :=
  let len := blen block_data in
  let! hash := block_call InternalError (store_block t block_data len) in
  ret (mkUpload (current_chunk u) (block_hashes u ++ [hash]) (wrap_i64 (total_size u + len)) (digested u)).

Fixpoint store_all (t : SystemTime) (u : Upload) (chunks : list bytes) : handler Upload :=
  match chunks with
  | [] => ret u
  | c :: cs => let! u := store_one t u c in store_all t u cs
  end.

Definition on_chunk (t : SystemTime) (u : Upload) (chunk : bytes) : handler Upload :=
  match process (current_chunk u ++ chunk) with
  | Err LoopsForever => fail Diverges
  | Err ChunkerPanics => fail TaskPanic
  | Ok (chunks, rest) =>
      store_all t (mkUpload rest (block_hashes u) (total_size u) (digested u ++ chunk)) chunks
  end.

(** The frames of a body; [None] is an error of the stream. *)
Fixpoint read_body (t : SystemTime) (u : Upload) (body : list (option bytes)) : handler Upload :=
  match body with
  | [] => ret u
  | None :: _ => reject InternalError
  | Some chunk :: body' => let! u := on_chunk t u chunk in read_body t u body'
  end.

Definition finish_upload (t : SystemTime) (u : Upload) : handler Upload :=
  match finalize (current_chunk u) with
  | (Some block_data, rest) =>
      store_one t (mkUpload rest (block_hashes u) (total_size u) (digested u)) block_data
  | (None, rest) => ret (mkUpload rest (block_hashes u) (total_size u) (digested u))
  end.

Definition upload_etag (u : Upload) : string := hex_encode (md5 (digested u)).

(** [remove_reference] of the blocks an overwritten or deleted object had. *)
Definition release_blocks (bucket key : string) : handler unit :=
  let! old := ask (λ s, Store.get_object s bucket key) in
  match old with
  | Some (blocks, _, _) => for_each (λ h, ignore (remove_reference h)) blocks
  | None => ret tt
  end.

(** ** Objects *)

Definition put_object (credentials : option string) (t : SystemTime) (bucket key : string)
    (body : option (list (option bytes))) : handler string :=
  do! authorize credentials "s3:PutObject" (Some bucket) (Some key);
  do! check_writable;
  let shard_id := compute_shard_id key in
  let! body := ok_or InvalidRequest body in
  let! u := read_body t start_upload body in
  let! u := finish_upload t u in
  let etag := upload_etag u in
  do! release_blocks bucket key;
  do! tell (λ s, insert_object s t bucket shard_id key (block_hashes u) (total_size u) etag);
  ret (quoted etag).

(** A response whose body is the first frame and the blocks still to be streamed. *)
Record GetObjectOutput : Type := mkGet {
  content_length : Z;
  content_range : option (Z * Z * Z);
  get_e_tag : string;
  first_frame : option bytes;
  rest_plan : list (bytes * Z * option Z);
}.

(** The plan of a GET, with the content length and range it announces. *)
Definition get_plan (blocks : list bytes) (size : Z) (range : option Range)
    : handler (Z * option (Z * Z * Z) * list (bytes * Z * option Z)) :=
  match range with
  | None => ret (size, None, (λ h, (h, 0, None)) <$> blocks)
  | Some range =>
      let! ' (start, end_) := ok_or InvalidRange (resolve_range range (wrap_u64 size)) in
      let! sizes := ask (λ s, block_sizes s blocks) in
      ret (wrap_i64 (end_ - start + 1), Some (start, end_, size),
           (λ '(i, skip, take), (nth i blocks [], skip, Some take)) <$>
             slice_blocks_for_range sizes start end_)
  end.

Definition get_object (credentials : option string) (t : SystemTime) (bucket key : string)
    (range : option Range) : handler GetObjectOutput :=
  do! authorize credentials "s3:GetObject" (Some bucket) (Some key);
  let! found := ask (λ s, Store.get_object s bucket key) in
  let! ' (blocks, size, etag) := ok_or NoSuchKey found in
  let! ' (length, crange, plan) := get_plan blocks size range in
  match plan with
  | [] => ret (mkGet length crange (quoted etag) None [])
  | (hash, skip, take) :: rest =>
      let! data := block_call SlowDown (get_block noise_fetch_block t hash) in
      ret (mkGet length crange (quoted etag) (Some (slice_block_bytes data skip take)) rest)
  end.

(** The frames the server drains from the response, in order. *)
Definition stream_block (t : SystemTime) (p : bytes * Z * option Z) : handler bytes :=
  let '(hash, skip, take) := p in
  let! data := block_call InternalError (get_block noise_fetch_block t hash) in
  ret (slice_block_bytes data skip take).
Definition stream_body (t : SystemTime) (out : GetObjectOutput) : handler bytes :=
  let! rest := map_each (stream_block t) (rest_plan out) in
  ret (default [] (first_frame out) ++ concat rest).

Definition head_object (credentials : option string) (bucket key : string) : handler (Z * string) :=
  do! authorize credentials "s3:HeadObject" (Some bucket) (Some key);
  let! found := ask (λ s, Store.get_object s bucket key) in
  let! ' (_, size, etag) := ok_or NoSuchKey found in
  ret (size, quoted etag).

Definition delete_object (credentials : option string) (t : SystemTime) (bucket key : string) : handler unit :=
  do! authorize credentials "s3:DeleteObject" (Some bucket) (Some key);
  do! release_blocks bucket key;
  tell (λ s, Store.delete_object s t bucket key).

(** The keys deleted; deletion in the store has no error of its own. *)
Definition delete_objects (credentials : option string) (t : SystemTime) (bucket : string)
    (keys : list string) : handler (list string) :=
  do! authorize credentials "s3:DeleteObject" (Some bucket) None;
  map_each (λ key, do! release_blocks bucket key;
                   do! tell (λ s, Store.delete_object s t bucket key);
                   ret key) keys.

Definition copy_object (credentials : option string) (t : SystemTime) (bucket key : string)
    (copy_source : CopySource) : handler string :=
  do! authorize credentials "s3:PutObject" (Some bucket) (Some key);
  let! ' (src_bucket, src_key) :=
    match copy_source with
    | FromBucket b k => ret (b, k)
    | FromAccessPoint => reject NotImplemented
    end in
  let! found := ask (λ s, Store.get_object s src_bucket src_key) in
  let! ' (blocks, size, etag) := ok_or NoSuchKey found in
  let shard_id := compute_shard_id key in
  do! release_blocks bucket key;
  do! for_each (λ h, ignore (add_usage h)) blocks;
  do! tell (λ s, insert_object s t bucket shard_id key blocks size etag);
  ret (quoted etag).

(** ** Buckets and listings *)

(** Names with the creation instant, in microseconds after the epoch. *)
Definition list_buckets (credentials : option string) : handler (list (string * Z)) :=
  do! authorize credentials "s3:ListAllMyBuckets" None None;
  let! names := ask Store.list_buckets in
  ret ((λ '(name, created), (name, Z.max created 0)) <$> names).

Definition create_bucket (credentials : option string) (bucket : string) : handler unit :=
  authorize credentials "s3:CreateBucket" (Some bucket) None.
Definition delete_bucket (credentials : option string) (bucket : string) : handler unit :=
  authorize credentials "s3:DeleteBucket" (Some bucket) None.
Definition head_bucket (credentials : option string) (bucket : string) : handler unit :=
  authorize credentials "s3:ListBucket" (Some bucket) None.

Definition call_list_page (bucket : string) (start_after prefix delimiter : option string)
    (max_keys : nat) : handler page :=
  let! r := ask (λ s, list_page s bucket start_after prefix delimiter max_keys) in
  match r with
  | Some (Ok p) => ret p
  | Some (Err Panic) => fail TaskPanic
  | None => fail Diverges
  end.

Definition list_entry (o : obj) : obj := let '(key, size, etag) := o in (key, size, quoted etag).
Definition none_if_empty {A} (l : list A) : option (list A) :=
  match l with [] => None | _ => Some l end.

Record ListOutput : Type := mkList {
  lo_name : string; lo_prefix : option string; lo_delimiter : option string;
  lo_contents : list obj; lo_common_prefixes : option (list string);
  lo_is_truncated : bool; lo_key_count : option nat; lo_max_keys : nat; lo_next : option string
}.

Definition list_objects_v2 (credentials : option string) (bucket : string)
    (prefix continuation_token start_after delimiter : option string) (max_keys : option Z)
    : handler ListOutput :=
  do! authorize credentials "s3:ListBucket" (Some bucket) None;
  let start_after := match continuation_token with Some c => Some c | None => start_after end in
  let max_keys := page_limit max_keys in
  let! ' (kept, common, is_truncated, next) :=
    call_list_page bucket start_after prefix delimiter max_keys in
  let contents := list_entry <$> kept in
  ret (mkList bucket prefix delimiter contents (none_if_empty common) is_truncated
         (Some (length contents + length common)%nat) max_keys next).

Definition list_object_versions (credentials : option string) (bucket : string)
    (prefix key_marker delimiter : option string) (max_keys : option Z)
    : handler (ListOutput * option string) :=
  do! authorize credentials "s3:ListBucketVersions" (Some bucket) None;
  let max_keys := page_limit max_keys in
  let! ' (kept, common, is_truncated, next) :=
    call_list_page bucket key_marker prefix delimiter max_keys in
  ret (mkList bucket prefix delimiter (list_entry <$> kept) (none_if_empty common) is_truncated
         None max_keys next, if is_truncated then Some "null" else None).

(** The source repeats the body of [list_page] here. *)
Definition list_objects (credentials : option string) (bucket : string)
    (prefix marker delimiter : option string) (max_keys : option Z) : handler ListOutput :=
  do! authorize credentials "s3:ListBucket" (Some bucket) None;
  let max_keys := page_limit max_keys in
  let! ' (kept, common, is_truncated, next) :=
    call_list_page bucket marker prefix delimiter max_keys in
  ret (mkList bucket prefix delimiter (list_entry <$> kept) (none_if_empty common) is_truncated
         None max_keys next).

(** ** Multipart uploads *)

Definition parse_upload_id (upload_id : string) : handler Uuid :=
  ok_or InvalidRequest (uuid_parse_str upload_id).
Definition upload_key (bucket : string) (upload_id : Uuid) : handler string :=
  let! key := ask (λ s, get_multipart_key s bucket upload_id) in ok_or NoSuchUpload key.

(** [fresh] is the identifier [Uuid::new_v4] draws. *)
Definition create_multipart_upload (credentials : option string) (fresh : Uuid) (bucket key : string)
    : handler string :=
  do! authorize credentials "s3:PutObject" (Some bucket) (Some key);
  do! tell (λ s, insert_multipart s bucket fresh key);
  ret (uuid_to_string fresh).

Definition upload_part (credentials : option string) (t : SystemTime) (bucket key upload_id : string)
    (part_number : Z) (body : option (list (option bytes))) : handler string :=
  do! authorize credentials "s3:PutObject" (Some bucket) (Some key);
  do! check_writable;
  let! uid := parse_upload_id upload_id in
  let! _k := upload_key bucket uid in
  let! body := ok_or InvalidRequest body in
  let! u := read_body t start_upload body in
  let! u := finish_upload t u in
  let etag := upload_etag u in
  do! tell (λ s, insert_part s bucket uid part_number (block_hashes u) (total_size u) etag);
  ret (quoted etag).

(** The source range of a part copy, inclusive. *)
Definition copy_range (copy_source_range : option string) (src_size : Z) : handler (Z * Z) :=
  match copy_source_range with
  | None => ret (0, Z.max (wrap_u64 src_size - 1) 0)
  | Some range_str =>
      let range_str := default range_str (strip_prefix range_str "bytes=") in
      let! ' (a, b) := ok_or InvalidArgument (split_dash range_str) in
      let! start := ok_or InvalidArgument (parse_u64 a) in
      let! end_ := ok_or InvalidArgument (parse_u64 b) in
      ret (start, end_)
  end.

Fixpoint copy_slices (t : SystemTime) (u : Upload) (src_blocks : list bytes)
    (slices : list (nat * Z * Z)) : handler Upload :=
  match slices with
  | [] => ret u
  | (i, skip, take) :: rest =>
      let! data := block_call InternalError (get_block noise_fetch_block t (nth i src_blocks [])) in
      let! u := on_chunk t u (slice_block_bytes data skip (Some take)) in
      copy_slices t u src_blocks rest
  end.

Definition upload_part_copy (credentials : option string) (t : SystemTime)
    (bucket key upload_id : string) (part_number : Z) (copy_source : CopySource)
    (copy_source_range : option string) : handler string :=
  do! authorize credentials "s3:PutObject" (Some bucket) (Some key);
  do! check_writable;
  let! uid := parse_upload_id upload_id in
  let! _k := upload_key bucket uid in
  let! ' (src_bucket, src_key) :=
    match copy_source with
    | FromBucket b k => ret (b, k)
    | FromAccessPoint => reject NotImplemented
    end in
  let! found := ask (λ s, Store.get_object s src_bucket src_key) in
  let! ' (src_blocks, src_size, _) := ok_or NoSuchKey found in
  let! ' (start, end_) := copy_range copy_source_range src_size in
  let! sizes := ask (λ s, block_sizes s src_blocks) in
  let! u := copy_slices t start_upload src_blocks (slice_blocks_for_range sizes start end_) in
  let! u := finish_upload t u in
  let etag := upload_etag u in
  do! tell (λ s, insert_part s bucket uid part_number (block_hashes u) (total_size u) etag);
  ret (quoted etag).

(** The concatenation of the parts: their blocks, their total size and the digests of their
    etags. *)
Fixpoint assemble (ps : list part) (hashes : list bytes) (total : Z) (etags : bytes)
    : handler (list bytes * Z * bytes) :=
  match ps with
  | [] => ret (hashes, total, etags)
  | p :: ps' =>
      let! etag_bytes := ok_or InternalError (hex_decode (trim_quotes (part_etag p))) in
      assemble ps' (hashes ++ part_blocks p) (wrap_i64 (total + part_size p)) (etags ++ etag_bytes)
  end.

Definition complete_multipart_upload (credentials : option string) (t : SystemTime)
    (bucket key upload_id : string) : handler string :=
  do! authorize credentials "s3:PutObject" (Some bucket) (Some key);
  let! uid := parse_upload_id upload_id in
  let! stored_key := upload_key bucket uid in
  if decide (stored_key ≠ key) then reject InvalidRequest else
  let! ps := ask (λ s, list_parts s bucket uid) in
  let! ' (hashes, total, etags) := assemble (sort_by part_le ps) [] 0 [] in
  let final_etag := hex_encode (md5 etags) +:+ "-" +:+ pretty (length hashes) in
  let shard_id := compute_shard_id key in
  do! release_blocks bucket key;
  do! for_each (λ h, do! ignore (add_usage h); ignore (remove_reference h)) hashes;
  do! tell (λ s, insert_object s t bucket shard_id key hashes total final_etag);
  do! tell (λ s, delete_multipart_upload s bucket uid);
  ret (quoted final_etag).

Definition abort_multipart_upload (credentials : option string) (bucket key upload_id : string)
    : handler unit :=
  do! authorize credentials "s3:AbortMultipartUpload" (Some bucket) (Some key);
  let! uid := parse_upload_id upload_id in
  tell (λ s, delete_multipart_upload s bucket uid).

Definition s3_list_parts (credentials : option string) (bucket key upload_id : string)
    (part_number_marker : option string) (max_parts : option Z)
    : handler (list (Z * Z * string) * bool * option string) :=
  do! authorize credentials "s3:ListMultipartUploadParts" (Some bucket) (Some key);
  let! uid := parse_upload_id upload_id in
  let! _k := upload_key bucket uid in
  let! ps := ask (λ s, list_parts s bucket uid) in
  let marker := default 0 (part_number_marker ≫= parse_i32) in
  let max_parts := page_limit max_parts in
  let filtered := filter (λ p, marker < part_number p) ps in
  let is_truncated := bool_decide (max_parts < length filtered)%nat in
  let result := (λ p, (part_number p, part_size p, quoted (part_etag p))) <$> take max_parts filtered in
  ret (result, is_truncated, if is_truncated then (λ p, pretty p.1.1) <$> last result else None).

Definition s3_list_multipart_uploads (credentials : option string) (bucket : string)
    (prefix key_marker : option string) (max_uploads : option Z)
    : handler (option (list (string * string)) * bool * option string) :=
  do! authorize credentials "s3:ListBucketMultipartUploads" (Some bucket) None;
  let max_uploads := page_limit max_uploads in
  let! rows := ask (λ s, list_multipart_uploads s bucket prefix key_marker max_uploads) in
  let is_truncated := bool_decide (max_uploads < length rows)%nat in
  let uploads := take max_uploads rows in
  ret (none_if_empty uploads, is_truncated, if is_truncated then fst <$> last uploads else None).
End s3.
