(* ===== verification/S3Props.v ===== *)
(** * Correctness of the S3 handlers

    The upload loop stores exactly the chunks of the body, so what a PUT, or a multipart
    upload, has acknowledged is what a GET streams back, whole or by range; requests that
    are not authorized, and writes the disk guard refuses, change nothing. *)

From stdpp Require Import pretty.
From S2P Require Import Prelude Crates Clock Hashing Chunking Range Listing Policy Disk Tables Store.
From S2P Require Import Objects BlockStore GC Replication S3.

Section s3_lemmas.
Context `{!Blake3, !Md5, !Hex, !UuidCodec, !Json, !IterOrder, !BlobStore, !LawfulBlob}.
Context `{!ChunkingStrategy, !LawfulChunking}.
Context (noise_fetch_block : string → bytes → result error bytes).

(** The block contents in play, without digest collisions among them. *)
Context (U : bytes → Prop) (blake3_inj : ∀ a b, U a → U b → blake3 a = blake3 b → a = b).

(** Recorded sizes are the lengths of the contents, and local blocks have one. *)
Definition sizes_ok (n : Node) : Prop :=
  (∀ h row d, blocks (db n) !! h = Some row → U d → blake3 d = h → b_size row = blen d) ∧
  (∀ h, held n h → is_Some (blocks (db n) !! h)).

Definition good (b : Backend) : Prop :=
  node_ok U (node b) ∧ sizes_ok (node b) ∧ healthy (blob (node b)).

(** What storing blocks leaves alone. *)
Record stores_blocks (b b' : Backend) : Prop := {
  sb_objects : objects (db (node b')) = objects (db (node b));
  sb_users : users (db (node b')) = users (db (node b));
  sb_parts : parts (db (node b')) = parts (db (node b));
  sb_uploads : multipart_uploads (db (node b')) = multipart_uploads (db (node b));
  sb_clock : clock (db (node b')) = clock (db (node b));
  sb_guard : disk_guard b' = disk_guard b;
  sb_held : ∀ h, held (node b) h → held (node b') h;
}.

Lemma stores_blocks_refl b : stores_blocks b b.
Proof. done. Qed.

Lemma stores_blocks_trans b1 b2 b3 : stores_blocks b1 b2 → stores_blocks b2 b3 → stores_blocks b1 b3.
Proof. intros [] []. split; try congruence. auto. Qed.

(** ** Storing blocks *)

Lemma store_block_good t d b :
  good b → U d →
  ∃ n', store_block t d (blen d) (node b) = (Ok (blake3 d), n') ∧
    good (mkBackend n' (disk_guard b)) ∧ stores_blocks b (mkBackend n' (disk_guard b)) ∧
    held n' (blake3 d).
Proof.
  intros (Hok & [Hsz Hrow] & Hh) HU.
  pose proof (store_block_spec U (node b) t d (blen d) Hok HU) as Hs.
  unfold store_block, read_db, bind, on_blob, write_db, ret in *.
  destruct (get_local_block_fid (db (node b)) (blake3 d)) as [fid|] eqn:Hl.
  { exists (node b). destruct b as [n g]. split; [done|]. split_and!; try done.
    unfold held. simpl in *. by rewrite Hl. }
  destruct (healthy_put (blake3 d) d _ Hh) as [Hh' [fid Hf]].
  destruct (put (blake3 d) d (blob (node b))) as [r b']. simpl in Hf, Hh'. subst r.
  destruct Hs as (Hok' & Hmono & _ & Hheld). eexists. split; [done|]. split_and!.
  - split; [done|]. split; [|exact Hh']. split; cbn [node db].
    + intros h row d' Hr HU' Hd'. simpl in Hr.
      destruct (decide (h = blake3 d)) as [->|Hne].
      * assert (d' = d) as -> by (by apply blake3_inj).
        rewrite lww_upsert_lookup in Hr. unfold lww_join in Hr.
        destruct (blocks (db (node b)) !! blake3 d) as [old|] eqn:Ho; [|by injection Hr as <-].
        destruct (_ <? _); injection Hr as <-; [done|by eapply Hsz].
      * rewrite lww_upsert_lookup_ne in Hr by congruence. by eapply Hsz.
    + intros h. unfold held. simpl. rewrite get_local_store_local_block by done.
      rewrite lww_upsert_is_Some. destruct (decide (h = blake3 d)) as [->|]; [by left|].
      intros Hx. right. by apply Hrow.
  - split; try done. intros h [f Hf]. exists f. by apply Hmono.
  - exact Hheld.
Qed.

(** The upload variables after the chunks [cs]. *)
Definition advance (u : Upload) (cs : list bytes) : Upload :=
  mkUpload (current_chunk u) (block_hashes u ++ (blake3 <$> cs)) (total_size u + blen (concat cs)) (digested u).

Lemma store_one_good t u d b :
  good b → U d → 0 ≤ total_size u → total_size u + blen d < 2 ^ 63 →
  ∃ b', store_one t u d b = (Ok (advance u [d]), b') ∧ good b' ∧ stores_blocks b b' ∧
    held (node b') (blake3 d).
Proof.
  intros Hg HU Ht0 Ht. destruct (store_block_good t d b Hg HU) as (n' & Hs & Hg' & Hsb & Hh).
  exists (mkBackend n' (disk_guard b)). split_and!; try done.
  unfold store_one, block_call, map_err, on_node, bind, ret. rewrite Hs. unfold advance. simpl.
  rewrite app_nil_r. rewrite wrap_i64_small; [done|]. unfold in_i64, blen in *. lia.
Qed.

Lemma store_all_good t cs : ∀ u b,
  good b → Forall U cs → 0 ≤ total_size u → total_size u + blen (concat cs) < 2 ^ 63 →
  ∃ b', store_all t u cs b = (Ok (advance u cs), b') ∧ good b' ∧ stores_blocks b b' ∧
    Forall (λ d, held (node b') (blake3 d)) cs.
Proof.
  induction cs as [|d cs IH]; intros u b Hg HU Ht0 Ht.
  { exists b. split_and!; try done. unfold store_all, ret, advance. simpl.
    rewrite app_nil_r. change (blen []) with 0. rewrite Z.add_0_r. by destruct u. }
  apply Forall_cons in HU as [HU HUs]. simpl in Ht. rewrite blen_app in Ht.
  assert (0 ≤ blen d ∧ 0 ≤ blen (concat cs)) as [Hd0 Hc0] by (unfold blen; lia).
  destruct (store_one_good t u d b Hg HU) as (b1 & Hs & Hg1 & Hsb1 & Hh1); [done|lia|].
  destruct (IH (advance u [d]) b1) as (b2 & Hs2 & Hg2 & Hsb2 & Hh2);
    [done|done|simpl; rewrite app_nil_r; lia|simpl; rewrite app_nil_r; lia|].
  exists b2. split_and!.
  - cbn [store_all]. unfold bind. rewrite Hs, Hs2. unfold advance. simpl.
    rewrite <- app_assoc. simpl. rewrite !app_nil_r, blen_app. do 3 f_equal. lia.
  - done.
  - by eapply stores_blocks_trans.
  - constructor; [by apply (sb_held _ _ Hsb2)|done].
Qed.

(** ** The upload loop *)

Lemma read_body_good t frames : ∀ u b cs rest,
  good b → feed frames (current_chunk u) = Ok (cs, rest) → Forall U cs →
  0 ≤ total_size u → total_size u + blen (concat cs) < 2 ^ 63 →
  ∃ b', read_body t u (Some <$> frames) b =
      (Ok (mkUpload rest (block_hashes u ++ (blake3 <$> cs)) (total_size u + blen (concat cs))
             (digested u ++ concat frames)), b') ∧
    good b' ∧ stores_blocks b b' ∧ Forall (λ d, held (node b') (blake3 d)) cs.
Proof.
  induction frames as [|f fs IH]; intros u b cs rest Hg Hf HU Ht0 Ht; simpl in Hf.
  { injection Hf as <- <-. exists b. split_and!; try done. simpl. unfold ret.
    rewrite !app_nil_r. change (blen []) with 0. rewrite Z.add_0_r. by destruct u. }
  destruct (process (current_chunk u ++ f)) as [[cs1 r1]|] eqn:Hp; [|done]. simpl in Hf.
  destruct (feed fs r1) as [[cs2 r2]|] eqn:Hf2; [|done]. simpl in Hf. injection Hf as <- <-.
  apply Forall_app in HU as [HU1 HU2]. rewrite concat_app, blen_app in Ht.
  assert (0 ≤ blen (concat cs1) ∧ 0 ≤ blen (concat cs2)) as [??] by (unfold blen; lia).
  set (u1 := mkUpload r1 (block_hashes u) (total_size u) (digested u ++ f)).
  destruct (store_all_good t cs1 u1 b) as (b1 & Hs1 & Hg1 & Hsb1 & Hh1); [done|done|done|simpl; lia|].
  destruct (IH (advance u1 cs1) b1 cs2 r2) as (b2 & Hs2 & Hg2 & Hsb2 & Hh2);
    [done|done|done|simpl; lia|simpl; lia|].
  exists b2. split_and!.
  - cbn [fmap list_fmap read_body]. unfold bind, on_chunk. rewrite Hp. fold u1. rewrite Hs1.
    change (list_fmap bytes (option bytes) Some fs) with (Some <$> fs). rewrite Hs2.
    unfold advance, u1. simpl. rewrite concat_app, blen_app, fmap_app, !app_assoc. do 3 f_equal. lia.
  - done.
  - by eapply stores_blocks_trans.
  - apply Forall_app. split; [|done]. eapply Forall_impl; [exact Hh1|]. intros d. apply (sb_held _ _ Hsb2).
Qed.

Definition upload (t : SystemTime) (body : list (option bytes)) : io Backend stop Upload :=
  let! u := read_body t start_upload body in finish_upload t u.

Lemma upload_good t frames cs b :
  good b → chunk_stream frames = Ok cs → Forall U cs → blen (concat frames) < 2 ^ 63 →
  ∃ b', upload t (Some <$> frames) b =
      (Ok (mkUpload [] (blake3 <$> cs) (blen (concat frames)) (concat frames)), b') ∧
    good b' ∧ stores_blocks b b' ∧ Forall (λ d, held (node b') (blake3 d)) cs ∧
    concat cs = concat frames.
Proof.
  intros Hg Hc HU Hlen.
  destruct (chunk_stream_spec frames) as (cs' & Hc' & Hcat & _).
  assert (cs' = cs) as -> by congruence. clear Hc'.
  unfold chunk_stream in Hc. destruct (feed frames []) as [[cs1 rest]|] eqn:Hf; [|done]. simpl in Hc.
  rewrite finalize_flush in Hc. injection Hc as <-.
  apply Forall_app in HU as [HU1 HU2].
  rewrite <- Hcat in Hlen. rewrite concat_app, blen_app in Hlen.
  assert (∀ x, 0 ≤ blen x) as Hnn by (intros; unfold blen; lia).
  destruct (read_body_good t frames start_upload b cs1 rest) as (b1 & Hs1 & Hg1 & Hsb1 & Hh1);
    [done|done|done|done| |].
  { simpl. pose proof (Hnn (concat (match (if decide (rest = []) then None else Some rest) with
      Some tail => [tail] | None => [] end))). lia. }
  unfold upload, bind. rewrite Hs1. simpl. unfold finish_upload. cbn [current_chunk].
  rewrite finalize_flush. destruct (decide (rest = [])) as [->|Hne]; simpl in *.
  - exists b1. rewrite app_nil_r in *. rewrite Hcat. by split_and!.
  - apply Forall_cons in HU2 as [HU2 _]. simpl in *. rewrite app_nil_r in Hlen.
    destruct (store_one_good t (mkUpload [] (blake3 <$> cs1) (blen (concat cs1)) (concat frames)) rest b1)
      as (b2 & Hs2 & Hg2 & Hsb2 & Hh2); [done|done|apply Hnn|simpl; lia|].
    exists b2. split_and!.
    + etransitivity; [exact Hs2|]. unfold advance. simpl. rewrite app_nil_r.
      rewrite concat_snoc in Hcat. rewrite <- Hcat, blen_app, fmap_app. done.
    + done.
    + by eapply stores_blocks_trans.
    + apply Forall_app. split; [|by repeat constructor]. eapply Forall_impl; [exact Hh1|].
      intros d. apply (sb_held _ _ Hsb2).
    + done.
Qed.

(** ** Serving *)

(** An object whose blocks are here. *)
Record stored_object (b : Backend) (bucket key : string) (cs : list bytes) (etag : string) : Prop := {
  so_manifest : Store.get_object (db (node b)) bucket key = Some (blake3 <$> cs, blen (concat cs), etag);
  so_known : Forall U cs;
  so_held : Forall (λ d, held (node b) (blake3 d)) cs;
}.

Lemma block_call_get code t d b :
  good b → U d → held (node b) (blake3 d) →
  block_call code (get_block noise_fetch_block t (blake3 d)) b = (Ok d, b).
Proof.
  intros (Hok & _ & Hh) HU Hheld. unfold block_call, map_err, on_node.
  rewrite (get_block_local _ U); [by destruct b|done|done|done| |done].
  intros d' HU' Heq. by apply blake3_inj.
Qed.

(** A plan by the contents of its blocks. *)
Abbreviation slices := (list (bytes * Z * option Z)).
Definition named (p : bytes * Z * option Z) : bytes * Z * option Z :=
  let '(d, skip, take) := p in (blake3 d, skip, take).
Definition sliced (p : bytes * Z * option Z) : bytes :=
  let '(d, skip, take) := p in slice_block_bytes d skip take.
Definition servable (b : Backend) (p : bytes * Z * option Z) : Prop :=
  U p.1.1 ∧ held (node b) (blake3 p.1.1).

Lemma stream_blocks t (ps : slices) b :
  good b → Forall (servable b) ps →
  map_each (stream_block noise_fetch_block t) (named <$> ps) b = (Ok (sliced <$> ps), b).
Proof.
  intros Hg Hps. induction Hps as [|[[d skip] take] ps [HU Hh] _ IH]; [done|].
  cbn [fmap list_fmap map_each]. unfold bind, stream_block at 1, named at 1, bind.
  rewrite block_call_get by done. unfold ret at 1.
  change (list_fmap _ _ named ps) with (named <$> ps). by rewrite IH.
Qed.

Definition serve (t : SystemTime) (len : Z) (crange : option (Z * Z * Z)) (etag : string) (plan : slices)
    : io Backend stop GetObjectOutput :=
  match plan with
  | [] => ret (mkGet len crange (quoted etag) None [])
  | (hash, skip, take) :: rest =>
      let! data := block_call SlowDown (get_block noise_fetch_block t hash) in
      ret (mkGet len crange (quoted etag) (Some (slice_block_bytes data skip take)) rest)
  end.

Lemma serve_good t t' len crange etag (ps : slices) b :
  good b → Forall (servable b) ps →
  ∃ out, serve t len crange etag (named <$> ps) b = (Ok out, b) ∧
    content_length out = len ∧ content_range out = crange ∧ get_e_tag out = quoted etag ∧
    stream_body noise_fetch_block t' out b = (Ok (concat (sliced <$> ps)), b).
Proof.
  intros Hg Hps. destruct Hps as [|[[d skip] take] ps [HU Hh] Hps].
  - eexists. split_and!; done.
  - cbn [fmap list_fmap serve named]. unfold bind. rewrite block_call_get by done.
    eexists. split_and!; [done..|]. unfold stream_body, bind. cbn [rest_plan first_frame].
    rewrite stream_blocks by done. done.
Qed.

Lemma concat_whole (cs : list bytes) :
  concat (sliced <$> ((λ d, (d, 0, None)) <$> cs)) = concat cs.
Proof.
  induction cs as [|c cs IH]; [done|]. cbn [fmap list_fmap concat sliced].
  rewrite slice_block_bytes_whole. f_equal. exact IH.
Qed.

Lemma block_sizes_good b cs :
  good b → Forall U cs → Forall (λ d, held (node b) (blake3 d)) cs →
  block_sizes (db (node b)) (blake3 <$> cs) = map blen cs.
Proof.
  intros (_ & [Hsz Hrow] & _) HU Hh. induction cs as [|d cs IH]; [done|].
  apply Forall_cons in HU as [HU HUs]. apply Forall_cons in Hh as [Hh Hhs].
  unfold block_sizes in *. cbn [fmap list_fmap map]. f_equal; [|by apply IH].
  unfold block_size. destruct (Hrow _ Hh) as [row Hr]. rewrite Hr. simpl.
  by apply (Hsz (blake3 d)).
Qed.

Lemma get_object_serve cred t bucket key range b blocks size etag :
  authorize cred "s3:GetObject" (Some bucket) (Some key) b = (Ok tt, b) →
  Store.get_object (db (node b)) bucket key = Some (blocks, size, etag) →
  get_object noise_fetch_block cred t bucket key range b =
    (let! ' (len, crange, plan) := get_plan blocks size range in serve t len crange etag plan) b.
Proof.
  intros Ha Hg. unfold get_object, bind, ask. rewrite Ha, Hg. done.
Qed.

Definition range_wf (range : Range) : Prop :=
  match range with
  | RangeInt first last => 0 ≤ first ∧ match last with Some l => 0 ≤ l | None => True end
  | RangeSuffix n => 0 ≤ n
  end.

Lemma get_whole cred t t' bucket key b cs etag :
  good b → stored_object b bucket key cs etag →
  authorize cred "s3:GetObject" (Some bucket) (Some key) b = (Ok tt, b) →
  ∃ out, get_object noise_fetch_block cred t bucket key None b = (Ok out, b) ∧
    content_length out = blen (concat cs) ∧ content_range out = None ∧ get_e_tag out = quoted etag ∧
    stream_body noise_fetch_block t' out b = (Ok (concat cs), b).
Proof.
  intros Hg [Hm HU Hh] Ha. rewrite (get_object_serve _ _ _ _ _ _ _ _ _ Ha Hm).
  unfold get_plan, bind, ret.
  destruct (serve_good t t' (blen (concat cs)) None etag ((λ d, (d, 0, None)) <$> cs) b)
    as (out & Hs & Hl & Hr & He & Hb); [done| |].
  { apply Forall_fmap, Forall_forall. intros d Hd. split;
      [by apply (proj1 (Forall_forall _ _) HU)|by apply (proj1 (Forall_forall _ _) Hh)]. }
  exists out. split_and!; try done.
  - rewrite <- Hs. f_equal. clear. induction cs as [|c cs IH]; [done|].
    cbn [fmap list_fmap]. f_equal. exact IH.
  - by rewrite concat_whole in Hb.
Qed.

Lemma plan_named (cs : list bytes) (plan : list (nat * Z * Z)) :
  (∀ p, p ∈ plan → (p.1.1 < length cs)%nat) →
  (λ '(i, skip, take), (nth i (blake3 <$> cs) [], skip, Some take)) <$> plan =
    named <$> ((λ '(i, skip, take), (nth i cs [], skip, Some take)) <$> plan).
Proof.
  intros Hi. rewrite <- list_fmap_compose. apply list_fmap_ext. intros k [[i skip] take] Hk. simpl.
  apply list_elem_of_lookup_2 in Hk. apply Hi in Hk. simpl in Hk. f_equal. f_equal.
  clear Hi. revert i Hk. induction cs as [|c cs IH]; intros [|i] Hk; simpl in *; try lia; [done|].
  apply IH. lia.
Qed.

Lemma get_ranged cred t t' bucket key b cs etag range start end_ :
  good b → stored_object b bucket key cs etag →
  authorize cred "s3:GetObject" (Some bucket) (Some key) b = (Ok tt, b) →
  range_wf range → blen (concat cs) < 2 ^ 63 →
  resolve_range range (blen (concat cs)) = Some (start, end_) →
  ∃ out, get_object noise_fetch_block cred t bucket key (Some range) b = (Ok out, b) ∧
    content_length out = end_ - start + 1 ∧
    content_range out = Some (start, end_, blen (concat cs)) ∧ get_e_tag out = quoted etag ∧
    stream_body noise_fetch_block t' out b = (Ok (byte_range start end_ (concat cs)), b).
Proof.
  intros Hg [Hm HU Hh] Ha Hwf Hlen Hres. rewrite (get_object_serve _ _ _ _ _ _ _ _ _ Ha Hm).
  assert (0 ≤ blen (concat cs)) as Hnn by (unfold blen; lia).
  destruct (resolve_range_inside _ _ _ _ Hwf Hnn Hres) as [Hse He].
  unfold get_plan. rewrite wrap_u64_small by (unfold in_u64; lia). rewrite Hres.
  set (plan := slice_blocks_for_range (map blen cs) start end_).
  assert (∀ p, p ∈ plan → (p.1.1 < length cs)%nat) as Hidx.
  { intros p Hp%slice_loop_index. rewrite length_map in Hp. lia. }
  assert (wrap_i64 (end_ - start + 1) = end_ - start + 1) as Hw by (apply wrap_i64_small; unfold in_i64; lia).
  destruct (serve_good t t' (end_ - start + 1) (Some (start, end_, blen (concat cs))) etag
    ((λ '(i, skip, take), (nth i cs [], skip, Some take)) <$> plan) b) as (out & Hs & Hl & Hr & He' & Hb); [done| |].
  { apply Forall_fmap, Forall_forall. intros [[i skip] take] Hp. apply Hidx in Hp. simpl in Hp.
    destruct (lookup_lt_is_Some_2 cs i Hp) as [d Hd]. unfold servable. simpl.
    rewrite (nth_lookup_Some cs i [] d Hd).
    split; [by apply (Forall_lookup_1 _ _ _ _ HU Hd)|by apply (Forall_lookup_1 _ _ _ _ Hh Hd)]. }
  exists out. split_and!; try done.
  - rewrite <- plan_named in Hs by done. rewrite <- Hs.
    unfold bind, ok_or, ret, ask. rewrite block_sizes_good by done. fold plan. by rewrite Hw.
  - rewrite Hb. do 2 f_equal. etransitivity; [|apply run_plan_range; [lia|lia]].
    unfold run_plan. fold plan. f_equal. rewrite <- list_fmap_compose.
    apply list_fmap_ext. by intros k [[i skip] take] _.
Qed.

(** ** Steps of the handlers *)

Lemma authorize_users cred action bucket key b b' :
  users (db (node b')) = users (db (node b)) →
  authorize cred action bucket key b = (Ok tt, b) → authorize cred action bucket key b' = (Ok tt, b').
Proof.
  intros Hu. destruct cred as [ak|]; [|done].
  unfold authorize, bind, ask, get_user, reject, fail, ret. rewrite Hu. destruct (users (db (node b)) !! ak) as [r|]; [|done].
  destruct (policy_from_str _); [|done]. by destruct (is_allowed _ _ _).
Qed.

(** Authorization reads and changes nothing. *)
Lemma authorize_state cred action bucket key b : (authorize cred action bucket key b).2 = b.
Proof.
  unfold authorize, bind, ask, reject, fail, ret. destruct cred as [ak|]; [|done].
  destruct (get_user _ _) as [[[sk p]|]|]; [|done|done]. by destruct (is_allowed _ _ _).
Qed.

Lemma authorize_ok cred action bucket key b :
  (authorize cred action bucket key b).1 = Ok tt → authorize cred action bucket key b = (Ok tt, b).
Proof.
  pose proof (authorize_state cred action bucket key b) as Hs.
  destruct (authorize cred action bucket key b). simpl in *. by intros ->; subst.
Qed.

Lemma noop_loop {A} (f : A → io Backend stop unit) l b :
  (∀ x, f x b = (Ok tt, b)) → for_each f l b = (Ok tt, b).
Proof. intros Hf. induction l as [|x l IH]; simpl; [done|]. unfold bind. by rewrite Hf. Qed.

Lemma ignore_noop b : ignore (ret tt) b = (Ok tt, b).
Proof. by destruct b. Qed.

Lemma release_noop bucket key b : release_blocks bucket key b = (Ok tt, b).
Proof.
  unfold release_blocks, bind, ask. destruct (Store.get_object _ _ _) as [[[bs ?] ?]|]; [|done].
  apply noop_loop. intros. apply ignore_noop.
Qed.

(** A metadata write that leaves the block tables alone. *)
Lemma good_tell f b :
  good b →
  block_locations (f (db (node b))) = block_locations (db (node b)) →
  blocks (f (db (node b))) = blocks (db (node b)) →
  local_location_id (f (db (node b))) = local_location_id (db (node b)) →
  good (tell f b).2 ∧ ∀ h, held (node (tell f b).2) h ↔ held (node b) h.
Proof.
  intros (Hok & [Hsz Hrow] & Hh) Hl Hb Hi.
  assert (∀ h, get_local_block_fid (f (db (node b))) h = get_local_block_fid (db (node b)) h) as Hg.
  { intros h. unfold get_local_block_fid. by rewrite Hl, Hi. }
  split; [|intros h; unfold held; simpl; by rewrite Hg].
  split; [|split; [|done]].
  - intros h fid. simpl. rewrite Hg. apply Hok.
  - split; simpl; rewrite Hb; [done|]. intros h. unfold held. simpl. rewrite Hg. apply Hrow.
Qed.

(** The clock is past the last write of the key. *)
Definition clock_ahead (b : Backend) (t : SystemTime) (bucket key : string) : Prop :=
  ∀ r, objects (db (node b)) !! (bucket, key) = Some r → o_ts r < Store.now_micros (db (node b)) t.

Lemma insert_object_get s t bucket sh key cs size etag :
  (∀ r, objects s !! (bucket, key) = Some r → o_ts r < Store.now_micros s t) →
  Store.get_object (insert_object s t bucket sh key (blake3 <$> cs) size etag) bucket key =
    Some (blake3 <$> cs, size, etag).
Proof.
  intros Hc. unfold Store.get_object. simpl. rewrite lww_upsert_lookup. unfold lww_join.
  assert (decode_blocks (encode_blocks (blake3 <$> cs)) = blake3 <$> cs) as Hd.
  { apply decode_encode_blocks, Forall_fmap, Forall_forall. intros d _. apply blake3_length. }
  destruct (objects s !! (bucket, key)) as [r|] eqn:Hr; simpl; [|by rewrite Hd].
  rewrite (proj2 (Z.ltb_lt _ _)) by (by apply Hc). simpl. by rewrite Hd.
Qed.

(** A write that is not newer than the row leaves it. *)
Lemma insert_object_keeps s t bucket sh key bs size etag :
  ¬ (∀ r, objects s !! (bucket, key) = Some r → o_ts r < Store.now_micros s t) →
  Store.get_object (insert_object s t bucket sh key bs size etag) bucket key = Store.get_object s bucket key.
Proof.
  intros Hn. unfold Store.get_object. simpl. rewrite lww_upsert_lookup. unfold lww_join.
  destruct (objects s !! (bucket, key)) as [r|] eqn:Hr; [|by destruct Hn].
  simpl. destruct (Z.ltb_spec (o_ts r) (Store.now_micros s t)); [|done].
  destruct Hn. by intros ? [= <-].
Qed.

(** Writing the manifest of blocks that are here. *)
Lemma manifest_stored t bucket key cs etag b :
  good b → Forall U cs → Forall (λ d, held (node b) (blake3 d)) cs →
  let b' := (tell (λ s, insert_object s t bucket (compute_shard_id key) key (blake3 <$> cs)
                          (blen (concat cs)) etag) b).2 in
  good b' ∧ users (db (node b')) = users (db (node b)) ∧
  (clock_ahead b t bucket key → stored_object b' bucket key cs etag) ∧
  (¬ clock_ahead b t bucket key →
     Store.get_object (db (node b')) bucket key = Store.get_object (db (node b)) bucket key).
Proof.
  intros Hg HU Hh b'.
  destruct (good_tell (λ s, insert_object s t bucket (compute_shard_id key) key (blake3 <$> cs)
    (blen (concat cs)) etag) b Hg eq_refl eq_refl eq_refl) as [Hg' Hheld].
  split; [exact Hg'|]. split; [done|]. split; [intros Hc; split; [|done|]|intros Hc].
  - by apply insert_object_get.
  - eapply Forall_impl; [exact Hh|]. intros d Hd. by apply Hheld.
  - by apply insert_object_keeps.
Qed.

Lemma put_object_good cred t bucket key frames cs b :
  good b → authorize cred "s3:PutObject" (Some bucket) (Some key) b = (Ok tt, b) →
  check (disk_guard b) = None → chunk_stream frames = Ok cs → Forall U cs →
  blen (concat frames) < 2 ^ 63 →
  ∃ b', put_object cred t bucket key (Some (Some <$> frames)) b =
      (Ok (quoted (hex_encode (md5 (concat frames)))), b') ∧ good b' ∧
    users (db (node b')) = users (db (node b)) ∧ concat cs = concat frames ∧
    (clock_ahead b t bucket key → stored_object b' bucket key cs (hex_encode (md5 (concat frames)))) ∧
    (¬ clock_ahead b t bucket key →
       Store.get_object (db (node b')) bucket key = Store.get_object (db (node b)) bucket key).
Proof.
  intros Hg Ha Hc Hcs HU Hlen.
  destruct (upload_good t frames cs b Hg Hcs HU Hlen) as (b1 & Hup & Hg1 & Hsb & Hh & Hcat).
  destruct (manifest_stored t bucket key cs (hex_encode (md5 (concat frames))) b1)
    as (Hg2 & Hu2 & Hs2 & Hk2); [done..|].
  assert (clock_ahead b1 t bucket key ↔ clock_ahead b t bucket key) as Hclk.
  { unfold clock_ahead, Store.now_micros. by rewrite (sb_objects _ _ Hsb), (sb_clock _ _ Hsb). }
  assert (Store.get_object (db (node b1)) bucket key = Store.get_object (db (node b)) bucket key) as Hget.
  { unfold Store.get_object. by rewrite (sb_objects _ _ Hsb). }
  rewrite Hclk in Hs2, Hk2. rewrite Hget in Hk2.
  unfold put_object. rewrite (bind_ok _ _ _ _ _ Ha).
  eexists. split; [|split; [exact Hg2|split; [rewrite Hu2; apply (sb_users _ _ Hsb)|split; [done|split; [exact Hs2|exact Hk2]]]]].
  unfold check_writable, bind at 1. rewrite Hc. unfold ok_or, bind at 1, ret at 1.
  unfold upload, bind in Hup. unfold bind. destruct (read_body t start_upload (Some <$> frames) b) as [[u|e] b0];
    [|done]. rewrite Hup. rewrite release_noop. unfold ret, tell. by rewrite <- Hcat.
Qed.
End s3_lemmas.

(** ** Multipart uploads *)

Section multipart_lemmas.
Context `{!Blake3, !Md5, !Hex, !UuidCodec, !Json, !IterOrder, !BlobStore, !LawfulBlob}.
Context (U : bytes → Prop).

#[global] Instance part_le_trans : Transitive part_le.
Proof. intros a b c. unfold part_le. lia. Qed.
#[global] Instance part_le_total : Total part_le.
Proof. intros a b. unfold part_le. lia. Qed.

(** A part whose blocks are here, with the contents [cs]. *)
Record part_ok (b : Backend) (p : part) (cs : list bytes) : Prop := {
  po_blocks : part_blocks p = blake3 <$> cs;
  po_size : part_size p = blen (concat cs);
  po_etag : is_Some (hex_decode (trim_quotes (part_etag p)));
  po_known : Forall U cs;
  po_held : Forall (λ d, held (node b) (blake3 d)) cs;
}.

Lemma assemble_good b ps css : Forall2 (part_ok b) ps css → ∀ hashes total etags,
  0 ≤ total → total + blen (concat (concat css)) < 2 ^ 63 →
  ∃ etags', assemble ps hashes total etags b =
    (Ok (hashes ++ (blake3 <$> concat css), total + blen (concat (concat css)), etags'), b).
Proof.
  induction 1 as [|p cs ps css [Hb Hs [e He] _ _] _ IH]; intros hashes total etags Ht0 Ht.
  { exists etags. simpl. unfold ret. rewrite app_nil_r. change (blen []) with 0. by rewrite Z.add_0_r. }
  cbn [concat] in Ht. rewrite concat_app, blen_app in Ht.
  assert (0 ≤ blen (concat cs) ∧ 0 ≤ blen (concat (concat css))) as [??] by (unfold blen; lia).
  destruct (IH (hashes ++ part_blocks p) (wrap_i64 (total + part_size p)) (etags ++ e)) as [etags' Hr].
  - rewrite Hs, wrap_i64_small; unfold in_i64; lia.
  - rewrite Hs, wrap_i64_small; unfold in_i64; lia.
  - exists etags'. cbn [assemble]. unfold bind, ok_or. rewrite He. unfold ret. rewrite Hr.
    rewrite Hb, Hs, wrap_i64_small by (unfold in_i64; lia). cbn [concat].
    by rewrite fmap_app, concat_app, blen_app, app_assoc, Z.add_assoc.
Qed.

Lemma Forall_concat_parts b ps css :
  Forall2 (part_ok b) ps css →
  Forall U (concat css) ∧ Forall (λ d, held (node b) (blake3 d)) (concat css).
Proof.
  induction 1 as [|p cs ps css [_ _ _ HU Hh] _ [IH1 IH2]]; [done|]. cbn [concat].
  split; apply Forall_app; done.
Qed.

Lemma list_parts_sorted s bucket u : sort_by part_le (list_parts s bucket u) = list_parts s bucket u.
Proof. apply sort_by_id, sort_by_sorted; apply _. Qed.

Lemma delete_multipart_parts s bucket u : list_parts (delete_multipart_upload s bucket u) bucket u = [].
Proof.
  assert (list_parts (delete_multipart_upload s bucket u) bucket u ≡ₚ []) as Hp.
  2: { by apply Permutation_nil_r in Hp. }
  unfold list_parts. rewrite sort_by_perm.
  destruct (omap _ _) as [|x l] eqn:Hx; [done|]. exfalso.
  assert (x ∈ x :: l) as Hin by (by left). rewrite <- Hx in Hin.
  apply list_elem_of_omap in Hin as ([[[b' u'] n] r] & Hin & Heq).
  apply elem_of_map_to_list in Hin. simpl in Hin. apply map_lookup_filter_Some in Hin as [_ Hn].
  destruct (decide _); [|done]. by apply Hn.
Qed.
End multipart_lemmas.

(** ** Properties *)

Section properties.
Context `{!Blake3, !Md5, !Hex, !UuidCodec, !Json, !IterOrder, !BlobStore, !LawfulBlob}.
Context `{!ChunkingStrategy, !LawfulChunking}.
Context (noise_fetch_block : string → bytes → result error bytes) (U : bytes → Prop).

(** C1: what was put is what is read.  On a node whose metadata and backend agree, with
    working disk and an open guard, an authorized PUT of a body whose chunks' hashes do not
    collide, however the transport framed it and whatever the chunking strategy, is
    acknowledged with the body's md5.  If the node's clock is past the last write of the key
    ([clock_ahead]), an authorized GET then announces the body's length and streams exactly
    the body, and every satisfiable range request streams exactly those bytes.  If it is not
    (a write of the same microsecond, a clock set back, a newer write from another site), the
    PUT is acknowledged all the same and the key still names the object it named before. *)
Theorem put_get_roundtrip cred t t' t'' bucket key frames cs b :
  (∀ x y, U x → U y → blake3 x = blake3 y → x = y) → good U b →
  authorize cred "s3:PutObject" (Some bucket) (Some key) b = (Ok tt, b) →
  authorize cred "s3:GetObject" (Some bucket) (Some key) b = (Ok tt, b) →
  check (disk_guard b) = None → chunk_stream frames = Ok cs → Forall U cs →
  blen (concat frames) < 2 ^ 63 →
  ∃ b', put_object cred t bucket key (Some (Some <$> frames)) b =
      (Ok (quoted (hex_encode (md5 (concat frames)))), b') ∧ good U b' ∧
    (clock_ahead b t bucket key →
      (∃ out, get_object noise_fetch_block cred t' bucket key None b' = (Ok out, b') ∧
         content_length out = blen (concat frames) ∧
         get_e_tag out = quoted (hex_encode (md5 (concat frames))) ∧
         stream_body noise_fetch_block t'' out b' = (Ok (concat frames), b')) ∧
      (∀ range start end_, range_wf range → resolve_range range (blen (concat frames)) = Some (start, end_) →
       ∃ out, get_object noise_fetch_block cred t' bucket key (Some range) b' = (Ok out, b') ∧
         content_length out = end_ - start + 1 ∧
         stream_body noise_fetch_block t'' out b' = (Ok (byte_range start end_ (concat frames)), b'))) ∧
    (¬ clock_ahead b t bucket key →
      Store.get_object (db (node b')) bucket key = Store.get_object (db (node b)) bucket key).
Proof.
  intros Hinj Hg Ha Hag Hc Hcs HU Hlen.
  destruct (put_object_good U Hinj cred t bucket key frames cs b)
    as (b' & Hp & Hg' & Hu & Hcat & Hahead & Hkeep); [done..|].
  pose proof (authorize_users _ _ _ _ _ _ Hu Hag) as Hag'. exists b'. split_and!; [done..| |done].
  intros Hs%Hahead. split.
  - destruct (get_whole noise_fetch_block U Hinj cred t' t'' bucket key b' cs _ Hg' Hs Hag')
      as (out & Ho & Hl & _ & He & Hb). rewrite Hcat in *. eauto 6.
  - intros range start end_ Hwf Hr. rewrite <- Hcat in Hr, Hlen.
    destruct (get_ranged noise_fetch_block U Hinj cred t' t'' bucket key b' cs _ range start end_ Hg' Hs Hag' Hwf Hlen Hr)
      as (out & Ho & Hl & _ & _ & Hb). rewrite Hcat in *. eauto 6.
Qed.

(** C14: a completed multipart upload is the concatenation of its parts in part-number
    order.  Completing an upload whose parts' blocks are all held by the node (and whose
    hashes do not collide) is acknowledged and removes the upload and its parts.  If the
    node's clock is past the last write of the key ([clock_ahead]), an authorized GET then
    streams the parts' contents one after the other; if it is not, the key still names the
    object it named before. *)
Theorem complete_multipart_roundtrip cred t t' t'' bucket key upload_id uid css b :
  (∀ x y, U x → U y → blake3 x = blake3 y → x = y) → good U b →
  authorize cred "s3:PutObject" (Some bucket) (Some key) b = (Ok tt, b) →
  authorize cred "s3:GetObject" (Some bucket) (Some key) b = (Ok tt, b) →
  uuid_parse_str upload_id = Some uid → get_multipart_key (db (node b)) bucket uid = Some key →
  Forall2 (part_ok U b) (list_parts (db (node b)) bucket uid) css →
  blen (concat (concat css)) < 2 ^ 63 →
  ∃ etag b', complete_multipart_upload cred t bucket key upload_id b = (Ok etag, b') ∧ good U b' ∧
    get_multipart_key (db (node b')) bucket uid = None ∧ list_parts (db (node b')) bucket uid = [] ∧
    (clock_ahead b t bucket key →
      ∃ out, get_object noise_fetch_block cred t' bucket key None b' = (Ok out, b') ∧
        content_length out = blen (concat (concat css)) ∧ get_e_tag out = etag ∧
        stream_body noise_fetch_block t'' out b' = (Ok (concat (concat css)), b')) ∧
    (¬ clock_ahead b t bucket key →
      Store.get_object (db (node b')) bucket key = Store.get_object (db (node b)) bucket key).
Proof.
  intros Hinj Hg Ha Hag Hu Hk Hps Hlen.
  destruct (assemble_good U b _ _ Hps [] 0 []) as [etags Has]; [lia|lia|]. simpl in Has.
  destruct (Forall_concat_parts U b _ _ Hps) as [HU Hh].
  set (etag := hex_encode (md5 etags) +:+ "-" +:+ pretty (length (blake3 <$> concat css))).
  destruct (manifest_stored U t bucket key (concat css) etag b) as (Hg1 & Hu1 & Hs1 & Hk1); [done..|].
  set (b1 := (tell _ b).2) in Hg1, Hu1, Hs1, Hk1.
  destruct (good_tell U (λ s, delete_multipart_upload s bucket uid) b1 Hg1 eq_refl eq_refl eq_refl) as [Hg2 Hh2].
  set (b2 := (tell (λ s, delete_multipart_upload s bucket uid) b1).2) in *.
  assert (clock_ahead b t bucket key → stored_object U b2 bucket key (concat css) etag) as Hs2.
  { intros [Hm1 HU1 Hh1]%Hs1. split; [exact Hm1|done|]. eapply Forall_impl; [exact Hh1|]. intros d Hd. by apply Hh2. }
  exists (quoted etag), b2. split_and!.
  - unfold complete_multipart_upload. rewrite (bind_ok _ _ _ _ _ Ha).
    unfold parse_upload_id, upload_key, bind, ok_or, ask. rewrite Hu. unfold ret. rewrite Hk.
    rewrite decide_False by auto. rewrite list_parts_sorted.
    replace (assemble _ _ _ _ b) with (Ok (E := stop) (blake3 <$> concat css, blen (concat (concat css)), etags), b)
      by (symmetry; exact Has).
    rewrite release_noop, noop_loop; [done|]. intros h. unfold add_usage, remove_reference.
    rewrite ignore_noop. apply ignore_noop.
  - done.
  - unfold get_multipart_key. simpl. by rewrite lookup_delete_eq.
  - apply delete_multipart_parts.
  - intros Hs%Hs2. destruct (get_whole noise_fetch_block U Hinj cred t' t'' bucket key b2 (concat css) etag Hg2 Hs)
      as (out & Ho & Hl & _ & He & Hb); [|by eauto 6].
    eapply authorize_users; [|exact Hag]. exact Hu1.
  - exact Hk1.
Qed.

(** An uploaded part is recorded.  An authorized part upload to an existing upload is
    acknowledged with the part's md5 and recorded under its number with its blocks, size and
    md5, replacing an earlier part of the same number and keeping the others. *)
Theorem upload_part_records cred t bucket key upload_id uid k n frames cs b :
  (∀ x y, U x → U y → blake3 x = blake3 y → x = y) → good U b →
  authorize cred "s3:PutObject" (Some bucket) (Some key) b = (Ok tt, b) → check (disk_guard b) = None →
  uuid_parse_str upload_id = Some uid → get_multipart_key (db (node b)) bucket uid = Some k →
  chunk_stream frames = Ok cs → Forall U cs → blen (concat frames) < 2 ^ 63 →
  let etag := hex_encode (md5 (concat frames)) in
  ∃ b', upload_part cred t bucket key upload_id n (Some (Some <$> frames)) b = (Ok (quoted etag), b') ∧
    good U b' ∧ Forall (λ d, held (node b') (blake3 d)) cs ∧
    ∀ p, p ∈ list_parts (db (node b')) bucket uid ↔
      p = (n, blake3 <$> cs, blen (concat frames), etag) ∨
      (p ∈ list_parts (db (node b)) bucket uid ∧ part_number p ≠ n).
Proof.
  intros Hinj Hg Ha Hc Hu Hk Hcs HU Hlen etag.
  destruct (upload_good U Hinj t frames cs b Hg Hcs HU Hlen) as (b1 & Hup & Hg1 & Hsb & Hh & Hcat).
  destruct (good_tell U (λ s, insert_part s bucket uid n (blake3 <$> cs) (blen (concat frames)) etag) b1
    Hg1 eq_refl eq_refl eq_refl) as [Hg2 Hh2].
  eexists. split; [|split; [exact Hg2|split]].
  - unfold upload_part. rewrite (bind_ok _ _ _ _ _ Ha).
    unfold check_writable, bind at 1. rewrite Hc. unfold parse_upload_id, upload_key, bind, ok_or, ask.
    rewrite Hu. unfold ret at 1 2. rewrite Hk. unfold ret at 1 2. unfold upload, bind in Hup.
    destruct (read_body t start_upload (Some <$> frames) b) as [[u|e] b0]; [|done]. by rewrite Hup.
  - eapply Forall_impl; [exact Hh|]. intros d Hd. by apply Hh2.
  - intros p. unfold list_parts. rewrite !elem_of_sort_by, !list_elem_of_omap. simpl.
    rewrite (sb_parts _ _ Hsb).
    assert (decode_blocks (encode_blocks (blake3 <$> cs)) = blake3 <$> cs) as Hd.
    { apply decode_encode_blocks, Forall_fmap, Forall_forall. intros d _. apply blake3_length. }
    split.
    + intros ([[[b' u'] n'] r] & Hin & Heq). apply elem_of_map_to_list in Hin.
      destruct (decide _) as [[-> ->]|]; [|done]. injection Heq as <-.
      destruct (decide (n' = n)) as [->|Hne].
      * rewrite lookup_insert_eq in Hin. injection Hin as <-. left. simpl. by rewrite Hd.
      * rewrite lookup_insert_ne in Hin by congruence. right. split; [|done].
        exists ((bucket, uuid_to_string uid, n'), r). rewrite elem_of_map_to_list, decide_True; done.
    + intros [->|[([[[b' u'] n'] r] & Hin & Heq) Hne]].
      * exists ((bucket, uuid_to_string uid, n), mkPart (encode_blocks (blake3 <$> cs)) (blen (concat frames)) etag).
        rewrite elem_of_map_to_list, lookup_insert_eq, decide_True by done. simpl. by rewrite Hd.
      * exists ((b', u', n'), r). split; [|done]. apply elem_of_map_to_list in Hin.
        apply elem_of_map_to_list. destruct (decide _) as [[-> ->]|]; [|done]. injection Heq as <-.
        rewrite lookup_insert_ne; [done|]. intros [= Heq]. by apply Hne.
Qed.

(** A deleted object is gone.  After an authorized DELETE at a clock past the key's last
    write, GET and HEAD of the key answer NoSuchKey and no listing shows it, while the other
    keys are untouched. *)
Theorem delete_then_get cred t t' bucket key range b :
  authorize cred "s3:DeleteObject" (Some bucket) (Some key) b = (Ok tt, b) →
  authorize cred "s3:GetObject" (Some bucket) (Some key) b = (Ok tt, b) →
  clock_ahead b t bucket key →
  ∃ b', delete_object cred t bucket key b = (Ok tt, b') ∧
    get_object noise_fetch_block cred t' bucket key range b' = (Err (Fault NoSuchKey), b') ∧
    (∀ o, live_object (db (node b')) bucket o → obj_key o ≠ key) ∧
    (∀ bucket' key', (bucket', key') ≠ (bucket, key) →
       Store.get_object (db (node b')) bucket' key' = Store.get_object (db (node b)) bucket' key').
Proof.
  intros Ha Hag Hclk. eexists. split.
  { unfold delete_object. rewrite (bind_ok _ _ _ _ _ Ha). unfold bind. by rewrite release_noop. }
  assert (objects (Store.delete_object (db (node b)) t bucket key) !! (bucket, key) =
    Some (mkObject [] 0 "" (compute_shard_id key) (Store.now_micros (db (node b)) t) true)) as Ho.
  { simpl. rewrite lww_upsert_lookup. unfold lww_join.
    destruct (objects (db (node b)) !! (bucket, key)) as [r|] eqn:Hr; [|done].
    by rewrite (proj2 (Z.ltb_lt _ _)) by (by apply Hclk). }
  split_and!.
  - unfold get_object, bind.
    rewrite (authorize_users cred _ _ _ b) by done. unfold ask, ok_or.
    unfold Store.get_object at 1. cbn [tell node db snd]. rewrite Ho. done.
  - intros o (r & Hr & Hd & _) Hk. rewrite Hk in Hr. cbn [tell node db snd] in Hr. rewrite Ho in Hr.
    by injection Hr as <-.
  - intros bucket' key' Hne. unfold Store.get_object. simpl. by rewrite lww_upsert_lookup_ne.
Qed.

(** C35: requests that are not authorized change nothing.  Every handler that writes refuses
    a request whose authorization fails with that error and leaves the backend as it was. *)
Theorem denied_changes_nothing cred t bucket key upload_id fresh n body src crange keys e b :
  let refused {A} (h : io Backend stop A) := h b = (Err e, b) in
  ((authorize cred "s3:PutObject" (Some bucket) (Some key) b).1 = Err e →
     refused (put_object cred t bucket key body) ∧
     refused (copy_object cred t bucket key src) ∧
     refused (create_multipart_upload cred fresh bucket key) ∧
     refused (upload_part cred t bucket key upload_id n body) ∧
     refused (upload_part_copy noise_fetch_block cred t bucket key upload_id n src crange) ∧
     refused (complete_multipart_upload cred t bucket key upload_id)) ∧
  ((authorize cred "s3:DeleteObject" (Some bucket) (Some key) b).1 = Err e →
     refused (delete_object cred t bucket key)) ∧
  ((authorize cred "s3:DeleteObject" (Some bucket) None b).1 = Err e →
     refused (delete_objects cred t bucket keys)) ∧
  ((authorize cred "s3:AbortMultipartUpload" (Some bucket) (Some key) b).1 = Err e →
     refused (abort_multipart_upload cred bucket key upload_id)).
Proof.
  assert (∀ action bk k, (authorize cred action bk k b).1 = Err e →
    authorize cred action bk k b = (Err e, b)) as Hauth.
  { intros action bk k He. pose proof (authorize_state cred action bk k b) as Hs.
    destruct (authorize cred action bk k b). simpl in *. by subst. }
  simpl. split_and!; intros He%Hauth; repeat split; by apply bind_err.
Qed.

(** The disk guard refuses writes.  While the guard is tripped, authorized uploads of
    objects and parts answer ServiceUnavailable and leave the backend as it was. *)
Theorem guard_refuses_writes cred t bucket key upload_id n body src crange b :
  authorize cred "s3:PutObject" (Some bucket) (Some key) b = (Ok tt, b) →
  is_Some (check (disk_guard b)) →
  let refused {A} (h : io Backend stop A) := h b = (Err (Fault ServiceUnavailable), b) in
  refused (put_object cred t bucket key body) ∧
  refused (upload_part cred t bucket key upload_id n body) ∧
  refused (upload_part_copy noise_fetch_block cred t bucket key upload_id n src crange).
Proof.
  intros Ha [trip Ht]. assert (check_writable b = (Err (Fault ServiceUnavailable), b)) as Hw
    by (unfold check_writable; by rewrite Ht).
  simpl. unfold put_object, upload_part, upload_part_copy.
  split_and!; rewrite (bind_ok _ _ _ _ _ Ha); by apply bind_err.
Qed.
End properties.

(** ** Concrete requests *)

Module S3Runs.
#[local] Existing Instances Reference.blake3_pad Reference.md5_rev Reference.hex_lower Reference.uuid_text.
#[local] Existing Instances JsonReference.json_tokens order_id LocalBlob.local_blob LocalBlob.local_lawful.

Definition chunker : FixedSizeStrategy := {| chunk_size := 4 |}.
#[local] Instance chunker4 : ChunkingStrategy := fixed_strategy chunker.
#[local] Instance chunker4_lawful : LawfulChunking.
Proof. apply fixed_lawful. simpl. lia. Defined.

(** The body [hello world] in two frames, and its chunks of four bytes. *)
Definition frames : list bytes := [as_bytes "hello "; as_bytes "world"].
Definition chunks : list bytes := [as_bytes "hell"; as_bytes "o wo"; as_bytes "rld"].
Definition known (d : bytes) : Prop := d ∈ chunks.
Definition root : option string := Some "root".

Definition offline (_ : string) (_ : bytes) : result error bytes := Err FetchError.

(** A node with an administrator, and one with a user that may only write below [out]. *)
Definition fresh_store : Store :=
  create_user (empty_store "a" (Clock.new 0)) 1000000 "root" "secret" admin_policy.
Definition backend_of (s : Store) : Backend :=
  mkBackend (mkNodeState s (LocalBlob.mkDisk ∅ [])) disabled.
Definition fresh_backend : Backend := backend_of fresh_store.

Lemma known_inj x y : known x → known y → blake3 x = blake3 y → x = y.
Proof.
  unfold known, chunks. rewrite !elem_of_cons, !elem_of_nil.
  intros [->|[->|[->|[]]]] [->|[->|[->|[]]]]; done.
Qed.

Lemma fresh_good : good known fresh_backend.
Proof. split; [|split; [split|done]]; intros h; [by intros fid|by intros row d|by intros [? ?]]. Qed.

Lemma frames_known : Forall known chunks.
Proof. apply Forall_forall. done. Qed.

Lemma fresh_clock : clock_ahead fresh_backend 5000000 "bk" "k".
Proof. by intros r. Qed.

Lemma put_get_roundtrip_witness :
  ∃ b', put_object root 5000000 "bk" "k" (Some (Some <$> frames)) fresh_backend =
      (Ok (quoted (hex_encode (md5 (as_bytes "hello world")))), b') ∧
    ∃ out, get_object offline root 6000000 "bk" "k" (Some (RangeInt 3 (Some 8))) b' = (Ok out, b') ∧
      content_length out = 6 ∧
      stream_body offline 7000000 out b' = (Ok (as_bytes "lo wor"), b').
Proof.
  destruct (put_get_roundtrip offline known root 5000000 6000000 7000000 "bk" "k" frames chunks fresh_backend)
    as (b' & Hp & _ & Hr & _);
    [exact known_inj|exact fresh_good|apply authorize_ok; vm_compute; reflexivity
    |apply authorize_ok; vm_compute; reflexivity|reflexivity
    |vm_compute; reflexivity|exact frames_known|vm_compute; reflexivity|].
  exists b'. split; [exact Hp|]. destruct (proj2 (Hr fresh_clock) (RangeInt 3 (Some 8)) 3 8) as (out & Ho & Hl & Hb);
    [simpl; lia|reflexivity|].
  exists out. split; [exact Ho|]. split; [exact Hl|exact Hb].
Defined.

(** An upload in progress, without and with its first part. *)
Definition uid1 : Uuid := "u1".
Definition uid2 : Uuid := "u2".
Definition uid3 : Uuid := "u3".
Definition upload_backend : Backend := (tell (λ s, insert_multipart s "bk" uid1 "k") fresh_backend).2.
Definition etag1 : string := hex_encode (md5 (as_bytes "hello world")).
Definition add_part (s : Store) : Store := insert_part s "bk" uid1 1 (blake3 <$> chunks) 11 etag1.
Definition part_backend : Backend :=
  (tell add_part
        (upload 3000000 (Some <$> frames) upload_backend).2).2.

Lemma upload_backend_good : good known upload_backend.
Proof. apply (good_tell known _ fresh_backend fresh_good); done. Qed.

Lemma part_backend_good :
  good known part_backend ∧ Forall (λ d, held (node part_backend) (blake3 d)) chunks.
Proof.
  unfold part_backend.
  destruct (upload_good known known_inj 3000000 frames chunks upload_backend) as (b1 & -> & Hg & _ & Hh & _);
    [exact upload_backend_good|vm_compute; reflexivity|exact frames_known|vm_compute; reflexivity|].
  cbn [snd]. destruct (good_tell known add_part b1 Hg)
    as [Hg' Hh']; [done..|].
  split; [exact Hg'|]. eapply Forall_impl; [exact Hh|]. intros d Hd. by apply Hh'.
Qed.

Lemma complete_multipart_roundtrip_witness :
  ∃ etag b' out, complete_multipart_upload root 5000000 "bk" "k" "u1" part_backend = (Ok etag, b') ∧
    get_object offline root 6000000 "bk" "k" None b' = (Ok out, b') ∧
    stream_body offline 7000000 out b' = (Ok (as_bytes "hello world"), b').
Proof.
  destruct (complete_multipart_roundtrip offline known root 5000000 6000000 7000000 "bk" "k" "u1" uid1
    [chunks] part_backend) as (etag & b' & Hc & _ & _ & _ & Hg & _).
  - exact known_inj.
  - apply part_backend_good.
  - apply authorize_ok. vm_compute. reflexivity.
  - apply authorize_ok. vm_compute. reflexivity.
  - reflexivity.
  - vm_compute. reflexivity.
  - assert (list_parts (db (node part_backend)) "bk" uid1 = [(1, blake3 <$> chunks, 11, etag1)]) as ->
      by (vm_compute; reflexivity).
    constructor; [|constructor]. split; [done|done|vm_compute; eauto|exact frames_known|apply part_backend_good].
  - vm_compute. reflexivity.
  - destruct Hg as (out & Ho & _ & _ & Hb).
    { intros r Hr. exfalso. revert Hr. vm_compute. discriminate. }
    exists etag, b', out. split; [exact Hc|]. split; [exact Ho|exact Hb].
Defined.

Lemma upload_part_records_witness :
  ∃ b', upload_part root 3000000 "bk" "k" "u1" 7 (Some (Some <$> frames)) upload_backend = (Ok (quoted etag1), b') ∧
    (7, blake3 <$> chunks, 11, etag1) ∈ list_parts (db (node b')) "bk" uid1.
Proof.
  destruct (upload_part_records known root 3000000 "bk" "k" "u1" uid1 "k" 7 frames chunks upload_backend)
    as (b' & Hu & _ & _ & Hp);
    [exact known_inj|exact upload_backend_good|apply authorize_ok; vm_compute; reflexivity|reflexivity
    |reflexivity|vm_compute; reflexivity|vm_compute; reflexivity|exact frames_known|vm_compute; reflexivity|].
  exists b'. split; [exact Hu|]. apply Hp. by left.
Defined.

(** A bucket with one object. *)
Definition object_store : Store := insert_object fresh_store 2000000 "private" 0 "doc" [] 3 "e".

Lemma delete_then_get_witness :
  ∃ b', delete_object root 5000000 "private" "doc" (backend_of object_store) = (Ok tt, b') ∧
    get_object offline root 6000000 "private" "doc" None b' = (Err (Fault NoSuchKey), b').
Proof.
  destruct (delete_then_get offline root 5000000 6000000 "private" "doc" None (backend_of object_store))
    as (b' & Hd & Hg & _).
  - apply authorize_ok. vm_compute. reflexivity.
  - apply authorize_ok. vm_compute. reflexivity.
  - intros r. vm_compute. by intros [= <-].
  - exists b'. split; [exact Hd|exact Hg].
Defined.

Lemma denied_changes_nothing_witness :
  put_object None 5000000 "bk" "k" None fresh_backend = (Err (Fault AccessDenied), fresh_backend).
Proof.
  apply (denied_changes_nothing offline None 5000000 "bk" "k" "u1" uid1 1 None FromAccessPoint None []
    (Fault AccessDenied) fresh_backend). vm_compute. reflexivity.
Defined.

Lemma guard_refuses_writes_witness :
  let b := mkBackend (node fresh_backend) (mkGuard 0 0 10 10) in
  put_object root 5000000 "bk" "k" None b = (Err (Fault ServiceUnavailable), b).
Proof.
  intros b. apply (guard_refuses_writes offline root 5000000 "bk" "k" "u1" 1 None FromAccessPoint None b).
  - apply authorize_ok. vm_compute. reflexivity.
  - vm_compute. eauto.
Defined.

(** A user that may put objects below [out] and nothing else. *)
Definition writer_policy : Policy :=
  {| statements := [{| effect := "Allow"; actions := ["s3:PutObject"]; resources := ["arn:ss:bucket:::out*"] |}] |}.
Definition writer_store : Store := create_user object_store 2500000 "writer" "secret" writer_policy.
Definition writer : option string := Some "writer".

(** A copy is not checked against its source.  A user that is denied reading an object
    can copy it into a bucket it may write: the copy names the same blocks. *)
Theorem copy_object_source_unchecked :
  let b := backend_of writer_store in
  (get_object offline writer 5000000 "private" "doc" None b).1 = Err (Fault AccessDenied) ∧
  let '(r, b') := copy_object writer 5000000 "out" "stolen" (FromBucket "private" "doc") b in
  r = Ok (quoted "e") ∧
  Store.get_object (db (node b')) "out" "stolen" = Store.get_object (db (node b)) "private" "doc".
Proof. vm_compute. done. Qed.

(** A user that may delete on the bucket resource itself. *)
Definition bucket_policy : Policy :=
  {| statements := [{| effect := "Allow"; actions := ["s3:DeleteObject"]; resources := ["arn:ss:bucket:::private"] |}] |}.
Definition deleter : option string := Some "deleter".
Definition deleter_store : Store := create_user object_store 2500000 "deleter" "secret" bucket_policy.

(** A bulk delete is checked against the bucket only.  A user that is denied deleting a
    key on its own deletes it by naming it in a bulk request. *)
Theorem delete_objects_bucket_level :
  let b := backend_of deleter_store in
  (delete_object deleter 5000000 "private" "doc" b).1 = Err (Fault AccessDenied) ∧
  let '(r, b') := delete_objects deleter 5000000 "private" ["doc"] b in
  r = Ok ["doc"] ∧ Store.get_object (db (node b')) "private" "doc" = None.
Proof. vm_compute. done. Qed.

(** The suffix of a multipart etag counts blocks.  The upload has one part of three
    blocks, and its etag ends in [-3]. *)
Theorem multipart_etag_counts_blocks :
  length (list_parts (db (node part_backend)) "bk" uid1) = 1%nat ∧
  (complete_multipart_upload root 5000000 "bk" "k" "u1" part_backend).1 =
    Ok (quoted (hex_encode (md5 (md5 (as_bytes "hello world"))) +:+ "-3")).
Proof. vm_compute. done. Qed.

(** Two uploads of one key and one of another. *)
Definition uploads_store : Store :=
  insert_multipart (insert_multipart (insert_multipart fresh_store "bk" uid1 "k") "bk" uid2 "k") "bk" uid3 "z".

(** Paging through multipart uploads loses uploads.  The marker is a key, so when a page
    ends between two uploads of one key the second is on no page. *)
Theorem multipart_paging_skips :
  let b := backend_of uploads_store in
  (s3_list_multipart_uploads root "bk" None None (Some 1) b).1 = Ok (Some [("k", "u1")], true, Some "k") ∧
  (s3_list_multipart_uploads root "bk" None (Some "k") (Some 1) b).1 = Ok (Some [("z", "u3")], false, None).
Proof. vm_compute. done. Qed.

(** The prefix of a multipart listing is a LIKE pattern: an underscore stands for any
    character and letter case is ignored, so uploads without the prefix are listed. *)
Theorem multipart_prefix_is_pattern :
  (s3_list_multipart_uploads root "bk" (Some "_") None None (backend_of uploads_store)).1 =
    Ok (Some [("k", "u1"); ("k", "u2"); ("z", "u3")], false, None) ∧
  (s3_list_multipart_uploads root "bk" (Some "K") None None (backend_of uploads_store)).1 =
    Ok (Some [("k", "u1"); ("k", "u2")], false, None).
Proof. vm_compute. done. Qed.
End S3Runs.
