(* ===== verification/Sync.v ===== *)
(** * Fact sync and membership between sites (src/main.rs: [sync_facts_once],
    [gossip_membership])

    A site pulls the facts of each peer page by page from its cursor and applies them.
    What a peer answers is a parameter; in the theorems about two sites it is the page
    [facts_since] serves at the peer. *)

From S2P Require Import Prelude Crates Clock Hashing Listing Policy Tables Store FactLog.

Definition FACT_SYNC_BATCH : Z := 500.

Section sync.
Context `{!Blake3, !Hex, !UuidCodec, !Json, !IterOrder}.
Context (noise_get_facts : string → Z → result error (list (FactRecord Value))).

(** One fact of a page: a fact that does not apply is skipped and does not advance
    [max_seq]. *)
Definition apply_step (t : SystemTime) (acc : Store * Z) (f : FactRecord Value) : Store * Z :=
  let '(s, max_seq) := acc in
  match apply_fact s t f with
  | Ok s' => (s', Z.max max_seq (seq f))
  | Err _ => (s, max_seq)
  end.

(** The loop over one peer's pages; [None] when it has not ended within the fuel. *)
Fixpoint sync_peer (fuel : nat) (t : SystemTime) (peer_id peer_url : string) (s : Store) : option Store :=
  match fuel with
  | O => None
  | S f =>
      let after := get_cursor s peer_id in
      match noise_get_facts peer_url after with
      | Err _ => Some s
      | Ok facts =>
          match facts with
          | [] => Some s
          | _ =>
              let '(s1, max_seq) := foldl (apply_step t) (s, after) facts in
              let s2 := set_cursor s1 peer_id max_seq in
              if Z.of_nat (length facts) <? FACT_SYNC_BATCH then Some s2
              else sync_peer f t peer_id peer_url s2
          end
      end
  end.

Fixpoint sync_loop (fuel : nat) (t : SystemTime) (peers : list (string * string)) (s : Store) : option Store :=
  match peers with
  | [] => Some s
  | (peer_id, peer_url) :: rest =>
      s' ← sync_peer fuel t peer_id peer_url s; sync_loop fuel t rest s'
  end.

Definition sync_facts_once (fuel : nat) (t : SystemTime) (peers : gmap string string) (s : Store) : option Store :=
  sync_loop fuel t (iter_order (map_to_list peers)) s.

(** [gossip_membership]: what a peer answers at [/internal/nodes], [None] when the body is
    not JSON. *)
Definition gossip_peer (t : SystemTime) (answer : result error (option (list (string * string)))) (s : Store) : Store :=
  match answer with
  | Ok (Some nodes) => foldl (λ s '(id, url), record_peer s t id url) s nodes
  | _ => s
  end.
Definition gossip_membership (get_nodes : string → result error (option (list (string * string))))
    (t : SystemTime) (peers : gmap string string) (s : Store) : Store :=
  foldl (λ s p, gossip_peer t (get_nodes p.2) s) s (iter_order (map_to_list peers)).

(** ** Pages *)

(** Facts [apply_fact] accepts. *)
Definition applicable (f : Fact Value) : Prop :=
  match f with
  | ObjectPut _ _ bl _ _ => is_Some (mapM hex_decode bl)
  | BlockAnnounce h _ fid _ => is_Some (hex_decode h) ∧ is_Some (hex_decode fid)
  | _ => True
  end.

Lemma apply_applicable s t rec : applicable (fact rec) ↔ ∃ s', apply_fact s t rec = Ok s'.
Proof.
  unfold apply_fact, applicable. destruct rec as [n ts0 []]; simpl.
  - destruct (mapM hex_decode blocks); split; [by eauto..|by intros [? ?]|by intros [? ?]].
  - split; by eauto.
  - destruct (hex_decode hash), (hex_decode fid);
      (split; [intros [[? ?] [? ?]]|intros [? ?]]); by eauto.
  - split; by eauto.
Qed.

(** A site's own facts apply anywhere: it writes its hashes in hex itself. *)
Lemma site_applicable s own seen : site s own seen → Forall (λ x, applicable x.2) own.
Proof.
  induction 1 as [|s own seen t o _ IH]; [done|]. apply Forall_app. split; [done|].
  destruct o; repeat constructor; simpl; rewrite ?mapM_hex_encode, ?hex_decode_encode; eauto.
Qed.

Lemma apply_cursors s t rec s' :
  apply_fact s t rec = Ok s' → replication_cursors s' = replication_cursors s.
Proof.
  unfold apply_fact. destruct rec as [n ts0 []]; simpl.
  - destruct (mapM hex_decode blocks); [|done]. by intros [= <-].
  - by intros [= <-].
  - destruct (hex_decode hash), (hex_decode fid); try done. destruct (_ && _); by intros [= <-].
  - by intros [= <-].
Qed.

Lemma apply_page t l : ∀ n s own seen,
  site s own seen → Forall (λ x, applicable x.2) l →
  ∃ s', foldl (apply_step t) (s, n) (records_from (n + 1) l) = (s', n + Z.of_nat (length l)) ∧
    site s' own (seen ++ l) ∧ replication_cursors s' = replication_cursors s.
Proof.
  induction l as [|x l IH]; intros n s own seen Hs Hl.
  { exists s. rewrite app_nil_r. simpl. rewrite Z.add_0_r. done. }
  apply Forall_cons in Hl as [Hx Hl].
  destruct (proj1 (apply_applicable s t (mkRecord (n + 1) x.1 x.2)) Hx) as [s1 H1s].
  pose proof (site_run s own seen t (OpApplyFact (mkRecord (n + 1) x.1 x.2)) Hs) as Hs1.
  cbn [run_op logs sees] in Hs1. rewrite H1s, app_nil_r in Hs1.
  destruct (IH (n + 1) s1 own (seen ++ [x])) as (s' & Hf & Hs' & Hc').
  { by destruct x. }
  { done. }
  exists s'. split_and!.
  - cbn [records_from foldl]. unfold apply_step at 2. rewrite H1s. cbn [seq].
    rewrite Z.max_r by lia. rewrite Hf. f_equal. simpl. lia.
  - by rewrite <- app_assoc in Hs'.
  - by rewrite Hc', (apply_cursors _ _ _ _ H1s).
Qed.

Lemma records_from_length n l : length (records_from n l) = length l.
Proof. revert n. induction l; intros n; simpl; auto. Qed.

Lemma set_cursor_get s peer n : get_cursor s peer < n → get_cursor (set_cursor s peer n) peer = n.
Proof.
  unfold get_cursor, set_cursor. simpl. rewrite lww_upsert_lookup. unfold lww_join.
  destruct (replication_cursors s !! peer) as [c|]; simpl; [|done].
  intros Hlt. unfold id in *. by rewrite (proj2 (Z.ltb_lt _ _)) by lia.
Qed.
End sync.

(** ** Pulling from a peer *)

Section pull.
Context `{!Blake3, !Hex, !UuidCodec, !Json, !IterOrder}.

(** The pages the peer with store [sp] serves. *)
Definition serves (sp : Store) (_url : string) (after : Z) : result error (list (FactRecord Value)) :=
  facts_since sp after FACT_SYNC_BATCH.

Abbreviation BATCH := (Z.to_nat FACT_SYNC_BATCH).

(** [answers] is how the peer is reached: for the cursors of a pull it gives what the peer
    serves. *)
Lemma sync_peer_pulls sp ownp seenp t peer url answers : site sp ownp seenp →
  (∀ c, (c ≤ length ownp)%nat → answers url (Z.of_nat c) = serves sp url (Z.of_nat c)) →
  ∀ fuel s own seen c,
  site s own seen → get_cursor s peer = Z.of_nat c → (c ≤ length ownp)%nat →
  (length ownp - c < fuel * BATCH)%nat →
  ∃ s', sync_peer answers fuel t peer url s = Some s' ∧ site s' own (seen ++ drop c ownp) ∧
    get_cursor s' peer = Z.of_nat (length ownp).
Proof.
  intros Hp Hans. assert (Forall (λ x, applicable x.2) ownp) as Happ by by eapply site_applicable.
  induction fuel as [|f IH]; intros s own seen c Hs Hc Hle Hfuel; [lia|].
  cbn [sync_peer]. rewrite Hc, Hans by done. unfold serves at 1.
  rewrite (site_facts_since sp ownp seenp) by (done || unfold FACT_SYNC_BATCH; lia).
  rewrite Nat2Z.id. set (l := take BATCH (drop c ownp)).
  destruct (decide (l = [])) as [Hl|Hl].
  { rewrite Hl. assert (drop c ownp = []) as Hd.
    { unfold l in Hl. destruct (drop c ownp); [done|]. unfold FACT_SYNC_BATCH in Hl. done. }
    exists s. rewrite Hd, app_nil_r. split_and!; try done. rewrite Hc.
    apply (f_equal length) in Hd. rewrite length_drop in Hd. simpl in Hd. lia. }
  assert (0 < length l)%nat as Hpos by (destruct l; [done|simpl; lia]).
  destruct (apply_page t l (Z.of_nat c) s own seen Hs) as (s1 & Hf & Hs1 & Hcur).
  { by apply Forall_take, Forall_drop. }
  destruct (records_from (Z.of_nat c + 1) l) as [|r rs] eqn:Hrec.
  { apply (f_equal length) in Hrec. rewrite records_from_length in Hrec. simpl in Hrec. lia. }
  rewrite Hf, <- Hrec, records_from_length.
  pose proof (site_run s1 own (seen ++ l) t (OpSetCursor peer (Z.of_nat c + Z.of_nat (length l))) Hs1) as Hs2.
  cbn [run_op logs sees] in Hs2. rewrite !app_nil_r in Hs2.
  assert (get_cursor (set_cursor s1 peer (Z.of_nat c + Z.of_nat (length l))) peer = Z.of_nat (c + length l)) as Hc2.
  { rewrite set_cursor_get; [lia|]. unfold get_cursor in *. rewrite Hcur, Hc. lia. }
  set (s2 := set_cursor _ _ _) in *.
  assert (length l = Nat.min BATCH (length ownp - c)) as Hlen by (unfold l; rewrite length_take, length_drop; done).
  destruct (Z.ltb_spec (Z.of_nat (length l)) FACT_SYNC_BATCH) as [Hlt|Hge].
  - assert (l = drop c ownp) as Hld.
    { unfold l. apply take_ge. rewrite length_drop. lia. }
    exists s2. split_and!; [done|by rewrite <- Hld|]. rewrite Hc2. lia.
  - destruct (IH s2 own (seen ++ l) (c + length l)%nat Hs2 Hc2) as (s' & He & Hs' & Hc'); [lia|lia|].
    exists s'. split_and!; try done. rewrite <- app_assoc in Hs'.
    assert (l ++ drop (c + length l) ownp = drop c ownp) as <-; [|done].
    rewrite <- drop_drop. unfold l at 1. assert (length l = BATCH) as -> by lia. apply take_drop.
Qed.

(** C10: a pull terminates and misses nothing.  Pulling from a reachable peer, in pages of
    [FACT_SYNC_BATCH], ends after at most one request more than the full pages left; the site
    has then applied every fact of the peer's log past its cursor, in order and once each,
    has logged nothing itself, and its cursor is the peer's last sequence number. *)
Theorem sync_peer_complete sp ownp seenp s own seen t peer url fuel c :
  site sp ownp seenp → site s own seen → get_cursor s peer = Z.of_nat c → (c ≤ length ownp)%nat →
  (length ownp - c < fuel * BATCH)%nat →
  ∃ s', sync_peer (serves sp) fuel t peer url s = Some s' ∧ site s' own (seen ++ drop c ownp) ∧
    get_cursor s' peer = Z.of_nat (length ownp).
Proof. intros. by eapply sync_peer_pulls. Qed.

(** Two sites that pull from each other converge.  Two sites that have each applied a
    prefix of the other's log, up to their cursor, and nothing else from outside, agree on
    every object, listing and user after each has pulled once, as long as their logs do not
    write one register at the same timestamp. *)
Theorem mutual_sync_converges s1 own1 s2 own2 t id1 id2 url1 url2 fuel c1 c2 seen1 seen2 :
  site s1 own1 seen1 → site s2 own2 seen2 →
  get_cursor s1 id2 = Z.of_nat c1 → (c1 ≤ length own2)%nat →
  get_cursor s2 id1 = Z.of_nat c2 → (c2 ≤ length own1)%nat →
  (∀ x, x ∈ seen1 ↔ x ∈ own1 ∨ x ∈ take c1 own2) →
  (∀ x, x ∈ seen2 ↔ x ∈ own2 ∨ x ∈ take c2 own1) →
  conflict_free (own1 ++ own2) → (length own1 + length own2 < fuel * BATCH)%nat →
  ∃ s1' s2', sync_peer (serves s2) fuel t id2 url2 s1 = Some s1' ∧
    sync_peer (serves s1) fuel t id1 url1 s2 = Some s2' ∧ objects s1' = objects s2' ∧
    (∀ bucket key, get_object s1' bucket key = get_object s2' bucket key) ∧
    (∀ access_key, get_user s1' access_key = get_user s2' access_key).
Proof.
  intros Hs1 Hs2 Hc1 Hl1 Hc2 Hl2 Hseen1 Hseen2 Hcf Hfuel.
  destruct (sync_peer_pulls s2 own2 seen2 t id2 url2 (serves s2) Hs2 (λ _ _, eq_refl) fuel s1 own1 seen1 c1) as (s1' & He1 & Hs1' & _); [done..|lia|].
  destruct (sync_peer_pulls s1 own1 seen1 t id1 url1 (serves s1) Hs1 (λ _ _, eq_refl) fuel s2 own2 seen2 c2) as (s2' & He2 & Hs2' & _); [done..|lia|].
  exists s1', s2'. split; [done|]. split; [done|].
  assert (∀ x, x ∈ seen1 ++ drop c1 own2 ↔ x ∈ own1 ++ own2) as Hx1.
  { intros x. rewrite <- (take_drop c1 own2) at 2. rewrite !elem_of_app, Hseen1. tauto. }
  assert (∀ x, x ∈ seen2 ++ drop c2 own1 ↔ x ∈ own1 ++ own2) as Hx2.
  { intros x. rewrite <- (take_drop c2 own1) at 2. rewrite !elem_of_app, Hseen2. tauto. }
  destruct (sites_agree s1' s2' own1 own2 (seen1 ++ drop c1 own2) (seen2 ++ drop c2 own1))
    as (Ho & Hg & _ & Hu); [done|done|by intros x; rewrite Hx1, Hx2| |done].
  intros x y Hx Hy. apply Hcf; by apply Hx1.
Qed.
End pull.

(** ** Membership *)

Section membership.
Context `{!IterOrder}.
Implicit Types (s : Store) (t : SystemTime).

(** No known node is forgotten and this node's own entry is untouched. *)
Definition extends (s s' : Store) : Prop :=
  local_location_id s' = local_location_id s ∧
  nodes s' !! local_location_id s = nodes s !! local_location_id s ∧
  ∀ id, is_Some (nodes s !! id) → is_Some (nodes s' !! id).

Lemma extends_refl s : extends s s.
Proof. done. Qed.

Lemma extends_trans s1 s2 s3 : extends s1 s2 → extends s2 s3 → extends s1 s3.
Proof.
  intros (Hi1 & Hn1 & Hk1) (Hi2 & Hn2 & Hk2). split_and!; [congruence| |auto].
  rewrite Hi1 in Hn2. congruence.
Qed.

Lemma record_peer_extends s t id url :
  extends s (record_peer s t id url) ∧
  (id ≠ local_location_id s → is_Some (nodes (record_peer s t id url) !! id)).
Proof.
  unfold record_peer. destruct (decide (id = local_location_id s)) as [Heq|Hne]; [done|].
  split.
  - split_and!; [done|by apply lookup_insert_ne|]. intros id' Hs. simpl.
    destruct (decide (id = id')) as [->|]; [rewrite lookup_insert_eq; eauto|by rewrite lookup_insert_ne].
  - intros _. simpl. rewrite lookup_insert_eq. eauto.
Qed.

Lemma record_all_extends t nodes0 : ∀ s,
  extends s (foldl (λ s '(id, url), record_peer s t id url) s nodes0) ∧
  ∀ id url, (id, url) ∈ nodes0 → id ≠ local_location_id s →
    is_Some (nodes (foldl (λ s '(id, url), record_peer s t id url) s nodes0) !! id).
Proof.
  induction nodes0 as [|[i u] l IH]; intros s; simpl.
  { split; [done|]. by intros id url ?%elem_of_nil. }
  destruct (record_peer_extends s t i u) as [He Hi]. destruct (IH (record_peer s t i u)) as [He' Hl].
  split; [by eapply extends_trans|]. intros id url [Heq|Hin]%elem_of_cons Hne.
  - injection Heq as -> ->. apply He', Hi. done.
  - apply (Hl id url); [done|]. destruct He as (-> & _). done.
Qed.

(** Gossip only adds.  A round of gossip forgets no node and never touches this node's own
    entry, whatever peers answer; every node a reachable peer reports is known after it. *)
Theorem gossip_membership_learns get_nodes t peers s :
  let s' := gossip_membership get_nodes t peers s in
  extends s s' ∧
  ∀ pid url reported id addr,
    peers !! pid = Some url → get_nodes url = Ok (Some reported) →
    (id, addr) ∈ reported → id ≠ local_location_id s → is_Some (nodes s' !! id).
Proof.
  unfold gossip_membership. cbv zeta.
  assert (∀ (l : list (string * string)) s, extends s (foldl (λ s p, gossip_peer t (get_nodes p.2) s) s l) ∧
    ∀ pid url reported id addr, (pid, url) ∈ l → get_nodes url = Ok (Some reported) →
      (id, addr) ∈ reported → id ≠ local_location_id s →
      is_Some (nodes (foldl (λ s p, gossip_peer t (get_nodes p.2) s) s l) !! id)) as Hall.
  { clear s. induction l as [|p l IH]; intros s; simpl.
    { split; [done|]. by intros pid url rep id addr ?%elem_of_nil. }
    assert (extends s (gossip_peer t (get_nodes p.2) s)) as He.
    { unfold gossip_peer. destruct (get_nodes p.2) as [[l0|]|]; [|done|done].
      apply record_all_extends. }
    destruct (IH (gossip_peer t (get_nodes p.2) s)) as [He' Hl].
    split; [by eapply extends_trans|]. intros pid url rep id addr [<-|Hin]%elem_of_cons Hg Hid Hne.
    - apply He'. simpl. unfold gossip_peer. rewrite Hg. by eapply record_all_extends.
    - eapply Hl; [done..|]. destruct He as (-> & _). done. }
  destruct (Hall (iter_order (map_to_list peers)) s) as [He Hl]. split; [done|].
  intros pid url rep id addr Hp Hg Hid Hne. eapply (Hl pid url); [|done..].
  by apply elem_of_iter_order, elem_of_map_to_list.
Qed.
End membership.

(** ** Concrete runs *)

Module SyncRuns.
#[local] Existing Instances Reference.blake3_pad Reference.hex_lower Reference.uuid_text.
#[local] Existing Instances JsonReference.json_tokens order_id.

Definition put_k : op := OpInsertObject "bk" "k" [] 3 "from-a".
Definition put_z : op := OpInsertObject "bk" "z" [] 4 "from-b".
Definition site_a : Store := run_op (empty_store "a" (Clock.new 0)) 5000000 put_k.
Definition site_b : Store := run_op (empty_store "b" (Clock.new 0)) 6000000 put_z.
Definition own_a : list (Z * Fact Value) := [(5000, ObjectPut "bk" "k" [] 3 "from-a")].
Definition own_b : list (Z * Fact Value) := [(6000, ObjectPut "bk" "z" [] 4 "from-b")].

Lemma site_a_ok : site site_a own_a own_a.
Proof. exact (site_run _ _ _ 5000000 put_k (site_open _ _)). Qed.
Lemma site_b_ok : site site_b own_b own_b.
Proof. exact (site_run _ _ _ 6000000 put_z (site_open _ _)). Qed.

Lemma sync_peer_complete_witness :
  ∃ s', sync_peer (serves site_b) 1 7000000 "b" "http://b" site_a = Some s' ∧
    site s' own_a (own_a ++ drop 0 own_b) ∧ get_cursor s' "b" = 1.
Proof.
  apply (sync_peer_complete site_b own_b own_b site_a own_a own_a 7000000 "b" "http://b" 1 0 site_b_ok site_a_ok);
    [reflexivity|simpl; lia|unfold FACT_SYNC_BATCH; simpl; lia].
Defined.

Lemma mutual_sync_converges_witness :
  ∃ a' b', sync_peer (serves site_b) 1 7000000 "b" "http://b" site_a = Some a' ∧
    sync_peer (serves site_a) 1 7000000 "a" "http://a" site_b = Some b' ∧ objects a' = objects b'.
Proof.
  destruct (mutual_sync_converges site_a own_a site_b own_b 7000000 "a" "b" "http://a" "http://b" 1 0 0 own_a own_b
    site_a_ok site_b_ok) as (a' & b' & Ha & Hb & Ho & _).
  - reflexivity.
  - simpl. lia.
  - reflexivity.
  - simpl. lia.
  - intros x. rewrite take_0, elem_of_nil. tauto.
  - intros x. rewrite take_0, elem_of_nil. tauto.
  - intros x y. unfold own_a, own_b. simpl. rewrite !elem_of_cons, !elem_of_nil.
    intros [->|[->|[]]] [->|[->|[]]]; simpl; first [done|lia].
  - unfold FACT_SYNC_BATCH. simpl. lia.
  - exists a', b'. split; [exact Ha|]. split; [exact Hb|exact Ho].
Defined.

(** A fact whose block hash is not hex, and a good one after it. *)
Definition bad_fact : FactRecord Value := mkRecord 1 10 (ObjectPut "bk" "lost" ["zz"] 1 "e").
Definition good_fact : FactRecord Value := mkRecord 2 20 (ObjectPut "bk" "kept" [] 1 "e").
Definition mixed (_ : string) (after : Z) : result error (list (FactRecord Value)) :=
  Ok (filter (λ r, after < seq r) [bad_fact; good_fact]).

(** A fact that fails to apply is passed over for good once a later fact of the page
    applies: the cursor moves past it and no later pull asks for it again. *)
Theorem sync_passes_failed_fact :
  let pull s := sync_peer mixed 2 7000000 "b" "http://b" s in
  match pull (empty_store "a" (Clock.new 0)) with
  | Some s => get_cursor s "b" = 2 ∧ get_object s "bk" "kept" = Some ([], 1, "e") ∧
              get_object s "bk" "lost" = None ∧ mixed "http://b" (get_cursor s "b") = Ok []
  | None => False
  end.
Proof. vm_compute. done. Qed.

Definition failing (_ : string) (_ : Z) : result error (list (FactRecord Value)) :=
  Ok (replicate 500 bad_fact).

(** A full page of facts that fail to apply is asked for again and again: the loop over
    that peer never ends, so the peers after it are never pulled. *)
Theorem sync_failing_page_never_ends fuel t s :
  sync_peer failing fuel t "b" "http://b" s = None.
Proof.
  revert s. induction fuel as [|f IH]; intros s; [done|].
  cbn [sync_peer]. unfold failing at 1.
  assert (∀ k n, foldl (apply_step t) (s, n) (replicate k bad_fact) = (s, n)) as Hk.
  { induction k as [|k IHk]; intros n; [done|]. cbn [replicate foldl]. exact (IHk n). }
  change (replicate 500 bad_fact) with (bad_fact :: replicate 499 bad_fact).
  rewrite (Hk 500%nat _ : foldl (apply_step t) (s, get_cursor s "b") (bad_fact :: replicate 499 bad_fact) = _).
  apply IH.
Qed.
End SyncRuns.
