(* ===== verification/Noise.v ===== *)
(** * The encrypted transport between sites (src/noise_transport.rs)

    [NoiseStream] wraps a byte stream: plaintext is cut into payloads, each is encrypted
    once into a frame with a two-byte length, and the peer reassembles and decrypts frames in
    order.  The definitions are its poll functions, on a stream that may accept or deliver any
    number of bytes or none at each poll.  The cipher states of the snow crate and the inner
    stream are interfaces. *)

From S2P Require Import Prelude Crates.

Definition FRAME_LEN_SIZE : Z := 2.
Definition MAX_NOISE_MSG : Z := 65535.
Definition TAG_LEN : Z := 16.

(** ** Interfaces *)

Inductive io_error : Type :=
  | WriteZero | UnexpectedEof | InvalidData | Other | InnerError.

(** [Poll<io::Result<A>>]; the last case is a call that panics. *)
Inductive poll (A : Type) : Type :=
  | Pending
  | Ready (r : result io_error A)
  | Panicked.
Arguments Pending {A}.
Arguments Ready {A} r.
Arguments Panicked {A}.

(** One direction of a snow transport: a key and the nonce counter of the next message.
    [None] is an error of the crate, which leaves the counter as it is.  [in_step n s r]: the
    sender's and the receiver's states of one direction expect the same message next and have
    nonces for [n] more; a payload that fits a message is then sealed with a tag of [TAG_LEN]
    bytes, and opening the sealed message gives the payload back. *)
Class Cipher := {
  CipherState : Type;
  encrypt : CipherState → bytes → option (bytes * CipherState);
  decrypt : CipherState → bytes → option (bytes * CipherState);
  in_step : nat → CipherState → CipherState → Prop;
  in_step_message : ∀ n s r p, in_step (S n) s r → blen p + TAG_LEN ≤ MAX_NOISE_MSG →
    ∃ c s' r', encrypt s p = Some (c, s') ∧ blen c = blen p + TAG_LEN ∧
      decrypt r c = Some (p, r') ∧ in_step n s' r';
}.

(** [snow::TransportState]: the two directions are independent. *)
Record TransportState `{!Cipher} : Type := mkTransport {
  sending : CipherState; receiving : CipherState
}.

(** [AsyncRead + AsyncWrite] of the inner stream, without the waker. *)
Class AsyncStream (S : Type) := {
  inner_read : S → Z → poll bytes * S;
  inner_write : S → bytes → poll nat * S;
  inner_flush : S → poll unit * S;
  inner_shutdown : S → poll unit * S;
}.

(** What a byte stream guarantees about its history: [sent] and [taken] are all the bytes it
    has accepted and delivered so far; a write accepts a front part of its buffer, a read
    delivers at most what was asked for, and nothing else changes either. *)
Class LawfulStream (S : Type) `{!AsyncStream S} := {
  sent : S → bytes;
  taken : S → bytes;
  inner_read_spec : ∀ s cap, 0 ≤ cap →
    sent (inner_read s cap).2 = sent s ∧
    match (inner_read s cap).1 with
    | Ready (Ok d) => blen d ≤ cap ∧ taken (inner_read s cap).2 = taken s ++ d
    | _ => taken (inner_read s cap).2 = taken s
    end;
  inner_write_spec : ∀ s buf,
    taken (inner_write s buf).2 = taken s ∧
    match (inner_write s buf).1 with
    | Ready (Ok n) => (n ≤ length buf)%nat ∧ sent (inner_write s buf).2 = sent s ++ take n buf
    | _ => sent (inner_write s buf).2 = sent s
    end;
  inner_flush_spec : ∀ s, sent (inner_flush s).2 = sent s ∧ taken (inner_flush s).2 = taken s;
  inner_shutdown_spec : ∀ s, sent (inner_shutdown s).2 = sent s ∧ taken (inner_shutdown s).2 = taken s;
}.

(** ** Frames *)

(** [put_u16] and [u16::from_be_bytes]. *)
Definition put_u16 (n : Z) : bytes :=
  [ascii_of_N (Z.to_N (n / 256 mod 256)); ascii_of_N (Z.to_N (n mod 256))].
Definition from_be_bytes (hi lo : ascii) : Z :=
  256 * Z.of_N (N_of_ascii hi) + Z.of_N (N_of_ascii lo).

Definition frame (c : bytes) : bytes := put_u16 (blen c) ++ c.

(** The frames of the handshake, on the bytes written and on the bytes to be read. *)
Definition send_frame (data : bytes) : option bytes :=
  if blen data <? 65536 then Some (put_u16 (blen data) ++ data) else None.
Definition recv_frame (wire : bytes) : option (bytes * bytes) :=
  match wire with
  | hi :: lo :: rest =>
      let len := from_be_bytes hi lo in
      if blen rest <? len then None else Some (take (Z.to_nat len) rest, drop (Z.to_nat len) rest)
  | _ => None
  end.

(** [slice::chunks]. *)
Fixpoint chunks {A} (fuel : nat) (n : nat) (l : list A) : list (list A) :=
  match fuel with
  | O => []
  | S f => match l with [] => [] | _ => take n l :: chunks f n (drop n l) end
  end.

(** ** Keys *)

Definition derive_psk `{!Blake3} (cluster_secret : string) : bytes := blake3 (as_bytes cluster_secret).

(** [b64_decode] is the base64 crate's decoder. *)
Definition decode_private_key (b64_decode : string → option bytes) (b64 : string) : option bytes :=
  match b64_decode b64 with
  | Some key => if length key =? 32 then Some key else None
  | None => None
  end%nat.

Section stream.
Context `{!Cipher} {IO : Type} `{!AsyncStream IO}.

Record NoiseStream : Type := mkStream {
  inner : IO;
  transport : TransportState;
  read_plain : bytes;
  read_cipher : bytes;
  write_cipher : bytes;
}.

Definition from_transport (i : IO) (t : TransportState) : NoiseStream := mkStream i t [] [] [].

Definition with_inner (s : NoiseStream) i := mkStream i (transport s) (read_plain s) (read_cipher s) (write_cipher s).
Definition with_plain (s : NoiseStream) b := mkStream (inner s) (transport s) b (read_cipher s) (write_cipher s).
Definition with_read_cipher (s : NoiseStream) b := mkStream (inner s) (transport s) (read_plain s) b (write_cipher s).
Definition with_write_cipher (s : NoiseStream) b := mkStream (inner s) (transport s) (read_plain s) (read_cipher s) b.
Definition with_receiving (s : NoiseStream) r := mkStream (inner s) (mkTransport _ (sending (transport s)) r) (read_plain s) (read_cipher s) (write_cipher s).
Definition with_sending (s : NoiseStream) r := mkStream (inner s) (mkTransport _ r (receiving (transport s))) (read_plain s) (read_cipher s) (write_cipher s).

(** ** Reading *)

(** A frame that does not decrypt has already been removed from the buffer. *)
Definition try_decrypt_one_frame (s : NoiseStream) : result io_error (option bytes) * NoiseStream :=
  match read_cipher s with
  | hi :: lo :: rest =>
      let frame_len := from_be_bytes hi lo in
      if blen (read_cipher s) <? FRAME_LEN_SIZE + frame_len then (Ok None, s) else
      let ciphertext := take (Z.to_nat frame_len) rest in
      let s := with_read_cipher s (drop (Z.to_nat frame_len) rest) in
      match decrypt (receiving (transport s)) ciphertext with
      | Some (plaintext, r) => (Ok (Some plaintext), with_receiving s r)
      | None => (Err InvalidData, s)
      end
  | _ => (Ok None, s)
  end.

Definition READ_SIZE : Z := 16 * 1024.

(** The loop of [poll_read] with [cap] bytes left in the caller's buffer; the value is what
    is put into it.  [None] when the loop has not ended within the fuel. *)
Fixpoint poll_read (fuel : nat) (s : NoiseStream) (cap : nat) : option (poll bytes * NoiseStream) :=
  match fuel with
  | O => None
  | S f =>
      match read_plain s with
      | _ :: _ =>
          let to_copy := Nat.min cap (length (read_plain s)) in
          Some (Ready (Ok (take to_copy (read_plain s))), with_plain s (drop to_copy (read_plain s)))
      | [] =>
          match try_decrypt_one_frame s with
          | (Err e, s) => Some (Ready (Err e), s)
          | (Ok (Some plaintext), s) => poll_read f (with_plain s (read_plain s ++ plaintext)) cap
          | (Ok None, s) =>
              match inner_read (inner s) READ_SIZE with
              | (Pending, i) => Some (Pending, with_inner s i)
              | (Panicked, i) => Some (Panicked, with_inner s i)
              | (Ready (Err e), i) => Some (Ready (Err e), with_inner s i)
              | (Ready (Ok filled), i) =>
                  let s := with_inner s i in
                  match filled with
                  | [] => match read_cipher s with
                          | [] => Some (Ready (Ok []), s)
                          | _ => Some (Ready (Err UnexpectedEof), s)
                          end
                  | _ => poll_read f (with_read_cipher s (read_cipher s ++ filled)) cap
                  end
              end
          end
      end
  end.

(** ** Writing *)

(** [advance] past the end of the buffer panics. *)
Fixpoint flush_loop (fuel : nat) (s : NoiseStream) : option (poll unit * NoiseStream) :=
  match fuel with
  | O => None
  | S f =>
      match write_cipher s with
      | [] => Some (Ready (Ok tt), s)
      | _ =>
          match inner_write (inner s) (write_cipher s) with
          | (Pending, i) => Some (Pending, with_inner s i)
          | (Panicked, i) => Some (Panicked, with_inner s i)
          | (Ready (Err e), i) => Some (Ready (Err e), with_inner s i)
          | (Ready (Ok O), i) => Some (Ready (Err WriteZero), with_inner s i)
          | (Ready (Ok n), i) =>
              let s := with_inner s i in
              if decide (length (write_cipher s) < n)%nat then Some (Panicked, s)
              else flush_loop f (with_write_cipher s (drop n (write_cipher s)))
          end
      end
  end.
(** Every round shortens the buffer. *)
Definition flush_write_cipher (s : NoiseStream) : option (poll unit * NoiseStream) :=
  flush_loop (S (length (write_cipher s))) s.

Definition max_payload : Z := MAX_NOISE_MSG - TAG_LEN.

(** The loop over the payloads; [false] when the crate refuses one. *)
Fixpoint encrypt_chunks (s : NoiseStream) (ps : list bytes) : bool * NoiseStream :=
  match ps with
  | [] => (true, s)
  | p :: ps' =>
      match encrypt (sending (transport s)) p with
      | Some (c, k) =>
          encrypt_chunks (with_write_cipher (with_sending s k) (write_cipher s ++ put_u16 (blen c) ++ c)) ps'
      | None => (false, s)
      end
  end.

(** The part of [poll_write] after the pending ciphertext is gone. *)
Definition write_payload (s : NoiseStream) (buf : bytes) : option (poll nat * NoiseStream) :=
  match encrypt_chunks s (chunks (S (length buf)) (Z.to_nat max_payload) buf) with
  | (false, s) => Some (Ready (Err Other), s)
  | (true, s) =>
      '(p, s) ← flush_write_cipher s;
      Some (match p with
            | Ready (Err e) => Ready (Err e)
            | Panicked => Panicked
            | Ready (Ok _) | Pending => Ready (Ok (length buf))
            end, s)
  end.

Definition poll_write (s : NoiseStream) (buf : bytes) : option (poll nat * NoiseStream) :=
  match write_cipher s with
  | [] => write_payload s buf
  | _ =>
      '(p, s) ← flush_write_cipher s;
      match p with
      | Ready (Ok _) => write_payload s buf
      | Ready (Err e) => Some (Ready (Err e), s)
      | Pending => Some (Pending, s)
      | Panicked => Some (Panicked, s)
      end
  end.

Definition after_flush (op : IO → poll unit * IO) (s : NoiseStream) : option (poll unit * NoiseStream) :=
  '(p, s) ← flush_write_cipher s;
  match p with
  | Ready (Ok _) => let '(p, i) := op (inner s) in Some (p, with_inner s i)
  | _ => Some (p, s)
  end.
Definition poll_flush : NoiseStream → option (poll unit * NoiseStream) := after_flush inner_flush.
Definition poll_shutdown : NoiseStream → option (poll unit * NoiseStream) := after_flush inner_shutdown.

(** ** Sessions *)

(** A connection's user polls it in any order; after an error or a panic the connection is
    dropped.  The result is the stream with the bytes the call accepted and delivered. *)
Inductive call : Type :=
  | PollRead (fuel cap : nat)
  | PollWrite (buf : bytes)
  | PollFlush
  | PollShutdown.

Definition run_call (c : call) (s : NoiseStream) : option (NoiseStream * bytes * bytes) :=
  match c with
  | PollRead fuel cap =>
      match poll_read fuel s cap with
      | Some (Ready (Ok d), s') => Some (s', [], d)
      | Some (Pending, s') => Some (s', [], [])
      | _ => None
      end
  | PollWrite buf =>
      match poll_write s buf with
      | Some (Ready (Ok n), s') => Some (s', take n buf, [])
      | Some (Pending, s') => Some (s', [], [])
      | _ => None
      end
  | PollFlush =>
      match poll_flush s with
      | Some (Ready (Ok _), s') | Some (Pending, s') => Some (s', [], [])
      | _ => None
      end
  | PollShutdown =>
      match poll_shutdown s with
      | Some (Ready (Ok _), s') | Some (Pending, s') => Some (s', [], [])
      | _ => None
      end
  end.

(** [session i t s accepted delivered]: the calls so far, on a stream made from [i] and [t],
    led to [s], accepted these bytes for sending and delivered those. *)
Inductive session (i : IO) (t : TransportState) : NoiseStream → bytes → bytes → Prop :=
  | session_start : session i t (from_transport i t) [] []
  | session_call s acc del c s' a d :
      session i t s acc del → run_call c s = Some (s', a, d) → session i t s' (acc ++ a) (del ++ d).

End stream.
Arguments NoiseStream {_} IO.

(** ** Framing *)

Definition small (c : bytes) : Prop := blen c ≤ MAX_NOISE_MSG.

Lemma from_be_put_u16 n : 0 ≤ n < 65536 →
  ∃ hi lo, put_u16 n = [hi; lo] ∧ from_be_bytes hi lo = n.
Proof.
  intros Hn. do 2 eexists. split; [reflexivity|]. unfold from_be_bytes.
  rewrite !N_ascii_embedding by
    (apply N2Z.inj_lt; rewrite Z2N.id by (apply Z.mod_pos_bound; lia); apply Z.mod_pos_bound; lia).
  rewrite !Z2N.id by (apply Z.mod_pos_bound; lia).
  rewrite (Z.mod_small (n / 256)) by (split; [apply Z.div_pos; lia|apply Z.div_lt_upper_bound; lia]).
  symmetry. apply Z.div_mod. lia.
Qed.

Lemma small_u16 c : small c → 0 ≤ blen c < 65536.
Proof. unfold small, MAX_NOISE_MSG. pose proof (blen_nonneg c). lia. Qed.

(** The length in front makes frames self-delimiting. *)
Lemma recv_frame_frame c rest : small c → recv_frame (frame c ++ rest) = Some (c, rest).
Proof.
  intros Hs%small_u16. destruct (from_be_put_u16 _ Hs) as (hi & lo & He & Hn).
  unfold frame. rewrite He. cbn [app recv_frame]. rewrite Hn, blen_app.
  pose proof (blen_nonneg rest). rewrite (proj2 (Z.ltb_ge _ _)) by lia.
  unfold blen. by rewrite Nat2Z.id, take_app_length, drop_app_length.
Qed.

Lemma frame_inj c1 c2 x y : small c1 → small c2 → frame c1 ++ x = frame c2 ++ y → c1 = c2 ∧ x = y.
Proof.
  intros H1 H2 He. pose proof (recv_frame_frame c1 x H1) as Hr.
  rewrite He, recv_frame_frame in Hr by done. by injection Hr as -> ->.
Qed.

Lemma frame_neq_nil c x : frame c ++ x ≠ [].
Proof. done. Qed.

Definition wire (cs : list bytes) : bytes := concat (frame <$> cs).

Lemma wire_app cs cs' : wire (cs ++ cs') = wire cs ++ wire cs'.
Proof. unfold wire. by rewrite fmap_app, concat_app. Qed.

Lemma wire_snoc cs c : wire (cs ++ [c]) = wire cs ++ frame c.
Proof. rewrite wire_app. unfold wire at 2. simpl. by rewrite app_nil_r. Qed.

(** Whole frames in front of a prefix of some frames are the first of them. *)
Lemma wire_prefix cs1 : ∀ cs2 rest,
  Forall small cs1 → Forall small cs2 → wire cs1 ++ rest `prefix_of` wire cs2 →
  ∃ cs3, cs2 = cs1 ++ cs3 ∧ rest `prefix_of` wire cs3.
Proof.
  induction cs1 as [|c cs1 IH]; intros cs2 rest H1 H2 [k Hk]; [by exists cs2; split; [|exists k]|].
  apply Forall_cons in H1 as [Hc H1].
  destruct cs2 as [|c2 cs2]; [done|]. apply Forall_cons in H2 as [Hc2 H2].
  change (wire (c2 :: cs2)) with (frame c2 ++ wire cs2) in Hk.
  change (wire (c :: cs1)) with (frame c ++ wire cs1) in Hk.
  rewrite <- !app_assoc in Hk. apply frame_inj in Hk as [<- Hk]; [|done..].
  destruct (IH cs2 rest H1 H2) as (cs3 & -> & Hp); [exists k; by rewrite Hk, app_assoc|].
  by exists cs3.
Qed.

(** ** Messages in order *)

(** Successive uses of one cipher state. *)
Inductive chain {St} (f : St → bytes → option (bytes * St)) : St → list bytes → list bytes → St → Prop :=
  | chain_nil s : chain f s [] [] s
  | chain_cons s x y s1 xs ys s2 :
      f s x = Some (y, s1) → chain f s1 xs ys s2 → chain f s (x :: xs) (y :: ys) s2.

Lemma chain_app {St} (f : St → bytes → option (bytes * St)) s xs ys s1 xs' ys' s2 :
  chain f s xs ys s1 → chain f s1 xs' ys' s2 → chain f s (xs ++ xs') (ys ++ ys') s2.
Proof. induction 1; simpl; eauto using @chain. Qed.

Lemma chain_snoc {St} (f : St → bytes → option (bytes * St)) s xs ys s1 x y s2 :
  chain f s xs ys s1 → f s1 x = Some (y, s2) → chain f s (xs ++ [x]) (ys ++ [y]) s2.
Proof. intros H1 H2. eapply chain_app; [done|]. by repeat econstructor. Qed.

(** Payloads [poll_write] makes. *)
Definition payload (p : bytes) : Prop := p ≠ [] ∧ blen p ≤ max_payload.

Lemma chunks_payload fuel n (l : bytes) :
  (0 < n)%nat → Z.of_nat n ≤ max_payload → Forall payload (chunks fuel n l).
Proof.
  intros Hn Hm. revert l. induction fuel as [|f IH]; intros l; [constructor|]. simpl.
  destruct l as [|a l]; [constructor|]. constructor; [|apply IH]. split.
  - destruct n; [lia|done].
  - unfold blen. rewrite length_take. lia.
Qed.

Lemma chunks_concat {A} fuel n (l : list A) :
  (0 < n)%nat → (length l < fuel)%nat → concat (chunks fuel n l) = l.
Proof.
  intros Hn. revert l. induction fuel as [|f IH]; intros l Hl; [lia|]. simpl.
  destruct l as [|a l]; [done|]. cbn [concat]. rewrite IH, take_drop; [done|].
  rewrite length_drop. simpl in *. lia.
Qed.

Section cipher.
Context `{!Cipher}.

(** What a receiver opens of a sender's first messages are the sender's payloads, and the
    rest can still be opened. *)
Lemma in_step_chain cs1 : ∀ n s r ps cs3 s' qs r1,
  in_step n s r → (length ps ≤ n)%nat → Forall payload ps →
  chain encrypt s ps (cs1 ++ cs3) s' → chain decrypt r cs1 qs r1 →
  ∃ ps3 s1 n1, ps = qs ++ ps3 ∧ chain encrypt s1 ps3 cs3 s' ∧ in_step n1 s1 r1 ∧
    (length ps3 ≤ n1)%nat ∧ Forall payload ps3.
Proof.
  induction cs1 as [|c cs1 IH]; intros n s r ps cs3 s' qs r1 Hst Hn Hps Hs Hr;
    inversion Hr as [|? ? q rq ? qs0 ? Hq Hr0]; subst; [by exists ps, s, n|].
  inversion Hs as [|? p ? sq ps0 ? ? He Hs0]; subst. apply Forall_cons in Hps as [[Hp0 Hp] Hps].
  destruct n as [|n]; [simpl in Hn; lia|].
  destruct (in_step_message n s r p Hst) as (c' & s2 & r2 & He' & _ & Hd & Hst').
  { unfold max_payload in Hp. lia. }
  simplify_eq. destruct (IH n sq rq ps0 cs3 s' qs0 r1) as (ps3 & s3 & n3 & -> & ?); try done.
  { simpl in Hn. lia. }
  by exists ps3, s3, n3.
Qed.

Lemma sealed_small n s r ps cs s' :
  in_step n s r → (length ps ≤ n)%nat → Forall payload ps → chain encrypt s ps cs s' → Forall small cs.
Proof.
  intros Hst Hn Hps Hc. revert n r Hst Hn Hps.
  induction Hc as [|s p c s1 ps cs s2 He Hc IH]; intros n r Hst Hn Hps; [constructor|].
  apply Forall_cons in Hps as [[_ Hp] Hps]. destruct n as [|n]; [simpl in Hn; lia|].
  destruct (in_step_message n s r p Hst) as (c' & s' & r' & He' & Hl & _ & Hst').
  { unfold max_payload in Hp. lia. }
  simplify_eq. constructor; [|eapply IH; try done; simpl in Hn; lia].
  unfold small. unfold max_payload in Hp. lia.
Qed.

(** Every payload has a byte. *)
Lemma payload_length ps : Forall payload ps → (length ps ≤ length (concat ps))%nat.
Proof.
  induction 1 as [|p ps [Hp _] _ IH]; simpl; [done|]. rewrite length_app.
  destruct p; [done|simpl; lia].
Qed.
End cipher.

Lemma from_be_range hi lo : 0 ≤ from_be_bytes hi lo ≤ 65535.
Proof. unfold from_be_bytes. pose proof (N_ascii_bounded hi). pose proof (N_ascii_bounded lo). lia. Qed.

Lemma put_u16_from_be hi lo : put_u16 (from_be_bytes hi lo) = [hi; lo].
Proof.
  unfold put_u16, from_be_bytes. pose proof (N_ascii_bounded hi). pose proof (N_ascii_bounded lo).
  rewrite Z.mul_comm, Z.div_add_l, Z.div_small, Z.add_0_r by lia.
  rewrite (Z.add_comm (_ * _)), Z.mod_add, !Z.mod_small by lia.
  by rewrite !N2Z.id, !ascii_N_embedding.
Qed.

(** A buffer whose front is a whole frame. *)
Lemma recv_frame_Some b c rest : recv_frame b = Some (c, rest) ↔ small c ∧ b = frame c ++ rest.
Proof.
  split; [|intros [? ->]; by apply recv_frame_frame].
  destruct b as [|hi [|lo b]]; [done..|]. cbn [recv_frame]. pose proof (from_be_range hi lo) as Hr.
  set (n := from_be_bytes hi lo) in *. destruct (Z.ltb_spec (blen b) n); [done|]. intros [= <- <-].
  assert (blen (take (Z.to_nat n) b) = n) as Hl.
  { unfold blen in *. rewrite length_take. lia. }
  unfold small, frame. rewrite Hl. split; [unfold MAX_NOISE_MSG; lia|].
  unfold n at 1. rewrite put_u16_from_be. simpl. by rewrite take_drop.
Qed.

Section lawful.
Context `{!Cipher} {IO : Type} `{!AsyncStream IO} `{!LawfulStream IO}.
Implicit Types s : NoiseStream IO.

(** ** One frame *)

Lemma try_decrypt_spec s :
  match recv_frame (read_cipher s) with
  | None => try_decrypt_one_frame s = (Ok None, s)
  | Some (c, rest) =>
      try_decrypt_one_frame s =
        match decrypt (receiving (transport s)) c with
        | Some (p, r) => (Ok (Some p), with_receiving (with_read_cipher s rest) r)
        | None => (Err InvalidData, with_read_cipher s rest)
        end
  end.
Proof.
  unfold try_decrypt_one_frame, recv_frame. destruct (read_cipher s) as [|hi [|lo b]]; [done..|].
  set (n := from_be_bytes hi lo).
  assert (blen (hi :: lo :: b) = FRAME_LEN_SIZE + blen b) as -> by (unfold blen, FRAME_LEN_SIZE; simpl; lia).
  destruct (Z.ltb_spec (blen b) n), (Z.ltb_spec (FRAME_LEN_SIZE + blen b) (FRAME_LEN_SIZE + n)); try lia; done.
Qed.

(** ** The invariants of the two directions *)

Definition sender_inv (i : IO) (t : TransportState) s (acc : bytes) : Prop :=
  ∃ ps cs, chain encrypt (sending t) ps cs (sending (transport s)) ∧ Forall payload ps ∧
    concat ps = acc ∧ sent (inner s) ++ write_cipher s = sent i ++ wire cs.

Definition receiver_inv (i : IO) (t : TransportState) s (del : bytes) : Prop :=
  ∃ cs ps, chain decrypt (receiving t) cs ps (receiving (transport s)) ∧ Forall small cs ∧
    concat ps = del ++ read_plain s ∧ taken (inner s) = taken i ++ wire cs ++ read_cipher s.

(** The receiving half is untouched. *)
Definition same_reader s s' : Prop :=
  taken (inner s') = taken (inner s) ∧ receiving (transport s') = receiving (transport s) ∧
  read_plain s' = read_plain s ∧ read_cipher s' = read_cipher s.
Definition same_writer s s' : Prop :=
  sent (inner s') = sent (inner s) ∧ sending (transport s') = sending (transport s) ∧
  write_cipher s' = write_cipher s.

Lemma same_reader_inv i t s s' del : same_reader s s' → receiver_inv i t s del → receiver_inv i t s' del.
Proof. intros (Hy1 & Hy2 & Hy3 & Hy4). unfold receiver_inv. by rewrite Hy1, Hy2, Hy3, Hy4. Qed.

Lemma same_writer_inv i t s s' acc : same_writer s s' → sender_inv i t s acc → sender_inv i t s' acc.
Proof. intros (Hy1 & Hy2 & Hy3). unfold sender_inv. by rewrite Hy1, Hy2, Hy3. Qed.

(** ** Writing *)

Lemma flush_loop_spec fuel : ∀ s p s',
  flush_loop fuel s = Some (p, s') →
  same_reader s s' ∧ sending (transport s') = sending (transport s) ∧
  sent (inner s') ++ write_cipher s' = sent (inner s) ++ write_cipher s ∧
  (p = Ready (Ok tt) → write_cipher s' = []).
Proof.
  induction fuel as [|f IH]; intros s p s'; [done|]. cbn [flush_loop].
  destruct (write_cipher s) as [|a w] eqn:Hw; [intros [= <- <-]; by rewrite Hw|].
  rewrite <- Hw in *. clear a w Hw. pose proof (inner_write_spec (inner s) (write_cipher s)) as [Ht Hs].
  destruct (inner_write (inner s) (write_cipher s)) as [[|[n|e]|] i]; cbn [fst snd] in *;
    try (intros [= <- <-]; unfold same_reader; simpl; by rewrite Ht, Hs).
  destruct Hs as [Hn Hs]. destruct n as [|n].
  { intros [= <- <-]. unfold same_reader. simpl. rewrite Ht, Hs. by rewrite app_nil_r. }
  simpl write_cipher. rewrite decide_False by lia. intros Hx%IH.
  destruct Hx as ((Hy1 & Hy2 & Hy3 & Hy4) & Hy5 & Hy6 & Hy7). cbn in Hy1, Hy2, Hy3, Hy4, Hy5, Hy6.
  unfold same_reader. rewrite Hy1, Hy2, Hy3, Hy4, Hy5, Hy6, Hs, Ht, <- app_assoc. by rewrite take_drop.
Qed.

Lemma flush_loop_returns fuel : ∀ s, (length (write_cipher s) < fuel)%nat → is_Some (flush_loop fuel s).
Proof.
  induction fuel as [|f IH]; intros s Hf; [lia|]. cbn [flush_loop].
  destruct (write_cipher s) as [|a w] eqn:Hw; [eauto|]. rewrite <- Hw in *.
  destruct (inner_write (inner s) (write_cipher s)) as [[|[[|n]|e]|] i]; eauto.
  destruct (decide _); [eauto|]. apply IH. simpl. rewrite length_drop, Hw in *. simpl in *. lia.
Qed.

Lemma flush_returns s : is_Some (flush_write_cipher s).
Proof. apply flush_loop_returns. lia. Qed.

Lemma encrypt_chunks_spec ps : ∀ s s',
  encrypt_chunks s ps = (true, s') →
  ∃ cs, chain encrypt (sending (transport s)) ps cs (sending (transport s')) ∧
    inner s' = inner s ∧ receiving (transport s') = receiving (transport s) ∧
    read_plain s' = read_plain s ∧ read_cipher s' = read_cipher s ∧
    write_cipher s' = write_cipher s ++ wire cs.
Proof.
  induction ps as [|p ps IH]; intros s s'; cbn [encrypt_chunks].
  { intros [= <-]. exists []. rewrite app_nil_r. split; [constructor|done]. }
  destruct (encrypt (sending (transport s)) p) as [[c k]|] eqn:He; [|done].
  intros (cs & Hc & Hy1 & Hy2 & Hy3 & Hy4 & Hy5)%IH. cbn in Hc, Hy1, Hy2, Hy3, Hy4, Hy5.
  exists (c :: cs). split_and!; [by econstructor|done..|]. rewrite Hy5.
  change (wire (c :: cs)) with (frame c ++ wire cs). unfold frame. by rewrite <- !app_assoc.
Qed.

Lemma max_payload_pos : (0 < Z.to_nat max_payload)%nat ∧ Z.of_nat (Z.to_nat max_payload) ≤ max_payload.
Proof. rewrite Z2Nat.id by (unfold max_payload, MAX_NOISE_MSG, TAG_LEN; lia). split; [|lia].
  apply (Z2Nat.inj_lt 0); unfold max_payload, MAX_NOISE_MSG, TAG_LEN; lia. Qed.

#[local] Instance same_reader_preorder : PreOrder same_reader.
Proof.
  split; [done|]. intros s1 s2 s3 (A1 & A2 & A3 & A4) (B1 & B2 & B3 & B4).
  unfold same_reader. by rewrite B1, B2, B3, B4.
Qed.

Lemma write_payload_spec i t s acc buf n s' :
  sender_inv i t s acc → write_payload s buf = Some (Ready (Ok n), s') →
  n = length buf ∧ sender_inv i t s' (acc ++ buf) ∧ same_reader s s'.
Proof.
  intros (ps & cs & Hc & Hp & <- & Hw). unfold write_payload.
  destruct max_payload_pos as [Hpos Hmax].
  pose proof (chunks_payload (S (length buf)) _ buf Hpos Hmax) as Hpl.
  pose proof (chunks_concat (S (length buf)) _ buf Hpos ltac:(lia)) as Hcat.
  set (bs := chunks (S (length buf)) (Z.to_nat max_payload) buf) in *. clearbody bs.
  destruct (encrypt_chunks s bs) as [[] s1] eqn:He; [|done].
  apply encrypt_chunks_spec in He as (cs' & Hc' & Hy1 & Hy2 & Hy3 & Hy4 & Hy5).
  destruct (flush_write_cipher s1) as [[p s2]|] eqn:Hf; [|done]. simpl.
  apply flush_loop_spec in Hf as (Hrd & Hsd & Hsw & _). intros Heq.
  assert (n = length buf ∧ s2 = s') as [-> <-].
  { by destruct p as [|[]|]; simplify_eq. }
  split; [done|]. split; [|etrans; [|exact Hrd]; unfold same_reader; by rewrite Hy1].
  exists (ps ++ bs), (cs ++ cs'). split_and!.
  - rewrite Hsd. by eapply chain_app.
  - by apply Forall_app.
  - by rewrite concat_app, Hcat.
  - by rewrite Hsw, Hy1, Hy5, wire_app, !app_assoc, Hw.
Qed.

Lemma flush_inv i t s acc p s' :
  sender_inv i t s acc → flush_write_cipher s = Some (p, s') → sender_inv i t s' acc ∧ same_reader s s'.
Proof.
  intros (ps & cs & Hc & Hp & Hcat & Hw) (Hrd & Hsd & Hsw & _)%flush_loop_spec.
  split; [|done]. exists ps, cs. by rewrite Hsd, Hsw.
Qed.

(** A write either accepts its whole buffer, or nothing and stays pending. *)
Lemma poll_write_inv i t s acc buf p s' :
  sender_inv i t s acc → poll_write s buf = Some (p, s') →
  match p with
  | Ready (Ok n) => n = length buf ∧ sender_inv i t s' (acc ++ buf) ∧ same_reader s s'
  | Pending => sender_inv i t s' acc ∧ same_reader s s'
  | _ => True
  end.
Proof.
  assert (∀ s0, sender_inv i t s0 acc → same_reader s s0 → write_payload s0 buf = Some (p, s') →
    match p with
    | Ready (Ok n) => n = length buf ∧ sender_inv i t s' (acc ++ buf) ∧ same_reader s s'
    | Pending => False
    | _ => True
    end) as Hwp.
  { intros s0 Hs0 Hr0 Hw. destruct p as [|[n|]|]; [| |done..].
    - unfold write_payload in Hw. destruct (encrypt_chunks _ _) as [[] s2]; [|done].
      destruct (flush_write_cipher s2) as [[[|[]|] s3]|]; simpl in Hw; congruence.
    - eapply write_payload_spec in Hw as (? & ? & Hr); [|done]. split_and!; [done..|by etrans]. }
  intros Hs. unfold poll_write. destruct (write_cipher s) as [|b w].
  { intros Hw. specialize (Hwp s Hs ltac:(done) Hw). by destruct p. }
  destruct (flush_write_cipher s) as [[q s1]|] eqn:Hf; [|done]. simpl.
  apply (flush_inv i t s acc) in Hf as [Hs1 Hr1]; [|done].
  destruct q as [|[u|]|]; [by intros [= <- <-]| |by intros [= <- <-]..].
  intros Hw. specialize (Hwp s1 Hs1 Hr1 Hw). by destruct p.
Qed.

(** ** Reading *)

(** The two ways the loop of [poll_read] moves on: a frame is opened, wire bytes arrive. *)
Lemma receiver_inv_frame i t s del c rest q r :
  receiver_inv i t s del → small c → read_cipher s = frame c ++ rest →
  decrypt (receiving (transport s)) c = Some (q, r) →
  let s' := with_receiving (with_read_cipher s rest) r in
  receiver_inv i t (with_plain s' (read_plain s' ++ q)) del.
Proof.
  intros (cs & ps & Hc & Hsm & Hcat & Ht) Hsc Hrc Hd. exists (cs ++ [c]), (ps ++ [q]). simpl. split_and!.
  - by eapply chain_snoc.
  - by apply Forall_app; split; [|constructor].
  - rewrite concat_app, Hcat. simpl. by rewrite app_nil_r, app_assoc.
  - by rewrite Ht, Hrc, wire_snoc, <- !app_assoc.
Qed.

Lemma receiver_inv_read i t s del j d :
  receiver_inv i t s del → taken j = taken (inner s) ++ d →
  receiver_inv i t (with_read_cipher (with_inner s j) (read_cipher s ++ d)) del.
Proof.
  intros (cs & ps & Hc & Hsm & Hcat & Ht) Hj. exists cs, ps. simpl. by rewrite Hj, Ht, <- !app_assoc.
Qed.

Lemma receiver_inv_inner i t s del j :
  receiver_inv i t s del → taken j = taken (inner s) → receiver_inv i t (with_inner s j) del.
Proof. unfold receiver_inv. simpl. by intros ? ->. Qed.

Lemma poll_read_spec i t fuel : ∀ s del cap p s',
  receiver_inv i t s del → poll_read fuel s cap = Some (p, s') →
  same_writer s s' ∧
  match p with
  | Ready (Ok d) => receiver_inv i t s' (del ++ d)
  | Ready (Err InvalidData) => True
  | _ => receiver_inv i t s' del
  end ∧
  (p = Pending → read_plain s' = [] ∧ recv_frame (read_cipher s') = None).
Proof.
  induction fuel as [|f IH]; intros s del cap p s' Hr; [done|]. cbn [poll_read].
  destruct (read_plain s) as [|a pl] eqn:Hpl.
  2:{ intros [= <- <-]. split_and!; [done| |done]. destruct Hr as (cs & ps & Hc & Hsm & Hcat & Ht).
      exists cs, ps. split_and!; try done. simpl. by rewrite Hcat, Hpl, <- app_assoc, take_drop. }
  pose proof (try_decrypt_spec s) as Hd.
  destruct (recv_frame (read_cipher s)) as [[c rest]|] eqn:Hrf.
  - apply recv_frame_Some in Hrf as [Hsc Hrc].
    destruct (decrypt (receiving (transport s)) c) as [[q r]|] eqn:Hdc; rewrite Hd; [|by intros [= <- <-]].
    intros Hx. eapply IH in Hx; [exact Hx|]. by eapply receiver_inv_frame.
  - rewrite Hd. pose proof (inner_read_spec (inner s) READ_SIZE ltac:(unfold READ_SIZE; lia)) as [Hs1 Hs2].
    destruct (inner_read (inner s) READ_SIZE) as [[|[d|e]|] j]; cbn [fst snd] in *.
    + intros [= <- <-]. split_and!; [done|by apply receiver_inv_inner|done].
    + destruct Hs2 as [_ Hs2]. destruct d as [|b d].
      * rewrite app_nil_r in Hs2. pose proof (receiver_inv_inner i t s del j Hr Hs2) as Hi.
        destruct (read_cipher (with_inner s j)); intros [= <- <-]; by rewrite ?app_nil_r.
      * intros Hx. eapply (IH _ del) in Hx; [|exact (receiver_inv_read i t s del j (b :: d) Hr Hs2)].
        destruct Hx as ((Hy1 & Hy2 & Hy3) & Hy4 & Hy5). split; [|done].
        unfold same_writer. rewrite Hy1, Hy2, Hy3. done.
    + intros [= <- <-]. split_and!; [done| |done]. pose proof (receiver_inv_inner i t s del j Hr Hs2). by destruct e.
    + intros [= <- <-]. split_and!; [done|by apply receiver_inv_inner|done].
Qed.

(** ** Whole sessions *)

(** [poll_flush] and [poll_shutdown] send what is buffered and accept nothing. *)
Lemma after_flush_inv op :
  (∀ j, sent (op j).2 = sent j ∧ taken (op j).2 = taken j) → ∀ i t s acc del s' a d,
  sender_inv i t s acc → receiver_inv i t s del →
  match after_flush op s with
  | Some (Ready (Ok _), s') | Some (Pending, s') => Some (s', [], [])
  | _ => None
  end = Some (s', a, d) →
  sender_inv i t s' (acc ++ a) ∧ receiver_inv i t s' (del ++ d).
Proof.
  intros Hop i t s acc del s' a d Hs Hr. unfold after_flush.
  destruct (flush_write_cipher s) as [[p s1]|] eqn:Hf; [|done]. simpl.
  apply (flush_inv i t s acc) in Hf as [Hs1 Hr1]; [|done]. apply (same_reader_inv i t _ _ del) in Hr1; [|done].
  assert (∀ j, sent j = sent (inner s1) → taken j = taken (inner s1) →
    sender_inv i t (with_inner s1 j) acc ∧ receiver_inv i t (with_inner s1 j) del) as Hj.
  { intros j Hj1 Hj2. unfold sender_inv, receiver_inv. simpl. by rewrite Hj1, Hj2. }
  pose proof (Hop (inner s1)) as [Ho1 Ho2].
  destruct p as [|[u|]|]; [| |done..].
  - intros [= <- <- <-]. by rewrite !app_nil_r.
  - destruct (op (inner s1)) as [[|[]|] j]; intros Hx; simplify_eq; rewrite !app_nil_r; by apply Hj.
Qed.

Lemma session_inv i t s acc del : session i t s acc del → sender_inv i t s acc ∧ receiver_inv i t s del.
Proof.
  induction 1 as [|s acc del c s' a d _ [Hs Hr] Hc].
  { split; exists [], []; (split; [constructor|]); simpl; by rewrite ?app_nil_r. }
  destruct c as [fuel cap|buf| |]; simpl in Hc.
  - destruct (poll_read fuel s cap) as [[p s1]|] eqn:Hp; [|done].
    apply (poll_read_spec i t _ _ del) in Hp as (Hw & Hd & _); [|done].
    apply (same_writer_inv i t) with (acc := acc) in Hw; [|done].
    destruct p as [|[x|]|]; simplify_eq; by rewrite ?app_nil_r.
  - destruct (poll_write s buf) as [[p s1]|] eqn:Hp; [|done].
    apply (poll_write_inv i t _ acc) in Hp; [|done].
    destruct p as [|[n|]|]; simplify_eq; rewrite ?app_nil_r.
    + destruct Hp as [? Hsr]. split; [done|by eapply same_reader_inv].
    + destruct Hp as (-> & ? & Hsr). rewrite firstn_all. split; [done|by eapply same_reader_inv].
  - apply (after_flush_inv inner_flush inner_flush_spec) with (i := i) (t := t) (acc := acc) (del := del) in Hc; auto.
  - apply (after_flush_inv inner_shutdown inner_shutdown_spec) with (i := i) (t := t) (acc := acc) (del := del) in Hc; auto.
Qed.

(** Writes, flushes and shutdowns always return: the buffer shrinks in every round. *)
Lemma poll_write_returns s buf : is_Some (poll_write s buf).
Proof.
  assert (∀ s, is_Some (write_payload s buf)) as Hwp.
  { intros s0. unfold write_payload. destruct (encrypt_chunks _ _) as [[] s1]; [|eauto].
    destruct (flush_returns s1) as [[p s2] ->]. simpl. eauto. }
  unfold poll_write. destruct (write_cipher s); [done|].
  destruct (flush_returns s) as [[p s2] ->]. simpl. destruct p as [|[]|]; eauto.
Qed.
End lawful.

(** ** Two ends of a connection *)

(** Their inner streams may be of different kinds. *)
Section ends.
Context `{!Cipher} {IO JO : Type} `{!AsyncStream IO} `{!LawfulStream IO} `{!AsyncStream JO} `{!LawfulStream JO}.
Implicit Types (sa : NoiseStream IO) (sb : NoiseStream JO) (ia : IO) (ib : JO).

(** The wire bytes the receiver has taken are a front part of those the sender has sent:
    what it has opened are the first payloads, and the rest of its bytes are a front part of
    the frames still to come, which it can open. *)
Lemma link_inv ia ta sa acc ib tb sb del n :
  sender_inv ia ta sa acc → receiver_inv ib tb sb del →
  in_step n (sending ta) (receiving tb) → (length acc ≤ n)%nat →
  taken ib = sent ia → taken (inner sb) `prefix_of` sent (inner sa) →
  ∃ k ps cs k' m, acc = del ++ read_plain sb ++ concat ps ∧ chain encrypt k ps cs k' ∧
    in_step m k (receiving (transport sb)) ∧ (length ps ≤ m)%nat ∧ Forall payload ps ∧ Forall small cs ∧
    read_cipher sb `prefix_of` wire cs ∧
    (write_cipher sa = [] → taken (inner sb) = sent (inner sa) → read_cipher sb = wire cs) ∧
    (cs = [] → write_cipher sa = [] ∧ taken (inner sb) = sent (inner sa)).
Proof.
  intros (ps & cs & Hc & Hp & <- & Hw) (cs1 & qs & Hd & Hsm & Hq & Ht) Hst Hn Hi Hpre.
  pose proof (payload_length ps Hp) as Hlen.
  assert (Forall small cs) as Hcs by (eapply sealed_small; [exact Hst| |exact Hp|exact Hc]; lia).
  assert (wire cs1 ++ read_cipher sb `prefix_of` wire cs) as Hpw.
  { destruct Hpre as [z Hz]. exists (z ++ write_cipher sa).
    apply (app_inv_head (sent ia)). by rewrite <- Hw, Hz, Ht, Hi, <- !app_assoc. }
  destruct (wire_prefix cs1 cs _ Hsm Hcs Hpw) as (cs3 & -> & Hrest).
  destruct (in_step_chain cs1 n (sending ta) (receiving tb) ps cs3 (sending (transport sa)) qs
    (receiving (transport sb)) Hst) as (ps3 & k & m & -> & Hc3 & Hm & Hl & Hp3); [lia|done..|].
  exists k, ps3, cs3, (sending (transport sa)), m. split_and!; try done.
  - by rewrite concat_app, Hq, <- app_assoc.
  - by apply Forall_app in Hcs as [_ ?].
  - intros Hwc He. rewrite Hwc, app_nil_r, <- He, Ht, Hi, wire_app in Hw.
    by apply app_inv_head, app_inv_head in Hw.
  - intros ->. rewrite wire_app, !app_nil_r in *. apply prefix_nil_inv in Hrest. rewrite Hrest, app_nil_r in Ht.
    destruct Hpre as [z Hz]. rewrite Hz, Ht, Hi, <- !app_assoc in Hw. apply app_inv_head in Hw.
    rewrite <- (app_nil_r (wire cs1)) in Hw at 2. apply app_inv_head, app_eq_nil in Hw as [-> Hw]. by rewrite Hz, app_nil_r.
Qed.

Lemma wire_no_frame cs : Forall small cs → recv_frame (wire cs) = None → cs = [].
Proof.
  destruct cs as [|c cs]; [done|]. intros [Hc _]%Forall_cons.
  change (wire (c :: cs)) with (frame c ++ wire cs). by rewrite recv_frame_frame.
Qed.

(** Delivered bytes are accepted ones, in order, and all of them once nothing is under way. *)
Lemma delivered_prefix ia ta sa acc_a del_a ib tb sb acc_b del_b n :
  session ia ta sa acc_a del_a → session ib tb sb acc_b del_b →
  in_step n (sending ta) (receiving tb) → (length acc_a ≤ n)%nat →
  taken ib = sent ia → taken (inner sb) `prefix_of` sent (inner sa) →
  del_b `prefix_of` acc_a ∧
  (∀ fuel cap sb', poll_read fuel sb cap = Some (Pending, sb') →
     write_cipher sa = [] → taken (inner sb') = sent (inner sa) → del_b = acc_a).
Proof.
  intros [Ha _]%session_inv [_ Hb]%session_inv Hst Hn Hi Hpre. split.
  - destruct (link_inv ia ta sa acc_a ib tb sb del_b n) as (k & ps & cs & k' & m & -> & _); try done.
    by apply prefix_app_r.
  - intros fuel cap sb' Hp Hw He.
    apply (poll_read_spec ib tb _ _ del_b) in Hp as (_ & Hb' & Hlast); [|done].
    destruct (Hlast eq_refl) as [Hpl Hrf].
    destruct (link_inv ia ta sa acc_a ib tb sb' del_b n) as
      (k & ps & cs & k' & m & -> & Hc & _ & _ & _ & Hsm & _ & Hall & _); try done; [by rewrite He|].
    rewrite (Hall Hw He) in Hrf. apply wire_no_frame in Hrf as ->; [|done].
    inversion Hc; subst. by rewrite Hpl, app_nil_r.
Qed.

(** C12: the transport is a reliable byte stream under any schedule of polls and any
    fragmentation and backpressure of the inner stream.  Take two ends whose cipher states
    are in step after the handshake, any sequences of reads, writes, flushes and shutdowns
    on each, and an inner stream that delivers what was sent, in order.  The bytes one end
    has delivered are a front part of the bytes the other has accepted; and when the sender's
    buffer is flushed, the wire is empty and the receiver is waiting, they are all of them. *)
Theorem noise_stream_reliable ia ta sa acc_a del_a ib tb sb acc_b del_b n :
  session ia ta sa acc_a del_a → session ib tb sb acc_b del_b →
  in_step n (sending ta) (receiving tb) → (length acc_a ≤ n)%nat →
  taken ib = sent ia → taken (inner sb) `prefix_of` sent (inner sa) →
  del_b `prefix_of` acc_a ∧
  (∀ fuel cap sb', poll_read fuel sb cap = Some (Pending, sb') →
     write_cipher sa = [] → taken (inner sb') = sent (inner sa) → del_b = acc_a).
Proof. apply delivered_prefix. Qed.

(** ** Reads end *)

(** Rounds a read needs: one for plaintext, two for a whole frame, and else one for every
    byte a frame can still lack. *)
Definition rounds sb : Z :=
  match read_plain sb, recv_frame (read_cipher sb) with
  | _ :: _, _ => 1
  | [], Some _ => 2
  | [], None => 65540 - blen (read_cipher sb)
  end.

Lemma recv_frame_None b : recv_frame b = None → blen b < 65537.
Proof.
  destruct b as [|hi [|lo b]]; [unfold blen; simpl; lia..|]. cbn [recv_frame].
  pose proof (from_be_range hi lo). destruct (Z.ltb_spec (blen b) (from_be_bytes hi lo)); [|done].
  intros _. unfold blen in *. cbn [length]. lia.
Qed.

Lemma rounds_bound sb : rounds sb ≤ 65540.
Proof.
  unfold rounds. destruct (read_plain sb), (recv_frame (read_cipher sb)); try lia. pose proof (blen_nonneg (read_cipher sb)). lia.
Qed.

(** The inner stream's answers while it stays in [I]. *)
Definition inner_answers (I : JO → Prop) (p : poll bytes) : Prop := ∃ j, I j ∧ (inner_read j READ_SIZE).1 = p.

(** How a read may end: with bytes, waiting, at a truncated frame, or as the inner stream
    fails. *)
Definition proper_end (I : JO → Prop) (p : poll bytes) : Prop :=
  match p with
  | Pending | Ready (Ok _) => True
  | Ready (Err UnexpectedEof) => True
  | Ready (Err e) => inner_answers I (Ready (Err e))
  | Panicked => inner_answers I Panicked
  end.

Lemma poll_read_ends ia ta sa acc ib tb n (I : JO → Prop) cap :
  sender_inv ia ta sa acc → in_step n (sending ta) (receiving tb) → (length acc ≤ n)%nat →
  taken ib = sent ia →
  (∀ j, I j → taken j `prefix_of` sent (inner sa) ∧ I (inner_read j READ_SIZE).2) →
  ∀ fuel s del, receiver_inv ib tb s del → I (inner s) → rounds s ≤ Z.of_nat fuel →
  ∃ p s', poll_read fuel s cap = Some (p, s') ∧ I (inner s') ∧ proper_end I p.
Proof.
  intros Ha Hst Hn Hi HI. induction fuel as [|f IH]; intros s del Hr Hin Hf.
  { exfalso. unfold rounds in Hf. destruct (read_plain s); [|lia].
    destruct (recv_frame (read_cipher s)) eqn:Hrf; [lia|]. apply recv_frame_None in Hrf. lia. }
  cbn [poll_read]. unfold rounds in Hf. destruct (read_plain s) as [|a pl] eqn:Hpl; [|solve [do 2 eexists; split_and!; done]].
  destruct (link_inv ia ta sa acc ib tb s del n) as
    (k & ps & cs & k' & m & _ & Hc & Hm & Hl & Hps & Hsm & Hpre & _); [done..|by destruct (HI _ Hin)|].
  pose proof (try_decrypt_spec s) as Hd.
  destruct (recv_frame (read_cipher s)) as [[c rest]|] eqn:Hrf; rewrite Hd.
  - apply recv_frame_Some in Hrf as [Hsc Hrc].
    destruct cs as [|c' cs]; [rewrite Hrc in Hpre; by apply prefix_nil_inv in Hpre|].
    inversion Hc as [|? p0 ? k1 ps0 ? ? He Hc']; subst.
    apply Forall_cons in Hps as [[Hp0 Hpm] _]. apply Forall_cons in Hsm as [Hsc' _].
    destruct m as [|m]; [simpl in Hl; lia|].
    destruct (in_step_message m k _ p0 Hm) as (c2 & k2 & r2 & He2 & _ & Hdec & _).
    { unfold max_payload in Hpm. lia. }
    simplify_eq. destruct Hpre as [z Hz]. rewrite Hrc, <- app_assoc in Hz.
    change (wire (c' :: cs)) with (frame c' ++ wire cs) in Hz.
    apply frame_inj in Hz as [-> _]; [|done..]. rewrite Hdec. cbn [read_plain with_receiving with_read_cipher].
    apply (IH _ del); [by eapply receiver_inv_frame|done|].
    unfold rounds. simpl. rewrite Hpl. simpl. destruct p0; [done|]. lia.
  - pose proof (inner_read_spec (inner s) READ_SIZE ltac:(unfold READ_SIZE; lia)) as [Hs1 Hs2].
    destruct (HI _ Hin) as [_ Hin'].
    assert (inner_answers I (inner_read (inner s) READ_SIZE).1) as Hans by (by exists (inner s)).
    destruct (inner_read (inner s) READ_SIZE) as [[|[d|e]|] j]; cbn [fst snd] in *; [solve [do 2 eexists; split_and!; done]| | |solve [do 2 eexists; split_and!; done]].
    + destruct Hs2 as [_ Hs2]. destruct d as [|b d].
      { destruct (read_cipher (with_inner s j)); solve [do 2 eexists; split_and!; done]. }
      apply (IH _ del); [exact (receiver_inv_read ib tb s del j (b :: d) Hr Hs2)|done|].
      pose proof (recv_frame_None _ Hrf). unfold rounds. simpl. rewrite Hpl.
        destruct (recv_frame (read_cipher s ++ b :: d)); [lia|].
        rewrite blen_app. unfold blen in *. cbn [length] in *. lia.
    + do 2 eexists. split_and!; [done..|]. by destruct e.
Qed.

(** A read on a connection with an honest peer ends, within [65540] rounds of its loop,
    and never with a decryption failure: it puts bytes, which continue what was delivered
    before, it waits, it reports a frame cut off by the end of the stream, or the inner
    stream itself failed.  [I] is any property of the inner stream's states that its reads
    keep and under which it has only delivered what the peer sent. *)
Theorem noise_read_ends ia ta sa acc_a del_a ib tb sb acc_b del_b n (I : JO → Prop) fuel cap :
  session ia ta sa acc_a del_a → session ib tb sb acc_b del_b →
  in_step n (sending ta) (receiving tb) → (length acc_a ≤ n)%nat → taken ib = sent ia →
  (∀ j, I j → taken j `prefix_of` sent (inner sa) ∧ I (inner_read j READ_SIZE).2) → I (inner sb) →
  65540 ≤ Z.of_nat fuel →
  ∃ p sb', poll_read fuel sb cap = Some (p, sb') ∧ proper_end I p ∧
    ∀ d, p = Ready (Ok d) → del_b ++ d `prefix_of` acc_a.
Proof.
  intros [Ha _]%session_inv [_ Hb]%session_inv Hst Hn Hi HI Hin Hf.
  destruct (poll_read_ends ia ta sa acc_a ib tb n I cap Ha Hst Hn Hi HI fuel sb del_b) as
    (p & sb' & Hp & Hin' & He); [done..|pose proof (rounds_bound sb); lia|].
  exists p, sb'. split_and!; [done..|]. intros d ->.
  apply (poll_read_spec ib tb _ _ del_b) in Hp as (_ & Hb' & _); [|done].
  destruct (link_inv ia ta sa acc_a ib tb sb' (del_b ++ d) n) as (k & ps & cs & k' & m & -> & _);
    [done..|by destruct (HI _ Hin')|]. by apply prefix_app_r.
Qed.

End ends.

(** ** A connection that can be run *)

Module NoiseRuns.

(** Messages carry their number, repeated, as tag. *)
Definition tag (k : nat) : bytes := replicate 16 (ascii_of_N (N.of_nat k)).
Definition toy_encrypt (k : nat) (p : bytes) : option (bytes * nat) := Some (p ++ tag k, S k).
Definition toy_decrypt (k : nat) (c : bytes) : option (bytes * nat) :=
  let p := take (length c - 16) c in
  if decide (c = p ++ tag k) then Some (p, S k) else None.

Lemma toy_message (n s r : nat) p : s = r → blen p + TAG_LEN ≤ MAX_NOISE_MSG →
  ∃ c s' r', toy_encrypt s p = Some (c, s') ∧ blen c = blen p + TAG_LEN ∧
    toy_decrypt r c = Some (p, r') ∧ s' = r'.
Proof.
  intros <- _. exists (p ++ tag s), (S s), (S s). unfold toy_encrypt, toy_decrypt, tag.
  rewrite blen_app, length_app, length_replicate.
  assert (length p + 16 - 16 = length p)%nat as -> by lia.
  rewrite take_app_length, decide_True by done. unfold blen. by rewrite length_replicate.
Qed.
#[local] Instance toy_cipher : Cipher := {|
  CipherState := nat; encrypt := toy_encrypt; decrypt := toy_decrypt;
  in_step n s r := s = r; in_step_message := toy_message
|}.

(** A stream that holds the bytes to be delivered and how many of them, or of the bytes
    offered, it moves at each poll; [None], and the end of the script, is pending. *)
Record pipe : Type := mkPipe {
  incoming : bytes; reads : list (option nat); writes : list (option nat); p_sent : bytes; p_taken : bytes
}.

#[local] Instance pipe_stream : AsyncStream pipe := {|
  inner_read s cap :=
    match reads s with
    | [] => (Pending, s)
    | None :: rs => (Pending, mkPipe (incoming s) rs (writes s) (p_sent s) (p_taken s))
    | Some n :: rs =>
        let d := take (Nat.min (Z.to_nat cap) n) (incoming s) in
        (Ready (Ok d), mkPipe (drop (Nat.min (Z.to_nat cap) n) (incoming s)) rs (writes s) (p_sent s) (p_taken s ++ d))
    end;
  inner_write s buf :=
    match writes s with
    | [] => (Pending, s)
    | None :: ws => (Pending, mkPipe (incoming s) (reads s) ws (p_sent s) (p_taken s))
    | Some n :: ws =>
        let k := Nat.min n (length buf) in
        (Ready (Ok k), mkPipe (incoming s) (reads s) ws (p_sent s ++ take k buf) (p_taken s))
    end;
  inner_flush s := (Ready (Ok tt), s);
  inner_shutdown s := (Ready (Ok tt), s);
|}.

#[local] Instance pipe_lawful : LawfulStream pipe.
Proof.
  refine {| sent := p_sent; taken := p_taken |}; simpl; try done.
  - intros s cap Hc. destruct (reads s) as [|[n|] rs]; simpl; [done| |done]. split_and!; try done.
    unfold blen. rewrite length_take. lia.
  - intros s buf. destruct (writes s) as [|[n|] ws]; simpl; [done| |done]. split_and!; try done. lia.
Defined.

Definition t0 : TransportState := mkTransport _ 0%nat 0%nat.

Definition run_calls (s : NoiseStream pipe) (cs : list call) : option (NoiseStream pipe * bytes * bytes) :=
  foldl (λ o c, '(s, acc, del) ← o; '(s', a, d) ← run_call c s; Some (s', acc ++ a, del ++ d)) (Some (s, [], [])) cs.

Lemma run_calls_session i t cs s acc del :
  run_calls (from_transport i t) cs = Some (s, acc, del) → session i t s acc del.
Proof.
  unfold run_calls. revert s acc del. induction cs as [|c cs IH] using rev_ind; intros s acc del; simpl.
  { intros [= <- <- <-]. constructor. }
  rewrite foldl_app. simpl. destruct (foldl _ _ cs) as [[[s0 acc0] del0]|]; [|done]. simpl.
  destruct (run_call c s0) as [[[s1 a] d]|] eqn:Hc; [|done]. simpl. intros [= <- <- <-].
  econstructor; [by apply IH|done].
Qed.

(** The sender's stream takes three bytes, then none, then five, then the rest; the receiver
    gets a byte, then six, then waits, then the rest. *)
Definition sender_pipe : pipe := mkPipe [] [] [Some 3; None; Some 5; None; None; Some 200; Some 200]%nat [] [].
Definition sender_calls : list call :=
  [PollWrite (as_bytes "hello "); PollFlush; PollWrite (as_bytes "noise"); PollWrite (as_bytes "noise"); PollFlush].
Definition end_of (i : pipe) (cs : list call) : NoiseStream pipe :=
  match run_calls (from_transport i t0) cs with Some (s, _, _) => s | None => from_transport i t0 end.
Definition sender_end : NoiseStream pipe := end_of sender_pipe sender_calls.
Definition receiver_pipe : pipe :=
  mkPipe (p_sent (inner sender_end)) [Some 1; Some 6; None; Some 300]%nat [] [] [].
Definition receiver_calls : list call := [PollRead 9 4; PollRead 9 4; PollRead 9 4; PollRead 9 100].
Definition receiver_end : NoiseStream pipe := end_of receiver_pipe receiver_calls.

Lemma sender_session : session sender_pipe t0 sender_end (as_bytes "hello noise") [].
Proof. apply (run_calls_session _ _ sender_calls). vm_compute. reflexivity. Qed.
Lemma receiver_session : session receiver_pipe t0 receiver_end [] (as_bytes "hello noise").
Proof. apply (run_calls_session _ _ receiver_calls). vm_compute. reflexivity. Qed.

Lemma noise_stream_reliable_witness :
  as_bytes "hello noise" `prefix_of` as_bytes "hello noise" ∧
  (∀ fuel cap sb', poll_read fuel receiver_end cap = Some (Pending, sb') →
     write_cipher sender_end = [] → taken (inner sb') = sent (inner sender_end) →
     as_bytes "hello noise" = as_bytes "hello noise").
Proof.
  apply (noise_stream_reliable sender_pipe t0 sender_end _ [] receiver_pipe t0 receiver_end [] _ 100).
  - apply sender_session.
  - apply receiver_session.
  - reflexivity.
  - vm_compute. lia.
  - reflexivity.
  - exists []. vm_compute. reflexivity.
Defined.

Lemma noise_read_ends_witness :
  ∃ p sb', poll_read (Z.to_nat 65540) (from_transport receiver_pipe t0) 4 = Some (p, sb') ∧
    proper_end (λ j, p_taken j ++ incoming j = p_sent (inner sender_end)) p ∧
    ∀ d, p = Ready (Ok d) → [] ++ d `prefix_of` as_bytes "hello noise".
Proof.
  apply (noise_read_ends sender_pipe t0 sender_end _ [] receiver_pipe t0 _ [] [] 100).
  - apply sender_session.
  - apply session_start.
  - reflexivity.
  - vm_compute. lia.
  - reflexivity.
  - intros j Hj. split; [by exists (incoming j)|].
    unfold inner_read, pipe_stream. destruct (reads j) as [|[k|] rs]; cbn [snd p_taken incoming]; [done| |done].
    by rewrite <- app_assoc, take_drop.
  - reflexivity.
  - rewrite Z2Nat.id; lia.
Defined.
End NoiseRuns.
