(* ===== verification/Handshake.v ===== *)
(** * The handshake of the encrypted transport (src/noise_transport.rs: [NoiseStream::accept],
    [NoiseStream::connect])

    The two ends of [Noise_XXpsk3] on a byte stream: who sends and reads which framed message
    when, and what is left of the stream for the transport that follows.  The handshake state
    of the snow crate is an interface with the documented behaviour of the pattern: the
    pre-shared key enters with the third message. *)

From S2P Require Import Prelude Crates Noise.

(** ** The snow crate *)

(** [Builder], [HandshakeState] and its messages, which carry no payload here.  [Seed] is the
    randomness of the ephemeral keys. *)
Class Snow `{!Cipher} := {
  HandshakeState : Type;
  Seed : Type;
  build_initiator : bytes → bytes → Seed → option HandshakeState;
  build_responder : bytes → bytes → Seed → option HandshakeState;
  write_message : HandshakeState → option (bytes * HandshakeState);
  read_message : HandshakeState → bytes → option HandshakeState;
  into_transport_mode : HandshakeState → option TransportState;
}.

(** The transports of the two ends of a finished handshake seal and open each other's
    messages, for as many as there are nonces. *)
Definition paired `{!Cipher} (ti tr : TransportState) : Prop :=
  ∀ n, Z.of_nat n < 2 ^ 64 - 1 → in_step n (sending ti) (receiving tr) ∧ in_step n (sending tr) (receiving ti).

Class LawfulSnow `{!Cipher, !Snow} := {
  xx_messages : ∀ ki kr psk_i psk_r si sr,
    length ki = 32%nat → length kr = 32%nat → length psk_i = 32%nat → length psk_r = 32%nat →
    ∃ i0 r0 m1 i1 r1 m2 r2 i2 m3 i3 ti,
      build_initiator ki psk_i si = Some i0 ∧ build_responder kr psk_r sr = Some r0 ∧
      write_message i0 = Some (m1, i1) ∧ read_message r0 m1 = Some r1 ∧
      write_message r1 = Some (m2, r2) ∧ read_message i1 m2 = Some i2 ∧
      write_message i2 = Some (m3, i3) ∧ into_transport_mode i3 = Some ti ∧
      Forall small [m1; m2; m3] ∧
      (psk_i = psk_r → ∃ r3 tr, read_message r2 m3 = Some r3 ∧ into_transport_mode r3 = Some tr ∧ paired ti tr) ∧
      (psk_i ≠ psk_r → read_message r2 m3 = None);
}.

(** ** The two ends *)

(** One end of the stream: the bytes that have arrived and are not read yet, those read and
    those written.  An end that needs more bytes than have arrived waits. *)
Record Channel : Type := mkChannel { unread : bytes; consumed : bytes; written : bytes }.
Inductive stop : Type := Waiting | Refused.

Section handshake.
Context `{!Cipher, !Snow}.
Abbreviation wire A := (io Channel stop A).

Definition try {A} (o : option A) : wire A := match o with Some a => ret a | None => fail Refused end.

Definition receive : wire bytes := λ c,
  match recv_frame (unread c) with
  | Some (msg, rest) =>
      (Ok msg, mkChannel rest (consumed c ++ take (length (unread c) - length rest) (unread c)) (written c))
  | None => (Err Waiting, c)
  end.
Definition transmit (data : bytes) : wire unit := λ c,
  match send_frame data with
  | Some out => (Ok tt, mkChannel (unread c) (consumed c) (written c ++ out))
  | None => (Err Refused, c)
  end.

Definition accept (private_key psk : bytes) (seed : Seed) : wire TransportState :=
  let! noise := try (build_responder private_key psk seed) in
  let! msg := receive in
  let! noise := try (read_message noise msg) in
  let! ' (out, noise) := try (write_message noise) in
  do! transmit out;
  let! msg := receive in
  let! noise := try (read_message noise msg) in
  try (into_transport_mode noise).

Definition connect (private_key psk : bytes) (seed : Seed) : wire TransportState :=
  let! noise := try (build_initiator private_key psk seed) in
  let! ' (out, noise) := try (write_message noise) in
  do! transmit out;
  let! msg := receive in
  let! noise := try (read_message noise msg) in
  let! ' (out, noise) := try (write_message noise) in
  do! transmit out;
  try (into_transport_mode noise).

(** What an end has written once [arrived] has arrived. *)
Definition writes_on {A} (end_ : wire A) (arrived : bytes) : bytes := written (end_ (mkChannel arrived [] [])).2.
End handshake.

(** ** The exchange *)

Lemma receive_frame m rest c w : small m → receive (mkChannel (frame m ++ rest) c w) = (Ok m, mkChannel rest (c ++ frame m) w).
Proof.
  intros Hm. unfold receive. cbn [unread consumed written]. rewrite recv_frame_frame by done.
  rewrite length_app, Nat.add_sub, take_app_length. done.
Qed.
Lemma receive_none c w : receive (mkChannel [] c w) = (Err Waiting, mkChannel [] c w).
Proof. done. Qed.
Lemma transmit_frame m u c w : small m → transmit m (mkChannel u c w) = (Ok tt, mkChannel u c (w ++ frame m)).
Proof.
  intros Hm%small_u16. unfold transmit, send_frame. rewrite (proj2 (Z.ltb_lt _ _)) by lia. done.
Qed.

Section exchange.
Context `{!Cipher, !Snow}.

(** The next step of an end, where its outcome is known. *)
Ltac end_step :=
  first [ rewrite receive_frame by done | rewrite receive_none | rewrite transmit_frame by done
        | match goal with H : ?f = Some _ |- context [?f] => rewrite H end ];
  unfold bind, try, ret, fail; cbv beta iota zeta; cbn [fst snd unread consumed written].

(** Both ends from the messages of the handshake state, with what follows the handshake. *)
Lemma connect_run ki psk si i0 m1 i1 m2 i2 m3 i3 ti :
  build_initiator ki psk si = Some i0 → write_message i0 = Some (m1, i1) → read_message i1 m2 = Some i2 →
  write_message i2 = Some (m3, i3) → into_transport_mode i3 = Some ti → Forall small [m1; m2; m3] →
  connect ki psk si (mkChannel [] [] []) = (Err Waiting, mkChannel [] [] (frame m1)) ∧
  ∀ extra, connect ki psk si (mkChannel (frame m2 ++ extra) [] []) =
    (Ok ti, mkChannel extra (frame m2) (frame m1 ++ frame m3)).
Proof.
  intros H1 H2 H3 H4 H5 Hsm. rewrite !Forall_cons in Hsm. destruct Hsm as (S1 & S2 & S3 & _).
  split; [|intros extra]; unfold connect, bind, try, ret; repeat end_step; done.
Qed.

Lemma accept_run kr psk sr r0 m1 r1 m2 r2 m3 :
  build_responder kr psk sr = Some r0 → read_message r0 m1 = Some r1 → write_message r1 = Some (m2, r2) →
  Forall small [m1; m2; m3] →
  accept kr psk sr (mkChannel (frame m1) [] []) = (Err Waiting, mkChannel [] (frame m1) (frame m2)) ∧
  ∀ extra, accept kr psk sr (mkChannel ((frame m1 ++ frame m3) ++ extra) [] []) =
    (match read_message r2 m3 with
     | Some r3 => match into_transport_mode r3 with Some tr => Ok tr | None => Err Refused end
     | None => Err Refused
     end, mkChannel extra (frame m1 ++ frame m3) (frame m2)).
Proof.
  intros H1 H2 H3 Hsm. rewrite !Forall_cons in Hsm. destruct Hsm as (S1 & S2 & S3 & _). split.
  - rewrite <- (app_nil_r (frame m1)) at 1. unfold accept, bind, try, ret. repeat end_step. done.
  - intros extra. rewrite <- app_assoc. unfold accept, bind, try, ret. repeat end_step.
    destruct (read_message r2 m3) as [r3|]; [|done]. by destruct (into_transport_mode r3).
Qed.
(** Both ends run against each other, each message as the other wrote it: the connecting end
    finishes, and the accepting end, which has read exactly what the other wrote, accepts or
    refuses by the pre-shared keys. *)
Lemma ends_meet `{!LawfulSnow} ki kr psk_i psk_r si sr :
  length ki = 32%nat → length kr = 32%nat → length psk_i = 32%nat → length psk_r = 32%nat →
  let hello := writes_on (connect ki psk_i si) [] in
  let reply := writes_on (accept kr psk_r sr) hello in
  ∃ ti ci r, connect ki psk_i si (mkChannel reply [] []) = (Ok ti, ci) ∧ unread ci = [] ∧
    (∀ extra, ∃ cr, accept kr psk_r sr (mkChannel (written ci ++ extra) [] []) = (r, cr) ∧
       unread cr = extra ∧ consumed cr = written ci ∧ consumed ci = written cr) ∧
    (psk_i = psk_r → ∃ tr, r = Ok tr ∧ paired ti tr) ∧ (psk_i ≠ psk_r → r = Err Refused).
Proof.
  intros Hki Hkr Hpi Hpr hello reply.
  destruct (xx_messages ki kr psk_i psk_r si sr Hki Hkr Hpi Hpr)
    as (i0 & r0 & m1 & i1 & r1 & m2 & r2 & i2 & m3 & i3 & ti & Hi0 & Hr0 & Hm1 & Hr1 & Hm2 & Hi2 & Hm3 & Hti & Hsm & Hsame & Hdiff).
  destruct (connect_run ki psk_i si i0 m1 i1 m2 i2 m3 i3 ti Hi0 Hm1 Hi2 Hm3 Hti Hsm) as [Hc0 Hc].
  destruct (accept_run kr psk_r sr r0 m1 r1 m2 r2 m3 Hr0 Hr1 Hm2 Hsm) as [Ha0 Ha].
  assert (reply = frame m2 ++ []) as ->.
  { unfold reply, hello, writes_on. rewrite Hc0. cbn [snd written]. by rewrite Ha0, app_nil_r. }
  do 3 eexists. split; [apply Hc|]. cbn [unread consumed written]. split_and!; [done| | |].
  - intros extra. eexists. split; [apply Ha|done].
  - intros Heq. destruct (Hsame Heq) as (r3 & tr & -> & -> & Hp). eauto.
  - intros Hne. by rewrite (Hdiff Hne).
Qed.
End exchange.

(** ** From the secret to the stream *)

Section secure.
Context `{!Blake3, !Cipher, !Snow, !LawfulSnow} {IO : Type} `{!AsyncStream IO} `{!LawfulStream IO}.

(** A stream from the end with transport [ts], which had written [out] in the handshake, to
    the end with transport [tr]: what the one delivers is a front part of what the other
    accepted, and all of it once everything is flushed and read. *)
Definition carries (ts tr : TransportState) (out : bytes) : Prop :=
  ∀ (ia : IO) sa acc_a del_a (ib : IO) sb acc_b del_b,
    sent ia = out → taken ib = out → session ia ts sa acc_a del_a → session ib tr sb acc_b del_b →
    Z.of_nat (length acc_a) < 2 ^ 64 - 1 → taken (inner sb) `prefix_of` sent (inner sa) →
    del_b `prefix_of` acc_a ∧
    ∀ fuel cap sb', poll_read fuel sb cap = Some (Pending, sb') →
      write_cipher sa = [] → taken (inner sb') = sent (inner sa) → del_b = acc_a.

Lemma carries_in_step ts tr out :
  (∀ n, Z.of_nat n < 2 ^ 64 - 1 → in_step n (sending ts) (receiving tr)) → carries ts tr out.
Proof.
  intros Hst ia sa acc_a del_a ib sb acc_b del_b Ho Ht Ha Hb Hn Hpre.
  eapply delivered_prefix; [exact Ha|exact Hb|apply Hst; exact Hn|done|congruence|done].
Qed.

(** C13: two sites with the same cluster secret get a channel.  Running both ends against each
    other, each message as the other end wrote it, the connecting end and the accepting end
    finish; the accepting end has read exactly what the other wrote and leaves what follows
    to the stream; and the streams made from the two transports carry bytes reliably in both
    directions. *)
Theorem secure_channel secret ki kr si sr extra :
  length ki = 32%nat → length kr = 32%nat →
  let psk := derive_psk secret in
  let hello := writes_on (connect ki psk si) [] in
  let reply := writes_on (accept kr psk sr) hello in
  ∃ ti tr ci cr, connect ki psk si (mkChannel reply [] []) = (Ok ti, ci) ∧
    accept kr psk sr (mkChannel (written ci ++ extra) [] []) = (Ok tr, cr) ∧
    unread ci = [] ∧ consumed ci = written cr ∧ unread cr = extra ∧ consumed cr = written ci ∧
    carries ti tr (written ci) ∧ carries tr ti (written cr).
Proof.
  intros Hki Hkr psk. pose proof (blake3_length (as_bytes secret)) as Hpsk.
  destruct (ends_meet ki kr psk psk si sr Hki Hkr Hpsk Hpsk) as (ti & ci & r & Hc & Hu & Ha & Hsame & _).
  destruct (Hsame eq_refl) as (tr & -> & Hp). destruct (Ha extra) as (cr & Hacc & ? & ? & ?).
  exists ti, tr, ci, cr. split_and!; try done; apply carries_in_step; intros n Hn; by apply Hp.
Qed.

(** Another secret is refused.  A site that connects with another secret (one with another
    derived key) believes itself connected after its last message, but the accepting end
    refuses that message, so no request of it is ever served. *)
Theorem wrong_secret_refused secret secret' ki kr si sr extra :
  length ki = 32%nat → length kr = 32%nat → derive_psk secret ≠ derive_psk secret' →
  let hello := writes_on (connect ki (derive_psk secret) si) [] in
  let reply := writes_on (accept kr (derive_psk secret') sr) hello in
  ∃ ti ci, connect ki (derive_psk secret) si (mkChannel reply [] []) = (Ok ti, ci) ∧
    (accept kr (derive_psk secret') sr (mkChannel (written ci ++ extra) [] [])).1 = Err Refused.
Proof.
  intros Hki Hkr Hne. pose proof (blake3_length (as_bytes secret)) as Hp1. pose proof (blake3_length (as_bytes secret')) as Hp2.
  destruct (ends_meet ki kr (derive_psk secret) (derive_psk secret') si sr Hki Hkr Hp1 Hp2) as (ti & ci & r & Hc & _ & Ha & _ & Hdiff).
  destruct (Ha extra) as (cr & Hacc & _). exists ti, ci. split; [done|]. rewrite Hacc. by apply Hdiff.
Qed.
End secure.

(** ** A handshake that can be run *)

Module HandshakeRuns.
#[local] Existing Instances Reference.blake3_pad NoiseRuns.toy_cipher NoiseRuns.pipe_stream NoiseRuns.pipe_lawful.

(** The third message is the key itself. *)
Record toy_state : Type := mkToy { initiator : bool; turn : nat; psk_of : bytes }.
Definition one : bytes := ["1"%char].
Definition two : bytes := ["2"%char].
Definition toy_write (s : toy_state) : option (bytes * toy_state) :=
  let next m := Some (m, mkToy (initiator s) (S (turn s)) (psk_of s)) in
  match initiator s, turn s with
  | true, 0%nat => next one
  | false, 1%nat => next two
  | true, 2%nat => next (psk_of s)
  | _, _ => None
  end.
Definition toy_read (s : toy_state) (m : bytes) : option toy_state :=
  let next expected := if decide (m = expected) then Some (mkToy (initiator s) (S (turn s)) (psk_of s)) else None in
  match initiator s, turn s with
  | false, 0%nat => next one
  | true, 1%nat => next two
  | false, 2%nat => next (psk_of s)
  | _, _ => None
  end.

#[local] Instance toy_snow : Snow := {|
  HandshakeState := toy_state; Seed := unit;
  build_initiator _ psk _ := Some (mkToy true 0 psk);
  build_responder _ psk _ := Some (mkToy false 0 psk);
  write_message := toy_write; read_message := toy_read;
  into_transport_mode s := if decide (turn s = 3%nat) then Some NoiseRuns.t0 else None;
|}.

#[local] Instance toy_lawful : LawfulSnow.
Proof.
  split. intros ki kr pi pr [] [] _ _ Hpi Hpr.
  exists (mkToy true 0 pi), (mkToy false 0 pr), one, (mkToy true 1 pi), (mkToy false 1 pr), two, (mkToy false 2 pr),
    (mkToy true 2 pi), pi, (mkToy true 3 pi), NoiseRuns.t0.
  split_and!; try done.
  - repeat constructor; try done. unfold small, blen. rewrite Hpi. done.
  - intros ->. exists (mkToy false 3 pr), NoiseRuns.t0. split_and!; [|done..].
    cbn. by rewrite decide_True.
  - intros Hne. cbn. by rewrite decide_False.
Qed.

Definition seed0 : Seed := tt.
Definition key32 : bytes := replicate 32 "k"%char.
Definition hello32 : bytes := writes_on (connect key32 (derive_psk "s") seed0) [].

Lemma secure_channel_witness :
  let reply := writes_on (accept key32 (derive_psk "s") seed0) hello32 in
  ∃ ti tr ci cr, connect key32 (derive_psk "s") seed0 (mkChannel reply [] []) = (Ok ti, ci) ∧
    accept key32 (derive_psk "s") seed0 (mkChannel (written ci ++ as_bytes "frames") [] []) = (Ok tr, cr) ∧
    unread ci = [] ∧ consumed ci = written cr ∧ unread cr = as_bytes "frames" ∧ consumed cr = written ci ∧
    carries (IO := NoiseRuns.pipe) ti tr (written ci) ∧ carries (IO := NoiseRuns.pipe) tr ti (written cr).
Proof. apply (secure_channel "s" key32 key32 seed0 seed0 (as_bytes "frames")); reflexivity. Defined.

Lemma wrong_secret_refused_witness :
  let reply := writes_on (accept key32 (derive_psk "other") seed0) hello32 in
  ∃ ti ci, connect key32 (derive_psk "s") seed0 (mkChannel reply [] []) = (Ok ti, ci) ∧
    (accept key32 (derive_psk "other") seed0 (mkChannel (written ci ++ []) [] [])).1 = Err Refused.
Proof.
  apply (wrong_secret_refused "s" "other" key32 key32 seed0 seed0 []); [reflexivity|reflexivity|]. vm_compute. discriminate.
Defined.
End HandshakeRuns.
