(* ===== verification/Transfer.v ===== *)
(** * Transfers over the encrypted stream (src/noise_transport.rs)

    [Noise] shows that whatever arrives is right; here everything does arrive.  Two ends of a
    connection each have a task that writes messages and flushes and a task that reads a number
    of bytes, as hyper and the transport's tests drive it.  The tasks are polled in any order.
    The inner streams may stall, split writes and fill up, as sockets do; what they promise is
    the class [Socket].  [Throttle], the adapter of the tests that stalls every other write, is
    such a stream over another one. *)

From S2P Require Import Prelude Crates Noise Handshake.

(** ** Connected streams *)

(** One end of a connection: the bytes that have arrived and are not read, the number of bytes
    sent that the peer has not read, whether a write has to wait for the peer to read, and for
    how many more polls it may stay pending otherwise.  [peer_did s a k]: the peer has sent [a]
    and read [k] bytes. *)
Class Socket (S : Type) `{!AsyncStream S} `{!LawfulStream S} := {
  arrived : S → bytes;
  in_flight : S → nat;
  blocked : S → bool;
  patience : S → nat;
  max_patience : nat;
  peer_did : S → bytes → nat → S;
  patience_max : ∀ s, (patience s ≤ max_patience)%nat;
  blocked_in_flight : ∀ s, blocked s = true → (0 < in_flight s)%nat;
  read_socket : ∀ s cap, 0 < cap →
    let '(p, s') := inner_read s cap in
    in_flight s' = in_flight s ∧ blocked s' = blocked s ∧ patience s' = patience s ∧
    match p with
    | Pending => arrived s = [] ∧ arrived s' = []
    | Ready (Ok d) => d ≠ [] ∧ arrived s = d ++ arrived s'
    | _ => False
    end;
  write_socket : ∀ s buf, buf ≠ [] →
    let '(p, s') := inner_write s buf in
    arrived s' = arrived s ∧
    match p with
    | Pending => in_flight s' = in_flight s ∧
        (blocked s = true ∧ blocked s' = true ∨ blocked s = false ∧ blocked s' = false ∧ (patience s' < patience s)%nat)
    | Ready (Ok k) => (0 < k)%nat ∧ in_flight s' = (in_flight s + k)%nat
    | _ => False
    end;
  flush_socket : ∀ s, let '(p, s') := inner_flush s in
    p = Ready (Ok tt) ∧ arrived s' = arrived s ∧ in_flight s' = in_flight s ∧ blocked s' = blocked s ∧ patience s' = patience s;
  peer_socket : ∀ s a k, (k ≤ in_flight s)%nat → let s' := peer_did s a k in
    sent s' = sent s ∧ taken s' = taken s ∧ arrived s' = arrived s ++ a ∧ in_flight s' = (in_flight s - k)%nat ∧
    (k = 0%nat → blocked s' = blocked s ∧ patience s' = patience s);
}.

(** ** The throttling adapter *)

(** [Throttle]; [max_write] does not change, so it is a parameter. *)
Record Throttle (S : Type) (max_write : nat) : Type := mkThrottle { t_inner : S; pending_toggle : nat }.
Arguments mkThrottle {S max_write}.
Arguments t_inner {S max_write}.
Arguments pending_toggle {S max_write}.

Section throttle.
Context {S : Type} `{!AsyncStream S} {max_write : nat}.
Abbreviation throttle := (Throttle S max_write).

Definition with_t_inner (t : throttle) (i : S) : throttle := mkThrottle i (pending_toggle t).
Definition bump (t : throttle) : throttle := mkThrottle (t_inner t) (pending_toggle t + 1).

Definition throttle_read (t : throttle) (cap : Z) : poll bytes * throttle :=
  let '(p, i) := inner_read (t_inner t) cap in (p, with_t_inner t i).
Definition throttle_write (t : throttle) (buf : bytes) : poll nat * throttle :=
  if Nat.even (pending_toggle t) then (Pending, bump t) else
  let n := Nat.min (length buf) max_write in
  let '(p, i) := inner_write (t_inner t) (take n buf) in (p, with_t_inner (bump t) i).
Definition throttle_flush (t : throttle) : poll unit * throttle :=
  let '(p, i) := inner_flush (t_inner t) in (p, with_t_inner t i).
Definition throttle_shutdown (t : throttle) : poll unit * throttle :=
  let '(p, i) := inner_shutdown (t_inner t) in (p, with_t_inner t i).

#[export] Instance throttle_stream : AsyncStream throttle := {|
  inner_read := throttle_read; inner_write := throttle_write;
  inner_flush := throttle_flush; inner_shutdown := throttle_shutdown;
|}.

#[export] Instance throttle_lawful `{!LawfulStream S} : LawfulStream throttle.
Proof.
  refine {| sent t := sent (t_inner t); taken t := taken (t_inner t) |}; simpl.
  - intros t cap Hc. unfold throttle_read. pose proof (inner_read_spec (t_inner t) cap Hc) as Hr.
    by destruct (inner_read (t_inner t) cap).
  - intros t buf. unfold throttle_write. destruct (Nat.even _); [done|].
    set (k := Nat.min (length buf) max_write).
    pose proof (inner_write_spec (t_inner t) (take k buf)) as [Ht Hs].
    destruct (inner_write (t_inner t) (take k buf)) as [[|[j|]|] i]; simpl in *; [done| |done..].
    rewrite take_take, length_take in Hs. destruct Hs as [Hk Hs]. rewrite Nat.min_l in Hs by lia. split_and!; [done|lia|done].
  - intros t. unfold throttle_flush. pose proof (inner_flush_spec (t_inner t)). by destruct (inner_flush (t_inner t)).
  - intros t. unfold throttle_shutdown. pose proof (inner_shutdown_spec (t_inner t)). by destruct (inner_shutdown (t_inner t)).
Defined.

(** A stall costs a poll, and each poll of the inner stream now costs two. *)
Definition throttle_socket `{!LawfulStream S} `{!Socket S} (Hpos : (0 < max_write)%nat) : Socket throttle.
Proof.
  refine {|
    arrived t := arrived (t_inner t); in_flight t := in_flight (t_inner t); blocked t := blocked (t_inner t);
    patience t := (2 * patience (t_inner t) + if Nat.even (pending_toggle t) then 1 else 0)%nat;
    max_patience := (2 * max_patience + 1)%nat;
    peer_did t a k := with_t_inner t (peer_did (t_inner t) a k);
  |}; simpl.
  - intros t. pose proof (patience_max (t_inner t)). destruct (Nat.even _); lia.
  - intros t. apply blocked_in_flight.
  - intros t cap Hc. unfold throttle_read. pose proof (read_socket (t_inner t) cap Hc) as Hr.
    destruct (inner_read (t_inner t) cap) as [p i]. destruct Hr as (H1 & H2 & H3 & Hr). simpl. by rewrite H1, H2, H3.
  - intros t buf Hb. unfold throttle_write. destruct (Nat.even (pending_toggle t)) eqn:He.
    { split_and!; [done..|]. simpl. rewrite Nat.add_1_r, Nat.even_succ, <- Nat.negb_even, He. simpl.
      destruct (blocked (t_inner t)); [by left|right]. split_and!; [done..|lia]. }
    assert (take (Nat.min (length buf) max_write) buf ≠ []) as Hk.
    { destruct buf as [|b buf]; [done|]. destruct max_write as [|w]; [lia|done]. }
    pose proof (write_socket (t_inner t) _ Hk) as Hw.
    destruct (inner_write (t_inner t) _) as [p i]. destruct Hw as [Ha Hw]. split; [done|].
    destruct p as [|[k|]|]; [|done..]. destruct Hw as [Hf Hw]. split; [done|].
    simpl. rewrite Nat.add_1_r, Nat.even_succ, <- Nat.negb_even, He. simpl.
    destruct Hw as [?|(? & ? & ?)]; [by left|right]. split_and!; [done..|lia].
  - intros t. unfold throttle_flush. pose proof (flush_socket (t_inner t)) as Hf.
    destruct (inner_flush (t_inner t)) as [p i]. destruct Hf as (? & ? & ? & ? & Hp). simpl. by rewrite Hp.
  - intros t a k Hk. pose proof (peer_socket (t_inner t) a k Hk) as (? & ? & ? & ? & Hz). split_and!; try done.
    intros Hk0. destruct (Hz Hk0) as [? Hp]. by rewrite Hp.
Defined.
End throttle.

(** ** Tasks *)

(** The loops of tokio's extension traits as they are documented, over the poll functions. *)
Section tasks.
Context `{!Cipher} {IO : Type} `{!AsyncStream IO}.

(** [AsyncWriteExt::write_all]: writes until the buffer is empty.  A pending task keeps what is
    left of the buffer. *)
Fixpoint write_all (fuel : nat) (s : NoiseStream IO) (buf : bytes) : option (poll unit * bytes * NoiseStream IO) :=
  match fuel, buf with
  | O, _ => None
  | _, [] => Some (Ready (Ok tt), [], s)
  | S f, _ =>
      '(p, s) ← poll_write s buf;
      match p with
      | Ready (Ok O) => Some (Ready (Err WriteZero), buf, s)
      | Ready (Ok n) => write_all f s (drop n buf)
      | Ready (Err e) => Some (Ready (Err e), buf, s)
      | Pending => Some (Pending, buf, s)
      | Panicked => Some (Panicked, buf, s)
      end
  end.

(** The messages one after the other, then [flush]. *)
Fixpoint write_messages (messages : list bytes) (s : NoiseStream IO)
    : option (poll unit * list bytes * NoiseStream IO) :=
  match messages with
  | [] => '(p, s) ← poll_flush s; Some (p, [], s)
  | m :: rest =>
      '(p, m', s) ← write_all (S (length m)) s m;
      match p with
      | Ready (Ok _) => write_messages rest s
      | _ => Some (p, m' :: rest, s)
      end
  end.

(** [AsyncReadExt::read_exact] of [n] bytes with [got] read so far. *)
Definition READ_ROUNDS : nat := Z.to_nat 65540.
Fixpoint read_exact (fuel : nat) (s : NoiseStream IO) (n : nat) (got : bytes)
    : option (poll unit * bytes * NoiseStream IO) :=
  match fuel with
  | O => None
  | S f =>
      if decide (n ≤ length got)%nat then Some (Ready (Ok tt), got, s) else
      '(p, s) ← poll_read READ_ROUNDS s (n - length got);
      match p with
      | Ready (Ok []) => Some (Ready (Err UnexpectedEof), got, s)
      | Ready (Ok d) => read_exact f s n (got ++ d)
      | Ready (Err e) => Some (Ready (Err e), got, s)
      | Pending => Some (Pending, got, s)
      | Panicked => Some (Panicked, got, s)
      end
  end.

(** One end with its two tasks: what is left to write, whether that task is done, what is to be
    read and was read, and whether a task has failed. *)
Record Endpoint : Type := mkEnd {
  stream : NoiseStream IO; todo : list bytes; flushed : bool; need : nat; got : bytes; failed : bool
}.

Definition poll_writer (e : Endpoint) : Endpoint :=
  if flushed e then e else
  match write_messages (todo e) (stream e) with
  | Some (Ready (Ok _), _, s) => mkEnd s [] true (need e) (got e) (failed e)
  | Some (Pending, messages, s) => mkEnd s messages false (need e) (got e) (failed e)
  | _ => mkEnd (stream e) (todo e) false (need e) (got e) true
  end.
Definition poll_reader (e : Endpoint) : Endpoint :=
  match read_exact (S (need e)) (stream e) (need e) (got e) with
  | Some (Ready (Ok _), d, s) | Some (Pending, d, s) => mkEnd s (todo e) (flushed e) (need e) d (failed e)
  | _ => mkEnd (stream e) (todo e) (flushed e) (need e) (got e) true
  end.

Definition read_all (e : Endpoint) : bool := bool_decide (need e ≤ length (got e))%nat.
Definition start_end (i : IO) (t : TransportState) (messages : list bytes) (n : nat) : Endpoint :=
  mkEnd (from_transport i t) messages false n [] false.
End tasks.
Arguments Endpoint {_} IO.

Lemma app_self_nil {A} (l d : list A) : l = l ++ d → d = [].
Proof. intros Hd. apply (app_inv_head l). by rewrite app_nil_r. Qed.

(** ** Encrypting *)

Section sealing.
Context `{!Cipher} {IO : Type}.

Lemma chain_in_step ps : ∀ n k r cs k', chain encrypt k ps cs k' → in_step n k r → (length ps ≤ n)%nat →
  Forall payload ps → ∃ r', in_step (n - length ps) k' r'.
Proof.
  induction ps as [|p ps IH]; intros n k r cs k' Hc Hst Hn Hp; inversion Hc as [|? ? c k1 ? cs' ? He Hc']; subst.
  { exists r. by rewrite Nat.sub_0_r. }
  apply Forall_cons in Hp as [[_ Hp] Hps]. destruct n as [|n]; [simpl in Hn; lia|].
  destruct (in_step_message n k r p Hst) as (c' & k2 & r2 & He' & _ & _ & Hst'); [unfold max_payload in Hp; lia|].
  simplify_eq. eapply IH; [done..| |done]. simpl in Hn. lia.
Qed.

(** With nonces left, every payload is sealed; a frame adds 18 bytes to it. *)
Lemma encrypt_chunks_fits ps : ∀ n (s : NoiseStream IO) r, in_step n (sending (transport s)) r → (length ps ≤ n)%nat →
  Forall payload ps → ∃ s', encrypt_chunks s ps = (true, s') ∧
    length (write_cipher s') = (length (write_cipher s) + length (concat ps) + 18 * length ps)%nat.
Proof.
  induction ps as [|p ps IH]; intros n s r Hst Hn Hp; cbn [encrypt_chunks].
  { exists s. split; [done|simpl; lia]. }
  apply Forall_cons in Hp as [[_ Hp] Hps]. destruct n as [|n]; [simpl in Hn; lia|].
  destruct (in_step_message n _ r p Hst) as (c & k & r' & -> & Hc & _ & Hst'); [unfold max_payload in Hp; lia|].
  simpl in Hn. edestruct (IH n) as (s' & -> & Hl); [exact Hst'|lia|done|]. exists s'. split; [done|].
  rewrite Hl. simpl. unfold blen, TAG_LEN in Hc. rewrite !length_app. simpl. lia.
Qed.
End sealing.

(** ** The burden of a direction *)

Section writing.
Context `{!Cipher} {IO : Type} `{!AsyncStream IO} `{!LawfulStream IO} `{!Socket IO}.
Implicit Types (s : NoiseStream IO) (c : list bytes * NoiseStream IO).

(** What still has to be moved by a writer with these messages left: a byte to encrypt weighs
    more than its share of a frame, a byte of ciphertext more than a byte under way. *)
Definition load c : nat :=
  2 * (20 * length (concat c.1) + length (write_cipher c.2)) + in_flight (inner c.2).
Definition pressure (i : IO) : nat := if blocked i then max_patience else patience i.
Definition eased c c' : Prop :=
  (load c' < load c)%nat ∨ load c' = load c ∧ (pressure (inner c'.2) < pressure (inner c.2))%nat.

(** Bytes have moved, or nothing but the patience of the inner stream has changed. *)
Definition advances c c' : Prop :=
  same_reader c.2 c'.2 ∧ arrived (inner c'.2) = arrived (inner c.2) ∧
  (∃ x, sent (inner c'.2) = sent (inner c.2) ++ x ∧ in_flight (inner c'.2) = (in_flight (inner c.2) + length x)%nat) ∧
  ((load c' < load c)%nat ∨
   load c' = load c ∧ sent (inner c'.2) = sent (inner c.2) ∧ (pressure (inner c'.2) ≤ pressure (inner c.2))%nat).

Lemma pressure_max i : (pressure i ≤ max_patience)%nat.
Proof. unfold pressure. pose proof (patience_max i). destruct (blocked i); lia. Qed.

#[export] Instance advances_preorder : PreOrder advances.
Proof.
  split.
  - intros c. split_and!; try done; [exists []; by rewrite app_nil_r, Nat.add_0_r|]. right. done.
  - intros c1 c2 c3 ((A1 & A2 & A3 & A4) & Ha & (x & Hx & Hf) & Hl) ((B1 & B2 & B3 & B4) & Hb & (y & Hy & Hg) & Hm).
    split_and!; [unfold same_reader; by rewrite B1, B2, B3, B4| by rewrite Hb| |].
    + exists (x ++ y). rewrite Hy, Hx, Hg, Hf, length_app, app_assoc. split; [done|lia].
    + destruct Hl as [|(? & Hs & ?)], Hm as [|(? & Ht & ?)]; [left; lia..|right]. rewrite Ht, Hs. split_and!; [lia|done|lia].
Qed.

Lemma eased_l c1 c2 c3 : eased c1 c2 → advances c2 c3 → eased c1 c3.
Proof. unfold eased. intros [?|[? ?]] (_ & _ & _ & [?|(? & _ & ?)]); lia. Qed.
Lemma eased_r c1 c2 c3 : advances c1 c2 → eased c2 c3 → eased c1 c3.
Proof. unfold eased. intros (_ & _ & _ & [?|(? & _ & ?)]) [?|[? ?]]; lia. Qed.

Lemma flush_advances ms fuel : ∀ s p s', flush_loop fuel s = Some (p, s') →
  advances (ms, s) (ms, s') ∧
  (p = Ready (Ok tt) ∧ write_cipher s' = [] ∨
   p = Pending ∧ (eased (ms, s) (ms, s') ∨ blocked (inner s') = true)).
Proof.
  induction fuel as [|f IH]; intros s p s'; [done|]. cbn [flush_loop].
  destruct (write_cipher s) as [|b w] eqn:Hw; [intros [= <- <-]; split; [done|by left]|].
  assert (write_cipher s ≠ []) as Hne by (by rewrite Hw). rewrite <- Hw in *. clear b w Hw.
  pose proof (write_socket (inner s) _ Hne) as Hk. pose proof (inner_write_spec (inner s) (write_cipher s)) as [Ht Hs].
  destruct (inner_write (inner s) (write_cipher s)) as [[|[k|]|] i]; cbn [fst snd] in *; [| |tauto..].
  - destruct Hk as (Ha & Hf & Hk). intros [= <- <-].
    assert (pressure i ≤ pressure (inner s) ∧ (pressure i < pressure (inner s) ∨ blocked i = true))%nat as [Hp1 Hp2].
    { unfold pressure. destruct Hk as [[-> ->]|(-> & -> & ?)]; auto with lia. }
    split; [|right; split; [done|]].
    + split_and!; try done; [exists []; by rewrite app_nil_r, Nat.add_0_r|]. right. unfold load. cbn. by rewrite Hf.
    + destruct Hp2; [left; right|by right]. unfold load. cbn. by rewrite Hf.
  - destruct Hk as (Ha & Hk & Hf), Hs as [Hle Hs]. destruct k as [|k]; [lia|].
    cbn [write_cipher with_inner]. rewrite decide_False by lia.
    assert (advances (ms, s) (ms, with_write_cipher (with_inner s i) (drop (S k) (write_cipher s)))) as Hadv.
    { split_and!; try done; [exists (take (S k) (write_cipher s)); cbn; rewrite length_take; split; [done|lia]|].
      left. unfold load. cbn [fst snd inner write_cipher with_write_cipher with_inner]. rewrite length_drop. lia. }
    intros [Hm Hp]%IH. split; [by etrans|]. destruct Hp as [Hp|[-> Hp]]; [by left|right]. split; [done|].
    destruct Hp; [left; by eapply eased_r|by right].
Qed.

(** *** The writing task *)

Context (ia : IO) (ta : TransportState) (n : nat) (r : CipherState).
Context (Hstep : in_step n (sending ta) r).

Lemma write_payload_advances s acc buf ms : sender_inv ia ta s acc → (length acc + length buf ≤ n)%nat → buf ≠ [] →
  ∃ s', write_payload s buf = Some (Ready (Ok (length buf)), s') ∧ sender_inv ia ta s' (acc ++ buf) ∧
    advances (buf :: ms, s) (ms, s') ∧ (load (ms, s') < load (buf :: ms, s))%nat.
Proof.
  intros Hs Hn Hb. pose proof Hs as (ps & cs & Hc & Hp & <- & _). pose proof (payload_length ps Hp).
  destruct (chain_in_step ps n _ _ _ _ Hc Hstep) as [r' Hst]; [lia|done|]. destruct max_payload_pos as [Hpos Hmax].
  pose proof (chunks_payload (S (length buf)) _ buf Hpos Hmax) as Hpl.
  pose proof (chunks_concat (S (length buf)) _ buf Hpos ltac:(lia)) as Hcat. pose proof (payload_length _ Hpl) as Hlen.
  rewrite Hcat in Hlen. assert (length buf ≤ n - length ps)%nat as Hroom by lia.
  destruct (encrypt_chunks_fits _ (n - length ps) s r' Hst (Nat.le_trans _ _ _ Hlen Hroom) Hpl) as (s1 & He & Hw). rewrite Hcat in Hw.
  destruct (flush_returns s1) as [[p s2] Hf]. assert (write_payload s buf = Some (Ready (Ok (length buf)), s2)) as Hwp.
  { unfold write_payload. rewrite He, Hf. simpl. apply (flush_advances ms) in Hf as [_ [[-> _]|[-> _]]]; done. }
  exists s2. split; [done|]. destruct (write_payload_spec _ _ _ _ _ _ _ Hs Hwp) as (_ & Hs' & _). split; [done|].
  apply encrypt_chunks_spec in He as (cs' & _ & Hi & Hr & Hrp & Hrc & _).
  assert (0 < length buf)%nat by (destruct buf; [done|simpl; lia]).
  assert (load (ms, s1) < load (buf :: ms, s))%nat as Hl.
  { unfold load. cbn [fst snd concat]. rewrite length_app, Hw, Hi. lia. }
  assert (advances (buf :: ms, s) (ms, s1)) as Ha.
  { split_and!; [unfold same_reader; cbn; by rewrite Hi|cbn; by rewrite Hi| |by left].
    exists []. cbn. by rewrite Hi, app_nil_r, Nat.add_0_r. }
  apply (flush_advances ms) in Hf as [Hf _]. split; [by etrans|]. destruct Hf as (_ & _ & _ & [?|[? _]]); lia.
Qed.

Lemma write_all_advances s acc buf ms : sender_inv ia ta s acc → (length acc + length buf ≤ n)%nat →
  ∃ p buf' s', write_all (S (length buf)) s buf = Some (p, buf', s') ∧
    (p = Ready (Ok tt) ∧ sender_inv ia ta s' (acc ++ buf) ∧ advances (buf :: ms, s) (ms, s') ∨
     p = Pending ∧ buf' = buf ∧ sender_inv ia ta s' acc ∧ advances (buf :: ms, s) (buf :: ms, s') ∧
       (eased (buf :: ms, s) (buf :: ms, s') ∨ blocked (inner s') = true)).
Proof.
  intros Hs Hn. destruct buf as [|b buf].
  { exists (Ready (Ok tt)), [], s. split; [done|left]. rewrite app_nil_r. split_and!; [done..|].
    exact (reflexivity (R := advances) (ms, s)). }
  assert (∀ s1, sender_inv ia ta s1 acc → advances ((b :: buf) :: ms, s) ((b :: buf) :: ms, s1) →
    poll_write s (b :: buf) = write_payload s1 (b :: buf) →
    ∃ p buf' s', write_all (S (length (b :: buf))) s (b :: buf) = Some (p, buf', s') ∧
    (p = Ready (Ok tt) ∧ sender_inv ia ta s' (acc ++ b :: buf) ∧ advances ((b :: buf) :: ms, s) (ms, s') ∨
     p = Pending ∧ buf' = b :: buf ∧ sender_inv ia ta s' acc ∧ advances ((b :: buf) :: ms, s) ((b :: buf) :: ms, s') ∧
       (eased ((b :: buf) :: ms, s) ((b :: buf) :: ms, s') ∨ blocked (inner s') = true))) as Hrest.
  { intros s1 Hs1 Ha Hpw. destruct (write_payload_advances s1 acc (b :: buf) ms Hs1 Hn) as (s2 & Hwp & Hs2 & Ha2 & _); [done|].
    exists (Ready (Ok tt)), [], s2. split.
    - cbn [write_all]. rewrite Hpw, Hwp. cbn [length mbind option_bind].
      assert (drop (length (b :: buf)) (b :: buf) = []) as Hd by apply drop_all. cbn [length] in Hd. by rewrite Hd.
    - left. split_and!; [done..|by etrans]. }
  destruct (write_cipher s) as [|w ws] eqn:Hw.
  { apply (Hrest s Hs); [reflexivity|]. unfold poll_write. by rewrite Hw. }
  destruct (flush_returns s) as [[p s1] Hf].
  assert (poll_write s (b :: buf) = match p with
    | Ready (Ok _) => write_payload s1 (b :: buf)
    | Ready (Err e) => Some (Ready (Err e), s1) | Pending => Some (Pending, s1) | Panicked => Some (Panicked, s1) end) as Hpw.
  { unfold poll_write. rewrite Hw, Hf. done. }
  pose proof (flush_inv ia ta s acc p s1 Hs Hf) as [Hs1 _].
  apply (flush_advances ((b :: buf) :: ms)) in Hf as [Ha [[-> _]|[-> Hb]]]; [by apply (Hrest s1)|].
  exists Pending, (b :: buf), s1. split; [cbn [write_all]; by rewrite Hpw|]. right. done.
Qed.

Lemma write_messages_advances ms : ∀ s acc, sender_inv ia ta s acc → (length acc + length (concat ms) ≤ n)%nat →
  ∃ p ms' s' acc', write_messages ms s = Some (p, ms', s') ∧ advances (ms, s) (ms', s') ∧
    sender_inv ia ta s' acc' ∧ acc' ++ concat ms' = acc ++ concat ms ∧
    (p = Ready (Ok tt) ∧ ms' = [] ∧ write_cipher s' = [] ∨
     p = Pending ∧ (eased (ms, s) (ms', s') ∨ blocked (inner s') = true)).
Proof.
  induction ms as [|m ms IH]; intros s acc Hs Hn; cbn [write_messages].
  - unfold poll_flush, after_flush. destruct (flush_returns s) as [[p s1] Hf]. rewrite Hf. cbn [mbind option_bind].
    pose proof (flush_inv ia ta s acc p s1 Hs Hf) as [Hs1 _]. apply (flush_advances []) in Hf as [Ha [[-> Hw]|[-> Hb]]].
    + pose proof (flush_socket (inner s1)) as Hfl. pose proof (inner_flush_spec (inner s1)) as [Hsn Htk].
      destruct (inner_flush (inner s1)) as [q i]. destruct Hfl as (-> & Har & Hif & Hbl & Hpa). cbn [fst snd] in *.
      exists (Ready (Ok tt)), [], (with_inner s1 i), acc. split_and!; [done| |by unfold sender_inv; cbn; rewrite Hsn|done|by left].
      etrans; [exact Ha|]. split_and!; try done; [exists []; cbn; by rewrite app_nil_r, Nat.add_0_r|].
      right. unfold load, pressure. cbn. rewrite Hif, Hbl, Hpa. done.
    + exists Pending, [], s1, acc. split_and!; [done..|]. by right.
  - cbn [concat] in *. rewrite length_app in Hn.
    destruct (write_all_advances s acc m ms Hs ltac:(lia)) as
      (p & m' & s1 & -> & [(-> & Hs1 & Ha)|(-> & -> & Hs1 & Ha & Hb)]); cbn [mbind option_bind].
    + destruct (IH s1 (acc ++ m) Hs1) as (p & ms' & s2 & acc' & Hw & Ha2 & Hs2 & Hc & Hp); [rewrite length_app; lia|].
      exists p, ms', s2, acc'. split_and!; [done|by etrans|done|by rewrite Hc, <- app_assoc|].
      destruct Hp as [|[-> [He|]]]; auto. right. split; [done|]. left. by eapply eased_r.
    + exists Pending, (m :: ms), s1, acc. split_and!; [done..|]. by right.
Qed.
End writing.

(** *** The reading task *)

Section reading.
Context `{!Cipher} {IO JO : Type} `{!AsyncStream IO} `{!LawfulStream IO}.
Context `{!AsyncStream JO} `{!LawfulStream JO} `{!Socket JO}.
Implicit Types (s : NoiseStream JO).

(** Bytes were read from the inner stream and nothing else changed there. *)
Definition consumes s s' : Prop :=
  same_writer s s' ∧ in_flight (inner s') = in_flight (inner s) ∧ blocked (inner s') = blocked (inner s) ∧
  patience (inner s') = patience (inner s) ∧
  ∃ x, taken (inner s') = taken (inner s) ++ x ∧ arrived (inner s) = x ++ arrived (inner s').

#[export] Instance consumes_preorder : PreOrder consumes.
Proof.
  split.
  - intros s. split_and!; try done. exists []. by rewrite app_nil_r.
  - intros s1 s2 s3 ((A1 & A2 & A3) & Af & Ab & Ap & x & Ax & Ay) ((B1 & B2 & B3) & Bf & Bb & Bp & y & Bx & By).
    split_and!; [unfold same_writer; by rewrite B1, B2, B3|congruence..|].
    exists (x ++ y). by rewrite Bx, Ax, Ay, By, !app_assoc.
Qed.

Lemma poll_read_consumes fuel cap : (0 < cap)%nat → ∀ s p s', poll_read fuel s cap = Some (p, s') →
  consumes s s' ∧ match p with
                  | Pending => arrived (inner s') = []
                  | Ready (Ok d) => d ≠ []
                  | Ready (Err e) => e = InvalidData
                  | Panicked => False
                  end.
Proof.
  intros Hcap. induction fuel as [|f IH]; intros s p s'; [done|]. cbn [poll_read].
  destruct (read_plain s) as [|a pl] eqn:Hpl.
  2:{ intros [= <- <-]. split; [exact (reflexivity (R := consumes) s)|]. destruct cap; [lia|done]. }
  pose proof (try_decrypt_spec s) as Hd.
  destruct (recv_frame (read_cipher s)) as [[c rest]|]; [|rewrite Hd].
  - destruct (decrypt (receiving (transport s)) c) as [[q r]|]; rewrite Hd.
    + intros [Hc Hp]%IH. done.
    + intros [= <- <-]. split; [exact (reflexivity (R := consumes) s)|done].
  - pose proof (inner_read_spec (inner s) READ_SIZE ltac:(unfold READ_SIZE; lia)) as [Hs1 Hs2].
    pose proof (read_socket (inner s) READ_SIZE ltac:(unfold READ_SIZE; lia)) as Hk.
    destruct (inner_read (inner s) READ_SIZE) as [[|[d|e]|] j]; cbn [fst snd] in *;
      destruct Hk as (Hf & Hb & Hp & Hk); [| |done..].
    + destruct Hk as [Ha Ha']. intros [= <- <-]. split; [|done]. split_and!; try done.
      exists []. cbn. by rewrite app_nil_r, Ha, Ha'.
    + destruct Hk as [Hne Ha], Hs2 as [_ Hs2]. destruct d as [|b d]; [done|].
      intros [Hc Hp']%IH. split; [|done]. etrans; [|exact Hc]. split_and!; try done. by exists (b :: d).
Qed.

(** With a sender whose bytes these are, the task reads until it has its bytes or has used all
    that arrived. *)
Context (ia : IO) (ta : TransportState) (sa : NoiseStream IO) (acc : bytes) (ib : JO) (tb : TransportState) (n : nat).
Context (Ha : sender_inv ia ta sa acc) (Hst : in_step n (sending ta) (receiving tb)) (Hn : (length acc ≤ n)%nat).
Context (Hi : taken ib = sent ia).

Lemma poll_read_delivers s del cap : (0 < cap)%nat → receiver_inv ib tb s del →
  taken (inner s) ++ arrived (inner s) = sent (inner sa) →
  ∃ p s', poll_read READ_ROUNDS s cap = Some (p, s') ∧ consumes s s' ∧
    (p = Pending ∧ receiver_inv ib tb s' del ∧ arrived (inner s') = [] ∧ read_plain s' = [] ∧
       recv_frame (read_cipher s') = None ∨
     ∃ d, d ≠ [] ∧ p = Ready (Ok d) ∧ receiver_inv ib tb s' (del ++ d)).
Proof.
  intros Hcap Hr Hall. set (I := λ j : JO, taken j ++ arrived j = sent (inner sa)).
  assert (∀ j, I j → match (inner_read j READ_SIZE).1 with Ready (Err _) | Panicked => False | _ => True end) as Hans.
  { intros j _. pose proof (read_socket j READ_SIZE ltac:(unfold READ_SIZE; lia)) as Hk.
    destruct (inner_read j READ_SIZE) as [[|[d|e]|] j']; cbn [fst]; tauto. }
  destruct (poll_read_ends ia ta sa acc ib tb n I cap Ha Hst Hn Hi) with (fuel := READ_ROUNDS) (s := s) (del := del)
    as (p & s' & Hp & _ & He); [|done|done|unfold READ_ROUNDS; rewrite Z2Nat.id; [apply rounds_bound|lia]|].
  { intros j Hj. split; [by exists (arrived j)|]. pose proof (read_socket j READ_SIZE ltac:(unfold READ_SIZE; lia)) as Hk.
    pose proof (inner_read_spec j READ_SIZE ltac:(unfold READ_SIZE; lia)) as [_ Hs2]. unfold I in *.
    destruct (inner_read j READ_SIZE) as [[|[d|e]|] j']; cbn [fst snd] in *; destruct Hk as (_ & _ & _ & Hk); [| |done..].
    - destruct Hk as [Hk1 Hk2]. by rewrite Hs2, Hk2, <- Hk1.
    - destruct Hk as [_ Hk], Hs2 as [_ Hs2]. by rewrite Hs2, <- app_assoc, <- Hk. }
  exists p, s'. split; [done|]. destruct (poll_read_consumes _ _ Hcap _ _ _ Hp) as [Hc Hk]. split; [done|].
  destruct (poll_read_spec ib tb _ _ del _ _ _ Hr Hp) as (_ & Hr' & Hlast).
  destruct p as [|[d|e]|]; [left|right; by exists d| |done].
  - destruct (Hlast eq_refl). done.
  - exfalso. subst e. destruct He as (j & Hj & Hj2). specialize (Hans j Hj). by rewrite Hj2 in Hans.
Qed.

Lemma read_exact_delivers k fuel : ∀ s del, receiver_inv ib tb s del →
  taken (inner s) ++ arrived (inner s) = sent (inner sa) → (k - length del < fuel)%nat →
  ∃ p del' s', read_exact fuel s k del = Some (p, del', s') ∧ consumes s s' ∧ receiver_inv ib tb s' del' ∧
    (length del ≤ length del')%nat ∧
    (p = Ready (Ok tt) ∧ (k ≤ length del')%nat ∨
     p = Pending ∧ (length del' < k)%nat ∧ arrived (inner s') = [] ∧ read_plain s' = [] ∧ recv_frame (read_cipher s') = None).
Proof.
  induction fuel as [|f IH]; intros s del Hr Hall Hf; [lia|]. cbn [read_exact]. destruct (decide _) as [Hk|Hk].
  { exists (Ready (Ok tt)), del, s. split_and!; [done|reflexivity|done|done|by left]. }
  destruct (poll_read_delivers s del (k - length del) ltac:(lia) Hr Hall) as (p & s1 & -> & Hc & Hp); cbn [mbind option_bind].
  destruct Hp as [(-> & Hr1 & Hp)|(d & Hd & -> & Hr1)].
  - exists Pending, del, s1. split_and!; [done..|]. right. split_and!; [done|lia|apply Hp..].
  - assert (0 < length d)%nat by (destruct d; [done|simpl; lia]).
    destruct (IH s1 (del ++ d) Hr1) as (p & del' & s2 & He & Hc2 & Hr2 & Hl & Hp).
    { destruct Hc as (_ & _ & _ & _ & x & Hx & Hy). by rewrite Hx, <- app_assoc, <- Hy. }
    { rewrite length_app. lia. }
    exists p, del', s2. rewrite length_app in Hl. destruct d as [|b d]; [done|].
    split_and!; [done|by etrans|done|lia|done].
Qed.
End reading.

(** ** One direction of a connection *)

Section direction.
Context `{!Cipher} {IO JO : Type} `{!AsyncStream IO} `{!LawfulStream IO} `{!Socket IO}.
Context `{!AsyncStream JO} `{!LawfulStream JO} `{!Socket JO}.
Implicit Types (x : Endpoint IO) (y : Endpoint JO).

(** What a poll did on one end reaches the other. *)
Definition hand_over (s s' : NoiseStream IO) y : Endpoint JO :=
  let i := peer_did (inner (stream y)) (drop (length (sent (inner s))) (sent (inner s')))
             (length (taken (inner s')) - length (taken (inner s))) in
  mkEnd (with_inner (stream y) i) (todo y) (flushed y) (need y) (got y) (failed y).
Definition act (f : Endpoint IO → Endpoint IO) x y : Endpoint IO * Endpoint JO :=
  let x' := f x in (x', hand_over (stream x) (stream x') y).

Definition burden x y : nat :=
  load (todo x, stream x) + (if flushed x then 0 else 1) + (if read_all y then 0 else 1).
(** What decides whether a task can go on: the writer is done, the reader is done, nothing has
    arrived. *)
Definition view x y : bool * bool * bool :=
  (flushed x, read_all y, bool_decide (arrived (inner (stream y)) = [])).
Definition idle_writer (v : bool * bool * bool) : Prop :=
  let '(flushed, read, empty) := v in flushed = true ∨ empty = false ∧ read = false.
Definition idle_reader (v : bool * bool * bool) : Prop :=
  let '(flushed, read, empty) := v in read = true ∨ empty = true ∧ flushed = false.

Definition quieter x y x' y' : Prop :=
  (burden x' y' < burden x y)%nat ∨
  burden x' y' = burden x y ∧ (pressure (inner (stream x')) < pressure (inner (stream x)))%nat.
Definition still x y x' y' : Prop :=
  burden x' y' = burden x y ∧ pressure (inner (stream x')) = pressure (inner (stream x)) ∧ view x' y' = view x y.

Context (ia : IO) (ta : TransportState) (ib : JO) (tb : TransportState) (all : bytes) (n : nat).
Context (Hst : in_step n (sending ta) (receiving tb)) (Hn : (length all ≤ n)%nat) (Hi : taken ib = sent ia).

(** The writer of [x] sends [all] and the reader of [y] reads it. *)
Definition flows x y : Prop :=
  ∃ acc, sender_inv ia ta (stream x) acc ∧ acc ++ concat (todo x) = all ∧
    receiver_inv ib tb (stream y) (got y) ∧
    taken (inner (stream y)) ++ arrived (inner (stream y)) = sent (inner (stream x)) ∧
    in_flight (inner (stream x)) = length (arrived (inner (stream y))) ∧
    need y = length all ∧ failed x = false ∧ failed y = false ∧
    (flushed x = true → todo x = [] ∧ write_cipher (stream x) = []).

(** What was read is a front part of [all]; once it is [all], nothing is left on the way. *)
Lemma flows_got x y : flows x y → got y `prefix_of` all.
Proof.
  intros (acc & Hs & <- & Hr & Hl & _). destruct (link_inv ia ta (stream x) acc ib tb (stream y) (got y) n)
    as (k & ps & cs & k' & m & -> & _); try done; [rewrite length_app in Hn; lia|by exists (arrived (inner (stream y)))|].
  by apply prefix_app_r, prefix_app_r.
Qed.

Lemma read_all_drained x y : flows x y → read_all y = true →
  concat (todo x) = [] ∧ write_cipher (stream x) = [] ∧ arrived (inner (stream y)) = [].
Proof.
  intros (acc & Hs & Hcat & Hr & Hl & _ & Hneed & _) Hra%bool_decide_eq_true.
  destruct (link_inv ia ta (stream x) acc ib tb (stream y) (got y) n)
    as (k & ps & cs & k' & m & Hacc & Hc & _ & _ & Hps & _ & _ & _ & Hend); try done;
    [rewrite <- Hcat, length_app in Hn; lia|by exists (arrived (inner (stream y)))|].
  rewrite Hneed, <- Hcat, Hacc, !length_app in Hra. pose proof (payload_length ps Hps).
  destruct ps; [|simpl in *; lia]. inversion Hc; subst. destruct (Hend eq_refl) as [Hw Ht].
  split_and!; [apply nil_length_inv; simpl in *; lia|done|].
  rewrite <- Ht in Hl. by eapply app_self_nil.
Qed.

(** Once the writer is done and the reader has used all that arrived, the reader is done. *)
Lemma flushed_all_read x y : flows x y → flushed x = true → arrived (inner (stream y)) = [] →
  read_plain (stream y) = [] → recv_frame (read_cipher (stream y)) = None → read_all y = true.
Proof.
  intros (acc & Hs & Hcat & Hr & Hl & _ & Hneed & _ & _ & Hf) Hfl Ha Hp Hrf. destruct (Hf Hfl) as [Ht Hw].
  rewrite Ha, app_nil_r in Hl. rewrite Ht, app_nil_r in Hcat. subst acc.
  destruct (link_inv ia ta (stream x) all ib tb (stream y) (got y) n)
    as (k & ps & cs & k' & m & Hacc & Hc & _ & _ & _ & Hsm & _ & Hall & _); try done; [by rewrite Hl|].
  rewrite (Hall Hw Hl) in Hrf. apply wire_no_frame in Hrf as ->; [|done].
  assert (ps = []) as -> by (by inversion Hc).
  apply bool_decide_eq_true. rewrite Hneed, Hacc, Hp. simpl. rewrite app_nil_r. done.
Qed.

(** What a poll of each task does to its end. *)
Definition writer_effect x x' : Prop :=
  advances (todo x, stream x) (todo x', stream x') ∧ need x' = need x ∧ got x' = got x ∧ failed x' = failed x.
Definition reader_effect y y' : Prop :=
  consumes (stream y) (stream y') ∧ todo y' = todo y ∧ flushed y' = flushed y ∧ need y' = need y ∧ failed y' = failed y.

Lemma read_all_same y y' : need y' = need y → got y' = got y → read_all y' = read_all y.
Proof. unfold read_all. by intros -> ->. Qed.

(** The bytes a poll has moved. *)
Lemma drop_sent (s s' : NoiseStream IO) d : sent (inner s') = sent (inner s) ++ d →
  drop (length (sent (inner s))) (sent (inner s')) = d.
Proof. intros ->. apply drop_app_length. Qed.

(** *** The writer's turn *)

Lemma writer_polls x y : flows x y → let x' := poll_writer x in
  writer_effect x x' ∧
  (∃ acc, sender_inv ia ta (stream x') acc ∧ acc ++ concat (todo x') = all) ∧
  (flushed x' = true → todo x' = [] ∧ write_cipher (stream x') = []) ∧
  (flushed x = true ∧ x' = x ∨ flushed x = false ∧ flushed x' = true ∨
   flushed x = false ∧ flushed x' = false ∧
     (eased (todo x, stream x) (todo x', stream x') ∨ blocked (inner (stream x')) = true)).
Proof.
  intros (acc & Hs & Hcat & _ & _ & _ & _ & Hfx & _ & Hf). unfold poll_writer. destruct (flushed x) eqn:Hfl.
  { split_and!; try done; [by exists acc|by rewrite Hfl|by left]. }
  destruct (write_messages_advances ia ta n (receiving tb) Hst (todo x) (stream x) acc Hs) as
    (p & ms' & s' & acc' & -> & Ha & Hs' & Hc & Hp); [rewrite <- length_app, Hcat; done|].
  destruct Hp as [(-> & -> & Hw)|[-> Hp]]; cbn.
  - split_and!; try done; [exists acc'; by rewrite <- Hcat, <- Hc|auto].
  - split_and!; try done; [exists acc'; by rewrite <- Hcat, <- Hc|auto].
Qed.

(** The other end learns of what was written. *)
Lemma hand_over_written x x' y : writer_effect x x' → let y' := hand_over (stream x) (stream x') y in
  (∃ d, sent (inner (stream x')) = sent (inner (stream x)) ++ d ∧
     arrived (inner (stream y')) = arrived (inner (stream y)) ++ d) ∧
  sent (inner (stream y')) = sent (inner (stream y)) ∧ taken (inner (stream y')) = taken (inner (stream y)) ∧
  in_flight (inner (stream y')) = in_flight (inner (stream y)) ∧
  pressure (inner (stream y')) = pressure (inner (stream y)).
Proof.
  intros (((Ht & _) & _ & (d & Hd & _) & _) & _). cbn in Ht, Hd. unfold hand_over. rewrite (drop_sent _ _ d Hd), Ht, Nat.sub_diag.
  destruct (peer_socket (inner (stream y)) d 0 (Nat.le_0_l _)) as (H1 & H2 & H3 & H4 & H5). destruct (H5 eq_refl) as [H6 H7].
  cbn. rewrite H1, H2, H3, H4, Nat.sub_0_r. unfold pressure. rewrite H6, H7. split_and!; [by exists d|done..].
Qed.

Lemma writer_turn x y : flows x y → let '(x', y') := act poll_writer x y in
  flows x' y' ∧ (quieter x y x' y' ∨ still x y x' y' ∧ idle_writer (view x y)).
Proof.
  intros Hfl. destruct (writer_polls x y Hfl) as (He & (acc' & Hs' & Hcat') & Hf' & Hout). unfold act. cbv zeta.
  set (x' := poll_writer x) in *. clearbody x'.
  destruct (hand_over_written x x' y He) as ((d & Hd & Hd') & Hsy & Hty & _ & _).
  set (y' := hand_over (stream x) (stream x') y) in *.
  assert (read_all y' = read_all y) as Hra by done. assert (failed y' = failed y ∧ need y' = need y) as [Hfy Hny] by done.
  assert (receiver_inv ib tb (stream y') (got y') ↔ receiver_inv ib tb (stream y) (got y)) as Hri.
  { unfold receiver_inv. cbn [got y' hand_over]. rewrite Hty. done. }
  clearbody y'. pose proof Hfl as (acc & Hs & Hcat & Hr & Hl & Hif & Hneed & Hfx & Hfy0 & Hf).
  destruct He as ((Hsr & Ha & (d' & Hd2 & Hif') & Hload) & Hne & Hgo & Hfa). cbn [fst snd] in *.
  assert (d' = d) as -> by (rewrite Hd in Hd2; by apply app_inv_head in Hd2). split.
  - exists acc'. split_and!; try done; [by apply Hri| | |congruence..].
    + by rewrite Hty, Hd', Hd, app_assoc, Hl.
    + by rewrite Hif', Hif, Hd', length_app.
  - unfold quieter, still, burden. rewrite Hra. destruct Hout as [[Hfx1 ->]|[[Hfx1 Hfx2]|(Hfx1 & Hfx2 & Hp)]].
    + right. assert (d = []) as -> by (by apply (app_self_nil (sent (inner (stream x))))).
      rewrite app_nil_r in Hd'. unfold view. rewrite Hra, Hd'. split_and!; [done..|]. by left.
    + rewrite Hfx1, Hfx2. left. left. destruct Hload as [?|(? & _)]; lia.
    + rewrite Hfx1, Hfx2. destruct Hp as [[?|[? ?]]|Hb]; [left; left; lia|left; right; cbn [fst snd] in *; lia|].
      destruct Hload as [?|(Hle & Hse & Hpr)]; [left; left; lia|].
      assert (d = []) as -> by (apply (app_self_nil (sent (inner (stream x)))); congruence).
      rewrite app_nil_r in Hd'. apply blocked_in_flight in Hb. rewrite Hif', Hif in Hb. cbn in Hb.
      destruct (decide (pressure (inner (stream x')) < pressure (inner (stream x)))%nat); [left; right; lia|right].
      unfold view. rewrite Hra, Hd', Hfx1, Hfx2. split_and!; [lia|lia|done|]. right.
      split; [apply bool_decide_eq_false; intros E; rewrite E in Hb; simpl in Hb; lia|].
      destruct (read_all y) eqn:E; [|done]. destruct (read_all_drained x y Hfl E) as (_ & _ & E'). rewrite E' in Hb. simpl in Hb. lia.
Qed.

(** *** The reader's turn *)

Lemma reader_polls x y : flows x y → let y' := poll_reader y in
  reader_effect y y' ∧ receiver_inv ib tb (stream y') (got y') ∧ (read_all y = true → read_all y' = true) ∧
  (read_all y' = true ∨ arrived (inner (stream y')) = [] ∧ read_plain (stream y') = [] ∧
     recv_frame (read_cipher (stream y')) = None).
Proof.
  intros (acc & Hs & Hcat & Hr & Hl & Hif & Hneed & Hfx & Hfy & Hf). unfold poll_reader.
  destruct (read_exact_delivers ia ta (stream x) acc ib tb n Hs Hst) with (k := need y) (fuel := S (need y)) (s := stream y) (del := got y)
    as (p & del' & s' & -> & Hc & Hr' & Hle & Hp); [rewrite <- Hcat, length_app in Hn; lia|done..|lia|].
  destruct Hp as [[-> Hp]|(-> & Hp & Hrest)]; cbn.
  - split_and!; try done; [by intros _; apply bool_decide_eq_true|left; by apply bool_decide_eq_true].
  - split_and!; try done; [|by right]. unfold read_all. cbn. rewrite !bool_decide_eq_true. lia.
Qed.
End direction.

Section handing.
Context `{!Cipher} {IO JO : Type} `{!AsyncStream IO} `{!LawfulStream IO} `{!Socket IO}.
Context `{!AsyncStream JO} `{!LawfulStream JO} `{!Socket JO}.
Implicit Types (x : Endpoint IO) (y : Endpoint JO).

(** The other end learns of what was read. *)
Lemma hand_over_read y y' x : reader_effect y y' → (length (arrived (inner (stream y))) ≤ in_flight (inner (stream x)))%nat →
  let x' := hand_over (stream y) (stream y') x in
  ∃ d, taken (inner (stream y')) = taken (inner (stream y)) ++ d ∧
    arrived (inner (stream y)) = d ++ arrived (inner (stream y')) ∧
    in_flight (inner (stream x')) = (in_flight (inner (stream x)) - length d)%nat ∧
    sent (inner (stream x')) = sent (inner (stream x)) ∧ taken (inner (stream x')) = taken (inner (stream x)) ∧
    arrived (inner (stream x')) = arrived (inner (stream x)) ∧
    (d = [] → pressure (inner (stream x')) = pressure (inner (stream x))).
Proof.
  intros (((Hs & _) & _ & _ & _ & d & Hd & Ha) & _) Hle. exists d. unfold hand_over.
  rewrite (drop_sent (stream y) (stream y') []) by (by rewrite app_nil_r). rewrite Hd, length_app, Nat.add_comm, Nat.add_sub.
  rewrite Ha, length_app in Hle.
  destruct (peer_socket (inner (stream x)) [] (length d)) as (H1 & H2 & H3 & H4 & H5); [etrans; [apply Nat.le_add_r|exact Hle]|]. cbn.
  rewrite H1, H2, H3, H4, app_nil_r. split_and!; try done.
  intros ->. destruct (H5 eq_refl) as [H6 H7]. unfold pressure. by rewrite H6, H7.
Qed.
End handing.

Section turns.
Context `{!Cipher} {IO JO : Type} `{!AsyncStream IO} `{!LawfulStream IO} `{!Socket IO}.
Context `{!AsyncStream JO} `{!LawfulStream JO} `{!Socket JO}.
Implicit Types (x : Endpoint IO) (y : Endpoint JO).
Context (ia : IO) (ta : TransportState) (ib : JO) (tb : TransportState) (all : bytes) (n : nat).
Context (Hst : in_step n (sending ta) (receiving tb)) (Hn : (length all ≤ n)%nat) (Hi : taken ib = sent ia).

Lemma reader_turn x y : flows ia ta ib tb all x y → let '(y', x') := act poll_reader y x in
  flows ia ta ib tb all x' y' ∧ (quieter x y x' y' ∨ still x y x' y' ∧ idle_reader (view x y)).
Proof.
  intros Hfl. destruct (reader_polls ia ta ib tb all n Hst Hn Hi x y Hfl) as (He & Hr' & Hmono & Hout). unfold act. cbv zeta.
  set (y' := poll_reader y) in *. clearbody y'. pose proof Hfl as (acc & Hs & Hcat & Hr & Hl & Hif & Hneed & Hfx & Hfy & Hf).
  destruct (hand_over_read y y' x He) as (d & Hd & Ha & Hif' & Hsx & Htx & Hax & Hpx); [lia|].
  set (x' := hand_over (stream y) (stream y') x) in *.
  assert (todo x' = todo x ∧ flushed x' = flushed x ∧ failed x' = failed x ∧ write_cipher (stream x') = write_cipher (stream x) ∧
    sending (transport (stream x')) = sending (transport (stream x))) as (Hto & Hfl' & Hfa & Hwc & Hse) by done.
  clearbody x'. destruct He as (_ & Hty & Hfly & Hny & Hfay).
  assert (flows ia ta ib tb all x' y') as Hfl2.
  { exists acc. split_and!; try done; [|by rewrite Hto| | |congruence..|by rewrite Hfl', Hto, Hwc].
    - unfold sender_inv. by rewrite Hse, Hsx, Hwc.
    - by rewrite Hd, Hsx, <- app_assoc, <- Ha.
    - rewrite Hif', Hif, Ha, length_app. lia. }
  split; [done|]. unfold quieter, still, burden, load. rewrite Hto, Hfl'. cbn [fst snd]. rewrite Hwc.
  assert (in_flight (inner (stream x')) + length d = in_flight (inner (stream x)))%nat as Hfd by (rewrite Hif', Hif, Ha, length_app; lia).
  destruct (decide (length d = 0)%nat) as [Hd0%nil_length_inv|Hd0].
  2:{ left. left. destruct (read_all y) eqn:E; [rewrite (Hmono eq_refl)|destruct (read_all y')]; lia. }
  subst d. simpl in Hfd, Ha. destruct (read_all y) eqn:E.
  { right. unfold view. rewrite (Hmono eq_refl), E, Hfl', <- Ha, (Hpx eq_refl). split_and!; [lia|done..|]. by left. }
  destruct (read_all y') eqn:E'; [left; left; lia|]. right. unfold view. rewrite E, E', Hfl', <- Ha, (Hpx eq_refl).
  split_and!; [lia|done..|]. right. destruct Hout as [|(Hout & Hpl & Hrf)]; [done|]. rewrite Ha, Hout. split; [done|].
  destruct (flushed x) eqn:Efl; [|done]. exfalso.
  rewrite (flushed_all_read ia ta ib tb all n Hst Hn Hi x' y' Hfl2) in E'; done.
Qed.

(** *** Turns of the other direction *)

Lemma other_writer x y y' : flows ia ta ib tb all x y → writer_effect y y' →
  let x' := hand_over (stream y) (stream y') x in flows ia ta ib tb all x' y' ∧ still x y x' y'.
Proof.
  intros Hfl He. destruct (hand_over_written y y' x He) as ((d & Hd & Hd') & Hsx & Htx & Hifx & Hpx).
  set (x' := hand_over (stream y) (stream y') x) in *.
  assert (todo x' = todo x ∧ flushed x' = flushed x ∧ failed x' = failed x ∧ write_cipher (stream x') = write_cipher (stream x) ∧
    sending (transport (stream x')) = sending (transport (stream x))) as (Hto & Hfl' & Hfa & Hwc & Hse) by done.
  clearbody x'. destruct He as ((Hsr & Har & _) & Hne & Hgo & Hfy'). cbn [fst snd] in *.
  destruct Hfl as (acc & Hs & Hcat & Hr & Hl & Hif & Hneed & Hfx & Hfy & Hf). split.
  - exists acc. split_and!; [unfold sender_inv; by rewrite Hse, Hsx, Hwc|by rewrite Hto|rewrite Hgo; by eapply same_reader_inv
      |..|congruence|congruence|congruence|by rewrite Hfl', Hto, Hwc].
    + destruct Hsr as (Ht & _). by rewrite Ht, Har, Hsx.
    + by rewrite Hifx, Har.
  - unfold still, burden, load, view. rewrite Hto, Hfl', Hpx, Har, (read_all_same y y' Hne Hgo). cbn [fst snd]. by rewrite Hwc, Hifx.
Qed.

Lemma other_reader x x' y : flows ia ta ib tb all x y → reader_effect x x' →
  (length (arrived (inner (stream x))) ≤ in_flight (inner (stream y)))%nat →
  let y' := hand_over (stream x) (stream x') y in flows ia ta ib tb all x' y' ∧ still x y x' y'.
Proof.
  intros Hfl He Hle. destruct (hand_over_read x x' y He Hle) as (d & Hd & Ha & Hify & Hsy & Hty & Hay & _).
  set (y' := hand_over (stream x) (stream x') y) in *.
  assert (got y' = got y ∧ need y' = need y ∧ failed y' = failed y ∧ read_all y' = read_all y ∧
    receiving (transport (stream y')) = receiving (transport (stream y)) ∧ read_plain (stream y') = read_plain (stream y) ∧
    read_cipher (stream y') = read_cipher (stream y)) as (Hgo & Hny & Hfy' & Hra & Hre & Hrp & Hrc) by done.
  clearbody y'. destruct He as ((Hsw & Hif' & Hbl & Hpa & _) & Hto & Hflu & Hnx & Hfx'). destruct Hsw as (Hsx & Hsex & Hwcx).
  destruct Hfl as (acc & Hs & Hcat & Hr & Hl & Hif & Hneed & Hfx & Hfy & Hf). split.
  - exists acc. split_and!; [unfold sender_inv; by rewrite Hsx, Hsex, Hwcx|by rewrite Hto
      |..|congruence|congruence|congruence|by rewrite Hflu, Hto, Hwcx].
    + unfold receiver_inv. by rewrite Hgo, Hre, Hrp, Hrc, Hty.
    + by rewrite Hty, Hay, Hsx.
    + by rewrite Hif', Hay.
  - unfold still, burden, load, view, pressure. rewrite Hto, Hflu, Hra, Hbl, Hpa, Hay. cbn [fst snd]. by rewrite Hwcx, Hif'.
Qed.
End turns.

(** ** The connection *)

Inductive turn : Type := WriterA | ReaderA | WriterB | ReaderB.
#[export] Instance turn_eq_dec : EqDecision turn.
Proof. solve_decision. Defined.

Section connection.
Context `{!Cipher} {IO JO : Type} `{!AsyncStream IO} `{!LawfulStream IO} `{!Socket IO}.
Context `{!AsyncStream JO} `{!LawfulStream JO} `{!Socket JO}.

(** One of the four tasks is polled. *)
Definition take_turn (st : Endpoint IO * Endpoint JO) (t : turn) : Endpoint IO * Endpoint JO :=
  let '(a, b) := st in
  match t with
  | WriterA => act poll_writer a b
  | ReaderA => act poll_reader a b
  | WriterB => let '(b, a) := act poll_writer b a in (a, b)
  | ReaderB => let '(b, a) := act poll_reader b a in (a, b)
  end.
Definition run_turns : Endpoint IO * Endpoint JO → list turn → Endpoint IO * Endpoint JO := foldl take_turn.
End connection.

Section halves.
Context `{!Cipher} {IO JO : Type} `{!AsyncStream IO} `{!LawfulStream IO} `{!Socket IO}.
Context `{!AsyncStream JO} `{!LawfulStream JO} `{!Socket JO}.
Implicit Types (x : Endpoint IO) (y : Endpoint JO).
Definition weigh x y : nat := burden x y * S (@max_patience IO _ _ _) + pressure (inner (stream x)).

Lemma quieter_weigh x y x' y' : quieter x y x' y' → (weigh x' y' < weigh x y)%nat.
Proof.
  unfold quieter, weigh. pose proof (pressure_max (inner (stream x'))). intros [?|[-> ?]]; [|lia].
  set (k := @max_patience IO _ _ _) in *. nia.
Qed.
Lemma still_weigh x y x' y' : still x y x' y' → weigh x' y' = weigh x y.
Proof. unfold still, weigh. by intros (-> & -> & _). Qed.

Context (ia : IO) (ta : TransportState) (ib : JO) (tb : TransportState) (all_a all_b : bytes) (n : nat).
Context (Hst_a : in_step n (sending ta) (receiving tb)) (Hn_a : (length all_a ≤ n)%nat) (Hi_a : taken ib = sent ia).
Context (Hst_b : in_step n (sending tb) (receiving ta)) (Hn_b : (length all_b ≤ n)%nat) (Hi_b : taken ia = sent ib).

(** Both directions. *)
Definition flowing x y : Prop := flows ia ta ib tb all_a x y ∧ flows ib tb ia ta all_b y x.

Lemma writer_half x y : flowing x y → let '(x', y') := act poll_writer x y in
  flowing x' y' ∧ still y x y' x' ∧ (quieter x y x' y' ∨ still x y x' y' ∧ idle_writer (view x y)).
Proof.
  intros [Ha Hb]. pose proof (writer_turn ia ta ib tb all_a n Hst_a Hn_a Hi_a x y Ha) as Hw. unfold act in *. cbv zeta in *.
  destruct (writer_polls ia ta ib tb all_a n Hst_a Hn_a x y Ha) as [He _].
  destruct (other_writer ib tb ia ta all_b y x (poll_writer x) Hb He) as [Hb' Hs]. split_and!; [split|..]; tauto.
Qed.

Lemma reader_half x y : flowing x y → let '(y', x') := act poll_reader y x in
  flowing x' y' ∧ still y x y' x' ∧ (quieter x y x' y' ∨ still x y x' y' ∧ idle_reader (view x y)).
Proof.
  intros [Ha Hb]. pose proof (reader_turn ia ta ib tb all_a n Hst_a Hn_a Hi_a x y Ha) as Hw. unfold act in *. cbv zeta in *.
  destruct (reader_polls ia ta ib tb all_a n Hst_a Hn_a Hi_a x y Ha) as [He _].
  destruct (other_reader ib tb ia ta all_b y (poll_reader y) x Hb He) as [Hb' Hs].
  { destruct Ha as (_ & _ & _ & _ & _ & Hif & _). by rewrite Hif. }
  split_and!; [split|..]; tauto.
Qed.
End halves.

Section transfer.
Context `{!Cipher} {IO JO : Type} `{!AsyncStream IO} `{!LawfulStream IO} `{!Socket IO}.
Context `{!AsyncStream JO} `{!LawfulStream JO} `{!Socket JO}.
Implicit Types (a : Endpoint IO) (b : Endpoint JO).

Definition completed a b : Prop :=
  flushed a = true ∧ read_all b = true ∧ flushed b = true ∧ read_all a = true.

Lemma poll_writer_done {S} `{!AsyncStream S} (e : Endpoint S) : flushed e = true → poll_writer e = e.
Proof. intros He. unfold poll_writer. by rewrite He. Qed.
Lemma poll_reader_done {S} `{!AsyncStream S} (e : Endpoint S) : read_all e = true → poll_reader e = e.
Proof.
  intros He%bool_decide_eq_true. unfold poll_reader. cbn [read_exact]. rewrite decide_True by done. by destruct e.
Qed.

Lemma completed_stays ts : ∀ a b, completed a b → let '(a', b') := run_turns (a, b) ts in completed a' b'.
Proof.
  induction ts as [|t ts IH]; [done|]. intros a b (H1 & H2 & H3 & H4). cbn [run_turns foldl].
  assert (let '(a', b') := take_turn (a, b) t in completed a' b') as Hc.
  { destruct t; cbn; rewrite ?poll_writer_done, ?poll_reader_done by done; done. }
  destruct (take_turn (a, b) t) as [a' b']. by apply IH.
Qed.

Context (ia : IO) (ta : TransportState) (ib : JO) (tb : TransportState) (all_a all_b : bytes) (n : nat).
Context (Hst_a : in_step n (sending ta) (receiving tb)) (Hn_a : (length all_a ≤ n)%nat) (Hi_a : taken ib = sent ia).
Context (Hst_b : in_step n (sending tb) (receiving ta)) (Hn_b : (length all_b ≤ n)%nat) (Hi_b : taken ia = sent ib).
Abbreviation both := (flowing ia ta ib tb all_a all_b).

Definition idle (t : turn) (v w : bool * bool * bool) : Prop :=
  match t with
  | WriterA => idle_writer v
  | ReaderB => idle_reader v
  | WriterB => idle_writer w
  | ReaderA => idle_reader w
  end.

(** A turn, or several, lighten the connection or find their task idle. *)
Definition settles (ts : list turn) a b a' b' : Prop :=
  (weigh a' b' + weigh b' a' < weigh a b + weigh b a)%nat ∨
  (weigh a' b' + weigh b' a' = weigh a b + weigh b a)%nat ∧ view a' b' = view a b ∧ view b' a' = view b a ∧
  ∀ t, t ∈ ts → idle t (view a b) (view b a).

Lemma turn_settles a b t : both a b →
  let '(a', b') := take_turn (a, b) t in both a' b' ∧ settles [t] a b a' b'.
Proof.
  intros Hab. assert (flowing ib tb ia ta all_b all_a b a) as Hba by (split; apply Hab).
  unfold settles.
  destruct t; cbn [take_turn];
    [pose proof (writer_half _ _ _ _ _ _ n Hst_a Hn_a Hi_a a b Hab) as Hh
    |pose proof (reader_half _ _ _ _ _ _ n Hst_b Hn_b Hi_b b a Hba) as Hh
    |pose proof (writer_half _ _ _ _ _ _ n Hst_b Hn_b Hi_b b a Hba) as Hh
    |pose proof (reader_half _ _ _ _ _ _ n Hst_a Hn_a Hi_a a b Hab) as Hh];
    destruct (act _ _ _) as [x' y'];
    destruct Hh as ([Hf Hg] & Hs & [Hq%quieter_weigh|[Hs2 Hid]]); (split; [by split|]);
    pose proof (still_weigh _ _ _ _ Hs) as Hw; [left; lia|right| left; lia|right|left; lia|right|left; lia|right];
    pose proof (still_weigh _ _ _ _ Hs2); destruct Hs as (_ & _ & Hv), Hs2 as (_ & _ & Hv2);
    (split_and!; [lia|done|done|by intros ? ->%list_elem_of_singleton]).
Qed.

Lemma turns_settle ts : ∀ a b, both a b →
  let '(a', b') := run_turns (a, b) ts in both a' b' ∧ settles ts a b a' b'.
Proof.
  induction ts as [|t ts IH]; intros a b Hab.
  { split; [done|]. right. split_and!; [done..|]. intros t Ht. by apply elem_of_nil in Ht. }
  change (run_turns (a, b) (t :: ts)) with (run_turns (take_turn (a, b) t) ts).
  pose proof (turn_settles a b t Hab) as Ht. destruct (take_turn (a, b) t) as [a1 b1]. destruct Ht as [Hab1 Ht].
  pose proof (IH a1 b1 Hab1) as Hr. destruct (run_turns (a1, b1) ts) as [a2 b2].
  destruct Hr as [Hab2 Hr]. split; [done|]. unfold settles in *.
  destruct Ht as [?|(? & Hv & Hw & Hid)], Hr as [?|(? & Hv2 & Hw2 & Hid2)]; [left; lia..|right].
  rewrite Hv2, Hw2, Hv, Hw in *. split_and!; [lia|done..|]. intros u [->|Hu]%elem_of_cons; [|by apply Hid2].
  apply Hid. by apply list_elem_of_singleton.
Qed.

Lemma idle_both v : idle_writer v → idle_reader v → v.1.1 = true ∧ v.1.2 = true.
Proof. destruct v as [[[] []] []]; simpl; intros [|[]] [|[]]; done. Qed.

(** Rounds in which every task is polled. *)
Lemma rounds_complete rs : ∀ a b, both a b → Forall (λ r, ∀ t, t ∈ r) rs →
  (weigh a b + weigh b a < length rs)%nat →
  let '(a', b') := run_turns (a, b) (concat rs) in both a' b' ∧ completed a' b'.
Proof.
  induction rs as [|r rs IH]; intros a b Hab Hall Hlen; [simpl in Hlen; lia|].
  apply Forall_cons in Hall as [Hr Hall]. cbn [concat]. unfold run_turns. rewrite foldl_app.
  pose proof (turns_settle r a b Hab) as Hs. unfold run_turns in Hs. destruct (foldl take_turn (a, b) r) as [a1 b1].
  destruct Hs as [Hab1 [Hlt|(_ & Hv & Hw & Hid)]]; [apply IH; [done..|simpl in Hlen; lia]|].
  destruct (idle_both (view a b) (Hid WriterA (Hr _)) (Hid ReaderB (Hr _))) as [H1 H2].
  destruct (idle_both (view b a) (Hid WriterB (Hr _)) (Hid ReaderA (Hr _))) as [H3 H4].
  rewrite <- Hv in H1, H2. rewrite <- Hw in H3, H4.
  pose proof (completed_stays (concat rs) a1 b1) as Hc. pose proof (turns_settle (concat rs) a1 b1 Hab1) as Hb.
  unfold run_turns in *. destruct (foldl take_turn (a1, b1) (concat rs)) as [a2 b2]. split; [apply Hb|by apply Hc].
Qed.
End transfer.

(** ** Everything arrives *)

Section complete.
Context `{!Cipher} {IO JO : Type} `{!AsyncStream IO} `{!LawfulStream IO} `{!Socket IO}.
Context `{!AsyncStream JO} `{!LawfulStream JO} `{!Socket JO}.

(** Two ends right after the handshake: each has read what the other wrote, and nothing is
    under way. *)
Definition connected (ia : IO) (ib : JO) : Prop :=
  taken ib = sent ia ∧ taken ia = sent ib ∧ arrived ia = [] ∧ arrived ib = [] ∧ in_flight ia = 0%nat ∧ in_flight ib = 0%nat.
Definition start (ia : IO) (ib : JO) (ta tb : TransportState) (ms_a ms_b : list bytes) : Endpoint IO * Endpoint JO :=
  (start_end ia ta ms_a (length (concat ms_b)), start_end ib tb ms_b (length (concat ms_a))).
Definition enough_rounds (ms_a ms_b : list bytes) : nat :=
  (40 * length (concat ms_a) + 3) * S (@max_patience IO _ _ _) + (40 * length (concat ms_b) + 3) * S (@max_patience JO _ _ _).

Lemma start_flows {S T : Type} `{!AsyncStream S, !LawfulStream S, !Socket S, !AsyncStream T, !LawfulStream T, !Socket T}
    (i : S) (j : T) t u ms ms' : taken j = sent i → arrived j = [] → in_flight i = 0%nat →
  flows i t j u (concat ms) (start_end i t ms (length (concat ms'))) (start_end j u ms' (length (concat ms))).
Proof.
  intros Ht Ha Hf. exists []. cbn. rewrite Ha, Hf, app_nil_r. split_and!; try done; exists [], [];
    cbn; rewrite ?app_nil_r; (split_and!; [constructor|done..]).
Qed.

Lemma start_weigh {S T : Type} `{!AsyncStream S, !LawfulStream S, !Socket S, !AsyncStream T, !LawfulStream T, !Socket T}
    (i : S) (j : T) t u ms ms' : in_flight i = 0%nat →
  (weigh (start_end i t ms (length (concat ms'))) (start_end j u ms' (length (concat ms))) <
     (40 * length (concat ms) + 3) * Datatypes.S (@max_patience S _ _ _))%nat.
Proof.
  intros Hf. unfold weigh, burden, load. cbn [start_end todo stream from_transport inner write_cipher flushed fst snd length].
  rewrite Hf. pose proof (pressure_max i). destruct (read_all _); nia.
Qed.

Lemma prefix_full (g l : bytes) : g `prefix_of` l → (length l ≤ length g)%nat → g = l.
Proof. intros [z ->] Hz. rewrite length_app in Hz. destruct z; [by rewrite app_nil_r|simpl in Hz; lia]. Qed.

Lemma transfer_ends ia ib ta tb ms_a ms_b rounds :
  paired ta tb → connected ia ib →
  Z.of_nat (length (concat ms_a)) < 2 ^ 64 - 1 → Z.of_nat (length (concat ms_b)) < 2 ^ 64 - 1 →
  Forall (λ r, ∀ t : turn, t ∈ r) rounds → (enough_rounds ms_a ms_b ≤ length rounds)%nat →
  let '(a, b) := run_turns (start ia ib ta tb ms_a ms_b) (concat rounds) in
  completed a b ∧ got b = concat ms_a ∧ got a = concat ms_b ∧ failed a = false ∧ failed b = false.
Proof.
  intros Hp (Hi_a & Hi_b & Har_a & Har_b & Hf_a & Hf_b) Hn_a Hn_b Hr Hlen.
  set (n := Nat.max (length (concat ms_a)) (length (concat ms_b))). destruct (Hp n) as [Hst_a Hst_b]; [lia|].
  pose proof (start_weigh ia ib ta tb ms_a ms_b Hf_a) as Hw_a. pose proof (start_weigh ib ia tb ta ms_b ms_a Hf_b) as Hw_b.
  pose proof (rounds_complete ia ta ib tb (concat ms_a) (concat ms_b) n Hst_a ltac:(lia) Hi_a Hst_b ltac:(lia) Hi_b rounds
    (start ia ib ta tb ms_a ms_b).1 (start ia ib ta tb ms_a ms_b).2) as Hc.
  unfold start in *. cbn [fst snd] in Hc.
  destruct (run_turns _ _) as [a b]. destruct Hc as [[Hab Hba] Hdone];
    [split; by apply start_flows|done|unfold enough_rounds in Hlen; lia|].
  pose proof (flows_got ia ta ib tb (concat ms_a) n Hst_a ltac:(lia) Hi_a a b Hab) as Hg_a.
  pose proof (flows_got ib tb ia ta (concat ms_b) n Hst_b ltac:(lia) Hi_b b a Hba) as Hg_b.
  pose proof Hdone as (_ & H2%bool_decide_eq_true & _ & H4%bool_decide_eq_true).
  destruct Hab as (_ & _ & _ & _ & _ & _ & Hna & Hfa & Hfb & _). destruct Hba as (_ & _ & _ & _ & _ & _ & Hnb & _).
  split_and!; [done|apply prefix_full; [done|lia]..|done|done].
Qed.

(** C31: everything arrives.  Two sites that have finished the handshake each write messages and
    read as many bytes as the other writes, over inner streams that may stall, split writes and
    fill up until the other side reads.  However the four tasks are scheduled, as long as each is
    polled in every round, after [enough_rounds] rounds both writers have flushed, each side has
    read exactly what the other wrote, in order, and no task has failed. *)
Theorem transfer_completes ia ib ta tb ms_a ms_b rounds :
  paired ta tb → connected ia ib →
  Z.of_nat (length (concat ms_a)) < 2 ^ 64 - 1 → Z.of_nat (length (concat ms_b)) < 2 ^ 64 - 1 →
  Forall (λ r, ∀ t : turn, t ∈ r) rounds → (enough_rounds ms_a ms_b ≤ length rounds)%nat →
  let '(a, b) := run_turns (start ia ib ta tb ms_a ms_b) (concat rounds) in
  flushed a = true ∧ flushed b = true ∧ got b = concat ms_a ∧ got a = concat ms_b ∧ failed a = false ∧ failed b = false.
Proof.
  intros Hp Hc Ha Hb Hf Hr. pose proof (transfer_ends ia ib ta tb ms_a ms_b rounds Hp Hc Ha Hb Hf Hr) as Ht.
  destruct (run_turns _ _) as [a b]. destruct Ht as ((? & _ & ? & _) & ?). tauto.
Qed.
End complete.

(** ** A connection that can be run *)

Module TransferRuns.
#[local] Existing Instances NoiseRuns.toy_cipher.

(** An in-memory pipe: what is written to one end, up to [c] bytes, waits for the other. *)
Record Duplex (c : nat) : Type := mkDuplex { d_in : bytes; d_out : bytes; d_sent : bytes; d_taken : bytes }.
Arguments mkDuplex {c}.
Arguments d_in {c}.
Arguments d_out {c}.
Arguments d_sent {c}.
Arguments d_taken {c}.

Section duplex.
Context {c : nat}.
Definition duplex_read (s : Duplex c) (cap : Z) : poll bytes * Duplex c :=
  match d_in s with
  | [] => (Pending, s)
  | _ => let d := take (Z.to_nat cap) (d_in s) in
         (Ready (Ok d), mkDuplex (drop (Z.to_nat cap) (d_in s)) (d_out s) (d_sent s) (d_taken s ++ d))
  end.
Definition duplex_write (s : Duplex c) (buf : bytes) : poll nat * Duplex c :=
  if decide (c ≤ length (d_out s))%nat then (Pending, s) else
  let k := Nat.min (c - length (d_out s)) (length buf) in
  (Ready (Ok k), mkDuplex (d_in s) (d_out s ++ take k buf) (d_sent s ++ take k buf) (d_taken s)).

#[export] Instance duplex_stream : AsyncStream (Duplex c) := {|
  inner_read := duplex_read; inner_write := duplex_write;
  inner_flush s := (Ready (Ok tt), s); inner_shutdown s := (Ready (Ok tt), s);
|}.
#[export] Instance duplex_lawful : LawfulStream (Duplex c).
Proof.
  refine {| sent := d_sent; taken := d_taken |}; simpl; try done.
  - intros s cap Hc. unfold duplex_read. destruct (d_in s) eqn:E; [done|]. cbn [fst snd d_sent d_taken]. split_and!; try done.
    unfold blen. rewrite length_take. lia.
  - intros s buf. unfold duplex_write. destruct (decide _); [done|]. cbn [fst snd d_sent d_taken]. split_and!; try done. lia.
Defined.

Definition duplex_socket (Hc : (0 < c)%nat) : Socket (Duplex c).
Proof.
  refine {| arrived := d_in; in_flight s := length (d_out s); blocked s := bool_decide (c ≤ length (d_out s))%nat;
    patience _ := 0%nat; max_patience := 0%nat;
    peer_did s a k := mkDuplex (d_in s ++ a) (drop k (d_out s)) (d_sent s) (d_taken s) |}; simpl; try done.
  - intros s Hb%bool_decide_eq_true. lia.
  - intros s cap Hcap. unfold duplex_read. destruct (d_in s) as [|b d] eqn:E; [done|]. cbn [d_in d_out]. split_and!; [done..| |].
    + destruct (Z.to_nat cap) eqn:Ez; [lia|done].
    + by rewrite take_drop.
  - intros s buf Hb. unfold duplex_write. destruct (decide _).
    + split_and!; [done..|]. left. by rewrite bool_decide_true.
    + cbn [d_in d_out]. assert (0 < length buf)%nat by (destruct buf; [done|simpl; lia]).
      rewrite length_app, length_take. split_and!; [done|lia..].
  - intros s a k Hk. rewrite length_drop. split_and!; [done..|]. intros ->. by rewrite Nat.sub_0_r.
Defined.
End duplex.

#[local] Instance socket8 : Socket (Duplex 8) := duplex_socket (c := 8) ltac:(lia).
#[local] Instance socket8_throttled : Socket (Throttle (Duplex 8) 3) := throttle_socket (max_write := 3) ltac:(lia).

Definition fresh8 : Duplex 8 := mkDuplex [] [] [] [].
Definition throttled8 : Throttle (Duplex 8) 3 := mkThrottle fresh8 0.
Definition all_four : list turn := [ReaderB; WriterA; WriterB; ReaderA].
Definition messages_a : list bytes := [as_bytes "hello"; as_bytes " over"; as_bytes " noise"].
Definition messages_b : list bytes := [as_bytes "and back"].

(** Through eight bytes of room and a throttle the messages need a number of rounds. *)
Example transfer_run :
  let '(a, b) := run_turns (start throttled8 fresh8 NoiseRuns.t0 NoiseRuns.t0 messages_a messages_b)
                   (concat (replicate 60 all_four)) in
  (flushed a, got b, got a) = (true, as_bytes "hello over noise", as_bytes "and back").
Proof. vm_compute. reflexivity. Qed.

Lemma toy_paired : paired NoiseRuns.t0 NoiseRuns.t0.
Proof. done. Qed.

Lemma transfer_completes_witness :
  let '(a, b) := run_turns (start throttled8 fresh8 NoiseRuns.t0 NoiseRuns.t0 messages_a messages_b)
                   (concat (replicate 2000 all_four)) in
  flushed a = true ∧ flushed b = true ∧ got b = concat messages_a ∧ got a = concat messages_b ∧
  failed a = false ∧ failed b = false.
Proof.
  apply (transfer_completes throttled8 fresh8 NoiseRuns.t0 NoiseRuns.t0 messages_a messages_b (replicate 2000 all_four)).
  - exact toy_paired.
  - done.
  - vm_compute. reflexivity.
  - vm_compute. reflexivity.
  - apply Forall_replicate. intros []; apply (bool_decide_unpack _); vm_compute; exact I.
  - rewrite length_replicate. apply Nat.leb_le. vm_compute. reflexivity.
Defined.
End TransferRuns.
