(* ===== verification/Internal.v ===== *)
(** * The internal endpoints (src/main.rs: [handle_internal_request], [url_query_pairs],
    [percent_decode], [noise_get_facts], [perform_join_handshake])

    What a site answers to its peers on the encrypted port.  A request is its secret header,
    path and query; JSON bodies are the values serde_json writes, which the callers read
    back.  The theorems connect the client side of [Sync] to this server side. *)

From stdpp Require Import pretty.
From S2P Require Import Prelude Crates Clock Hashing Listing Policy Disk Tables Store FactLog.
From S2P Require Import BlockStore GC Replication S3 Sync.

(** ** Percent decoding *)

(** [String::from_utf8_lossy]: every maximal ill-formed piece becomes U+FFFD. *)
Definition replacement : bytes := [ascii_of_N 239; ascii_of_N 191; ascii_of_N 189].
Definition second_of_three (c0 c1 : ascii) : bool :=
  if in_range 224 224 c0 then in_range 160 191 c1
  else if in_range 237 237 c0 then in_range 128 159 c1 else continuation c1.
Definition second_of_four (c0 c1 : ascii) : bool :=
  if in_range 240 240 c0 then in_range 144 191 c1
  else if in_range 244 244 c0 then in_range 128 143 c1 else continuation c1.

Fixpoint utf8_lossy (b : bytes) : bytes :=
  match b with
  | [] => []
  | c0 :: r =>
      if in_range 0 127 c0 then c0 :: utf8_lossy r
      else if in_range 194 223 c0 then
        match r with
        | c1 :: r1 => if continuation c1 then c0 :: c1 :: utf8_lossy r1 else replacement ++ utf8_lossy r
        | [] => replacement
        end
      else if in_range 224 239 c0 then
        match r with
        | c1 :: r1 =>
            if second_of_three c0 c1 then
              match r1 with
              | c2 :: r2 => if continuation c2 then c0 :: c1 :: c2 :: utf8_lossy r2
                            else replacement ++ utf8_lossy r1
              | [] => replacement
              end
            else replacement ++ utf8_lossy r
        | [] => replacement
        end
      else if in_range 240 244 c0 then
        match r with
        | c1 :: r1 =>
            if second_of_four c0 c1 then
              match r1 with
              | c2 :: r2 =>
                  if continuation c2 then
                    match r2 with
                    | c3 :: r3 => if continuation c3 then c0 :: c1 :: c2 :: c3 :: utf8_lossy r3
                                  else replacement ++ utf8_lossy r2
                    | [] => replacement
                    end
                  else replacement ++ utf8_lossy r1
              | [] => replacement
              end
            else replacement ++ utf8_lossy r
        | [] => replacement
        end
      else replacement ++ utf8_lossy r
  end.

(** [u8::from_str_radix(_, 16)] on a string of two bytes; a plus sign may stand first. *)
Definition hex_digit (c : ascii) : option N :=
  let n := N_of_ascii c in
  if in_range 48 57 c then Some (n - 48)%N
  else if in_range 97 102 c then Some (n - 87)%N
  else if in_range 65 70 c then Some (n - 55)%N
  else None.
Definition from_str_radix_16 (h l : ascii) : option ascii :=
  if decide (h = "+"%char) then ascii_of_N <$> hex_digit l
  else hi ← hex_digit h; lo ← hex_digit l; Some (ascii_of_N (16 * hi + lo)).

(** A string may be cut before this byte. *)
Definition char_boundary (r : bytes) : bool :=
  match r with c :: _ => negb (continuation c) | [] => true end.

(** The loop of [percent_decode]; cutting [s[i + 1..i + 3]] inside a character panics. *)
Fixpoint percent_loop (b : bytes) : result panic bytes :=
  let push c rest := match rest with Ok out => Ok (c :: out) | Err e => Err e end in
  match b with
  | [] => Ok []
  | c :: r =>
      let plain := push (if decide (c = "+"%char) then " "%char else c) (percent_loop r) in
      match r with
      | h :: l :: r' =>
          if decide (c = "%"%char) then
            if char_boundary r' then
              match from_str_radix_16 h l with
              | Some v => push v (percent_loop r')
              | None => plain
              end
            else Err Panic
          else plain
      | _ => plain
      end
  end.
Definition percent_decode (s : string) : result panic string :=
  match percent_loop (as_bytes s) with
  | Ok out => Ok (of_bytes (utf8_lossy out))
  | Err e => Err e
  end.

(** [split] and [split_once] at a character. *)
Fixpoint split_on (c : ascii) (s : string) : list string :=
  match s with
  | EmptyString => [""]
  | String a s' =>
      if decide (a = c) then "" :: split_on c s'
      else match split_on c s' with
           | piece :: rest => String a piece :: rest
           | [] => [String a ""]
           end
  end.
Fixpoint split_once (c : ascii) (s : string) : option (string * string) :=
  match s with
  | EmptyString => None
  | String a s' =>
      if decide (a = c) then Some ("", s')
      else '(k, v) ← split_once c s'; Some (String a k, v)
  end.

Fixpoint decode_pairs (l : list string) : result panic (list (string * string)) :=
  match l with
  | [] => Ok []
  | kv :: l' =>
      match split_once "=" kv with
      | None => decode_pairs l'
      | Some (k, v) =>
          match percent_decode k, percent_decode v, decode_pairs l' with
          | Ok k, Ok v, Ok out => Ok ((k, v) :: out)
          | _, _, _ => Err Panic
          end
      end
  end.
Definition url_query_pairs (q : string) : result panic (list (string * string)) :=
  decode_pairs (filter (λ s, s ≠ "") (split_on "&" q)).

(** ** Requests *)

Record ClusterConfigResponse : Type := mkConfigResponse {
  cluster_time_micros : Z; cr_location_id : string; cr_advertise_addr : string
}.

Record Request : Type := mkRequest {
  secret_header : option bytes; uri_path : string; uri_query : option string
}.

(** [HeaderValue::to_str]: visible ASCII, space and tab. *)
Definition to_str (h : bytes) : option string :=
  if forallb (λ c, in_range 32 126 c || in_range 9 9 c) h then Some (of_bytes h) else None.

Inductive StatusCode : Type := OK | BAD_REQUEST | UNAUTHORIZED | NOT_FOUND | INTERNAL_SERVER_ERROR.

(** The parts of [Config] the endpoints use. *)
Record SiteConfig : Type := mkSiteConfig {
  cluster_secret : string; site_location_id : string; advertise_addr : string;
  gc_grace_period_seconds : Z
}.

(** [str::parse::<i64>]. *)
Definition parse_i64 (s : string) : option Z :=
  v ← match s with
      | String "+" s' => parse_nat s'
      | String "-" s' => Z.opp <$> parse_nat s'
      | _ => parse_nat s
      end;
  if (- 2 ^ 63 <=? v) && (v <? 2 ^ 63) then Some v else None.

Section internal.
Context `{!Blake3, !Hex, !UuidCodec, !Json, !IterOrder, !BlobStore}.
Context (noise_fetch_block : string → bytes → result error bytes).

Inductive Body : Type :=
  | Text (s : string)
  | ConfigJson (c : ClusterConfigResponse)
  | NodesJson (l : list (string * string))
  | FactsJson (l : list (FactRecord Value))
  | BlockBytes (b : bytes).

Record Response : Type := mkResponse { status : StatusCode; body : Body }.

Abbreviation endpoint A := (io Backend panic A).

Definition set_db (f : Store → Store) : endpoint unit := λ b,
  (Ok tt, mkBackend (mkNodeState (f (db (node b))) (blob (node b))) (disk_guard b)).

(** The last [id] and [addr] of the query win. *)
Definition join_params (pairs : list (string * string)) : string * string :=
  foldl (λ '(id, addr) '(k, v),
           if decide (k = "id") then (v, addr) else if decide (k = "addr") then (id, v) else (id, addr))
        ("", "") pairs.

Definition handle_join (t : SystemTime) (query : option string) : endpoint Response :=
  let! pairs := match query with
                | Some q => lift (url_query_pairs q)
                | None => ret []
                end in
  let '(id, addr) := join_params pairs in
  do! if decide (id = "" ∨ addr = "") then ret tt else set_db (λ s, record_peer s t id addr);
  ret (mkResponse OK (Text "ok")).

Definition handle_facts (after_str : string) : endpoint Response := λ b,
  let after := default 0 (parse_i64 after_str) in
  let facts := match facts_since (db (node b)) after FACT_SYNC_BATCH with Ok l => l | Err _ => [] end in
  (Ok (mkResponse OK (FactsJson facts)), b).

Definition handle_gc (cfg : SiteConfig) (t : SystemTime) : endpoint Response := λ b,
  let '(r, n) := force_sweep_orphaned_blocks (gc_grace_period_seconds cfg) t (node b) in
  (match r with
   | Ok _ => Ok (mkResponse OK (Text "ok"))
   | Err SweepPanic => Err Panic
   | Err _ => Ok (mkResponse INTERNAL_SERVER_ERROR (Text "sweep failed"))
   end, mkBackend n (disk_guard b)).

Definition handle_block (t : SystemTime) (hash_hex : string) : endpoint Response := λ b,
  match hex_decode hash_hex with
  | None => (Ok (mkResponse BAD_REQUEST (Text "Invalid hash")), b)
  | Some hash =>
      if decide (length hash = 32%nat) then
        let '(r, n) := get_block noise_fetch_block t hash (node b) in
        (Ok match r with
            | Ok data => mkResponse OK (BlockBytes data)
            | Err _ => mkResponse NOT_FOUND (Text "Not found")
            end, mkBackend n (disk_guard b))
      else (Ok (mkResponse BAD_REQUEST (Text "Hash must be 32 bytes")), b)
  end.

Definition handle_internal_request (cfg : SiteConfig) (t : SystemTime) (req : Request)
    : endpoint Response := λ b,
  if decide (secret_header req ≫= to_str ≠ Some (cluster_secret cfg)) then
    (Ok (mkResponse UNAUTHORIZED (Text "Unauthorized")), b)
  else if decide (uri_path req = "/internal/cluster/config") then
    (Ok (mkResponse OK (ConfigJson (mkConfigResponse (Clock.now_micros (clock (db (node b))) t)
                                      (site_location_id cfg) (advertise_addr cfg)))), b)
  else if decide (uri_path req = "/internal/nodes") then
    (Ok (mkResponse OK (NodesJson (all_nodes (db (node b))))), b)
  else if decide (uri_path req = "/internal/join") then handle_join t (uri_query req) b
  else match strip_prefix (uri_path req) "/internal/facts/" with
  | Some after_str => handle_facts after_str b
  | None =>
      if decide (uri_path req = "/internal/gc/force") then handle_gc cfg t b
      else match strip_prefix (uri_path req) "/internal/blocks/" with
      | Some hash_hex => handle_block t hash_hex b
      | None => (Ok (mkResponse NOT_FOUND (Text "Not found")), b)
      end
  end.

(** ** The client side *)

Definition is_success (s : StatusCode) : bool := match s with OK => true | _ => false end.

(** [noise_get_facts] against the peer with configuration [cfg] and backend [b]: its request,
    the peer's answer, and what the puller makes of it. *)
Definition facts_request (secret : string) (after : Z) : Request :=
  mkRequest (Some (as_bytes secret)) ("/internal/facts/" +:+ pretty after) None.
Definition read_facts (r : result panic Response) : result error (list (FactRecord Value)) :=
  match r with
  | Ok resp =>
      if is_success (status resp) then
        match body resp with FactsJson l => Ok l | _ => Err InvalidJson end
      else Err FetchError
  | Err _ => Err FetchError
  end.
Definition noise_get_facts (cfg : SiteConfig) (secret : string) (t : SystemTime) (b : Backend)
    (_url : string) (after : Z) : result error (list (FactRecord Value)) :=
  read_facts (handle_internal_request cfg t (facts_request secret after) b).1.

(** The query [perform_join_handshake] registers with. *)
Definition join_query (id addr : string) : string := "id=" +:+ id +:+ "&addr=" +:+ addr.
Definition join_request (secret id addr : string) : Request :=
  mkRequest (Some (as_bytes secret)) "/internal/join" (Some (join_query id addr)).

(** [perform_join_handshake]: from the peer's answer with its round trip, the local time and
    the outcome of saving the configuration, the clock afterwards and the offset the
    configuration keeps with the peer to record.  The registration request in between may
    fail without effect here. *)
Definition perform_join_handshake (peer_url : string) (answer : result error (ClusterConfigResponse * Z))
    (t : SystemTime) (saved : result error unit) (c : ClusterClock)
    : result error (Z * (string * string)) * ClusterClock :=
  match answer with
  | Err e => (Err e, c)
  | Ok (info, rtt_micros) =>
      match measured_offset_ms (cluster_time_micros info) rtt_micros t with
      | Err _ => (Err TimeBeforeEpoch, c)
      | Ok offset =>
          let c := set_offset c offset in
          match saved with
          | Err e => (Err e, c)
          | Ok _ =>
              let peer_id := if decide (cr_location_id info = "") then peer_url else cr_location_id info in
              (Ok (offset, (peer_id, peer_url)), c)
          end
      end
  end.
End internal.

(** ** Decimal numbers *)

Lemma digit_pretty_char n : (n < 10)%N → digit (pretty_N_char n) = Some (Z.of_N n).
Proof.
  intros Hn. destruct n as [|[[[]|[]|]|[[]|[]|]|]]; try done; repeat (destruct p; try done).
Qed.

Lemma parse_pretty_go (x : N) : ∀ s, parse_digits 0 (pretty_N_go x s) = parse_digits (Z.of_N x) s.
Proof.
  induction (N.lt_wf_0 x) as [x _ IH]. intros s.
  destruct (decide (x = 0)%N) as [->|Hx]; [by rewrite pretty_N_go_0|].
  rewrite pretty_N_go_step by lia. rewrite IH by (apply N.div_lt; lia). cbn [parse_digits].
  rewrite digit_pretty_char by (apply N.mod_lt; lia). simpl. f_equal.
  pose proof (N.div_mod x 10). lia.
Qed.

Lemma parse_nat_pretty (x : N) : parse_nat (pretty x) = Some (Z.of_N x).
Proof.
  unfold pretty, pretty_N. destruct (decide (x = 0)%N) as [->|Hx]; [done|].
  pose proof (parse_pretty_go x "") as Hp. unfold parse_nat.
  destruct (pretty_N_go x "") eqn:E; [simpl in Hp; injection Hp; lia|by rewrite Hp].
Qed.

(** Signs are not digits. *)
Lemma parse_nat_unsigned s v : parse_nat s = Some v →
  match s with
  | String "+" s' => parse_nat s'
  | String "-" s' => Z.opp <$> parse_nat s'
  | _ => parse_nat s
  end = Some v.
Proof. destruct s as [|[[] [] [] [] [] [] [] []] s]; try done. Qed.

Lemma parse_i64_pretty z : in_i64 z → parse_i64 (pretty z) = Some z.
Proof.
  intros [Hl Hu]. unfold parse_i64.
  assert (match pretty z with
          | String "+" s' => parse_nat s'
          | String "-" s' => Z.opp <$> parse_nat s'
          | _ => parse_nat (pretty z)
          end = Some z) as ->.
  { destruct z as [|p|p]; [done| |].
    - apply parse_nat_unsigned. exact (parse_nat_pretty (Npos p)).
    - change (pretty (Zneg p)) with (String "-" (pretty (Npos p))).
      cbn iota. by rewrite parse_nat_pretty. }
  simpl. rewrite (proj2 (Z.leb_le _ _)), (proj2 (Z.ltb_lt _ _)) by lia. done.
Qed.

(** ** Queries *)

Lemma utf8_lossy_valid b : utf8_valid b = true → utf8_lossy b = b.
Proof.
  assert (∀ n b, (length b < n)%nat → utf8_valid b = true → utf8_lossy b = b) as H; [|by eapply (H (S (length b))), Nat.lt_succ_diag_r].
  clear b. induction n as [|n IH]; intros b Hn; [lia|].
  destruct b as [|c0 r]; [done|]. cbn [utf8_valid utf8_lossy]. simpl in Hn.
  destruct (in_range 0 127 c0); [intros Hv; f_equal; apply IH; [lia|done]|].
  destruct (in_range 194 223 c0).
  { destruct r as [|c1 r]; [done|]. intros [-> Hv]%andb_prop. do 2 f_equal. apply IH; [simpl in *; lia|done]. }
  destruct (in_range 224 239 c0).
  { destruct r as [|c1 [|c2 r]]; [done..|].
    change (if in_range 224 224 c0 then in_range 160 191 c1
            else if in_range 237 237 c0 then in_range 128 159 c1 else continuation c1) with (second_of_three c0 c1).
    intros [[-> ->]%andb_prop Hv]%andb_prop. do 3 f_equal. apply IH; [simpl in *; lia|done]. }
  destruct (in_range 240 244 c0); [|done].
  destruct r as [|c1 [|c2 [|c3 r]]]; [done..|].
  change (if in_range 240 240 c0 then in_range 144 191 c1
          else if in_range 244 244 c0 then in_range 128 143 c1 else continuation c1) with (second_of_four c0 c1).
  intros [[[-> ->]%andb_prop ->]%andb_prop Hv]%andb_prop. do 4 f_equal. apply IH; [simpl in *; lia|done].
Qed.

(** Text that a query carries as it is: UTF-8 without percent, plus or ampersand. *)
Definition url_safe (s : string) : Prop :=
  utf8_valid (as_bytes s) = true ∧
  Forall (λ c, c ≠ "%"%char ∧ c ≠ "+"%char ∧ c ≠ "&"%char) (as_bytes s).

#[global] Instance url_safe_dec s : Decision (url_safe s).
Proof. unfold url_safe. apply _. Defined.

Lemma percent_decode_safe s : url_safe s → percent_decode s = Ok s.
Proof.
  intros [Hv Hs]. unfold percent_decode.
  assert (percent_loop (as_bytes s) = Ok (as_bytes s)) as ->.
  { clear Hv. induction (as_bytes s) as [|c b IH]; [done|].
    apply Forall_cons in Hs as [(Hp & Hq & _) Hs]. specialize (IH Hs). cbn [percent_loop].
    rewrite (decide_False (P := c = "+"%char)) by done. rewrite IH.
    destruct b as [|h [|l b]]; [done..|]. by rewrite decide_False. }
  rewrite utf8_lossy_valid by done. unfold of_bytes, as_bytes. by rewrite string_of_list_ascii_of_string.
Qed.

Lemma split_on_safe s rest : Forall (λ c, c ≠ "&"%char) (as_bytes s) →
  split_on "&" (s +:+ String "&" rest) = s :: split_on "&" rest.
Proof.
  induction s as [|a s IH]; intros Hs; [done|]. apply Forall_cons in Hs as [Ha Hs].
  rewrite append_cons. cbn [split_on]. rewrite decide_False by done. by rewrite IH.
Qed.

Lemma split_on_last s : Forall (λ c, c ≠ "&"%char) (as_bytes s) → split_on "&" s = [s].
Proof.
  induction s as [|a s IH]; intros Hs; [done|]. apply Forall_cons in Hs as [Ha Hs].
  cbn [split_on]. rewrite decide_False by done. by rewrite IH.
Qed.

Lemma url_safe_amp s : url_safe s → Forall (λ c, c ≠ "&"%char) (as_bytes s).
Proof. intros [_ Hs]. eapply Forall_impl; [exact Hs|]. simpl. tauto. Qed.

Lemma join_query_pairs id addr : url_safe id → url_safe addr →
  url_query_pairs (join_query id addr) = Ok [("id", id); ("addr", addr)].
Proof.
  intros Hi Ha. unfold url_query_pairs, join_query.
  assert (("id=" +:+ id +:+ "&addr=" +:+ addr) = (("id=" +:+ id) +:+ String "&" ("addr=" +:+ addr))) as ->.
  { by rewrite <- append_assoc. }
  rewrite split_on_safe, split_on_last by
    (rewrite as_bytes_append; apply Forall_app; split; [by repeat constructor|by apply url_safe_amp]).
  rewrite !filter_cons_True by done.
  change (filter (λ s, s ≠ "") (@nil string)) with (@nil string).
  change ("id=" +:+ id) with (String "i" (String "d" (String "=" id))).
  change ("addr=" +:+ addr) with (String "a" (String "d" (String "d" (String "r" (String "=" addr))))).
  cbn [decode_pairs split_once]. simpl. by rewrite !percent_decode_safe by done.
Qed.

Section endpoints.
Context `{!Blake3, !Hex, !UuidCodec, !Json, !IterOrder, !BlobStore}.
Context (noise_fetch_block : string → bytes → result error bytes).

(** A secret that survives the trip in a header. *)
Definition visible (s : string) : Prop := to_str (as_bytes s) = Some s.

Lemma authorized cfg secret :
  cluster_secret cfg = secret → visible secret → ¬ (Some (as_bytes secret) ≫= to_str ≠ Some (cluster_secret cfg)).
Proof. intros <- Hv Hne. by apply Hne. Qed.

Lemma facts_endpoint_page cfg secret t b url after :
  cluster_secret cfg = secret → visible secret → in_i64 after →
  noise_get_facts noise_fetch_block cfg secret t b url after =
    Ok match serves (db (node b)) url after with Ok l => l | Err _ => [] end ∧
  (handle_internal_request noise_fetch_block cfg t (facts_request secret after) b).2 = b.
Proof.
  intros Hc Hv Hi. unfold noise_get_facts, handle_internal_request, facts_request.
  rewrite decide_False by by apply authorized.
  cbn [uri_path uri_query]. change ("/internal/facts/" +:+ pretty after) with
    (String "/" (String "i" (String "n" (String "t" (String "e" (String "r" (String "n" (String "a" (String "l"
    (String "/" (String "f" (String "a" (String "c" (String "t" (String "s" (String "/" (pretty after))))))))))))))))).
  repeat (rewrite decide_False by congruence). cbn [strip_prefix]. simpl.
  unfold handle_facts. by rewrite parse_i64_pretty.
Qed.

(** The facts endpoint serves the log.  A puller with the cluster secret that asks for
    the facts after any cursor that fits [i64] gets the page [facts_since] computes; the
    number survives being written into the path and parsed back, and the peer is left as it
    was.  A log that does not read back is served as an empty page. *)
Theorem facts_endpoint_serves cfg secret t b url after :
  cluster_secret cfg = secret → visible secret → in_i64 after →
  noise_get_facts noise_fetch_block cfg secret t b url after =
    Ok match serves (db (node b)) url after with Ok l => l | Err _ => [] end ∧
  (handle_internal_request noise_fetch_block cfg t (facts_request secret after) b).2 = b.
Proof. apply facts_endpoint_page. Qed.

(** A pull through the endpoint misses nothing.  A site that pulls from a reachable peer
    over the internal endpoint, page by page, ends with every fact of the peer's log past
    its cursor applied, in order and once each, and its cursor at the end of the log. *)
Theorem endpoint_sync_complete cfg secret tp bp ownp seenp s own seen t peer url fuel c :
  cluster_secret cfg = secret → visible secret → Z.of_nat (length ownp) < 2 ^ 63 →
  site (db (node bp)) ownp seenp → site s own seen →
  get_cursor s peer = Z.of_nat c → (c ≤ length ownp)%nat →
  (length ownp - c < fuel * Z.to_nat FACT_SYNC_BATCH)%nat →
  ∃ s', sync_peer (noise_get_facts noise_fetch_block cfg secret tp bp) fuel t peer url s = Some s' ∧
    site s' own (seen ++ drop c ownp) ∧ get_cursor s' peer = Z.of_nat (length ownp).
Proof.
  intros Hcfg Hv Hlen Hp Hs Hc Hle Hfuel. eapply sync_peer_pulls; [exact Hp| |exact Hs|exact Hc|done..].
  intros k Hk. destruct (facts_endpoint_page cfg secret tp bp url (Z.of_nat k) Hcfg Hv) as [-> _].
  { unfold in_i64. lia. }
  unfold serves. by rewrite (site_facts_since _ ownp seenp) by (done || unfold FACT_SYNC_BATCH; lia).
Qed.

(** Joining registers the joiner.  The registration request of a site whose id and
    address need no escaping is accepted and records exactly that id and address at the
    peer, which changes nothing else. *)
Theorem join_registers cfg secret t id addr b :
  cluster_secret cfg = secret → visible secret → url_safe id → url_safe addr → id ≠ "" → addr ≠ "" →
  handle_internal_request noise_fetch_block cfg t (join_request secret id addr) b =
    (Ok (mkResponse OK (Text "ok")),
     mkBackend (mkNodeState (record_peer (db (node b)) t id addr) (blob (node b))) (disk_guard b)).
Proof.
  intros Hc Hv Hi Ha Hin Han. unfold handle_internal_request, join_request.
  rewrite decide_False by by apply authorized.
  cbn [uri_path uri_query]. do 2 rewrite decide_False by done. rewrite decide_True by done.
  unfold handle_join. rewrite join_query_pairs by done.
  unfold bind, lift. simpl. rewrite decide_False by naive_solver. done.
Qed.

(** ** What internal requests cannot change *)

Definition kept (n n' : Node) : Prop :=
  objects (db n') = objects (db n) ∧ users (db n') = users (db n) ∧ parts (db n') = parts (db n) ∧
  multipart_uploads (db n') = multipart_uploads (db n) ∧
  replication_cursors (db n') = replication_cursors (db n).

Lemma kept_refl n : kept n n.
Proof. done. Qed.

Lemma kept_trans n1 n2 n3 : kept n1 n2 → kept n2 n3 → kept n1 n3.
Proof. unfold kept. intuition congruence. Qed.

(** Computations that leave those tables alone, and how they compose. *)
Definition keeps {A} (m : io Node error A) : Prop := ∀ n, kept n (m n).2.

Lemma keeps_ret {A} (a : A) : keeps (ret a).
Proof. done. Qed.
Lemma keeps_fail {A} e : keeps (fail (A := A) e).
Proof. done. Qed.
Lemma keeps_lift {A} (r : result error A) : keeps (lift r).
Proof. done. Qed.
Lemma keeps_read {A} (f : Store → A) : keeps (read_db f).
Proof. done. Qed.
Lemma keeps_bind {A B} (m : io Node error A) (k : A → io Node error B) :
  keeps m → (∀ a, keeps (k a)) → keeps (bind m k).
Proof.
  intros Hm Hk n. unfold bind. specialize (Hm n). destruct (m n) as [[a|e] n']; simpl in *; [|done].
  eapply kept_trans; [done|apply Hk].
Qed.
Lemma keeps_attempt {A} (m : io Node error A) : keeps m → keeps (attempt m).
Proof. intros Hm n. unfold attempt. specialize (Hm n). by destruct (m n). Qed.
Lemma keeps_on_blob {A} (m : Blob → result error A * Blob) : keeps (on_blob m).
Proof. intros n. unfold on_blob. by destruct (m (blob n)). Qed.
Lemma keeps_for_each {A} (f : A → io Node error unit) l : (∀ a, keeps (f a)) → keeps (for_each f l).
Proof. intros Hf. induction l as [|a l IH]; simpl; [apply keeps_ret|by apply keeps_bind]. Qed.
Lemma keeps_write f :
  (∀ s, objects (f s) = objects s ∧ users (f s) = users s ∧ parts (f s) = parts s ∧
    multipart_uploads (f s) = multipart_uploads s ∧ replication_cursors (f s) = replication_cursors s) →
  keeps (write_db f).
Proof. intros Hf n. apply Hf. Qed.

(** Walks through a computation by its binds and cases. *)
Ltac keep :=
  repeat first
    [ apply keeps_ret | apply keeps_fail | apply keeps_lift | apply keeps_read | apply keeps_on_blob
    | apply keeps_attempt | apply keeps_for_each; intros ? | apply keeps_bind; [|intros ?]
    | apply keeps_write; intros ?;
      solve [done | by unfold add_pending_deletion; destruct (_ <? _)
            | by unfold delete_local_block; simpl; case_match]
    | case_match ].

Lemma keeps_promote t hash data : keeps (promote_block_locally t hash data).
Proof. unfold promote_block_locally. keep. Qed.

Lemma keeps_fetch_loop t hash locations peers : keeps (fetch_loop noise_fetch_block t hash locations peers).
Proof.
  induction peers as [|[id url] peers IH]; cbn [fetch_loop]; [apply keeps_fail|].
  repeat case_match; try done. apply keeps_bind; [apply keeps_attempt, keeps_promote|]. intros [|]; keep.
Qed.

Lemma keeps_get_block t hash : keeps (get_block noise_fetch_block t hash).
Proof. unfold get_block. keep. apply keeps_fetch_loop. Qed.

Lemma keeps_sweep grace force t : keeps (sweep_orphaned_blocks grace force t).
Proof.
  unfold sweep_orphaned_blocks, mark, sweep_hash, orphan_deadline, note_orphan, reap, drop_stale, delete_block. keep.
Qed.

Lemma handle_join_kept t q b : kept (node b) (node (handle_join t q b).2).
Proof.
  unfold handle_join, bind, lift, ret, set_db.
  destruct q as [q|]; [destruct (url_query_pairs q) as [l|]; [|done]|];
    (destruct (join_params _) as [id addr]; destruct (decide _); [done|]);
    unfold kept, record_peer; simpl; by case_match.
Qed.

Lemma handle_gc_kept cfg t b : kept (node b) (node (handle_gc cfg t b).2).
Proof.
  unfold handle_gc. pose proof (keeps_sweep (gc_grace_period_seconds cfg) true t (node b)) as Hk.
  unfold force_sweep_orphaned_blocks. by destruct (sweep_orphaned_blocks _ _ _ _).
Qed.

Lemma handle_block_kept t h b : kept (node b) (node (handle_block noise_fetch_block t h b).2).
Proof.
  unfold handle_block. destruct (hex_decode h) as [hash|]; [|done]. destruct (decide _); [|done].
  pose proof (keeps_get_block t hash (node b)) as Hk. by destruct (get_block _ _ _ _).
Qed.

(** C33: internal requests cannot touch what users own.  Without the cluster secret a request
    is answered with 401 and changes nothing; with it, whatever the path and query, the
    objects, users, multipart uploads, parts and replication cursors stay as they are. *)
Theorem internal_request_confined cfg t req b :
  let r := handle_internal_request noise_fetch_block cfg t req b in
  kept (node b) (node r.2) ∧
  (secret_header req ≫= to_str ≠ Some (cluster_secret cfg) →
   r = (Ok (mkResponse UNAUTHORIZED (Text "Unauthorized")), b)).
Proof.
  cbv zeta. unfold handle_internal_request.
  destruct (decide (_ ≠ _)) as [Hne|Heq]; [done|]. split; [|by intros ?; destruct Heq].
  do 2 (destruct (decide _); [done|]). destruct (decide _); [apply handle_join_kept|].
  destruct (strip_prefix _ _); [done|]. destruct (decide _); [apply handle_gc_kept|].
  destruct (strip_prefix _ _); [apply handle_block_kept|done].
Qed.
End endpoints.

(** ** Concrete runs *)

Module InternalRuns.
#[local] Existing Instances Reference.blake3_pad Reference.hex_lower Reference.uuid_text.
#[local] Existing Instances JsonReference.json_tokens order_id.
Import SyncRuns.

(** A backend that never holds a block. *)
#[local] Instance no_blob : BlobStore := {|
  Blob := unit; put _ _ := fail BlobError; get _ _ := fail BlobError; delete_blob _ _ := ret tt
|}.
Definition unreachable (_ : string) (_ : bytes) : result error bytes := Err FetchError.
Definition cfg : SiteConfig := mkSiteConfig "s3cret" "b" "http://b:8015" 300.
Definition peer_b : Backend := mkBackend (mkNodeState site_b tt) disabled.

Lemma facts_endpoint_serves_witness :
  noise_get_facts unreachable cfg "s3cret" 1 peer_b "http://b" (-12) =
    Ok match serves site_b "http://b" (-12) with Ok l => l | Err _ => [] end ∧
  (handle_internal_request unreachable cfg 1 (facts_request "s3cret" (-12)) peer_b).2 = peer_b.
Proof.
  apply (facts_endpoint_serves unreachable cfg "s3cret" 1 peer_b "http://b" (-12));
    [reflexivity|reflexivity|unfold in_i64; lia].
Defined.

Lemma endpoint_sync_complete_witness :
  ∃ s', sync_peer (noise_get_facts unreachable cfg "s3cret" 1 peer_b) 1 7000000 "b" "http://b" site_a = Some s' ∧
    site s' own_a (own_a ++ drop 0 own_b) ∧ get_cursor s' "b" = 1.
Proof.
  apply (endpoint_sync_complete unreachable cfg "s3cret" 1 peer_b own_b own_b site_a own_a own_a 7000000 "b" "http://b" 1 0);
    [reflexivity|reflexivity|simpl; lia|apply site_b_ok|apply site_a_ok|reflexivity|simpl; lia
    |unfold FACT_SYNC_BATCH; simpl; lia].
Defined.

Lemma join_registers_witness :
  handle_internal_request unreachable cfg 5000000 (join_request "s3cret" "home" "http://home:8015") peer_b =
    (Ok (mkResponse OK (Text "ok")),
     mkBackend (mkNodeState (record_peer site_b 5000000 "home" "http://home:8015") tt) disabled).
Proof.
  apply (join_registers unreachable cfg "s3cret" 5000000 "home" "http://home:8015" peer_b); try done;
    (split; [reflexivity|repeat constructor; done]).
Defined.

Lemma internal_request_confined_witness :
  kept (node peer_b) (node (handle_internal_request unreachable cfg 1 (join_request "wrong" "x" "y") peer_b).2) ∧
  handle_internal_request unreachable cfg 1 (join_request "wrong" "x" "y") peer_b =
    (Ok (mkResponse UNAUTHORIZED (Text "Unauthorized")), peer_b).
Proof.
  destruct (internal_request_confined unreachable cfg 1 (join_request "wrong" "x" "y") peer_b) as [Hk Hu].
  split; [exact Hk|]. apply Hu. by vm_compute.
Defined.

(** The joiner does not escape its id, the peer decodes it: a site that calls itself [a+b] is
    registered as [a b], and an ampersand cuts the id off. *)
Theorem join_id_is_decoded :
  url_query_pairs (join_query "a+b" "u") = Ok [("id", "a b"); ("addr", "u")] ∧
  url_query_pairs (join_query "a&b" "u") = Ok [("id", "a"); ("addr", "u")].
Proof. split; reflexivity. Qed.

(** A percent sign before a character of several bytes makes the decoder cut inside it:
    the connection's task panics. *)
Theorem percent_decode_panics :
  utf8_valid (as_bytes "%aé") = true ∧ percent_decode "%aé" = Err Panic.
Proof. split; reflexivity. Qed.
End InternalRuns.
