(* ===== verification/Sizes.v ===== *)
(** * Human-readable sizes (src/disk.rs: [parse_size], [format_bytes])

    The limits of the disk guard are written as text.  The code goes through [f64]; the
    values that occur are not negative, so a double is a dyadic number or infinity, and its
    arithmetic is the exact result rounded to nearest, ties to even. *)

From stdpp Require Import pretty.
From S2P Require Import Prelude Crates Clock Hashing Listing Policy Disk Tables Store FactLog.
From S2P Require Import BlockStore GC Replication S3 Sync Internal.

(** ** Doubles *)

(** [Finite m e] is the number [m * 2^e]. *)
Inductive f64 : Type := Finite (m e : Z) | Infinity.

(** [n / d] to the nearest integer, ties to even. *)
Definition round_half_even (n d : Z) : Z :=
  let q := n / d in
  match 2 * (n mod d) ?= d with
  | Lt => q
  | Gt => q + 1
  | Eq => if Z.even q then q else q + 1
  end.

(** The powers of two on either side of [n / d]. *)
Definition ratio_log2 (n d : Z) : Z :=
  let k := Z.log2 n - Z.log2 d in
  if n * 2 ^ Z.max 0 (- k) <? d * 2 ^ Z.max 0 k then k - 1 else k.

(** The double nearest to [n / d], for [0 ≤ n] and [0 < d]: 53 bits of mantissa, exponents
    down to -1074, and infinity from [2^1024] on. *)
Definition round_f64 (n d : Z) : f64 :=
  if n <=? 0 then Finite 0 0 else
  let e := Z.max (ratio_log2 n d - 52) (-1074) in
  let m := round_half_even (n * 2 ^ Z.max 0 (- e)) (d * 2 ^ Z.max 0 e) in
  if 1024 <=? Z.log2 m + e then Infinity else Finite m e.

Definition f64_mul (x y : f64) : f64 :=
  match x, y with
  | Finite m1 e1, Finite m2 e2 =>
      round_f64 (m1 * m2 * 2 ^ Z.max 0 (e1 + e2)) (2 ^ Z.max 0 (- (e1 + e2)))
  | _, _ => Infinity
  end.

(** Division by an integer constant. *)
Definition f64_div (x : f64) (d : Z) : f64 :=
  match x with
  | Finite m e => round_f64 (m * 2 ^ Z.max 0 e) (d * 2 ^ Z.max 0 (- e))
  | Infinity => Infinity
  end.

(** [x >= n] for an integer constant. *)
Definition f64_ge (x : f64) (n : Z) : bool :=
  match x with
  | Finite m e => n * 2 ^ Z.max 0 (- e) <=? m * 2 ^ Z.max 0 e
  | Infinity => true
  end.

(** [x as u64]: the fraction is cut off, and the cast saturates. *)
Definition f64_as_u64 (x : f64) : Z :=
  match x with
  | Finite m e => Z.min (m * 2 ^ Z.max 0 e / 2 ^ Z.max 0 (- e)) u64_max
  | Infinity => u64_max
  end.

(** ** [parse_size] *)

(** [str::trim]: the UTF-8 encodings of the characters with the property White_Space. *)
Definition enc (l : list N) : bytes := ascii_of_N <$> l.
Definition white_space : list bytes := enc <$>
  [[9]; [10]; [11]; [12]; [13]; [32]; [194; 133]; [194; 160]; [225; 154; 128];
   [226; 128; 128]; [226; 128; 129]; [226; 128; 130]; [226; 128; 131]; [226; 128; 132];
   [226; 128; 133]; [226; 128; 134]; [226; 128; 135]; [226; 128; 136]; [226; 128; 137];
   [226; 128; 138]; [226; 128; 168]; [226; 128; 169]; [226; 128; 175]; [226; 129; 159];
   [227; 128; 128]]%N.

Fixpoint strip_pieces (pieces : list bytes) (fuel : nat) (b : bytes) : bytes :=
  match fuel with
  | O => b
  | S f =>
      match filter (λ p, p `prefix_of` b) pieces with
      | [] => b
      | p :: _ => strip_pieces pieces f (drop (length p) b)
      end
  end.
Definition trim_start (b : bytes) : bytes := strip_pieces white_space (length b) b.
Definition trim_end (b : bytes) : bytes :=
  rev (strip_pieces (@rev ascii <$> white_space) (length b) (rev b)).
Definition trim (s : string) : string := of_bytes (trim_end (trim_start (as_bytes s))).

(** The split before the first character that is neither a digit nor a dot. *)
Definition number_char (c : ascii) : bool :=
  match digit c with Some _ => true | None => bool_decide (c = "."%char) end.
Fixpoint split_number (s : string) : string * string :=
  match s with
  | EmptyString => ("", "")
  | String c s' =>
      if number_char c then let '(num, unit) := split_number s' in (String c num, unit) else ("", s)
  end.

(** [str::parse::<f64>] on such a number: digits, at most one dot, at least one digit; the
    nearest double. *)
Definition fraction_digits (s : string) : option (Z * Z) :=
  n ← parse_digits 0 s; Some (n, 10 ^ Z.of_nat (String.length s)).
Definition parse_f64 (s : string) : option f64 :=
  match split_once "." s with
  | None => n ← parse_nat s; Some (round_f64 n 1)
  | Some (whole, frac) =>
      if decide (whole = "" ∧ frac = "") then None else
      n ← parse_digits 0 whole; '(f, d) ← fraction_digits frac; Some (round_f64 (n * d + f) d)
  end.

Fixpoint to_ascii_lowercase (s : string) : string :=
  match s with EmptyString => "" | String c s' => String (lower c) (to_ascii_lowercase s') end.

(** The multiplier of a unit; all of them are doubles exactly. *)
Definition size_unit (u : string) : option Z :=
  if decide (u ∈ ["": string; "b"]) then Some 1
  else if decide (u ∈ ["k"; "kb"]) then Some (10 ^ 3)
  else if decide (u ∈ ["ki"; "kib"]) then Some 1024
  else if decide (u ∈ ["m"; "mb"]) then Some (10 ^ 6)
  else if decide (u ∈ ["mi"; "mib"]) then Some (1024 ^ 2)
  else if decide (u ∈ ["g"; "gb"]) then Some (10 ^ 9)
  else if decide (u ∈ ["gi"; "gib"]) then Some (1024 ^ 3)
  else if decide (u ∈ ["t"; "tb"]) then Some (10 ^ 12)
  else if decide (u ∈ ["ti"; "tib"]) then Some (1024 ^ 4)
  else None.

Inductive size_error : Type := EmptySize | InvalidNumber | UnknownUnit.

Definition parse_size (s : string) : result size_error Z :=
  let s := trim s in
  if decide (s = "") then Err EmptySize else
  let '(num, unit) := split_number s in
  match parse_f64 num with
  | None => Err InvalidNumber
  | Some n =>
      match size_unit (to_ascii_lowercase (trim unit)) with
      | None => Err UnknownUnit
      | Some mult => Ok (f64_as_u64 (f64_mul n (Finite mult 0)))
      end
  end.

(** ** [format_bytes] *)

Definition UNITS : list string := ["B"; "Ki"; "Mi"; "Gi"; "Ti"].

(** The loop over the units: at most four divisions. *)
Fixpoint scale_loop (fuel : nat) (v : f64) (u : nat) : f64 * nat :=
  match fuel with
  | O => (v, u)
  | S f => if f64_ge v 1024 then scale_loop f (f64_div v 1024) (S u) else (v, u)
  end.

(** [{v:.1}]: the exact value rounded to one decimal, ties to even; infinity does not occur. *)
Definition format_tenths (v : f64) : string :=
  match v with
  | Finite m e =>
      let t := round_half_even (10 * m * 2 ^ Z.max 0 e) (2 ^ Z.max 0 (- e)) in
      pretty (t / 10) +:+ "." +:+ pretty (t mod 10)
  | Infinity => "inf"
  end.

Definition format_bytes (bytes : Z) : string :=
  let '(v, u) := scale_loop (length UNITS - 1) (round_f64 bytes 1) 0 in
  if decide (u = 0%nat) then pretty bytes +:+ nth 0 UNITS ""
  else format_tenths v +:+ nth u UNITS "".

Example parse_gib : parse_size " 10Gi " = Ok 10737418240. Proof. vm_compute. reflexivity. Qed.
Example parse_half : parse_size "1.5 GB" = Ok 1500000000. Proof. vm_compute. reflexivity. Qed.
Example parse_bad : parse_size "1.2.3Gi" = Err InvalidNumber. Proof. vm_compute. reflexivity. Qed.
Example parse_unit : parse_size "10Xi" = Err UnknownUnit. Proof. vm_compute. reflexivity. Qed.
Example format_gib : format_bytes 10415295365 = "9.7Gi". Proof. vm_compute. reflexivity. Qed.

(** ** Exact values *)

(** The double is the integer [v]. *)
Definition is_int (x : f64) (v : Z) : Prop :=
  ∃ m e, x = Finite m e ∧ m * 2 ^ Z.max 0 e = v * 2 ^ Z.max 0 (- e).

(** Integers a double holds exactly: 53 significant bits, below [2^1024]. *)
Definition fits (v : Z) : Prop :=
  v = 0 ∨ ∃ a p, v = a * 2 ^ p ∧ 0 < a < 2 ^ 53 ∧ 0 ≤ p ∧ v < 2 ^ 1024.

Lemma pow2_pos n : 0 < 2 ^ Z.max 0 n.
Proof. apply Z.pow_pos_nonneg; lia. Qed.

Lemma round_half_even_exact q d : 0 < d → round_half_even (q * d) d = q.
Proof.
  intros Hd. unfold round_half_even. rewrite Z.mod_mul, Z.div_mul by lia.
  rewrite (proj2 (Z.compare_lt_iff _ _)) by lia. done.
Qed.

Lemma ratio_log2_int v d : 0 < v → 0 < d → ratio_log2 (d * v) d = Z.log2 v.
Proof.
  intros Hv Hd. pose proof (Z.log2_mul_below d v Hd Hv). pose proof (Z.log2_mul_above d v ltac:(lia) ltac:(lia)).
  pose proof (Z.log2_nonneg v). unfold ratio_log2. set (k := Z.log2 (d * v) - Z.log2 d).
  assert (k = Z.log2 v ∨ k = Z.log2 v + 1) as Hk by lia. clearbody k.
  rewrite (Z.max_l 0 (- k)), (Z.max_r 0 k), Z.pow_0_r, Z.mul_1_r by lia.
  pose proof (Z.log2_spec v Hv) as [Hlo Hhi]. destruct Hk as [->| ->].
  - rewrite (proj2 (Z.ltb_ge _ _)); [done|]. apply Z.mul_le_mono_nonneg_l; [lia|exact Hlo].
  - rewrite (proj2 (Z.ltb_lt _ _)); [lia|]. apply Z.mul_lt_mono_pos_l; [done|]. rewrite Z.add_1_r. exact Hhi.
Qed.

Lemma log2_fits a p : 0 < a < 2 ^ 53 → 0 ≤ p → Z.log2 (a * 2 ^ p) = Z.log2 a + p ∧ Z.log2 a ≤ 52.
Proof.
  intros Ha Hp. rewrite Z.log2_mul_pow2 by lia. split; [lia|].
  apply Z.lt_succ_r. apply Z.log2_lt_pow2; [lia|exact (proj2 Ha)].
Qed.

Lemma round_f64_int v d : 0 < d → fits v → is_int (round_f64 (d * v) d) v.
Proof.
  intros Hd [->|(a & p & Hv & Ha & Hp & Hmax)].
  { exists 0, 0. by rewrite Z.mul_0_r. }
  assert (0 < v) as Hpos.
  { rewrite Hv. apply Z.mul_pos_pos; [lia|]. apply Z.pow_pos_nonneg; lia. }
  destruct (log2_fits a p Ha Hp) as [Hlog Hla]. rewrite <- Hv in Hlog.
  unfold round_f64. rewrite (proj2 (Z.leb_gt _ _)) by (apply Z.mul_pos_pos; lia).
  rewrite ratio_log2_int by done. pose proof (Z.log2_nonneg v).
  rewrite (Z.max_l (Z.log2 v - 52)) by lia. set (e := Z.log2 v - 52).
  assert (∃ m, v * 2 ^ Z.max 0 (- e) = m * 2 ^ Z.max 0 e) as [m Hm].
  { destruct (Z.le_gt_cases e 0).
    - exists (v * 2 ^ (- e)). rewrite !(Z.max_r 0 (- e)), (Z.max_l 0 e) by lia. lia.
    - exists (a * 2 ^ (p - e)). rewrite (Z.max_l 0 (- e)), (Z.max_r 0 e) by lia.
      rewrite <- Z.mul_assoc, <- Z.pow_add_r by lia. rewrite Hv. replace (p - e + e) with p by lia. lia. }
  replace (d * v * 2 ^ Z.max 0 (- e)) with (m * (d * 2 ^ Z.max 0 e)) by (rewrite <- Z.mul_assoc, Hm; ring).
  rewrite round_half_even_exact by (apply Z.mul_pos_pos; [done|apply pow2_pos]).
  rewrite (proj2 (Z.leb_gt _ _)).
  { exists m, e. split; [done|]. lia. }
  assert (0 < m) as Hm0.
  { pose proof (pow2_pos (- e)). pose proof (pow2_pos e). nia. }
  assert (Z.log2 m + Z.max 0 e = Z.log2 v + Z.max 0 (- e)) as Hl.
  { pose proof (Z.log2_mul_pow2 m (Z.max 0 e) ltac:(lia) ltac:(lia)) as H1.
    pose proof (Z.log2_mul_pow2 v (Z.max 0 (- e)) ltac:(lia) ltac:(lia)) as H2. rewrite Hm in H2. lia. }
  assert (Z.log2 v < 1024) by (apply Z.log2_lt_pow2; lia). lia.
Qed.



Lemma f64_mul_int x v k : is_int x v → fits (v * k) → is_int (f64_mul x (Finite k 0)) (v * k).
Proof.
  intros (m & e & -> & Hv) Hf. simpl. rewrite Z.add_0_r.
  replace (m * k * 2 ^ Z.max 0 e) with (m * 2 ^ Z.max 0 e * k) by ring. rewrite Hv.
  replace (v * 2 ^ Z.max 0 (- e) * k) with (2 ^ Z.max 0 (- e) * (v * k)) by ring.
  apply round_f64_int; [apply pow2_pos|done].
Qed.

Lemma f64_div_int x v d : 0 < d → is_int x (d * v) → fits v → is_int (f64_div x d) v.
Proof.
  intros Hd (m & e & -> & Hv) Hf. simpl. rewrite Hv.
  replace (d * v * 2 ^ Z.max 0 (- e)) with (d * 2 ^ Z.max 0 (- e) * v) by ring.
  apply round_f64_int; [|done]. apply Z.mul_pos_pos; [done|apply pow2_pos].
Qed.

Lemma f64_ge_int x v n : is_int x v → f64_ge x n = (n <=? v).
Proof.
  intros (m & e & -> & Hv). simpl. rewrite Hv. pose proof (pow2_pos (- e)).
  destruct (Z.leb_spec n v); [apply Z.leb_le|apply Z.leb_gt]; nia.
Qed.

Lemma f64_as_u64_int x v : is_int x v → f64_as_u64 x = Z.min v u64_max.
Proof.
  intros (m & e & -> & Hv). simpl. rewrite Hv, Z.div_mul by (pose proof (pow2_pos (- e)); lia). done.
Qed.

Lemma format_tenths_int x v : is_int x v → format_tenths x = pretty v +:+ ".0".
Proof.
  intros (m & e & -> & Hv). simpl.
  replace (10 * m * 2 ^ Z.max 0 e) with (10 * (m * 2 ^ Z.max 0 e)) by ring. rewrite Hv, Z.mul_assoc.
  rewrite round_half_even_exact by apply pow2_pos.
  rewrite (Z.mul_comm 10 v), Z.div_mul, Z.mod_mul by lia. done.
Qed.

(** ** Text *)

(** Digits, the dot and letters: the characters of a size. *)
Definition plain (c : ascii) : bool :=
  in_range 46 46 c || in_range 48 57 c || in_range 65 90 c || in_range 97 122 c.
Definition letter (c : ascii) : bool := in_range 65 90 c || in_range 97 122 c.

Lemma strip_pieces_plain pieces fuel b :
  forallb (λ p, match p with [] => false | h :: _ => negb (plain h) end) pieces = true →
  match b with c :: _ => plain c = true | [] => True end →
  strip_pieces pieces fuel b = b.
Proof.
  intros Hp Hb. destruct fuel as [|fuel]; [done|]. simpl.
  assert (filter (λ p, p `prefix_of` b) pieces = []) as ->; [|done].
  induction pieces as [|p ps IH]; [done|]. simpl in Hp. apply andb_prop in Hp as [Hh Hp].
  rewrite filter_cons_False; [by apply IH|].
  intros [k ->]. destruct p as [|h p]; [done|]. simpl in Hb, Hh. by rewrite Hb in Hh.
Qed.

Lemma head_plain b : Forall (λ c, plain c = true) b → match b with c :: _ => plain c = true | [] => True end.
Proof. by destruct 1. Qed.

Lemma trim_plain s : Forall (λ c, plain c = true) (as_bytes s) → trim s = s.
Proof.
  intros Hs. unfold trim, trim_start. rewrite strip_pieces_plain; [|vm_compute; reflexivity|by apply head_plain].
  unfold trim_end. rewrite strip_pieces_plain; [|vm_compute; reflexivity|].
  - rewrite rev_involutive. apply string_of_list_ascii_of_string.
  - apply head_plain, Forall_rev, Hs.
Qed.

Lemma digit_plain c d : digit c = Some d → plain c = true ∧ number_char c = true ∧ c ≠ "."%char.
Proof.
  intros Hd. unfold number_char. rewrite Hd. split_and!; [|done|by intros ->].
  destruct c as [[] [] [] [] [] [] [] []]; done.
Qed.

Lemma letter_plain c : letter c = true → plain c = true ∧ number_char c = false.
Proof. destruct c as [[] [] [] [] [] [] [] []]; done. Qed.

(** A decimal number is digits only. *)
Lemma parse_digits_all s : ∀ acc v, parse_digits acc s = Some v → Forall (λ c, ∃ d, digit c = Some d) (as_bytes s).
Proof.
  induction s as [|c s IH]; intros acc v Hp; [constructor|].
  simpl in Hp. destruct (digit c) as [d|] eqn:Hd; [|done]. constructor; [by exists d|by eapply IH].
Qed.

Lemma pretty_digits (n : N) :
  parse_nat (pretty n) = Some (Z.of_N n) ∧ pretty n ≠ "" ∧ Forall (λ c, ∃ d, digit c = Some d) (as_bytes (pretty n)).
Proof.
  pose proof (parse_nat_pretty n) as Hp. split; [done|].
  destruct (pretty n) as [|c s] eqn:E; [done|]. split; [done|]. by eapply parse_digits_all.
Qed.

Lemma split_number_at num unit :
  Forall (λ c, number_char c = true) (as_bytes num) → Forall (λ c, letter c = true) (as_bytes unit) →
  split_number (num +:+ unit) = (num, unit).
Proof.
  intros Hn Hu. induction num as [|c num IH].
  - change ("" +:+ unit) with unit. destruct unit as [|c unit]; [done|]. apply Forall_cons in Hu as [Hc _]. simpl.
    by rewrite (proj2 (letter_plain c Hc)).
  - change (String c num +:+ unit) with (String c (num +:+ unit)). apply Forall_cons in Hn as [Hc Hn].
    simpl. by rewrite Hc, IH.
Qed.

Lemma split_once_digits s r :
  Forall (λ c, ∃ d, digit c = Some d) (as_bytes s) → split_once "." (s +:+ r) = (λ p, (s +:+ p.1, p.2)) <$> split_once "." r.
Proof.
  intros Hs. induction s as [|c s IH].
  - change ("" +:+ r) with r. destruct (split_once "." r) as [[a b]|]; done.
  - apply Forall_cons in Hs as [[d Hd] Hs]. change (String c s +:+ r) with (String c (s +:+ r)).
    cbn [split_once]. rewrite decide_False by (by eapply digit_plain). rewrite IH by done.
    by destruct (split_once "." r) as [[a b]|].
Qed.

Lemma append_nil_r (s : string) : s +:+ "" = s.
Proof. induction s as [|c s IH]; [done|]. change (String c s +:+ "") with (String c (s +:+ "")). by rewrite IH. Qed.

(** The numbers [format_bytes] and users write: whole ones, with or without [.0]. *)
Lemma parse_f64_whole (n : N) s :
  s ∈ [pretty n; pretty n +:+ ".0"] → fits (Z.of_N n) → ∃ x, parse_f64 s = Some x ∧ is_int x (Z.of_N n).
Proof.
  intros Hs Hf. destruct (pretty_digits n) as (Hp & Hne & Hd). unfold parse_f64.
  apply elem_of_cons in Hs as [->|Hs%list_elem_of_singleton].
  - pose proof (split_once_digits (pretty n) "" Hd) as Ho. rewrite append_nil_r in Ho. rewrite Ho. simpl.
    rewrite Hp. simpl.
    eexists. split; [done|]. pose proof (round_f64_int (Z.of_N n) 1 ltac:(lia) Hf). by rewrite Z.mul_1_l in *.
  - subst s. rewrite split_once_digits by done. change (split_once "." ".0") with (Some (("" : string), ("0" : string))).
    cbn [fmap option_fmap option_map fst snd]. rewrite append_nil_r.
    destruct (decide _) as [[? _]|_]; [done|].
    assert (parse_digits 0 (pretty n) = Some (Z.of_N n)) as ->.
    { revert Hp Hne. unfold parse_nat. by destruct (pretty n). }
    change (fraction_digits "0") with (Some (0, 10)). cbn. eexists. split; [reflexivity|].
    replace (Z.of_N n * 10 + 0) with (10 * Z.of_N n) by lia. by apply round_f64_int.
Qed.

Lemma plain_text (n : N) s u :
  s ∈ [pretty n; pretty n +:+ ".0"] → Forall (λ c, letter c = true) (as_bytes u) →
  Forall (λ c, plain c = true) (as_bytes (s +:+ u)) ∧ Forall (λ c, number_char c = true) (as_bytes s) ∧ s ≠ "".
Proof.
  intros Hs Hu. destruct (pretty_digits n) as (_ & Hne & Hd).
  assert (Forall (λ c, plain c = true ∧ number_char c = true) (as_bytes s)) as Hp.
  { assert (Forall (λ c, plain c = true ∧ number_char c = true) (as_bytes (pretty n))).
    { eapply Forall_impl; [exact Hd|]. intros c [d Hc]. by destruct (digit_plain c d Hc) as (? & ? & _). }
    apply elem_of_cons in Hs as [->|Hs%list_elem_of_singleton]; [done|].
    subst s. rewrite as_bytes_append. apply Forall_app. split; [done|]. by repeat constructor. }
  split_and!.
  - rewrite as_bytes_append. apply Forall_app. split; (eapply Forall_impl; [done|]); [by intros c [? _]|].
    intros c Hc. by destruct (letter_plain c Hc).
  - eapply Forall_impl; [exact Hp|]. by intros c [_ ?].
  - apply elem_of_cons in Hs as [->|Hs%list_elem_of_singleton]; [done|]. subst s. by destruct (pretty n).
Qed.

(** Parsing a whole number with a unit. *)
Lemma parse_size_text (n : N) s u mult :
  s ∈ [pretty n; pretty n +:+ ".0"] → Forall (λ c, letter c = true) (as_bytes u) →
  size_unit (to_ascii_lowercase u) = Some mult → fits (Z.of_N n) → fits (Z.of_N n * mult) →
  parse_size (s +:+ u) = Ok (Z.min (Z.of_N n * mult) u64_max).
Proof.
  intros Hs Hu Hm Hf Hfm. destruct (plain_text n s u Hs Hu) as (Hp & Hn & Hne).
  unfold parse_size. rewrite trim_plain by done. rewrite decide_False.
  2: { by destruct s. }
  rewrite split_number_at by done. destruct (parse_f64_whole n s Hs Hf) as (x & -> & Hx).
  rewrite trim_plain, Hm.
  - f_equal. by apply f64_as_u64_int, f64_mul_int.
  - eapply Forall_impl; [exact Hu|]. intros c Hc. by destruct (letter_plain c Hc).
Qed.

Lemma fits_small v : 0 ≤ v < 2 ^ 53 → fits v.
Proof.
  intros Hv. destruct (decide (v = 0)) as [->|]; [by left|]. right. exists v, 0.
  rewrite Z.pow_0_r, Z.mul_1_r. split_and!; [done|lia|lia|lia|].
  apply Z.lt_trans with (2 ^ 53); [lia|]. apply Z.pow_lt_mono_r; lia.
Qed.

Lemma fits_shift v p : 0 ≤ v < 2 ^ 53 → 0 ≤ p ≤ 900 → fits (v * 2 ^ p).
Proof.
  intros Hv Hp. destruct (decide (v = 0)) as [->|]; [by left|]. right. exists v, p.
  split_and!; [done|lia|lia|lia|].
  apply Z.lt_le_trans with (2 ^ 53 * 2 ^ p).
  - apply Z.mul_lt_mono_pos_r; [apply Z.pow_pos_nonneg|]; lia.
  - rewrite <- Z.pow_add_r by lia. apply Z.pow_le_mono_r; lia.
Qed.

Lemma size_unit_cases u mult :
  size_unit u = Some mult → (∃ j, 0 ≤ j ≤ 4 ∧ mult = 1024 ^ j) ∨ (∃ j, 1 ≤ j ≤ 4 ∧ mult = 1000 ^ j).
Proof.
  unfold size_unit. intros Hu.
  repeat (destruct (decide _) in Hu; [injection Hu as <-|]); [..|done];
    first [left; by exists 0|right; by exists 1|left; by exists 1|right; by exists 2|left; by exists 2
          |right; by exists 3|left; by exists 3|right; by exists 4|left; by exists 4].
Qed.

Lemma pretty_Z_of_N (n : N) : pretty (Z.of_N n) = pretty n.
Proof. by destruct n. Qed.

(** Sizes are read exactly.  A whole number below [2^53] with a unit of letters the parser
    knows is read as the number times the unit, capped at the largest [u64], for every binary
    unit; for a decimal unit when the product is below [2^53]. *)
Theorem parse_size_exact (n : N) u mult :
  Forall (λ c, letter c = true) (as_bytes u) → size_unit (to_ascii_lowercase u) = Some mult →
  Z.of_N n < 2 ^ 53 → (∃ j, 0 ≤ j ∧ mult = 1024 ^ j) ∨ Z.of_N n * mult < 2 ^ 53 →
  parse_size (pretty n +:+ u) = Ok (Z.min (Z.of_N n * mult) u64_max).
Proof.
  intros Hu Hm Hn Hcase. apply (parse_size_text n); [by left|done|done|apply fits_small; lia|].
  destruct (size_unit_cases _ _ Hm) as [(j & Hj & ->)|(j & Hj & ->)].
  - change 1024 with (2 ^ 10). rewrite <- Z.pow_mul_r by lia. apply fits_shift; lia.
  - destruct Hcase as [(i & Hi & Heq)|Hlt].
    + rewrite Heq. change 1024 with (2 ^ 10). rewrite <- Z.pow_mul_r by lia. apply fits_shift; [lia|].
      assert (1024 ^ i ≤ 1000 ^ 4) as Hb by (rewrite <- Heq; apply Z.pow_le_mono_r; lia).
      destruct (Z.le_gt_cases i 90); [lia|].
      assert (1024 ^ 90 ≤ 1024 ^ i) by (apply Z.pow_le_mono_r; lia).
      assert (1000 ^ 4 < 1024 ^ 90) by (vm_compute; reflexivity). lia.
    + apply fits_small. pose proof (Z.pow_nonneg 1000 j). lia.
Qed.

(** ** What is printed is read back *)

Lemma scale_loop_int j : ∀ fuel x u q, (j ≤ fuel)%nat → 0 ≤ q < 2 ^ 24 →
  ((j < fuel)%nat → q < 1024) → ((0 < j)%nat → 1 ≤ q) → (j ≤ 4)%nat →
  is_int x (q * 1024 ^ Z.of_nat j) →
  ∃ x', scale_loop fuel x u = (x', (u + j)%nat) ∧ is_int x' q.
Proof.
  induction j as [|j IH]; intros fuel x u q Hle Hq Hlt Hpos H4 Hx.
  - rewrite Z.mul_1_r in Hx. exists x. rewrite Nat.add_0_r. split; [|done].
    destruct fuel as [|fuel]; [done|]. cbn [scale_loop]. rewrite (f64_ge_int x q) by done.
    by rewrite (proj2 (Z.leb_gt _ _)) by (apply Hlt; lia).
  - destruct fuel as [|fuel]; [lia|]. cbn [scale_loop].
    rewrite Nat2Z.inj_succ, Z.pow_succ_r in Hx by lia.
    assert (1 ≤ 1024 ^ Z.of_nat j) as Hp by (apply (Z.pow_le_mono_r 1024 0); lia).
    rewrite (f64_ge_int x _ 1024 Hx), (proj2 (Z.leb_le _ _)) by nia.
    destruct (IH fuel (f64_div x 1024) (S u) q) as (x' & Hs & Hi'); [lia|done|intros; apply Hlt; lia|intros; apply Hpos; lia|lia| |].
    + apply f64_div_int; [lia|by replace (1024 * (q * 1024 ^ Z.of_nat j)) with (q * (1024 * 1024 ^ Z.of_nat j)) by ring|].
      change 1024 with (2 ^ 10). rewrite <- Z.pow_mul_r by lia. apply fits_shift; lia.
    + exists x'. rewrite Hs. split; [|done]. f_equal. lia.
Qed.

(** C40: sizes round-trip through text.  For every whole number of a unit, [format_bytes]
    prints a text that [parse_size] reads back as the same number of bytes. *)
Theorem size_roundtrip q j :
  (j ≤ 4)%nat → 0 ≤ q → ((0 < j)%nat → 1 ≤ q) → ((j < 4)%nat → q < 1024) → q * 1024 ^ Z.of_nat j ≤ u64_max →
  parse_size (format_bytes (q * 1024 ^ Z.of_nat j)) = Ok (q * 1024 ^ Z.of_nat j).
Proof.
  intros Hj Hq Hpos Hlt Hmax. set (v := q * 1024 ^ Z.of_nat j) in *.
  assert (q < 2 ^ 24) as Hq24.
  { destruct (decide (j = 4%nat)) as [->|]; [|specialize (Hlt ltac:(lia)); lia].
    unfold v, u64_max in Hmax. change (1024 ^ Z.of_nat 4) with (2 ^ 40) in Hmax. lia. }
  assert (fits v) as Hf.
  { unfold v. change 1024 with (2 ^ 10). rewrite <- Z.pow_mul_r by lia. apply fits_shift; lia. }
  destruct (scale_loop_int j (length UNITS - 1) (round_f64 v 1) 0 q) as (x & Hs & Hx);
    [simpl; lia|lia|simpl; intros; apply Hlt; lia|done|done| |].
  { pose proof (round_f64_int v 1 ltac:(lia) Hf) as Hi. by rewrite Z.mul_1_l in Hi. }
  assert (∀ s u, s ∈ [pretty (Z.to_N q); pretty (Z.to_N q) +:+ ".0"] → Forall (λ c, letter c = true) (as_bytes u) →
    size_unit (to_ascii_lowercase u) = Some (1024 ^ Z.of_nat j) → parse_size (s +:+ u) = Ok v) as Hread.
  { clear Hs Hx. intros s u Hsu Hu Hm. rewrite (parse_size_text (Z.to_N q) s u _ Hsu Hu Hm); rewrite Z2N.id by done;
      [f_equal; fold v; lia|apply fits_small; lia|done]. }
  unfold format_bytes. rewrite Hs, Nat.add_0_l. destruct (decide (j = 0%nat)) as [->|Hj0].
  - apply Hread; [|by repeat constructor|done]. apply elem_of_cons. left.
    unfold v. rewrite Z.mul_1_r. rewrite <- pretty_Z_of_N. by rewrite Z2N.id.
  - rewrite (format_tenths_int _ _ Hx). apply Hread.
    + apply elem_of_cons. right. apply list_elem_of_singleton. by rewrite <- pretty_Z_of_N, Z2N.id.
    + destruct j as [|[|[|[|[|]]]]]; [done|by repeat constructor..|lia].
    + destruct j as [|[|[|[|[|]]]]]; [done..|lia].
Qed.

(** A plain byte count is read through a double, so beyond [2^53] it need not be the number
    of bytes written. *)
Theorem parse_size_rounds : parse_size "9007199254740993" = Ok 9007199254740992.
Proof. vm_compute. reflexivity. Qed.

Lemma parse_size_exact_witness : parse_size ("10" +:+ "GiB") = Ok 10737418240.
Proof.
  refine (parse_size_exact 10 "GiB" (1024 ^ 3) _ _ _ _).
  - by repeat constructor.
  - reflexivity.
  - lia.
  - left. exists 3. lia.
Defined.

Lemma size_roundtrip_witness : parse_size (format_bytes (7 * 1024 ^ 2)) = Ok (7 * 1024 ^ 2).
Proof.
  apply (size_roundtrip 7 2); [lia|lia|intros; lia|intros; lia|unfold u64_max; vm_compute; discriminate].
Defined.
