(* ===== verification/Config.v ===== *)
(** * Configuration (src/config.rs, and what src/main.rs and src/storage.rs build from it)

    The records of the configuration file with their defaults, reading and writing the file,
    the site configuration of [init] and [join], the disk guard and the backend chosen from
    it.  The TOML crate is outside the repository: [Toml] parses a file into the keys it
    holds and prints a configuration; what a missing key means is the code's own. *)

From S2P Require Import Prelude Crates Clock Hashing Chunking Listing Policy Disk Tables Store.
From S2P Require Import FactLog BlockStore GC Replication S3 Sync Noise Internal Sizes Seaweed.

Record ServerConfig : Type := mkServerConfig {
  log_format : string; s3_bind_addr : string; internal_bind_addr : string; advertise : string;
  secret : string; clock_offset_ms : Z; noise_private_key : string
}.
Record DatabaseConfig : Type := mkDatabaseConfig { db_path : string }.

Inductive BlockBackend : Type :=
  | Local (path : string)
  | Seaweed (master_url volume_url : string).

Record StorageConfig : Type := mkStorageConfig {
  location_id : string; block_backend : BlockBackend;
  min_free : option string; max_total : option string;
  chunking : ChunkingConfig; gc_grace_seconds : Z; gc_interval_seconds : Z
}.
Record Config : Type := mkConfig { server : ServerConfig; database : DatabaseConfig; storage : StorageConfig }.

Definition default_internal_bind_addr : string := "0.0.0.0:8015".
Definition default_block_backend : BlockBackend := Local "blocks".

(** [Config::default]. *)
Definition default_config : Config := {|
  server := mkServerConfig "text" "0.0.0.0:8014" default_internal_bind_addr "http://localhost:8014"
              "default-cluster-secret" 0 "";
  database := mkDatabaseConfig "shardscape.db";
  storage := mkStorageConfig "default" default_block_backend (Some "10Gi") None
               (Fixed (Z.to_nat (10 * 1024 * 1024))) 300 60
|}.

(** ** The file *)

(** The keys of a TOML document; [None] when absent. *)
Record ServerDoc : Type := mkServerDoc {
  d_log_format : option string; d_s3_bind_addr : option string; d_internal_bind_addr : option string;
  d_advertise_addr : option string; d_cluster_secret : option string; d_clock_offset_ms : option Z;
  d_noise_private_key : option string
}.
Record StorageDoc : Type := mkStorageDoc {
  d_local_location_id : option string; d_backend : option BlockBackend; d_min_free_bytes : option string;
  d_max_bytes : option string; d_chunking : option ChunkingConfig; d_gc_grace : option Z; d_gc_interval : option Z
}.
Record Document : Type := mkDocument {
  d_server : option ServerDoc; d_db_path : option (option string); d_storage : option StorageDoc
}.

(** The derived deserialization: keys with [serde(default)] may be missing. *)
Definition server_of_doc (d : ServerDoc) : option ServerConfig :=
  log_format ← d_log_format d; s3_bind_addr ← d_s3_bind_addr d;
  advertise_addr ← d_advertise_addr d; cluster_secret ← d_cluster_secret d;
  Some (mkServerConfig log_format s3_bind_addr (default default_internal_bind_addr (d_internal_bind_addr d))
          advertise_addr cluster_secret (default 0 (d_clock_offset_ms d)) (default "" (d_noise_private_key d))).
Definition storage_of_doc (d : StorageDoc) : option StorageConfig :=
  local_location_id ← d_local_location_id d; chunking ← d_chunking d;
  gc_grace ← d_gc_grace d; gc_interval ← d_gc_interval d;
  Some (mkStorageConfig local_location_id (default default_block_backend (d_backend d)) (d_min_free_bytes d)
          (d_max_bytes d) chunking gc_grace gc_interval).
Definition config_of_doc (d : Document) : option Config :=
  server ← d_server d ≫= server_of_doc; db_path ← d_db_path d; db_path ← db_path;
  storage ← d_storage d ≫= storage_of_doc;
  Some (mkConfig server (mkDatabaseConfig db_path) storage).

(** A configuration with every key written. *)
Definition doc_of_config (c : Config) : Document := {|
  d_server := Some (mkServerDoc (Some (log_format (server c))) (Some (s3_bind_addr (server c)))
    (Some (internal_bind_addr (server c))) (Some (advertise (server c))) (Some (secret (server c)))
    (Some (clock_offset_ms (server c))) (Some (noise_private_key (server c))));
  d_db_path := Some (Some (db_path (database c)));
  d_storage := Some (mkStorageDoc (Some (location_id (storage c))) (Some (block_backend (storage c)))
    (min_free (storage c)) (max_total (storage c)) (Some (chunking (storage c)))
    (Some (gc_grace_seconds (storage c))) (Some (gc_interval_seconds (storage c))))
|}.

(** [toml::from_str] up to the keys of the document, and [toml::to_string_pretty], which
    fails on integers beyond [i64]. *)
Class Toml := {
  toml_parse : string → option Document;
  toml_print : Config → option string;
  toml_parse_print : ∀ c s, toml_print c = Some s → toml_parse s = Some (doc_of_config c);
}.

(** Files by path and the outcome of the writes to come: done, refused when opening, or cut
    off after some characters of the truncated file. *)
Inductive write_outcome : Type := Written | Refused | CutOff (n : nat).
Record Files : Type := mkFiles { texts : gmap string string; outcomes : list write_outcome }.

Inductive start_error : Type :=
  | CannotRead | CannotParse | CannotSerialize | CannotWrite | ConfigExists | KeyError | HandshakeError
  | UnknownPreset | UserError | DirectoryError | AddressError | BindError.

Definition write_text (path text : string) : io Files start_error unit := λ fs,
  let '(o, rest) := match outcomes fs with [] => (Written, []) | o :: rest => (o, rest) end in
  match o with
  | Written => (Ok tt, mkFiles (<[path := text]> (texts fs)) rest)
  | Refused => (Err CannotWrite, mkFiles (texts fs) rest)
  | CutOff n => (Err CannotWrite, mkFiles (<[path := String.substring 0 n text]> (texts fs)) rest)
  end.

Section config.
Context `{!Toml}.

Definition load (path : string) : io Files start_error Config := λ fs,
  match texts fs !! path with
  | None => (Err CannotRead, fs)
  | Some content =>
      match toml_parse content ≫= config_of_doc with
      | Some c => (Ok c, fs)
      | None => (Err CannotParse, fs)
      end
  end.

Definition save (c : Config) (path : string) : io Files start_error unit :=
  match toml_print c with
  | None => fail CannotSerialize
  | Some content => write_text path content
  end.

Lemma config_doc_roundtrip c : config_of_doc (doc_of_config c) = Some c.
Proof. by destruct c as [[] [] []]. Qed.

(** What a successful save leaves is read back. *)
Lemma save_load c path fs fs' : save c path fs = (Ok tt, fs') → load path fs' = (Ok c, fs').
Proof.
  unfold save. destruct (toml_print c) as [s|] eqn:Hp; [|done]. unfold write_text.
  destruct (outcomes fs) as [|[| |n] rest]; intros [= <-]; unfold load; cbn [texts]; rewrite lookup_insert_eq;
    rewrite (toml_parse_print _ _ Hp); cbn [mbind option_bind]; by rewrite config_doc_roundtrip.
Qed.
End config.

(** ** What is built from it *)

(** [SiteArgs]: the flags of [init] and [join]. *)
Record SiteArgs : Type := mkSiteArgs {
  a_location_id : string; a_s3_addr : string; a_internal_addr : string; a_advertise : string; a_data_dir : string
}.

(** [PathBuf::join] with a relative path. *)
Fixpoint ends_with_slash (s : string) : bool :=
  match s with
  | EmptyString => false
  | String c EmptyString => bool_decide (c = "/"%char)
  | String _ s' => ends_with_slash s'
  end.
Definition path_join (dir file : string) : string :=
  if decide (dir = "") then file else if ends_with_slash dir then dir +:+ file else dir +:+ "/" +:+ file.

(** [created] is the outcome of [create_dir_all] and [key] what [generate_private_key]
    gives. *)
Definition build_site_config (site : SiteArgs) (cluster_secret : string) (created : bool) (key : option string)
    : result start_error Config :=
  if negb created then Err DirectoryError else
  match key with
  | None => Err KeyError
  | Some key =>
      Ok {| server := mkServerConfig (log_format (server default_config)) (a_s3_addr site) (a_internal_addr site)
                        (a_advertise site) cluster_secret 0 key;
            database := mkDatabaseConfig (path_join (a_data_dir site) "shardscape.db");
            storage := mkStorageConfig (a_location_id site) (Local (path_join (a_data_dir site) "blocks"))
                         (min_free (storage default_config)) (max_total (storage default_config))
                         (chunking (storage default_config)) (gc_grace_seconds (storage default_config))
                         (gc_interval_seconds (storage default_config)) |}
  end.

(** The limit a size string stands for: none when absent, empty or not a size. *)
Definition configured_limit (s : option string) : Z :=
  match s with
  | None => 0
  | Some s => if decide (s = "") then 0 else match parse_size s with Ok v => v | Err _ => 0 end
  end.

(** [DiskGuard::from_config]; the file system is asked once. *)
Definition from_config (c : Config) (statvfs_free : option Z) : DiskGuard :=
  let min := configured_limit (min_free (storage c)) in
  let max := configured_limit (max_total (storage c)) in
  refresh (fresh_guard min max) statvfs_free.

(** The parts [StorageBackend::new] chooses from the configuration. *)
Definition blob_of_config `{!Hex, !HttpClient} (c : Config) : BlobStore :=
  match block_backend (storage c) with
  | Local _ => LocalBlob.local_blob
  | Seaweed master_url volume_url => seaweed_blob master_url volume_url
  end.
Definition chunker_of `{!FastCdc} (c : Config) : ChunkingStrategy := chunker_of_config (chunking (storage c)).

(** What the internal endpoints use. *)
Definition site_config (c : Config) : SiteConfig :=
  mkSiteConfig (secret (server c)) (location_id (storage c)) (advertise (server c)) (gc_grace_seconds (storage c)).

(** ** A file format in which configurations round-trip *)

Module ConfigReference.
Import JsonReference.

Definition option_tokens (o : option string) : list string :=
  match o with Some s => ["some"; s] | None => ["none"; ""] end.
Definition token_option (tag s : string) : option string := if decide (tag = "some") then Some s else None.

Definition config_tokens (c : Config) : list string :=
  [log_format (server c); s3_bind_addr (server c); internal_bind_addr (server c); advertise (server c);
   secret (server c); z_to_string (clock_offset_ms (server c)); noise_private_key (server c);
   db_path (database c); location_id (storage c)] ++
  match block_backend (storage c) with Local p => ["local"; p; ""] | Seaweed m v => ["seaweed"; m; v] end ++
  option_tokens (min_free (storage c)) ++ option_tokens (max_total (storage c)) ++
  match chunking (storage c) with
  | Fixed n => ["fixed"; z_to_string (Z.of_nat n); ""; ""]
  | Cdc a b d => ["cdc"; z_to_string (Z.of_nat a); z_to_string (Z.of_nat b); z_to_string (Z.of_nat d)]
  end ++
  [z_to_string (gc_grace_seconds (storage c)); z_to_string (gc_interval_seconds (storage c))].

Definition config_of_tokens (l : list string) : option Config :=
  match l with
  | [lf; s3; int; adv; sec; off; key; db; loc; bk; b1; b2; t1; o1; t2; o2; ck; c1; c2; c3; g1; g2] =>
      let n s := Z.to_nat (z_of_string s) in
      Some (mkConfig (mkServerConfig lf s3 int adv sec (z_of_string off) key) (mkDatabaseConfig db)
        (mkStorageConfig loc (if decide (bk = "local") then Local b1 else Seaweed b1 b2)
           (token_option t1 o1) (token_option t2 o2)
           (if decide (ck = "fixed") then Fixed (n c1) else Cdc (n c1) (n c2) (n c3))
           (z_of_string g1) (z_of_string g2)))
  | _ => None
  end.

Lemma config_of_config_tokens c : config_of_tokens (config_tokens c) = Some c.
Proof.
  destruct c as [[] [] [loc bk mn mx ck g1 g2]]. unfold config_tokens. cbn [server database storage].
  destruct bk, mn, mx, ck; cbn [option_tokens app config_of_tokens log_format s3_bind_addr internal_bind_addr advertise
    secret clock_offset_ms noise_private_key db_path location_id block_backend min_free max_total chunking
    gc_grace_seconds gc_interval_seconds];
    rewrite !z_of_z_to_string, ?Nat2Z.id; reflexivity.
Qed.

#[local] Instance toml_tokens : Toml.
Proof.
  refine {| toml_parse s := l ← get_tokens s; c ← config_of_tokens l; Some (doc_of_config c);
            toml_print c := Some (put_tokens (config_tokens c)) |}.
  intros c s Hs. assert (s = put_tokens (config_tokens c)) as -> by congruence.
  rewrite get_put_tokens. cbn [mbind option_bind]. by rewrite config_of_config_tokens.
Defined.
End ConfigReference.
