(* ===== verification/SocketAddr.v ===== *)
(** * Socket addresses ([str::parse::<SocketAddr>] of the standard library)

    The addresses a node listens on come from its configuration as text and are parsed with the
    standard library's parser: four decimal octets without leading zeros, or an IPv6 address in
    brackets with an optional scope, then a colon and a port, and nothing after it.  Host names
    are not addresses.  [read_number], [read_groups] and the rest follow the steps of that
    parser, each a function from the text that is left to a value and what is left after it. *)

From stdpp Require Import pretty.
From S2P Require Import Prelude.

Inductive SocketAddr : Type :=
  | SocketAddrV4 (a b c d : Z) (port : Z)
  | SocketAddrV6 (groups : list Z) (scope_id port : Z).

#[global] Instance SocketAddr_eq_dec : EqDecision SocketAddr.
Proof. solve_decision. Defined.

Abbreviation parser A := (bytes → option (A * bytes)).

(** ** Characters and numbers *)

Definition read_given_char (c : ascii) : parser unit := λ s,
  match s with x :: s' => if decide (x = c) then Some (tt, s') else None | [] => None end.

(** [char::to_digit]. *)
Definition to_digit (radix : Z) (c : ascii) : option Z :=
  let n := Z.of_N (N_of_ascii c) in
  let d := if (48 <=? n) && (n <=? 57) then n - 48
           else if (97 <=? n) && (n <=? 122) then n - 87
           else if (65 <=? n) && (n <=? 90) then n - 55 else radix in
  if d <? radix then Some d else None.

Fixpoint read_digits (radix : Z) (s : bytes) : list Z * bytes :=
  match s with
  | [] => ([], [])
  | c :: s' =>
      match to_digit radix c with
      | Some d => let '(ds, rest) := read_digits radix s' in (d :: ds, rest)
      | None => ([], s)
      end
  end.

Definition number (radix : Z) (ds : list Z) : Z := foldl (λ v d, v * radix + d) 0 ds.

(** At least one digit, at most [max_digits], at most [limit] (the type's maximum); a leading
    zero only where it is allowed or alone. *)
Definition read_number (radix : Z) (max_digits : option nat) (allow_zero_prefix : bool) (limit : Z) : parser Z := λ s,
  let '(ds, rest) := read_digits radix s in
  let too_long := match max_digits with Some m => bool_decide (m < length ds)%nat | None => false end in
  let zero_prefixed := bool_decide (head ds = Some 0 ∧ (1 < length ds)%nat) in
  if bool_decide (ds = []) || too_long || (negb allow_zero_prefix && zero_prefixed) || (limit <? number radix ds)
  then None else Some (number radix ds, rest).

(** The separator before every item but the first. *)
Definition read_separator {A} (sep : ascii) (index : nat) (inner : parser A) : parser A := λ s,
  match index with
  | O => inner s
  | S _ => '(_, s1) ← read_given_char sep s; inner s1
  end.

(** ** Addresses *)

Definition read_octet (index : nat) : parser Z := read_separator "." index (read_number 10 (Some 3%nat) false 255).

Definition read_ipv4_addr : parser (Z * Z * Z * Z) := λ s,
  '(a, s) ← read_octet 0 s; '(b, s) ← read_octet 1 s; '(c, s) ← read_octet 2 s; '(d, s) ← read_octet 3 s;
  Some ((a, b, c, d), s).

(** Up to [k] groups from the [i]-th on, the last two possibly as an IPv4 address. *)
Fixpoint read_groups (i k : nat) (s : bytes) : list Z * bool * bytes :=
  match k with
  | O => ([], false, s)
  | S k' =>
      match (if decide (k' = 0%nat) then None else read_separator ":" i read_ipv4_addr s) with
      | Some ((a, b, c, d), s') => ([a * 256 + b; c * 256 + d], true, s')
      | None =>
          match read_separator ":" i (read_number 16 (Some 4%nat) true 65535) s with
          | Some (g, s') => let '(gs, v4, s'') := read_groups (S i) k' s' in (g :: gs, v4, s'')
          | None => ([], false, s)
          end
      end
  end.

Definition read_ipv6_addr : parser (list Z) := λ s,
  let '(front, front_ipv4, s) := read_groups 0 8 s in
  if decide (length front = 8%nat) then Some (front, s) else
  if (front_ipv4 : bool) then None else
  '(_, s) ← read_given_char ":" s;
  '(_, s) ← read_given_char ":" s;
  let '(back, _, s) := read_groups 0 (8 - (length front + 1)) s in
  Some (front ++ replicate (8 - length front - length back) 0 ++ back, s).

Definition read_port : parser Z := λ s,
  '(_, s) ← read_given_char ":" s; read_number 10 None true 65535 s.
Definition read_scope_id : parser Z := λ s,
  '(_, s) ← read_given_char "%" s; read_number 10 None true 4294967295 s.

Definition read_socket_addr_v4 : parser SocketAddr := λ s,
  '((a, b, c, d), s) ← read_ipv4_addr s; '(port, s) ← read_port s;
  Some (SocketAddrV4 a b c d port, s).
Definition read_socket_addr_v6 : parser SocketAddr := λ s,
  '(_, s) ← read_given_char "[" s; '(ip, s) ← read_ipv6_addr s;
  let '(scope_id, s) := default (0, s) (read_scope_id s) in
  '(_, s) ← read_given_char "]" s; '(port, s) ← read_port s;
  Some (SocketAddrV6 ip scope_id port, s).

Definition read_socket_addr : parser SocketAddr := λ s,
  match read_socket_addr_v4 s with Some r => Some r | None => read_socket_addr_v6 s end.

Definition parse_socket_addr (text : string) : option SocketAddr :=
  match read_socket_addr (as_bytes text) with
  | Some (addr, []) => Some addr
  | _ => None
  end.

(** ** The text of an IPv4 socket address is parsed back *)

Definition digits_of (n : Z) : bytes := as_bytes (pretty n).
Definition show_v4 (a b c d port : Z) : bytes :=
  digits_of a ++ "."%char :: digits_of b ++ "."%char :: digits_of c ++ "."%char :: digits_of d ++ ":"%char :: digits_of port.

(** Reading the text of [n] alone, where a number of at most [m] digits without a leading zero is
    expected. *)
Definition reads_back (m : option nat) (allow : bool) (limit n : Z) : bool :=
  bool_decide (read_number 10 m allow limit (digits_of n) = Some (n, [])).

Lemma octets_read_back : forallb (reads_back (Some 3%nat) false 255) (Z.of_nat <$> seq 0 256) = true.
Proof. vm_compute. reflexivity. Qed.
Lemma read_digits_app radix s ds c rest : read_digits radix s = (ds, []) → to_digit radix c = None →
  read_digits radix (s ++ c :: rest) = (ds, c :: rest).
Proof.
  intros Hs Hc. revert ds Hs. induction s as [|x s IH]; intros ds; simpl.
  - intros [= <-]. by rewrite Hc.
  - destruct (to_digit radix x); [|done]. destruct (read_digits radix s) as [ds' r]. intros [= <- ->]. by rewrite (IH ds').
Qed.

Lemma read_number_app m allow limit s n c rest : read_number 10 m allow limit s = Some (n, []) → to_digit 10 c = None →
  read_number 10 m allow limit (s ++ c :: rest) = Some (n, c :: rest).
Proof.
  unfold read_number. destruct (read_digits 10 s) as [ds r] eqn:Hs. intros Hr Hc.
  assert (r = []) as ->.
  { cbv zeta in Hr. revert Hr. destruct (_ || (limit <? number 10 ds)); [done|]. by intros [= _ ->]. }
  rewrite (read_digits_app _ _ _ _ _ Hs Hc). cbv zeta in *. revert Hr.
  destruct (_ || (limit <? number 10 ds)); [done|]. by intros [= ->].
Qed.

Lemma octet_back n : 0 ≤ n < 256 → read_number 10 (Some 3%nat) false 255 (digits_of n) = Some (n, []).
Proof.
  intros Hn. pose proof (proj1 (forallb_forall _ _) octets_read_back n) as Hb.
  apply bool_decide_eq_true in Hb; [done|]. apply list_elem_of_In, list_elem_of_fmap.
  exists (Z.to_nat n). split; [lia|]. apply elem_of_seq. lia.
Qed.
Lemma digit_char n : (n < 10)%N → to_digit 10 (pretty_N_char n) = Some (Z.of_N n).
Proof. intros Hn. destruct n as [|[[[]|[]|]|[[]|[]|]|]]; try done; repeat (destruct p; try done). Qed.

Lemma number_snoc radix ds d : number radix (ds ++ [d]) = number radix ds * radix + d.
Proof. unfold number. by rewrite foldl_app. Qed.

Lemma read_pretty_go (x : N) : ∃ ds, number 10 ds = Z.of_N x ∧ (x ≠ 0%N → ds ≠ []) ∧
  ∀ s, read_digits 10 (as_bytes (pretty_N_go x s)) =
    (ds ++ (read_digits 10 (as_bytes s)).1, (read_digits 10 (as_bytes s)).2).
Proof.
  induction (N.lt_wf_0 x) as [x _ IH]. destruct (decide (x = 0)%N) as [->|Hx].
  { exists []. split_and!; [done|done|]. intros s. rewrite pretty_N_go_0. by destruct (read_digits 10 (as_bytes s)). }
  destruct (IH (x `div` 10)%N) as (ds & Hn & _ & Hr); [apply N.div_lt; lia|].
  exists (ds ++ [Z.of_N (x `mod` 10)]). split_and!.
  - rewrite number_snoc, Hn. pose proof (N.div_mod x 10). lia.
  - intros _. by destruct ds.
  - intros s. rewrite pretty_N_go_step by lia. rewrite Hr.
    change (as_bytes (String ?c s)) with (c :: as_bytes s). cbn [read_digits].
    rewrite digit_char by (apply N.mod_lt; lia). destruct (read_digits 10 (as_bytes s)).
    cbn [fst snd]. by rewrite <- app_assoc.
Qed.

Lemma port_back n : 0 ≤ n < 65536 → read_number 10 None true 65535 (digits_of n) = Some (n, []).
Proof.
  intros Hn. destruct n as [|p|p]; [done| |lia].
  destruct (read_pretty_go (Npos p)) as (ds & Hv & Hne & Hr). specialize (Hne ltac:(done)). specialize (Hr "").
  unfold read_number, digits_of. change (pretty (Zpos p)) with (pretty_N_go (Npos p) "").
  rewrite Hr. cbn [as_bytes list_ascii_of_string read_digits fst snd]. rewrite app_nil_r, Hv.
  rewrite bool_decide_false by done. cbn [orb negb andb].
  by rewrite (proj2 (Z.ltb_ge _ _)) by lia.
Qed.

Lemma given_char c s : read_given_char c (c :: s) = Some (tt, s).
Proof. unfold read_given_char. by rewrite decide_True. Qed.

(** Every IPv4 socket address, written the usual way, is parsed to itself. *)
Theorem socket_addr_v4_roundtrip a b c d port :
  0 ≤ a < 256 → 0 ≤ b < 256 → 0 ≤ c < 256 → 0 ≤ d < 256 → 0 ≤ port < 65536 →
  parse_socket_addr (of_bytes (show_v4 a b c d port)) = Some (SocketAddrV4 a b c d port).
Proof.
  intros Ha Hb Hc Hd Hp. unfold parse_socket_addr. unfold as_bytes at 1, of_bytes. rewrite list_ascii_of_string_of_list_ascii.
  unfold read_socket_addr, read_socket_addr_v4, read_ipv4_addr, read_octet, read_separator, read_port, show_v4.
  rewrite (read_number_app _ _ _ _ _ _ _ (octet_back a Ha)) by done. cbn [mbind option_bind].
  rewrite given_char. cbn [mbind option_bind]. rewrite (read_number_app _ _ _ _ _ _ _ (octet_back b Hb)) by done. cbn [mbind option_bind].
  rewrite given_char. cbn [mbind option_bind]. rewrite (read_number_app _ _ _ _ _ _ _ (octet_back c Hc)) by done. cbn [mbind option_bind].
  rewrite given_char. cbn [mbind option_bind]. rewrite (read_number_app _ _ _ _ _ _ _ (octet_back d Hd)) by done. cbn [mbind option_bind].
  rewrite given_char. cbn [mbind option_bind].
  by rewrite (port_back port Hp).
Qed.

Lemma socket_addr_v4_roundtrip_witness :
  parse_socket_addr "127.0.0.1:8014" = Some (SocketAddrV4 127 0 0 1 8014).
Proof. refine (socket_addr_v4_roundtrip 127 0 0 1 8014 _ _ _ _ _); lia. Defined.

(** IPv6 with a compressed part, an embedded IPv4 address and a scope; and what is no address: a
    host name, a missing or too large port, a leading zero, text after the port. *)
Example parses_v6 :
  parse_socket_addr "[::1]:8014" = Some (SocketAddrV6 [0; 0; 0; 0; 0; 0; 0; 1] 0 8014) ∧
  parse_socket_addr "[fe80::1%3]:80" = Some (SocketAddrV6 [65152; 0; 0; 0; 0; 0; 0; 1] 3 80) ∧
  parse_socket_addr "[::ffff:10.0.0.1]:1" = Some (SocketAddrV6 [0; 0; 0; 0; 0; 65535; 2560; 1] 0 1).
Proof. vm_compute. done. Qed.
Example rejects :
  forallb (λ text, bool_decide (parse_socket_addr text = None))
    ["localhost:8014"; "0.0.0.0"; ":8014"; "0.0.0.0:65536"; "00.0.0.0:8014"; "0.0.0.0:8014 "; "[::1%]:80"; "::1:80"] = true.
Proof. vm_compute. reflexivity. Qed.
