(* ===== verification/Startup.v ===== *)
(** * Starting a node, and the commands (src/main.rs: [run_server] up to its loops, [run_init],
    [run_create_user], [run_status], [bootstrap_admin_user], and the [Join] case of [main])

    A machine holds configuration files and the databases by path.  Random draws, generated
    keys, the answers of peers, of the file system and of the socket layer, and the environment
    are arguments.  The tasks a started node runs are the events of [Node]. *)

From stdpp Require Import pretty.
From S2P Require Import Prelude Crates Clock Hashing Chunking Listing Policy Disk Tables Store.
From S2P Require Import FactLog BlockStore GC Replication S3 Sync Noise Internal Sizes Seaweed Config SocketAddr.

Record Machine : Type := mkMachine { fs : Files; dbs : gmap string Store }.

Section startup.
Context `{!Blake3, !Hex, !UuidCodec, !Json, !IterOrder, !Toml, !BlobStore}.
Context (b64_decode : string → option bytes).
(** What the system answers to [TcpListener::bind], given what the process has bound already. *)
Context (bind_addr : list SocketAddr → SocketAddr → bool).

Abbreviation command A := (io Machine start_error A).

Definition on_files {A} (m : io Files start_error A) : command A := λ w,
  let '(r, fs') := m (fs w) in (r, mkMachine fs' (dbs w)).

(** ** Databases *)

(** [Store::new]: the tables persist, the location id and the clock belong to the process. *)
Definition reopen (s : Store) (id : string) (c : ClusterClock) : Store :=
  mkStore (objects s) (blocks s) (block_locations s) (pending_deletions s) (users s) (multipart_uploads s)
          (parts s) (nodes s) (replication_queue s) (fact_log s) (replication_cursors s) id c.
Definition open_db (path id : string) (c : ClusterClock) : command Store := λ w,
  let s := if decide (path = ":memory:") then empty_store id c else default (empty_store id c) (dbs w !! path) in
  (Ok (reopen s id c), w).
(** The store as the process leaves it; a store in memory is gone. *)
Definition commit_db (path : string) (s : Store) : command unit := λ w,
  (Ok tt, if decide (path = ":memory:") then w else mkMachine (fs w) (<[path := s]> (dbs w))).

(** ** Commands *)

Definition bootstrap_admin_user (t : SystemTime) (SS_ADMIN_PASSWORD : option string) (s : Store)
    : result start_error Store :=
  match get_user s "admin" with
  | Err _ => Err UserError
  | Ok (Some _) => Ok s
  | Ok None =>
      match SS_ADMIN_PASSWORD with
      | None => Err UserError
      | Some password => Ok (create_user s t "admin" password admin_policy)
      end
  end.

(** [random_hex]: the hex text of the bytes drawn. *)
Definition random_hex (drawn : bytes) : string := hex_encode drawn.

Definition exists_file (path : string) : command bool := λ w, (Ok (bool_decide (is_Some (texts (fs w) !! path))), w).

(** [shardscape init]: the admin password and the cluster secret it prints. *)
Definition run_init (config_path : string) (cluster_secret : option string) (site : SiteArgs)
    (drawn_secret drawn_password : bytes) (created : bool) (key : option string) (t : SystemTime)
    : command (string * string) :=
  let! found := exists_file config_path in
  if (found : bool) then fail ConfigExists else
  let cluster_secret := default (random_hex drawn_secret) cluster_secret in
  let admin_password := random_hex drawn_password in
  let! config := lift (build_site_config site cluster_secret created key) in
  do! on_files (save config config_path);
  let! s := open_db (db_path (database config)) (a_location_id site) (Clock.new 0) in
  do! commit_db (db_path (database config)) (create_user s t "admin" admin_password admin_policy);
  ret (admin_password, cluster_secret).

(** [shardscape create-user]: the secret key it prints. *)
Definition run_create_user (config_path access_key : string) (secret_key : option string) (preset : string)
    (bucket : option string) (drawn : bytes) (t : SystemTime) : command string :=
  let! config := on_files (load config_path) in
  let! s := open_db (db_path (database config)) (location_id (storage config)) (Clock.new (clock_offset_ms (server config))) in
  match preset_policy preset bucket with
  | None => fail UnknownPreset
  | Some policy =>
      let secret := default (random_hex drawn) secret_key in
      do! commit_db (db_path (database config)) (create_user s t access_key secret policy);
      ret secret
  end.

(** ** [run_server] up to its loops *)

Definition load_or_default (path : string) : command Config :=
  let! r := attempt (on_files (load path)) in
  match r with Ok c => ret c | Err _ => ret default_config end.

Definition with_secret (c : Config) (s : string) : Config :=
  mkConfig (mkServerConfig (log_format (server c)) (s3_bind_addr (server c)) (internal_bind_addr (server c))
    (advertise (server c)) s (clock_offset_ms (server c)) (noise_private_key (server c))) (database c) (storage c).
Definition with_key (c : Config) (k : string) : Config :=
  mkConfig (mkServerConfig (log_format (server c)) (s3_bind_addr (server c)) (internal_bind_addr (server c))
    (advertise (server c)) (secret (server c)) (clock_offset_ms (server c)) k) (database c) (storage c).
Definition with_offset (c : Config) (o : Z) : Config :=
  mkConfig (mkServerConfig (log_format (server c)) (s3_bind_addr (server c)) (internal_bind_addr (server c))
    (advertise (server c)) (secret (server c)) o (noise_private_key (server c))) (database c) (storage c).

(** The configuration a node runs with: a missing key is generated and the file written. *)
Definition boot_config (path : string) (secret_override key : option string) : command Config :=
  let! config := load_or_default path in
  let config := match secret_override with Some s => with_secret config s | None => config end in
  if decide (noise_private_key (server config) = "") then
    match key with
    | None => fail KeyError
    | Some key =>
        let config := with_key config key in
        do! on_files (save config path);
        ret config
    end
  else ret config.

(** The join handshake with the peer's answer; the configuration with the measured offset is
    saved before the node goes on. *)
Definition boot_join (path peer_url : string) (answer : result error (ClusterConfigResponse * Z)) (t : SystemTime)
    (config : Config) (c : ClusterClock) : command (Config * ClusterClock * (string * string)) :=
  match perform_join_handshake peer_url answer t (Ok tt) c with
  | (Err _, _) => fail HandshakeError
  | (Ok (offset, peer), c) =>
      let config := with_offset config offset in
      do! on_files (save config path);
      ret (config, c, peer)
  end.

(** Seeding the usage before the first write check. *)
Definition seed_usage (g : DiskGuard) (s : Store) : DiskGuard :=
  if enabled g && quota_enabled g then set_local_usage g (wrap_u64 (local_block_bytes s)) else g.

(** The node with its state, before it listens. *)
Definition boot_node (path : string) (join : option (string * result error (ClusterConfigResponse * Z)))
    (secret_override key SS_ADMIN_PASSWORD : option string) (statvfs_free : option Z) (disk : Blob) (t : SystemTime)
    : command (Config * Backend) :=
  let! config := boot_config path secret_override key in
  do! match decode_private_key b64_decode (noise_private_key (server config)) with
      | Some _ => ret tt
      | None => fail KeyError
      end;
  let clock := Clock.new (clock_offset_ms (server config)) in
  let! ' (config, clock, joined) :=
    match join with
    | None => ret (config, clock, None)
    | Some (peer_url, answer) =>
        let! ' (config, clock, peer) := boot_join path peer_url answer t config clock in
        ret (config, clock, Some peer)
    end in
  let! s := open_db (db_path (database config)) (location_id (storage config)) clock in
  let s := register_node s t (advertise (server config)) in
  let s := match joined with Some (id, url) => record_peer s t id url | None => s end in
  do! commit_db (db_path (database config)) s;
  let! s := match SS_ADMIN_PASSWORD with
            | Some _ => lift (bootstrap_admin_user t SS_ADMIN_PASSWORD s)
            | None => ret s
            end in
  do! commit_db (db_path (database config)) s;
  ret (config, mkBackend (mkNodeState s disk) (seed_usage (from_config config statvfs_free) s)).

(** [addr.parse()?] and [TcpListener::bind(&addr).await?]. *)
Definition listen_on (bound : list SocketAddr) (addr : string) : command SocketAddr :=
  match parse_socket_addr addr with
  | None => fail AddressError
  | Some a => if bind_addr bound a then ret a else fail BindError
  end.

(** The internal listener, then the S3 listener: an address that does not parse or cannot be
    bound ends the process. *)
Definition listen (c : Config) : command (SocketAddr * SocketAddr) :=
  let! internal_addr := listen_on [] (internal_bind_addr (server c)) in
  let! s3_addr := listen_on [internal_addr] (s3_bind_addr (server c)) in
  ret (internal_addr, s3_addr).

(** The node as it enters its loops. *)
Definition run_server (path : string) (join : option (string * result error (ClusterConfigResponse * Z)))
    (secret_override key SS_ADMIN_PASSWORD : option string) (statvfs_free : option Z) (disk : Blob) (t : SystemTime)
    : command (Config * Backend) :=
  let! ' (config, backend) := boot_node path join secret_override key SS_ADMIN_PASSWORD statvfs_free disk t in
  do! listen config;
  ret (config, backend).

(** [shardscape join]: a site without a configuration file gets one from the flags. *)
Definition run_join (path peer_url : string) (answer : result error (ClusterConfigResponse * Z)) (cluster_secret : string)
    (site : SiteArgs) (created : bool) (site_key key SS_ADMIN_PASSWORD : option string) (statvfs_free : option Z)
    (disk : Blob) (t : SystemTime) : command (Config * Backend) :=
  let! found := exists_file path in
  do! (if found : bool then ret tt else
       let! cfg := lift (build_site_config site cluster_secret created site_key) in
       on_files (save cfg path));
  run_server path (Some (peer_url, answer)) (Some cluster_secret) key SS_ADMIN_PASSWORD statvfs_free disk t.

(** ** [shardscape status] *)

Fixpoint join_texts (sep : string) (l : list string) : string :=
  match l with
  | [] => ""
  | [x] => x
  | x :: l' => x +:+ sep +:+ join_texts sep l'
  end.

Definition guard_state (g : DiskGuard) : string :=
  match check g with
  | None =>
      if negb (enabled g) then "off" else
      "OK, " +:+ join_texts ", "
        ((if free_space_enabled g then ["reserve " +:+ format_bytes (min_free_bytes g)] else []) ++
         (if quota_enabled g then ["cap " +:+ format_bytes (max_bytes g)] else []))
  | Some LowFreeSpace => "TRIPPED — writes refused (reserve " +:+ format_bytes (min_free_bytes g) +:+ ")"
  | Some OverQuota => "TRIPPED — writes refused (cap " +:+ format_bytes (max_bytes g) +:+ ")"
  end.

(** [{id:<14}]: padded to 14 characters. *)
Definition char_count (s : string) : nat := length (filter (λ c, negb (continuation c)) (as_bytes s)).
Definition pad_14 (s : string) : string := s +:+ of_bytes (replicate (14 - char_count s) " "%char).

Definition status_lines (config : Config) (s : Store) (statvfs_free : option Z) : list string :=
  let st := stats s in
  let g := set_local_usage (from_config config statvfs_free) (wrap_u64 (st_local_block_bytes st)) in
  ["Shardscape site '" +:+ location_id (storage config) +:+ "'";
   "  S3 endpoint:        http://" +:+ s3_bind_addr (server config);
   "  live objects:       " +:+ pretty (st_live_objects st);
   "  local blocks:       " +:+ pretty (st_local_blocks st) +:+ " (" +:+ format_bytes (wrap_u64 (st_local_block_bytes st)) +:+ ")";
   "  blocks to pull:     " +:+ pretty (st_pending_pulls st);
   "  pending GC:         " +:+ pretty (st_pending_deletions st);
   "  fact-log length:    " +:+ pretty (st_fact_count st);
   if free_space_enabled g
   then "  disk free:          " +:+ format_bytes (free g) +:+ " (guard: " +:+ guard_state g +:+ ")"
   else "  disk guard:         " +:+ guard_state g;
   "  peers:              " +:+ pretty (length (get_peers s))] ++
  ((λ '(id, url), "    - " +:+ pad_14 id +:+ " " +:+ url +:+ "  (synced through fact #" +:+
                  pretty (get_cursor s id) +:+ ")") <$> get_peers s).

Definition run_status (config_path : string) (statvfs_free : option Z) : command (list string) :=
  let! config := on_files (load config_path) in
  let! s := open_db (db_path (database config)) (location_id (storage config)) (Clock.new (clock_offset_ms (server config))) in
  ret (status_lines config s statvfs_free).
End startup.

(** ** Properties *)

Section properties.
Context `{!Blake3, !Md5, !Hex, !UuidCodec, !Json, !IterOrder, !Toml, !BlobStore, !ChunkingStrategy}.
Context (b64_decode : string → option bytes) (bind_addr : list SocketAddr → SocketAddr → bool).

(** The two addresses are socket addresses and can be bound, one after the other. *)
Definition listens (internal s3 : string) : Prop :=
  ∃ a1 a2, parse_socket_addr internal = Some a1 ∧ parse_socket_addr s3 = Some a2 ∧
    bind_addr [] a1 = true ∧ bind_addr [a1] a2 = true.

Ltac refused := intros [= <- <-]; split; [done|split; [by intros [? ?]|intros (? & ? & ? & ? & ? & ?); congruence]].

Lemma listen_iff c w r w' : listen bind_addr c w = (r, w') →
  w' = w ∧ ((∃ as_, r = Ok as_) ↔ listens (internal_bind_addr (server c)) (s3_bind_addr (server c))).
Proof.
  unfold listen, listen_on, listens, bind, fail, ret.
  destruct (parse_socket_addr (internal_bind_addr _)) as [a1|]; [|refused].
  destruct (bind_addr [] a1) eqn:H1'; [|refused].
  destruct (parse_socket_addr (s3_bind_addr _)) as [a2|]; [|refused].
  destruct (bind_addr [a1] a2) eqn:H2'; [|refused].
  intros [= <- <-]. split; [done|]. split; [|by eauto]. intros _. by exists a1, a2.
Qed.

Lemma run_server_boot path join so key pw statvfs disk t w c b w' :
  run_server b64_decode bind_addr path join so key pw statvfs disk t w = (Ok (c, b), w') ↔
  boot_node b64_decode path join so key pw statvfs disk t w = (Ok (c, b), w') ∧
  listens (internal_bind_addr (server c)) (s3_bind_addr (server c)).
Proof.
  unfold run_server. split.
  - intros ([c1 b1] & w1 & Hb & (as_ & w2 & Hl & [= <- <- <-])%bind_inv)%bind_inv.
    destruct (listen_iff _ _ _ _ Hl) as [-> Hiff]. split; [done|]. apply Hiff. eauto.
  - intros [Hb Hl]. unfold bind at 1. rewrite Hb. unfold bind. destruct (listen bind_addr c w') as [r w2] eqn:El.
    destruct (listen_iff _ _ _ _ El) as [-> Hiff]. by destruct (proj2 Hiff Hl) as [as_ ->].
Qed.

Lemma on_files_save c path w w' : on_files (save c path) w = (Ok tt, w') →
  load path (fs w') = (Ok c, fs w') ∧ dbs w' = dbs w.
Proof.
  unfold on_files. destruct (save c path (fs w)) as [r fs'] eqn:Hs. intros [= -> <-]. split; [|done]. by eapply save_load.
Qed.

Lemma load_or_default_spec path w :
  load_or_default path w = (Ok match load path (fs w) with (Ok c, _) => c | _ => default_config end, w).
Proof.
  unfold load_or_default, bind, attempt, on_files, load. destruct w as [fs0 dbs0]. simpl.
  destruct (texts fs0 !! path) as [content|]; [|done]. by destruct (toml_parse content ≫= config_of_doc).
Qed.

(** After a start without an override the file holds the configuration the node runs with. *)
Lemma boot_config_saved path key w c w' :
  boot_config path None key w = (Ok c, w') →
  load path (fs w') = (Ok c, fs w') ∧ dbs w' = dbs w.
Proof.
  unfold boot_config, bind. rewrite load_or_default_spec. destruct (decide _) as [He|He].
  - destruct key as [key|]; [|done]. destruct (on_files _ w) as [[[]|e] w1] eqn:Hs; [|done].
    intros [= <- <-]. by apply on_files_save in Hs.
  - intros [= <- <-]. split; [|done]. revert He. unfold load.
    destruct (texts (fs w) !! path); [|done]. by destruct (_ ≫= _).
Qed.

(** A start from such a file changes nothing in it. *)
Lemma boot_config_loads path key w c :
  load path (fs w) = (Ok c, fs w) → noise_private_key (server c) ≠ "" → boot_config path None key w = (Ok c, w).
Proof. intros Hl Hk. unfold boot_config, bind. rewrite load_or_default_spec, Hl. by rewrite decide_False. Qed.

(** The store a start opens and leaves, without a join and without bootstrap. *)
Definition booted (c : Config) (t : SystemTime) (w : Machine) : Store :=
  let id := location_id (storage c) in
  let clock := Clock.new (clock_offset_ms (server c)) in
  let s := if decide (db_path (database c) = ":memory:") then empty_store id clock
           else default (empty_store id clock) (dbs w !! db_path (database c)) in
  register_node (reopen s id clock) t (advertise (server c)).

Lemma boot_node_plain path key statvfs disk t w c :
  boot_config path None key w = (Ok c, w) → is_Some (decode_private_key b64_decode (noise_private_key (server c))) →
  ∃ w', boot_node b64_decode path None None key None statvfs disk t w =
    (Ok (c, mkBackend (mkNodeState (booted c t w) disk) (seed_usage (from_config c statvfs) (booted c t w))), w') ∧
    fs w' = fs w ∧ (db_path (database c) ≠ ":memory:" → dbs w' !! db_path (database c) = Some (booted c t w)).
Proof.
  intros Hb [k Hk]. unfold boot_node. unfold bind at 1. rewrite Hb. unfold bind at 1. rewrite Hk.
  unfold bind, ret, open_db, commit_db. cbv beta iota zeta. cbn [fst snd]. fold (booted c t w).
  destruct (decide (db_path (database c) = ":memory:")); eexists; split_and!; try done.
  intros _. apply lookup_insert_eq.
Qed.

Lemma boot_node_inv path key pw statvfs disk t w c b w1 :
  boot_node b64_decode path None None key pw statvfs disk t w = (Ok (c, b), w1) →
  ∃ w0, boot_config path None key w = (Ok c, w0) ∧ is_Some (decode_private_key b64_decode (noise_private_key (server c))) ∧
    fs w1 = fs w0 ∧ (db_path (database c) ≠ ":memory:" → dbs w1 !! db_path (database c) = Some (db (node b))).
Proof.
  unfold boot_node. intros (c0 & w0 & Hb & Hr)%bind_inv. exists w0.
  apply bind_inv in Hr as (u & w2 & Hd & Hr).
  destruct (decode_private_key b64_decode _) as [k|] eqn:Hk; [|done]. injection Hd as <- <-.
  unfold bind at 1, ret at 1 in Hr. cbv beta iota zeta in Hr.
  apply bind_inv in Hr as (s & w3 & Ho & Hr). injection Ho as <- <-.
  apply bind_inv in Hr as (u2 & w4 & Hc1 & Hr). apply bind_inv in Hr as (s2 & w5 & Hp & Hr).
  assert (w5 = w4) as ->.
  { destruct pw; [|by injection Hp]. unfold lift in Hp. by injection Hp. }
  apply bind_inv in Hr as (u3 & w6 & Hc2 & Hr). injection Hr as <- <- <-.
  unfold commit_db in Hc1, Hc2. destruct (decide _) in Hc1, Hc2; [simplify_eq; by rewrite Hk|].
  injection Hc1 as _ <-. injection Hc2 as _ <-. rewrite Hk. split_and!; [done|by eauto|done|].
  intros _. apply lookup_insert_eq.
Qed.

(** C38: a restart continues.  When a node has started, starting it again from the same
    configuration file, on a system that binds the same addresses, succeeds with the same
    configuration (the same identity, secret and key, whatever key would be generated now),
    leaves the file as it is, and finds the objects, users, log, block locations and cursors
    the node had. *)
Theorem restart_continues path key pw statvfs disk t w c b w1 key' statvfs' disk' t' :
  b64_decode "" = Some [] →
  run_server b64_decode bind_addr path None None key pw statvfs disk t w = (Ok (c, b), w1) →
  ∃ b' w2, run_server b64_decode bind_addr path None None key' None statvfs' disk' t' w1 = (Ok (c, b'), w2) ∧ fs w2 = fs w1 ∧
    (db_path (database c) ≠ ":memory:" →
     objects (db (node b')) = objects (db (node b)) ∧ users (db (node b')) = users (db (node b)) ∧
     fact_log (db (node b')) = fact_log (db (node b)) ∧
     block_locations (db (node b')) = block_locations (db (node b)) ∧
     replication_cursors (db (node b')) = replication_cursors (db (node b))).
Proof.
  intros Hempty [(w0 & Hb & Hk & Hfs & Hdb)%boot_node_inv Hlis]%run_server_boot. apply boot_config_saved in Hb as [Hl _].
  assert (noise_private_key (server c) ≠ "") as Hne.
  { intros He. rewrite He in Hk. unfold decode_private_key in Hk. rewrite Hempty in Hk. by destruct Hk. }
  rewrite <- Hfs in Hl. pose proof (boot_config_loads path key' w1 c Hl Hne) as Hb'.
  destruct (boot_node_plain path key' statvfs' disk' t' w1 c Hb' Hk) as (w2 & Hr & Hfs2 & _).
  do 2 eexists. split; [apply run_server_boot; split; [exact Hr|exact Hlis]|]. split; [done|]. intros Hmem. specialize (Hdb Hmem).
  unfold booted. rewrite decide_False by done. rewrite Hdb. done.
Qed.

(** ** Joining *)

Lemma boot_join_inv path peer_url answer t config c0 w c clk peer w' :
  boot_join path peer_url answer t config c0 w = (Ok (c, clk, peer), w') →
  ∃ info rtt offset, answer = Ok (info, rtt) ∧ measured_offset_ms (cluster_time_micros info) rtt t = Ok offset ∧
    c = with_offset config offset ∧ clk = set_offset c0 offset ∧ load path (fs w') = (Ok c, fs w') ∧
    peer = (if decide (cr_location_id info = "") then peer_url else cr_location_id info, peer_url).
Proof.
  unfold boot_join, perform_join_handshake. destruct answer as [[info rtt]|]; [|done].
  destruct (measured_offset_ms _ _ _) as [offset|] eqn:Ho; [|done].
  intros ([] & w2 & Hs & Hr)%bind_inv. injection Hr as <- <- <- <-. apply on_files_save in Hs as [Hl _].
  by exists info, rtt, offset.
Qed.

Lemma boot_config_secret path s key w c w' :
  boot_config path (Some s) key w = (Ok c, w') → secret (server c) = s.
Proof.
  unfold boot_config, bind. rewrite load_or_default_spec. destruct (decide _).
  - destruct key; [|done]. destruct (on_files _ w) as [[[]|] w1]; [|done]. by intros [= <- _].
  - by intros [= <- _].
Qed.

Lemma bootstrap_keeps_nodes t pw s s' : bootstrap_admin_user t pw s = Ok s' → nodes s' = nodes s ∧ clock s' = clock s.
Proof.
  unfold bootstrap_admin_user. destruct (get_user s "admin") as [[u|]|]; [by intros [= <-]| |done].
  destruct pw; [|done]. by intros [= <-].
Qed.

Lemma commit_db_fs path s w r w' : commit_db path s w = (r, w') → fs w' = fs w.
Proof. unfold commit_db. destruct (decide _); by intros [= _ <-]. Qed.

(** What a successful join leaves.  The peer has answered, the node's clock and the saved
    configuration carry the offset measured from that answer, the configuration has the
    given secret, and the node's table names the peer under its own id, or the address it
    was reached at when it reported none, so that the next round of gossip and sync asks it. *)
Theorem join_knows_peer path peer_url answer cluster_secret site created site_key key pw statvfs disk t w c b w1 :
  run_join b64_decode bind_addr path peer_url answer cluster_secret site created site_key key pw statvfs disk t w = (Ok (c, b), w1) →
  ∃ info rtt offset, answer = Ok (info, rtt) ∧ measured_offset_ms (cluster_time_micros info) rtt t = Ok offset ∧
    secret (server c) = cluster_secret ∧ clock_offset_ms (server c) = offset ∧ get_offset (clock (db (node b))) = offset ∧
    load path (fs w1) = (Ok c, fs w1) ∧
    let id := if decide (cr_location_id info = "") then peer_url else cr_location_id info in
    (id ≠ location_id (storage c) → n_url <$> nodes (db (node b)) !! id = Some peer_url).
Proof.
  unfold run_join. intros (found & w0 & _ & Hr)%bind_inv. apply bind_inv in Hr as ([] & w2 & _ & Hr).
  apply run_server_boot in Hr as [Hr _].
  unfold boot_node in Hr. apply bind_inv in Hr as (c0 & w3 & Hb & Hr). apply boot_config_secret in Hb.
  apply bind_inv in Hr as (? & w4 & _ & Hr). cbv zeta in Hr. apply bind_inv in Hr as ([[c1 clk] joined] & w5 & Hj & Hr).
  apply bind_inv in Hj as ([[c2 clk2] peer] & w6 & Hj & Hret). injection Hret as <- <- <- <-.
  apply boot_join_inv in Hj as (info & rtt & offset & -> & Ho & -> & -> & Hl & ->).
  apply bind_inv in Hr as (s & w7 & Hopen & Hr). injection Hopen as Hs <-.
  apply bind_inv in Hr as (? & w8 & Hc1 & Hr). apply bind_inv in Hr as (s2 & w9 & Hp & Hr).
  apply bind_inv in Hr as (? & w10 & Hc2 & Hr). injection Hr as <- <- <-.
  assert (nodes s2 = nodes (record_peer (register_node s t (advertise (server (with_offset c0 offset)))) t
      (if decide (cr_location_id info = "") then peer_url else cr_location_id info) peer_url) ∧
    clock s2 = set_offset (Clock.new (clock_offset_ms (server c0))) offset) as [Hn Hclk].
  { subst s. destruct pw as [pw|].
    - unfold lift in Hp. injection Hp as Hp _. apply bootstrap_keeps_nodes in Hp as [-> ->].
      split; [done|]. by unfold record_peer; destruct (decide (_ = local_location_id _)).
    - injection Hp as <- _. split; [done|]. by unfold record_peer; destruct (decide (_ = local_location_id _)). }
  apply commit_db_fs in Hc1, Hc2. assert (fs w9 = fs w8) as Hfs by (destruct pw; by injection Hp as _ <-).
  exists info, rtt, offset. split_and!; [done|done|done|done| |by rewrite Hc2, Hfs, Hc1|].
  - cbn [node db]. by rewrite Hclk.
  - cbv zeta. intros Hne. cbn [node db]. rewrite Hn. revert Hne. generalize (if decide (cr_location_id info = "") then peer_url else cr_location_id info).
    intros id Hne. unfold record_peer. rewrite decide_False by (subst s; exact Hne).
    unfold upsert_node. cbn [nodes with_nodes]. by rewrite lookup_insert_eq.
Qed.

(** A new site that joins has the id it was given. *)
Lemma join_new_site_id path peer_url answer cluster_secret site created site_key key pw statvfs disk t w c b w1 :
  texts (fs w) !! path = None →
  run_join b64_decode bind_addr path peer_url answer cluster_secret site created site_key key pw statvfs disk t w = (Ok (c, b), w1) →
  location_id (storage c) = a_location_id site.
Proof.
  intros Hnew. unfold run_join. intros (found & w0 & [= <- <-] & Hr)%bind_inv. rewrite Hnew in Hr.
  rewrite bool_decide_false in Hr by (by intros [? ?]).
  apply bind_inv in Hr as ([] & w2 & (cfg & w3 & Hc & Hs)%bind_inv & [Hr _]%run_server_boot).
  unfold lift in Hc. injection Hc as Hc <-. apply on_files_save in Hs as [Hl _].
  assert (location_id (storage cfg) = a_location_id site) as <-.
  { unfold build_site_config in Hc. destruct created; [|done]. destruct site_key; [|done]. by injection Hc as <-. }
  unfold boot_node in Hr. apply bind_inv in Hr as (c0 & w4 & Hb & Hr).
  assert (storage c0 = storage cfg) as <-.
  { unfold boot_config, bind in Hb. rewrite load_or_default_spec, Hl in Hb. destruct (decide _); [|by injection Hb as <-].
    destruct key; [|done]. destruct (on_files _ w2) as [[[]|] w5]; [|done]. by injection Hb as <-. }
  apply bind_inv in Hr as (? & w5 & _ & Hr). cbv zeta in Hr. apply bind_inv in Hr as ([[c1 clk] joined] & w6 & Hj & Hr).
  apply bind_inv in Hj as ([[c2 clk2] peer] & w7 & Hj & Hret). injection Hret as <- <- <- <-.
  apply boot_join_inv in Hj as (info & rtt & offset & -> & Ho & -> & _).
  apply bind_inv in Hr as (? & ? & _ & Hr). do 3 (apply bind_inv in Hr as (? & ? & _ & Hr)). by injection Hr as <- _ _.
Qed.

(** A configuration file that cannot be read is replaced.  Starting a node on a file that
    does not parse (a typo, a key of a newer version) runs it with the defaults, under the
    site id [default] and the well-known default secret, and writes that configuration over
    the file. *)
Theorem invalid_config_overwritten path content key w text :
  texts (fs w) !! path = Some content → toml_parse content ≫= config_of_doc = None →
  outcomes (fs w) = [] → toml_print (with_key default_config key) = Some text →
  ∃ w', boot_config path None (Some key) w = (Ok (with_key default_config key), w') ∧
    texts (fs w') !! path = Some text ∧ secret (server (with_key default_config key)) = "default-cluster-secret".
Proof.
  intros Hc Hp Ho Ht. unfold boot_config, bind. rewrite load_or_default_spec. unfold load. rewrite Hc, Hp.
  destruct (decide _) as [_|Hne]; [|by destruct Hne]. unfold on_files, save. rewrite Ht. unfold write_text. rewrite Ho.
  eexists. split; [done|]. split; [apply lookup_insert_eq|done].
Qed.

(** ** From [init] to the first request *)

Lemma not_memory dir : path_join dir "shardscape.db" ≠ ":memory:".
Proof.
  assert (∃ x, path_join dir "shardscape.db" = x +:+ "shardscape.db") as [x ->].
  { unfold path_join. destruct (decide _); [by exists ""|]. destruct (ends_with_slash dir); [by exists dir|].
    exists (dir +:+ "/"). by rewrite <- append_assoc. }
  intros Heq. apply (f_equal (λ s, last (as_bytes s))) in Heq. rewrite as_bytes_append in Heq.
  change (as_bytes "shardscape.db") with (as_bytes "shardscape.d" ++ ["b"%char]) in Heq.
  rewrite app_assoc, last_snoc in Heq. done.
Qed.

Lemma get_user_created s t a sk p :
  users s = ∅ → get_user (create_user s t a sk p) a = Ok (Some (sk, p)).
Proof.
  intros Hu. unfold get_user, create_user, append_fact_tx, put_user_row. simpl.
  rewrite Hu, lww_upsert_lookup, lookup_empty. simpl. by rewrite policy_string_roundtrip.
Qed.

(** The first site works out of the box.  After [init] has succeeded on a machine without
    such a database, serving from the configuration it wrote starts, when the addresses given to
    it are socket addresses the system binds, and the administrator it
    printed the password of is known with that secret and authorized for every action on
    every bucket and key. *)
Theorem init_then_serve path cluster_secret site d1 d2 created key t w pw sec w1 key' statvfs disk t' :
  is_Some (key ≫= decode_private_key b64_decode) → b64_decode "" = Some [] →
  dbs w !! path_join (a_data_dir site) "shardscape.db" = None →
  listens (a_internal_addr site) (a_s3_addr site) →
  run_init path cluster_secret site d1 d2 created key t w = (Ok (pw, sec), w1) →
  ∃ c b w2, run_server b64_decode bind_addr path None None key' None statvfs disk t' w1 = (Ok (c, b), w2) ∧
    advertise (server c) = a_advertise site ∧ location_id (storage c) = a_location_id site ∧ secret (server c) = sec ∧
    get_user (db (node b)) "admin" = Ok (Some (pw, admin_policy)) ∧
    ∀ action bucket k, authorize (Some "admin") action bucket k b = (Ok tt, b).
Proof.
  intros Hkey Hempty Hdb Hlis. unfold run_init. intros (found & w0 & Hf & Hr)%bind_inv. injection Hf as <- <-.
  destruct (bool_decide _); [done|]. apply bind_inv in Hr as (c & w2 & Hc & Hr).
  unfold lift, build_site_config in Hc. destruct created; [|done]. destruct key as [key|]; [|done].
  injection Hc as Hc <-. apply bind_inv in Hr as ([] & w3 & Hs & Hr). apply on_files_save in Hs as [Hl Hdbs].
  assert (db_path (database c) = path_join (a_data_dir site) "shardscape.db") as Hpath by by subst c.
  unfold bind, open_db, commit_db, ret in Hr. rewrite Hpath, decide_False, Hdbs, Hdb in Hr by apply not_memory.
  injection Hr as <- <- <-.
  assert (noise_private_key (server c) = key) as Hk by by subst c. assert (key ≠ "") as Hne.
  { intros ->. destruct Hkey as [k Hk']. simpl in Hk'. unfold decode_private_key in Hk'. by rewrite Hempty in Hk'. }
  set (w4 := mkMachine _ _). assert (boot_config path None key' w4 = (Ok c, w4)) as Hboot.
  { apply boot_config_loads; [done|congruence]. }
  destruct (boot_node_plain path key' statvfs disk t' w4 c Hboot) as (w5 & Hrun & _ & _); [by rewrite Hk|].
  assert (get_user (booted c t' w4) "admin" = Ok (Some (random_hex d2, admin_policy))) as Hu.
  { unfold booted. rewrite Hpath, decide_False by apply not_memory. unfold w4. cbn [dbs].
    rewrite lookup_insert_eq. cbn [default]. destruct (decide _) as [Hm|_]; [by destruct (not_memory _ Hm)|].
    refine (get_user_created (reopen (empty_store (a_location_id site) (Clock.new 0)) (a_location_id site) (Clock.new 0)) t "admin" _ _ _). done. }
  do 3 eexists. split; [apply run_server_boot; split; [exact Hrun|by subst c]|].
  split_and!; [by subst c|by subst c|by subst c|exact Hu|].
  intros action bucket k. unfold authorize, ask, bind. cbn [node db]. rewrite Hu. done.
Qed.
End properties.

(** ** Concrete runs *)

Module StartupRuns.
#[local] Existing Instances Reference.blake3_pad Reference.md5_rev Reference.hex_lower Reference.uuid_text.
#[local] Existing Instances JsonReference.json_tokens order_id LocalBlob.local_blob ConfigReference.toml_tokens.

(** Keys of 32 bytes under every text but the empty one. *)
Definition b64 (s : string) : option bytes :=
  if decide (s = "") then Some [] else Some (replicate 32 Ascii.zero).
Definition any_bind (_ : list SocketAddr) (_ : SocketAddr) : bool := true.
Definition site_a : SiteArgs := mkSiteArgs "a" "0.0.0.0:8014" "0.0.0.0:8015" "http://a:8015" "/data".
Definition new_machine : Machine := mkMachine (mkFiles ∅ []) ∅.
Definition no_disk : @Blob LocalBlob.local_blob := LocalBlob.mkDisk ∅ [].

Definition inited : result start_error (string * string) * Machine :=
  run_init "config.toml" None site_a (as_bytes "s") (as_bytes "p") true (Some "key") 5000000 new_machine.
Lemma inited_ok : inited = (Ok ("70", "73"), inited.2).
Proof. reflexivity. Qed.

Lemma site_a_listens : listens any_bind "0.0.0.0:8015" "0.0.0.0:8014".
Proof. by exists (SocketAddrV4 0 0 0 0 8015), (SocketAddrV4 0 0 0 0 8014). Qed.

Lemma init_then_serve_witness :
  ∃ c b w2, run_server b64 any_bind "config.toml" None None None None None no_disk 6000000 inited.2 = (Ok (c, b), w2) ∧
    advertise (server c) = "http://a:8015" ∧ location_id (storage c) = "a" ∧ secret (server c) = "73" ∧
    get_user (db (node b)) "admin" = Ok (Some ("70", admin_policy)) ∧
    ∀ action bucket k, authorize (Some "admin") action bucket k b = (Ok tt, b).
Proof.
  apply (init_then_serve b64 any_bind "config.toml" None site_a (as_bytes "s") (as_bytes "p") true (Some "key") 5000000
    new_machine "70" "73" inited.2 None None no_disk 6000000); [by eexists|reflexivity|reflexivity|exact site_a_listens|exact inited_ok].
Defined.

(** A start on a machine without a configuration file generates a key and writes one. *)
Definition started : result start_error (Config * Backend) * Machine :=
  run_server b64 any_bind "config.toml" None None (Some "key") (Some "pw") None no_disk 5000000 new_machine.
Definition stopped : Config * Backend :=
  (default_config, mkBackend (mkNodeState (empty_store "" (Clock.new 0)) no_disk) disabled).
Definition started_value : Config * Backend := match started.1 with Ok x => x | Err _ => stopped end.
Lemma started_ok : started = (Ok (started_value.1, started_value.2), started.2).
Proof. reflexivity. Qed.

Lemma restart_continues_witness :
  ∃ b' w2, run_server b64 any_bind "config.toml" None None (Some "other") None None no_disk 9000000 started.2 =
      (Ok (started_value.1, b'), w2) ∧ fs w2 = fs started.2 ∧
    (db_path (database started_value.1) ≠ ":memory:" →
     objects (db (node b')) = objects (db (node started_value.2)) ∧ users (db (node b')) = users (db (node started_value.2)) ∧
     fact_log (db (node b')) = fact_log (db (node started_value.2)) ∧
     block_locations (db (node b')) = block_locations (db (node started_value.2)) ∧
     replication_cursors (db (node b')) = replication_cursors (db (node started_value.2))).
Proof.
  apply (restart_continues b64 any_bind "config.toml" (Some "key") (Some "pw") None no_disk 5000000 new_machine
    started_value.1 started_value.2 started.2 (Some "other") None no_disk 9000000); [reflexivity|exact started_ok].
Defined.

(** A site joining a cluster whose member answers with its id. *)
Definition answer_a : result error (ClusterConfigResponse * Z) :=
  Ok (mkConfigResponse 7000000 "a" "http://a:8015", 0).
Definition site_b : SiteArgs := mkSiteArgs "b" "0.0.0.0:8014" "0.0.0.0:8015" "http://b:8015" "/b".
Definition config_b : Config :=
  mkConfig (mkServerConfig "text" "0.0.0.0:8014" "0.0.0.0:8015" "http://b:8015" "other-secret" 0 "key")
    (mkDatabaseConfig "/b/shardscape.db") (mkStorageConfig "b" (Local "/b/blocks") None None (Fixed 4) 300 60).
Definition machine_b : Machine :=
  mkMachine (mkFiles {["b.toml" := JsonReference.put_tokens (ConfigReference.config_tokens config_b)]} []) ∅.
Definition joined : result start_error (Config * Backend) * Machine :=
  run_join b64 any_bind "b.toml" "http://a:8015" answer_a "73" site_b true None None (Some "other") None no_disk 5000000 machine_b.
Definition joined_value : Config * Backend := match joined.1 with Ok x => x | Err _ => stopped end.
Lemma joined_ok : joined = (Ok (joined_value.1, joined_value.2), joined.2).
Proof.
  assert (match joined.1 with Ok _ => true | Err _ => false end = true) as H by (vm_compute; reflexivity).
  revert H. unfold joined_value. by destruct joined as [[[c b]|e] w].
Qed.

Lemma join_knows_peer_witness :
  ∃ info rtt offset, answer_a = Ok (info, rtt) ∧ measured_offset_ms (cluster_time_micros info) rtt 5000000 = Ok offset ∧
    secret (server joined_value.1) = "73" ∧ clock_offset_ms (server joined_value.1) = offset ∧
    get_offset (clock (db (node joined_value.2))) = offset ∧
    load "b.toml" (fs joined.2) = (Ok joined_value.1, fs joined.2) ∧
    let id := if decide (cr_location_id info = "") then "http://a:8015" else cr_location_id info in
    (id ≠ location_id (storage joined_value.1) →
     n_url <$> nodes (db (node joined_value.2)) !! id = Some "http://a:8015").
Proof.
  exact (join_knows_peer b64 any_bind "b.toml" "http://a:8015" answer_a "73" site_b true None None (Some "other") None no_disk
    5000000 machine_b joined_value.1 joined_value.2 joined.2 joined_ok).
Defined.

(** A host name is not a socket address: a node configured to listen on [localhost:8015] has
    opened its database, then ends with an error. *)
Definition site_named : SiteArgs := mkSiteArgs "a" "0.0.0.0:8014" "localhost:8015" "http://a:8015" "/data".
Example host_name_refused :
  let w := (run_init "config.toml" None site_named (as_bytes "s") (as_bytes "p") true (Some "key") 5000000 new_machine).2 in
  match (run_server b64 any_bind "config.toml" None None None None None no_disk 6000000 w).1 with
  | Err AddressError => true
  | _ => false
  end = true.
Proof. vm_compute. reflexivity. Qed.

(** Joining with a bootstrap password takes the administrator over.  A site that joins with
    [SS_ADMIN_PASSWORD] in its environment creates its own administrator before it has seen
    the cluster's; as the newer write it replaces that of the first site when this one pulls. *)
Definition first_site : Store := default (empty_store "a" (Clock.new 0)) (dbs inited.2 !! "/data/shardscape.db").
Theorem joined_bootstrap_replaces_admin :
  get_user first_site "admin" = Ok (Some ("70", admin_policy)) ∧
  match sync_peer (serves (db (node joined_value.2))) 2 8000000 "b" "" first_site with
  | Some s => get_user s "admin" = Ok (Some ("other", admin_policy))
  | None => False
  end.
Proof. vm_compute. done. Qed.
End StartupRuns.
