(* ===== verification/Manifests.v ===== *)
(** * Kubernetes manifests (src/main.rs: [render_k8s_manifests], [run_render_k8s])

    The text rendered from a configuration.  Its init container runs [shardscape init] with
    the flags [init_args]. *)

From S2P Require Import Prelude Crates Clock Hashing Chunking Listing Policy Disk Tables Store.
From S2P Require Import FactLog BlockStore GC Replication S3 Sync Internal Config Startup.

(** [rsplit(':').next()]: the text after the last colon, or all of it. *)
Definition after_last_colon (s : string) : string := default "" (last (split_on ":" s)).

Definition s3_port (c : Config) : string := after_last_colon (s3_bind_addr (server c)).
Definition internal_port (c : Config) : string := after_last_colon (internal_bind_addr (server c)).

(** The flags in the init container's command. *)
Definition init_args (c : Config) : SiteArgs :=
  let site := location_id (storage c) in
  mkSiteArgs site ("0.0.0.0:" +:+ s3_port c) ("0.0.0.0:" +:+ internal_port c)
    ("http://shardscape-" +:+ site +:+ ".shardscape.svc.cluster.local:" +:+ internal_port c) "/data".

Definition newline : string := String (ascii_of_N 10) "".
Fixpoint unlines (l : list string) : string :=
  match l with [] => "" | x :: l' => x +:+ newline +:+ unlines l' end.

Definition render_k8s_manifests (c : Config) : string :=
  let site := location_id (storage c) in
  let a := init_args c in
  unlines [
    "# Rendered by `shardscape render-k8s` for site '" +:+ site +:+ "'. Do not hand-edit;";
    "# re-render from config.toml instead.";
    "apiVersion: v1";
    "kind: Namespace";
    "metadata:";
    "  name: shardscape";
    "---";
    "apiVersion: v1";
    "kind: PersistentVolumeClaim";
    "metadata:";
    "  name: shardscape-data-" +:+ site;
    "  namespace: shardscape";
    "spec:";
    "  accessModes: [" +:+ quoted "ReadWriteOnce" +:+ "]";
    "  resources:";
    "    requests:";
    "      storage: 50Gi";
    "---";
    "apiVersion: apps/v1";
    "kind: Deployment";
    "metadata:";
    "  name: shardscape-" +:+ site;
    "  namespace: shardscape";
    "spec:";
    "  replicas: 1";
    "  selector:";
    "    matchLabels: { app: shardscape, site: " +:+ site +:+ " }";
    "  template:";
    "    metadata:";
    "      labels: { app: shardscape, site: " +:+ site +:+ " }";
    "    spec:";
    "      initContainers:";
    "        # Idempotently initialise this site on first boot. The generated admin +";
    "        # cluster secrets appear in this container's logs; capture them to add";
    "        # more sites (`shardscape join`). Re-runs are a no-op once config exists.";
    "        - name: init";
    "          image: shardscape:latest";
    "          command: [" +:+ quoted "/bin/sh" +:+ ", " +:+ quoted "-c" +:+ "]";
    "          args:";
    "            - >-";
    "              test -f /data/config.toml ||";
    "              /usr/local/bin/shardscape init --config /data/config.toml --data-dir " +:+ a_data_dir a;
    "              --location-id " +:+ a_location_id a +:+ " --s3-addr " +:+ a_s3_addr a;
    "              --internal-addr " +:+ a_internal_addr a;
    "              --advertise " +:+ a_advertise a;
    "          volumeMounts:";
    "            - { name: data, mountPath: /data }";
    "      containers:";
    "        - name: shardscape";
    "          image: shardscape:latest";
    "          args: [" +:+ quoted "serve" +:+ ", " +:+ quoted "--config" +:+ ", " +:+ quoted "/data/config.toml" +:+ "]";
    "          ports:";
    "            - { containerPort: " +:+ s3_port c +:+ ", name: s3 }";
    "            - { containerPort: " +:+ internal_port c +:+ ", name: internal }";
    "          volumeMounts:";
    "            - { name: data, mountPath: /data }";
    "          readinessProbe:";
    "            tcpSocket: { port: s3 }";
    "            initialDelaySeconds: 2";
    "      volumes:";
    "        - name: data";
    "          persistentVolumeClaim:";
    "            claimName: shardscape-data-" +:+ site;
    "---";
    "apiVersion: v1";
    "kind: Service";
    "metadata:";
    "  name: shardscape-" +:+ site;
    "  namespace: shardscape";
    "spec:";
    "  selector: { app: shardscape, site: " +:+ site +:+ " }";
    "  ports:";
    "    - { name: s3, port: " +:+ s3_port c +:+ ", targetPort: s3 }";
    "    - { name: internal, port: " +:+ internal_port c +:+ ", targetPort: internal }"].

(** [shardscape render-k8s]: what it prints; with a directory the manifests go to a file there.
    [created] is the outcome of [create_dir_all]. *)
Definition run_render_k8s `{!Toml} (config_path : string) (out : option string) (created : bool)
    : io Machine start_error string :=
  let! config := on_files (load config_path) in
  let manifests := render_k8s_manifests config in
  match out with
  | Some dir =>
      if negb created then fail DirectoryError else
      let path := path_join dir "shardscape.yaml" in
      do! on_files (write_text path manifests);
      ret ("Wrote " +:+ path +:+ newline)
  | None => ret manifests
  end.

(** ** Ports *)

Lemma split_on_pieces c s : Forall (λ p, c ∉ as_bytes p) (split_on c s) ∧ split_on c s ≠ [].
Proof.
  induction s as [|a s [IH Hne]]; cbn [split_on].
  - split; [|done]. repeat constructor. by intros ?%elem_of_nil.
  - destruct (decide (a = c)) as [->|Hac].
    + split; [|done]. constructor; [by intros ?%elem_of_nil|done].
    + destruct (split_on c s) as [|p ps]; [done|]. split; [|done]. apply Forall_cons in IH as [Hp Hps].
      constructor; [|done]. change (as_bytes (String a p)) with (a :: as_bytes p).
      intros [<-|]%elem_of_cons; [by destruct Hac|done].
Qed.

Lemma split_on_none c s : c ∉ as_bytes s → split_on c s = [s].
Proof.
  induction s as [|a s IH]; [done|]. change (as_bytes (String a s)) with (a :: as_bytes s).
  intros [Hne Hs]%not_elem_of_cons. cbn [split_on]. rewrite decide_False by congruence. by rewrite IH.
Qed.

Lemma port_no_colon s : ":"%char ∉ as_bytes (after_last_colon s).
Proof.
  destruct (split_on_pieces ":" s) as [Hf Hne]. unfold after_last_colon.
  destruct (last (split_on ":" s)) as [p|] eqn:Hl; [|by intros ?%elem_of_nil].
  apply last_Some in Hl as [l' Hl]. rewrite Hl in Hf. apply Forall_app in Hf as [_ Hf].
  by apply Forall_cons in Hf as [? _].
Qed.

Lemma after_any_address p : ":"%char ∉ as_bytes p → after_last_colon ("0.0.0.0:" +:+ p) = p.
Proof.
  intros Hp. unfold after_last_colon.
  change ("0.0.0.0:" +:+ p) with (String "0" (String "." (String "0" (String "." (String "0" (String "." (String "0" (String ":" p)))))))).
  cbn [split_on]. rewrite split_on_none by done. done.
Qed.

(** Manifests are stable.  The configuration that the init container of a rendered manifest
    writes, whatever secret and key it draws, has the site's id and ports and renders to the
    same manifest again. *)
Theorem render_idempotent c secret key :
  match build_site_config (init_args c) secret true (Some key) with
  | Ok c' => render_k8s_manifests c' = render_k8s_manifests c ∧ location_id (storage c') = location_id (storage c) ∧
      s3_port c' = s3_port c ∧ internal_port c' = internal_port c
  | Err _ => False
  end.
Proof.
  cbn [build_site_config negb]. set (c' := mkConfig _ _ _).
  assert (location_id (storage c') = location_id (storage c)) as Hs by done.
  assert (s3_port c' = s3_port c) as H1 by apply after_any_address, port_no_colon.
  assert (internal_port c' = internal_port c) as H2 by apply after_any_address, port_no_colon.
  split_and!; [|done..]. clearbody c'.
  assert (init_args c' = init_args c) as Ha by (unfold init_args; by rewrite Hs, H1, H2).
  unfold render_k8s_manifests. by rewrite Hs, H1, H2, Ha.
Qed.
