(* ===== verification/Cli.v ===== *)
(** * The command line (src/main.rs: [Cli], [Command], [InitArgs], [SiteArgs], [main])

    [command_of] fills a [Command] from what the clap crate accepted on the command line, with
    the defaults and required flags the source declares; [main] dispatches it.  What a process
    draws, reads from its environment and is answered by the network is an [Env].  A command
    ends with the text it prints, or goes on as a running node. *)

From stdpp Require Import pretty.
From S2P Require Import Prelude Crates Clock Hashing Chunking Listing Policy Disk Tables Store.
From S2P Require Import FactLog BlockStore GC Replication S3 Sync Noise Internal Sizes Seaweed Config SocketAddr Startup Manifests.

Inductive Command : Type :=
  | Init (config : string) (cluster_secret : option string) (site : SiteArgs)
  | Serve (config : string)
  | Join (peer secret config : string) (site : SiteArgs)
  | Status (config : string)
  | CreateUser (config access_key : string) (secret_key : option string) (preset : string) (bucket : option string)
  | RenderK8s (config : string) (out : option string).

(** ** Arguments *)

(** A subcommand with the flags given, by their long names, and the positional arguments. *)
Record Matches : Type := mkMatches { subcommand : string; flags : gmap string string; positional : list string }.

Definition flag (m : Matches) (name : string) : option string := flags m !! name.
Definition flag_or (m : Matches) (name fallback : string) : string := default fallback (flag m name).
Definition config_flag (m : Matches) : string := flag_or m "config" "config.toml".

Definition site_args (m : Matches) : SiteArgs :=
  mkSiteArgs (flag_or m "location-id" "site-a") (flag_or m "s3-addr" "0.0.0.0:8014")
    (flag_or m "internal-addr" "0.0.0.0:8015") (flag_or m "advertise" "http://localhost:8015")
    (flag_or m "data-dir" ".").

Definition command_of (m : Matches) : option Command :=
  if decide (subcommand m = "init") then Some (Init (config_flag m) (flag m "cluster-secret") (site_args m))
  else if decide (subcommand m = "serve") then Some (Serve (config_flag m))
  else if decide (subcommand m = "join") then
    peer ← head (positional m);
    secret ← flag m "secret";
    Some (Join peer secret (config_flag m) (site_args m))
  else if decide (subcommand m = "status") then Some (Status (config_flag m))
  else if decide (subcommand m = "create-user") then
    access_key ← flag m "access-key";
    Some (CreateUser (config_flag m) access_key (flag m "secret-key") (flag_or m "preset" "readwrite") (flag m "bucket"))
  else if decide (subcommand m = "render-k8s") then Some (RenderK8s (config_flag m) (flag m "out"))
  else None.

(** ** Output *)

Definition init_text (config_path : string) (site : SiteArgs) (admin_password cluster_secret : string) : string :=
  unlines [
    ""; "  Shardscape site '" +:+ a_location_id site +:+ "' initialised."; "";
    "  config:           " +:+ config_path;
    "  data dir:         " +:+ a_data_dir site;
    "  S3 endpoint:      http://" +:+ a_s3_addr site;
    "";
    "  Admin access key: admin";
    "  Admin secret key: " +:+ admin_password;
    "  Cluster secret:   " +:+ cluster_secret;
    "";
    "  Start this node:  shardscape serve --config " +:+ config_path;
    "  Add another site: shardscape join " +:+ a_advertise site +:+ " --secret " +:+ cluster_secret;
    ""].

Definition create_user_text (access_key preset : string) (bucket : option string) (secret : string) : string :=
  unlines [
    ""; "  User '" +:+ access_key +:+ "' created (" +:+ preset +:+ " on " +:+ default "all buckets" bucket +:+ ")."; "";
    "  Access key: " +:+ access_key;
    "  Secret key: " +:+ secret;
    ""].

Section cli.
Context `{!Blake3, !Hex, !UuidCodec, !Json, !IterOrder, !Toml, !BlobStore}.
Context (b64_decode : string → option bytes).

(** What a process meets: random draws, generated keys (for a new site's file and for one
    without a key), the outcome of [create_dir_all], a peer's answer with the round trip, the
    environment variable, the free space, which addresses can be bound, the block backend and
    the time. *)
Record Env : Type := mkEnv {
  drawn_secret : bytes; drawn_password : bytes;
  site_key : option string; boot_key : option string;
  created : bool;
  answer : string → result error (ClusterConfigResponse * Z);
  SS_ADMIN_PASSWORD : option string;
  statvfs_free : option Z;
  binds : list SocketAddr → SocketAddr → bool;
  disk : Blob;
  now : SystemTime;
}.

Inductive Outcome : Type :=
  | Printed (text : string)
  | Serving (config : Config) (backend : Backend).

Definition main (e : Env) (c : Command) : io Machine start_error Outcome :=
  match c with
  | Init config cluster_secret site =>
      let! ' (password, secret) :=
        run_init config cluster_secret site (drawn_secret e) (drawn_password e) (created e) (site_key e) (now e) in
      ret (Printed (init_text config site password secret))
  | Serve config =>
      let! ' (c, b) := run_server b64_decode (binds e) config None None (boot_key e) (SS_ADMIN_PASSWORD e) (statvfs_free e) (disk e) (now e) in
      ret (Serving c b)
  | Join peer secret config site =>
      let! ' (c, b) := run_join b64_decode (binds e) config peer (answer e peer) secret site (created e) (site_key e) (boot_key e)
                         (SS_ADMIN_PASSWORD e) (statvfs_free e) (disk e) (now e) in
      ret (Serving c b)
  | Status config =>
      let! lines := run_status config (statvfs_free e) in
      ret (Printed (unlines lines))
  | CreateUser config access_key secret_key preset bucket =>
      let! secret := run_create_user config access_key secret_key preset bucket (drawn_password e) (now e) in
      ret (Printed (create_user_text access_key preset bucket secret))
  | RenderK8s config out =>
      let! text := run_render_k8s config out (created e) in
      ret (Printed text)
  end.
End cli.

(** ** Properties *)

Section properties.
Context `{!Blake3, !Md5, !Hex, !UuidCodec, !Json, !IterOrder, !Toml, !BlobStore, !ChunkingStrategy}.
Context (b64_decode : string → option bytes) (empty_key : b64_decode "" = Some []).

Lemma main_init_inv e config cluster_secret site w o w1 :
  main b64_decode e (Init config cluster_secret site) w = (Ok o, w1) →
  ∃ pw sec, o = Printed (init_text config site pw sec) ∧
    run_init config cluster_secret site (drawn_secret e) (drawn_password e) (created e) (site_key e) (now e) w = (Ok (pw, sec), w1).
Proof. simpl. intros ([pw sec] & w2 & Hi & [= <- <-])%bind_inv. eauto. Qed.

Lemma main_join_inv e peer secret config site w c b w1 :
  main b64_decode e (Join peer secret config site) w = (Ok (Serving c b), w1) →
  run_join b64_decode (binds e) config peer (answer e peer) secret site (created e) (site_key e) (boot_key e)
    (SS_ADMIN_PASSWORD e) (statvfs_free e) (disk e) (now e) w = (Ok (c, b), w1).
Proof. simpl. intros ([c' b'] & w2 & Hj & [= <- <- <-])%bind_inv. done. Qed.

(** The request of the join handshake, and what a node answers to it at some time of its life. *)
Definition config_request (cluster_secret : string) : Request :=
  mkRequest (Some (as_bytes cluster_secret)) "/internal/cluster/config" None.
Definition answers (c : Config) (info : ClusterConfigResponse) : Prop :=
  ∃ fetch t b b', handle_internal_request fetch (site_config c) t (config_request (secret (server c))) b =
    (Ok (mkResponse OK (ConfigJson info)), b').

Lemma answers_inv c info : answers c info → cr_location_id info = location_id (storage c).
Proof.
  intros (fetch & t & b & b' & Ha). unfold handle_internal_request in Ha.
  destruct (decide _) in Ha; [done|]. rewrite decide_True in Ha by done. by injection Ha as <- _.
Qed.

Lemma node_answers c t b : to_str (as_bytes (secret (server c))) = Some (secret (server c)) →
  answers c (mkConfigResponse (Clock.now_micros (clock (db (node b))) t) (location_id (storage c)) (advertise (server c))).
Proof.
  intros Hs. exists (λ _ _, Err FetchError), t, b, b. unfold handle_internal_request. cbn [secret_header config_request].
  rewrite decide_False; [|intros Hne; by apply Hne]. by rewrite decide_True.
Qed.

(** C39: The commands [init] prints bring up a cluster of sites with different ids.  On a machine
    without such a database, when [init] has succeeded and the addresses it was given are socket
    addresses that can be bound, [serve] with the printed configuration starts the node, with the
    printed administrator authorized for everything.  A [join] with the printed address and
    secret, on whatever other machine and for whatever site it succeeds, when the node it reached
    is this one (what it was answered is what this node answers), gives a node with the same
    secret, hence the same pre-shared key.  That node has this one in its table under its id and
    the printed address, provided its own id is a different one; where it had no configuration
    its id is the one of its flags.  With equal ids, which the flags default to and the printed
    command does not change, it does not ([CliRuns.default_join_forgets_peer]). *)
Theorem quickstart e config cluster_secret site w o w1 e' :
  is_Some (site_key e ≫= decode_private_key b64_decode) →
  dbs w !! path_join (a_data_dir site) "shardscape.db" = None →
  listens (binds e') (a_internal_addr site) (a_s3_addr site) →
  main b64_decode e (Init config cluster_secret site) w = (Ok o, w1) → SS_ADMIN_PASSWORD e' = None →
  ∃ pw sec c b w2, o = Printed (init_text config site pw sec) ∧
    main b64_decode e' (Serve config) w1 = (Ok (Serving c b), w2) ∧
    (∀ action bucket k, authorize (Some "admin") action bucket k b = (Ok tt, b)) ∧
    get_user (db (node b)) "admin" = Ok (Some (pw, admin_policy)) ∧ secret (server c) = sec ∧
    ∀ e2 config2 site2 w3 c2 b2 w4 info rtt,
      answer e2 (a_advertise site) = Ok (info, rtt) → answers c info →
      main b64_decode e2 (Join (a_advertise site) sec config2 site2) w3 = (Ok (Serving c2 b2), w4) →
      derive_psk (secret (server c2)) = derive_psk (secret (server c)) ∧
      (texts (fs w3) !! config2 = None → location_id (storage c2) = a_location_id site2) ∧
      let id := if decide (a_location_id site = "") then a_advertise site else a_location_id site in
      (id ≠ location_id (storage c2) → n_url <$> nodes (db (node b2)) !! id = Some (a_advertise site)).
Proof.
  intros Hkey Hdb Hlis (pw & sec & -> & Hi)%main_init_inv Hpw.
  destruct (init_then_serve b64_decode (binds e') _ _ _ _ _ _ _ _ _ _ _ _ (boot_key e') (statvfs_free e') (disk e') (now e')
    Hkey empty_key Hdb Hlis Hi) as (c & b & w2 & Hs & _ & Hloc & Hsec & Hu & Ha).
  exists pw, sec, c, b, w2. split_and!; [done| |exact Ha|exact Hu|exact Hsec|].
  - simpl. unfold bind. rewrite Hpw, Hs. done.
  - intros e2 config2 site2 w3 c2 b2 w4 info rtt Hans Hinfo%answers_inv Hj%main_join_inv.
    destruct (join_knows_peer b64_decode _ _ _ _ _ _ _ _ _ _ _ _ _ _ _ _ _ Hj)
      as (info' & rtt' & offset & Hans' & _ & Hsec2 & _ & _ & _ & Hn).
    rewrite Hans in Hans'. injection Hans' as <- <-. rewrite Hinfo, Hloc in Hn.
    split; [by rewrite Hsec2, Hsec|]. split; [|exact Hn]. intros Hnew. by eapply join_new_site_id.
Qed.

(** [status] and [render-k8s] without a directory only read. *)
Theorem reports_change_nothing e config w :
  (main b64_decode e (Status config) w).2 = w ∧ (main b64_decode e (RenderK8s config None) w).2 = w.
Proof.
  destruct w as [fs0 dbs0]. unfold main, run_status, run_render_k8s, bind, on_files, load. simpl.
  destruct (texts fs0 !! config) as [content|]; [|done].
  destruct (toml_parse content ≫= config_of_doc); [|done]. by unfold open_db, ret.
Qed.

(** A user made by [create-user] is served.  When the command has printed a secret for a new
    access key, a node started from the same configuration knows the key with that secret and
    the preset's policy. *)
Theorem created_user_served e config access_key secret_key preset bucket w o w1 e' c b w2 :
  noise_private_key (server c) ≠ "" → SS_ADMIN_PASSWORD e' = None →
  load config (fs w) = (Ok c, fs w) → db_path (database c) ≠ ":memory:" →
  (∀ s, dbs w !! db_path (database c) = Some s → users s !! access_key = None) →
  main b64_decode e (CreateUser config access_key secret_key preset bucket) w = (Ok o, w1) →
  main b64_decode e' (Serve config) w1 = (Ok (Serving c b), w2) →
  ∃ secret policy, o = Printed (create_user_text access_key preset bucket secret) ∧
    preset_policy preset bucket = Some policy ∧
    get_user (db (node b)) access_key = Ok (Some (secret, policy)).
Proof.
  intros Hkey Hpw Hl Hmem Hnew Hc Hs. simpl in Hc. apply bind_inv in Hc as (secret & w3 & Hc & [= <- <-]).
  apply bind_inv in Hc as (c0 & w4 & Hload & Hc). unfold on_files in Hload. rewrite Hl in Hload. injection Hload as <- <-.
  apply bind_inv in Hc as (s & w5 & Hopen & Hc). unfold open_db in Hopen. rewrite decide_False in Hopen by done.
  injection Hopen as <- <-. destruct (preset_policy preset bucket) as [policy|]; [|done].
  apply bind_inv in Hc as ([] & w6 & Hcommit & [= <- <-]). unfold commit_db in Hcommit.
  rewrite decide_False in Hcommit by done. injection Hcommit as <-.
  exists (default (random_hex (drawn_password e)) secret_key), policy. split_and!; [done..|].
  simpl in Hs. rewrite Hpw in Hs. apply bind_inv in Hs as ([c' b'] & w7 & Hs & [= -> -> ->]).
  apply run_server_boot in Hs as [Hs _].
  pose proof Hs as (w8 & _ & Hk & _)%boot_node_inv. set (w9 := mkMachine _ _) in Hs.
  pose proof (boot_config_loads config (boot_key e') w9 c Hl Hkey) as Hboot.
  destruct (boot_node_plain b64_decode config (boot_key e') (statvfs_free e') (disk e') (now e') w9 c Hboot Hk)
    as (w10 & Hrun & _). rewrite Hrun in Hs. injection Hs as <- _. cbn [node db].
  unfold booted. rewrite decide_False by done. unfold w9. cbn [dbs]. rewrite lookup_insert_eq. cbn [default].
  unfold get_user, register_node, upsert_node, reopen, create_user, append_fact_tx, put_user_row. simpl.
  rewrite lww_upsert_lookup. destruct (dbs w !! db_path (database c)) as [s|] eqn:Hdb; simpl.
  - rewrite (Hnew s eq_refl). simpl. by rewrite policy_string_roundtrip.
  - rewrite lookup_empty. simpl. by rewrite policy_string_roundtrip.
Qed.
End properties.

(** ** Concrete runs *)

Module CliRuns.
Import StartupRuns.
#[local] Existing Instances Reference.blake3_pad Reference.md5_rev Reference.hex_lower Reference.uuid_text.
#[local] Existing Instances JsonReference.json_tokens order_id LocalBlob.local_blob ConfigReference.toml_tokens.

(** [shardscape init --location-id a ..], its [serve], and a [join] from another machine. *)
Definition env (key : option string) (t : SystemTime) : Env :=
  mkEnv (as_bytes "s") (as_bytes "p") key None true (λ _, answer_a) None None any_bind no_disk t.
Definition init_line : Matches :=
  mkMatches "init" (<["location-id" := "a"]> (<["advertise" := "http://a:8015"]> {["data-dir" := "/data"]})) [].
Definition join_line : Matches :=
  mkMatches "join" (<["secret" := "73"]> (<["config" := "b.toml"]> {["location-id" := "b"]})) ["http://a:8015"].
Definition initialised : result start_error Outcome * Machine :=
  main b64 (env (Some "key") 5000000) (Init "config.toml" None site_a) new_machine.

Example init_line_command : command_of init_line = Some (Init "config.toml" None site_a).
Proof. vm_compute. reflexivity. Qed.
Example join_line_command :
  command_of join_line = Some (Join "http://a:8015" "73" "b.toml"
    (mkSiteArgs "b" "0.0.0.0:8014" "0.0.0.0:8015" "http://localhost:8015" ".")).
Proof. vm_compute. reflexivity. Qed.
(** [join] needs its secret and [create-user] its access key. *)
Example missing_flags :
  command_of (mkMatches "join" ∅ ["http://a:8015"]) = None ∧ command_of (mkMatches "create-user" ∅ []) = None.
Proof. vm_compute. done. Qed.

Lemma initialised_ok : initialised = (Ok (Printed (init_text "config.toml" site_a "70" "73")), initialised.2).
Proof. reflexivity. Qed.

(** What the node that [serve] starts says of itself. *)
Definition identity (r : result start_error Outcome) : option (string * string * string) :=
  match r with
  | Ok (Serving c _) => Some (secret (server c), location_id (storage c), advertise (server c))
  | _ => None
  end.
Lemma served_identity :
  identity (main b64 (env None 6000000) (Serve "config.toml") initialised.2).1 = Some ("73", "a", "http://a:8015").
Proof. vm_compute. reflexivity. Qed.

(** A second site that joins it and hears what it answers. *)
Definition join_env : Env := mkEnv (as_bytes "s") (as_bytes "p") (Some "key2") None true
  (λ _, Ok (mkConfigResponse 7000000 "a" "http://a:8015", 0)) None None any_bind no_disk 7000000.
Definition join_b : Command := Join "http://a:8015" "73" "b.toml" site_b.
Definition joined_b : result start_error Outcome * Machine := main b64 join_env join_b new_machine.
Definition node_of (r : result start_error Outcome) : Config * Backend :=
  match r with Ok (Serving c b) => (c, b) | _ => stopped end.
Definition joined_node : Config * Backend := node_of joined_b.1.

Lemma joined_b_ok : joined_b = (Ok (Serving joined_node.1 joined_node.2), joined_b.2).
Proof.
  assert (match joined_b.1 with Ok (Serving _ _) => true | _ => false end = true) as H by (vm_compute; reflexivity).
  revert H. unfold joined_node, node_of. by destruct joined_b as [[[|c b]|e] w].
Qed.
Lemma served_answers c : identity (Ok (Serving c stopped.2)) = Some ("73", "a", "http://a:8015") →
  answers c (mkConfigResponse 7000000 "a" "http://a:8015").
Proof.
  intros [= Hs Hl Ha]. rewrite <- Hl, <- Ha.
  apply (node_answers c 7000000000 stopped.2). by rewrite Hs.
Qed.

Lemma quickstart_witness :
  ∃ pw sec c b w2, Printed (init_text "config.toml" site_a "70" "73") = Printed (init_text "config.toml" site_a pw sec) ∧
    main b64 (env None 6000000) (Serve "config.toml") initialised.2 = (Ok (Serving c b), w2) ∧
    (∀ action bucket k, authorize (Some "admin") action bucket k b = (Ok tt, b)) ∧
    get_user (db (node b)) "admin" = Ok (Some (pw, admin_policy)) ∧
    main b64 join_env (Join "http://a:8015" sec "b.toml" site_b) new_machine =
      (Ok (Serving joined_node.1 joined_node.2), joined_b.2) ∧
    derive_psk (secret (server joined_node.1)) = derive_psk (secret (server c)) ∧
    n_url <$> nodes (db (node joined_node.2)) !! "a" = Some "http://a:8015".
Proof.
  destruct (quickstart b64 eq_refl (env (Some "key") 5000000) "config.toml" None site_a new_machine
    (Printed (init_text "config.toml" site_a "70" "73")) initialised.2 (env None 6000000))
    as (pw & sec & c & b & w2 & Ho & Hs & Ha & Hu & Hsec & Hj);
    [by eexists|reflexivity|exact site_a_listens|exact initialised_ok|reflexivity|].
  pose proof served_identity as Hid. rewrite Hs in Hid.
  assert (sec = "73") as -> by (rewrite <- Hsec; by injection Hid).
  destruct (Hj join_env "b.toml" site_b new_machine joined_node.1 joined_node.2 joined_b.2
    (mkConfigResponse 7000000 "a" "http://a:8015") 0 eq_refl (served_answers c Hid) joined_b_ok) as (Hpsk & Hid2 & Hn).
  exists pw, "73", c, b, w2. split_and!; [exact Ho|exact Hs|exact Ha|exact Hu|exact joined_b_ok|exact Hpsk|].
  apply Hn. rewrite (Hid2 eq_refl). discriminate.
Defined.

(** The printed [join] command names no site id.  When both sites keep the default, the second
    one takes the answer of the first for its own, records no peer, and so neither pulls from it
    nor fetches blocks of it. *)
Definition default_site : SiteArgs := site_args (mkMatches "init" ∅ []).
Definition default_line : Matches := mkMatches "join" {["secret" := "73"]} ["http://localhost:8015"].
Definition default_env : Env := mkEnv (as_bytes "s") (as_bytes "p") (Some "key") None true
  (λ _, Ok (mkConfigResponse 7000000 "site-a" "http://localhost:8015", 0)) None None any_bind no_disk 7000000.
Theorem default_join_forgets_peer :
  command_of default_line = Some (Join "http://localhost:8015" "73" "config.toml" default_site) ∧
  match (main b64 default_env (Init "config.toml" None default_site) new_machine).1,
        (main b64 default_env (Join "http://localhost:8015" "73" "config.toml" default_site) new_machine).1 with
  | Ok (Printed text), Ok (Serving c b) =>
      text = init_text "config.toml" default_site "70" "73" ∧ location_id (storage c) = "site-a" ∧
      get_peers (db (node b)) = []
  | _, _ => False
  end.
Proof. vm_compute. done. Qed.
End CliRuns.
