(* ===== verification/Cluster.v ===== *)
(** * A cluster of sites

    Any number of sites, each with its store and its fact-sync task (src/main.rs:
    [sync_facts_once]), stepping in any interleaving: a site runs any method of its store,
    fetches a page of a peer's log, applies the facts of the page one by one, advances its
    cursor, or crashes between two of these and restarts from its store.  New sites join at
    any time.  The relation keeps, next to the stores, what each site has logged ([own]) and
    has logged or applied ([seen]). *)

From stdpp Require Import functions.
From S2P Require Import Prelude Crates Clock Hashing Listing Policy Tables Store FactLog Sync.

Section cluster.
Context `{!Blake3, !Hex, !UuidCodec, !Json, !IterOrder}.

Abbreviation stamped := (Z * Fact Value)%type.

(** A site and the page it is applying: the peer, the facts left and [max_seq] so far. *)
Record Site : Type := mkSite {
  st : Store; pulling : option (string * list (FactRecord Value) * Z)
}.

(** What a site does by itself: everything but applying facts and moving cursors. *)
Definition local_op (o : op) : Prop :=
  match o with OpApplyFact _ | OpSetCursor _ _ => False | _ => True end.

Inductive cluster : gmap string Site → (string → list stamped) → (string → list stamped) → Prop :=
  | cluster_empty : cluster ∅ (λ _, []) (λ _, [])
  | cluster_join C own seen i c :
      cluster C own seen → C !! i = None →
      cluster (<[i := mkSite (empty_store i c) None]> C) own seen
  | cluster_local C own seen i s p t o :
      cluster C own seen → C !! i = Some (mkSite s p) → local_op o →
      cluster (<[i := mkSite (run_op s t o) p]> C)
              (<[i := own i ++ logs s t o]> own) (<[i := seen i ++ logs s t o]> seen)
  | cluster_fetch C own seen i s j sj facts :
      cluster C own seen → C !! i = Some (mkSite s None) → C !! j = Some sj → i ≠ j →
      facts_since (st sj) (get_cursor s j) FACT_SYNC_BATCH = Ok facts →
      cluster (<[i := mkSite s (Some (j, facts, get_cursor s j))]> C) own seen
  | cluster_apply C own seen i s j f facts m t s' m' :
      cluster C own seen → C !! i = Some (mkSite s (Some (j, f :: facts, m))) →
      apply_step t (s, m) f = (s', m') →
      cluster (<[i := mkSite s' (Some (j, facts, m'))]> C) own (<[i := seen i ++ [(ts f, fact f)]]> seen)
  | cluster_commit C own seen i s j m :
      cluster C own seen → C !! i = Some (mkSite s (Some (j, [], m))) →
      cluster (<[i := mkSite (set_cursor s j m) None]> C) own seen
  | cluster_crash C own seen i s p :
      cluster C own seen → C !! i = Some (mkSite s p) →
      cluster (<[i := mkSite s None]> C) own seen.

(** ** The invariant *)

(** What a site may rely on about a peer's log: everything before its cursor it has seen, and
    the page it is applying continues what it has seen. *)
Definition cursor_ok (own : string → list stamped) (seen : list stamped) (s : Store) (j : string) : Prop :=
  ∃ c, get_cursor s j = Z.of_nat c ∧ (c ≤ length (own j))%nat ∧ ∀ x, x ∈ take c (own j) → x ∈ seen.

Definition pull_ok (own : string → list stamped) (seen : list stamped) (s : Store)
    (p : option (string * list (FactRecord Value) * Z)) : Prop :=
  match p with
  | None => True
  | Some (j, facts, m) =>
      ∃ k l, m = Z.of_nat k ∧ get_cursor s j ≤ m ∧ (k ≤ length (own j))%nat ∧
        facts = records_from (m + 1) l ∧ l `prefix_of` drop k (own j) ∧
        ∀ x, x ∈ take k (own j) → x ∈ seen
  end.

Record cluster_inv (C : gmap string Site) (own seen : string → list stamped) : Prop := {
  inv_site i s : C !! i = Some s → site (st s) (own i) (seen i);
  inv_absent i : C !! i = None → own i = [] ∧ seen i = [];
  inv_sound i x : x ∈ seen i → ∃ k, x ∈ own k;
  inv_cursor i s j : C !! i = Some s → cursor_ok own (seen i) (st s) j;
  inv_pull i s : C !! i = Some s → pull_ok own (seen i) (st s) (pulling s);
}.

(** Logs and seen facts only grow, which keeps what was relied upon. *)
Definition grows (l l' : list stamped) : Prop := ∃ k, l' = l ++ k.

Lemma cursor_ok_mono own own' seen seen' s s' j :
  cursor_ok own seen s j → get_cursor s' j = get_cursor s j → grows (own j) (own' j) →
  (∀ x, x ∈ seen → x ∈ seen') → cursor_ok own' seen' s' j.
Proof.
  intros (c & Hc & Hl & Hs) Heq [k Hk] Hsub. exists c. rewrite Hk, length_app, take_app_le by done.
  split_and!; [congruence|lia|auto].
Qed.

Lemma pull_ok_mono own own' seen seen' s s' p :
  pull_ok own seen s p → (∀ j, get_cursor s' j = get_cursor s j) → (∀ j, grows (own j) (own' j)) →
  (∀ x, x ∈ seen → x ∈ seen') → pull_ok own' seen' s' p.
Proof.
  destruct p as [[[j facts] m]|]; [|done]. intros (k & l & -> & Hc & Hl & Hf & [z Hz] & Hs) Heq Hg Hsub.
  destruct (Hg j) as [y Hy]. exists k, l. rewrite Hy, length_app, take_app_le, drop_app_le, Heq by done.
  split_and!; [done..|lia|done| |auto]. exists (z ++ y). by rewrite Hz, app_assoc.
Qed.

Lemma grows_refl l : grows l l.
Proof. exists []. by rewrite app_nil_r. Qed.

Lemma local_cursors s t o j : local_op o → get_cursor (run_op s t o) j = get_cursor s j.
Proof.
  unfold get_cursor. intros Ho. destruct o; try done; simpl.
  - unfold add_pending_deletion. by destruct (_ <? _).
  - unfold delete_local_block. simpl. by destruct (decide _).
  - unfold record_peer. by destruct (decide _).
Qed.

Lemma local_sees s t o : local_op o → sees s t o = logs s t o.
Proof. by destruct o. Qed.

(** One entry of a family of lists is extended. *)
Definition extended (i : string) (l : list stamped) (f f' : string → list stamped) : Prop :=
  f' i = f i ++ l ∧ ∀ j, i ≠ j → f' j = f j.

Lemma extended_insert i l f : extended i l f (<[i := f i ++ l]> f).
Proof. split; [by rewrite fn_lookup_insert|]. intros j Hj. by rewrite fn_lookup_insert_ne. Qed.

Lemma extended_nil i f : extended i [] f f.
Proof. split; [by rewrite app_nil_r|done]. Qed.

Lemma extended_grows i l f f' j : extended i l f f' → grows (f j) (f' j).
Proof.
  intros [Hi Hne]. destruct (decide (i = j)) as [<-|Hj]; [by exists l|]. rewrite Hne by done. apply grows_refl.
Qed.

Lemma grows_elem l l' x : grows l l' → x ∈ l → x ∈ l'.
Proof. intros [k ->] Hx. apply elem_of_app. by left. Qed.

(** The invariant when only site [i] changes, its log and what it has seen growing. *)
Lemma inv_update C own seen own' seen' i s s' l l' :
  cluster_inv C own seen → C !! i = Some s →
  extended i l own own' → extended i l' seen seen' →
  site (st s') (own' i) (seen' i) →
  (∀ x, x ∈ l' → x ∈ l ∨ ∃ k, x ∈ own k) →
  (∀ j, cursor_ok own' (seen' i) (st s') j) → pull_ok own' (seen' i) (st s') (pulling s') →
  cluster_inv (<[i := s']> C) own' seen'.
Proof.
  intros [Hsite Habs Hsound Hcur Hpull] Hi Hown Hseen Hs' Hl' Hc' Hp'.
  assert (∀ j, grows (own j) (own' j)) as Hg by (intros; by eapply extended_grows).
  destruct Hown as [Howni Hown], Hseen as [Hseeni Hseen]. split.
  - intros j sj [[<- <-]|[Hne Hj]]%lookup_insert_Some; [done|]. rewrite Hown, Hseen by done. by apply Hsite.
  - intros j [Hj Hne]%lookup_insert_None. rewrite Hown, Hseen by done. by apply Habs.
  - intros j x Hx. assert (x ∈ l ∨ ∃ k, x ∈ own k) as [Hl|[k Hk]].
    { destruct (decide (i = j)) as [<-|Hne]; [|rewrite Hseen in Hx by done; eauto].
      rewrite Hseeni in Hx. apply elem_of_app in Hx as [Hx|Hx]; eauto. }
    + exists i. rewrite Howni. apply elem_of_app. by right.
    + exists k. by apply (grows_elem (own k)).
  - intros j sj k [[<- <-]|[Hne Hj]]%lookup_insert_Some; [done|]. rewrite Hseen by done.
    eapply cursor_ok_mono; [by apply Hcur|done..].
  - intros j sj [[<- <-]|[Hne Hj]]%lookup_insert_Some; [done|]. rewrite Hseen by done.
    eapply pull_ok_mono; [by apply Hpull|done..].
Qed.

Lemma get_cursor_set s j m k :
  get_cursor s j ≤ m →
  get_cursor (set_cursor s j m) k = if decide (k = j) then m else get_cursor s k.
Proof.
  intros Hm. unfold get_cursor, set_cursor in *. simpl. destruct (decide (k = j)) as [->|Hne].
  - rewrite lww_upsert_lookup. unfold lww_join. destruct (replication_cursors s !! j) as [c|]; simpl in *; [|done].
    unfold id. destruct (Z.ltb_spec c m); simpl; lia.
  - by rewrite lww_upsert_lookup_ne by congruence.
Qed.

(** The facts of a page are facts of the peer's log, which its own store accepted. *)
Lemma page_step s t (own : string → list stamped) j k (x : stamped) l z :
  drop k (own j) = (x :: l) ++ z → Forall (λ x, applicable x.2) (own j) →
  ∃ s', apply_step t (s, Z.of_nat k) (mkRecord (Z.of_nat k + 1) x.1 x.2) = (s', Z.of_nat (S k)) ∧
    s' = run_op s t (OpApplyFact (mkRecord (Z.of_nat k + 1) x.1 x.2)) ∧
    (∀ i, get_cursor s' i = get_cursor s i) ∧
    drop (S k) (own j) = l ++ z ∧ take (S k) (own j) = take k (own j) ++ [x].
Proof.
  intros Hd Happ. simpl in Hd.
  assert (own j !! k = Some x) as Hk by (by rewrite <- (Nat.add_0_r k), <- lookup_drop, Hd).
  assert (applicable x.2) as Hx.
  { apply (proj1 (Forall_lookup _ _) Happ) in Hk. done. }
  destruct (proj1 (apply_applicable s t (mkRecord (Z.of_nat k + 1) x.1 x.2)) Hx) as [s' Hs].
  exists s'. unfold apply_step. rewrite Hs. cbn [seq run_op]. rewrite Hs. split_and!.
  - f_equal. lia.
  - done.
  - intros i. unfold get_cursor. by rewrite (apply_cursors _ _ _ _ Hs).
  - replace (S k) with (k + 1)%nat by lia. rewrite <- drop_drop, Hd. done.
  - by apply take_S_r.
Qed.

Lemma site_facts_page s own seen c :
  site s own seen → (c ≤ length own)%nat →
  ∃ l, facts_since s (Z.of_nat c) FACT_SYNC_BATCH = Ok (records_from (Z.of_nat c + 1) l) ∧
    l `prefix_of` drop c own ∧ (l = [] → c = length own).
Proof.
  intros Hs Hc. eexists. split.
  { rewrite (site_facts_since s own seen) by (done || unfold FACT_SYNC_BATCH; lia). rewrite Nat2Z.id. reflexivity. }
  split; [apply prefix_take|]. intros Hn. apply (f_equal length) in Hn.
  rewrite length_take, length_drop in Hn. unfold FACT_SYNC_BATCH in Hn. cbn [length] in Hn. lia.
Qed.

Lemma records_from_nil n l : records_from n l = [] → l = [].
Proof. by destruct l. Qed.

(** One lemma per rule. *)
Lemma inv_join C own seen i c :
  cluster_inv C own seen → C !! i = None →
  cluster_inv (<[i := mkSite (empty_store i c) None]> C) own seen.
Proof.
  intros IH Hi. destruct (inv_absent _ _ _ IH i Hi) as [Ho Hs]. split.
  - intros j sj [[<- <-]|[_ Hj]]%lookup_insert_Some; [rewrite Ho, Hs; constructor|by apply IH].
  - intros j [Hj _]%lookup_insert_None. by apply IH.
  - apply IH.
  - intros j sj k [[<- <-]|[_ Hj]]%lookup_insert_Some; [|by apply IH].
    exists 0%nat. split_and!; [done|lia|]. intros x Hx. by apply elem_of_nil in Hx.
  - intros j sj [[<- <-]|[_ Hj]]%lookup_insert_Some; [done|by apply IH].
Qed.

Lemma inv_local C own seen i s p t o :
  cluster_inv C own seen → C !! i = Some (mkSite s p) → local_op o →
  cluster_inv (<[i := mkSite (run_op s t o) p]> C)
    (<[i := own i ++ logs s t o]> own) (<[i := seen i ++ logs s t o]> seen).
Proof.
  intros IH Hi Ho. pose proof (inv_site _ _ _ IH i _ Hi) as Hs.
  pose proof (extended_insert i (logs s t o) own) as He.
  eapply inv_update; [exact IH|exact Hi|exact He|apply extended_insert|..]; simpl.
  - rewrite !fn_lookup_insert. rewrite <- (local_sees s t o Ho) at 2. by constructor.
  - by left.
  - intros j. eapply cursor_ok_mono; [by apply (inv_cursor _ _ _ IH i _ j Hi)|by apply local_cursors
      |by eapply extended_grows|]. rewrite fn_lookup_insert. intros x Hx. apply elem_of_app. by left.
  - eapply pull_ok_mono; [by apply (inv_pull _ _ _ IH i _ Hi)|intros; by apply local_cursors
      |intros; by eapply extended_grows|]. rewrite fn_lookup_insert. intros x Hx. apply elem_of_app. by left.
Qed.

(** Neither the logs nor what was seen change. *)
Lemma inv_silent C own seen i s s' :
  cluster_inv C own seen → C !! i = Some s → site (st s') (own i) (seen i) →
  (∀ j, cursor_ok own (seen i) (st s') j) → pull_ok own (seen i) (st s') (pulling s') →
  cluster_inv (<[i := s']> C) own seen.
Proof.
  intros IH Hi Hs Hc Hp.
  eapply inv_update; [exact IH|exact Hi|apply extended_nil|apply extended_nil|done| |done..].
  intros x Hx. by apply elem_of_nil in Hx.
Qed.

Lemma inv_fetch C own seen i s j sj facts :
  cluster_inv C own seen → C !! i = Some (mkSite s None) → C !! j = Some sj →
  facts_since (st sj) (get_cursor s j) FACT_SYNC_BATCH = Ok facts →
  cluster_inv (<[i := mkSite s (Some (j, facts, get_cursor s j))]> C) own seen.
Proof.
  intros IH Hi Hj Hf. destruct (inv_cursor _ _ _ IH i _ j Hi) as (c & Hc & Hl & Hs).
  apply (inv_silent _ _ _ _ _ _ IH Hi); simpl.
  - by apply (inv_site _ _ _ IH i _ Hi).
  - intros k. by apply (inv_cursor _ _ _ IH i _ k Hi).
  - destruct (site_facts_page (st sj) (own j) (seen j) c) as (l & Hp & Hpre & _); [by apply IH|done|].
    simpl in Hc. rewrite Hc in Hf |- *. rewrite Hf in Hp. injection Hp as ->.
    exists c, l. split_and!; [done|lia|done..].
Qed.

Lemma inv_applicable C own seen j : cluster_inv C own seen → Forall (λ x, applicable x.2) (own j).
Proof.
  intros IH. destruct (C !! j) as [sj|] eqn:Hj; [|by rewrite (proj1 (inv_absent _ _ _ IH j Hj))].
  by eapply site_applicable, (inv_site _ _ _ IH j).
Qed.

Lemma inv_apply C own seen i s j f facts m t s' m' :
  cluster_inv C own seen → C !! i = Some (mkSite s (Some (j, f :: facts, m))) →
  apply_step t (s, m) f = (s', m') →
  cluster_inv (<[i := mkSite s' (Some (j, facts, m'))]> C) own (<[i := seen i ++ [(ts f, fact f)]]> seen).
Proof.
  intros IH Hi Ha. destruct (inv_pull _ _ _ IH i _ Hi) as (k & l & -> & Hc & Hl & Hf & [z Hz] & Hs).
  destruct l as [|x l]; [done|]. injection Hf as -> ->. simpl in Hc.
  destruct (page_step s t own j k x l z Hz (inv_applicable _ _ _ _ IH)) as (s1 & Ha1 & Hr & Hcur & Hd & Htk).
  rewrite Ha1 in Ha. injection Ha as <- <-. cbn [ts fact].
  assert (k < length (own j))%nat as Hk.
  { apply (f_equal length) in Hz. rewrite length_drop in Hz. simpl in Hz. lia. }
  assert (x ∈ own j) as Hx by (rewrite <- (take_drop k (own j)), Hz; apply elem_of_app; right; by left).
  eapply inv_update; [exact IH|exact Hi|apply extended_nil|apply extended_insert|..]; simpl.
  - rewrite fn_lookup_insert, Hr. pose proof (inv_site _ _ _ IH i _ Hi) as Hsi.
    apply (site_run _ _ _ t (OpApplyFact (mkRecord (Z.of_nat k + 1) x.1 x.2))) in Hsi.
    cbn [logs sees ts fact] in Hsi. by rewrite app_nil_r in Hsi.
  - intros y Hy%list_elem_of_singleton. right. exists j. by destruct x; subst y.
  - intros j'. rewrite fn_lookup_insert. eapply cursor_ok_mono; [by apply (inv_cursor _ _ _ IH i _ j' Hi)
      |by rewrite Hcur|apply grows_refl|]. intros y Hy. apply elem_of_app. by left.
  - exists (S k), l. rewrite fn_lookup_insert, Hcur, Hd, Htk. split_and!; [done|lia|done| |by exists z|].
    + f_equal. lia.
    + intros y [Hy|Hy]%elem_of_app; apply elem_of_app; [left; by apply Hs|right]. by destruct x.
Qed.

Lemma inv_commit C own seen i s j m :
  cluster_inv C own seen → C !! i = Some (mkSite s (Some (j, [], m))) →
  cluster_inv (<[i := mkSite (set_cursor s j m) None]> C) own seen.
Proof.
  intros IH Hi. destruct (inv_pull _ _ _ IH i _ Hi) as (k & l & -> & Hc & Hl & Hf & Hz & Hs).
  apply (inv_silent _ _ _ _ _ _ IH Hi); simpl; [| |done].
  - pose proof (inv_site _ _ _ IH i _ Hi) as Hsi.
    apply (site_run _ _ _ 0 (OpSetCursor j (Z.of_nat k))) in Hsi. cbn [logs sees] in Hsi.
    by rewrite !app_nil_r in Hsi.
  - intros j'. destruct (inv_cursor _ _ _ IH i _ j' Hi) as (c & Hc' & Hl' & Hs').
    unfold cursor_ok. rewrite get_cursor_set by done.
    destruct (decide (j' = j)) as [->|]; [by exists k|by exists c].
Qed.

Lemma cluster_holds C own seen : cluster C own seen → cluster_inv C own seen.
Proof.
  induction 1.
  - by split.
  - by apply inv_join.
  - by apply inv_local.
  - by eapply inv_fetch.
  - by eapply inv_apply.
  - by apply inv_commit.
  - rename select (cluster_inv _ _ _) into IH. rename select (_ !! _ = _) into Hi.
    apply (inv_silent _ _ _ _ _ _ IH Hi); [by apply (inv_site _ _ _ IH _ _ Hi)| |done].
    intros j. by apply (inv_cursor _ _ _ IH _ _ j Hi).
Qed.

(** ** Caught up *)

(** Site [i] has nothing left to pull from site [j]: the peer answers with no facts. *)
Definition caught_up (C : gmap string Site) (i j : string) : Prop :=
  ∀ si sj, C !! i = Some si → C !! j = Some sj →
    facts_since (st sj) (get_cursor (st si) j) FACT_SYNC_BATCH = Ok [].

Definition agree (s1 s2 : Store) : Prop :=
  objects s1 = objects s2 ∧
  (∀ bucket key, get_object s1 bucket key = get_object s2 bucket key) ∧
  (∀ bucket after prefix n, list_objects s1 bucket after prefix n = list_objects s2 bucket after prefix n) ∧
  (∀ access_key, get_user s1 access_key = get_user s2 access_key).

(** No two facts logged anywhere write one register at the same microsecond. *)
Definition no_ties (own : string → list stamped) : Prop :=
  ∀ i j x y, x ∈ own i → y ∈ own j → x.1 = y.1 → register x.2 = register y.2 →
    is_Some (register x.2) → x = y.

Lemma caught_up_cursor C own seen i j si sj :
  cluster_inv C own seen → C !! i = Some si → C !! j = Some sj →
  caught_up C i j ↔ get_cursor (st si) j = Z.of_nat (length (own j)).
Proof.
  intros IH Hi Hj. destruct (inv_cursor _ _ _ IH i _ j Hi) as (c & Hc & Hl & _).
  destruct (site_facts_page (st sj) (own j) (seen j) c) as (l & Hp & Hpre & Hn); [by apply IH|done|].
  rewrite <- Hc in Hp. split.
  - intros Hu. rewrite (Hu _ _ Hi Hj) in Hp. injection Hp as Hp. symmetry in Hp.
    rewrite Hc. f_equal. by eapply Hn, records_from_nil.
  - intros Hlen si' sj' Hi' Hj'. simplify_eq. rewrite Hp. f_equal.
    assert (c = length (own j)) as -> by lia. rewrite drop_all in Hpre.
    by apply prefix_nil_inv in Hpre as ->.
Qed.

(** A site that is caught up with a peer has seen the peer's whole log. *)
Lemma caught_up_seen C own seen i j si sj x :
  cluster_inv C own seen → C !! i = Some si → C !! j = Some sj → i = j ∨ caught_up C i j →
  x ∈ own j → x ∈ seen i.
Proof.
  intros IH Hi Hj [<-|Hu] Hx; [by eapply site_own_seen; [by apply IH|]|].
  apply (caught_up_cursor _ _ _ _ _ _ _ IH Hi Hj) in Hu.
  destruct (inv_cursor _ _ _ IH i _ j Hi) as (c & Hc & Hl & Hs). apply Hs.
  assert (c = length (own j)) as -> by lia. by rewrite firstn_all.
Qed.

Lemma own_present C own seen i x : cluster_inv C own seen → x ∈ own i → ∃ s, C !! i = Some s.
Proof.
  intros IH Hx. destruct (C !! i) as [s|] eqn:Hi; [by exists s|].
  destruct (inv_absent _ _ _ IH i Hi) as [Ho _]. rewrite Ho in Hx. by apply elem_of_nil in Hx.
Qed.

Lemma caught_up_agree C own seen :
  cluster_inv C own seen → no_ties own → (∀ i j, i ≠ j → caught_up C i j) →
  ∀ i j si sj, C !! i = Some si → C !! j = Some sj → agree (st si) (st sj).
Proof.
  intros IH Hties Hu i j si sj Hi Hj.
  assert (∀ i s x, C !! i = Some s → x ∈ seen i ↔ ∃ k, x ∈ own k) as Hall.
  { intros k s x Hk. split; [by apply IH|]. intros [k' Hx]. destruct (own_present _ _ _ _ _ IH Hx) as [s' Hs'].
    eapply (caught_up_seen C own seen k k'); [done..| |done]. destruct (decide (k = k')); auto. }
  eapply sites_agree; [by apply IH|by apply IH| |].
  - intros x. by rewrite (Hall i si x Hi), (Hall j sj x Hj).
  - intros x y Hx Hy. apply (Hall i si x Hi) in Hx as [k Hx]. apply (Hall i si y Hi) in Hy as [k' Hy].
    by eapply Hties.
Qed.

(** ** Pull rounds *)

(** Applying a whole page is a sequence of steps of the cluster. *)
Lemma cluster_page i j t facts : ∀ C own seen s m s' m',
  cluster C own seen → C !! i = Some (mkSite s (Some (j, facts, m))) →
  foldl (apply_step t) (s, m) facts = (s', m') →
  ∃ seen', cluster (<[i := mkSite s' (Some (j, [], m'))]> C) own seen'.
Proof.
  induction facts as [|f facts IH]; intros C own seen s m s' m' HC Hi Hf.
  { simplify_eq/=. exists seen. by rewrite insert_id. }
  cbn [foldl] in Hf. destruct (apply_step t (s, m) f) as [s1 m1] eqn:Ha.
  destruct (IH _ _ _ s1 m1 s' m' (cluster_apply _ _ _ _ _ _ _ _ _ _ _ _ HC Hi Ha)) as [seen' Hs'];
    [by rewrite lookup_insert_eq|done|]. exists seen'. by rewrite insert_insert_eq in Hs'.
Qed.

(** So is a whole pull, and one cut short by an unreachable peer. *)
Lemma cluster_sync_peer i j sj t url fuel : i ≠ j → ∀ C own seen s s',
  cluster C own seen → C !! i = Some (mkSite s None) → C !! j = Some sj →
  sync_peer (serves (st sj)) fuel t j url s = Some s' →
  ∃ seen', cluster (<[i := mkSite s' None]> C) own seen'.
Proof.
  intros Hij. induction fuel as [|fuel IH]; intros C own seen s s' HC Hi Hj Hs; [done|].
  cbn [sync_peer] in Hs. unfold serves at 1 in Hs.
  destruct (facts_since _ _ _) as [facts|e] eqn:Hf; [|simplify_eq; exists seen; by rewrite insert_id].
  destruct facts as [|f facts]; [simplify_eq; exists seen; by rewrite insert_id|].
  destruct (foldl (apply_step t) _ _) as [s1 m] eqn:Hfold.
  pose proof (cluster_fetch _ _ _ _ _ _ _ _ HC Hi Hj Hij Hf) as HC1.
  destruct (cluster_page i j t (f :: facts) _ _ _ s (get_cursor s j) s1 m HC1) as [seen1 HC2];
    [by rewrite lookup_insert_eq|done|]. rewrite insert_insert_eq in HC2.
  apply (cluster_commit _ _ _ i s1 j m) in HC2 as HC3; [|by rewrite lookup_insert_eq].
  rewrite insert_insert_eq in HC3.
  destruct (_ <? _) in Hs; [simplify_eq; by exists seen1|].
  destruct (IH _ _ _ (set_cursor s1 j m) s' HC3) as [seen' Hs'];
    [by rewrite lookup_insert_eq|by rewrite lookup_insert_ne|done|].
  exists seen'. by rewrite insert_insert_eq in Hs'.
Qed.

Lemma apply_page_cursors t facts : ∀ s m s' m',
  foldl (apply_step t) (s, m) facts = (s', m') → replication_cursors s' = replication_cursors s.
Proof.
  induction facts as [|f facts IH]; intros s m s' m' Hf; [by simplify_eq/=|].
  cbn [foldl] in Hf. unfold apply_step at 2 in Hf. destruct (apply_fact s t f) as [s1|] eqn:Ha.
  - rewrite (IH _ _ _ _ Hf). by eapply apply_cursors.
  - by eapply IH.
Qed.

(** A pull moves no other cursor. *)
Lemma sync_peer_other answers fuel t j url k : j ≠ k → ∀ s s',
  sync_peer answers fuel t j url s = Some s' → get_cursor s' k = get_cursor s k.
Proof.
  intros Hne. induction fuel as [|fuel IH]; intros s s' Hs; [done|]. cbn [sync_peer] in Hs.
  destruct (answers _ _) as [[|f facts]|]; [by simplify_eq| |by simplify_eq].
  destruct (foldl (apply_step t) _ _) as [s1 m] eqn:Hfold.
  assert (get_cursor (set_cursor s1 j m) k = get_cursor s k) as <-.
  { unfold get_cursor, set_cursor. simpl. rewrite lww_upsert_lookup_ne by done.
    by rewrite (apply_page_cursors _ _ _ _ _ _ Hfold). }
  destruct (_ <? _) in Hs; [by simplify_eq|by apply IH].
Qed.

(** Idle sites pull from each other in the given order; [None] when a pull has not ended
    within the fuel or a site is unknown. *)
Definition pull (fuel : nat) (t : SystemTime) (C : gmap string Site) (i j : string) : option (gmap string Site) :=
  si ← C !! i; sj ← C !! j;
  s' ← sync_peer (serves (st sj)) fuel t j "" (st si);
  Some (<[i := mkSite s' None]> C).

Definition pulls (fuel : nat) (t : SystemTime) (C : gmap string Site) (ps : list (string * string)) :
    option (gmap string Site) :=
  foldl (λ C p, C' ← C; pull fuel t C' p.1 p.2) (Some C) ps.

Definition idle (C : gmap string Site) : Prop := ∀ i s, C !! i = Some s → pulling s = None.

(** One pull among idle sites: it ends, it is a run of the cluster, it catches up with its
    peer and undoes no other. *)
Lemma pull_one C own seen i j si sj fuel t :
  cluster C own seen → idle C → i ≠ j → C !! i = Some si → C !! j = Some sj →
  (length (own j) < fuel * Z.to_nat FACT_SYNC_BATCH)%nat →
  ∃ C' seen', pull fuel t C i j = Some C' ∧ cluster C' own seen' ∧ idle C' ∧ dom C' = dom C ∧
    caught_up C' i j ∧ ∀ k l, k ≠ l → caught_up C k l → caught_up C' k l.
Proof.
  intros HC Hidle Hij Hi Hj Hfuel. pose proof (cluster_holds _ _ _ HC) as IH.
  destruct (inv_cursor _ _ _ IH i _ j Hi) as (c & Hc & Hl & _).
  destruct (sync_peer_pulls (st sj) (own j) (seen j) t j "" (serves (st sj)) (inv_site _ _ _ IH _ _ Hj)
    (λ _ _, eq_refl) fuel (st si) (own i) (seen i) c (inv_site _ _ _ IH _ _ Hi) Hc Hl) as (s' & Hs & _ & Hc'); [lia|].
  assert (C !! i = Some (mkSite (st si) None)) as Hi'.
  { rewrite Hi. destruct si as [s p]. specialize (Hidle _ _ Hi). simpl in Hidle. by subst p. }
  destruct (cluster_sync_peer i j sj t "" fuel Hij C own seen _ s' HC Hi' Hj Hs) as [seen' HC'].
  pose proof (cluster_holds _ _ _ HC') as IH'.
  exists (<[i := mkSite s' None]> C), seen'. unfold pull. rewrite Hi, Hj. cbn. rewrite Hs. cbn.
  split_and!; [done|done| | | |].
  - intros k sk [[<- <-]|[_ Hk]]%lookup_insert_Some; [done|by eapply Hidle].
  - apply dom_insert_lookup_L. eauto.
  - eapply (caught_up_cursor _ _ _ i j _ _ IH'); [by rewrite lookup_insert_eq|by rewrite lookup_insert_ne|done].
  - intros k l Hkl Hu sk sl Hk Hsl.
    assert (∃ sl0, C !! l = Some sl0) as [sl0 Hl0].
    { apply lookup_insert_Some in Hsl as [[<- _]|[_ ?]]; eauto. }
    refine (proj2 (caught_up_cursor _ _ _ k l _ _ IH' Hk Hsl) _ sk sl Hk Hsl). clear Hsl sl.
    apply lookup_insert_Some in Hk as [[<- <-]|[Hne Hk]].
    + eapply (caught_up_cursor _ _ _ i l _ _ IH) in Hu; [|done..].
      destruct (decide (j = l)) as [<-|Hjl]; [done|]. simpl. by rewrite (sync_peer_other _ _ _ _ _ l Hjl _ _ Hs).
    + by eapply (caught_up_cursor _ _ _ k l _ _ IH) in Hu.
Qed.

Lemma pulls_all ps : ∀ C own seen fuel t,
  cluster C own seen → idle C →
  Forall (λ p, p.1 ≠ p.2 ∧ p.1 ∈ dom C ∧ p.2 ∈ dom C) ps →
  (∀ i, (length (own i) < fuel * Z.to_nat FACT_SYNC_BATCH)%nat) →
  ∃ C' seen', pulls fuel t C ps = Some C' ∧ cluster C' own seen' ∧ idle C' ∧ dom C' = dom C ∧
    (∀ i j, (i, j) ∈ ps → caught_up C' i j) ∧ ∀ k l, k ≠ l → caught_up C k l → caught_up C' k l.
Proof.
  induction ps as [|[i j] ps IH]; intros C own seen fuel t HC Hidle Hps Hfuel.
  { exists C, seen. split_and!; try done. by intros i j ?%elem_of_nil. }
  apply Forall_cons in Hps as [(Hij & [si Hi]%elem_of_dom & [sj Hj]%elem_of_dom) Hps].
  destruct (pull_one C own seen i j si sj fuel t) as (C1 & seen1 & Hp & HC1 & Hidle1 & Hdom & Hc & Hkeep); [done..|].
  destruct (IH C1 own seen1 fuel t) as (C' & seen' & Hps' & HC' & Hidle' & Hdom' & Hall & Hkeep'); [done|done|by rewrite Hdom|done|].
  exists C', seen'. split_and!; [|done|done|congruence| |by auto].
  - unfold pulls. cbn [foldl mbind option_bind fst snd]. by rewrite Hp.
  - intros i' j' [Heq|Hin]%elem_of_cons; [simplify_eq; by apply Hkeep'|by apply Hall].
Qed.

(** A cluster at rest agrees.  In every reachable state of a cluster, however its sites'
    operations, pulls, joins and crashes interleaved, if every peer answers every other site
    with no further facts, all sites hold the same object table and answer every object read,
    listing and user lookup alike, as long as no two facts wrote one register at the same
    microsecond. *)
Theorem cluster_converges C own seen i j si sj :
  cluster C own seen → no_ties own → (∀ i j, i ≠ j → caught_up C i j) →
  C !! i = Some si → C !! j = Some sj → agree (st si) (st sj).
Proof. intros HC%cluster_holds Ht Hu. by apply (caught_up_agree C own seen). Qed.

(** One round of pulls is enough.  From every reachable state of a cluster whose sites are
    between two pulls, let each site pull once from each other site, in any order: every pull
    ends, and afterwards all sites agree. *)
Theorem cluster_round_converges C own seen ps fuel t :
  cluster C own seen → idle C → no_ties own →
  (∀ i j, (i, j) ∈ ps ↔ i ≠ j ∧ i ∈ dom C ∧ j ∈ dom C) →
  (∀ i, (length (own i) < fuel * Z.to_nat FACT_SYNC_BATCH)%nat) →
  ∃ C', pulls fuel t C ps = Some C' ∧ dom C' = dom C ∧
    ∀ i j si sj, C' !! i = Some si → C' !! j = Some sj → agree (st si) (st sj).
Proof.
  intros HC Hidle Ht Hps Hfuel.
  destruct (pulls_all ps C own seen fuel t) as (C' & seen' & Hp & HC' & _ & Hdom & Hall & _); [done..| |done|].
  { apply Forall_forall. intros [i j] Hij. by apply Hps. }
  exists C'. split_and!; [done|done|]. apply (caught_up_agree C' own seen' (cluster_holds _ _ _ HC') Ht).
  intros i j Hij si sj Hi Hj. eapply Hall; [|done..].
  apply Hps. split_and!; [done|rewrite <- Hdom..]; apply elem_of_dom; eauto.
Qed.

(** C24: nothing is missed or made up.  In every reachable state, a site has seen every fact of
    a peer's log up to its cursor for the peer, whatever was interrupted, and every fact it
    has seen was logged by some site. *)
Theorem cluster_sound C own seen i si :
  cluster C own seen → C !! i = Some si →
  (∀ j, ∃ c, get_cursor (st si) j = Z.of_nat c ∧ (c ≤ length (own j))%nat ∧
     ∀ x, x ∈ take c (own j) → x ∈ seen i) ∧
  ∀ x, x ∈ seen i → ∃ k, x ∈ own k.
Proof.
  intros HC%cluster_holds Hi. split; [|by apply HC]. intros j. by apply (inv_cursor _ _ _ HC _ _ j Hi).
Qed.
End cluster.

(** ** Concrete runs *)

Module ClusterRuns.
#[local] Existing Instances Reference.blake3_pad Reference.hex_lower Reference.uuid_text.
#[local] Existing Instances JsonReference.json_tokens order_id.

(** Two sites join and each logs a put. *)
Definition new_a : Store := empty_store "a" (Clock.new 0).
Definition new_b : Store := empty_store "b" (Clock.new 0).
Definition put_k : op := OpInsertObject "bk" "k" [] 3 "from-a".
Definition put_z : op := OpInsertObject "bk" "z" [] 4 "from-b".
Definition C4 : gmap string Site :=
  <["b" := mkSite (run_op new_b 6000000 put_z) None]>
    (<["a" := mkSite (run_op new_a 5000000 put_k) None]>
      (<["b" := mkSite new_b None]> (<["a" := mkSite new_a None]> ∅))).
Definition own4 : string → list (Z * Fact Value) :=
  let own0 : string → list (Z * Fact Value) := λ _, [] in
  let own1 := <["a" := own0 "a" ++ logs new_a 5000000 put_k]> own0 in
  <["b" := own1 "b" ++ logs new_b 6000000 put_z]> own1.

Lemma C4_reachable : cluster C4 own4 own4.
Proof.
  unfold C4, own4. cbv zeta.
  apply (cluster_local _ _ _ "b" new_b None 6000000 put_z); [|reflexivity|exact I].
  apply (cluster_local _ (λ _, []) (λ _, []) "a" new_a None 5000000 put_k); [|reflexivity|exact I].
  apply cluster_join; [|reflexivity]. apply cluster_join; [|reflexivity]. constructor.
Qed.

Lemma own4_values i : own4 i = if decide (i = "a") then [(5000, ObjectPut "bk" "k" [] 3 "from-a")]
  else if decide (i = "b") then [(6000, ObjectPut "bk" "z" [] 4 "from-b")] else [].
Proof.
  unfold own4. cbv zeta. destruct (decide (i = "b")) as [->|Hb]; [done|].
  rewrite fn_lookup_insert_ne by done. destruct (decide (i = "a")) as [->|Ha]; [done|].
  by rewrite fn_lookup_insert_ne.
Qed.

Lemma own4_no_ties : no_ties own4.
Proof.
  intros i j x y. rewrite !own4_values.
  repeat case_decide; rewrite ?list_elem_of_singleton, ?elem_of_nil; try done;
    intros -> -> Hts; simpl in Hts; first [done|lia].
Qed.

Lemma own4_short i : (length (own4 i) < 1 * Z.to_nat FACT_SYNC_BATCH)%nat.
Proof. rewrite own4_values. repeat case_decide; unfold FACT_SYNC_BATCH; simpl; lia. Qed.

Lemma C4_sites i s : C4 !! i = Some s → pulling s = None ∧ (i = "a" ∨ i = "b").
Proof. unfold C4. rewrite !lookup_insert_Some, lookup_empty. naive_solver. Qed.

Definition both : list (string * string) := [("a", "b"); ("b", "a")].

Lemma both_ordered i j : (i, j) ∈ both ↔ i ≠ j ∧ i ∈ dom C4 ∧ j ∈ dom C4.
Proof.
  unfold both, C4. rewrite !dom_insert_L, dom_empty_L. set_solver.
Qed.

Lemma cluster_round_converges_witness :
  ∃ C', pulls 1 7000000 C4 both = Some C' ∧ dom C' = dom C4 ∧
    ∀ i j si sj, C' !! i = Some si → C' !! j = Some sj → agree (st si) (st sj).
Proof.
  apply (cluster_round_converges C4 own4 own4 both 1 7000000 C4_reachable).
  - intros i s Hs. by apply C4_sites in Hs as [? _].
  - exact own4_no_ties.
  - exact both_ordered.
  - exact own4_short.
Defined.

(** The cluster after those pulls, at rest. *)
Definition C5 : gmap string Site := default C4 (pulls 1 7000000 C4 both).

Lemma C5_at_rest : ∃ seen, cluster C5 own4 seen ∧ dom C5 = dom C4 ∧ ∀ i j, i ≠ j → caught_up C5 i j.
Proof.
  destruct (pulls_all both C4 own4 own4 1 7000000 C4_reachable) as (C' & seen & Hp & HC & _ & Hd & Hall & _).
  - intros i s Hs. by apply C4_sites in Hs as [? _].
  - apply Forall_forall. intros [i j] Hij. by apply both_ordered.
  - exact own4_short.
  - unfold C5. rewrite Hp. exists seen. split_and!; [done|done|]. cbn. intros i j Hij si sj Hi Hj.
    eapply Hall; [|done..]. apply both_ordered. rewrite <- Hd.
    split_and!; [done|apply elem_of_dom; eauto..].
Qed.

Lemma cluster_converges_witness :
  ∃ a b, C5 !! "a" = Some a ∧ C5 !! "b" = Some b ∧ agree (st a) (st b).
Proof.
  destruct C5_at_rest as (seen & HC & Hd & Hu).
  destruct (C5 !! "a") as [a|] eqn:Ha; [|apply not_elem_of_dom in Ha; rewrite Hd in Ha; by destruct Ha].
  destruct (C5 !! "b") as [b|] eqn:Hb; [|apply not_elem_of_dom in Hb; rewrite Hd in Hb; by destruct Hb].
  exists a, b. split; [done|]. split; [done|].
  exact (cluster_converges C5 own4 seen "a" "b" a b HC own4_no_ties Hu Ha Hb).
Defined.

Lemma cluster_sound_witness : ∃ c, get_cursor (run_op new_a 5000000 put_k) "b" = Z.of_nat c ∧
  (c ≤ length (own4 "b"))%nat ∧ ∀ x, x ∈ take c (own4 "b") → x ∈ own4 "a".
Proof.
  refine (proj1 (cluster_sound C4 own4 own4 "a" (mkSite (run_op new_a 5000000 put_k) None) C4_reachable _) "b").
  reflexivity.
Defined.

(** Facts are not passed on.  Site [b] has pulled everything of [a]; site [c] then joins while
    [a] is away and pulls everything of [b].  It has caught up with [b], and still lacks the
    object [b] answers for: a log holds a site's own facts only. *)
Definition pull_from (sj : Store) (j : string) (s : Store) : Store :=
  default s (sync_peer (serves sj) 2 7000000 j "" s).
Definition site_a1 : Store := run_op new_a 5000000 put_k.
Definition site_b1 : Store := pull_from site_a1 "a" new_b.
Definition site_c1 : Store := pull_from site_b1 "b" (empty_store "c" (Clock.new 0)).

Theorem join_misses_forwarded_facts :
  get_object site_b1 "bk" "k" = Some ([], 3, "from-a") ∧
  facts_since site_b1 (get_cursor site_c1 "b") FACT_SYNC_BATCH = Ok [] ∧
  get_object site_c1 "bk" "k" = None.
Proof. vm_compute. done. Qed.

(** A site that starts over is not heard.  Site [a] loses its database and starts again under
    its id; its new log restarts at 1, and [b], whose cursor for [a] is 1, takes the new
    write for one it has seen. *)
Definition site_a2 : Store := run_op new_a 8000000 (OpInsertObject "bk" "new" [] 5 "after-loss").

Theorem reinitialised_site_unheard :
  get_object site_a2 "bk" "new" = Some ([], 5, "after-loss") ∧
  serves site_a2 "" (get_cursor site_b1 "a") = Ok [] ∧
  get_object (pull_from site_a2 "a" site_b1) "bk" "new" = None.
Proof. vm_compute. done. Qed.
End ClusterRuns.
