(* ===== verification/Node.v ===== *)
(** * What a running node can do to its state

    Every S3 handler (src/storage.rs), every internal request and every background task
    (src/main.rs) is built from the same few steps on a node: reads, metadata writes that
    leave block locations alone, storing or promoting a block, and reaping one.
    [NodeRelation] states which relations between states such steps keep; what is proved
    once here for any such relation holds for the whole node.  Two relations are given: the
    metadata store moves by calls of its methods ([ran]), so that the clusters of [Cluster]
    are clusters of running nodes, and the metadata never names a local block whose bytes
    are missing or wrong ([node_ok]). *)

From S2P Require Import Prelude Crates Clock Hashing Chunking Range Listing Policy Disk Tables Store.
From S2P Require Import FactLog Objects BlockStore GC Replication S3 Sync Internal Cluster.

(** ** Steps of a node *)

Section steps.
Context `{!Blake3, !Hex, !UuidCodec, !Json, !IterOrder}.

(** Methods that leave the block locations and the pending deletions alone, and the methods on
    pending deletions. *)
Definition quiet_op (o : op) : Prop :=
  match o with
  | OpInsertBlock _ _ _ | OpStoreLocalBlock _ _ _ | OpAddBlockLocation _ _ _ | OpDeleteLocalBlock _
  | OpApplyFact _ | OpSetCursor _ _ | OpAddPendingDeletion _ _ | OpRemovePendingDeletion _ => False
  | _ => True
  end.
Definition pending_op (o : op) : Prop :=
  match o with OpAddPendingDeletion _ _ | OpRemovePendingDeletion _ => True | _ => False end.
Definition notes (f : Store → Store) : Prop := ∀ s, ∃ t o, pending_op o ∧ f s = run_op s t o.
Definition quiet (f : Store → Store) : Prop := ∀ s, ∃ t o, quiet_op o ∧ f s = run_op s t o.
#[global] Instance quiet_op_dec o : Decision (quiet_op o).
Proof. destruct o; apply _. Defined.

Ltac by_op t o := intros s; exists t, (o s); split; [exact I|reflexivity].

Lemma quiet_enqueue t h : quiet (λ s, enqueue_replication s t h [local_location_id s]).
Proof. by_op t (λ s : Store, OpEnqueueReplication h [local_location_id s]). Qed.
Lemma quiet_dequeue h : quiet (λ s, dequeue_replication s h).
Proof. by_op 0 (λ _ : Store, OpDequeueReplication h). Qed.
Lemma quiet_defer t e : quiet (λ s, defer_replication s t e).
Proof. by_op t (λ _ : Store, OpDeferReplication e). Qed.
Lemma quiet_insert_object t b k bl size etag : quiet (λ s, insert_object s t b (compute_shard_id k) k bl size etag).
Proof. by_op t (λ _ : Store, OpInsertObject b k bl size etag). Qed.
Lemma quiet_delete_object t b k : quiet (λ s, Store.delete_object s t b k).
Proof. by_op t (λ _ : Store, OpDeleteObject b k). Qed.
Lemma notes_orphan h nb : notes (λ s, match add_pending_deletion s h nb with Ok s' => s' | Err _ => s end).
Proof. by_op 0 (λ _ : Store, OpAddPendingDeletion h nb). Qed.
Lemma notes_removal h : notes (λ s, remove_pending_deletion s h).
Proof. by_op 0 (λ _ : Store, OpRemovePendingDeletion h). Qed.
Lemma quiet_insert_multipart b u k : quiet (λ s, insert_multipart s b u k).
Proof. by_op 0 (λ _ : Store, OpInsertMultipart b u k). Qed.
Lemma quiet_delete_multipart b u : quiet (λ s, delete_multipart_upload s b u).
Proof. by_op 0 (λ _ : Store, OpDeleteMultipartUpload b u). Qed.
Lemma quiet_insert_part b u n bl size etag : quiet (λ s, insert_part s b u n bl size etag).
Proof. by_op 0 (λ _ : Store, OpInsertPart b u n bl size etag). Qed.
Lemma quiet_register t url : quiet (λ s, register_node s t url).
Proof. by_op t (λ _ : Store, OpRegisterNode url). Qed.
Lemma quiet_record_peer t id url : quiet (λ s, record_peer s t id url).
Proof. by_op t (λ _ : Store, OpRecordPeer id url). Qed.
Lemma quiet_create_user t a sk p : quiet (λ s, create_user s t a sk p).
Proof. by_op t (λ _ : Store, OpCreateUser a sk p). Qed.
Lemma quiet_set_offset off : quiet (λ s, with_clock s (set_offset (clock s) off)).
Proof. by_op 0 (λ _ : Store, OpSetOffset off). Qed.
End steps.

#[export] Hint Resolve quiet_enqueue quiet_dequeue quiet_defer quiet_insert_object quiet_delete_object
  notes_orphan notes_removal quiet_insert_multipart quiet_delete_multipart quiet_insert_part
  quiet_register quiet_record_peer quiet_create_user quiet_set_offset : moves.

(** A relation every step of a node but those of a sweep keeps; [fetch] is how peers' blocks are reached. *)
Class NodeRelation `{!Blake3, !Hex, !UuidCodec, !Json, !IterOrder, !BlobStore}
    (fetch : string → bytes → result error bytes) (R : relation Node) : Prop := {
  node_preorder :: PreOrder R;
  quiet_moves : ∀ n f, quiet f → R n (mkNodeState (f (db n)) (blob n));
  get_moves : ∀ n h fid, R n (mkNodeState (db n) (get h fid (blob n)).2);
  store_moves : ∀ t d size, moves R (store_block t d size);
  promote_moves : ∀ t url h d, fetch url h = Ok d → moves R (promote_block_locally t h d);
}.
(** And one that the steps of a sweep keep, too. *)
Class SweepRelation `{!Blake3, !Hex, !UuidCodec, !Json, !IterOrder, !BlobStore} (R : relation Node) : Prop := {
  reap_moves : ∀ h, moves R (reap h);
  notes_moves : ∀ n f, notes f → R n (mkNodeState (f (db n)) (blob n));
}.

(** ** Blocks, sweeps and the pull queue *)

Section node.
Context `{!Blake3, !Hex, !UuidCodec, !Json, !IterOrder, !BlobStore}.
Context (fetch : string → bytes → result error bytes) (R : relation Node) `{!NodeRelation fetch R}.

Lemma moves_read_db {A} (f : Store → A) : moves R (read_db f).
Proof. apply moves_still; [apply _|done]. Qed.

Lemma moves_write_db f : quiet f → moves R (write_db f).
Proof. intros Hf n. by apply quiet_moves. Qed.

Lemma moves_get h fid : moves R (on_blob (get h fid)).
Proof.
  intros n. pose proof (get_moves (R := R) n h fid) as Hg. unfold on_blob. by destruct (get h fid (blob n)).
Qed.
#[local] Hint Resolve moves_read_db moves_write_db moves_get store_moves : moves.

Lemma moves_fetch_loop t h locs peers : moves R (fetch_loop fetch t h locs peers).
Proof.
  induction peers as [|[id url] peers IH]; cbn [fetch_loop]; [apply moves_fail, _|].
  destruct (decide _); [|done]. destruct (fetch url h) eqn:Hf; [|done].
  apply moves_bind; [apply _|apply moves_attempt; by eapply promote_moves|]. moves_auto.
Qed.

Lemma moves_get_block t h : moves R (get_block fetch t h).
Proof.
  unfold get_block. apply moves_bind; [apply _|apply moves_read_db|]. intros [fid|]; [apply moves_get|].
  moves_auto. apply moves_fetch_loop.
Qed.

Lemma moves_mark t : moves R (mark t).
Proof. unfold mark. moves_auto. Qed.

Lemma fetch_first_fetched h cs d : fetch_first fetch h cs = Some d → ∃ url, fetch url h = Ok d.
Proof.
  induction cs as [|[id url] cs IH]; [done|]. cbn [fetch_first].
  destruct (fetch url h) eqn:Hf; [|done]. intros [= ->]. eauto.
Qed.

Lemma moves_drain_entry t peers e : moves R (drain_entry fetch t peers e).
Proof.
  unfold drain_entry, defer_entry. cbv zeta. do 2 (apply moves_bind; [apply _|apply moves_read_db|]; intros).
  destruct (plan_replication _ _ _); [by moves_auto..|].
  apply moves_bind; [apply _| |by moves_auto].
  destruct (fetch_first _ _ _) as [d|] eqn:Hd; [|apply moves_ret, _].
  destruct (fetch_first_fetched _ _ _ Hd) as [url Hu]. apply moves_attempt. by eapply promote_moves.
Qed.
Context `{!SweepRelation R}.

Lemma moves_notes f : notes f → moves R (write_db f).
Proof. intros Hf n. by apply notes_moves. Qed.
#[local] Hint Resolve moves_notes : moves.

Lemma moves_sweep_hash grace force sn t h : moves R (sweep_hash grace force sn t h).
Proof.
  unfold sweep_hash, orphan_deadline, note_orphan. destruct (decide _); [moves_auto|].
  apply moves_bind; [apply _|moves_auto|]. intros at_. destruct (_ && _); [apply moves_ret, _|apply reap_moves].
Qed.

Lemma moves_sweep grace force t : moves R (sweep_orphaned_blocks grace force t).
Proof.
  unfold sweep_orphaned_blocks. apply moves_bind; [apply _|apply moves_mark|]. intros sn.
  apply moves_bind; [apply _|apply moves_for_each; [apply _|apply moves_sweep_hash]|]. intros _.
  unfold drop_stale. moves_auto.
Qed.

End node.
#[export] Hint Resolve moves_read_db moves_write_db moves_get_block moves_sweep moves_drain_entry store_moves : moves.

(** ** Requests and tasks *)

Section requests.
Context `{!Blake3, !Md5, !Hex, !UuidCodec, !Json, !IterOrder, !BlobStore, !ChunkingStrategy}.
Context (fetch : string → bytes → result error bytes).

(** The requests of the S3 service, and the draining of a response's body. *)
Inductive S3Call : Type :=
  | GetSecretKey (access_key : string)
  | PutObject (bucket key : string) (body : option (list (option bytes)))
  | GetObject (bucket key : string) (range : option Range)
  | StreamBody (out : GetObjectOutput)
  | HeadObject (bucket key : string)
  | DeleteObject (bucket key : string)
  | DeleteObjects (bucket : string) (keys : list string)
  | CopyObject (bucket key : string) (copy_source : CopySource)
  | ListBuckets
  | CreateBucket (bucket : string)
  | DeleteBucket (bucket : string)
  | HeadBucket (bucket : string)
  | ListObjectsV2 (bucket : string) (prefix token start_after delimiter : option string) (max_keys : option Z)
  | ListObjectVersions (bucket : string) (prefix key_marker delimiter : option string) (max_keys : option Z)
  | ListObjects (bucket : string) (prefix marker delimiter : option string) (max_keys : option Z)
  | CreateMultipartUpload (fresh : Uuid) (bucket key : string)
  | UploadPart (bucket key upload_id : string) (part_number : Z) (body : option (list (option bytes)))
  | UploadPartCopy (bucket key upload_id : string) (part_number : Z) (source : CopySource) (range : option string)
  | CompleteMultipartUpload (bucket key upload_id : string)
  | AbortMultipartUpload (bucket key upload_id : string)
  | ListParts (bucket key upload_id : string) (marker : option string) (max_parts : option Z)
  | ListMultipartUploads (bucket : string) (prefix key_marker : option string) (max_uploads : option Z).

Abbreviation handler A := (io Backend stop A).
Definition discard {A} (m : handler A) : handler unit := let! _a := m in ret tt.

Definition run_s3 (creds : option string) (t : SystemTime) (c : S3Call) : handler unit :=
  match c with
  | GetSecretKey a => discard (get_secret_key a)
  | PutObject b k body => discard (put_object creds t b k body)
  | GetObject b k r => discard (get_object fetch creds t b k r)
  | StreamBody out => discard (stream_body fetch t out)
  | HeadObject b k => discard (head_object creds b k)
  | DeleteObject b k => discard (delete_object creds t b k)
  | DeleteObjects b ks => discard (delete_objects creds t b ks)
  | CopyObject b k src => discard (copy_object creds t b k src)
  | ListBuckets => discard (list_buckets creds)
  | CreateBucket b => create_bucket creds b
  | DeleteBucket b => delete_bucket creds b
  | HeadBucket b => head_bucket creds b
  | ListObjectsV2 b p tok a d n => discard (list_objects_v2 creds b p tok a d n)
  | ListObjectVersions b p m d n => discard (list_object_versions creds b p m d n)
  | ListObjects b p m d n => discard (list_objects creds b p m d n)
  | CreateMultipartUpload u b k => discard (create_multipart_upload creds u b k)
  | UploadPart b k u n body => discard (upload_part creds t b k u n body)
  | UploadPartCopy b k u n src r => discard (upload_part_copy fetch creds t b k u n src r)
  | CompleteMultipartUpload b k u => discard (complete_multipart_upload creds t b k u)
  | AbortMultipartUpload b k u => discard (abort_multipart_upload creds b k u)
  | ListParts b k u m n => discard (s3_list_parts creds b k u m n)
  | ListMultipartUploads b p m n => discard (s3_list_multipart_uploads creds b p m n)
  end.

(** *** The background tasks of [run_server], one round each *)

Definition with_db (b : Backend) (f : Store → Store) : Backend :=
  mkBackend (mkNodeState (f (db (node b))) (blob (node b))) (disk_guard b).

(** Clock sync: [choose] is the peer [SliceRandom::choose] picks from those known and
    [answer] the peer's time with the round trip. *)
Definition clock_sync_round (choose : list (string * string) → option (string * string))
    (answer : string → result error (Z * Z)) (t : SystemTime) (b : Backend) : Backend :=
  match choose (get_peers (db (node b))) with
  | None => b
  | Some (_, url) =>
      match answer url with
      | Err _ => b
      | Ok (cluster_time_micros, rtt_micros) =>
          match refresh_clock_offset (clock (db (node b))) cluster_time_micros rtt_micros t with
          | Ok c => with_db b (λ s, with_clock s c)
          | Err _ => b
          end
      end
  end.

(** The membership half of the fact-sync task; the other half is [sync_facts_once]. *)
Definition gossip_round (get_nodes : string → result error (option (list (string * string))))
    (t : SystemTime) (b : Backend) : Backend :=
  with_db b (λ s, gossip_membership get_nodes t (get_peers_with_urls s) s).

Definition gc_round (grace : Z) (t : SystemTime) (b : Backend) : Backend :=
  (on_node (reap_orphaned_blocks grace t) b).2.

(** Spawned only when a quota is configured. *)
Definition usage_round (b : Backend) : Backend :=
  if quota_enabled (disk_guard b)
  then mkBackend (node b) (set_local_usage (disk_guard b) (wrap_u64 (local_block_bytes (db (node b)))))
  else b.

(** The refresher of the disk guard. *)
Definition guard_round (statvfs_free : option Z) (b : Backend) : Backend :=
  if enabled (disk_guard b) then mkBackend (node b) (refresh (disk_guard b) statvfs_free) else b.

Definition drain_round (grace : Z) (t : SystemTime) (statvfs_free : option Z) (b : Backend) : Backend :=
  (drain_replication_queue fetch grace t statvfs_free b).2.

Definition heartbeat_round (advertise : string) (t : SystemTime) (b : Backend) : Backend :=
  with_db b (λ s, register_node s t advertise).

(** [shardscape create-user], a process of its own on the node's database; an unknown preset
    stops it. *)
Definition create_user_command (t : SystemTime) (access_key secret_key preset : string) (bucket : option string)
    (b : Backend) : Backend :=
  match preset_policy preset bucket with
  | Some policy => with_db b (λ s, create_user s t access_key secret_key policy)
  | None => b
  end.

(** Everything that changes a running node, fact sync apart: whole requests and rounds of the
    background tasks, and, for requests, sweeps and drains that overlap, the single calls they
    are made of: a block stored or read, a store method, the visit of a sweep to one block or
    to one stale row with whatever snapshot it took, one entry of the pull queue. *)
Inductive event : Type :=
  | S3Request (creds : option string) (t : SystemTime) (c : S3Call)
  | InternalRequest (t : SystemTime) (req : Request)
  | ClockSync (choose : list (string * string) → option (string * string))
      (answer : string → result error (Z * Z)) (t : SystemTime)
  | Gossip (get_nodes : string → result error (option (list (string * string)))) (t : SystemTime)
  | GcReap (t : SystemTime)
  | UsageRefresh
  | GuardRefresh (statvfs_free : option Z)
  | Drain (t : SystemTime) (statvfs_free : option Z)
  | Heartbeat (t : SystemTime)
  | CreateUser (t : SystemTime) (access_key secret_key preset : string) (bucket : option string)
  | StoreBlockCall (t : SystemTime) (data : bytes) (size : Z)
  | GetBlockCall (t : SystemTime) (hash : bytes)
  | StoreCall (t : SystemTime) (o : op)
  | SweepVisit (force : bool) (sn : Snapshot) (t : SystemTime) (hash : bytes)
  | SweepStale (sn : Snapshot) (entry : bytes * Z)
  | DrainEntry (t : SystemTime) (peers : gmap string string) (e : ReplicationEntry).

(** A store method a request or task calls on its own; block locations and pending deletions
    change by the calls above. *)
Definition store_call (t : SystemTime) (o : op) (b : Backend) : Backend :=
  if decide (quiet_op o) then with_db b (λ s, run_op s t o) else b.

Definition run_event (cfg : SiteConfig) (e : event) (b : Backend) : Backend :=
  match e with
  | S3Request creds t c => (run_s3 creds t c b).2
  | InternalRequest t req => (handle_internal_request fetch cfg t req b).2
  | ClockSync choose answer t => clock_sync_round choose answer t b
  | Gossip get_nodes t => gossip_round get_nodes t b
  | GcReap t => gc_round (gc_grace_period_seconds cfg) t b
  | UsageRefresh => usage_round b
  | GuardRefresh statvfs => guard_round statvfs b
  | Drain t statvfs => drain_round (gc_grace_period_seconds cfg) t statvfs b
  | Heartbeat t => heartbeat_round (advertise_addr cfg) t b
  | CreateUser t a sk preset bucket => create_user_command t a sk preset bucket b
  | StoreBlockCall t d size => (on_node (store_block t d size) b).2
  | GetBlockCall t h => (on_node (get_block fetch t h) b).2
  | StoreCall t o => store_call t o b
  | SweepVisit force sn t h => (on_node (sweep_hash (gc_grace_period_seconds cfg) force sn t h) b).2
  | SweepStale sn entry => (on_node (drop_stale sn entry) b).2
  | DrainEntry t peers e => (on_node (drain_entry fetch t peers e) b).2
  end.
End requests.

(** ** Backends *)

Section backend.
Context `{!Blake3, !Md5, !Hex, !UuidCodec, !Json, !IterOrder, !BlobStore, !ChunkingStrategy}.
Context (fetch : string → bytes → result error bytes) (R : relation Node) `{!NodeRelation fetch R}.

Definition lifted : relation Backend := λ b b', R (node b) (node b').
#[global] Instance lifted_preorder : PreOrder lifted.
Proof. unfold lifted. split; [intros b; reflexivity|intros b1 b2 b3; etrans; done]. Qed.

Lemma moves_on_node {A} (m : io Node error A) : moves R m → moves lifted (on_node m).
Proof. intros Hm b. specialize (Hm (node b)). unfold on_node, lifted. by destruct (m (node b)). Qed.

Lemma moves_ask {A} (f : Store → A) : moves lifted (ask f).
Proof. apply moves_still; [apply _|done]. Qed.

Lemma moves_tell f : quiet f → moves lifted (tell f).
Proof. intros Hf b. by apply (quiet_moves (R := R) (node b)). Qed.

Lemma moves_set_db f : quiet f → moves lifted (set_db f).
Proof. intros Hf b. by apply (quiet_moves (R := R) (node b)). Qed.

Lemma moves_check_writable : moves lifted check_writable.
Proof. apply moves_still; [apply _|]. intros b. unfold check_writable. by destruct (check _). Qed.

Lemma moves_block_call {A} code (m : io Node error A) : moves R m → moves lifted (block_call code m).
Proof. intros. by apply moves_map_err, moves_on_node. Qed.

Lemma moves_ignore {A} (m : io Node error A) : moves R m → moves lifted (ignore m).
Proof.
  intros. apply moves_bind; [apply _|by apply moves_attempt, moves_on_node|]. intros. apply moves_ret, _.
Qed.

Lemma moves_reject {A} code : moves lifted (reject (A := A) code).
Proof. apply moves_fail, _. Qed.

Lemma moves_ok_or {A} code (o : option A) : moves lifted (ok_or code o).
Proof. destruct o; [apply moves_ret, _|apply moves_fail, _]. Qed.

#[local] Hint Resolve moves_on_node moves_ask moves_tell moves_set_db moves_check_writable moves_block_call
  moves_ignore moves_reject moves_ok_or : moves.

Lemma moves_authorize creds action b k : moves lifted (authorize creds action b k).
Proof. unfold authorize. moves_auto. Qed.

Lemma moves_store_one t u d : moves lifted (store_one t u d).
Proof. unfold store_one. cbv zeta. apply moves_bind; [apply _|apply moves_block_call, store_moves|]. moves_auto. Qed.

Lemma moves_store_all t cs : ∀ u, moves lifted (store_all t u cs).
Proof.
  induction cs as [|c cs IH]; intros u; [apply moves_ret, _|].
  apply moves_bind; [apply _|apply moves_store_one|]. intros. apply IH.
Qed.

Lemma moves_on_chunk t u c : moves lifted (on_chunk t u c).
Proof. unfold on_chunk. destruct (process _) as [[cs rest]|[]]; [apply moves_store_all|apply moves_fail, _..]. Qed.

Lemma moves_read_body t body : ∀ u, moves lifted (read_body t u body).
Proof.
  induction body as [|[c|] body IH]; intros u; [apply moves_ret, _| |apply moves_fail, _].
  apply moves_bind; [apply _|apply moves_on_chunk|]. intros. apply IH.
Qed.

Lemma moves_finish_upload t u : moves lifted (finish_upload t u).
Proof. unfold finish_upload. destruct (finalize _) as [[d|] rest]; [apply moves_store_one|apply moves_ret, _]. Qed.

Lemma moves_remove_reference h : moves R (remove_reference h).
Proof. apply moves_ret, _. Qed.
Lemma moves_add_usage h : moves R (add_usage h).
Proof. apply moves_ret, _. Qed.

#[local] Hint Resolve moves_authorize moves_read_body moves_finish_upload moves_remove_reference
  moves_add_usage moves_on_chunk : moves.

Lemma moves_release_blocks b k : moves lifted (release_blocks b k).
Proof. unfold release_blocks. moves_auto. Qed.
Lemma moves_call_list_page b a p d n : moves lifted (call_list_page b a p d n).
Proof. unfold call_list_page. moves_auto. Qed.
Lemma moves_assemble ps : ∀ hs n es, moves lifted (assemble ps hs n es).
Proof.
  induction ps as [|p ps IH]; intros; [apply moves_ret, _|].
  apply moves_bind; [apply _|apply moves_ok_or|]. intros. apply IH.
Qed.
Lemma moves_copy_slices t bl sl : ∀ u, moves lifted (copy_slices fetch t u bl sl).
Proof.
  induction sl as [|[[i skip] tk] sl IH]; intros u; [apply moves_ret, _|].
  apply moves_bind; [apply _|by apply moves_block_call, moves_get_block|]. intros.
  apply moves_bind; [apply _|apply moves_on_chunk|]. intros. apply IH.
Qed.
#[local] Hint Resolve moves_release_blocks moves_call_list_page moves_assemble moves_copy_slices : moves.

Lemma moves_s3 creds t c : moves lifted (run_s3 fetch creds t c).
Proof.
  destruct c; unfold run_s3, discard, get_secret_key, put_object, get_object, get_plan, stream_body, stream_block,
    head_object, delete_object, delete_objects, copy_object, list_buckets, create_bucket, delete_bucket, head_bucket,
    list_objects_v2, list_object_versions, list_objects, create_multipart_upload, upload_part, upload_part_copy,
    parse_upload_id, upload_key, copy_range, complete_multipart_upload, abort_multipart_upload, s3_list_parts,
    s3_list_multipart_uploads; cbv zeta; moves_auto.
Qed.

Lemma with_db_moves b f : quiet f → lifted b (with_db b f).
Proof. intros Hf. by apply (quiet_moves (R := R) (node b)). Qed.

Context `{!SweepRelation R}.

Lemma moves_internal cfg t req : moves lifted (handle_internal_request fetch cfg t req).
Proof.
  intros b. unfold handle_internal_request. repeat (destruct (decide _); [reflexivity|]).
  destruct (decide _).
  { apply (moves_bind lifted); [destruct (uri_query req); [apply moves_lift, _|apply moves_ret, _]|].
    intros pairs. destruct (join_params pairs) as [id addr]. moves_auto. }
  destruct (strip_prefix _ _); [reflexivity|]. destruct (decide _).
  { unfold handle_gc, lifted. pose proof (moves_sweep fetch R (gc_grace_period_seconds cfg) true t (node b)) as Hs.
    unfold force_sweep_orphaned_blocks. by destruct (sweep_orphaned_blocks _ _ _ _). }
  destruct (strip_prefix _ _); [|reflexivity]. unfold handle_block, lifted.
  destruct (hex_decode _) as [h|]; [|reflexivity]. destruct (decide _); [|reflexivity].
  pose proof (moves_get_block fetch R t h (node b)) as Hg. by destruct (get_block _ _ _ _).
Qed.

Lemma moves_drain grace t statvfs : moves lifted (drain_replication_queue fetch grace t statvfs).
Proof.
  intros b. unfold drain_replication_queue. destruct (check _).
  - pose proof (moves_sweep fetch R grace true t (node b)) as Hs. unfold force_sweep_orphaned_blocks, lifted.
    by destruct (sweep_orphaned_blocks _ _ _ _) as [[|[]] ?].
  - apply (moves_on_node _ (A := unit)). moves_auto.
Qed.

Lemma gossip_moves get_nodes t peers b : lifted b (with_db b (gossip_membership get_nodes t peers)).
Proof.
  unfold gossip_membership, lifted, with_db. simpl. generalize (iter_order (map_to_list peers)). intros ps.
  destruct (node b) as [s bl]. simpl. 
  enough (∀ s', R (mkNodeState s bl) (mkNodeState s' bl) →
    R (mkNodeState s bl) (mkNodeState (foldl (λ s p, gossip_peer t (get_nodes p.2) s) s' ps) bl)) as Hx
    by (apply Hx; reflexivity).
  induction ps as [|p ps IH]; intros s' Hs'; [done|]. apply IH. unfold gossip_peer.
  destruct (get_nodes p.2) as [[l|]|]; [|done|done]. revert s' Hs'. clear IH.
  induction l as [|[id url] l IH]; intros s' Hs'; [done|]. apply IH. etrans; [exact Hs'|].
  exact (quiet_moves (R := R) (mkNodeState s' bl) _ (quiet_record_peer t id url)).
Qed.

(** Every event of a node keeps the relation. *)
Lemma run_event_moves cfg e b : lifted b (run_event fetch cfg e b).
Proof.
  destruct e; cbn [run_event].
  - apply moves_s3.
  - apply moves_internal.
  - unfold clock_sync_round. destruct (choose _) as [[id url]|]; [|reflexivity].
    destruct (answer url) as [[ct rtt]|]; [|reflexivity].
    unfold refresh_clock_offset. destruct (measured_offset_ms _ _ _); [|reflexivity].
    destruct (10 <? _); [|destruct b as [[[] ?] ?]; reflexivity]. apply (with_db_moves b), quiet_set_offset.
  - apply gossip_moves.
  - apply moves_on_node, (moves_sweep fetch R).
  - unfold usage_round, lifted. destruct (quota_enabled _); reflexivity.
  - unfold guard_round, lifted. destruct (enabled _); reflexivity.
  - apply moves_drain.
  - apply with_db_moves, quiet_register.
  - unfold create_user_command. destruct (preset_policy _ _); [apply with_db_moves, quiet_create_user|reflexivity].
  - apply moves_on_node, store_moves.
  - by apply moves_on_node, moves_get_block.
  - unfold store_call. destruct (decide _); [|reflexivity]. apply with_db_moves. intros s. eauto.
  - by apply moves_on_node, (moves_sweep_hash fetch R).
  - apply moves_on_node. unfold drop_stale. destruct (decide _); [apply moves_ret, _|].
    apply (moves_notes R), notes_removal.
  - by apply moves_on_node, moves_drain_entry.
Qed.
End backend.

(** ** The metadata moves by calls of its methods *)

Section ran.
Context `{!Blake3, !Hex, !UuidCodec, !Json, !IterOrder}.

Abbreviation stamped := (Z * Fact Value)%type.

Inductive ran : Store → list stamped → Store → Prop :=
  | ran_nil s : ran s [] s
  | ran_cons s t o l s' : local_op o → ran (run_op s t o) l s' → ran s (logs s t o ++ l) s'.

Lemma ran_op s t o : local_op o → ran s (logs s t o) (run_op s t o).
Proof. intros Ho. rewrite <- (app_nil_r (logs s t o)). by repeat constructor. Qed.

Lemma ran_trans s1 l1 s2 l2 s3 : ran s1 l1 s2 → ran s2 l2 s3 → ran s1 (l1 ++ l2) s3.
Proof. induction 1; [done|]. intros. rewrite <- app_assoc. econstructor; auto. Qed.

Lemma quiet_local o : quiet_op o → local_op o.
Proof. by destruct o. Qed.

(** Reachable sites stay reachable, and their logs grow by what was logged. *)
Lemma ran_site s l s' own seen : ran s l s' → site s own seen → site s' (own ++ l) (seen ++ l).
Proof.
  intros Hr. revert own seen. induction Hr as [|s t o l s' Ho _ IH]; intros own seen Hs.
  - by rewrite !app_nil_r.
  - rewrite !app_assoc. apply IH. rewrite <- (local_sees s t o Ho) at 2. by constructor.
Qed.

Lemma ran_id s l s' : ran s l s' → local_location_id s' = local_location_id s.
Proof.
  induction 1 as [|s t o l s' Ho _ IH]; [done|]. rewrite IH. clear IH.
  destruct o; try done; simpl.
  - unfold add_pending_deletion. by destruct (_ <? _).
  - unfold delete_local_block. simpl. by destruct (decide _).
  - unfold record_peer. by destruct (decide _).
Qed.

Context `{!BlobStore}.

Definition logged (n n' : Node) : Prop := ∃ l, ran (db n) l (db n').

#[global] Instance logged_preorder : PreOrder logged.
Proof.
  split; [intros n; exists []; constructor|]. intros n1 n2 n3 [l1 Hl1] [l2 Hl2]. eexists. by eapply ran_trans.
Qed.

Lemma logged_write t o f : (∀ s, f s = run_op s t (o s)) → (∀ s, local_op (o s)) → moves logged (write_db f).
Proof. intros Hf Ho n. exists (logs (db n) t (o (db n))). simpl. rewrite Hf. by apply ran_op. Qed.

Lemma logged_blob {A} (m : io Blob error A) : moves logged (on_blob m).
Proof. intros n. exists []. unfold on_blob. destruct (m (blob n)). constructor. Qed.

Lemma logged_read {A} (f : Store → A) : moves logged (read_db f).
Proof. apply moves_still; [apply _|done]. Qed.

Lemma logged_store t h d size :
  moves logged (let! fid := on_blob (put h d) in write_db (λ s, store_local_block s t h fid size)).
Proof.
  apply moves_bind; [apply _|apply logged_blob|]. intros fid.
  by apply (logged_write t (λ _ : Store, OpStoreLocalBlock h fid size)).
Qed.

#[global] Instance logged_relation fetch : NodeRelation fetch logged.
Proof.
  split; [apply _| | | |].
  - intros n f Hf. destruct (Hf (db n)) as (t & o & Ho & Heq). exists (logs (db n) t o). simpl. rewrite Heq.
    apply ran_op, quiet_local, Ho.
  - intros n h fid. exists []. constructor.
  - intros t d size. unfold store_block. apply moves_bind; [apply _|apply logged_read|].
    intros [fid|]; [apply moves_ret, _|]. apply moves_bind; [apply _|apply logged_blob|]. intros fid.
    apply moves_bind; [apply _|by apply (logged_write t (λ _ : Store, OpStoreLocalBlock (blake3 d) fid size))|].
    intros. apply moves_ret, _.
  - intros t url h d _. unfold promote_block_locally. apply moves_bind; [apply _|apply logged_read|].
    intros [fid|]; [apply moves_ret, _|]. apply logged_store.
Qed.

#[global] Instance logged_sweep : SweepRelation logged.
Proof.
  split; [|intros n f Hf; destruct (Hf (db n)) as (t & o & Ho & Heq); exists (logs (db n) t o); simpl; rewrite Heq;
    apply ran_op; by destruct o].
  intros h. unfold reap. apply moves_bind; [apply _|apply logged_read|]. intros fid.
  apply moves_bind; [apply _| |intros _; by apply (logged_write 0 (λ _ : Store, OpRemovePendingDeletion h))].
  destruct fid as [fid|]; [|apply moves_ret, _]. apply moves_bind; [apply _|apply logged_read|]. intros removed.
  apply moves_bind; [apply _|by apply (logged_write 0 (λ _ : Store, OpDeleteLocalBlock h))|]. intros _.
  destruct removed; [|apply moves_ret, _]. apply moves_bind; [apply _|apply moves_attempt, logged_blob|].
  intros. apply moves_ret, _.
Qed.
End ran.

(** ** The metadata agrees with the backend *)

Section sound.
Context `{!Blake3, !Hex, !UuidCodec, !Json, !IterOrder, !BlobStore, !LawfulBlob}.

(** Every block recorded as local is on the backend with the content its hash names. *)
Abbreviation blocks_ok := (node_ok (λ _, True)).

Definition stays_ok (n n' : Node) : Prop := blocks_ok n → blocks_ok n'.

#[global] Instance stays_ok_preorder : PreOrder stays_ok.
Proof. unfold stays_ok. split; [by intros n|intros n1 n2 n3; auto]. Qed.

Lemma quiet_locations s f h : quiet f → get_local_block_fid (f s) h = get_local_block_fid s h.
Proof.
  intros Hf. destruct (Hf s) as (t & o & Ho & ->). destruct o; try done; simpl.
  unfold record_peer. by destruct (decide _).
Qed.
Lemma quiet_pending s f : quiet f → pending_deletions (f s) = pending_deletions s.
Proof.
  intros Hf. destruct (Hf s) as (t & o & Ho & ->). destruct o; try done; simpl.
  unfold record_peer. by destruct (decide _).
Qed.
Lemma notes_locations s f h : notes f → get_local_block_fid (f s) h = get_local_block_fid s h.
Proof.
  intros Hf. destruct (Hf s) as (t & o & Ho & ->). destruct o; try done; simpl.
  unfold add_pending_deletion. by destruct (_ <? _).
Qed.

Lemma delete_local_other s h h' :
  h' ≠ h → get_local_block_fid (delete_local_block s h).2 h' = get_local_block_fid s h'.
Proof. intros Hne. by rewrite delete_local_lookup, decide_False. Qed.

(** The row goes before the bytes. *)
#[global] Instance stays_ok_sweep : SweepRelation stays_ok.
Proof.
  split; [|intros n f Hf Hok h fid; cbn [db blob]; rewrite notes_locations by done; apply Hok].
  intros h n Hok. unfold reap, read_db, write_db, bind.
  destruct (get_local_block_fid (db n) h) as [fid|] eqn:Hl; [|exact Hok].
  cbn [db blob snd]. destruct (delete_local_block (db n) h).1.
  - unfold attempt, delete_block, on_blob. cbn [db blob].
    destruct (delete_blob h fid (blob n)) as [r b'] eqn:Hd. intros h' fid' Hl'. cbn [db blob snd ret] in *.
    change (get_local_block_fid (delete_local_block (db n) h).2 h' = Some fid') in Hl'.
    rewrite delete_local_lookup in Hl'. destruct (decide (h' = h)) as [->|Hne]; [done|].
    destruct (Hok _ _ Hl') as (d & Hc & ?), (Hok _ _ Hl) as (y & Hy & _). exists d. split; [|done].
    pose proof (delete_frame h fid (blob n) h' fid' d y Hne Hy Hc) as Hf. by rewrite Hd in Hf.
  - intros h' fid' Hl'. cbn [db blob snd ret] in *.
    change (get_local_block_fid (delete_local_block (db n) h).2 h' = Some fid') in Hl'.
    rewrite delete_local_lookup in Hl'. destruct (decide (h' = h)) as [->|Hne]; [done|]. by apply Hok.
Qed.

(** With peers that answer with the block they were asked for. *)
Lemma stays_ok_relation (fetch : string → bytes → result error bytes) :
  (∀ url h d, fetch url h = Ok d → blake3 d = h) → NodeRelation fetch stays_ok.
Proof.
  intros Hhonest. split; [apply _| | | |].
  - intros n f Hf Hok h fid. cbn [db blob]. rewrite quiet_locations by done. apply Hok.
  - intros n h fid Hok h' fid' Hl. destruct (Hok _ _ Hl) as (d & Hc & ?). exists d. split; [|done].
    cbn [blob]. by apply get_frame.
  - intros t d size n Hok. pose proof (store_block_spec (λ _, True) n t d size Hok I) as Hs.
    destruct (store_block t d size n). apply Hs.
  - intros t url h d Hf n Hok. apply promote_node_ok; [done|done|by eapply Hhonest].
Qed.
End sound.
