(* ===== verification/Deployment.v ===== *)
(** * Deployments: running nodes with their fact-sync tasks

    A deployment is a set of nodes ([Backend] with its page of facts in flight).  Nodes start
    empty, serve S3 and internal requests, run their background tasks ([Node.event]), pull
    facts from each other page by page, and lose the page in flight in a crash.  Requests,
    sweeps and drains of one node may overlap: the events include the single calls they are
    made of, so a step is a whole request or one call of one that is under way.  What is one
    step is a call of [store_block] or [get_block], of a method of the metadata store, and the
    visit of a sweep to one block, deletion included; what can happen inside those is the
    subject of [Calls].  A block fetched from a peer is one some node of the deployment read
    from its own backend.  The metadata of a deployment is a run of [Cluster], and its block
    data stays sound. *)

From stdpp Require Import functions.
From S2P Require Import Prelude Crates Clock Hashing Chunking Range Listing Policy Disk Tables Store.
From S2P Require Import FactLog Objects BlockStore GC Replication S3 Sync Internal Cluster Node.

Section deployment.
Context `{!Blake3, !Md5, !Hex, !UuidCodec, !Json, !IterOrder, !BlobStore, !LawfulBlob, !ChunkingStrategy}.

Abbreviation stamped := (Z * Fact Value)%type.

Record Running : Type := mkRunning {
  backend : Backend; pulls_page : option (string * list (FactRecord Value) * Z)
}.
Abbreviation metadata r := (db (node (backend r))).

(** A fact pulled by a node, or its cursor moved. *)
Definition replace_db (b : Backend) (s : Store) : Backend := with_db b (λ _, s).

(** What peers can answer to a request for a block: what one of them reads locally. *)
Definition served (D : gmap string Running) (fetch : string → bytes → result error bytes) : Prop :=
  ∀ url h d, fetch url h = Ok d → ∃ j r fid, D !! j = Some r ∧
    get_local_block_fid (metadata r) h = Some fid ∧ (get h fid (blob (node (backend r)))).1 = Ok d.

Inductive deployment : gmap string Running → Prop :=
  | deploy_none : deployment ∅
  | deploy_start D i c bl g :
      deployment D → D !! i = None →
      deployment (<[i := mkRunning (mkBackend (mkNodeState (empty_store i c) bl) g) None]> D)
  | deploy_event D i b p fetch cfg e :
      deployment D → D !! i = Some (mkRunning b p) → served D fetch →
      deployment (<[i := mkRunning (run_event fetch cfg e b) p]> D)
  | deploy_fetch D i b j r facts :
      deployment D → D !! i = Some (mkRunning b None) → D !! j = Some r → i ≠ j →
      facts_since (metadata r) (get_cursor (db (node b)) j) FACT_SYNC_BATCH = Ok facts →
      deployment (<[i := mkRunning b (Some (j, facts, get_cursor (db (node b)) j))]> D)
  | deploy_apply D i b j f facts m t s' m' :
      deployment D → D !! i = Some (mkRunning b (Some (j, f :: facts, m))) →
      apply_step t (db (node b), m) f = (s', m') →
      deployment (<[i := mkRunning (replace_db b s') (Some (j, facts, m'))]> D)
  | deploy_commit D i b j m :
      deployment D → D !! i = Some (mkRunning b (Some (j, [], m))) →
      deployment (<[i := mkRunning (replace_db b (set_cursor (db (node b)) j m)) None]> D)
  | deploy_crash D i b p :
      deployment D → D !! i = Some (mkRunning b p) →
      deployment (<[i := mkRunning b None]> D).

(** ** The metadata is a run of the cluster *)

Definition site_of (r : Running) : Site := mkSite (metadata r) (pulls_page r).

Lemma cluster_ran C own seen i s p l s' :
  cluster C own seen → C !! i = Some (mkSite s p) → ran s l s' →
  ∃ own' seen', cluster (<[i := mkSite s' p]> C) own' seen' ∧ extended i l own own'.
Proof.
  intros HC Hi Hr. revert C own seen HC Hi.
  induction Hr as [s|s t o l s' Ho _ IH]; intros C own seen HC Hi.
  { exists own, seen. rewrite insert_id by done. split; [done|apply extended_nil]. }
  pose proof (cluster_local _ _ _ i s p t o HC Hi Ho) as HC1.
  destruct (IH _ _ _ HC1) as (own' & seen' & HC' & [He1 He2]); [by rewrite lookup_insert_eq|].
  exists own', seen'. rewrite insert_insert_eq in HC'. split; [done|]. split.
  - rewrite He1, fn_lookup_insert. by rewrite app_assoc.
  - intros j Hj. rewrite He2 by done. by rewrite fn_lookup_insert_ne.
Qed.

(** Announcements in a site's log name the site. *)
Definition announces (j : string) (x : stamped) : Prop :=
  match x.2 with BlockAnnounce _ loc _ _ => loc = j | _ => True end.

Lemma ran_announces s l s' : ran s l s' → Forall (announces (local_location_id s)) l.
Proof.
  induction 1 as [|s t o l s' Ho Hr IH]; [constructor|]. apply Forall_app. split.
  - destruct o; by repeat constructor.
  - assert (local_location_id (run_op s t o) = local_location_id s) as <-; [|done].
    exact (ran_id _ _ _ (ran_op s t o Ho)).
Qed.

Abbreviation blocks_ok := (node_ok (λ _, True)).

(** What holds of every node of a deployment. *)
Record node_inv (i : string) (r : Running) : Prop := {
  ni_id : local_location_id (metadata r) = i;
  ni_ok : blocks_ok (node (backend r));
  ni_page : match pulls_page r with
            | Some (j, facts, _) => i ≠ j ∧ Forall (λ f, announces j (ts f, fact f)) facts
            | None => True
            end;
}.

Record deployment_inv (D : gmap string Running) (own seen : string → list stamped) : Prop := {
  di_cluster : cluster (site_of <$> D) own seen;
  di_node i r : D !! i = Some r → node_inv i r;
  di_own j : Forall (announces j) (own j);
}.

Lemma di_update D own seen own' seen' i r :
  deployment_inv D own seen → cluster (site_of <$> <[i := r]> D) own' seen' → node_inv i r →
  (∀ j, Forall (announces j) (own' j)) → deployment_inv (<[i := r]> D) own' seen'.
Proof.
  intros [_ Hn _] HC Hr Ho. split; [done| |done].
  intros j rj [[<- <-]|[_ Hj]]%lookup_insert_Some; [done|by apply Hn].
Qed.

Lemma records_announce j l : ∀ n, Forall (announces j) l → Forall (λ f, announces j (ts f, fact f)) (records_from n l).
Proof. induction l as [|x l IH]; intros n Hl; [constructor|]. apply Forall_cons in Hl as [Hx Hl]. constructor; [done|auto]. Qed.

(** A fact of another site does not announce a location of this one. *)
Definition foreign (s : Store) (f : FactRecord Value) : Prop :=
  match fact f with BlockAnnounce _ loc _ _ => loc ≠ local_location_id s | _ => True end.

(** Applying another site's facts does not touch the local blocks. *)
Lemma apply_locations s t f s' h :
  apply_fact s t f = Ok s' → foreign s f →
  get_local_block_fid s' h = get_local_block_fid s h ∧ local_location_id s' = local_location_id s.
Proof.
  unfold apply_fact, foreign. destruct f as [n ts0 []]; simpl; intros Ha Hne.
  - destruct (mapM hex_decode blocks); by simplify_eq.
  - by simplify_eq.
  - destruct (hex_decode hash) as [hb|], (hex_decode fid) as [fb|]; try done.
    assert (∀ s1, s1 = upsert_block_location hb location_id fb size ts0 s →
      get_local_block_fid s1 h = get_local_block_fid s h ∧ local_location_id s1 = local_location_id s) as Hs1.
    { intros s1 ->. split; [|done]. unfold get_local_block_fid. simpl. by rewrite lww_upsert_lookup_ne by congruence. }
    destruct (_ && _) in Ha; injection Ha as <-; exact (Hs1 _ eq_refl).
  - by simplify_eq.
Qed.

(** Answers of peers whose blocks are sound match what was asked. *)
Lemma served_honest D fetch :
  served D fetch → (∀ i r, D !! i = Some r → blocks_ok (node (backend r))) →
  ∀ url h d, fetch url h = Ok d → blake3 d = h.
Proof.
  intros Hs Hok url h d Hf. destruct (Hs _ _ _ Hf) as (j & r & fid & Hj & Hl & Hg).
  destruct (Hok _ _ Hj _ _ Hl) as (d' & Hc & _ & Hd').
  destruct (get h fid (blob (node (backend r)))) as [x b'] eqn:E. simpl in Hg. subst x.
  by rewrite (get_content _ _ _ _ _ _ Hc E).
Qed.

Lemma site_lookup (D : gmap string Running) i r : D !! i = Some r → (site_of <$> D) !! i = Some (site_of r).
Proof. intros Hi. by rewrite lookup_fmap, Hi. Qed.

Lemma inv_start D own seen i c bl g :
  deployment_inv D own seen → D !! i = None →
  deployment_inv (<[i := mkRunning (mkBackend (mkNodeState (empty_store i c) bl) g) None]> D) own seen.
Proof.
  intros HD Hi. apply (di_update D own seen own seen); [done| | |by apply HD].
  - rewrite fmap_insert. apply cluster_join; [by apply HD|]. by rewrite lookup_fmap, Hi.
  - split; [done| |done]. by intros h fid.
Qed.

Lemma inv_event D own seen i b p fetch cfg e :
  deployment_inv D own seen → D !! i = Some (mkRunning b p) → served D fetch →
  ∃ own' seen', deployment_inv (<[i := mkRunning (run_event fetch cfg e b) p]> D) own' seen'.
Proof.
  intros HD Hi Hs. destruct (di_node _ _ _ HD _ _ Hi) as [Hid Hok Hpage]. simpl in *.
  destruct (run_event_moves fetch logged cfg e b) as [l Hran].
  destruct (cluster_ran _ _ _ i (db (node b)) p l (db (node (run_event fetch cfg e b)))
    (di_cluster _ _ _ HD) (site_lookup _ _ _ Hi) Hran) as (own' & seen' & HC & [He1 He2]).
  exists own', seen'. apply (di_update D own seen); [done|by rewrite fmap_insert| |].
  - split; simpl; [by rewrite (ran_id _ _ _ Hran)| |done].
    assert (NodeRelation fetch stays_ok) as Hrel.
    { apply stays_ok_relation, (served_honest D fetch Hs). intros j r Hj. exact (ni_ok _ _ (di_node _ _ _ HD _ _ Hj)). }
    by apply (run_event_moves fetch stays_ok cfg e b).
  - intros j. destruct (decide (i = j)) as [<-|Hne]; [|rewrite He2 by done; apply HD].
    rewrite He1. apply Forall_app. split; [apply HD|]. rewrite <- Hid. by eapply ran_announces.
Qed.

Lemma inv_page D own seen i b j r facts :
  deployment_inv D own seen → D !! i = Some (mkRunning b None) → D !! j = Some r → i ≠ j →
  facts_since (metadata r) (get_cursor (db (node b)) j) FACT_SYNC_BATCH = Ok facts →
  deployment_inv (<[i := mkRunning b (Some (j, facts, get_cursor (db (node b)) j))]> D) own seen.
Proof.
  intros HD Hi Hj Hne Hf. destruct (di_node _ _ _ HD _ _ Hi) as [Hid Hok _].
  pose proof (cluster_fetch _ _ _ i (db (node b)) j (site_of r) facts (di_cluster _ _ _ HD)
    (site_lookup _ _ _ Hi) (site_lookup _ _ _ Hj) Hne Hf) as HC.
  apply (di_update D own seen); [done|by rewrite fmap_insert| |apply HD].
  split; [done..|]. simpl. split; [done|].
  destruct (inv_pull _ _ _ (cluster_holds _ _ _ HC) i _ (lookup_insert_eq _ _ _)) as (k & l & _ & _ & _ & -> & Hl & _).
  apply records_announce. pose proof (di_own _ _ _ HD j) as Ho. destruct Hl as [z Hz].
  rewrite <- (take_drop k (own j)), Hz, !Forall_app in Ho. apply Ho.
Qed.

Lemma inv_take D own seen i b j f facts m t s' m' :
  deployment_inv D own seen → D !! i = Some (mkRunning b (Some (j, f :: facts, m))) →
  apply_step t (db (node b), m) f = (s', m') →
  ∃ seen', deployment_inv (<[i := mkRunning (replace_db b s') (Some (j, facts, m'))]> D) own seen'.
Proof.
  intros HD Hi Ha. destruct (di_node _ _ _ HD _ _ Hi) as [Hid Hok [Hne Hfs]]. simpl in *.
  apply Forall_cons in Hfs as [Hf Hfs].
  pose proof (cluster_apply _ _ _ i (db (node b)) j f facts m t s' m' (di_cluster _ _ _ HD)
    (site_lookup _ _ _ Hi) Ha) as HC.
  eexists. apply (di_update D own seen); [done|by rewrite fmap_insert| |apply HD].
  assert (∀ h, get_local_block_fid s' h = get_local_block_fid (db (node b)) h ∧
    local_location_id s' = local_location_id (db (node b))) as Hs'.
  { intros h. unfold apply_step in Ha. destruct (apply_fact (db (node b)) t f) as [s1|] eqn:E; simplify_eq; [|done].
    eapply apply_locations; [done|]. unfold foreign, announces in *. destruct (fact f); simpl in *; congruence. }
  split; simpl; [by rewrite (proj2 (Hs' []))| |done].
  intros h fid. cbn [db blob]. rewrite (proj1 (Hs' h)). apply Hok.
Qed.

Lemma inv_done D own seen i b j m :
  deployment_inv D own seen → D !! i = Some (mkRunning b (Some (j, [], m))) →
  deployment_inv (<[i := mkRunning (replace_db b (set_cursor (db (node b)) j m)) None]> D) own seen.
Proof.
  intros HD Hi. destruct (di_node _ _ _ HD _ _ Hi) as [Hid Hok _].
  apply (di_update D own seen); [done| | |apply HD].
  - rewrite fmap_insert. apply cluster_commit; [apply HD|]. by rewrite (site_lookup _ _ _ Hi).
  - by split.
Qed.

Lemma inv_lost D own seen i b p :
  deployment_inv D own seen → D !! i = Some (mkRunning b p) →
  deployment_inv (<[i := mkRunning b None]> D) own seen.
Proof.
  intros HD Hi. destruct (di_node _ _ _ HD _ _ Hi) as [Hid Hok _].
  apply (di_update D own seen); [done| | |apply HD].
  - rewrite fmap_insert. eapply cluster_crash; [apply HD|]. by rewrite (site_lookup _ _ _ Hi).
  - by split.
Qed.

Lemma deployment_holds D : deployment D → ∃ own seen, deployment_inv D own seen.
Proof.
  induction 1 as [|D i c bl g _ (own & seen & IH) Hi|D i b p fetch cfg e _ (own & seen & IH) Hi Hs
    |D i b j r facts _ (own & seen & IH) Hi Hj Hne Hf|D i b j f facts m t s' m' _ (own & seen & IH) Hi Ha
    |D i b j m _ (own & seen & IH) Hi|D i b p _ (own & seen & IH) Hi].
  - exists (λ _, []), (λ _, []). split; [|done|constructor]. rewrite fmap_empty. constructor.
  - exists own, seen. by apply inv_start.
  - by eapply inv_event.
  - exists own, seen. by eapply inv_page.
  - exists own. by eapply inv_take.
  - exists own, seen. by apply inv_done.
  - exists own, seen. by eapply inv_lost.
Qed.

(** ** The facts in a log *)

Definition logged_facts (s : Store) : list stamped :=
  match read_records (fact_log s) with Ok l => (λ r, (ts r, fact r)) <$> l | Err _ => [] end.

Lemma site_logged s own seen : site s own seen → logged_facts s = own.
Proof.
  intros [Hl Hf]%site_log. unfold logged_facts. rewrite Hl, read_log_from by done.
  generalize 1. clear. induction own as [|x own IH]; intros n; [done|]. simpl. rewrite IH. by destruct x.
Qed.

(** The log of every site of a deployment. *)
Definition logs_of (D : gmap string Running) (i : string) : list stamped :=
  match D !! i with Some r => logged_facts (metadata r) | None => [] end.

Lemma logs_of_own D own seen i : deployment_inv D own seen → logs_of D i = own i.
Proof.
  intros HD. pose proof (cluster_holds _ _ _ (di_cluster _ _ _ HD)) as HC. unfold logs_of.
  destruct (D !! i) as [r|] eqn:Hi.
  - eapply site_logged. exact (inv_site _ _ _ HC i _ (site_lookup _ _ _ Hi)).
  - symmetry. apply (inv_absent _ _ _ HC). by rewrite lookup_fmap, Hi.
Qed.

(** ** Pull rounds of running nodes *)

(** One node runs the loop of [sync_facts_once] against one peer. *)
Definition node_pull (fuel : nat) (t : SystemTime) (D : gmap string Running) (i j : string) :
    option (gmap string Running) :=
  ri ← D !! i; rj ← D !! j;
  s' ← sync_peer (serves (metadata rj)) fuel t j "" (metadata ri);
  Some (<[i := mkRunning (replace_db (backend ri) s') None]> D).

Definition node_pulls (fuel : nat) (t : SystemTime) (D : gmap string Running) (ps : list (string * string)) :
    option (gmap string Running) :=
  foldl (λ D p, D' ← D; node_pull fuel t D' p.1 p.2) (Some D) ps.

Abbreviation sites := (λ D : gmap string Running, (site_of <$> D : gmap string Site)).

Lemma node_pull_site fuel t D i j :
  sites <$> node_pull fuel t D i j = pull fuel t (site_of <$> D) i j.
Proof.
  unfold node_pull, pull. rewrite !lookup_fmap. destruct (D !! i) as [ri|]; [|done]. destruct (D !! j) as [rj|]; [|done].
  cbn. destruct (sync_peer _ _ _ _ _ _) as [s'|]; [|done]. cbn. by rewrite fmap_insert.
Qed.

Lemma node_pulls_site fuel t ps : ∀ D,
  sites <$> node_pulls fuel t D ps = pulls fuel t (site_of <$> D) ps.
Proof.
  unfold node_pulls, pulls. intros D.
  assert (∀ o : option (gmap string Running),
    sites <$> foldl (λ D p, D' ← D; node_pull fuel t D' p.1 p.2) o ps =
    foldl (λ C p, C' ← C; pull fuel t C' p.1 p.2) (sites <$> o) ps) as Hall; [|apply (Hall (Some D))].
  induction ps as [|p ps IH]; intros o; [done|]. cbn [foldl]. rewrite IH. f_equal.
  destruct o as [D'|]; [|done]. cbn. apply node_pull_site.
Qed.
End deployment.

(** ** Properties *)

Section properties.
Context `{!Blake3, !Md5, !Hex, !UuidCodec, !Json, !IterOrder, !BlobStore, !LawfulBlob, !ChunkingStrategy}.

(** C8: no node ever holds or serves a wrong block, when storing a block and deleting an orphan
    are each one step.  In every reachable state of a deployment, whatever requests, sweeps,
    queue drains, pulls, failures and crashes happened, however the calls of overlapping ones
    interleaved and however backend calls failed, each block a node's metadata records as
    local is on its backend, and what is read for a hash has that hash.  A call of
    [store_block], [get_block] or [drain_entry] and the visit of a sweep to one block are steps
    of the relation, not interleaved with each other: inside them a store that overlaps the
    deletion of the same block can break the conclusion ([GCRuns.gc_delete_race]). *)
Theorem deployment_blocks_sound D i r h fid :
  deployment D → D !! i = Some r → get_local_block_fid (db (node (backend r))) h = Some fid →
  ∃ d, content (blob (node (backend r))) h fid = Some d ∧ blake3 d = h ∧
    ∀ x, (get h fid (blob (node (backend r)))).1 = Ok x → x = d.
Proof.
  intros (own & seen & HD)%deployment_holds Hi Hl.
  destruct (ni_ok _ _ (di_node _ _ _ HD _ _ Hi) _ _ Hl) as (d & Hc & _ & Hd).
  exists d. split_and!; [done|done|]. intros x Hx.
  destruct (get h fid (blob (node (backend r)))) as [y b'] eqn:E. simpl in Hx. subst y.
  by rewrite (get_content _ _ _ _ _ _ Hc E).
Qed.

(** C21: the running nodes implement the replicated log.  The metadata of every reachable
    deployment is a reachable state of the abstract cluster of [Cluster], in which sites only
    call methods of their stores and pull pages, with the same logs. *)
Theorem deployment_refines D :
  deployment D → ∃ own seen, cluster (site_of <$> D) own seen ∧ ∀ i, own i = logs_of D i.
Proof.
  intros (own & seen & HD)%deployment_holds. exists own, seen. split; [by apply HD|].
  intros i. symmetry. by eapply logs_of_own.
Qed.

(** C2: deployments converge.  From every reachable state of a deployment in which all nodes are
    between two pulls ([pulls_page] is [None]) and in which no two facts in the logs wrote one
    register at the same microsecond ([no_ties]), once each node has pulled from each other
    node, in any order, all nodes hold the same objects and answer every object read, listing
    and user lookup alike.  Two writes of one key at the same microsecond are excluded because
    sites that saw them in different orders keep different ones ([lww_tie_diverges]). *)
Theorem deployment_converges D ps fuel t :
  deployment D → (∀ i r, D !! i = Some r → pulls_page r = None) → no_ties (logs_of D) →
  (∀ i j, (i, j) ∈ ps ↔ i ≠ j ∧ i ∈ dom D ∧ j ∈ dom D) →
  (∀ i, (length (logs_of D i) < fuel * Z.to_nat FACT_SYNC_BATCH)%nat) →
  ∃ D', node_pulls fuel t D ps = Some D' ∧ dom D' = dom D ∧
    ∀ i j ri rj, D' !! i = Some ri → D' !! j = Some rj →
      agree (db (node (backend ri))) (db (node (backend rj))).
Proof.
  intros (own & seen & HD)%deployment_holds Hidle Hties Hps Hfuel.
  assert (∀ i, own i = logs_of D i) as Hown by (intros; symmetry; by eapply logs_of_own).
  destruct (pulls_all ps (site_of <$> D) own seen fuel t) as (C' & seen' & Hp & HC & _ & Hdom & Hall & _).
  - apply HD.
  - intros i s (r & <- & Hr)%lookup_fmap_Some. simpl. by eapply Hidle.
  - apply Forall_forall. intros [i j] Hij. rewrite dom_fmap_L. by apply Hps.
  - intros i. rewrite Hown. apply Hfuel.
  - rewrite <- node_pulls_site in Hp. apply fmap_Some in Hp as (D' & HD' & ->). exists D'. rewrite !dom_fmap_L in Hdom.
    split_and!; [done|done|]. intros i j ri rj Hi Hj.
    apply (caught_up_agree (site_of <$> D') own seen' (cluster_holds _ _ _ HC)
      ltac:(intros a b x y Hx Hy; rewrite Hown in Hx, Hy; by eapply Hties)) with (i := i) (j := j) (si := site_of ri) (sj := site_of rj);
      [|by apply site_lookup..].
    intros a b Hab sa sb Ha Hb. eapply Hall; [|done..]. apply Hps. rewrite <- Hdom, <- (dom_fmap_L site_of D').
    split_and!; [done|apply elem_of_dom; eauto..].
Qed.
End properties.

(** ** Concrete runs *)

Module DeploymentRuns.
#[local] Existing Instances Reference.blake3_pad Reference.md5_rev Reference.hex_lower Reference.uuid_text.
#[local] Existing Instances JsonReference.json_tokens order_id LocalBlob.local_blob LocalBlob.local_lawful.
#[local] Instance chunker8 : ChunkingStrategy := fixed_strategy {| chunk_size := 8 |}.

Definition offline (_ : string) (_ : bytes) : result error bytes := Err FetchError.
Definition cfg : SiteConfig := mkSiteConfig "secret" "a" "http://a:8015" 300.
Definition fresh (id : string) : Backend :=
  mkBackend (mkNodeState (empty_store id (Clock.new 0)) (LocalBlob.mkDisk ∅ [])) disabled.

(** Node [a] gets an administrator and an object of one block; node [b] starts. *)
Definition user_event : event := CreateUser 1000000 "root" "pw" "admin" None.
Definition put_event : event :=
  S3Request (Some "root") 5000000 (PutObject "bk" "k" (Some [Some (as_bytes "hello")])).
Definition node_a1 : Backend := run_event offline cfg user_event (fresh "a").
Definition node_a2 : Backend := run_event offline cfg put_event node_a1.
Definition D0 : gmap string Running :=
  <["b" := mkRunning (fresh "b") None]>
    (<["a" := mkRunning node_a2 None]> (<["a" := mkRunning node_a1 None]> (<["a" := mkRunning (fresh "a") None]> ∅))).

Lemma offline_served D : served D offline.
Proof. done. Qed.

Lemma D0_reachable : deployment D0.
Proof.
  apply deploy_start; [|reflexivity].
  apply (deploy_event _ "a" node_a1 None offline cfg put_event); [|reflexivity|apply offline_served].
  apply (deploy_event _ "a" (fresh "a") None offline cfg user_event); [|reflexivity|apply offline_served].
  apply deploy_start; [constructor|reflexivity].
Qed.

Lemma deployment_blocks_sound_witness :
  get_local_block_fid (db (node node_a2)) (blake3 (as_bytes "hello")) = Some LocalBlob.LOCAL ∧
  ∃ d, content (blob (node node_a2)) (blake3 (as_bytes "hello")) LocalBlob.LOCAL = Some d ∧
    blake3 d = blake3 (as_bytes "hello") ∧
    ∀ x, (get (blake3 (as_bytes "hello")) LocalBlob.LOCAL (blob (node node_a2))).1 = Ok x → x = d.
Proof.
  split; [vm_compute; reflexivity|].
  apply (deployment_blocks_sound D0 "a" (mkRunning node_a2 None) _ _ D0_reachable);
    [reflexivity|vm_compute; reflexivity].
Defined.

Lemma deployment_refines_witness :
  ∃ own seen, cluster (site_of <$> D0) own seen ∧ ∀ i, own i = logs_of D0 i.
Proof. exact (deployment_refines D0 D0_reachable). Defined.

Definition logs_a : list (Z * Fact Value) := Eval vm_compute in logs_of D0 "a".

Lemma logs_D0 i : logs_of D0 i = if decide (i = "a") then logs_a else [].
Proof.
  destruct (decide (i = "a")) as [->|Ha]; [vm_compute; reflexivity|].
  destruct (decide (i = "b")) as [->|Hb]; [vm_compute; reflexivity|].
  unfold logs_of, D0. by rewrite !lookup_insert_ne, lookup_empty by done.
Qed.

Lemma D0_no_ties : no_ties (logs_of D0).
Proof.
  intros i j x y. rewrite !logs_D0. repeat case_decide; rewrite ?elem_of_nil; try done.
  unfold logs_a. rewrite !elem_of_cons, !elem_of_nil.
  intros [->|[->|[->|[]]]] [->|[->|[->|[]]]]; simpl; try done; by intros _ _ [? ?].
Qed.

Definition both : list (string * string) := [("a", "b"); ("b", "a")].

Lemma deployment_converges_witness :
  ∃ D', node_pulls 1 7000000 D0 both = Some D' ∧ dom D' = dom D0 ∧
    ∀ i j ri rj, D' !! i = Some ri → D' !! j = Some rj →
      agree (db (node (backend ri))) (db (node (backend rj))).
Proof.
  apply (deployment_converges D0 both 1 7000000 D0_reachable).
  - intros i r. unfold D0. rewrite !lookup_insert_Some, lookup_empty. naive_solver.
  - exact D0_no_ties.
  - intros i j. unfold both, D0. rewrite !dom_insert_L, dom_empty_L. set_solver.
  - intros i. rewrite logs_D0. case_decide; unfold FACT_SYNC_BATCH; simpl; lia.
Defined.
End DeploymentRuns.
