(* ===== verification/Peers.v ===== *)
(** * Calling peers (src/main.rs: [noise_connect], [noise_get_json], [noise_get_bytes],
    [noise_get_facts], [peer_link_failed], [peer_link_ok]; src/storage.rs: [noise_fetch_block])

    The client half of the traffic between sites.  Every step against the network (the TCP
    connection, the two handshakes, a response) ends after some time with some outcome, or
    never; the calls run such steps under their timeouts.  Time is in microseconds.  The
    theorems bound every call and connect block fetches to the endpoints that answer them. *)

From S2P Require Import Prelude Crates Clock Hashing Chunking Listing Policy Disk Tables Store.
From S2P Require Import FactLog BlockStore GC Replication S3 Sync Internal Sizes Cluster Node Deployment.

(** ** Steps and timeouts *)

(** A step of the network: the time it takes, if it ends, and its outcome. *)
Record step (A : Type) : Type := mkStep { takes : option N; ended : option A }.
Arguments mkStep {A} _ _.
Arguments takes {A} _.
Arguments ended {A} _.

Inductive phase : Type := Tcp | NoiseHandshake | HttpHandshake | Exchange.
Inductive rpc_error : Type :=
  | TimedOut (p : phase) | Broken (p : phase) | BadRequest | PeerReturned (s : StatusCode) | BadBody.

(** A call on the time passed so far; [None] when it waits forever. *)
Abbreviation call A := (io (option N) rpc_error A).

Definition await {A} (p : phase) (s : step A) : call A := λ now,
  (match ended s with Some a => Ok a | None => Err (Broken p) end,
   n ← now; d ← takes s; Some (n + d)%N).

(** [tokio::time::timeout]. *)
Definition timeout {A} (limit : N) (p : phase) (m : call A) : call A := λ now,
  match now with
  | None => (Err (TimedOut p), None)
  | Some n =>
      match m (Some n) with
      | (r, Some n') => if (n' - n <=? limit)%N then (r, Some n') else (Err (TimedOut p), Some (n + limit)%N)
      | (_, None) => (Err (TimedOut p), Some (n + limit)%N)
      end
  end.

Definition PEER_CONNECT_TIMEOUT : N := 5_000_000.
Definition PEER_REQUEST_TIMEOUT : N := 60_000_000.
Definition PEER_FETCH_TIMEOUT : N := 60_000_000.

(** ** Addresses *)

(** [trim_start_matches] and [trim_end_matches]: every repetition is removed. *)
Definition trim_start_matches (piece s : string) : string :=
  of_bytes (strip_pieces [as_bytes piece] (String.length s) (as_bytes s)).
Definition trim_end_slashes (s : string) : string :=
  of_bytes (rev (strip_pieces [["/"%char]] (String.length s) (rev (as_bytes s)))).

Definition host_port (peer_url : string) : string :=
  trim_start_matches "https://" (trim_start_matches "http://" (trim_end_slashes peer_url)).

(** ** Calls *)

Section calls.
Context `{!Blake3, !Hex, !UuidCodec, !Json, !IterOrder, !BlobStore}.

(** A way to a peer. *)
Record Link : Type := mkLink {
  tcp_connect : step unit;
  noise_handshake : step unit;
  http_handshake : step unit;
  send_request : Request → step StatusCode;
  collect_body : Request → step Body;
}.

(** [request_valid]: the request builder of the http crate accepts the path and the headers. *)
Context (request_valid : Request → bool).
(** The network: what is behind an address. *)
Context (dial : string → Link).

Definition noise_connect (peer_internal_url : string) : call Link :=
  let link := dial (host_port peer_internal_url) in
  do! timeout PEER_CONNECT_TIMEOUT Tcp (await Tcp (tcp_connect link));
  do! timeout PEER_CONNECT_TIMEOUT NoiseHandshake (await NoiseHandshake (noise_handshake link));
  ret link.

(** Sending a request and reading the answer; the time between the request and the status. *)
Definition exchange (link : Link) (req : Request) : call (Body * N) := λ start,
  (do! (if request_valid req then ret tt else fail BadRequest);
   let! st := await Exchange (send_request link req) in
   let! elapsed := (λ now, (Ok (default 0 now - default 0 start)%N, now)) in
   if is_success st then
     let! b := await Exchange (collect_body link req) in ret (b, elapsed)
   else fail (PeerReturned st)) start.

Definition request (peer_url : string) (req : Request) : call (Body * N) :=
  let! link := noise_connect peer_url in
  timeout PEER_REQUEST_TIMEOUT Exchange
    (do! await HttpHandshake (http_handshake link); exchange link req).

Definition noise_get_json (peer_internal_url path secret : string) : call (ClusterConfigResponse * N) :=
  let! ' (body, rtt) := request peer_internal_url (mkRequest (Some (as_bytes secret)) path None) in
  match body with ConfigJson parsed => ret (parsed, rtt) | _ => fail BadBody end.

Definition noise_get_bytes (peer_url path : string) (query : option string) (secret : string) : call Body :=
  let! ' (body, _rtt) := request peer_url (mkRequest (Some (as_bytes secret)) path query) in
  ret body.

Definition noise_get_facts (peer_url : string) (after : Z) (secret : string) : call (list (FactRecord Value)) :=
  let! ' (body, _rtt) := request peer_url (facts_request secret after) in
  match body with FactsJson facts => ret facts | _ => fail BadBody end.

(** The HTTP handshake of a block fetch has a deadline of its own. *)
Definition block_request (secret : string) (hash : bytes) : Request :=
  mkRequest (Some (as_bytes secret)) ("/internal/blocks/" +:+ hex_encode hash) None.

Definition noise_fetch_block (secret peer_url : string) (hash : bytes) : call Body :=
  let! link := noise_connect peer_url in
  do! timeout PEER_CONNECT_TIMEOUT HttpHandshake (await HttpHandshake (http_handshake link));
  do! (if request_valid (block_request secret hash) then ret tt else fail BadRequest);
  timeout PEER_FETCH_TIMEOUT Exchange
    (let! st := await Exchange (send_request link (block_request secret hash)) in
     if is_success st then await Exchange (collect_body link (block_request secret hash)) else fail (PeerReturned st)).
End calls.

(** ** Deadlines *)

(** Whatever the network does, the call is over [limit] after it began. *)
Definition ends_within {A} (limit : N) (m : call A) : Prop :=
  ∀ n, ∃ r n', m (Some n) = (r, Some n') ∧ (n' ≤ n + limit)%N.

Lemma ends_ret {A} (a : A) : ends_within 0 (ret a).
Proof. intros n. eexists _, n. split; [done|lia]. Qed.
Lemma ends_fail {A} e : ends_within (A:=A) 0 (fail e).
Proof. intros n. eexists _, n. split; [done|lia]. Qed.
Lemma ends_timeout {A} limit p (m : call A) : ends_within limit (timeout limit p m).
Proof.
  intros n. unfold timeout. destruct (m (Some n)) as [r [n'|]]; [|eexists _, _; split; [done|lia]].
  destruct (N.leb_spec (n' - n) limit); eexists _, _; (split; [done|lia]).
Qed.
Lemma ends_bind {A B} a b (m : call A) (k : A → call B) :
  ends_within a m → (∀ x, ends_within b (k x)) → ends_within (a + b) (bind m k).
Proof.
  intros Hm Hk n. unfold bind. destruct (Hm n) as ([x|e] & n1 & -> & H1).
  - destruct (Hk x n1) as (r & n2 & -> & H2). exists r, n2. split; [done|lia].
  - exists (Err e), n1. split; [done|lia].
Qed.
Lemma ends_weaken {A} a b (m : call A) : ends_within a m → (a ≤ b)%N → ends_within b m.
Proof. intros Hm Hab n. destruct (Hm n) as (r & n' & -> & Hn). exists r, n'. split; [done|lia]. Qed.

Create HintDb deadlines.
#[export] Hint Resolve ends_ret ends_fail ends_timeout : deadlines.

Section deadlines.
Context `{!Blake3, !Hex, !UuidCodec, !Json, !IterOrder, !BlobStore}.
Context (request_valid : Request → bool) (dial : string → Link).

Lemma noise_connect_ends url : ends_within (2 * PEER_CONNECT_TIMEOUT) (noise_connect dial url).
Proof.
  eapply ends_weaken; [unfold noise_connect; repeat (apply ends_bind; intros); eauto with deadlines|].
  unfold PEER_CONNECT_TIMEOUT. lia.
Qed.

Lemma request_ends url req :
  ends_within (2 * PEER_CONNECT_TIMEOUT + PEER_REQUEST_TIMEOUT) (request request_valid dial url req).
Proof. apply ends_bind; [apply noise_connect_ends|auto with deadlines]. Qed.

Lemma request_then_ends {B} url req (k : Body * N → call B) :
  (∀ x, ends_within 0 (k x)) →
  ends_within (2 * PEER_CONNECT_TIMEOUT + PEER_REQUEST_TIMEOUT) (bind (request request_valid dial url req) k).
Proof. intros Hk. eapply ends_weaken; [apply ends_bind; [apply request_ends|exact Hk]|lia]. Qed.

(** C25: no peer can stall a caller.  Whatever the network does, also when a connection, a
    handshake or a response never ends, a block fetch is over within 75 seconds, and every
    request of clock sync, gossip and fact sync within 70. *)
Theorem peer_calls_bounded url :
  (∀ secret hash, ends_within 75_000_000 (noise_fetch_block request_valid dial secret url hash)) ∧
  (∀ path secret, ends_within 70_000_000 (noise_get_json request_valid dial url path secret)) ∧
  (∀ path query secret, ends_within 70_000_000 (noise_get_bytes request_valid dial url path query secret)) ∧
  (∀ after secret, ends_within 70_000_000 (noise_get_facts request_valid dial url after secret)).
Proof.
  split_and!; intros.
  - unfold noise_fetch_block. change 75_000_000%N with (2 * PEER_CONNECT_TIMEOUT + (PEER_CONNECT_TIMEOUT + (0 + PEER_FETCH_TIMEOUT)))%N.
    apply ends_bind; [apply noise_connect_ends|intros link]. apply ends_bind; [auto with deadlines|intros _].
    apply ends_bind; [destruct (request_valid _)|]; auto with deadlines.
  - apply (request_then_ends url). intros [[] rtt]; auto with deadlines.
  - apply (request_then_ends url). intros [b rtt]; auto with deadlines.
  - apply (request_then_ends url). intros [[] rtt]; auto with deadlines.
Qed.
End deadlines.

(** ** Fetching blocks across the mesh *)

Section mesh.
Context `{!Blake3, !Md5, !Hex, !UuidCodec, !Json, !IterOrder, !BlobStore, !LawfulBlob, !ChunkingStrategy}.
Context (request_valid : Request → bool).
(** How a body that is not a block reads as bytes. *)
Context (serialize : Body → bytes).

(** The steps of a connection that works as far as its steps end well; the answer is that of
    the peer's endpoint, whose panic closes the connection. *)
Record Wire : Type := mkWire {
  w_tcp : step unit; w_noise : step unit; w_http : step unit; w_status : step unit; w_body : step unit
}.
Definition carry {A} (s : step unit) (a : option A) : step A :=
  mkStep (takes s) (match ended s with Some _ => a | None => None end).
Definition answering (w : Wire) (endpoint : Request → result panic Response) : Link := {|
  tcp_connect := w_tcp w; noise_handshake := w_noise w; http_handshake := w_http w;
  send_request req := carry (w_status w) (match endpoint req with Ok resp => Some (status resp) | Err _ => None end);
  collect_body req := carry (w_body w) (match endpoint req with Ok resp => Some (body resp) | Err _ => None end);
|}.
Definition unreachable : Link :=
  mkLink (mkStep None None) (mkStep None None) (mkStep None None) (λ _, mkStep None None) (λ _, mkStep None None).

(** The nodes of a deployment with their configurations, where addresses lead, and the wires. *)
Context (D : gmap string Running) (configs : string → SiteConfig).
Context (located : string → option string) (wire : string → Wire) (t : SystemTime).

Definition body_bytes (b : Body) : bytes :=
  match b with BlockBytes d => d | Text s => as_bytes s | _ => serialize b end.

(** A block fetched from an address, where the peer may itself ask its peers, [depth] deep. *)
Fixpoint mesh_fetch (depth : nat) (secret url : string) (hash : bytes) : result error bytes :=
  match depth with
  | O => Err FetchError
  | S depth =>
      let dial addr :=
        match (i ← located addr; r ← D !! i; Some (i, r)) with
        | Some (i, r) =>
            answering (wire addr) (λ req,
              (handle_internal_request (mesh_fetch depth (cluster_secret (configs i))) (configs i) t req (backend r)).1)
        | None => unreachable
        end in
      match (noise_fetch_block request_valid dial secret url hash (Some 0%N)).1 with
      | Ok b => Ok (body_bytes b)
      | Err _ => Err FetchError
      end
  end.

Lemma get_block_source fetch n hash d :
  (get_block fetch t hash n).1 = Ok d →
  (∃ fid, get_local_block_fid (db n) hash = Some fid ∧ (get hash fid (blob n)).1 = Ok d) ∨ ∃ url, fetch url hash = Ok d.
Proof.
  unfold get_block, read_db, bind at 1. destruct (get_local_block_fid (db n) hash) as [fid|].
  { unfold on_blob. destruct (get hash fid (blob n)) as [r b] eqn:Hg. cbn [fst]. intros ->. left. exists fid. by rewrite Hg. }
  unfold bind at 1. destruct (get_block_fids (db n) hash) as [locs|]; [|done]. unfold bind at 1.
  generalize (iter_order (map_to_list (get_peers_with_urls (db n)))). intros peers.
  induction peers as [|[pid url] peers IH]; [done|]. cbn [fetch_loop]. destruct (decide _); [|done].
  destruct (fetch url hash) as [x|e] eqn:Hf; [|done]. unfold bind, attempt, ret, write_db.
  destruct (promote_block_locally t hash x n) as [[[]|e] n']; cbn; intros [= <-]; right; by exists url.
Qed.

(** What the endpoint answers to a block request. *)
Lemma block_endpoint fetch cfg secret hash b :
  (handle_internal_request fetch cfg t (block_request secret hash) b).1 =
  if decide (Some (as_bytes secret) ≫= to_str ≠ Some (cluster_secret cfg)) then Ok (mkResponse UNAUTHORIZED (Text "Unauthorized"))
  else if decide (length hash = 32%nat) then
    match (get_block fetch t hash (node b)).1 with
    | Ok d => Ok (mkResponse OK (BlockBytes d))
    | Err _ => Ok (mkResponse NOT_FOUND (Text "Not found"))
    end
  else Ok (mkResponse BAD_REQUEST (Text "Hash must be 32 bytes")).
Proof.
  unfold handle_internal_request, block_request. cbn [secret_header uri_path uri_query].
  destruct (decide (_ ≫= to_str ≠ _)); [done|].
  change ("/internal/blocks/" +:+ hex_encode hash) with
    (String "/" (String "i" (String "n" (String "t" (String "e" (String "r" (String "n" (String "a" (String "l"
    (String "/" (String "b" (String "l" (String "o" (String "c" (String "k" (String "s" (String "/" (hex_encode hash)))))))))))))))))).
  repeat (rewrite decide_False by congruence). cbn [strip_prefix]. simpl.
  unfold handle_block. rewrite hex_decode_encode. destruct (decide _); [|done].
  destruct (get_block _ _ _ _) as [[d|] n']; done.
Qed.

Lemma timeout_ok {A} limit p (m : call A) n a :
  (timeout limit p m (Some n)).1 = Ok a → (m (Some n)).1 = Ok a.
Proof. unfold timeout. destruct (m (Some n)) as [r [n'|]]; [|done]. by destruct (_ <=? _)%N. Qed.

(** A fetch that succeeds has the body of the peer's [OK] answer. *)
Lemma fetch_answer dial secret url hash b :
  (noise_fetch_block request_valid dial secret url hash (Some 0%N)).1 = Ok b →
  ended (send_request (dial (host_port url)) (block_request secret hash)) = Some OK ∧
  ended (collect_body (dial (host_port url)) (block_request secret hash)) = Some b.
Proof.
  unfold noise_fetch_block. unfold bind at 1. destruct (noise_connect dial url _) as [[link|] n1] eqn:Hc; [|done].
  destruct (noise_connect_ends dial url 0%N) as (? & n1' & Heq & _). rewrite Hc in Heq. injection Heq as _ ->.
  unfold noise_connect in Hc. apply bind_inv in Hc as (_ & ? & _ & Hc). apply bind_inv in Hc as (_ & ? & _ & Hc).
  injection Hc as <- _. unfold bind at 1.
  match goal with |- context [timeout ?l HttpHandshake ?m ?w] => destruct (ends_timeout l HttpHandshake m n1') as (r & n2 & Hr & _); rewrite Hr end.
  destruct r; [|done]. unfold bind at 1. destruct (request_valid _); [|done].
  intros Ho%timeout_ok. unfold bind, await at 1 in Ho.
  destruct (ended (send_request _ _)) as [st|]; [|done]. destruct st; try done. cbn [is_success] in Ho.
  unfold await in Ho. cbn [fst] in Ho. by destruct (ended (collect_body _ _)); simplify_eq.
Qed.

Lemma mesh_served depth : ∀ secret, served D (mesh_fetch depth secret).
Proof.
  induction depth as [|depth IH]; intros secret url hash d; [done|]. cbn [mesh_fetch].
  destruct (noise_fetch_block _ _ _ _ _ _).1 as [b|] eqn:Hf; [|done]. intros [= <-].
  apply fetch_answer in Hf as [Hs Hb]. revert Hs Hb. cbv beta.
  destruct (located (host_port url)) as [i|]; [|done]. cbn [mbind option_bind].
  destruct (D !! i) as [r|] eqn:Hi; [|done]. cbn [mbind option_bind answering send_request collect_body].
  unfold carry. cbn [ended]. destruct (ended (w_status _)); [|done]. destruct (ended (w_body _)); [|done].
  rewrite block_endpoint. destruct (decide _); [done|]. destruct (decide _); [|done].
  destruct (get_block _ _ _ _).1 as [x|] eqn:Hg; [|done]. cbn [status body]. intros _ [= <-].
  apply get_block_source in Hg as [(fid & Hl & Hx)|[url' Hx]]; [by exists i, r, fid|by eapply IH].
Qed.

(** Every step of the wire ends well and in time. *)
Definition quick (limit : N) (s : step unit) : Prop := ended s = Some tt ∧ ∃ d, takes s = Some d ∧ (d ≤ limit)%N.
Definition prompt (w : Wire) : Prop :=
  quick PEER_CONNECT_TIMEOUT (w_tcp w) ∧ quick PEER_CONNECT_TIMEOUT (w_noise w) ∧
  quick PEER_CONNECT_TIMEOUT (w_http w) ∧ quick 30_000_000 (w_status w) ∧ quick 30_000_000 (w_body w).

Lemma await_quick limit p s n : quick limit s → ∃ n', timeout limit p (await p s) (Some n) = (Ok tt, Some n').
Proof.
  intros [He (d & Hd & Hle)]. unfold timeout, await. rewrite He, Hd. cbn. rewrite (proj2 (N.leb_le _ _)) by lia. eauto.
Qed.

Lemma exchange_quick w endpoint req resp n :
  quick 30_000_000 (w_status w) → quick 30_000_000 (w_body w) → endpoint req = Ok resp → status resp = OK →
  (timeout PEER_FETCH_TIMEOUT Exchange
     (let! st := await Exchange (send_request (answering w endpoint) req) in
      if is_success st then await Exchange (collect_body (answering w endpoint) req) else fail (PeerReturned st)) (Some n)).1
  = Ok (body resp).
Proof.
  intros [He1 (d1 & Hd1 & Hle1)] [He2 (d2 & Hd2 & Hle2)] Hr Hok.
  unfold timeout, bind, await. cbn [answering send_request collect_body carry ended takes].
  rewrite He1, Hr, Hok. cbn [is_success]. cbn [collect_body carry ended takes]. rewrite He2, Hd1, Hd2. cbn.
  rewrite (proj2 (N.leb_le _ _)) by (unfold PEER_FETCH_TIMEOUT; lia). done.
Qed.

(** C15: blocks travel intact.  In any deployment, what a block fetch delivers over the network,
    whichever peers asked each other on the way, has the hash that was asked for; and a peer
    that holds the block, is reached in time and shares the secret delivers it. *)
Theorem peer_fetch_correct : deployment D →
  (∀ depth secret url h d, mesh_fetch depth secret url h = Ok d → blake3 d = h) ∧
  (∀ depth secret url i r h fid d, located (host_port url) = Some i → D !! i = Some r →
    get_local_block_fid (db (node (backend r))) h = Some fid → (get h fid (blob (node (backend r)))).1 = Ok d →
    length h = 32%nat → cluster_secret (configs i) = secret → visible secret →
    request_valid (block_request secret h) = true → prompt (wire (host_port url)) →
    mesh_fetch (S depth) secret url h = Ok d).
Proof.
  intros HD. destruct (deployment_holds D HD) as (own & seen & Hinv). split.
  { intros depth secret url h d Hf. eapply (served_honest D _ (mesh_served depth secret)); [|exact Hf]. intros i r Hi. apply (di_node _ _ _ Hinv i r Hi). }
  intros depth secret url i r h fid d Hloc Hi Hl Hg Qlen Hsec Hvis Hreq (Q1 & Q2 & Q3 & Q4 & Q5).
  cbn [mesh_fetch]. unfold noise_fetch_block, noise_connect. rewrite Hloc. cbn [mbind option_bind]. rewrite Hi.
  cbn [mbind option_bind]. set (ep := λ req, _). unfold bind at 1 2.
  destruct (await_quick _ Tcp _ 0%N Q1) as [n1 Hn1]. cbn [answering tcp_connect]. rewrite Hn1. unfold bind at 1.
  destruct (await_quick _ NoiseHandshake _ n1 Q2) as [n2 Hn2]. cbn [answering noise_handshake]. rewrite Hn2.
  unfold ret at 1. unfold bind at 1. destruct (await_quick _ HttpHandshake _ n2 Q3) as [n3 Hn3].
  cbn [answering http_handshake]. rewrite Hn3. unfold bind at 1. rewrite Hreq. unfold ret at 1.
  rewrite (exchange_quick _ ep _ (mkResponse OK (BlockBytes d))); [done|done|done| |done].
  unfold ep. rewrite block_endpoint. rewrite decide_False by by apply authorized. rewrite decide_True by done.
  unfold get_block, read_db, bind at 1. rewrite Hl. unfold on_blob.
  by destruct (get h fid (blob (node (backend r)))) as [x b']; cbn in *; subst x.
Qed.
End mesh.

(** ** Link state *)

(** The levels of the messages about a peer's link. *)
Inductive level : Type := Warn | Info | Silent.
#[global] Instance level_eq_dec : EqDecision level.
Proof. solve_decision. Defined.

(** [PEER_LINK_UP]: the last outcome per peer. *)
Definition peer_link_failed (links : gmap string bool) (peer_id : string) : level * gmap string bool :=
  (if decide (links !! peer_id = Some false) then Silent else Warn, <[peer_id := false]> links).
Definition peer_link_ok (links : gmap string bool) (peer_id : string) : level * gmap string bool :=
  (if decide (links !! peer_id = Some false) then Info else Silent, <[peer_id := true]> links).

(** The messages about [id] above debug level while the loops report outcomes of all peers. *)
Fixpoint link_log (id : string) (links : gmap string bool) (outcomes : list (string * bool)) : list level :=
  match outcomes with
  | [] => []
  | (peer, up) :: rest =>
      let '(l, links) := if (up : bool) then peer_link_ok links peer else peer_link_failed links peer in
      (if decide (peer = id ∧ l ≠ Silent) then [l] else []) ++ link_log id links rest
  end.

Fixpoint alternate (next : level) (l : list level) : Prop :=
  match l with
  | [] => True
  | x :: l' => x = next ∧ alternate (match next with Warn => Info | _ => Warn end) l'
  end.

(** Links are logged on edges only.  Whatever outcomes the loops report, in whatever order over
    whichever peers, the messages about one peer alternate: unreachable, reachable again,
    unreachable, and so on. *)
Theorem link_log_alternates id outcomes : alternate Warn (link_log id ∅ outcomes).
Proof.
  assert (∀ links, alternate (if decide (links !! id = Some false) then Info else Warn) (link_log id links outcomes))
    as Hgen; [|exact (Hgen ∅)].
  induction outcomes as [|[peer up] rest IH]; intros links; [done|].
  destruct (decide (peer = id)) as [->|Hne].
  - specialize (IH (<[id := up]> links)). rewrite lookup_insert_eq in IH. unfold link_log; fold link_log.
    destruct up; unfold peer_link_ok, peer_link_failed; destruct (decide (links !! id = Some false)) in |- *;
      cbn in *; repeat case_decide; naive_solver.
  - specialize (IH (<[peer := up]> links)). rewrite lookup_insert_ne in IH by done. unfold link_log; fold link_log.
    destruct up; unfold peer_link_ok, peer_link_failed; cbn; destruct (decide (peer = id ∧ _)) as [[? _]|_]; done.
Qed.

(** ** Concrete runs *)

Module PeersRuns.
Import DeploymentRuns.
#[local] Existing Instances Reference.blake3_pad Reference.md5_rev Reference.hex_lower Reference.uuid_text.
#[local] Existing Instances JsonReference.json_tokens order_id LocalBlob.local_blob LocalBlob.local_lawful.
#[local] Existing Instance DeploymentRuns.chunker8.

Definition at_once : step unit := mkStep (Some 1000%N) (Some tt).
Definition good_wire : Wire := mkWire at_once at_once at_once at_once at_once.
Definition hosts (addr : string) : option string := if decide (addr = "a:8015") then Some "a" else None.
Definition h0 : bytes := blake3 (as_bytes "hello").

Lemma peer_fetch_correct_witness :
  mesh_fetch (λ _, true) (λ _, []) D0 (λ _, cfg) hosts (λ _, good_wire) 6000000 1 "secret" "http://a:8015/" h0 =
    Ok (as_bytes "hello") ∧ blake3 (as_bytes "hello") = h0.
Proof.
  destruct (peer_fetch_correct (λ _, true) (λ _, []) D0 (λ _, cfg) hosts (λ _, good_wire) 6000000 D0_reachable) as [Hs Hc].
  assert (mesh_fetch (λ _, true) (λ _, []) D0 (λ _, cfg) hosts (λ _, good_wire) 6000000 1 "secret" "http://a:8015/" h0 =
    Ok (as_bytes "hello")) as Hf.
  { refine (Hc 0%nat "secret" "http://a:8015/" "a" (mkRunning node_a2 None) h0 LocalBlob.LOCAL (as_bytes "hello") _ _ _ _ _ _ _ _ _).
    - vm_compute. reflexivity.
    - reflexivity.
    - vm_compute. reflexivity.
    - vm_compute. reflexivity.
    - reflexivity.
    - reflexivity.
    - reflexivity.
    - reflexivity.
    - repeat split; eexists; split; (reflexivity || (vm_compute; discriminate)). }
  split; [exact Hf|]. exact (Hs 1%nat "secret" "http://a:8015/" h0 _ Hf).
Defined.

(** Two sites send each other in circles.  Node [b] has replicated a block of [a] and both
    have announced it to each other; then the object is deleted and both collect the block.
    A collected block is not announced, so each still lists the other as its holder: what [a]
    answers to a request for the block is what [b] answers to the one it makes, and the other
    way around, and such a request is passed back and forth until a deadline ends it. *)
Definition pulled (sj : Store) (j url : string) (b : Backend) : Backend :=
  with_db b (λ s, record_peer (default s (sync_peer (serves sj) 2 7000000 j url s)) 7000000 j url).
Definition cfg_b : SiteConfig := mkSiteConfig "secret" "b" "http://b:8015" 300.
Definition force_gc : event := InternalRequest 9000000 (mkRequest (Some (as_bytes "secret")) "/internal/gc/force" None).
Definition from_a (_ : string) (h : bytes) : result error bytes := (get_block offline 8000000 h (node node_a2)).1.
Definition b_copied : Backend :=
  run_event from_a cfg_b (Drain 400000000 None) (pulled (db (node node_a2)) "a" "http://a:8015" (fresh "b")).
Definition a_deleted : Backend :=
  run_event offline cfg (S3Request (Some "root") 8000000 (DeleteObject "bk" "k"))
    (pulled (db (node b_copied)) "b" "http://b:8015" node_a2).
Definition a_collected : Backend := run_event offline cfg force_gc a_deleted.
Definition b_collected : Backend :=
  run_event offline cfg_b force_gc (pulled (db (node a_deleted)) "a" "http://a:8015" b_copied).

Lemma sole_peer fetch t h n locs pid url :
  get_local_block_fid (db n) h = None → get_block_fids (db n) h = Some locs → is_Some (locs !! pid) →
  iter_order (map_to_list (get_peers_with_urls (db n))) = [(pid, url)] →
  (get_block fetch t h n).1 = match fetch url h with Ok d => Ok d | Err _ => Err (BlockUnavailable h) end.
Proof.
  intros Hl Hf Hp Hi. unfold get_block, read_db, bind at 1. rewrite Hl. unfold bind at 1. rewrite Hf. unfold bind at 1.
  rewrite Hi. cbn [fetch_loop]. rewrite decide_True by done. destruct (fetch url h) as [d|]; [|done].
  unfold bind, attempt, ret, write_db. by destruct (promote_block_locally t h d n) as [[[]|] ?].
Qed.

Theorem collected_block_ping_pong :
  get_local_block_fid (db (node b_copied)) h0 = Some LocalBlob.LOCAL ∧
  ∀ fetch t,
    (get_block fetch t h0 (node a_collected)).1 =
      match fetch "http://b:8015" h0 with Ok d => Ok d | Err _ => Err (BlockUnavailable h0) end ∧
    (get_block fetch t h0 (node b_collected)).1 =
      match fetch "http://a:8015" h0 with Ok d => Ok d | Err _ => Err (BlockUnavailable h0) end.
Proof.
  split; [vm_compute; reflexivity|]. intros fetch t. split.
  - apply (sole_peer fetch t h0 (node a_collected) (default ∅ (get_block_fids (db (node a_collected)) h0)) "b"); try (vm_compute; reflexivity). vm_compute; eauto.
  - apply (sole_peer fetch t h0 (node b_collected) (default ∅ (get_block_fids (db (node b_collected)) h0)) "a"); try (vm_compute; reflexivity). vm_compute; eauto.
Qed.
End PeersRuns.
