(* ===== verification/Sweep.v ===== *)
(** * A sweep among the other tasks of a node

    [sweep_orphaned_blocks] (src/storage.rs) takes its snapshot and then visits the local
    blocks while requests, the pull queue, peers' requests and fact sync go on.  [during] is
    every such interleaving at the granularity of one visit, one request or one fact.  The
    deletion of one orphan is a single step here; what can go wrong inside it is
    [GCRuns.gc_delete_race]. *)

From S2P Require Import Prelude Crates Clock Hashing Chunking Range Listing Policy Disk Tables Store.
From S2P Require Import FactLog Objects BlockStore GC Replication S3 Sync Internal Cluster Node Deployment.

Section sweep.
Context `{!Blake3, !Md5, !Hex, !UuidCodec, !Json, !IterOrder, !BlobStore, !LawfulBlob, !ChunkingStrategy}.
Context (grace : Z) (force : bool).

(** ** Nothing but a sweep removes a block *)

Definition keeps_held (n n' : Node) : Prop := ∀ h, held n h → held n' h.

#[global] Instance keeps_held_preorder : PreOrder keeps_held.
Proof. unfold keeps_held. split; [by intros n h|intros n1 n2 n3; auto]. Qed.

Lemma store_local_held s t h fid size h' :
  is_Some (get_local_block_fid s h') → is_Some (get_local_block_fid (store_local_block s t h fid size) h').
Proof.
  unfold get_local_block_fid. simpl. rewrite !fmap_is_Some, lww_upsert_is_Some. auto.
Qed.

Lemma put_keeps_held t h d size :
  moves keeps_held (let! fid := on_blob (put h d) in write_db (λ s, store_local_block s t h fid size)).
Proof.
  intros n h' Hh. unfold bind, on_blob, write_db. destruct (put h d (blob n)) as [[fid|e] b']; [|done].
  by apply store_local_held.
Qed.

#[global] Instance keeps_held_relation fetch : NodeRelation fetch keeps_held.
Proof.
  split; [apply _| | | |].
  - intros n f Hf h. unfold held. cbn [db]. by rewrite quiet_locations.
  - by intros n h fid h'.
  - intros t d size. unfold store_block. apply moves_bind; [apply _|apply moves_still; [apply _|done]|].
    intros [fid|]; [apply moves_ret, _|]. intros n h' Hh. pose proof (put_keeps_held t (blake3 d) d size n h' Hh) as Hp.
    unfold bind, on_blob, write_db in *. by destruct (put _ _ _) as [[?|?] ?].
  - intros t url h d _. unfold promote_block_locally. apply moves_bind; [apply _|apply moves_still; [apply _|done]|].
    intros [fid|]; [apply moves_ret, _|]. apply put_keeps_held.
Qed.

Lemma apply_keeps_held s t f s' h :
  apply_fact s t f = Ok s' → is_Some (get_local_block_fid s h) → is_Some (get_local_block_fid s' h).
Proof.
  unfold apply_fact. destruct f as [n ts0 []]; simpl; intros Ha Hh.
  - destruct (mapM hex_decode blocks); by simplify_eq.
  - by simplify_eq.
  - destruct (hex_decode hash) as [hb|], (hex_decode fid) as [fb|]; try done.
    assert (is_Some (get_local_block_fid (upsert_block_location hb location_id fb size ts0 s) h)) as Hs1.
    { revert Hh. unfold get_local_block_fid. simpl. rewrite !fmap_is_Some, lww_upsert_is_Some. auto. }
    destruct (_ && _) in Ha; injection Ha as <-; exact Hs1.
  - by simplify_eq.
Qed.

(** A visit removes at most the block it visits, and only when its time has come. *)
Lemma sweep_hash_held sn t h n h' :
  held n h' → h' ≠ h ∨ reaped grace force sn h = false → held (sweep_hash grace force sn t h n).2 h'.
Proof.
  intros Hh Hor. unfold sweep_hash. destruct (decide (h ∈ sn_live sn)) as [Hl|Hl].
  { by destruct (sn_pending sn !! h). }
  assert (∀ n1 at_, held n1 h' → reap_time grace sn h = at_ →
    held ((if negb force && (sn_now sn <? at_) then ret tt else reap h) n1).2 h') as Hreap.
  { intros n1 at_ Hh1 <-. rewrite (reaped_orphan grace force sn h Hl) in Hor.
    destruct (negb force && _); [done|]. destruct Hor as [Hne|]; [|done].
    unfold reap, read_db, write_db, bind, ret, attempt. unfold held in *.
    destruct (get_local_block_fid (db n1) h) as [fid|]; [|done]. cbn [db blob].
    assert (is_Some (get_local_block_fid (delete_local_block (db n1) h).2 h')) as Hd
      by (by rewrite delete_local_lookup, decide_False).
    destruct (delete_local_block (db n1) h).1; [|done]. unfold delete_block, on_blob. cbn [db blob].
    by destruct (delete_blob _ _ _). }
  unfold orphan_deadline, bind. unfold reap_time in Hreap. destruct (sn_pending sn !! h); cbn [ret].
  - by apply Hreap.
  - unfold note_orphan, write_db. destruct (deadline_fits _ _); [|done].
    apply Hreap; [|done]. unfold held, add_pending_deletion. cbn [db]. by destruct (_ <? _).
Qed.

(** ** Interleavings *)

(** What peers answer is honest when each answer has the hash asked for. *)
Definition honest (fetch : string → bytes → result error bytes) : Prop :=
  ∀ url h d, fetch url h = Ok d → blake3 d = h.

(** Everything a node does besides sweeping, at the granularity of one request, one block of an
    upload, one entry of the pull queue or one fact. *)
Inductive task_step (b : Backend) : Backend → Prop :=
  | task_s3 fetch creds t c : honest fetch → task_step b (run_s3 fetch creds t c b).2
  | task_store t d size : task_step b (on_node (store_block t d size) b).2
  | task_block_request fetch t h : honest fetch → task_step b (on_node (get_block fetch t h) b).2
  | task_drain fetch t peers e : honest fetch → task_step b (on_node (drain_entry fetch t peers e) b).2
  | task_metadata f : quiet f → task_step b (with_db b f)
  | task_fact t f s' :
      foreign (db (node b)) f → apply_fact (db (node b)) t f = Ok s' → task_step b (replace_db b s').

(** From the backend [b0]: visits of the sweep with snapshot [sn], and everything else a node
    does meanwhile, other sweeps apart. *)
Inductive during (sn : Snapshot) (b0 : Backend) : Backend → Prop :=
  | during_start : during sn b0 b0
  | during_visit b t h :
      during sn b0 b → h ∈ sn_local sn → during sn b0 (on_node (sweep_hash grace force sn t h) b).2
  | during_stale b entry :
      during sn b0 b → during sn b0 (on_node (drop_stale sn entry) b).2
  | during_task b b' : during sn b0 b → task_step b b' → during sn b0 b'.

Abbreviation blocks_ok := (node_ok (λ _, True)).

Lemma on_node_ok {A} (m : io Node error A) b :
  moves stays_ok m → blocks_ok (node b) → blocks_ok (node (on_node m b).2).
Proof. intros Hm. exact (moves_on_node stays_ok m Hm b). Qed.
Lemma on_node_held {A} (m : io Node error A) b h :
  moves keeps_held m → held (node b) h → held (node (on_node m b).2) h.
Proof. intros Hm. exact (moves_on_node keeps_held m Hm b h). Qed.

Lemma nobody_honest : honest (λ _ _, Err FetchError).
Proof. done. Qed.

Lemma visit_ok sn t h b : blocks_ok (node b) → blocks_ok (node (on_node (sweep_hash grace force sn t h) b).2).
Proof.
  apply on_node_ok. pose proof (stays_ok_relation _ nobody_honest) as Hrel.
  exact (moves_sweep_hash (λ _ _, Err FetchError) stays_ok grace force sn t h).
Qed.
Lemma stale_ok sn entry b : blocks_ok (node b) → blocks_ok (node (on_node (drop_stale sn entry) b).2).
Proof. apply on_node_ok. unfold drop_stale. destruct (decide _); [apply moves_ret, _|by intros n0 Hn]. Qed.
Lemma stale_held sn entry b h : held (node b) h → held (node (on_node (drop_stale sn entry) b).2) h.
Proof. apply on_node_held. unfold drop_stale. destruct (decide _); [apply moves_ret, _|by intros n0 h1 Hn]. Qed.

Lemma task_ok b b' : task_step b b' → blocks_ok (node b) → blocks_ok (node b').
Proof.
  intros [fetch creds t c Hf|t d size|fetch t h Hf|fetch t peers e Hf|f Hq|t f s' Hforeign Ha] Hok.
  - apply stays_ok_relation in Hf as Hrel. by apply (moves_s3 fetch stays_ok creds t c b).
  - pose proof (stays_ok_relation _ nobody_honest) as Hrel.
    apply on_node_ok; [apply (store_moves (fetch := λ _ _, Err FetchError))|done].
  - apply stays_ok_relation in Hf as Hrel. apply on_node_ok; [by eapply moves_get_block|done].
  - apply stays_ok_relation in Hf as Hrel. apply on_node_ok; [by eapply moves_drain_entry|done].
  - intros h1 fid. cbn [with_db node db blob]. rewrite quiet_locations by done. apply Hok.
  - intros h1 fid. cbn [replace_db with_db node db blob].
    destruct (apply_locations _ _ _ _ h1 Ha Hforeign) as [-> _]. apply Hok.
Qed.

Lemma task_held b b' h : task_step b b' → held (node b) h → held (node b') h.
Proof.
  intros [fetch creds t c Hf|t d size|fetch t h' Hf|fetch t peers e Hf|f Hq|t f s' Hforeign Ha] Hh.
  - by apply (moves_s3 fetch keeps_held creds t c b).
  - apply on_node_held; [apply (store_moves (fetch := λ _ _, Err FetchError))|done].
  - apply on_node_held; [apply (moves_get_block fetch keeps_held)|done].
  - apply on_node_held; [apply (moves_drain_entry fetch keeps_held)|done].
  - by apply (quiet_moves (fetch := λ _ _, Err FetchError) (R := keeps_held) (node b) f Hq).
  - by eapply apply_keeps_held.
Qed.

Lemma visit_held sn t h b h' :
  held (node b) h' → h' ≠ h ∨ reaped grace force sn h = false →
  held (node (on_node (sweep_hash grace force sn t h) b).2) h'.
Proof.
  intros Hh Hor. pose proof (sweep_hash_held sn t h (node b) h' Hh Hor) as Hs.
  unfold on_node. by destruct (sweep_hash _ _ _ _ _ _).
Qed.

Lemma during_ok sn b0 b : during sn b0 b → blocks_ok (node b0) → blocks_ok (node b).
Proof.
  intros Hd Hok. induction Hd as [|b t h _ IH Hin|b entry _ IH|b b' _ IH Ht]; [done|..].
  - by apply visit_ok.
  - by apply stale_ok.
  - by eapply task_ok.
Qed.

(** A block the sweep has no reason to take stays. *)
Lemma during_keeps sn b0 b h :
  during sn b0 b → held (node b0) h → reaped grace force sn h = false ∨ h ∉ sn_local sn → held (node b) h.
Proof.
  intros Hd Hh Hor. induction Hd as [|b t h' _ IH Hin|b entry _ IH|b b' _ IH Ht]; [done|..].
  - apply visit_held; [done|]. destruct (decide (h = h')) as [<-|]; [|by left]. destruct Hor; [by right|done].
  - by apply stale_held.
  - by eapply task_held.
Qed.
End sweep.

(** ** Properties *)

Section properties.
Context `{!Blake3, !Md5, !Hex, !UuidCodec, !Json, !IterOrder, !BlobStore, !LawfulBlob, !ChunkingStrategy}.

(** C9: a sweep is safe among the other tasks.  However its visits interleave with requests,
    pulls of blocks, peers' requests and facts, a block that was local at the snapshot and
    was named by a manifest then, or whose grace had not run out (for a sweep that is not
    forced), is still local at the end, with its bytes; so is every block that became local
    after the snapshot. *)
Theorem sweep_interleaved_safe grace force sn b0 b1 b h :
  during grace force sn b0 b1 → during grace force sn b1 b → node_ok (λ _, True) (node b0) → held (node b1) h →
  h ∈ sn_live sn ∨ (force = false ∧ sn_now sn < reap_time grace sn h) ∨ h ∉ sn_local sn →
  ∃ fid d, get_local_block_fid (db (node b)) h = Some fid ∧
    content (blob (node b)) h fid = Some d ∧ blake3 d = h.
Proof.
  intros Hd1 Hd2 Hok Hh Hcase.
  assert (node_ok (λ _, True) (node b1)) as Hok1 by by eapply during_ok.
  assert (reaped grace force sn h = false ∨ h ∉ sn_local sn) as Hor.
  { destruct Hcase as [Hl|[[-> Hlt]|Hn]]; [left; by apply reaped_live| |by right]. left.
    unfold reaped. rewrite (proj2 (Z.leb_gt _ _)) by lia. apply andb_false_r. }
  destruct (during_keeps grace force sn b1 b h Hd2 Hh Hor) as [fid Hl].
  pose proof (during_ok grace force sn b1 b Hd2 Hok1) as Hokb.
  destruct (Hokb _ _ Hl) as (d & Hc & _ & Hd). eauto.
Qed.

(** Requests never remove a block: whatever a client asks for, a block that was local
    stays local. *)
Theorem s3_keeps_blocks fetch creds t c b h :
  held (node b) h → held (node (run_s3 fetch creds t c b).2) h.
Proof. apply (moves_s3 fetch keeps_held creds t c b). Qed.
End properties.

Module SweepRuns.
#[local] Existing Instances Reference.blake3_pad Reference.md5_rev Reference.hex_lower Reference.uuid_text.
#[local] Existing Instances JsonReference.json_tokens order_id LocalBlob.local_blob LocalBlob.local_lawful.
#[local] Existing Instance DeploymentRuns.chunker8.

(** A node with one object, a forced sweep that marked it, and a deletion of the object before
    the sweep visits its block. *)
Definition h0 : bytes := blake3 (as_bytes "hello").
Definition b0 : Backend := DeploymentRuns.node_a2.
Definition sn : Snapshot := mkSnapshot (compute_live_block_set (db (node b0))) (list_local_block_hashes (db (node b0))) ∅ 6.
Definition b1 : Backend :=
  (run_s3 DeploymentRuns.offline (Some "root") 6000000 (DeleteObject "bk" "k") b0).2.
Definition b2 : Backend := (on_node (sweep_hash 300 true sn 7000000 h0) b1).2.

Lemma b0_ok : node_ok (λ _, True) (node b0).
Proof.
  assert (NodeRelation DeploymentRuns.offline stays_ok) as Hrel by by apply stays_ok_relation.
  refine (run_event_moves DeploymentRuns.offline stays_ok DeploymentRuns.cfg _ _ _).
  refine (run_event_moves DeploymentRuns.offline stays_ok DeploymentRuns.cfg _ _ _).
  by intros h fid.
Qed.

Lemma sweep_interleaved_safe_witness :
  Store.get_object (db (node b1)) "bk" "k" = None ∧
  ∃ fid d, get_local_block_fid (db (node b2)) h0 = Some fid ∧
    content (blob (node b2)) h0 fid = Some d ∧ blake3 d = h0.
Proof.
  split; [vm_compute; reflexivity|].
  apply (sweep_interleaved_safe 300 true sn b0 b0 b2 h0).
  - constructor.
  - apply during_visit; [|apply (bool_decide_unpack _); vm_compute; exact I]. eapply during_task; [constructor|by apply task_s3].
  - exact b0_ok.
  - vm_compute. eauto.
  - left. apply (bool_decide_unpack _). vm_compute. exact I.
Defined.
End SweepRuns.
