(* ===== verification/Grace.v ===== *)
(** * Uploads and the garbage collector's grace period (src/storage.rs)

    An upload stores its blocks one by one and names them in a manifest only at its end; until
    then they look like orphans to a sweep.  What protects them is the grace period.  [grace_step]
    is every interleaving, block by block, of uploads and all other tasks of a node with any
    number of sweeps, scheduled and forced: their marks, visits and clean-up steps.  A block that
    was not already marked for deletion when the upload began survives as long as each sweep is
    either scheduled and marked within the grace period, or marked when a manifest names the
    block or before the node holds it.  What is left out does lose blocks: a block that was
    marked before ([GCRuns.gc_dedup_race]), a scheduled sweep marked after the grace period and a
    forced sweep marked while the upload is under way ([GraceRuns.forced_sweep_loses_upload]). *)

From stdpp Require Import relations.
From S2P Require Import Prelude Crates Clock Hashing Chunking Range Listing Policy Disk Tables Store.
From S2P Require Import FactLog Objects BlockStore GC Replication S3 Sync Internal Cluster Node Deployment Sweep.

Section grace.
Context `{!Blake3, !Md5, !Hex, !UuidCodec, !Json, !IterOrder, !BlobStore, !LawfulBlob, !ChunkingStrategy}.

(** ** The pending deletions change only in sweeps *)

Definition same_pending (n n' : Node) : Prop := pending_deletions (db n') = pending_deletions (db n).

#[global] Instance same_pending_preorder : PreOrder same_pending.
Proof. unfold same_pending. split; [by intros n|intros n1 n2 n3; congruence]. Qed.

Lemma pending_put t h d size :
  moves same_pending (let! fid := on_blob (put h d) in write_db (λ s, store_local_block s t h fid size)).
Proof. intros n. unfold bind, on_blob, write_db. by destruct (put h d (blob n)) as [[fid|e] b']. Qed.

#[global] Instance same_pending_relation fetch : NodeRelation fetch same_pending.
Proof.
  split; [apply _| | | |].
  - intros n f Hf. by apply quiet_pending.
  - done.
  - intros t d size. unfold store_block. apply moves_bind; [apply _|apply moves_still; [apply _|done]|].
    intros [fid|]; [apply moves_ret, _|]. intros n. pose proof (pending_put t (blake3 d) d size n) as Hp.
    unfold bind, on_blob, write_db in *. by destruct (put _ _ _) as [[?|?] ?].
  - intros t url h d _. unfold promote_block_locally. apply moves_bind; [apply _|apply moves_still; [apply _|done]|].
    intros [fid|]; [apply moves_ret, _|]. apply pending_put.
Qed.

Lemma apply_pending s t f s' : apply_fact s t f = Ok s' → pending_deletions s' = pending_deletions s.
Proof.
  unfold apply_fact. destruct f as [n ts0 []]; simpl; intros Ha.
  - destruct (mapM hex_decode blocks); by simplify_eq.
  - by simplify_eq.
  - destruct (hex_decode hash) as [hb|], (hex_decode fid) as [fb|]; try done.
    destruct (_ && _) in Ha; by simplify_eq.
  - by simplify_eq.
Qed.

(** ** Steps *)

(** The grace period in seconds, the instant the upload began and a bound on the system clock. *)
Context (grace T0 Tmax : Z).
Context (grace_pos : 0 < grace) (T0_pos : 0 ≤ T0).
Context (no_overflow : Tmax / 1000000 + grace * 1000 < 2 ^ 63).

Definition clocked (t : SystemTime) : Prop := T0 ≤ t ≤ Tmax.
(** The grace period, in the milliseconds deadlines are kept in. *)
Definition within_grace (t : SystemTime) : Prop := t / 1000000 < T0 / 1000000 + grace * 1000.

(** The sweeps in progress, each with whether it is forced and its snapshot, and the node. *)
Abbreviation state := (list (bool * Snapshot) * Backend)%type.

(** A sweep that may be marked: a scheduled one within the grace period, and any one when a
    manifest names the block or the node does not hold it. *)
Definition may_mark (h : bytes) (force : bool) (b : Backend) (t : SystemTime) : Prop :=
  (force = false ∧ within_grace t) ∨ h ∈ compute_live_block_set (db (node b)) ∨ ¬ held (node b) h.

Inductive grace_step (h : bytes) : state → state → Prop :=
  | step_mark sns b force t :
      clocked t → may_mark h force b t →
      grace_step h (sns, b) ((force, snapshot (db (node b)) t) :: sns, b)
  | step_visit sns b force sn t h' :
      (force, sn) ∈ sns → h' ∈ sn_local sn → clocked t →
      grace_step h (sns, b) (sns, (on_node (sweep_hash grace force sn t h') b).2)
  | step_stale sns b force sn entry :
      (force, sn) ∈ sns → grace_step h (sns, b) (sns, (on_node (drop_stale sn entry) b).2)
  | step_task sns b b' : task_step b b' → grace_step h (sns, b) (sns, b').

(** ** Invariant *)

Definition deadline : Z := T0 / 1000000 + grace * 1000.
Definition unmarked (h : bytes) (b : Backend) : Prop :=
  ∀ at_, pending_deletions (db (node b)) !! h = Some at_ → deadline ≤ at_.
Definition sheltered (h : bytes) (st : state) : Prop :=
  unmarked h st.2 ∧ ∀ force sn, (force, sn) ∈ st.1 → reaped grace force sn h = false ∨ h ∉ sn_local sn.

(** A pending row is as before or comes due after the grace period. *)
Definition later (h : bytes) (n n' : Node) : Prop :=
  ∀ at_, pending_deletions (db n') !! h = Some at_ → pending_deletions (db n) !! h = Some at_ ∨ deadline ≤ at_.

#[local] Instance later_preorder h : PreOrder (later h).
Proof.
  split; [intros n at_; auto|]. intros n1 n2 n3 H12 H23 at_ Hat.
  destruct (H23 _ Hat) as [Hat2|]; [by apply H12|by right].
Qed.

Lemma later_unmarked h b b' : later h (node b) (node b') → unmarked h b → unmarked h b'.
Proof. intros Hl Hu at_ Hat. destruct (Hl _ Hat) as [Hat'|]; [by apply Hu|done]. Qed.
Lemma same_later h {A} (m : io Node error A) : moves same_pending m → moves (later h) m.
Proof. intros Hm n at_. rewrite (Hm n). auto. Qed.

Lemma millis t : clocked t → 0 ≤ t / 1000000 ≤ Tmax / 1000000 ∧ wrap_i64 (t / 1000000) = t / 1000000.
Proof.
  intros [Ht1 Ht2].
  assert (0 ≤ t / 1000000 ≤ Tmax / 1000000) as Hr by (split; [apply Z.div_pos; lia|apply Z.div_le_mono; lia]).
  split; [done|]. apply wrap_i64_small. unfold in_i64. lia.
Qed.
Lemma grace_ms_eq : 0 ≤ Tmax → grace_ms grace = grace * 1000.
Proof.
  intros Hm. assert (0 ≤ Tmax / 1000000) by (apply Z.div_pos; lia).
  unfold grace_ms. rewrite (wrap_i64_small grace) by (unfold in_i64; lia). apply wrap_i64_small. unfold in_i64. lia.
Qed.

Lemma later_note h t h' : clocked t → moves (later h) (note_orphan grace t h').
Proof.
  intros Ht n at_. unfold note_orphan. destruct (deadline_fits _ _); [|by left].
  unfold write_db, add_pending_deletion. destruct Ht as [Ht1 Ht2].
  rewrite (proj2 (Z.ltb_ge _ _)) by lia. cbn [snd db pending_deletions with_pending].
  destruct (decide (h = h')) as [->|Hne]; [|rewrite lookup_insert_ne by done; auto].
  rewrite lookup_insert_eq. intros [= <-]. right.
  replace (t + grace * 1000000000) with (t + (grace * 1000) * 1000000) by lia. rewrite Z.div_add by lia.
  destruct (millis t) as [Hr _]; [done|]. rewrite wrap_i64_small by (unfold in_i64; lia).
  unfold deadline. pose proof (Z.div_le_mono T0 t 1000000). lia.
Qed.
Lemma later_remove h h' : moves (later h) (write_db (λ s, remove_pending_deletion s h')).
Proof. intros n at_. cbn. intros [_ Hd]%lookup_delete_Some. auto. Qed.
Lemma later_delete_local h h' : moves (later h) (write_db (λ s, (delete_local_block s h').2)).
Proof. intros n at_. cbn [write_db snd db]. rewrite delete_local_pending. auto. Qed.
Lemma later_blob h {A} (m : io Blob error A) : moves (later h) (on_blob m).
Proof. intros n at_. unfold on_blob. destruct (m (blob n)). auto. Qed.
Lemma later_read h {A} (f : Store → A) : moves (later h) (read_db f).
Proof. intros n at_. auto. Qed.
#[local] Hint Resolve later_note later_remove later_delete_local later_blob later_read : moves.

Lemma later_sweep_hash h force sn t h' : clocked t → moves (later h) (sweep_hash grace force sn t h').
Proof. intros Ht. unfold sweep_hash, orphan_deadline, reap, delete_block. moves_auto. Qed.
Lemma later_drop_stale h sn entry : moves (later h) (drop_stale sn entry).
Proof. unfold drop_stale. moves_auto. Qed.

Lemma snapshot_shelters h force b t : unmarked h b → clocked t → may_mark h force b t →
  reaped grace force (snapshot (db (node b)) t) h = false ∨ h ∉ sn_local (snapshot (db (node b)) t).
Proof.
  intros Hu Ht [[-> Hw]|[Hl|Hn]]; [left|left; by apply reaped_live|right].
  2: { intros Hin. by apply Hn, elem_of_local. }
  destruct (millis t Ht) as [Hr Hnow]. destruct Ht as [Ht1 Ht2].
  assert (sn_now (snapshot (db (node b)) t) < reap_time grace (snapshot (db (node b)) t) h) as Hlt.
  { unfold reap_time, snapshot. simpl. rewrite Hnow, grace_ms_eq by lia.
    destruct (pending_deletions (db (node b)) !! h) as [at_|] eqn:Hp; [apply Hu in Hp; unfold within_grace, deadline in *; lia|].
    rewrite wrap_i64_small by (unfold in_i64; lia). lia. }
  unfold reaped. rewrite (proj2 (Z.leb_gt _ _)) by lia. apply andb_false_r.
Qed.

Lemma task_pending b b' : task_step b b' → same_pending (node b) (node b').
Proof.
  assert (∀ A (m : io Node error A), moves same_pending m → same_pending (node b) (node (on_node m b).2)) as Hnode
    by (intros A m Hm; exact (moves_on_node same_pending m Hm b)).
  intros [fetch creds t c Hf|t d size|fetch t h' Hf|fetch t peers e Hf|f Hq|t f s' Hforeign Ha].
  - apply (moves_s3 fetch same_pending creds t c b).
  - apply Hnode, (store_moves (fetch := λ _ _, Err FetchError)).
  - apply Hnode, (moves_get_block fetch same_pending).
  - apply Hnode, (moves_drain_entry fetch same_pending).
  - by apply quiet_pending.
  - by eapply apply_pending.
Qed.

Lemma on_node_later {A} h (m : io Node error A) b : moves (later h) m → unmarked h b → unmarked h (on_node m b).2.
Proof. intros Hm. apply later_unmarked. specialize (Hm (node b)). unfold on_node. by destruct (m (node b)). Qed.

(** Every step keeps the invariant, the block and the agreement of metadata and backend. *)
Lemma step_sheltered h st st' : grace_step h st st' → sheltered h st → sheltered h st'.
Proof.
  intros [sns b force t Ht Hor|sns b force sn t h' Hin Hloc Ht|sns b force sn entry Hin|sns b b' Ht] [Hu Hr];
    (split; simpl in *; [|try exact Hr]).
  - done.
  - intros f sn [[= -> ->]|Hin]%elem_of_cons; [by apply snapshot_shelters|by apply Hr].
  - by apply on_node_later; [apply later_sweep_hash|].
  - by apply on_node_later; [apply later_drop_stale|].
  - intros at_. rewrite (task_pending _ _ Ht). apply Hu.
Qed.
Lemma step_held h st st' : grace_step h st st' → sheltered h st → held (node st.2) h → held (node st'.2) h.
Proof.
  intros [sns b force t Ht Hor|sns b force sn t h' Hin Hloc Ht|sns b force sn entry Hin|sns b b' Ht] [_ Hr] Hh; simpl in *.
  - done.
  - apply visit_held; [done|]. destruct (decide (h = h')) as [<-|]; [right|by left].
    by destruct (Hr _ _ Hin).
  - by apply stale_held.
  - by eapply task_held.
Qed.
Lemma step_ok h st st' : grace_step h st st' → node_ok (λ _, True) (node st.2) → node_ok (λ _, True) (node st'.2).
Proof.
  intros [sns b force t Ht Hor|sns b force sn t h' Hin Hloc Ht|sns b force sn entry Hin|sns b b' Ht] Hok; simpl in *.
  - done.
  - by apply visit_ok.
  - by apply stale_ok.
  - by eapply task_ok.
Qed.

Lemma steps_invariant h st st' : rtc (grace_step h) st st' → sheltered h st → node_ok (λ _, True) (node st.2) →
  sheltered h st' ∧ node_ok (λ _, True) (node st'.2) ∧ (held (node st.2) h → held (node st'.2) h).
Proof.
  induction 1 as [st|st1 st2 st3 Hs _ IH]; [done|]. intros Hsh Hok.
  destruct IH as (? & ? & Hkeep); [by eapply step_sheltered|by eapply step_ok|].
  split_and!; [done..|]. intros Hh. apply Hkeep. by eapply step_held.
Qed.

(** C7: The grace period protects uploads.  A block that no sweep had marked when an upload began
    and that the node came to hold during it is still held, with its bytes, after any
    interleaving of requests, pulls, facts and visits of sweeps in which every sweep, scheduled
    or forced, was marked when a manifest named the block or when the node did not hold it, or
    was a scheduled one marked within the grace period of the upload's start.  A forced sweep
    (/internal/gc/force, or the queue drain under a tripped guard) that is marked while the
    block is held and no manifest names it yet is thus excluded: it deletes the block. *)
Theorem upload_within_grace h b0 sns1 b1 sns b :
  rtc (grace_step h) ([], b0) (sns1, b1) → rtc (grace_step h) (sns1, b1) (sns, b) →
  node_ok (λ _, True) (node b0) → pending_deletions (db (node b0)) !! h = None → held (node b1) h →
  ∃ fid d, get_local_block_fid (db (node b)) h = Some fid ∧
    content (blob (node b)) h fid = Some d ∧ blake3 d = h.
Proof.
  intros Hs1 Hs2 Hok Hp Hh.
  destruct (steps_invariant h _ _ Hs1) as (Hsh1 & Hok1 & _); [|done|].
  { split; [intros at_; simpl; by rewrite Hp|]. intros f sn Hin. by apply elem_of_nil in Hin. }
  destruct (steps_invariant h _ _ Hs2 Hsh1 Hok1) as (_ & Hok2 & Hkeep).
  destruct (Hkeep Hh) as [fid Hl]. destruct (Hok2 _ _ Hl) as (d & Hc & _ & Hd). eauto.
Qed.
End grace.

Module GraceRuns.
#[local] Existing Instances Reference.blake3_pad Reference.md5_rev Reference.hex_lower Reference.uuid_text.
#[local] Existing Instances JsonReference.json_tokens order_id LocalBlob.local_blob LocalBlob.local_lawful.
#[local] Existing Instance DeploymentRuns.chunker8.

(** An upload that has stored its block when a sweep comes by, marks it as an orphan, and comes
    by again before the upload is complete; the grace period is 300 seconds. *)
Definition second : Z := 1000000000.
Definition h0 : bytes := blake3 (as_bytes "hello").
Definition b0 : Backend := mkBackend (mkNodeState (empty_store "a" (Clock.new 0)) (LocalBlob.mkDisk ∅ [])) disabled.
Definition b1 : Backend := (on_node (store_block (10 * second) (as_bytes "hello") 5) b0).2.
Definition sn1 : Snapshot := snapshot (db (node b1)) (20 * second).
Definition b2 : Backend := (on_node (sweep_hash 300 false sn1 (20 * second) h0) b1).2.
Definition sn2 : Snapshot := snapshot (db (node b2)) (300 * second).
Definition b3 : Backend := (on_node (sweep_hash 300 false sn2 (300 * second) h0) b2).2.
(** The manifest, and a forced sweep after it. *)
Definition name_it (s : Store) : Store := insert_object s (301 * second) "bk" (compute_shard_id "k") "k" [h0] 5 "e".
Definition b4 : Backend := with_db b3 name_it.
Definition sn3 : Snapshot := snapshot (db (node b4)) (310 * second).
Definition b5 : Backend := (on_node (sweep_hash 300 true sn3 (310 * second) h0) b4).2.

Definition st1 : list (bool * Snapshot) := [(false, sn1)].
Definition st2 : list (bool * Snapshot) := (false, sn2) :: st1.
Definition st3 : list (bool * Snapshot) := (true, sn3) :: st2.

Lemma local1 : h0 ∈ sn_local sn1.
Proof. apply (bool_decide_unpack _). vm_compute. exact I. Qed.
Lemma local2 : h0 ∈ sn_local sn2.
Proof. apply (bool_decide_unpack _). vm_compute. exact I. Qed.
Lemma local3 : h0 ∈ sn_local sn3.
Proof. apply (bool_decide_unpack _). vm_compute. exact I. Qed.
Lemma live3 : h0 ∈ compute_live_block_set (db (node b4)).
Proof. apply (bool_decide_unpack _). vm_compute. exact I. Qed.

Lemma upload_within_grace_witness :
  pending_deletions (db (node b2)) !! h0 = Some 320000 ∧
  ∃ fid d, get_local_block_fid (db (node b5)) h0 = Some fid ∧
    content (blob (node b5)) h0 fid = Some d ∧ blake3 d = h0.
Proof.
  split; [vm_compute; reflexivity|].
  apply (upload_within_grace 300 (10 * second) (400 * second) eq_refl ltac:(done) eq_refl h0 b0 [] b1
    st3 b5).
  - apply rtc_once, step_task, task_store.
  - apply (rtc_l _ _ (st1, b1)); [apply step_mark; [done|left; done]|].
    apply (rtc_l _ _ (st1, b2)); [apply (step_visit _ _ _ _ st1 b1 false sn1); [left|exact local1|done]|].
    apply (rtc_l _ _ (st2, b2)); [apply step_mark; [done|left; done]|].
    apply (rtc_l _ _ (st2, b3)); [apply (step_visit _ _ _ _ st2 b2 false sn2); [left|exact local2|done]|].
    apply (rtc_l _ _ (st2, b4)); [apply step_task, (task_metadata b3 name_it), quiet_insert_object|].
    apply (rtc_l _ _ (st3, b4)); [apply step_mark; [done|right; left; exact live3]|].
    apply rtc_once, (step_visit _ _ _ _ st3 b4 true sn3); [left|exact local3|done].
  - by intros h fid.
  - reflexivity.
  - vm_compute. eauto.
Defined.

(** A forced sweep in the middle of an upload.  The upload has stored its block, the sweep
    deletes it although it is a second old, and the manifest is written all the same: the
    object is there and its block is gone. *)
Theorem forced_sweep_loses_upload :
  let b := (on_node (force_sweep_orphaned_blocks 300 (11 * second)) b1).2 in
  let b' := with_db b name_it in
  Store.get_object (db (node b')) "bk" "k" = Some ([h0], 5, "e") ∧
  (get_block DeploymentRuns.offline (302 * second) h0 (node b')).1 = Err (BlockNotFound h0).
Proof. vm_compute. done. Qed.
End GraceRuns.
