(* ===== verification/Calls.v ===== *)
(** * Single calls (src/storage.rs: [store_block], [promote_block_locally], [sweep_orphaned_blocks])

    Storing a block is a write to the backend and then a row; deleting an orphan is reading its
    token, removing its row and then its bytes.  Other tasks run between these calls.
    [call_step] takes one call of the metadata store or of the backend at a time and keeps track
    of the stores and deletions that are under way, so that its runs are all interleavings of any
    number of requests, sweeps, drains and pulls on one node.  The one thing it leaves out is the
    store of a block that overlaps the deletion of the same block, the race of
    [GCRuns.gc_delete_race]; without it the node's metadata and backend agree at every call. *)

From stdpp Require Import relations.
From S2P Require Import Prelude Crates Clock Hashing Chunking Range Listing Policy Disk Tables Store.
From S2P Require Import FactLog Objects BlockStore Seaweed GC Replication S3 Sync Internal Cluster Node Deployment Sweep.

(** A backend that may be given a block it already holds: what is there under a token of the
    block stays, or is replaced by a block of the same hash. *)
Class OverwritingBlob `{!Blake3, !BlobStore, !LawfulBlob} := {
  put_again : ∀ h d b fid x, blake3 d = h → content b h fid = Some x → blake3 x = h →
    ∃ y, content (put h d b).2 h fid = Some y ∧ blake3 y = h;
}.

#[export] Instance local_overwriting `{!Hex, !Blake3} : @OverwritingBlob _ LocalBlob.local_blob LocalBlob.local_lawful.
Proof.
  split. intros h d b fid x Hd Hx Hh. pose proof (LocalBlob.local_put_files h d b) as Hf. simpl in *.
  unfold LocalBlob.local_content in *. destruct (LocalBlob.local_put h d b) as [[f|e] b']; simpl.
  - destruct Hf as (_ & _ & Hf). eauto.
  - destruct Hf as [_ Hf]. rewrite Hf. eauto.
Qed.

#[export] Instance seaweed_overwriting `{!HttpClient} master_url volume_url `{!LawfulSeaweed master_url volume_url, !Blake3} :
  @OverwritingBlob _ (seaweed_blob master_url volume_url) (seaweed_lawful master_url volume_url).
Proof.
  split. intros h d b fid x Hd (Hu & Hx & Hh)%seaweed_content_Some _. exists x. split; [|done].
  apply seaweed_content_Some. split_and!; [done| |done].
  pose proof (seaweed_put_files master_url volume_url h d b) as Hs. simpl.
  destruct (seaweed_put _ _ h d b). by apply Hs.
Qed.

Section calls.
Context `{!Blake3, !Md5, !Hex, !UuidCodec, !Json, !IterOrder, !BlobStore, !LawfulBlob, !OverwritingBlob, !ChunkingStrategy}.

(** A node with the blocks written to the backend whose row is still to come, the blocks whose
    token a sweep has read to delete them, and those whose row it has removed and whose bytes it
    has still to delete. *)
Abbreviation pairs := (list (bytes * bytes)).
Record Calls : Type := mkCalls { on : Node; written : pairs; chosen : pairs; unlinked : pairs }.
Definition at_rest (n : Node) : Calls := mkCalls n [] [] [].

Definition set_store (f : Store → Store) (n : Node) : Node := mkNodeState (f (db n)) (blob n).
Definition set_blob (f : Blob → Blob) (n : Node) : Node := mkNodeState (db n) (f (blob n)).
Definition deleting (st : Calls) : list bytes := (chosen st).*1 ++ (unlinked st).*1.

Inductive call_step : Calls → Calls → Prop :=
  | call_metadata n w c u f : quiet f ∨ notes f → call_step (mkCalls n w c u) (mkCalls (set_store f n) w c u)
  | call_fact n w c u t f s' :
      foreign (db n) f → apply_fact (db n) t f = Ok s' →
      call_step (mkCalls n w c u) (mkCalls (set_store (λ _, s') n) w c u)
  | call_read n w c u h fid :
      call_step (mkCalls n w c u) (mkCalls (set_blob (λ b, (get h fid b).2) n) w c u)
  | call_put n w c u h d :
      blake3 d = h → h ∉ deleting (mkCalls n w c u) →
      call_step (mkCalls n w c u)
        (mkCalls (set_blob (λ b, (put h d b).2) n)
           (match (put h d (blob n)).1 with Ok fid => (h, fid) :: w | Err _ => w end) c u)
  | call_record n w1 w2 c u t h fid size :
      call_step (mkCalls n (w1 ++ (h, fid) :: w2) c u)
        (mkCalls (set_store (λ s, store_local_block s t h fid size) n) (w1 ++ w2) c u)
  | call_choose n w c u h fid :
      get_local_block_fid (db n) h = Some fid → h ∉ w.*1 →
      call_step (mkCalls n w c u) (mkCalls n w ((h, fid) :: c) u)
  | call_unlink n w c1 c2 u h fid :
      call_step (mkCalls n w (c1 ++ (h, fid) :: c2) u)
        (mkCalls (set_store (λ s, (delete_local_block s h).2) n) w (c1 ++ c2)
           (if (delete_local_block (db n) h).1 then (h, fid) :: u else u))
  | call_delete n w c u1 u2 h fid :
      call_step (mkCalls n w c (u1 ++ (h, fid) :: u2))
        (mkCalls (set_blob (λ b, (delete_blob h fid b).2) n) w c (u1 ++ u2))
  | call_crash st : call_step st (at_rest (on st)).

(** ** Invariant *)

Definition present (n : Node) (h fid : bytes) : Prop := ∃ d, content (blob n) h fid = Some d ∧ blake3 d = h.

Record calls_ok (st : Calls) : Prop := {
  co_local h fid : get_local_block_fid (db (on st)) h = Some fid → present (on st) h fid;
  co_written h fid : (h, fid) ∈ written st → present (on st) h fid ∧ h ∉ deleting st;
  co_chosen h fid : (h, fid) ∈ chosen st →
    get_local_block_fid (db (on st)) h = Some fid ∨ get_local_block_fid (db (on st)) h = None;
  co_unlinked h fid : (h, fid) ∈ unlinked st →
    present (on st) h fid ∧ get_local_block_fid (db (on st)) h = None;
  co_once : NoDup (unlinked st).*1;
}.

Lemma key_in (l : pairs) h fid : (h, fid) ∈ l → h ∈ l.*1.
Proof. intros. apply list_elem_of_fmap. by exists (h, fid). Qed.

(** A step that changes neither local rows nor bytes. *)
Lemma ok_same n n' w c u :
  (∀ h, get_local_block_fid (db n') h = get_local_block_fid (db n) h) →
  (∀ h fid, present n h fid → present n' h fid) →
  calls_ok (mkCalls n w c u) → calls_ok (mkCalls n' w c u).
Proof.
  intros Hl Hp [Hlo Hw Hc Hu Hn]. split; simpl in *; [| | | |done].
  - intros h fid. rewrite Hl. auto.
  - intros h fid Hin. destruct (Hw h fid Hin). auto.
  - intros h fid. rewrite Hl. auto.
  - intros h fid Hin. rewrite Hl. destruct (Hu h fid Hin). auto.
Qed.

Lemma put_present n h d h' fid : blake3 d = h → present n h' fid → present (set_blob (λ b, (put h d b).2) n) h' fid.
Proof.
  intros Hd (x & Hx & Hh). unfold present. cbn [set_blob blob]. destruct (decide (h' = h)) as [->|Hne].
  - by eapply put_again.
  - exists x. split; [by apply put_frame|done].
Qed.

Lemma ok_put n w c u h d : blake3 d = h → h ∉ deleting (mkCalls n w c u) → calls_ok (mkCalls n w c u) →
  calls_ok (mkCalls (set_blob (λ b, (put h d b).2) n)
    (match (put h d (blob n)).1 with Ok fid => (h, fid) :: w | Err _ => w end) c u).
Proof.
  intros Hd Hdel Hok. apply (ok_same n (set_blob (λ b, (put h d b).2) n)) in Hok;
    [|done|intros; by apply put_present].
  destruct (put h d (blob n)) as [[fid|e] b'] eqn:Hp; cbn [fst]; [|done].
  destruct Hok as [Hlo Hw Hc Hu Hn]. split; [done| |done..]. intros h' fid' [[= -> ->]|Hin]%elem_of_cons; [|by apply Hw].
  split; [|done]. exists d. cbn [on set_blob blob]. rewrite Hp. split; [by eapply put_content|done].
Qed.

Lemma store_local_lookup s t h fid size h' :
  get_local_block_fid (store_local_block s t h fid size) h' = get_local_block_fid s h' ∨
  (h' = h ∧ get_local_block_fid (store_local_block s t h fid size) h' = Some fid).
Proof.
  unfold get_local_block_fid. simpl. destruct (decide (h' = h)) as [->|Hne].
  - rewrite lww_upsert_lookup. unfold lww_join. destruct (block_locations s !! _) as [row|]; [|by right].
    destruct (_ <? _); [by right|by left].
  - left. by rewrite lww_upsert_lookup_ne by congruence.
Qed.

Lemma ok_record n w1 w2 c u t h fid size : calls_ok (mkCalls n (w1 ++ (h, fid) :: w2) c u) →
  calls_ok (mkCalls (set_store (λ s, store_local_block s t h fid size) n) (w1 ++ w2) c u).
Proof.
  intros [Hlo Hw Hc Hu Hn]. simpl in *.
  destruct (Hw h fid) as [Hp Hdel]; [apply elem_of_app; right; by left|].
  unfold deleting in Hdel. cbn [chosen unlinked] in Hdel. rewrite not_elem_of_app in Hdel. destruct Hdel as [Hnc Hnu].
  split; simpl; [| | | |done].
  - intros h' fid'. destruct (store_local_lookup (db n) t h fid size h') as [->|[-> ->]]; [apply Hlo|].
    by intros [= <-].
  - intros h' fid' Hin. apply Hw. rewrite elem_of_app in Hin. rewrite elem_of_app, elem_of_cons. tauto.
  - intros h' fid' Hin. destruct (store_local_lookup (db n) t h fid size h') as [->|[-> _]]; [by apply Hc|].
    destruct Hnc. by eapply key_in.
  - intros h' fid' Hin. destruct (store_local_lookup (db n) t h fid size h') as [->|[-> _]]; [by apply Hu|].
    destruct Hnu. by eapply key_in.
Qed.

Lemma ok_choose n w c u h fid : get_local_block_fid (db n) h = Some fid → h ∉ w.*1 →
  calls_ok (mkCalls n w c u) → calls_ok (mkCalls n w ((h, fid) :: c) u).
Proof.
  intros Hl Hnw [Hlo Hw Hc Hu Hn]. split; simpl in *; [done| | |done|done].
  - intros h' fid' Hin. destruct (Hw h' fid' Hin) as [Hp Hdel]. split; [done|]. unfold deleting in *. cbn [chosen unlinked] in *.
    rewrite fmap_cons, <- app_comm_cons, elem_of_cons. intros [->|?]; [apply Hnw; by eapply key_in|done].
  - intros h' fid' [[= -> ->]|Hin]%elem_of_cons; [by left|by apply Hc].
Qed.

Lemma ok_unlink n w c1 c2 u h fid : calls_ok (mkCalls n w (c1 ++ (h, fid) :: c2) u) →
  calls_ok (mkCalls (set_store (λ s, (delete_local_block s h).2) n) w (c1 ++ c2)
    (if (delete_local_block (db n) h).1 then (h, fid) :: u else u)).
Proof.
  intros [Hlo Hw Hc Hu Hn]. cbn [on written chosen unlinked] in *.
  assert ((h, fid) ∈ c1 ++ (h, fid) :: c2) as Hin by (apply elem_of_app; right; by left).
  assert (∀ h', get_local_block_fid (db (set_store (λ s, (delete_local_block s h).2) n)) h' =
    if decide (h' = h) then None else get_local_block_fid (db n) h') as Hl by apply delete_local_lookup.
  assert (∀ h' fid', (h', fid') ∈ (if (delete_local_block (db n) h).1 then (h, fid) :: u else u) →
    (h', fid') = (h, fid) ∧ get_local_block_fid (db n) h = Some fid ∨ (h', fid') ∈ u) as Hnew.
  { intros h' fid'. destruct (delete_local_block (db n) h).1 eqn:Hr; [|by right].
    intros [->|]%elem_of_cons; [left; split; [done|]|by right].
    destruct (Hc h fid Hin) as [|Hnone]; [done|]. exfalso. revert Hr Hnone.
    unfold delete_local_block, get_local_block_fid. simpl. intros [r ->]%bool_decide_eq_true. done. }
  split; cbn [on written chosen unlinked].
  - intros h' fid'. rewrite Hl. destruct (decide _); [done|]. apply Hlo.
  - intros h' fid' Hw'. destruct (Hw h' fid' Hw') as [Hp Hdel]. split; [done|]. unfold deleting in *. cbn [chosen unlinked] in *.
    rewrite !fmap_app, ?fmap_cons in *. cbn [fst] in *. rewrite !elem_of_app, ?elem_of_cons in *.
    destruct (delete_local_block (db n) h).1; [rewrite fmap_cons, elem_of_cons; cbn [fst]|]; tauto.
  - intros h' fid' Hin'. rewrite Hl. destruct (decide _); [by right|]. apply Hc.
    rewrite elem_of_app in Hin'. rewrite elem_of_app, elem_of_cons. tauto.
  - intros h' fid' [[[= -> ->] Hs]|Hin']%Hnew; rewrite Hl.
    + rewrite decide_True by done. split; [by apply Hlo|done].
    + destruct (Hu h' fid' Hin') as [Hp ->]. by destruct (decide _).
  - destruct (delete_local_block (db n) h).1 eqn:Hr; [|done]. cbn [fmap list_fmap]. apply NoDup_cons. split; [|done].
    intros ([h' fid'] & Heq & Hin')%list_elem_of_fmap. cbn [fst] in Heq. subst h'.
    destruct (Hu h fid' Hin') as [_ Hnone].
    revert Hr Hnone. unfold delete_local_block, get_local_block_fid. simpl. by intros [r ->]%bool_decide_eq_true.
Qed.

Lemma ok_delete n w c u1 u2 h fid : calls_ok (mkCalls n w c (u1 ++ (h, fid) :: u2)) →
  calls_ok (mkCalls (set_blob (λ b, (delete_blob h fid b).2) n) w c (u1 ++ u2)).
Proof.
  intros [Hlo Hw Hc Hu Hn]. cbn [on written chosen unlinked] in *.
  destruct (Hu h fid) as [(y & Hy & _) Hnone]; [apply elem_of_app; right; by left|].
  assert (∀ h' fid', h' ≠ h → present n h' fid' → present (set_blob (λ b, (delete_blob h fid b).2) n) h' fid') as Hp.
  { intros h' fid' Hne (d & Hd & Hh). exists d. split; [|done]. by eapply delete_frame. }
  rewrite fmap_app, fmap_cons in Hn. simpl in Hn.
  split; cbn [on written chosen unlinked set_blob db].
  - intros h' fid' Hl. apply Hp; [congruence|by apply Hlo].
  - intros h' fid' Hin. destruct (Hw h' fid' Hin) as [Hpr Hdel]. unfold deleting in *. cbn [chosen unlinked] in *.
    rewrite !fmap_app, ?fmap_cons in *. cbn [fst] in *. rewrite !elem_of_app, ?elem_of_cons in *.
    split; [apply Hp; [|done]|]; tauto.
  - done.
  - intros h' fid' Hin. assert (h' ≠ h) as Hne.
    { intros ->. apply NoDup_app in Hn as (_ & Hd & Hn). apply NoDup_cons in Hn as [Hn _].
      apply elem_of_app in Hin as [Hin|Hin]; apply key_in in Hin; [by apply (Hd h Hin); left|done]. }
    destruct (Hu h' fid') as [Hpr Hl]; [rewrite elem_of_app in Hin; rewrite elem_of_app, elem_of_cons; tauto|]. auto.
  - rewrite fmap_app. apply NoDup_app in Hn as (Hn1 & Hd & Hn2). apply NoDup_app. split_and!; [done| |].
    + intros x Hx Hx2. apply (Hd x Hx). by right.
    + by apply NoDup_cons in Hn2 as [_ ?].
Qed.

Lemma call_step_ok st st' : call_step st st' → calls_ok st → calls_ok st'.
Proof.
  intros [n w c u f Hf|n w c u t f s' Hfor Ha|n w c u h fid|n w c u h d Hd Hdel|n w1 w2 c u t h fid size
    |n w c u h fid Hl Hw|n w c1 c2 u h fid|n w c u1 u2 h fid|st1] Hok.
  - apply (ok_same n); [|done|done]. intros h. cbn [set_store db].
    destruct Hf; [by apply quiet_locations|by apply notes_locations].
  - apply (ok_same n); [|done|done]. intros h. by apply (apply_locations _ _ _ _ h Ha Hfor).
  - apply (ok_same n); [done| |done]. intros h' fid' (d & Hd & Hh). exists d. split; [by apply get_frame|done].
  - by apply ok_put.
  - by apply ok_record.
  - by apply ok_choose.
  - by apply ok_unlink.
  - by apply ok_delete.
  - destruct Hok as [Hlo _ _ _ _]. split; simpl; [done|by intros ? ? ?%elem_of_nil..|constructor].
Qed.

Lemma calls_invariant st st' : rtc call_step st st' → calls_ok st → calls_ok st'.
Proof. induction 1; eauto using call_step_ok. Qed.

(** ** Every event is a run of calls *)

Definition by_calls (n n' : Node) : Prop := rtc call_step (at_rest n) (at_rest n').

#[global] Instance by_calls_preorder : PreOrder by_calls.
Proof. unfold by_calls. split; [intros n; reflexivity|intros n1 n2 n3 ? ?; etrans; eassumption]. Qed.

Lemma calls_store t h d size : blake3 d = h →
  moves by_calls (let! fid := on_blob (put h d) in write_db (λ s, store_local_block s t h fid size)).
Proof.
  intros Hd n. pose proof (call_put n [] [] [] h d Hd (not_elem_of_nil h)) as Hs.
  unfold bind, on_blob, write_db, set_blob, by_calls, at_rest in *.
  destruct (put h d (blob n)) as [[fid|e] b']; [|by apply rtc_once].
  eapply rtc_l; [exact Hs|]. apply rtc_once. exact (call_record (mkNodeState (db n) b') [] [] [] [] t h fid size).
Qed.

Lemma calls_reap h : moves by_calls (reap h).
Proof.
  intros n. unfold reap, bind, read_db.
  assert (∀ n1, by_calls n1 (write_db (λ s, remove_pending_deletion s h) n1).2) as Hrem.
  { intros n1. apply rtc_once, call_metadata. right. apply notes_removal. }
  destruct (get_local_block_fid (db n) h) as [fid|] eqn:Hl; [|apply Hrem].
  pose proof (delete_local_removed _ _ _ Hl) as Hr. rewrite Hr. unfold write_db, attempt, delete_block, on_blob. cbn [db blob].
  pose proof (call_delete (set_store (λ s, (delete_local_block s h).2) n) [] [] [] [] h fid) as Hd.
  cbn [app] in Hd. unfold set_blob in Hd. cbn [db blob set_store] in Hd.
  destruct (delete_blob h fid (blob n)) as [r b']. unfold ret. etrans; [|apply Hrem].
  unfold by_calls, at_rest. eapply rtc_l; [by apply (call_choose n [] [] [] h fid); [|apply not_elem_of_nil]|].
  pose proof (call_unlink n [] [] [] [] h fid) as Hu. rewrite Hr in Hu. eapply rtc_l; [exact Hu|].
  apply rtc_once. exact Hd.
Qed.

Lemma by_calls_relation fetch : honest fetch → NodeRelation fetch by_calls.
Proof.
  intros Hh. split; [apply _| | | |].
  - intros n f Hf. apply rtc_once, (call_metadata n [] [] [] f). by left.
  - intros n h fid. apply rtc_once, (call_read n [] [] [] h fid).
  - intros t d size n. pose proof (calls_store t (blake3 d) d size eq_refl n) as Hs.
    unfold store_block, bind, read_db in *. destruct (get_local_block_fid _ _); [reflexivity|].
    by destruct (on_blob _ n) as [[fid|e] n1].
  - intros t url h d Hf. unfold promote_block_locally. apply moves_bind; [apply _|by intros n; apply rtc_refl|].
    intros [fid|]; [apply moves_ret, _|]. apply calls_store. by eapply Hh.
Qed.

#[global] Instance by_calls_sweep : SweepRelation by_calls.
Proof.
  split; [apply calls_reap|]. intros n f Hf. apply rtc_once, (call_metadata n [] [] [] f). by right.
Qed.

(** What a request or a round of a background task does to the node is a run of calls. *)
Lemma event_by_calls fetch cfg e b : honest fetch → by_calls (node b) (node (run_event fetch cfg e b)).
Proof. intros Hh. pose proof (by_calls_relation fetch Hh) as Hrel. exact (run_event_moves fetch by_calls cfg e b). Qed.
End calls.

(** ** Properties *)

Section properties.
Context `{!Blake3, !Md5, !Hex, !UuidCodec, !Json, !IterOrder, !BlobStore, !LawfulBlob, !OverwritingBlob, !ChunkingStrategy}.

(** C4: metadata and backend agree at every call.  From a node that is at rest with sound blocks,
    after any number of requests and rounds of background tasks (with honest peers), and then any
    interleaving, one call of the metadata store or of the backend at a time, of stores of blocks,
    promotions, deletions by sweeps, metadata writes, facts and crashes, in which no block is
    written to the backend while a sweep is deleting that block and no sweep picks a block whose
    row is still to be written, every block recorded as local is on the backend with the bytes
    its hash names, and only those are read.  Without that exclusion it is false
    ([GCRuns.gc_delete_race]). *)
Theorem calls_blocks_sound fetch cfg es b st h fid :
  honest fetch → node_ok (λ _, True) (node b) →
  rtc call_step (at_rest (node (foldl (λ b e, run_event fetch cfg e b) b es))) st →
  get_local_block_fid (db (on st)) h = Some fid →
  ∃ d, content (blob (on st)) h fid = Some d ∧ blake3 d = h ∧
    ∀ x, (get h fid (blob (on st))).1 = Ok x → x = d.
Proof.
  intros Hh Hok Hs Hl.
  assert (calls_ok (at_rest (node b))) as H0'.
  { split; simpl; [|by intros ? ? ?%elem_of_nil..|constructor]. intros h' fid' Hl'.
    destruct (Hok _ _ Hl') as (d & Hd & _ & Hb). by exists d. }
  assert (calls_ok (at_rest (node (foldl (λ b e, run_event fetch cfg e b) b es)))) as H1'.
  { clear Hs Hok. revert b H0'. induction es as [|e es IH]; intros b H0'; [done|]. apply IH.
    eapply calls_invariant; [by apply (event_by_calls fetch cfg e b)|done]. }
  destruct (co_local _ (calls_invariant _ _ Hs H1') h fid Hl) as (d & Hd & Hb). exists d. split_and!; [done..|].
  intros x Hx. destruct (get h fid (blob (on st))) as [y b'] eqn:E. simpl in Hx. subst y. by rewrite (get_content _ _ _ _ _ _ Hd E).
Qed.
End properties.

Module CallsRuns.
#[local] Existing Instances Reference.blake3_pad Reference.md5_rev Reference.hex_lower Reference.uuid_text.
#[local] Existing Instances JsonReference.json_tokens order_id LocalBlob.local_blob LocalBlob.local_lawful.
#[local] Existing Instance DeploymentRuns.chunker8.
Import DeploymentRuns.

(** A node with an object of one block, whose deletion by a sweep (the object is gone) overlaps
    the upload of another block, call by call. *)
Definition gone : event := S3Request (Some "root") 6000000 (DeleteObject "bk" "k").
Definition h0 : bytes := blake3 (as_bytes "hello").
Definition h1 : bytes := blake3 (as_bytes "world").
Definition fid0 : bytes := LocalBlob.LOCAL.
Definition n0 : Node := node (foldl (λ b e, run_event offline cfg e b) node_a2 [gone]).
Definition n1 : Node := set_blob (λ b, (put h1 (as_bytes "world") b).2) n0.
Definition n2 : Node := set_store (λ s, (delete_local_block s h0).2) n1.
Definition n3 : Node := set_store (λ s, store_local_block s 7000000 h1 fid0 5) n2.
Definition n4 : Node := set_blob (λ b, (delete_blob h0 fid0 b).2) n3.

Lemma node_a2_ok : node_ok (λ _, True) (node node_a2).
Proof. exact SweepRuns.b0_ok. Qed.
Lemma n0_local : get_local_block_fid (db n0) h0 = Some fid0.
Proof. vm_compute. reflexivity. Qed.
Lemma put_h1 : (put h1 (as_bytes "world") (blob n0)).1 = Ok fid0.
Proof. vm_compute. reflexivity. Qed.
Lemma unlink_h0 : (delete_local_block (db n1) h0).1 = true.
Proof. vm_compute. reflexivity. Qed.

Lemma calls_blocks_sound_witness :
  get_local_block_fid (db n4) h0 = None ∧ get_local_block_fid (db n4) h1 = Some fid0 ∧
  ∃ d, content (blob n4) h1 fid0 = Some d ∧ blake3 d = h1 ∧ ∀ x, (get h1 fid0 (blob n4)).1 = Ok x → x = d.
Proof.
  split; [vm_compute; reflexivity|]. split; [vm_compute; reflexivity|].
  apply (calls_blocks_sound offline cfg [gone] node_a2 (at_rest n4) h1 fid0).
  - done.
  - exact node_a2_ok.
  - change (rtc call_step (mkCalls n0 [] [] []) (at_rest n4)).
    apply (rtc_l _ _ (mkCalls n0 [] [(h0, fid0)] [])); [apply call_choose; [exact n0_local|apply not_elem_of_nil]|].
    apply (rtc_l _ _ (mkCalls n1 [(h1, fid0)] [(h0, fid0)] [])).
    { pose proof (call_put n0 [] [(h0, fid0)] [] h1 (as_bytes "world") eq_refl) as Hp. rewrite put_h1 in Hp. apply Hp.
      apply (bool_decide_unpack _). vm_compute. exact I. }
    apply (rtc_l _ _ (mkCalls n2 [(h1, fid0)] [] [(h0, fid0)])).
    { pose proof (call_unlink n1 [(h1, fid0)] [] [] [] h0 fid0) as Hu. rewrite unlink_h0 in Hu. exact Hu. }
    apply (rtc_l _ _ (mkCalls n3 [] [] [(h0, fid0)])).
    { exact (call_record n2 [] [] [] [(h0, fid0)] 7000000 h1 fid0 5). }
    apply rtc_once. exact (call_delete n3 [] [] [] [] h0 fid0).
  - vm_compute. reflexivity.
Defined.
End CallsRuns.
