(* ===== verification/Handlers.v ===== *)
(** * The S3 service over its interfaces (src/storage.rs: [trait ObjectStore], [trait BlockStore],
    [struct StorageBackend] and [impl S3 for StorageBackend])

    [StorageBackend] reaches the metadata and the blocks only through two traits, any method
    of which may fail.  Here the traits are classes over any state [W], and each handler is
    written against them with its error messages, its reference ids and every error path.
    [S3] has the same handlers on the store itself, where no call fails; [Refines] shows that
    with the store behind the traits the two agree.  The file system's and SQLite's failures
    enter through the instances. *)

From stdpp Require Import pretty.
From S2P Require Import Prelude Crates Clock Hashing Chunking Range Listing Policy Disk Tables Store.
From S2P Require Import Objects BlockStore GC Replication S3 Sizes.

(** ** The traits *)

(** How a trait method ends other than with a value: with an error, or by a panic. *)
Inductive fault : Type := Failed (e : error) | Panicking.

Class ObjectStore `{!UuidCodec} (W : Type) := {
  os_insert_object : string → Z → string → list bytes → Z → string → io W fault unit;
  os_get_object : string → string → io W fault (option (list bytes * Z * string));
  os_block_sizes : list bytes → io W fault (list Z);
  os_list_buckets : io W fault (list (string * Z));
  os_list_objects : string → option string → option string → nat → io W fault (list obj * bool);
  os_delete_object : string → string → io W fault unit;
  os_create_multipart_upload : string → string → Uuid → io W fault unit;
  os_get_multipart_upload_key : string → Uuid → io W fault (option string);
  os_insert_part : string → Uuid → Z → list bytes → Z → string → io W fault unit;
  os_list_parts : string → Uuid → io W fault (list part);
  os_delete_multipart_upload : string → Uuid → io W fault unit;
  os_list_multipart_uploads : string → option string → option string → nat → io W fault (list (string * string));
}.

Class BlockStore (W : Type) := {
  bs_store_block : bytes → Z → string → io W fault bytes;
  bs_get_block : bytes → io W fault bytes;
  bs_add_usage : bytes → string → io W fault unit;
  bs_remove_reference : bytes → string → io W fault unit;
  bs_promote_local : bytes → bytes → io W fault unit;
  bs_fetch_from_peer : string → bytes → io W fault bytes;
  bs_delete_block : bytes → bytes → io W fault unit;
}.

(** ** Errors *)

(** [S3Error]: a code and perhaps a message; the other cases are a panic and a loop that does
    not end. *)
Inductive failure : Type :=
  | S3Error (code : S3ErrorCode) (message : option string)
  | HandlerPanic
  | Endless.

Section handlers.
Context `{!Blake3, !Md5, !Hex, !UuidCodec, !ChunkingStrategy} {W : Type} `{!ObjectStore W, !BlockStore W}.
(** [anyhow::Error::to_string]. *)
Context (error_text : error → string).
(** [StorageBackend::db], as far as the handlers use it, and [StorageBackend::disk_guard]. *)
Context (db_get_user : option (string → io W fault (option (string * Policy)))).
Context (guard_of : W → DiskGuard).

Abbreviation handler A := (io W failure A).

Definition with_message {A} (code : S3ErrorCode) (message : string) : handler A :=
  fail (S3Error code (Some message)).
(** [map_err(|e| S3Error::with_message(code, ..))] on a trait method. *)
Definition call {A} (code : S3ErrorCode) (prefix : string) (m : io W fault A) : handler A :=
  map_err (λ f, match f with
                | Failed e => S3Error code (Some (prefix +:+ error_text e))
                | Panicking => HandlerPanic
                end) m.
Definition internal {A} (m : io W fault A) : handler A := call InternalError "" m.
Definition or_message {A} (code : S3ErrorCode) (message : string) (o : option A) : handler A :=
  match o with Some a => ret a | None => with_message code message end.
(** [let _ = m.await]; a panic is not caught. *)
Definition quietly {A} (m : io W fault A) : handler unit := λ w,
  match m w with
  | (Err Panicking, w') => (Err HandlerPanic, w')
  | (_, w') => (Ok tt, w')
  end.
(** [if let Ok(..) = m.await]. *)
Definition if_ok {A} (m : io W fault A) : handler (option A) := λ w,
  match m w with
  | (Ok a, w') => (Ok (Some a), w')
  | (Err (Failed _), w') => (Ok None, w')
  | (Err Panicking, w') => (Err HandlerPanic, w')
  end.

(** ** Authorization and admission *)

Definition authorize (credentials : option string) (action : string) (bucket key : option string) : handler unit :=
  match db_get_user with
  | None => ret tt
  | Some get_user =>
      match credentials with
      | None => fail (S3Error AccessDenied None)
      | Some access_key => λ w,
          match get_user access_key w with
          | (Ok (Some (_, policy)), w') =>
              (if is_allowed policy action (resource_name bucket key) then Ok tt else Err (S3Error AccessDenied None), w')
          | (Ok None, w') => (Err (S3Error AccessDenied None), w')
          | (Err (Failed _), w') => (Err (S3Error InternalError None), w')
          | (Err Panicking, w') => (Err HandlerPanic, w')
          end
      end
  end.

(** Why a write is refused. *)
Definition refusal (trip : GuardTrip) (g : DiskGuard) : string :=
  match trip with
  | LowFreeSpace =>
      "node is low on disk space (" +:+ format_bytes (free g) +:+ " free, reserve " +:+
        format_bytes (min_free_bytes g) +:+ "); write rejected"
  | OverQuota =>
      "node has reached storage quota (" +:+ format_bytes (local_usage g) +:+ " used, cap " +:+
        format_bytes (max_bytes g) +:+ "); write rejected"
  end.

Definition check_writable : handler unit := λ w,
  match check (guard_of w) with
  | Some trip => (Err (S3Error ServiceUnavailable (Some (refusal trip (guard_of w)))), w)
  | None => (Ok tt, w)
  end.

(** ** The upload loop *)

Definition obj_ref (bucket key : string) : string := "obj:" +:+ bucket +:+ ":" +:+ key.
Definition upload_ref (bucket upload_id : string) : string := "upload:" +:+ bucket +:+ ":" +:+ upload_id.

Definition store_one (ref_id : string) (u : Upload) (block_data : bytes) : handler Upload :=
  let len := blen block_data in
  let! hash := internal (bs_store_block block_data len ref_id) in
  ret (mkUpload (current_chunk u) (block_hashes u ++ [hash]) (wrap_i64 (total_size u + len)) (digested u)).

Fixpoint store_all (ref_id : string) (u : Upload) (chunks : list bytes) : handler Upload :=
  match chunks with
  | [] => ret u
  | c :: cs => let! u := store_one ref_id u c in store_all ref_id u cs
  end.

Definition on_chunk (ref_id : string) (u : Upload) (chunk : bytes) : handler Upload :=
  match process (current_chunk u ++ chunk) with
  | Err LoopsForever => fail Endless
  | Err ChunkerPanics => fail HandlerPanic
  | Ok (chunks, rest) =>
      store_all ref_id (mkUpload rest (block_hashes u) (total_size u) (digested u ++ chunk)) chunks
  end.

(** The frames of a body; an error of the stream has a text. *)
Fixpoint read_body (ref_id : string) (u : Upload) (body : list (result string bytes)) : handler Upload :=
  match body with
  | [] => ret u
  | Err e :: _ => with_message InternalError e
  | Ok chunk :: body' => let! u := on_chunk ref_id u chunk in read_body ref_id u body'
  end.

Definition finish_upload (ref_id : string) (u : Upload) : handler Upload :=
  match finalize (current_chunk u) with
  | (Some block_data, rest) =>
      store_one ref_id (mkUpload rest (block_hashes u) (total_size u) (digested u)) block_data
  | (None, rest) => ret (mkUpload rest (block_hashes u) (total_size u) (digested u))
  end.

Definition release_blocks (bucket key : string) : handler unit :=
  let! old := if_ok (os_get_object bucket key) in
  match old with
  | Some (Some (blocks, _, _)) => for_each (λ h, quietly (bs_remove_reference h (obj_ref bucket key))) blocks
  | _ => ret tt
  end.

(** ** Objects *)

Definition put_object (credentials : option string) (bucket key : string)
    (body : option (list (result string bytes))) : handler string :=
  do! authorize credentials "s3:PutObject" (Some bucket) (Some key);
  do! check_writable;
  let shard_id := compute_shard_id key in
  let! body := or_message InvalidRequest "Missing body" body in
  let! u := read_body (obj_ref bucket key) start_upload body in
  let! u := finish_upload (obj_ref bucket key) u in
  let etag := upload_etag u in
  do! release_blocks bucket key;
  do! internal (os_insert_object bucket shard_id key (block_hashes u) (total_size u) etag);
  ret (quoted etag).

Definition find_object (message : string) (bucket key : string) : handler (list bytes * Z * string) :=
  let! found := internal (os_get_object bucket key) in
  or_message NoSuchKey message found.

Definition get_plan (blocks : list bytes) (size : Z) (range : option Range)
    : handler (Z * option (Z * Z * Z) * list (bytes * Z * option Z)) :=
  match range with
  | None => ret (size, None, (λ h, (h, 0, None)) <$> blocks)
  | Some range =>
      let! ' (start, end_) := or_message InvalidRange "Requested range not satisfiable" (resolve_range range (wrap_u64 size)) in
      let! sizes := internal (os_block_sizes blocks) in
      ret (wrap_i64 (end_ - start + 1), Some (start, end_, size),
           (λ '(i, skip, take), (nth i blocks [], skip, Some take)) <$>
             slice_blocks_for_range sizes start end_)
  end.

Definition get_object (credentials : option string) (bucket key : string) (range : option Range)
    : handler GetObjectOutput :=
  do! authorize credentials "s3:GetObject" (Some bucket) (Some key);
  let! ' (blocks, size, etag) := find_object "Not found" bucket key in
  let! ' (length, crange, plan) := get_plan blocks size range in
  match plan with
  | [] => ret (mkGet length crange (quoted etag) None [])
  | (hash, skip, take) :: rest =>
      let! data := call SlowDown "block unavailable: " (bs_get_block hash) in
      ret (mkGet length crange (quoted etag) (Some (slice_block_bytes data skip take)) rest)
  end.

Definition stream_block (p : bytes * Z * option Z) : handler bytes :=
  let '(hash, skip, take) := p in
  let! data := internal (bs_get_block hash) in
  ret (slice_block_bytes data skip take).
Definition stream_body (out : GetObjectOutput) : handler bytes :=
  let! rest := map_each stream_block (rest_plan out) in
  ret (default [] (first_frame out) ++ concat rest).

Definition head_object (credentials : option string) (bucket key : string) : handler (Z * string) :=
  do! authorize credentials "s3:HeadObject" (Some bucket) (Some key);
  let! ' (_, size, etag) := find_object "Not found" bucket key in
  ret (size, quoted etag).

Definition delete_object (credentials : option string) (bucket key : string) : handler unit :=
  do! authorize credentials "s3:DeleteObject" (Some bucket) (Some key);
  do! release_blocks bucket key;
  internal (os_delete_object bucket key).

(** The outcome per key: deleted, or not with the message of the error. *)
Definition delete_one (bucket key : string) : handler (string + string * string) :=
  do! release_blocks bucket key;
  λ w, match os_delete_object bucket key w with
       | (Ok _, w') => (Ok (inl key), w')
       | (Err (Failed e), w') => (Ok (inr (key, error_text e)), w')
       | (Err Panicking, w') => (Err HandlerPanic, w')
       end.
Definition deleted_keys (rs : list (string + string * string)) : list string :=
  omap (λ r, match r with inl k => Some k | inr _ => None end) rs.
Definition error_keys (rs : list (string + string * string)) : list (string * string) :=
  omap (λ r, match r with inl _ => None | inr e => Some e end) rs.
Definition delete_objects (credentials : option string) (bucket : string) (keys : list string)
    : handler (list string * list (string * string)) :=
  do! authorize credentials "s3:DeleteObject" (Some bucket) None;
  let! rs := map_each (delete_one bucket) keys in
  ret (deleted_keys rs, error_keys rs).

Definition source_of (copy_source : CopySource) : handler (string * string) :=
  match copy_source with
  | FromBucket b k => ret (b, k)
  | FromAccessPoint => with_message NotImplemented "AccessPoint copy source not supported"
  end.

Definition copy_object (credentials : option string) (bucket key : string) (copy_source : CopySource) : handler string :=
  do! authorize credentials "s3:PutObject" (Some bucket) (Some key);
  let! ' (src_bucket, src_key) := source_of copy_source in
  let! ' (blocks, size, etag) := find_object "Source object not found" src_bucket src_key in
  let shard_id := compute_shard_id key in
  do! release_blocks bucket key;
  do! for_each (λ h, quietly (bs_add_usage h (obj_ref bucket key))) blocks;
  do! internal (os_insert_object bucket shard_id key blocks size etag);
  ret (quoted etag).
(** ** Buckets and listings *)

Definition list_buckets (credentials : option string) : handler (list (string * Z)) :=
  do! authorize credentials "s3:ListAllMyBuckets" None None;
  let! names := internal os_list_buckets in
  ret ((λ '(name, created), (name, Z.max created 0)) <$> names).

Definition create_bucket (credentials : option string) (bucket : string) : handler unit :=
  authorize credentials "s3:CreateBucket" (Some bucket) None.
Definition delete_bucket (credentials : option string) (bucket : string) : handler unit :=
  authorize credentials "s3:DeleteBucket" (Some bucket) None.
Definition head_bucket (credentials : option string) (bucket : string) : handler unit :=
  authorize credentials "s3:ListBucket" (Some bucket) None.

(** The scan of a prefix range, page by page, until a page is the last, is empty or the cap is
    reached.  A round that goes on has gathered a key, so [SCAN_ROUNDS] rounds are enough
    ([gather_ends]). *)
Definition SCAN_ROUNDS : nat := S SCAN_CAP.

Fixpoint gather (rounds : nat) (bucket : string) (prefix cursor : option string) (gathered : list obj)
    : handler (list obj) :=
  match rounds with
  | O => fail Endless
  | S rounds =>
      let! ' (page, more) := internal (os_list_objects bucket cursor prefix SCAN_PAGE) in
      let lastk := obj_key <$> last page in
      let gathered := gathered ++ page in
      match lastk with
      | Some k =>
          if more && bool_decide (length gathered < SCAN_CAP)%nat
          then gather rounds bucket prefix (Some k) gathered
          else ret gathered
      | None => ret gathered
      end
  end.

Definition list_page (bucket : string) (start_after prefix delimiter : option string) (max_keys : nat)
    : handler page :=
  match delimiter with
  | None =>
      let! ' (objects, is_truncated) := internal (os_list_objects bucket start_after prefix max_keys) in
      let next_token := if is_truncated then obj_key <$> last objects else None in
      ret (objects, [], is_truncated, next_token)
  | Some delim =>
      let! gathered := gather SCAN_ROUNDS bucket prefix start_after [] in
      let '(contents, common) := group_by_delimiter gathered (default "" prefix) delim in
      ret (merge_and_truncate contents common max_keys)
  end.

Definition list_objects_v2 (credentials : option string) (bucket : string)
    (prefix continuation_token start_after delimiter : option string) (max_keys : option Z)
    : handler ListOutput :=
  do! authorize credentials "s3:ListBucket" (Some bucket) None;
  let start_after := match continuation_token with Some c => Some c | None => start_after end in
  let max_keys := page_limit max_keys in
  let! ' (kept, common, is_truncated, next) := list_page bucket start_after prefix delimiter max_keys in
  let contents := list_entry <$> kept in
  ret (mkList bucket prefix delimiter contents (none_if_empty common) is_truncated
         (Some (length contents + length common)%nat) max_keys next).

Definition list_object_versions (credentials : option string) (bucket : string)
    (prefix key_marker delimiter : option string) (max_keys : option Z)
    : handler (ListOutput * option string) :=
  do! authorize credentials "s3:ListBucketVersions" (Some bucket) None;
  let max_keys := page_limit max_keys in
  let! ' (kept, common, is_truncated, next) := list_page bucket key_marker prefix delimiter max_keys in
  ret (mkList bucket prefix delimiter (list_entry <$> kept) (none_if_empty common) is_truncated
         None max_keys next, if is_truncated then Some "null" else None).

(** The source repeats the body of [list_page] here. *)
Definition list_objects (credentials : option string) (bucket : string)
    (prefix marker delimiter : option string) (max_keys : option Z) : handler ListOutput :=
  do! authorize credentials "s3:ListBucket" (Some bucket) None;
  let max_keys := page_limit max_keys in
  let! ' (kept, common, is_truncated, next) := list_page bucket marker prefix delimiter max_keys in
  ret (mkList bucket prefix delimiter (list_entry <$> kept) (none_if_empty common) is_truncated
         None max_keys next).

(** ** Multipart uploads *)

Definition parse_upload_id (upload_id : string) : handler Uuid :=
  or_message InvalidRequest "Invalid upload id" (uuid_parse_str upload_id).
Definition upload_key (bucket : string) (upload_id : Uuid) : handler string :=
  let! key := internal (os_get_multipart_upload_key bucket upload_id) in
  or_message NoSuchUpload "Upload not found" key.

(** [fresh] is the identifier [Uuid::new_v4] draws. *)
Definition create_multipart_upload (credentials : option string) (fresh : Uuid) (bucket key : string)
    : handler string :=
  do! authorize credentials "s3:PutObject" (Some bucket) (Some key);
  do! internal (os_create_multipart_upload bucket key fresh);
  ret (uuid_to_string fresh).

Definition upload_part (credentials : option string) (bucket key upload_id : string) (part_number : Z)
    (body : option (list (result string bytes))) : handler string :=
  do! authorize credentials "s3:PutObject" (Some bucket) (Some key);
  do! check_writable;
  let! uid := parse_upload_id upload_id in
  let! _k := upload_key bucket uid in
  let! body := or_message InvalidRequest "Missing body" body in
  let! u := read_body (upload_ref bucket upload_id) start_upload body in
  let! u := finish_upload (upload_ref bucket upload_id) u in
  let etag := upload_etag u in
  do! internal (os_insert_part bucket uid part_number (block_hashes u) (total_size u) etag);
  ret (quoted etag).

Definition copy_range (copy_source_range : option string) (src_size : Z) : handler (Z * Z) :=
  match copy_source_range with
  | None => ret (0, Z.max (wrap_u64 src_size - 1) 0)
  | Some range_str =>
      let range_str := default range_str (strip_prefix range_str "bytes=") in
      let! ' (a, b) := or_message InvalidArgument "Invalid copy source range" (split_dash range_str) in
      let! start := or_message InvalidArgument "Invalid range start" (parse_u64 a) in
      let! end_ := or_message InvalidArgument "Invalid range end" (parse_u64 b) in
      ret (start, end_)
  end.

Fixpoint copy_slices (ref_id : string) (u : Upload) (src_blocks : list bytes) (slices : list (nat * Z * Z))
    : handler Upload :=
  match slices with
  | [] => ret u
  | (i, skip, take) :: rest =>
      let! data := internal (bs_get_block (nth i src_blocks [])) in
      let! u := on_chunk ref_id u (slice_block_bytes data skip (Some take)) in
      copy_slices ref_id u src_blocks rest
  end.

Definition upload_part_copy (credentials : option string) (bucket key upload_id : string)
    (part_number : Z) (copy_source : CopySource) (copy_source_range : option string) : handler string :=
  do! authorize credentials "s3:PutObject" (Some bucket) (Some key);
  do! check_writable;
  let! uid := parse_upload_id upload_id in
  let! _k := upload_key bucket uid in
  let! ' (src_bucket, src_key) := source_of copy_source in
  let! ' (src_blocks, src_size, _) := find_object "Source object not found" src_bucket src_key in
  let! ' (start, end_) := copy_range copy_source_range src_size in
  let! sizes := internal (os_block_sizes src_blocks) in
  let! u := copy_slices (upload_ref bucket upload_id) start_upload src_blocks
              (slice_blocks_for_range sizes start end_) in
  let! u := finish_upload (upload_ref bucket upload_id) u in
  let etag := upload_etag u in
  do! internal (os_insert_part bucket uid part_number (block_hashes u) (total_size u) etag);
  ret (quoted etag).

Fixpoint assemble (ps : list part) (hashes : list bytes) (total : Z) (etags : bytes)
    : handler (list bytes * Z * bytes) :=
  match ps with
  | [] => ret (hashes, total, etags)
  | p :: ps' =>
      let! etag_bytes := or_message InternalError "Invalid part etag" (hex_decode (trim_quotes (part_etag p))) in
      assemble ps' (hashes ++ part_blocks p) (wrap_i64 (total + part_size p)) (etags ++ etag_bytes)
  end.

Definition complete_multipart_upload (credentials : option string) (bucket key upload_id : string)
    : handler string :=
  do! authorize credentials "s3:PutObject" (Some bucket) (Some key);
  let! uid := parse_upload_id upload_id in
  let! stored_key := upload_key bucket uid in
  if decide (stored_key ≠ key)
  then with_message InvalidRequest "Key in request does not match key for this upload" else
  let! ps := internal (os_list_parts bucket uid) in
  let! ' (hashes, total, etags) := assemble (sort_by part_le ps) [] 0 [] in
  let final_etag := hex_encode (md5 etags) +:+ "-" +:+ pretty (length hashes) in
  let shard_id := compute_shard_id key in
  do! release_blocks bucket key;
  do! for_each (λ h, do! quietly (bs_add_usage h (obj_ref bucket key));
                     quietly (bs_remove_reference h (upload_ref bucket upload_id))) hashes;
  do! internal (os_insert_object bucket shard_id key hashes total final_etag);
  do! internal (os_delete_multipart_upload bucket uid);
  ret (quoted final_etag).

Definition abort_multipart_upload (credentials : option string) (bucket key upload_id : string) : handler unit :=
  do! authorize credentials "s3:AbortMultipartUpload" (Some bucket) (Some key);
  let! uid := parse_upload_id upload_id in
  internal (os_delete_multipart_upload bucket uid).

Definition list_parts (credentials : option string) (bucket key upload_id : string)
    (part_number_marker : option string) (max_parts : option Z)
    : handler (list (Z * Z * string) * bool * option string) :=
  do! authorize credentials "s3:ListMultipartUploadParts" (Some bucket) (Some key);
  let! uid := parse_upload_id upload_id in
  let! _k := upload_key bucket uid in
  let! ps := internal (os_list_parts bucket uid) in
  let marker := default 0 (part_number_marker ≫= parse_i32) in
  let max_parts := page_limit max_parts in
  let filtered := filter (λ p, marker < part_number p) ps in
  let is_truncated := bool_decide (max_parts < length filtered)%nat in
  let result := (λ p, (part_number p, part_size p, quoted (part_etag p))) <$> take max_parts filtered in
  ret (result, is_truncated, if is_truncated then (λ p, pretty p.1.1) <$> last result else None).

Definition list_multipart_uploads (credentials : option string) (bucket : string)
    (prefix key_marker : option string) (max_uploads : option Z)
    : handler (option (list (string * string)) * bool * option string) :=
  do! authorize credentials "s3:ListBucketMultipartUploads" (Some bucket) None;
  let max_uploads := page_limit max_uploads in
  let! rows := internal (os_list_multipart_uploads bucket prefix key_marker max_uploads) in
  let is_truncated := bool_decide (max_uploads < length rows)%nat in
  let uploads := take max_uploads rows in
  ret (none_if_empty uploads, is_truncated, if is_truncated then fst <$> last uploads else None).
End handlers.
