(* ===== verification/Refines.v ===== *)
(** * The S3 service on the store (src/storage.rs: [impl ObjectStore for Db], [impl BlockStore for
    DistributedBlockStore], [StorageBackend::new])

    [db_objects] and [dist_blocks] are the two implementations [StorageBackend::new] plugs into
    the service of [Handlers].  With them every handler does what its counterpart in [S3] does,
    message texts apart, so what is proved of [S3] holds of the service as it is written. *)

From stdpp Require Import pretty.
From S2P Require Import Prelude Crates Clock Hashing Chunking Range Listing Policy Disk Tables Store.
From S2P Require Import Objects BlockStore GC Replication S3 Sizes Handlers.

Section refines.
Context `{!Blake3, !Md5, !Hex, !UuidCodec, !Json, !IterOrder, !BlobStore, !ChunkingStrategy}.
Context (noise_fetch_block : string → bytes → result error bytes) (t : SystemTime).
Context (error_text : error → string).

(** ** The implementations *)

Definition db_read {A} (f : Store → A) : io Backend fault A := λ b, (Ok (f (db (node b))), b).
Definition db_try {A} (f : Store → result error A) : io Backend fault A := λ b,
  (match f (db (node b)) with Ok a => Ok a | Err e => Err (Failed e) end, b).
Definition db_may_panic {A} (f : Store → result panic A) : io Backend fault A := λ b,
  (match f (db (node b)) with Ok a => Ok a | Err Panic => Err Panicking end, b).
Definition db_write (f : Store → Store) : io Backend fault unit := λ b,
  (Ok tt, mkBackend (mkNodeState (f (db (node b))) (blob (node b))) (disk_guard b)).
Definition dist {A} (m : io Node error A) : io Backend fault A := map_err Failed (on_node m).

#[local] Instance db_objects : ObjectStore Backend := {|
  os_insert_object bucket shard_id key blocks size etag :=
    db_write (λ s, Store.insert_object s t bucket shard_id key blocks size etag);
  os_get_object bucket key := db_read (λ s, Store.get_object s bucket key);
  os_block_sizes hashes := db_read (λ s, Store.block_sizes s hashes);
  os_list_buckets := db_read Store.list_buckets;
  os_list_objects bucket start_after prefix page_size :=
    db_may_panic (λ s, Store.list_objects s bucket start_after prefix page_size);
  os_delete_object bucket key := db_write (λ s, Store.delete_object s t bucket key);
  os_create_multipart_upload bucket key upload_id := db_write (λ s, Store.insert_multipart s bucket upload_id key);
  os_get_multipart_upload_key bucket upload_id := db_read (λ s, Store.get_multipart_key s bucket upload_id);
  os_insert_part bucket upload_id part_number blocks size etag :=
    db_write (λ s, Store.insert_part s bucket upload_id part_number blocks size etag);
  os_list_parts bucket upload_id := db_read (λ s, Store.list_parts s bucket upload_id);
  os_delete_multipart_upload bucket upload_id := db_write (λ s, Store.delete_multipart_upload s bucket upload_id);
  os_list_multipart_uploads bucket prefix key_marker max_uploads :=
    db_read (λ s, Store.list_multipart_uploads s bucket prefix key_marker max_uploads);
|}.

#[local] Instance dist_blocks : Handlers.BlockStore Backend := {|
  bs_store_block block_data size _ref_id := dist (store_block t block_data size);
  bs_get_block hash := dist (get_block noise_fetch_block t hash);
  bs_add_usage hash _ref_id := dist (add_usage hash);
  bs_remove_reference hash _ref_id := dist (remove_reference hash);
  bs_promote_local hash data := dist (promote_local t hash data);
  bs_fetch_from_peer peer_url hash := dist (fetch_from_peer noise_fetch_block peer_url hash);
  bs_delete_block hash fid := dist (delete_block hash fid);
|}.

Definition db_user : option (string → io Backend fault (option (string * Policy))) :=
  Some (λ access_key, db_try (λ s, get_user s access_key)).

(** ** Agreement *)

(** An error without its message. *)
Definition forget (f : failure) : stop :=
  match f with
  | S3Error code _ => Fault code
  | HandlerPanic => TaskPanic
  | Endless => Diverges
  end.
Definition frame_of (r : result string bytes) : option bytes :=
  match r with Ok b => Some b | Err _ => None end.

Definition frames (body : option (list (result string bytes))) : option (list (option bytes)) :=
  option_map (fmap frame_of) body.

(** The same outcome and the same effect, messages apart. *)
Definition agrees {A} (m : io Backend failure A) (m' : io Backend stop A) : Prop :=
  ∀ b, map_err forget m b = m' b.

Lemma agrees_ret {A} (a : A) : agrees (ret a) (ret a).
Proof. done. Qed.
Lemma agrees_fail {A} e : agrees (A := A) (fail e) (fail (forget e)).
Proof. done. Qed.
Lemma agrees_bind {A B} (m : io Backend failure A) m' (k : A → io Backend failure B) k' :
  agrees m m' → (∀ a, agrees (k a) (k' a)) → agrees (bind m k) (bind m' k').
Proof.
  intros Hm Hk b. specialize (Hm b). unfold bind, map_err in *.
  destruct (m b) as [[a|e] b'], (m' b) as [[a'|e'] b'']; simplify_eq; [|done]. apply Hk.
Qed.
Lemma agrees_or_message {A} code msg (o : option A) : agrees (or_message code msg o) (ok_or code o).
Proof. by destruct o. Qed.
Lemma agrees_with_message {A} code msg : agrees (A := A) (with_message code msg) (reject code).
Proof. done. Qed.
Lemma agrees_read {A} code p (f : Store → A) : agrees (call error_text code p (db_read f)) (ask f).
Proof. done. Qed.
Lemma agrees_write code p f : agrees (call error_text code p (db_write f)) (tell f).
Proof. done. Qed.
Lemma agrees_block {A} code p (m : io Node error A) :
  agrees (call error_text code p (dist m)) (block_call code m).
Proof.
  intros b. unfold call, dist, block_call, map_err. by destruct (on_node m b) as [[a|e] b'].
Qed.
Lemma agrees_quietly {A} (m : io Node error A) : agrees (quietly (dist m)) (ignore m).
Proof.
  intros b. unfold ignore, attempt, quietly, dist, bind, map_err, ret. by destruct (on_node m b) as [[a|e] b'].
Qed.
Lemma agrees_for_each {A} (f : A → io Backend failure unit) f' l :
  (∀ x, agrees (f x) (f' x)) → agrees (for_each f l) (for_each f' l).
Proof. intros Hf. induction l as [|x l IH]; [apply agrees_ret|]. by apply agrees_bind; [|intros _]. Qed.
Lemma agrees_map_each {A B} (f : A → io Backend failure B) f' l :
  (∀ x, agrees (f x) (f' x)) → agrees (map_each f l) (map_each f' l).
Proof.
  intros Hf. induction l as [|x l IH]; [apply agrees_ret|]. simpl.
  apply agrees_bind; [done|]. intros y. apply agrees_bind; [done|]. intros ys. apply agrees_ret.
Qed.
(** The same loop when the bodies agree up to a function of their values. *)
Lemma agrees_map_each_fmap {A B C} (g : B → C) (f : A → io Backend failure C) (f' : A → io Backend stop B) l :
  (∀ x, agrees (f x) (let! y := f' x in ret (g y))) →
  agrees (map_each f l) (let! ys := map_each f' l in ret (g <$> ys)).
Proof.
  intros Hf. induction l as [|x l IH]; [done|]. intros b. specialize (Hf x b). simpl.
  unfold bind, map_err, ret in *.
  destruct (f x b) as [[c|e] b1], (f' x b) as [[y|e'] b2]; simplify_eq; [|done].
  specialize (IH b2). unfold map_err in IH.
  destruct (map_each f l b2) as [[c|e] b3], (map_each f' l b2) as [[ys|e'] b4]; by simplify_eq.
Qed.

Create HintDb agrees.
#[local] Hint Resolve agrees_ret agrees_or_message agrees_with_message agrees_read agrees_write agrees_block
  agrees_quietly : agrees.

(** Reduces the trait methods to their implementations and follows the two programs. *)
Ltac agrees_step :=
  lazymatch goal with
  | |- agrees (bind _ _) (bind _ _) => apply agrees_bind; [|intros ?]
  | |- agrees (for_each _ _) (for_each _ _) => apply agrees_for_each; intros ?
  | |- agrees (map_each _ _) (map_each _ _) => apply agrees_map_each; intros ?
  | |- agrees (match ?x with _ => _ end) _ => destruct x
  | |- agrees _ _ => solve [eauto with agrees nocore]
  end.
Ltac agrees_auto :=
  unfold internal; cbn [os_insert_object os_get_object os_block_sizes os_list_buckets os_delete_object
    os_create_multipart_upload os_get_multipart_upload_key os_insert_part os_list_parts
    os_delete_multipart_upload os_list_multipart_uploads db_objects
    bs_store_block bs_get_block bs_add_usage bs_remove_reference dist_blocks];
  repeat agrees_step.

(** *** Shared steps *)

Lemma agrees_authorize creds action bucket key :
  agrees (Handlers.authorize db_user creds action bucket key) (S3.authorize creds action bucket key).
Proof.
  destruct creds as [a|]; [|done]. intros b. unfold Handlers.authorize, S3.authorize, db_user, db_try, ask, bind, map_err.
  destruct (get_user (db (node b)) a) as [[[secret policy]|]|e]; [|done|done]. by destruct (is_allowed _ _ _).
Qed.
Lemma agrees_check_writable : agrees (Handlers.check_writable disk_guard) S3.check_writable.
Proof. intros b. unfold Handlers.check_writable, S3.check_writable, map_err. by destruct (check _). Qed.
Lemma agrees_store_one r u d : agrees (Handlers.store_one error_text r u d) (S3.store_one t u d).
Proof. unfold Handlers.store_one, S3.store_one. cbv zeta. agrees_auto. Qed.
Lemma agrees_store_all r cs : ∀ u, agrees (Handlers.store_all error_text r u cs) (S3.store_all t u cs).
Proof.
  induction cs as [|c cs IH]; intros u; simpl; [apply agrees_ret|].
  apply agrees_bind; [apply agrees_store_one|]. intros. apply IH.
Qed.
Lemma agrees_on_chunk r u c : agrees (Handlers.on_chunk error_text r u c) (S3.on_chunk t u c).
Proof.
  unfold Handlers.on_chunk, S3.on_chunk. destruct (process _) as [[cs rest]|[]]; [apply agrees_store_all|apply agrees_fail..].
Qed.
Lemma agrees_read_body r body :
  ∀ u, agrees (Handlers.read_body error_text r u body) (S3.read_body t u (frame_of <$> body)).
Proof.
  induction body as [|[c|e] body IH]; intros u; simpl; [apply agrees_ret| |done].
  apply agrees_bind; [apply agrees_on_chunk|]. intros. apply IH.
Qed.
Lemma agrees_finish_upload r u : agrees (Handlers.finish_upload error_text r u) (S3.finish_upload t u).
Proof.
  unfold Handlers.finish_upload, S3.finish_upload.
  destruct (finalize _) as [[d|] rest]; [apply agrees_store_one|apply agrees_ret].
Qed.
Lemma agrees_release bucket key : agrees (Handlers.release_blocks bucket key) (S3.release_blocks bucket key).
Proof.
  intros b. unfold Handlers.release_blocks, S3.release_blocks, bind, if_ok, ask, map_err. simpl.
  destruct (Store.get_object _ _ _) as [[[bl sz] et]|]; [|done].
  apply (agrees_for_each (λ h, quietly (dist (remove_reference h)))). intros. apply agrees_quietly.
Qed.
(** Looking an object up and going on with it. *)
Lemma agrees_find {A} msg bucket key (k : list bytes * Z * string → io Backend failure A) k' :
  (∀ r, agrees (k r) (k' r)) →
  agrees (bind (find_object error_text msg bucket key) k)
    (let! found := ask (λ s, Store.get_object s bucket key) in bind (ok_or NoSuchKey found) k').
Proof.
  intros Hk b. unfold find_object, bind, ask, map_err. simpl.
  destruct (Store.get_object _ _ _) as [r|]; [|done]. apply Hk.
Qed.
#[local] Hint Resolve agrees_authorize agrees_check_writable agrees_read_body agrees_finish_upload agrees_release
  agrees_on_chunk : agrees.
Lemma agrees_source src :
  agrees (source_of src)
    match src with FromBucket b k => ret (b, k) | FromAccessPoint => reject NotImplemented end.
Proof. by destruct src. Qed.
#[local] Hint Resolve agrees_source : agrees.

(** *** Objects *)

Lemma agrees_put creds bucket key body :
  agrees (Handlers.put_object error_text db_user disk_guard creds bucket key body)
    (S3.put_object creds t bucket key (frames body)).
Proof.
  unfold Handlers.put_object, S3.put_object. cbv zeta.
  do 2 (apply agrees_bind; [auto with agrees nocore|intros _]). destruct body as [body|]; [|done].
  apply (agrees_bind (Handlers.read_body _ _ _ _)); [apply agrees_read_body|intros u]. agrees_auto.
Qed.

Lemma agrees_get_plan bl size range :
  agrees (Handlers.get_plan error_text bl size range) (S3.get_plan bl size range).
Proof.
  unfold Handlers.get_plan, S3.get_plan. destruct range as [range|]; [|apply agrees_ret]. agrees_auto.
Qed.
Lemma agrees_get creds bucket key range :
  agrees (Handlers.get_object error_text db_user creds bucket key range)
    (S3.get_object noise_fetch_block creds t bucket key range).
Proof.
  unfold Handlers.get_object, S3.get_object. apply agrees_bind; [apply agrees_authorize|intros _].
  apply agrees_find. intros [[bl size] etag]. apply agrees_bind; [apply agrees_get_plan|].
  intros [[len crange] [|[[h skip] tk] rest]]; [apply agrees_ret|]. agrees_auto.
Qed.
Lemma agrees_stream out :
  agrees (Handlers.stream_body error_text out) (S3.stream_body noise_fetch_block t out).
Proof.
  unfold Handlers.stream_body, S3.stream_body. agrees_auto. destruct x as [[h skip] tk].
  unfold Handlers.stream_block, S3.stream_block. agrees_auto.
Qed.
Lemma agrees_head creds bucket key :
  agrees (Handlers.head_object error_text db_user creds bucket key) (S3.head_object creds bucket key).
Proof.
  unfold Handlers.head_object, S3.head_object. apply agrees_bind; [apply agrees_authorize|intros _].
  apply agrees_find. intros [[bl size] etag]. apply agrees_ret.
Qed.
Lemma agrees_delete creds bucket key :
  agrees (Handlers.delete_object error_text db_user creds bucket key) (S3.delete_object creds t bucket key).
Proof. unfold Handlers.delete_object, S3.delete_object. agrees_auto. Qed.
Lemma agrees_copy creds bucket key src :
  agrees (Handlers.copy_object error_text db_user creds bucket key src) (S3.copy_object creds t bucket key src).
Proof.
  unfold Handlers.copy_object, S3.copy_object. cbv zeta. apply agrees_bind; [apply agrees_authorize|intros _].
  apply agrees_bind; [apply agrees_source|]. intros [sb sk]. apply agrees_find. intros [[bl size] etag]. agrees_auto.
Qed.

Lemma deleted_inl ks : deleted_keys (inl <$> ks) = ks.
Proof. unfold deleted_keys. induction ks as [|k ks IH]; [done|]. cbn. by f_equal. Qed.
Lemma errors_inl ks : error_keys (inl <$> ks) = [].
Proof. unfold error_keys. by induction ks. Qed.

(** Every key is reported deleted: deletion in the store has no error of its own. *)
Lemma agrees_delete_objects creds bucket keys :
  agrees (Handlers.delete_objects error_text db_user creds bucket keys)
    (let! ks := S3.delete_objects creds t bucket keys in ret (ks, [])).
Proof.
  intros b. unfold Handlers.delete_objects, S3.delete_objects.
  pose proof (agrees_authorize creds "s3:DeleteObject" (Some bucket) None b) as Ha. unfold bind, map_err in *.
  destruct (Handlers.authorize _ _ _ _ _ b) as [[[]|e] b1], (S3.authorize _ _ _ _ b) as [[[]|e'] b1'];
    simplify_eq; [|done]. clear b.
  assert (agrees (map_each (delete_one error_text bucket) keys)
    (let! ks := map_each (λ key, do! S3.release_blocks bucket key;
                                 do! tell (λ s, Store.delete_object s t bucket key); ret key) keys in
     ret (inl <$> ks))) as Hk.
  { apply agrees_map_each_fmap. intros k b. unfold delete_one.
    pose proof (agrees_release bucket k b) as Hr. unfold bind, map_err in *.
    destruct (Handlers.release_blocks _ _ b) as [[[]|e] b2], (S3.release_blocks _ _ b) as [[[]|e'] b2'];
      by simplify_eq. }
  specialize (Hk b1'). unfold bind, map_err, ret in *.
  destruct (map_each (delete_one _ _) _ b1') as [[rs|e] b2], (map_each _ keys b1') as [[ks|e'] b3];
    simplify_eq; [|done].
  by rewrite deleted_inl, errors_inl.
Qed.

(** *** Listings *)

Lemma agrees_gather bucket prefix f : ∀ n cursor acc b r, (f ≤ n)%nat →
  Objects.gather f (db (node b)) bucket cursor prefix acc = Some r →
  Handlers.gather error_text n bucket prefix cursor acc b =
    (match r with Ok l => Ok l | Err Panic => Err HandlerPanic end, b).
Proof.
  induction f as [|f IH]; intros [|n] cursor acc b r Hn; simpl; [done|done|lia|].
  unfold internal, call, map_err, db_may_panic, bind.
  destruct (Store.list_objects _ _ _ _ _) as [[pg more]|[]]; [|by intros [= <-]].
  destruct (obj_key <$> last pg) as [k|]; [|by intros [= <-]].
  destruct (more && _); [|by intros [= <-]]. intros Hg. apply IH; [lia|done].
Qed.
Lemma gather_fuel_enough s bucket cursor prefix :
  ∃ r, Objects.gather GATHER_FUEL s bucket cursor prefix [] = Some r.
Proof.
  destruct (bounds prefix) as [[l u]|e] eqn:Hb.
  - destruct (gather_spec GATHER_FUEL s bucket prefix l u Hb cursor []) as (n & -> & _); eauto.
    + unfold GATHER_FUEL, SCAN_CAP, SCAN_PAGE. cbn [length]. lia.
    + unfold SCAN_CAP. cbn [length]. lia.
  - unfold GATHER_FUEL. cbn [Objects.gather]. rewrite list_objects_eq, Hb. eauto.
Qed.
Lemma fuel_within_rounds : (GATHER_FUEL ≤ SCAN_ROUNDS)%nat.
Proof. unfold GATHER_FUEL, SCAN_ROUNDS, SCAN_CAP. lia. Qed.
Lemma agrees_list_page bucket after prefix delim n :
  agrees (Handlers.list_page error_text bucket after prefix delim n) (call_list_page bucket after prefix delim n).
Proof.
  intros b. unfold Handlers.list_page, call_list_page, ask, Objects.list_page, bind.
  destruct delim as [d|].
  - destruct (gather_fuel_enough (db (node b)) bucket after prefix) as [r Hr].
    unfold map_err. rewrite (agrees_gather _ _ _ _ _ _ b _ fuel_within_rounds Hr), Hr.
    destruct r as [l|[]]; [|done]. by destruct (group_by_delimiter _ _ _).
  - unfold internal, call, map_err. simpl. unfold db_may_panic.
    by destruct (Store.list_objects _ _ _ _ _) as [[pg more]|[]].
Qed.
#[local] Hint Resolve agrees_list_page : agrees.

Lemma agrees_parse u : agrees (Handlers.parse_upload_id u) (S3.parse_upload_id u).
Proof. apply agrees_or_message. Qed.
Lemma agrees_upload_key bucket u : agrees (Handlers.upload_key error_text bucket u) (S3.upload_key bucket u).
Proof. unfold Handlers.upload_key, S3.upload_key. agrees_auto. Qed.
Lemma agrees_copy_range r n : agrees (Handlers.copy_range r n) (S3.copy_range r n).
Proof. unfold Handlers.copy_range, S3.copy_range. destruct r; [|apply agrees_ret]. cbv zeta. agrees_auto. Qed.
Lemma agrees_copy_slices r bl sl :
  ∀ u, agrees (Handlers.copy_slices error_text r u bl sl) (S3.copy_slices noise_fetch_block t u bl sl).
Proof.
  induction sl as [|[[i skip] tk] sl IH]; intros u; simpl; [apply agrees_ret|].
  apply agrees_bind; [apply agrees_block|intros d]. apply agrees_bind; [apply agrees_on_chunk|intros; apply IH].
Qed.
Lemma agrees_assemble ps : ∀ hs n es, agrees (Handlers.assemble ps hs n es) (S3.assemble ps hs n es).
Proof.
  induction ps as [|p ps IH]; intros; simpl; [apply agrees_ret|].
  apply agrees_bind; [apply agrees_or_message|intros; apply IH].
Qed.
#[local] Hint Resolve agrees_parse agrees_upload_key agrees_copy_range agrees_copy_slices agrees_assemble : agrees.

Lemma agrees_upload_part creds bucket key u n body :
  agrees (Handlers.upload_part error_text db_user disk_guard creds bucket key u n body)
    (S3.upload_part creds t bucket key u n (frames body)).
Proof.
  unfold Handlers.upload_part, S3.upload_part. cbv zeta.
  do 4 (apply agrees_bind; [auto with agrees nocore|intros ?]). destruct body as [body|]; [|done].
  apply (agrees_bind (Handlers.read_body _ _ _ _)); [apply agrees_read_body|intros ?]. agrees_auto.
Qed.
Lemma agrees_upload_part_copy creds bucket key u n src r :
  agrees (Handlers.upload_part_copy error_text db_user disk_guard creds bucket key u n src r)
    (S3.upload_part_copy noise_fetch_block creds t bucket key u n src r).
Proof.
  unfold Handlers.upload_part_copy, S3.upload_part_copy. cbv zeta.
  do 4 (apply agrees_bind; [auto with agrees nocore|intros ?]). apply agrees_bind; [apply agrees_source|].
  intros [sb sk]. apply agrees_find. intros [[bl size] etag]. agrees_auto.
Qed.
Lemma agrees_complete creds bucket key u :
  agrees (Handlers.complete_multipart_upload error_text db_user creds bucket key u)
    (S3.complete_multipart_upload creds t bucket key u).
Proof. unfold Handlers.complete_multipart_upload, S3.complete_multipart_upload. cbv zeta. agrees_auto. Qed.

(** With the store and the block store behind its traits, every handler of the service ends
    as its counterpart on the store does and leaves the same node. *)
Theorem service_refines creds bucket key :
  (∀ body, agrees (Handlers.put_object error_text db_user disk_guard creds bucket key body)
             (S3.put_object creds t bucket key (frames body))) ∧
  (∀ range, agrees (Handlers.get_object error_text db_user creds bucket key range)
              (S3.get_object noise_fetch_block creds t bucket key range)) ∧
  (∀ out, agrees (Handlers.stream_body error_text out) (S3.stream_body noise_fetch_block t out)) ∧
  agrees (Handlers.head_object error_text db_user creds bucket key) (S3.head_object creds bucket key) ∧
  agrees (Handlers.delete_object error_text db_user creds bucket key) (S3.delete_object creds t bucket key) ∧
  (∀ keys, agrees (Handlers.delete_objects error_text db_user creds bucket keys)
             (let! ks := S3.delete_objects creds t bucket keys in ret (ks, []))) ∧
  (∀ src, agrees (Handlers.copy_object error_text db_user creds bucket key src)
            (S3.copy_object creds t bucket key src)) ∧
  agrees (Handlers.list_buckets error_text db_user creds) (S3.list_buckets creds) ∧
  agrees (Handlers.create_bucket db_user creds bucket) (S3.create_bucket creds bucket) ∧
  agrees (Handlers.delete_bucket db_user creds bucket) (S3.delete_bucket creds bucket) ∧
  agrees (Handlers.head_bucket db_user creds bucket) (S3.head_bucket creds bucket) ∧
  (∀ p tok a d n, agrees (Handlers.list_objects_v2 error_text db_user creds bucket p tok a d n)
                    (S3.list_objects_v2 creds bucket p tok a d n)) ∧
  (∀ p m d n, agrees (Handlers.list_object_versions error_text db_user creds bucket p m d n)
                (S3.list_object_versions creds bucket p m d n)) ∧
  (∀ p m d n, agrees (Handlers.list_objects error_text db_user creds bucket p m d n)
                (S3.list_objects creds bucket p m d n)) ∧
  (∀ fresh, agrees (Handlers.create_multipart_upload error_text db_user creds fresh bucket key)
              (S3.create_multipart_upload creds fresh bucket key)) ∧
  (∀ u n body, agrees (Handlers.upload_part error_text db_user disk_guard creds bucket key u n body)
                 (S3.upload_part creds t bucket key u n (frames body))) ∧
  (∀ u n src r, agrees (Handlers.upload_part_copy error_text db_user disk_guard creds bucket key u n src r)
                  (S3.upload_part_copy noise_fetch_block creds t bucket key u n src r)) ∧
  (∀ u, agrees (Handlers.complete_multipart_upload error_text db_user creds bucket key u)
          (S3.complete_multipart_upload creds t bucket key u)) ∧
  (∀ u, agrees (Handlers.abort_multipart_upload error_text db_user creds bucket key u)
          (S3.abort_multipart_upload creds bucket key u)) ∧
  (∀ u m n, agrees (Handlers.list_parts error_text db_user creds bucket key u m n)
              (S3.s3_list_parts creds bucket key u m n)) ∧
  (∀ p m n, agrees (Handlers.list_multipart_uploads error_text db_user creds bucket p m n)
              (S3.s3_list_multipart_uploads creds bucket p m n)).
Proof.
  split_and!; intros; auto using agrees_put, agrees_get, agrees_stream, agrees_head, agrees_delete,
    agrees_delete_objects, agrees_copy, agrees_upload_part, agrees_upload_part_copy, agrees_complete, agrees_authorize;
    unfold Handlers.list_buckets, S3.list_buckets, Handlers.list_objects_v2, S3.list_objects_v2,
      Handlers.list_object_versions, S3.list_object_versions, Handlers.list_objects, S3.list_objects,
      Handlers.create_multipart_upload, S3.create_multipart_upload, Handlers.abort_multipart_upload,
      S3.abort_multipart_upload, Handlers.list_parts, S3.s3_list_parts, Handlers.list_multipart_uploads,
      S3.s3_list_multipart_uploads; cbv zeta; agrees_auto.
Qed.
End refines.
