(* ===== verification/Service.v ===== *)
(** * What the S3 service keeps whatever its stores do (src/storage.rs)

    Theorems about the handlers of [Handlers] over any pair of stores: what a request may
    change when a call of a trait fails at any point, what an acknowledged upload has handed to
    the stores, and that a listing's scan ends.  [LawfulService] is all that is asked of the
    stores; the node's own implement it ([backend_lawful]), and so do stores whose calls fail
    on a schedule ([flaky_lawful]). *)

From stdpp Require Import pretty.
From S2P Require Import Prelude Crates Clock Hashing Chunking Range Listing Policy Disk Tables Store.
From S2P Require Import Objects BlockStore GC Replication S3 S3Props Sizes Node Handlers Refines.

(** The state of the objects as a reader sees it; [insert_object] and [delete_object] change at
    most the object they name, and nothing when they fail; no other method changes objects. *)
Class LawfulService `{!UuidCodec} (W : Type) `{!ObjectStore W, !Handlers.BlockStore W} := {
  visible : W → string → string → option (list bytes * Z * string);
  same : relation W := λ w w', ∀ b k, visible w' b k = visible w b k;
  same_but : string → string → relation W := λ bucket key w w',
    ∀ b k, (b, k) ≠ (bucket, key) → visible w' b k = visible w b k;
  insert_frame : ∀ b sh k bl sz et, moves (same_but b k) (os_insert_object b sh k bl sz et);
  insert_failed : ∀ b sh k bl sz et w e, (os_insert_object b sh k bl sz et w).1 = Err e →
    same w (os_insert_object b sh k bl sz et w).2;
  delete_frame : ∀ b k, moves (same_but b k) (os_delete_object b k);
  delete_failed : ∀ b k w e, (os_delete_object b k w).1 = Err e → same w (os_delete_object b k w).2;
  get_object_same : ∀ b k, moves same (os_get_object b k);
  block_sizes_same : ∀ hs, moves same (os_block_sizes hs);
  list_buckets_same : moves same os_list_buckets;
  list_objects_same : ∀ b a p n, moves same (os_list_objects b a p n);
  create_upload_same : ∀ b k u, moves same (os_create_multipart_upload b k u);
  get_upload_same : ∀ b u, moves same (os_get_multipart_upload_key b u);
  insert_part_same : ∀ b u n bl sz et, moves same (os_insert_part b u n bl sz et);
  list_parts_same : ∀ b u, moves same (os_list_parts b u);
  delete_upload_same : ∀ b u, moves same (os_delete_multipart_upload b u);
  list_uploads_same : ∀ b p m n, moves same (os_list_multipart_uploads b p m n);
  store_block_same : ∀ d n r, moves same (bs_store_block d n r);
  get_block_same : ∀ h, moves same (bs_get_block h);
  add_usage_same : ∀ h r, moves same (bs_add_usage h r);
  remove_reference_same : ∀ h r, moves same (bs_remove_reference h r);
}.

Section service.
Context `{!Blake3, !Md5, !Hex, !UuidCodec, !ChunkingStrategy} {W : Type}.
Context `{!ObjectStore W, !Handlers.BlockStore W}.
Context (error_text : error → string) (guard_of : W → DiskGuard).
Context (db_get_user : option (string → io W fault (option (string * Policy)))).

(** ** A listing's scan ends *)

(** A round that goes on has added a key to those gathered. *)
Lemma gather_ends rounds bucket prefix : ∀ cursor acc w, (SCAN_CAP ≤ length acc + rounds)%nat → (0 < rounds)%nat →
  (Handlers.gather error_text rounds bucket prefix cursor acc w).1 ≠ Err Endless.
Proof.
  induction rounds as [|n IH]; intros cursor acc w Hn Hpos; [lia|]. simpl. unfold bind, internal, call, map_err.
  destruct (os_list_objects _ _ _ _ w) as [[[pg more]|[e|]] w']; [|done|done].
  destruct (last pg) as [o|] eqn:Hl; [|done]. simpl.
  destruct (more && _) eqn:Hc; [|done]. apply andb_true_iff in Hc as [_ Hc%bool_decide_eq_true].
  assert (0 < length pg)%nat by (destruct pg; [done|simpl; lia]).
  rewrite length_app in *. apply IH; [rewrite length_app|]; lia.
Qed.

(** C32: Over any object store, however it answers, a listing ends: with a page, with an error of
    the store or by a panic of it. *)
Theorem list_page_ends bucket after prefix delim n w :
  (Handlers.list_page error_text bucket after prefix delim n w).1 ≠ Err Endless.
Proof.
  unfold Handlers.list_page. destruct delim as [d|].
  - pose proof (gather_ends SCAN_ROUNDS bucket prefix after [] w) as Hg. unfold bind.
    destruct (Handlers.gather _ _ _ _ _ _ w) as [[l|e] w']; [by destruct (group_by_delimiter _ _ _)|].
    intros [= ->]. apply Hg; [unfold SCAN_ROUNDS; simpl; lia..|done].
  - unfold bind, internal, call, map_err. by destruct (os_list_objects _ _ _ _ w) as [[[pg more]|[e|]] w'].
Qed.

(** ** Requests that change no other object *)

Context `{!LawfulService W}.
Context (users_same : ∀ get_user a, db_get_user = Some get_user → moves same (get_user a)).

#[local] Instance same_preorder : PreOrder same.
Proof. split; [done|]. intros w1 w2 w3 H12 H23 b k. by rewrite H23. Qed.
#[local] Instance same_but_preorder b k : PreOrder (same_but b k).
Proof. split; [done|]. intros w1 w2 w3 H12 H23 b' k' Hne. by rewrite H23, H12. Qed.

Lemma same_same_but {E A} b k (m : io W E A) : moves same m → moves (same_but b k) m.
Proof. intros Hm w b' k' _. apply Hm. Qed.

#[local] Hint Resolve get_object_same block_sizes_same list_buckets_same list_objects_same create_upload_same
  get_upload_same insert_part_same list_parts_same delete_upload_same list_uploads_same store_block_same
  get_block_same add_usage_same remove_reference_same : moves.

Lemma moves_call {A} R code p (m : io W fault A) : moves R m → moves R (call error_text code p m).
Proof. apply moves_map_err. Qed.
Lemma moves_quietly {A} R (m : io W fault A) : moves R m → moves R (quietly m).
Proof. intros Hm w. specialize (Hm w). unfold quietly. by destruct (m w) as [[a|[e|]] w']. Qed.
Lemma moves_if_ok {A} R (m : io W fault A) : moves R m → moves R (if_ok m).
Proof. intros Hm w. specialize (Hm w). unfold if_ok. by destruct (m w) as [[a|[e|]] w']. Qed.
Lemma moves_or_message {A} code msg (o : option A) : moves same (or_message code msg o).
Proof. by destruct o. Qed.

Lemma keeps_objects_authorize creds action bucket key : moves same (Handlers.authorize db_get_user creds action bucket key).
Proof.
  unfold Handlers.authorize. destruct db_get_user as [gu|] eqn:Hu; [|done]. destruct creds as [a|]; [|done].
  intros w. specialize (users_same gu a eq_refl w). by destruct (gu a w) as [[[[secret policy]|]|[e|]] w'].
Qed.
Lemma keeps_objects_check_writable : moves same (Handlers.check_writable guard_of).
Proof. apply moves_still; [apply _|]. intros w. unfold Handlers.check_writable. by destruct (check _). Qed.

Lemma keeps_objects_store_one r u d : moves same (Handlers.store_one error_text r u d).
Proof. unfold Handlers.store_one. cbv zeta. apply moves_bind; [apply _|apply moves_call; eauto with moves|]. moves_auto. Qed.
Lemma keeps_objects_store_all r cs : ∀ u, moves same (Handlers.store_all error_text r u cs).
Proof.
  induction cs as [|c cs IH]; intros u; [apply moves_ret, _|].
  apply moves_bind; [apply _|apply keeps_objects_store_one|]. intros. apply IH.
Qed.
Lemma keeps_objects_on_chunk r u c : moves same (Handlers.on_chunk error_text r u c).
Proof. unfold Handlers.on_chunk. destruct (process _) as [[cs rest]|[]]; [apply keeps_objects_store_all|apply moves_fail, _..]. Qed.
Lemma keeps_objects_read_body r body : ∀ u, moves same (Handlers.read_body error_text r u body).
Proof.
  induction body as [|[c|] body IH]; intros u; [apply moves_ret, _| |apply moves_fail, _].
  apply moves_bind; [apply _|apply keeps_objects_on_chunk|]. intros. apply IH.
Qed.
Lemma keeps_objects_finish_upload r u : moves same (Handlers.finish_upload error_text r u).
Proof. unfold Handlers.finish_upload. destruct (finalize _) as [[d|] rest]; [apply keeps_objects_store_one|apply moves_ret, _]. Qed.
Lemma moves_release bucket key : moves same (Handlers.release_blocks bucket key).
Proof.
  unfold Handlers.release_blocks. apply moves_bind; [apply _|apply moves_if_ok; eauto with moves|].
  intros [[[[bl sz] et]|]|]; [|apply moves_ret, _..].
  apply moves_for_each; [apply _|]. intros. apply moves_quietly. eauto with moves.
Qed.
Lemma moves_gather rounds bucket prefix : ∀ cursor acc, moves same (Handlers.gather error_text rounds bucket prefix cursor acc).
Proof.
  induction rounds as [|n IH]; intros; [apply moves_fail, _|]. simpl.
  apply moves_bind; [apply _|apply moves_call; eauto with moves|]. intros [pg more]. moves_auto.
Qed.
Lemma keeps_objects_copy_slices r bl sl : ∀ u, moves same (Handlers.copy_slices error_text r u bl sl).
Proof.
  induction sl as [|[[i skip] tk] sl IH]; intros u; [apply moves_ret, _|]. simpl.
  apply moves_bind; [apply _|apply moves_call; eauto with moves|]. intros.
  apply moves_bind; [apply _|apply keeps_objects_on_chunk|]. intros. apply IH.
Qed.
Lemma keeps_objects_assemble ps : ∀ hs n es, moves same (Handlers.assemble (W := W) ps hs n es).
Proof.
  induction ps as [|p ps IH]; intros; [apply moves_ret, _|].
  apply moves_bind; [apply _|apply moves_or_message|]. intros. apply IH.
Qed.
#[local] Hint Resolve moves_call moves_quietly moves_or_message keeps_objects_authorize keeps_objects_check_writable keeps_objects_read_body
  keeps_objects_finish_upload moves_release moves_gather keeps_objects_copy_slices keeps_objects_assemble keeps_objects_on_chunk : moves.

(** A request that is not about writing an object leaves every object as readers see it,
    whatever its outcome and whatever fails. *)
Theorem other_requests_keep_objects creds bucket key range out p m a d mk fresh u n body src r :
  moves same (Handlers.get_object error_text db_get_user creds bucket key range) ∧
  moves same (Handlers.stream_body error_text out) ∧
  moves same (Handlers.head_object error_text db_get_user creds bucket key) ∧
  moves same (Handlers.list_buckets error_text db_get_user creds) ∧
  moves same (Handlers.create_bucket db_get_user creds bucket) ∧
  moves same (Handlers.delete_bucket db_get_user creds bucket) ∧
  moves same (Handlers.head_bucket db_get_user creds bucket) ∧
  moves same (Handlers.list_objects_v2 error_text db_get_user creds bucket p m a d mk) ∧
  moves same (Handlers.list_object_versions error_text db_get_user creds bucket p m d mk) ∧
  moves same (Handlers.list_objects error_text db_get_user creds bucket p m d mk) ∧
  moves same (Handlers.create_multipart_upload error_text db_get_user creds fresh bucket key) ∧
  moves same (Handlers.upload_part error_text db_get_user guard_of creds bucket key u n body) ∧
  moves same (Handlers.upload_part_copy error_text db_get_user guard_of creds bucket key u n src r) ∧
  moves same (Handlers.abort_multipart_upload error_text db_get_user creds bucket key u) ∧
  moves same (Handlers.list_parts error_text db_get_user creds bucket key u m mk) ∧
  moves same (Handlers.list_multipart_uploads error_text db_get_user creds bucket p m mk).
Proof.
  split_and!; unfold Handlers.get_object, Handlers.get_plan, find_object, Handlers.stream_body, Handlers.stream_block,
    Handlers.head_object, Handlers.list_buckets, Handlers.create_bucket, Handlers.delete_bucket, Handlers.head_bucket,
    Handlers.list_objects_v2, Handlers.list_object_versions, Handlers.list_objects, Handlers.list_page,
    Handlers.create_multipart_upload, Handlers.upload_part, Handlers.upload_part_copy,
    Handlers.abort_multipart_upload, Handlers.list_parts, Handlers.list_multipart_uploads,
    Handlers.parse_upload_id, Handlers.upload_key, Handlers.copy_range, source_of, with_message, internal;
    cbv zeta; moves_auto.
Qed.

(** ** Writes *)

(** A computation that has changed no object when it ends in an error, and at most one object in
    any case. *)
Definition all_or_nothing {A} (bucket key : string) (m : io W failure A) : Prop :=
  moves (same_but bucket key) m ∧ ∀ w e, (m w).1 = Err e → same w (m w).2.

Lemma aon_bind {A B} bucket key (m : io W failure A) (k : A → io W failure B) :
  moves same m → (∀ a, all_or_nothing bucket key (k a)) → all_or_nothing bucket key (bind m k).
Proof.
  intros Hm Hk. split.
  - apply moves_bind; [apply _|by apply same_same_but|]. intros a. apply Hk.
  - intros w e. specialize (Hm w). unfold bind. destruct (m w) as [[a|e'] w1]; [|done].
    intros He. etrans; [exact Hm|by eapply Hk].
Qed.
Lemma aon_last {A} bucket key (m : io W fault unit) (a : A) :
  moves (same_but bucket key) m → (∀ w e, (m w).1 = Err e → same w (m w).2) →
  all_or_nothing bucket key (do! internal error_text m; ret a).
Proof.
  intros Hm He. split.
  - apply moves_bind; [apply _|by apply moves_call|]. intros _. apply moves_ret, _.
  - intros w e. specialize (He w). unfold bind, internal, call, map_err, ret.
    destruct (m w) as [[[]|f] w']; [done|]. intros _. by eapply He.
Qed.
Lemma aon_fail {A} bucket key e : all_or_nothing (A := A) bucket key (fail e).
Proof. by split. Qed.

Lemma aon_insert {A} bucket sh key bl sz et (a : A) :
  all_or_nothing bucket key (do! internal error_text (os_insert_object bucket sh key bl sz et); ret a).
Proof. apply aon_last; [apply insert_frame|apply insert_failed]. Qed.
Lemma complete_frame creds bucket key u :
  moves (same_but bucket key) (Handlers.complete_multipart_upload error_text db_get_user creds bucket key u).
Proof.
  unfold Handlers.complete_multipart_upload, Handlers.parse_upload_id, Handlers.upload_key, internal. cbv zeta.
  repeat (apply moves_bind; [apply _|apply same_same_but; solve [moves_auto]|intros ?]).
  unfold with_message. destruct (decide _); [apply moves_fail, _|].
  apply moves_bind; [apply _|apply same_same_but; solve [moves_auto]|intros ps].
  apply moves_bind; [apply _|apply same_same_but; solve [moves_auto]|intros [[hs total] es]].
  repeat (apply moves_bind; [apply _|apply same_same_but; solve [moves_auto]|intros ?]).
  apply moves_bind; [apply _|apply moves_call, insert_frame|intros ?]. apply same_same_but. moves_auto.
Qed.

(** C36: A put, a copy or a delete that ends in an error, at whatever call the error was, has left
    every object as readers see it; whatever the outcome, a request writes no object but the
    one it names. *)
Theorem writes_all_or_nothing creds bucket key body src :
  all_or_nothing bucket key (Handlers.put_object error_text db_get_user guard_of creds bucket key body) ∧
  all_or_nothing bucket key (Handlers.copy_object error_text db_get_user creds bucket key src) ∧
  all_or_nothing bucket key (Handlers.delete_object error_text db_get_user creds bucket key) ∧
  ∀ u, moves (same_but bucket key) (Handlers.complete_multipart_upload error_text db_get_user creds bucket key u).
Proof.
  split_and!.
  - unfold Handlers.put_object. cbv zeta. repeat (apply aon_bind; [solve [moves_auto]|intros ?]). apply aon_insert.
  - unfold Handlers.copy_object, find_object, source_of. cbv zeta.
    do 2 (apply aon_bind; [unfold with_message; solve [moves_auto]|intros ?]). destruct a0 as [sb sk].
    apply aon_bind; [unfold internal; solve [moves_auto]|intros [[bl size] etag]].
    do 2 (apply aon_bind; [solve [moves_auto]|intros ?]). apply aon_insert.
  - unfold Handlers.delete_object. do 2 (apply aon_bind; [solve [moves_auto]|intros ?]).
    split; [apply moves_call, delete_frame|]. intros w e. unfold internal, call, map_err.
    pose proof (delete_failed bucket key w) as Hd.
    destruct (os_delete_object bucket key w) as [[[]|f] w']; [done|]. intros _. by eapply Hd.
  - intros u. apply complete_frame.
Qed.

Lemma delete_one_effect bucket key w r w' : delete_one error_text bucket key w = (Ok r, w') →
  same_but bucket key w w' ∧ (r = inl key ∨ ∃ msg, r = inr (key, msg) ∧ same w w').
Proof.
  unfold delete_one. intros ([] & w1 & Hr & Hd)%bind_inv.
  assert (same w w1) as Hs by (pose proof (moves_release bucket key w) as Hs; by rewrite Hr in Hs).
  pose proof (delete_frame bucket key w1) as Hf. pose proof (delete_failed bucket key w1) as He.
  destruct (os_delete_object bucket key w1) as [[[]|[e|]] w2]; simplify_eq; simpl in *.
  - split; [|by left]. intros b k Hne. by rewrite Hf, Hs.
  - assert (same w w') as Hs' by (etrans; [exact Hs|by eapply He]). split; [intros b k _; apply Hs'|eauto].
Qed.

Lemma delete_each_effect bucket keys : ∀ w rs w', map_each (delete_one error_text bucket) keys w = (Ok rs, w') →
  deleted_keys rs ++ (error_keys rs).*1 ≡ₚ keys ∧
  (∀ b k, b ≠ bucket ∨ k ∉ keys → visible w' b k = visible w b k) ∧
  (NoDup keys → ∀ k msg, (k, msg) ∈ error_keys rs → visible w' bucket k = visible w bucket k).
Proof.
  induction keys as [|x keys IH]; intros w rs w'; simpl.
  { intros [= <- <-]. split_and!; [done|done|]. intros _ k msg Hk. by apply elem_of_nil in Hk. }
  intros (r & w1 & Hr & (rs' & w2 & Hrs & [= <- <-])%bind_inv)%bind_inv.
  destruct (IH _ _ _ Hrs) as (Hp & Hf & He). destruct (delete_one_effect _ _ _ _ _ Hr) as [Hb Hx].
  assert (∀ b k, b ≠ bucket ∨ k ∉ x :: keys → visible w2 b k = visible w b k) as Hframe.
  { intros b k Hn. rewrite Hf, Hb; [done| |]; set_solver. }
  destruct Hx as [->|(msg & -> & Hs)]; unfold deleted_keys, error_keys in *; simpl in *; (split_and!; [|done|]).
  - by rewrite Hp.
  - intros [Hni Hnd]%NoDup_cons k msg Hk. rewrite (He Hnd k msg Hk). apply Hb. intros [= ->]. apply Hni.
    rewrite <- Hp. apply elem_of_app. right. apply list_elem_of_fmap. by exists (x, msg).
  - by rewrite <- Permutation_middle, Hp.
  - intros [Hni Hnd]%NoDup_cons k m [[= -> ->]|Hk]%elem_of_cons; [rewrite Hf by auto; apply Hs|].
    by rewrite (He Hnd k m Hk), Hs.
Qed.

(** C37: A multi-object delete reports every requested key exactly once, as deleted or with an
    error; a key reported with an error keeps its object, and so does every key not
    requested. *)
Theorem delete_objects_reports creds bucket keys w deleted errors w' :
  NoDup keys →
  Handlers.delete_objects error_text db_get_user creds bucket keys w = (Ok (deleted, errors), w') →
  deleted ++ errors.*1 ≡ₚ keys ∧
  (∀ k msg, (k, msg) ∈ errors → visible w' bucket k = visible w bucket k) ∧
  (∀ b k, b ≠ bucket ∨ k ∉ keys → visible w' b k = visible w b k).
Proof.
  intros Hnd. unfold Handlers.delete_objects.
  intros ([] & w1 & Ha & (rs & w2 & Hrs & [= <- <- <-])%bind_inv)%bind_inv.
  assert (same w w1) as Hs.
  { pose proof (keeps_objects_authorize creds "s3:DeleteObject" (Some bucket) None w) as Hs. by rewrite Ha in Hs. }
  destruct (delete_each_effect _ _ _ _ _ Hrs) as (Hp & Hf & He). split_and!; [done| |].
  - intros k msg Hk. by rewrite (He Hnd k msg Hk), Hs.
  - intros b k Hn. by rewrite Hf, Hs.
Qed.

(** ** Acknowledged uploads *)

Lemma wrap_i64_add a b : wrap_i64 (wrap_i64 a + b) = wrap_i64 (a + b).
Proof.
  unfold wrap_i64. f_equal.
  replace (a + b + 2 ^ 63) with ((a + 2 ^ 63) + b) by lia.
  replace ((a + 2 ^ 63) mod 2 ^ 64 - 2 ^ 63 + b + 2 ^ 63) with ((a + 2 ^ 63) mod 2 ^ 64 + b) by lia.
  apply Zplus_mod_idemp_l.
Qed.

(** A run of the block store: each chunk is stored, in order, by a call that succeeds and starts
    in the world the call before it left; the calls return these hashes. *)
Inductive takes (ref_id : string) : W → list bytes → list bytes → W → Prop :=
  | takes_nil w : takes ref_id w [] [] w
  | takes_cons w c h w1 cs hs w2 :
      bs_store_block c (blen c) ref_id w = (Ok h, w1) → takes ref_id w1 cs hs w2 →
      takes ref_id w (c :: cs) (h :: hs) w2.

Lemma takes_snoc r w cs hs w1 c h w2 :
  takes r w cs hs w1 → bs_store_block c (blen c) r w1 = (Ok h, w2) → takes r w (cs ++ [c]) (hs ++ [h]) w2.
Proof.
  induction 1 as [w|w c' h' w1 cs hs w3 Hs _ IH]; intros Hc; simpl.
  - by repeat econstructor.
  - econstructor; [exact Hs|auto].
Qed.

(** An upload that began in [w0] and has read [data] when it is in [w]: the chunks taken since
    and the buffer make it up. *)
Definition read_so_far (ref_id : string) (w0 w : W) (u : Upload) (data : bytes) : Prop :=
  ∃ cs, takes ref_id w0 cs (block_hashes u) w ∧ data = concat cs ++ current_chunk u ∧ digested u = data ∧
    total_size u = wrap_i64 (blen (concat cs)).

Lemma store_one_takes r w0 u d w u' w' cs : Handlers.store_one error_text r u d w = (Ok u', w') →
  takes r w0 cs (block_hashes u) w → total_size u = wrap_i64 (blen (concat cs)) →
  takes r w0 (cs ++ [d]) (block_hashes u') w' ∧ total_size u' = wrap_i64 (blen (concat (cs ++ [d]))) ∧
  current_chunk u' = current_chunk u ∧ digested u' = digested u.
Proof.
  unfold Handlers.store_one, internal, call. cbv zeta. intros (h & w1 & Hs & [= <- <-])%bind_inv Ht Hn. simpl.
  unfold map_err in Hs. destruct (bs_store_block d (blen d) r w) as [[h'|[e|]] w2] eqn:Hb; simplify_eq.
  split_and!; [by eapply takes_snoc|by rewrite Hn, wrap_i64_add, concat_snoc, blen_app|done|done].
Qed.

Lemma store_all_takes r w0 ds : ∀ u w u' w' cs, Handlers.store_all error_text r u ds w = (Ok u', w') →
  takes r w0 cs (block_hashes u) w → total_size u = wrap_i64 (blen (concat cs)) →
  takes r w0 (cs ++ ds) (block_hashes u') w' ∧ total_size u' = wrap_i64 (blen (concat (cs ++ ds))) ∧
  current_chunk u' = current_chunk u ∧ digested u' = digested u.
Proof.
  induction ds as [|d ds IH]; intros u w u' w' cs; simpl.
  { intros [= <- <-]. by rewrite app_nil_r. }
  intros (u1 & w1 & Hs1 & Hs2)%bind_inv Ht Hn.
  destruct (store_one_takes _ _ _ _ _ _ _ _ Hs1 Ht Hn) as (Ht1 & Hn1 & <- & <-).
  rewrite cons_middle, app_assoc. by eapply IH.
Qed.

Context `{!LawfulChunking}.

Lemma on_chunk_reads r w0 u c w u' w' data : Handlers.on_chunk error_text r u c w = (Ok u', w') →
  read_so_far r w0 w u data → read_so_far r w0 w' u' (data ++ c).
Proof.
  unfold Handlers.on_chunk. destruct (process _) as [[ds rest]|[]] eqn:Hp; [|done..].
  intros Hs (cs & Ht & -> & Hd & Hn). apply process_concat in Hp.
  destruct (store_all_takes _ w0 _ _ _ _ _ cs Hs Ht Hn) as (Ht' & Hn' & Hc & Hd'). simpl in *.
  exists (cs ++ ds). split_and!; [done| |by rewrite Hd', Hd|done].
  by rewrite Hc, concat_app, <- !app_assoc, Hp.
Qed.

Lemma read_body_reads r w0 body : ∀ u w u' w' data, Handlers.read_body error_text r u body w = (Ok u', w') →
  read_so_far r w0 w u data → ∃ frames, body = Ok <$> frames ∧ read_so_far r w0 w' u' (data ++ concat frames).
Proof.
  induction body as [|[c|e] body IH]; intros u w u' w' data; simpl; [|intros (u1 & w1 & Hs1 & Hs2)%bind_inv|done].
  { intros [= <- <-] Hr. exists []. by rewrite app_nil_r. }
  intros Hr. destruct (IH _ _ _ _ _ Hs2 (on_chunk_reads _ _ _ _ _ _ _ _ Hs1 Hr)) as (frames & -> & Hf).
  exists (c :: frames). simpl. by rewrite app_assoc.
Qed.

Lemma finish_reads r w0 u w u' w' data : Handlers.finish_upload error_text r u w = (Ok u', w') →
  read_so_far r w0 w u data →
  ∃ cs, takes r w0 cs (block_hashes u') w' ∧ concat cs = data ∧ digested u' = data ∧ total_size u' = wrap_i64 (blen data).
Proof.
  unfold Handlers.finish_upload. rewrite finalize_flush. intros Hs (cs & Ht & -> & Hd & Hn).
  destruct (decide (current_chunk u = [])) as [Hc|Hc].
  - injection Hs as <- <-. rewrite Hc, app_nil_r in *. by exists cs.
  - destruct (store_one_takes _ w0 _ _ _ _ _ cs Hs Ht Hn) as (Ht' & Hn' & _ & Hd'). simpl in *.
    exists (cs ++ [current_chunk u]). rewrite concat_snoc in *. by rewrite Hd', Hd.
Qed.

Lemma check_writable_inv w w' : Handlers.check_writable guard_of w = (Ok tt, w') → w' = w ∧ check (guard_of w) = None.
Proof. unfold Handlers.check_writable. destruct (check (guard_of w)); [done|]. by intros [= <-]. Qed.

(** C3: A put is acknowledged only after, in this order and each step in the world the step before
    it left, the request was authorized with the guard open, the whole body was read without an
    error and the block store took every chunk of it in order, the references of the old object
    were released, and the object store accepted a row with the chunks' hashes, the length of the
    body and the MD5 digest of the body, which is the etag of the answer; the row is the last
    thing written. *)
Theorem put_acknowledged creds bucket key body w tag w' :
  Handlers.put_object error_text db_get_user guard_of creds bucket key body w = (Ok tag, w') →
  ∃ frames cs hashes w0 w1 w2, body = Some (Ok <$> frames) ∧ concat cs = concat frames ∧
    Handlers.authorize db_get_user creds "s3:PutObject" (Some bucket) (Some key) w = (Ok tt, w0) ∧
    check (guard_of w0) = None ∧
    takes (obj_ref bucket key) w0 cs hashes w1 ∧
    Handlers.release_blocks bucket key w1 = (Ok tt, w2) ∧
    os_insert_object bucket (compute_shard_id key) key hashes (wrap_i64 (blen (concat frames)))
      (hex_encode (md5 (concat frames))) w2 = (Ok tt, w') ∧
    tag = quoted (hex_encode (md5 (concat frames))).
Proof.
  unfold Handlers.put_object. cbv zeta.
  intros ([] & w1 & Ha & ([] & w2 & Hg & (bd & w3 & Hb & (u & w4 & Hr & (u' & w5 & Hf & ([] & w6 & Hrel &
    ([] & w7 & Hi & [= <- <-])%bind_inv)%bind_inv)%bind_inv)%bind_inv)%bind_inv)%bind_inv)%bind_inv.
  apply check_writable_inv in Hg as [-> Hg]. destruct body as [body|]; [|done]. injection Hb as -> ->.
  assert (read_so_far (obj_ref bucket key) w3 w3 start_upload []) as H0' by (exists []; by repeat constructor).
  destruct (read_body_reads _ _ _ _ _ _ _ _ Hr H0') as (frames & -> & Hr'). simpl in Hr'.
  destruct (finish_reads _ _ _ _ _ _ _ Hf Hr') as (cs & Ht & Hc & Hd & Hn).
  unfold upload_etag in *. rewrite Hd, Hn in *. exists frames, cs, (block_hashes u'), w3, w5, w6.
  split_and!; try done.
  unfold internal, call, map_err in Hi. by destruct (os_insert_object _ _ _ _ _ _ w6) as [[[]|[e|]] w8]; simplify_eq.
Qed.
End service.

(** ** The node's own stores *)

Section node_stores.
Context `{!Blake3, !Md5, !Hex, !UuidCodec, !Json, !IterOrder, !BlobStore}.
Context (noise_fetch_block : string → bytes → result error bytes) (t : SystemTime).

Definition same_objects (n n' : BlockStore.Node) : Prop := objects (db n') = objects (db n).
#[local] Instance same_objects_preorder : PreOrder same_objects.
Proof. split; [done|]. intros n1 n2 n3. unfold same_objects. congruence. Qed.

Lemma objects_read {A} (f : Store → A) : moves same_objects (read_db f).
Proof. done. Qed.
Lemma objects_write f : (∀ s, objects (f s) = objects s) → moves same_objects (write_db f).
Proof. intros Hf n. apply Hf. Qed.
Lemma objects_blob {A} (m : io Blob error A) : moves same_objects (on_blob m).
Proof. intros n. unfold on_blob. by destruct (m (blob n)). Qed.
#[local] Hint Resolve objects_read objects_blob : moves.
#[local] Hint Extern 1 (moves same_objects (write_db _)) => by apply objects_write : moves.

Lemma objects_promote h d : moves same_objects (promote_block_locally t h d).
Proof. unfold promote_block_locally. cbv zeta. moves_auto. Qed.
Lemma objects_store_block d n : moves same_objects (store_block t d n).
Proof. unfold store_block. cbv zeta. moves_auto. Qed.
Lemma objects_get_block h : moves same_objects (get_block noise_fetch_block t h).
Proof.
  unfold get_block. apply moves_bind; [apply _|apply objects_read|]. intros [fid|]; [apply objects_blob|].
  apply moves_bind; [apply _|apply objects_read|]. intros [locs|]; [|apply moves_fail, _].
  apply moves_bind; [apply _|apply objects_read|]. intros peers.
  induction (iter_order (map_to_list peers)) as [|[id url] ps IH]; simpl; [apply moves_fail, _|].
  destruct (decide _); [|exact IH]. destruct (noise_fetch_block url h); [|exact IH].
  apply moves_bind; [apply _|apply moves_attempt, objects_promote|]. moves_auto.
Qed.

Definition node_view (b : Backend) (bucket key : string) : option (list bytes * Z * string) :=
  Store.get_object (db (node b)) bucket key.

Lemma view_dist {A} (m : io BlockStore.Node error A) : moves same_objects m →
  ∀ b, objects (db (node (dist m b).2)) = objects (db (node b)).
Proof.
  intros Hm b. specialize (Hm (node b)). unfold dist, map_err, on_node.
  by destruct (m (node b)) as [[a|e] n'].
Qed.

#[export] Instance backend_lawful :
  @LawfulService _ Backend (db_objects t) (dist_blocks noise_fetch_block t).
Proof.
  refine {| visible := node_view |}; unfold moves, node_view, Store.get_object; simpl; try done.
  - intros b sh k bl sz et w b' k' Hne. by rewrite lww_upsert_lookup_ne by congruence.
  - intros b k w b' k' Hne. by rewrite lww_upsert_lookup_ne by congruence.
  - intros d n _ w b k. by rewrite view_dist by apply objects_store_block.
  - intros h w b k. by rewrite view_dist by apply objects_get_block.
Defined.
End node_stores.

(** ** Stores whose calls fail *)

(** A world with the outcome of the calls to come: [Some e] fails with [e] and does nothing,
    [None] runs the call; calls past the list run. *)
Definition Flaky (W : Type) : Type := W * list (option error).

Section flaky.
Context `{!UuidCodec} {W : Type} `{!ObjectStore W, !Handlers.BlockStore W}.

Definition flaky {A} (m : io W fault A) : io (Flaky W) fault A := λ '(w, outcomes),
  match outcomes with
  | Some e :: rest => (Err (Failed e), (w, rest))
  | _ => let '(r, w') := m w in (r, (w', tail outcomes))
  end.

#[export] Instance flaky_objects : ObjectStore (Flaky W) := {|
  os_insert_object b sh k bl sz et := flaky (os_insert_object b sh k bl sz et);
  os_get_object b k := flaky (os_get_object b k);
  os_block_sizes hs := flaky (os_block_sizes hs);
  os_list_buckets := flaky os_list_buckets;
  os_list_objects b a p n := flaky (os_list_objects b a p n);
  os_delete_object b k := flaky (os_delete_object b k);
  os_create_multipart_upload b k u := flaky (os_create_multipart_upload b k u);
  os_get_multipart_upload_key b u := flaky (os_get_multipart_upload_key b u);
  os_insert_part b u n bl sz et := flaky (os_insert_part b u n bl sz et);
  os_list_parts b u := flaky (os_list_parts b u);
  os_delete_multipart_upload b u := flaky (os_delete_multipart_upload b u);
  os_list_multipart_uploads b p m n := flaky (os_list_multipart_uploads b p m n);
|}.
#[export] Instance flaky_blocks : Handlers.BlockStore (Flaky W) := {|
  bs_store_block d n r := flaky (bs_store_block d n r);
  bs_get_block h := flaky (bs_get_block h);
  bs_add_usage h r := flaky (bs_add_usage h r);
  bs_remove_reference h r := flaky (bs_remove_reference h r);
  bs_promote_local h d := flaky (bs_promote_local h d);
  bs_fetch_from_peer url h := flaky (bs_fetch_from_peer url h);
  bs_delete_block h fid := flaky (bs_delete_block h fid);
|}.

Lemma flaky_cases {A} (m : io W fault A) w outcomes :
  (∃ e rest, flaky m (w, outcomes) = (Err (Failed e), (w, rest))) ∨
  (∃ rest, flaky m (w, outcomes) = ((m w).1, ((m w).2, rest))).
Proof. destruct outcomes as [|[e|] rest]; simpl; eauto; right; destruct (m w); eauto. Qed.

Context `{!LawfulService W}.

Lemma flaky_moves {A} (R : relation W) (m : io W fault A) : PreOrder R → moves R m →
  moves (λ w w', R w.1 w'.1) (flaky m).
Proof.
  intros HR Hm [w o]. destruct (flaky_cases m w o) as [(e & rest & ->)|(rest & ->)]; simpl; [reflexivity|apply Hm].
Qed.
Lemma flaky_failed {A} (m : io W fault A) : (∀ w e, (m w).1 = Err e → same w (m w).2) →
  ∀ w e, (flaky m w).1 = Err e → same w.1 (flaky m w).2.1.
Proof.
  intros Hm [w o] e. destruct (flaky_cases m w o) as [(e' & rest & ->)|(rest & ->)]; simpl; [by intros _ b k|apply Hm].
Qed.

#[export] Instance flaky_lawful : LawfulService (Flaky W).
Proof.
  refine {| visible w := visible w.1 |}; simpl; intros;
    first [by eapply flaky_failed; eauto using insert_failed, delete_failed
      |apply (flaky_moves same)|apply (flaky_moves (same_but b k))];
    eauto using same_preorder, same_but_preorder, insert_frame, delete_frame, get_object_same, block_sizes_same,
      list_buckets_same, list_objects_same, create_upload_same, get_upload_same, insert_part_same, list_parts_same,
      delete_upload_same, list_uploads_same, store_block_same, get_block_same, add_usage_same, remove_reference_same.
Defined.
End flaky.

(** ** Concrete runs *)

Module ServiceRuns.
Import S3Runs.
#[local] Existing Instances Reference.blake3_pad Reference.md5_rev Reference.hex_lower Reference.uuid_text.
#[local] Existing Instances JsonReference.json_tokens order_id LocalBlob.local_blob LocalBlob.local_lawful.
#[local] Existing Instances chunker4 chunker4_lawful.

Definition text (e : error) : string :=
  match e with StoreError => "disk I/O error" | _ => "error" end.
#[local] Instance run_objects : ObjectStore Backend := db_objects 5000000.
#[local] Instance run_blocks : Handlers.BlockStore Backend := dist_blocks offline 5000000.
#[local] Instance run_lawful : LawfulService Backend := backend_lawful offline 5000000.

Definition user_of : option (string → io (Flaky Backend) fault (option (string * Policy))) :=
  Some (λ a, flaky (db_try (λ s, get_user s a))).
Lemma user_of_same get_user a : user_of = Some get_user → moves same (get_user a).
Proof. intros [= <-]. exact (flaky_moves (W := Backend) same (db_try (λ s, get_user s a)) same_preorder (λ w b k, eq_refl)). Qed.
Definition guard_in (w : Flaky Backend) : DiskGuard := disk_guard w.1.
Definition hello : option (list (result string bytes)) := Some [Ok (as_bytes "hello "); Ok (as_bytes "world")].
Definition run_put := Handlers.put_object text user_of guard_in root "bk" "k" hello.
Definition run_deletes := Handlers.delete_objects text user_of root "bk" ["k1"; "k2"].

(** The fifth call after the user's, the insertion of the row, fails. *)
Definition failing : Flaky Backend := (fresh_backend, [None; None; None; None; None; Some StoreError]).

Lemma writes_all_or_nothing_witness :
  (run_put failing).1 = Err (S3Error InternalError (Some "disk I/O error")) ∧ same failing (run_put failing).2.
Proof.
  assert ((run_put failing).1 = Err (S3Error InternalError (Some "disk I/O error"))) as He
    by (vm_compute; reflexivity).
  split; [exact He|].
  exact (proj2 (proj1 (writes_all_or_nothing text guard_in user_of user_of_same root "bk" "k" hello FromAccessPoint))
           failing _ He).
Defined.

Lemma other_requests_keep_objects_witness :
  same failing (Handlers.upload_part text user_of guard_in root "bk" "k" "u1" 1 hello failing).2.
Proof.
  destruct (other_requests_keep_objects text guard_in user_of user_of_same root "bk" "k" None
    (mkGet 0 None "" None []) None None None None None uid1 "u1" 1 hello FromAccessPoint None)
    as (_ & _ & _ & _ & _ & _ & _ & _ & _ & _ & _ & Hp & _). exact (Hp failing).
Defined.

Lemma put_acknowledged_witness :
  ∃ frames cs hashes w0 w1 w2, hello = Some (Ok <$> frames) ∧ concat cs = concat frames ∧
    takes (W := Flaky Backend) (obj_ref "bk" "k") w0 cs hashes w1 ∧
    Handlers.release_blocks "bk" "k" w1 = (Ok tt, w2) ∧
    os_insert_object "bk" (compute_shard_id "k") "k" hashes (wrap_i64 (blen (concat frames)))
      (hex_encode (md5 (concat frames))) w2 = (Ok tt, (run_put (fresh_backend, [])).2).
Proof.
  destruct (put_acknowledged text guard_in user_of root "bk" "k" hello (fresh_backend, [])
    (quoted (hex_encode (md5 (as_bytes "hello world")))) (run_put (fresh_backend, [])).2)
    as (frames & cs & hashes & w0 & w1 & w2 & Hb & Hc & _ & _ & Ht & Hr & Hi & _);
    [|by exists frames, cs, hashes, w0, w1, w2].
  unfold run_put. rewrite (surjective_pairing (Handlers.put_object _ _ _ _ _ _ _ _)) at 1.
  f_equal.
Defined.

(** The deletion of the second key fails. *)
Definition delete_failing : Flaky Backend := (fresh_backend, [None; None; None; None; Some StoreError]).

Lemma delete_objects_reports_witness :
  (run_deletes delete_failing).1 = Ok (["k1"], [("k2", "disk I/O error")]) ∧
  visible (run_deletes delete_failing).2 "bk" "k2" = visible delete_failing "bk" "k2".
Proof.
  assert ((run_deletes delete_failing).1 = Ok (["k1"], [("k2", "disk I/O error")])) as He
    by (vm_compute; reflexivity).
  split; [exact He|].
  destruct (delete_objects_reports text guard_in user_of user_of_same root "bk" ["k1"; "k2"] delete_failing
    ["k1"] [("k2", "disk I/O error")] (run_deletes delete_failing).2) as (_ & Hk & _).
  - repeat constructor; set_solver.
  - unfold run_deletes in *. rewrite <- He. apply surjective_pairing.
  - apply (Hk "k2" "disk I/O error"). left.
Defined.
End ServiceRuns.
