(* ===== verification/Tests.v ===== *)
(** * The repository's unit tests, run on the model

    Each definition is a test function of the source under its own name: the same calls and the
    same assertions, on the definitions of the components.  That they hold is evidence that the
    definitions mean what the code means.  What a test draws or measures (clock readings, keys)
    is an argument, and crates are the classes of [Crates], so most tests hold for every
    implementation of them; the tests of the store run on its reference codecs.  Left out are
    tests of crates alone (the spread of BLAKE3 over shards, malformed JSON, random draws).  The
    tests of the encrypted transport are in [NoiseTests], those of storage.rs in
    [StorageTests]. *)

From stdpp Require Import pretty.
From S2P Require Import Prelude Crates Clock Hashing Chunking Range Listing Policy Disk Tables Store.
From S2P Require Import Objects BlockStore GC Replication Noise Sizes Config Startup Manifests.

(** [assert_eq!] and a test's assertions together. *)
Notation "a '==' b" := (bool_decide (a = b)) (at level 70) : shard_scope.
Notation "a '!=' b" := (negb (bool_decide (a = b))) (at level 70) : shard_scope.
Definition asserts (l : list bool) : bool := forallb id l.
Lemma asserts_all l : Forall (λ b, b = true) l → asserts l = true.
Proof. intros Hl. apply forallb_forall. intros b Hb. rewrite Forall_forall in Hl. apply Hl. by apply list_elem_of_In. Qed.
Definition is_none {A} (o : option A) : bool := match o with None => true | Some _ => false end.
Definition is_some {A} (o : option A) : bool := negb (is_none o).
Definition is_err {E A} (r : result E A) : bool := match r with Err _ => true | Ok _ => false end.

(** ** src/chunking.rs *)

Module ChunkingTests.
Definition fixed (chunk_size : nat) : ChunkingStrategy := fixed_strategy {| chunk_size := chunk_size |}.
Definition run (c : ChunkingStrategy) (buf : bytes) : list bytes * bytes :=
  match @process c buf with Ok r => r | Err _ => ([], []) end.
Definition tail (c : ChunkingStrategy) (buf : bytes) : option bytes := (@finalize c buf).1.

Definition fixed_exact_multiple_produces_correct_chunks : bool :=
  let '(chunks, buf) := run (fixed 4) (as_bytes "abcdefgh") in
  asserts [chunks == [as_bytes "abcd"; as_bytes "efgh"]; buf == []; tail (fixed 4) buf == None].

Definition fixed_remainder_held_in_buffer : bool :=
  let '(chunks, buf) := run (fixed 4) (as_bytes "abcde") in
  asserts [chunks == [as_bytes "abcd"]; buf == as_bytes "e"].

Definition fixed_finalize_flushes_remainder : bool :=
  let '(chunks, buf) := run (fixed 4) (as_bytes "abc") in
  asserts [chunks == []; @finalize (fixed 4) buf == (Some (as_bytes "abc"), [])].

Definition fixed_empty_input_produces_nothing : bool :=
  let '(chunks, buf) := run (fixed 4) [] in asserts [chunks == []; tail (fixed 4) buf == None].

Definition fixed_single_byte_chunk_size : bool :=
  (run (fixed 1) (as_bytes "xyz")).1 == [as_bytes "x"; as_bytes "y"; as_bytes "z"].

Definition fixed_chunk_larger_than_input_yields_nothing_from_process : bool :=
  let '(chunks, buf) := run (fixed 1000) (as_bytes "small") in
  asserts [chunks == []; buf == as_bytes "small"; tail (fixed 1000) buf == Some (as_bytes "small")].

(** The chunks with the flushed rest, as the tests collect them. *)
Definition collect (c : ChunkingStrategy) (data : bytes) : list bytes :=
  let '(chunks, buf) := run c data in
  chunks ++ match tail c buf with Some t => [t] | None => [] end.

Definition fixed_process_then_finalize_concatenates_to_original : bool :=
  concat (collect (fixed 3) (as_bytes "abcdefghij")) == as_bytes "abcdefghij".

Fixpoint feed_bytes (c : ChunkingStrategy) (buf data : bytes) : list bytes :=
  match data with
  | [] => match tail c buf with Some t => [t] | None => [] end
  | b :: data' => let '(chunks, buf) := run c (buf ++ [b]) in chunks ++ feed_bytes c buf data'
  end.
Definition fixed_incremental_feeding_matches_bulk : bool :=
  concat (feed_bytes (fixed 4) [] (as_bytes "abcdefghij")) == as_bytes "abcdefghij".

Example fixed_tests_pass :
  asserts [fixed_exact_multiple_produces_correct_chunks; fixed_remainder_held_in_buffer;
    fixed_finalize_flushes_remainder; fixed_empty_input_produces_nothing; fixed_single_byte_chunk_size;
    fixed_chunk_larger_than_input_yields_nothing_from_process;
    fixed_process_then_finalize_concatenates_to_original; fixed_incremental_feeding_matches_bulk] = true.
Proof. vm_compute. reflexivity. Qed.

Section cdc.
Context `{!FastCdc}.

Definition cdc : DynamicCDCStrategy := {| min_size := 512; avg_size := 1024; max_size := 2048 |}.
Definition byte (n : N) : ascii := ascii_of_N n.
(** [(0u8..=255).cycle().take(n)] *)
Definition cycle (n : nat) : bytes := (λ i, ascii_of_N (N.of_nat i mod 256)) <$> List.seq 0 n.

Definition cdc_empty_input_produces_nothing : bool :=
  let '(chunks, buf) := run (cdc_strategy cdc) [] in asserts [chunks == []; tail (cdc_strategy cdc) buf == None].

Definition cdc_small_input_below_min_not_flushed_by_process : bool :=
  let '(chunks, buf) := run (cdc_strategy cdc) (replicate 100 (byte 0xAB)) in
  asserts [chunks == []; length buf == 100%nat].

Definition cdc_finalize_flushes_sub_min_remainder : bool :=
  let '(_, buf) := run (cdc_strategy cdc) (replicate 100 (byte 0xCD)) in
  (length <$> tail (cdc_strategy cdc) buf) == Some 100%nat.

Definition cdc_large_input_respects_max_size : bool :=
  forallb (λ chunk, length chunk <=? max_size cdc)%nat
    (collect (cdc_strategy cdc) (replicate (10 * 1024) (byte 0x42))).

Definition cdc_large_input_reassembles_to_original : bool :=
  let original := cycle (8 * 1024) in concat (collect (cdc_strategy cdc) original) == original.

Definition cdc_identical_content_produces_identical_chunk_boundaries : bool :=
  let data := cycle (5 * 1024) in
  let c1 := collect (cdc_strategy cdc) data in
  let c2 := collect (cdc_strategy cdc) data in
  asserts [length c1 == length c2; c1 == c2].

Lemma cdc_ok : cdc_wf cdc.
Proof. unfold cdc_wf, fastcdc_accepts. cbn [cdc min_size avg_size max_size]. lia. Qed.

(** The chunks of any input are at most [max_size] long and make it up, whatever the cut points. *)
Lemma collect_spec data :
  concat (collect (cdc_strategy cdc) data) = data ∧
  Forall (λ c, length c ≤ max_size cdc)%nat (collect (cdc_strategy cdc) data).
Proof.
  unfold collect, run, tail. simpl. unfold cdc_process.
  destruct (cdc_loop_total cdc cdc_ok (S (length data)) data) as [[cs rest] Hl]; [lia|]. rewrite Hl. simpl.
  destruct (cdc_loop_concat cdc cdc_ok _ _ _ _ Hl) as (-> & Hcs & Hrest). unfold flush.
  assert (Forall (λ c, length c ≤ max_size cdc)%nat cs) as Hcs'
    by (eapply Forall_impl; [exact Hcs|]; unfold cdc_sized; lia).
  destruct rest as [|x rest]; simpl; rewrite ?app_nil_r; [done|]. split.
  - by rewrite concat_app; simpl; rewrite app_nil_r.
  - apply Forall_app. split; [exact Hcs'|]. apply Forall_singleton. exact Hrest.
Qed.

Lemma small_process b n : (n < 512)%nat → run (cdc_strategy cdc) (replicate n b) = ([], replicate n b).
Proof.
  intros Hn. unfold run. simpl. unfold cdc_process. cbn [cdc_loop]. rewrite decide_True; [done|].
  rewrite length_replicate. exact Hn.
Qed.

Theorem cdc_tests_pass :
  asserts [cdc_empty_input_produces_nothing; cdc_small_input_below_min_not_flushed_by_process;
    cdc_finalize_flushes_sub_min_remainder; cdc_large_input_respects_max_size;
    cdc_large_input_reassembles_to_original; cdc_identical_content_produces_identical_chunk_boundaries] = true.
Proof.
  apply asserts_all. repeat (apply Forall_cons; split); [..|by apply Forall_nil].
  - unfold cdc_empty_input_produces_nothing. change (@nil ascii) with (replicate 0 (byte 0)) at 1. by rewrite small_process by lia.
  - unfold cdc_small_input_below_min_not_flushed_by_process. by rewrite small_process by lia.
  - unfold cdc_finalize_flushes_sub_min_remainder. by rewrite small_process by lia.
  - unfold cdc_large_input_respects_max_size. apply forallb_forall. intros c Hc.
    destruct (collect_spec (replicate (10 * 1024) (byte 0x42))) as [_ Hf].
    apply Nat.leb_le. rewrite Forall_forall in Hf. apply Hf. by apply list_elem_of_In.
  - unfold cdc_large_input_reassembles_to_original. apply bool_decide_eq_true, collect_spec.
  - unfold cdc_identical_content_produces_identical_chunk_boundaries. generalize (cycle (5 * 1024)). intros data.
    cbv zeta. rewrite !bool_decide_true by reflexivity. reflexivity.
Qed.
End cdc.
End ChunkingTests.

(** ** src/hashing.rs *)

Module HashingTests.
Section hashing.
Context `{!Blake3}.

(** The key in the source ends with a crab, here in UTF-8. *)
Definition crab : string := of_bytes (ascii_of_N <$> [0xF0; 0x9F; 0xA6; 0x80]%N).
Definition shard_id_in_range : bool :=
  forallb (λ key, let id := compute_shard_id key in (0 <=? id) && (id <? NUM_SHARDS))
    [""; "a"; "object1"; "very/long/key/path/with/slashes"; "unicode-" +:+ crab].

Definition shard_id_is_deterministic : bool :=
  compute_shard_id "deterministic-key" == compute_shard_id "deterministic-key".

Definition shard_id_empty_string_is_stable : bool :=
  let id := compute_shard_id "" in (0 <=? id) && (id <? NUM_SHARDS).

Lemma shard_in_range key : (0 <=? compute_shard_id key) && (compute_shard_id key <? NUM_SHARDS) = true.
Proof.
  unfold compute_shard_id, NUM_SHARDS. destruct (blake3 _) as [|b0 ?]; [done|].
  change (64 - 1) with (Z.ones 6). rewrite Z.land_ones by lia.
  pose proof (Z.mod_pos_bound (Z.of_N (N_of_ascii b0)) (2 ^ 6) ltac:(lia)). lia.
Qed.

Theorem shard_tests_pass :
  asserts [shard_id_in_range; shard_id_is_deterministic; shard_id_empty_string_is_stable] = true.
Proof.
  apply asserts_all. repeat (apply Forall_cons; split); [..|by apply Forall_nil].
  - apply forallb_forall. intros key _. apply shard_in_range.
  - by apply bool_decide_eq_true.
  - apply shard_in_range.
Qed.
End hashing.

Definition range_is (prefix : string) (upper : option string) : bool :=
  match prefix_key_range prefix with
  | Ok (l, u) => (l == prefix) && (u == upper)
  | Err _ => false
  end.

Definition prefix_range_simple_ascii : bool := range_is "abc" (Some "abd").
Definition prefix_range_tilde_increments_to_del : bool :=
  range_is "a~" (Some ("a" +:+ String (ascii_of_N 0x7F) "")).
Definition prefix_range_uppercase_z_increments_to_bracket : bool := range_is "abZ" (Some "ab[").
Definition prefix_range_all_0xff_returns_none : bool :=
  range_is (of_bytes (replicate 3 (ascii_of_N 0xFF))) None.
Definition prefix_range_single_char : bool := range_is "a" (Some "b").
Definition prefix_range_empty_string : bool := range_is "" None.
Definition prefix_range_upper_is_exclusive : bool :=
  match prefix_key_range "logs/2024-" with
  | Ok (lower, Some upper) =>
      asserts [bool_decide (str_le lower "logs/2024-01-01"); bool_decide (str_lt "logs/2024-12-31/file.txt" upper);
        bool_decide (str_le upper "logs/2025-")]
  | _ => false
  end.
Definition prefix_range_slash_key : bool := range_is "folder/" (Some "folder0").

Example prefix_tests_pass :
  asserts [prefix_range_simple_ascii; prefix_range_tilde_increments_to_del;
    prefix_range_uppercase_z_increments_to_bracket; prefix_range_all_0xff_returns_none; prefix_range_single_char;
    prefix_range_empty_string; prefix_range_upper_is_exclusive; prefix_range_slash_key] = true.
Proof. vm_compute. reflexivity. Qed.
End HashingTests.

(** ** src/clock.rs *)

Module ClockTests.
(** Readings of the system clock, in nanoseconds, in the order the test takes them. *)
Definition unix_micros (t : SystemTime) : Z := t / 1000.

Definition zero_offset_returns_approx_unix_micros (before now after : SystemTime) : bool :=
  let t := Clock.now_micros (new 0) now in (unix_micros before <=? t) && (t <=? unix_micros after).
Definition positive_offset_shifts_time_forward (raw now : SystemTime) : bool :=
  let t := Clock.now_micros (new 1000) now in
  (unix_micros raw + 900000 <=? t) && (t <=? unix_micros raw + 1100000).
Definition negative_offset_shifts_time_backward (raw now : SystemTime) : bool :=
  let t := Clock.now_micros (new (-1000)) now in
  (unix_micros raw - 1100000 <=? t) && (t <=? unix_micros raw - 900000).
Definition set_offset_updates_immediately : bool :=
  let clock := new 0 in
  let clock1 := set_offset clock 500 in
  let clock2 := set_offset clock1 (-200) in
  asserts [get_offset clock == 0; get_offset clock1 == 500; get_offset clock2 == -200].
Definition now_micros_is_monotone_under_zero_offset (t1 t2 : SystemTime) : bool :=
  Clock.now_micros (new 0) t1 <=? Clock.now_micros (new 0) t2.
Definition large_positive_offset (now : SystemTime) : bool := 0 <? Clock.now_micros (new 86400000) now.
Definition now_micros_reflects_updated_offset (t0 t1 : SystemTime) : bool :=
  let clock := new 0 in
  9900000 <=? Clock.now_micros (set_offset clock 10000) t1 - Clock.now_micros clock t0.

(** The tests pass at every time between the epoch and the year 10000, with readings that do
    not go back and, where the test allows slack, lie at most 50 ms apart. *)
Definition year_10000 : Z := 8000 * 366 * 86400 * 1000000000.

Lemma now_micros_small off t : 0 ≤ t ≤ year_10000 → - 2 ^ 40 ≤ off ≤ 2 ^ 40 →
  Clock.now_micros (new off) t = t / 1000 + off * 1000.
Proof.
  intros Ht Ho. assert (0 ≤ t / 1000 ≤ year_10000 / 1000) as Hd
    by (split; [apply Z.div_pos; lia|apply Z.div_le_mono; lia]).
  assert (year_10000 / 1000 < 2 ^ 58) as Hy by (vm_compute; reflexivity).
  unfold Clock.now_micros, system_micros, new. cbn [offset_ms]. rewrite Z.abs_eq by lia.
  rewrite (wrap_i64_small (t / 1000)) by (unfold in_i64; lia).
  rewrite (wrap_i64_small (off * 1000)) by (unfold in_i64; lia). apply wrap_i64_small. unfold in_i64. lia.
Qed.

Theorem clock_tests_pass t0 t1 t2 :
  0 ≤ t0 → t0 ≤ t1 → t1 ≤ t2 → t2 ≤ year_10000 → t1 ≤ t0 + 50000000 →
  asserts [zero_offset_returns_approx_unix_micros t0 t1 t2; positive_offset_shifts_time_forward t0 t1;
    negative_offset_shifts_time_backward t0 t1; set_offset_updates_immediately;
    now_micros_is_monotone_under_zero_offset t0 t1; large_positive_offset t0;
    now_micros_reflects_updated_offset t0 t1] = true.
Proof.
  intros H0 H1 H2 Hy Hs. pose proof (Z.div_le_mono t0 t1 1000 ltac:(lia) H1) as D1.
  pose proof (Z.div_le_mono t1 t2 1000 ltac:(lia) H2) as D2.
  pose proof (Z.div_le_mono t1 (t0 + 50000 * 1000) 1000 ltac:(lia) ltac:(lia)) as D3. rewrite Z.div_add in D3 by lia.
  pose proof (Z.div_pos t0 1000 H0 ltac:(lia)) as D0.
  apply asserts_all. repeat (apply Forall_cons; split); [..|by apply Forall_nil];
    unfold zero_offset_returns_approx_unix_micros, positive_offset_shifts_time_forward,
      negative_offset_shifts_time_backward, now_micros_is_monotone_under_zero_offset, large_positive_offset,
      now_micros_reflects_updated_offset, unix_micros, set_offset; try done;
    rewrite ?(now_micros_small _ t0), ?(now_micros_small _ t1) by lia; lia.
Qed.
End ClockTests.

(** ** src/disk.rs *)

Module DiskTests.
(** [DiskGuard::tripped] and [DiskGuard::over_quota], the helpers of the tests. *)
Definition tripped : DiskGuard := mkGuard u64_max 0 0 0.
Definition over_quota : DiskGuard := mkGuard 0 u64_max 100 200.

Definition size_is (s : string) (n : Z) : bool := match parse_size s with Ok v => v == n | Err _ => false end.

Definition parse_size_units : bool :=
  asserts [size_is "0" 0; size_is "1024" 1024; size_is "1B" 1; size_is "10Gi" (10 * 1024 * 1024 * 1024);
    size_is "500Mi" (500 * 1024 * 1024); size_is "1Ti" (1024 ^ 4); size_is "2GB" 2000000000;
    size_is "1.5Gi" (3 * 1024 * 1024 * 1024 / 2);
    is_err (parse_size ""); is_err (parse_size "10Xy"); is_err (parse_size "abc")].

Definition format_bytes_is_human : bool :=
  asserts [format_bytes 512 == "512B"; format_bytes 1024 == "1.0Ki"; format_bytes (10 * 1024 * 1024 * 1024) == "10.0Gi"].

Definition disabled_guard_always_allows : bool :=
  asserts [negb (enabled disabled); writes_allowed disabled; check disabled == None].

(** The test reads the file system of the machine it runs on, which has less than [2^60] bytes
    free or gives no answer. *)
Definition guard_trips_below_reserve (sampled : option Z) : bool :=
  let g := refresh (mkGuard (2 ^ 60) 0 0 0) sampled in
  asserts [enabled g; negb (writes_allowed g); check g == Some LowFreeSpace;
    writes_allowed (mkGuard (min_free_bytes g) u64_max (max_bytes g) (local_usage g))].

Definition guard_trips_over_quota : bool :=
  let g := over_quota in
  let g1 := set_local_usage g 50 in
  asserts [enabled g; negb (writes_allowed g); check g == Some OverQuota; writes_allowed g1; check g1 == None].

Definition guard_free_space_checked_first : bool := check (mkGuard (2 ^ 60) 0 100 200) == Some LowFreeSpace.

Theorem disk_tests_pass sampled :
  (∀ n, sampled = Some n → 0 ≤ n < 2 ^ 60) →
  asserts [parse_size_units; format_bytes_is_human; disabled_guard_always_allows; guard_trips_below_reserve sampled;
    guard_trips_over_quota; guard_free_space_checked_first] = true.
Proof.
  intros Hs. apply asserts_all. repeat (apply Forall_cons; split); [..|by apply Forall_nil];
    try (vm_compute; reflexivity).
  destruct sampled as [n|]; [|vm_compute; reflexivity]. specialize (Hs n eq_refl).
  unfold guard_trips_below_reserve, refresh. cbn [min_free_bytes].
  change (0 <? 2 ^ 60) with true. cbv beta iota zeta. cbn [max_bytes local_usage min_free_bytes].
  assert (check (mkGuard (2 ^ 60) n 0 0) = Some LowFreeSpace) as Hc.
  { unfold check. cbn [min_free_bytes free]. rewrite (proj2 (Z.ltb_lt n (2 ^ 60))) by lia. reflexivity. }
  unfold writes_allowed. rewrite Hc. reflexivity.
Qed.
End DiskTests.

(** ** src/db.rs *)

Module PolicyTests.
Definition wildcard_star_matches_anything : bool :=
  asserts [wildcard_match "*" "s3:GetObject"; wildcard_match "*" ""; wildcard_match "*" "arn:ss:bucket:::my-bucket/key"].
Definition wildcard_exact_match : bool :=
  asserts [wildcard_match "s3:GetObject" "s3:GetObject"; negb (wildcard_match "s3:GetObject" "s3:PutObject");
    negb (wildcard_match "s3:GetObject" "")].
Definition wildcard_prefix_star : bool :=
  asserts [wildcard_match "s3:*" "s3:GetObject"; wildcard_match "s3:*" "s3:PutObject"; wildcard_match "s3:*" "s3:";
    negb (wildcard_match "s3:*" "iam:GetUser")].
Definition wildcard_arn_prefix : bool :=
  asserts [wildcard_match "arn:ss:bucket:::my-bucket*" "arn:ss:bucket:::my-bucket/key";
    wildcard_match "arn:ss:bucket:::my-bucket*" "arn:ss:bucket:::my-bucket";
    negb (wildcard_match "arn:ss:bucket:::my-bucket*" "arn:ss:bucket:::other-bucket")].
Definition wildcard_empty_pattern_only_matches_empty : bool :=
  asserts [wildcard_match "" ""; negb (wildcard_match "" "anything")].
Definition wildcard_star_only_in_prefix_position_does_not_match_suffix : bool :=
  negb (wildcard_match "s3:Get*Object" "s3:GetObject").

Definition stmt (effect : string) (actions resources : list string) : PolicyStatement :=
  {| effect := effect; actions := actions; resources := resources |}.

Definition statement_matches_exact_action_and_resource : bool :=
  matches (stmt "Allow" ["s3:GetObject"] ["arn:ss:bucket:::my-bucket/key"]) "s3:GetObject" "arn:ss:bucket:::my-bucket/key".
Definition statement_does_not_match_wrong_action : bool :=
  negb (matches (stmt "Allow" ["s3:GetObject"] ["arn:ss:bucket:::my-bucket/key"]) "s3:PutObject" "arn:ss:bucket:::my-bucket/key").
Definition statement_does_not_match_wrong_resource : bool :=
  negb (matches (stmt "Allow" ["s3:GetObject"] ["arn:ss:bucket:::my-bucket/key"]) "s3:GetObject" "arn:ss:bucket:::other-bucket/key").
Definition statement_wildcard_action_matches_all : bool :=
  let s := stmt "Allow" ["*"] ["arn:ss:bucket:::my-bucket"] in
  asserts [matches s "s3:GetObject" "arn:ss:bucket:::my-bucket"; matches s "s3:DeleteObject" "arn:ss:bucket:::my-bucket"].
Definition statement_wildcard_resource_matches_all : bool :=
  matches (stmt "Allow" ["s3:GetObject"] ["*"]) "s3:GetObject" "arn:ss:bucket:::any-bucket/any-key".
Definition statement_multiple_actions_any_can_match : bool :=
  let s := stmt "Allow" ["s3:GetObject"; "s3:HeadObject"] ["*"] in
  asserts [matches s "s3:GetObject" "*"; matches s "s3:HeadObject" "*"; negb (matches s "s3:PutObject" "*")].

Definition allow_all : Policy := {| statements := [stmt "Allow" ["*"] ["*"]] |}.
Definition deny_all : Policy := {| statements := [stmt "Deny" ["*"] ["*"]] |}.

Definition policy_allow_all_permits_any_action : bool :=
  asserts [is_allowed allow_all "s3:GetObject" "arn:ss:bucket:::b/k"; is_allowed allow_all "s3:DeleteBucket" "arn:ss:bucket:::b"].
Definition policy_deny_all_rejects_any_action : bool := negb (is_allowed deny_all "s3:GetObject" "arn:ss:bucket:::b/k").
Definition policy_empty_statements_denies_everything : bool :=
  negb (is_allowed {| statements := [] |} "s3:GetObject" "arn:ss:bucket:::b/k").
Definition policy_deny_takes_precedence_over_allow : bool :=
  let p := {| statements := [stmt "Allow" ["*"] ["*"]; stmt "Deny" ["s3:DeleteObject"] ["*"]] |} in
  asserts [is_allowed p "s3:GetObject" "arn:ss:bucket:::b/k"; negb (is_allowed p "s3:DeleteObject" "arn:ss:bucket:::b/k")].
Definition policy_deny_evaluated_regardless_of_order : bool :=
  let p := {| statements := [stmt "Deny" ["s3:DeleteBucket"] ["*"]; stmt "Allow" ["*"] ["*"]] |} in
  asserts [negb (is_allowed p "s3:DeleteBucket" "arn:ss:bucket:::b"); is_allowed p "s3:GetObject" "arn:ss:bucket:::b/k"].
Definition policy_allow_specific_bucket_denies_other : bool :=
  let p := {| statements := [stmt "Allow" ["*"] ["arn:ss:bucket:::allowed-bucket*"]] |} in
  asserts [is_allowed p "s3:GetObject" "arn:ss:bucket:::allowed-bucket/key";
    negb (is_allowed p "s3:GetObject" "arn:ss:bucket:::forbidden-bucket/key")].
Definition policy_read_only_allows_get_denies_put : bool :=
  let p := {| statements := [stmt "Allow" ["s3:GetObject"; "s3:HeadObject"; "s3:ListBucket"] ["*"]] |} in
  asserts [is_allowed p "s3:GetObject" "arn:ss:bucket:::b/k"; is_allowed p "s3:ListBucket" "arn:ss:bucket:::b";
    negb (is_allowed p "s3:PutObject" "arn:ss:bucket:::b/k")].

(** Under every codec. *)
Definition policy_json_round_trip `{!Json} : bool :=
  let original := {| statements :=
    [stmt "Allow" ["s3:GetObject"; "s3:ListBucket"] ["arn:ss:bucket:::my-bucket*"]; stmt "Deny" ["s3:DeleteObject"] ["*"]] |} in
  policy_from_str (policy_to_string original) == Some original.
Theorem policy_json_test_passes `{!Json} : policy_json_round_trip = true.
Proof. apply bool_decide_eq_true, policy_string_roundtrip. Qed.

Example policy_tests_pass :
  asserts [wildcard_star_matches_anything; wildcard_exact_match; wildcard_prefix_star; wildcard_arn_prefix;
    wildcard_empty_pattern_only_matches_empty; wildcard_star_only_in_prefix_position_does_not_match_suffix;
    statement_matches_exact_action_and_resource; statement_does_not_match_wrong_action;
    statement_does_not_match_wrong_resource; statement_wildcard_action_matches_all;
    statement_wildcard_resource_matches_all; statement_multiple_actions_any_can_match;
    policy_allow_all_permits_any_action; policy_deny_all_rejects_any_action;
    policy_empty_statements_denies_everything; policy_deny_takes_precedence_over_allow;
    policy_deny_evaluated_regardless_of_order; policy_allow_specific_bucket_denies_other;
    policy_read_only_allows_get_denies_put] = true.
Proof. vm_compute. reflexivity. Qed.
End PolicyTests.

(** ** src/noise_transport.rs: keys *)

Module KeyTests.
Section keys.
Context `{!Blake3} (b64_encode : bytes → string) (b64_decode : string → option bytes).

Definition decode_private_key_rejects_empty : bool := is_none (decode_private_key b64_decode "").
Definition decode_private_key_rejects_wrong_length : bool :=
  is_none (decode_private_key b64_decode (b64_encode (ascii_of_N <$> [1; 2; 3]%N))).
Definition decode_private_key_rejects_non_base64 : bool :=
  is_none (decode_private_key b64_decode "not valid base64 !!!").
(** [drawn] is the private key snow generates; [generate_private_key] encodes it. *)
Definition generated_key_round_trips_through_decode (drawn : bytes) : bool :=
  (length <$> decode_private_key b64_decode (b64_encode drawn)) == Some 32%nat.
Definition derive_psk_is_deterministic_and_secret_dependent : bool :=
  asserts [derive_psk "same" == derive_psk "same"; derive_psk "a" != derive_psk "b"; length (derive_psk "x") == 32%nat].

(** With a base64 codec that decodes what it encoded, the empty text to nothing and no text with
    a space, and a BLAKE3 that tells the two secrets apart. *)
Theorem key_tests_pass drawn :
  (∀ b, b64_decode (b64_encode b) = Some b) → b64_decode "" = Some [] →
  (∀ s, " "%char ∈ as_bytes s → b64_decode s = None) → length drawn = 32%nat →
  blake3 (as_bytes "a") ≠ blake3 (as_bytes "b") →
  asserts [decode_private_key_rejects_empty; decode_private_key_rejects_wrong_length;
    decode_private_key_rejects_non_base64; generated_key_round_trips_through_decode drawn;
    derive_psk_is_deterministic_and_secret_dependent] = true.
Proof.
  intros Hrt Hempty Hsp Hd Hab. apply asserts_all. repeat (apply Forall_cons; split); [..|by apply Forall_nil].
  - unfold decode_private_key_rejects_empty, decode_private_key. by rewrite Hempty.
  - unfold decode_private_key_rejects_wrong_length, decode_private_key. by rewrite Hrt.
  - unfold decode_private_key_rejects_non_base64, decode_private_key. rewrite Hsp; [done|].
    apply (bool_decide_unpack _). vm_compute. exact I.
  - unfold generated_key_round_trips_through_decode, decode_private_key. rewrite Hrt, Hd.
    rewrite Nat.eqb_refl. by apply bool_decide_eq_true; simpl; rewrite Hd.
  - unfold derive_psk_is_deterministic_and_secret_dependent, derive_psk, asserts. cbn [forallb id]. unfold id.
    rewrite (bool_decide_false _ Hab), !bool_decide_true by (try apply blake3_length; done). done.
Qed.
End keys.
End KeyTests.

(** ** src/store.rs *)

Module StoreTests.
#[local] Existing Instances Reference.blake3_pad Reference.hex_lower Reference.uuid_text.
#[local] Existing Instances JsonReference.json_tokens order_id.

(** Calls are made one second apart: call [i] of a test reads the clock at [at_ i]. *)
Definition at_ (i : Z) : SystemTime := (1700000000 + i) * 1000000000.

Definition store_with (id : string) (offset_ms : Z) : Store := empty_store id (new offset_ms).
Definition store : Store := store_with "site-a" 0.
Definition h (n : N) : bytes := replicate 32 (ascii_of_N n).

(** Pulls all of [src]'s new facts into [dst]; [None] where the source unwraps an error. *)
Fixpoint apply_all (t : SystemTime) (dst : Store) (facts : list (FactRecord Value)) : option Store :=
  match facts with
  | [] => Some dst
  | f :: fs => match apply_fact dst t f with Ok dst' => apply_all t dst' fs | Err _ => None end
  end.
Definition pump (t : SystemTime) (src dst : Store) : option Store :=
  let after := get_cursor dst (local_location_id src) in
  match facts_since src after 1000 with
  | Err _ => None
  | Ok facts =>
      dst' ← apply_all t dst facts;
      Some (set_cursor dst' (local_location_id src) (foldl Z.max after (Tables.seq <$> facts)))
  end.
Definition etag_of (s : Store) (bucket key : string) : option string := snd <$> Store.get_object s bucket key.

Definition fact_sync_converges_object_and_delete : bool :=
  let a1 := insert_object (store_with "site-a" 0) (at_ 1) "bk" 0 "k" [h 1; h 2] 99 "e1" in
  match pump (at_ 2) a1 (store_with "site-b" 0) with
  | None => false
  | Some b1 =>
      let a2 := Store.delete_object a1 (at_ 3) "bk" "k" in
      match pump (at_ 4) a2 b1 with
      | None => false
      | Some b2 =>
          let before := get_cursor b2 "site-a" in
          match pump (at_ 5) a2 b2 with
          | None => false
          | Some b3 =>
              asserts [(fst ∘ fst <$> Store.get_object b1 "bk" "k") == Some [h 1; h 2]; etag_of b1 "bk" "k" == Some "e1";
                is_none (Store.get_object b2 "bk" "k"); get_cursor b3 "site-a" == before]
          end
      end
  end.

Definition lww_newer_clock_wins_regardless_of_apply_order : bool :=
  let a1 := insert_object (store_with "site-a" 0) (at_ 1) "bk" 0 "k" [h 1] 1 "from-a" in
  let b1 := insert_object (store_with "site-b" 60000) (at_ 2) "bk" 0 "k" [h 2] 2 "from-b" in
  match pump (at_ 3) a1 b1 with
  | None => false
  | Some b2 =>
      match pump (at_ 4) b2 a1 with
      | None => false
      | Some a2 => asserts [etag_of a2 "bk" "k" == Some "from-b"; etag_of b2 "bk" "k" == Some "from-b"]
      end
  end.

Definition tombstone_not_resurrected_by_older_put : bool :=
  let b1 := insert_object (store_with "site-b" 0) (at_ 1) "bk" 0 "k" [h 1] 1 "older" in
  let a1 := Store.delete_object (store_with "site-a" 60000) (at_ 2) "bk" "k" in
  match pump (at_ 3) b1 a1 with
  | None => false
  | Some a2 =>
      match pump (at_ 4) a2 b1 with
      | None => false
      | Some b2 => asserts [is_none (Store.get_object a2 "bk" "k"); is_none (Store.get_object b2 "bk" "k")]
      end
  end.

Definition block_announce_enqueues_self_pull : bool :=
  let a1 := store_local_block (store_with "site-a" 0) (at_ 1) (h 5) (as_bytes "3,abc") 10 in
  match pump (at_ 2) a1 (store_with "site-b" 0) with
  | None => false
  | Some b1 =>
      match pump (at_ 4) a1 b1 with
      | None => false
      | Some b2 =>
          asserts [match get_block_fids b1 (h 5) with Some locs => is_some (locs !! "site-a") | None => false end;
            existsb (λ e, e_hash e == h 5) (get_replication_queue b1 (at_ 3));
            length (filter (λ e, e_hash e = h 5) (get_replication_queue b2 (at_ 5))) == 1%nat]
      end
  end.

Definition object_round_trip_and_lww : bool :=
  let s1 := insert_object store (at_ 1) "b" 0 "k" [h 1; h 2] 100 "etag1" in
  let s2 := insert_object s1 (at_ 2) "b" 0 "k" [h 3] 50 "etag2" in
  asserts [Store.get_object s1 "b" "k" == Some ([h 1; h 2], 100, "etag1");
    (fst ∘ fst <$> Store.get_object s2 "b" "k") == Some [h 3]; etag_of s2 "b" "k" == Some "etag2"].

Definition delete_object_removes_it : bool :=
  let s1 := insert_object store (at_ 1) "b" 0 "k" [h 1] 1 "e" in
  is_none (Store.get_object (Store.delete_object s1 (at_ 2) "b" "k") "b" "k").

(** An insert of each key, a second apart. *)
Definition insert_keys (keys : list string) : Store :=
  (foldl (λ '(s, i) key, (insert_object s (at_ i) "b" 0 key [h 1] 1 "e", i + 1)) (store, 1) keys).1.
Definition page_keys (s : Store) (after prefix : option string) (n : nat) : option (list string * bool) :=
  match Store.list_objects s "b" after prefix n with
  | Ok (page, truncated) => Some (obj_key <$> page, truncated)
  | Err _ => None
  end.

Definition list_is_globally_sorted_and_paginates : bool :=
  let s := insert_keys ["c"; "a"; "b"; "e"; "d"] in
  asserts [page_keys s None None 3 == Some (["a"; "b"; "c"], true); page_keys s (Some "c") None 3 == Some (["d"; "e"], false)].

Definition list_prefix_filters : bool :=
  let s := insert_keys ["app/1"; "app/2"; "zoo/1"] in
  (fst <$> page_keys s None (Some "app/") 10) == Some ["app/1"; "app/2"].

Definition live_set_tracks_manifests_and_tombstones : bool :=
  let s1 := store_local_block store (at_ 1) (h 1) (as_bytes "3,01") 10 in
  let s2 := store_local_block s1 (at_ 2) (h 2) (as_bytes "3,02") 10 in
  let s3 := insert_object s2 (at_ 3) "b" 0 "k" [h 1] 10 "e" in
  let s4 := Store.delete_object s3 (at_ 4) "b" "k" in
  asserts [length (list_local_block_hashes s2) == 2%nat; elements (compute_live_block_set s2) == [];
    bool_decide (h 1 ∈ compute_live_block_set s3); negb (bool_decide (h 2 ∈ compute_live_block_set s3));
    elements (compute_live_block_set s4) == []].

Definition delete_local_block_drops_row_when_last_copy : bool :=
  let s1 := store_local_block store (at_ 1) (h 1) (as_bytes "3,01") 10 in
  let s2 := add_block_location s1 (at_ 2) (h 1) "site-b" (as_bytes "9,xx") in
  let '(removed, s3) := delete_local_block s2 (h 1) in
  let r1 := store_local_block (store_with "site-b" 0) (at_ 3) (h 3) (as_bytes "1,a") 5 in
  let '(removed', r2) := delete_local_block r1 (h 3) in
  asserts [removed; is_none (get_local_block_fid s3 (h 1)); is_some (get_block_fids s3 (h 1));
    removed'; is_none (get_block_fids r2 (h 3))].

Definition replication_queue_drain_for_local_target : bool :=
  let s1 := enqueue_replication (store_with "site-b" 0) (at_ 1) (h 7) ["site-b"] in
  match get_replication_queue s1 (at_ 2) with
  | [q] =>
      let s2 := defer_replication s1 (at_ 3) q in
      let s3 := enqueue_replication s2 (at_ 5) (h 8) ["site-b"] in
      let s4 := dequeue_replication s3 (h 8) in
      asserts [e_hash q == h 7; length (get_replication_queue s2 (at_ 4)) == 0%nat;
        forallb (λ e, e_hash e != h 8) (get_replication_queue s4 (at_ 6))]
  | _ => false
  end.

Definition user_round_trip : bool :=
  let policy := {| statements := [{| effect := "Allow"; actions := ["s3:*"]; resources := ["*"] |}] |} in
  let s := create_user store (at_ 1) "AK" "SK" policy in
  match get_user s "AK", get_user s "nope" with
  | Ok (Some (secret, got)), Ok None =>
      asserts [secret == "SK"; is_allowed got "s3:GetObject" "arn:ss:bucket:::b/k"]
  | _, _ => false
  end.

Definition peer_registry_records_peers_and_excludes_self : bool :=
  let s := register_node store (at_ 1) "http://a:8015" in
  let s := record_peer s (at_ 2) "site-b" "http://b:8015" in
  let s := record_peer s (at_ 3) "site-a" "http://evil:9999" in
  let peers := get_peers_with_urls s in
  asserts [peers !! "site-b" == Some "http://b:8015"; is_none (peers !! "site-a");
    existsb (λ n, n == ("site-a", "http://a:8015")) (all_nodes s); existsb (λ n, n.1 == "site-b") (all_nodes s)].

(** The names of the trait methods are those of [impl ObjectStore for Db]. *)
Definition multipart_trait_delegation_round_trips_without_recursing : bool :=
  let upload_id : Uuid := "u1" in
  let other : Uuid := "u2" in
  let s1 := insert_multipart store "test" upload_id "big.bin" in
  let s2 := insert_part s1 "test" upload_id 1 [replicate 32 (ascii_of_N 1)] 32 "e1" in
  let s3 := insert_part s2 "test" upload_id 2 [replicate 32 (ascii_of_N 2)] 32 "e2" in
  let s4 := delete_multipart_upload s3 "test" upload_id in
  asserts [get_multipart_key s1 "test" upload_id == Some "big.bin"; is_none (get_multipart_key s1 "test" other);
    (part_number <$> list_parts s3 "test" upload_id) == [1; 2];
    is_none (get_multipart_key s4 "test" upload_id); length (list_parts s4 "test" upload_id) == 0%nat].

Example store_tests_pass :
  asserts [fact_sync_converges_object_and_delete; lww_newer_clock_wins_regardless_of_apply_order;
    tombstone_not_resurrected_by_older_put; block_announce_enqueues_self_pull; object_round_trip_and_lww;
    delete_object_removes_it; list_is_globally_sorted_and_paginates; list_prefix_filters;
    live_set_tracks_manifests_and_tombstones; delete_local_block_drops_row_when_last_copy;
    replication_queue_drain_for_local_target; user_round_trip; peer_registry_records_peers_and_excludes_self;
    multipart_trait_delegation_round_trips_without_recursing] = true.
Proof. vm_compute. reflexivity. Qed.

(** The second write of [object_round_trip_and_lww] wins because its time is later: on a clock
    that has not moved on between the two calls the test fails, with the first write kept. *)
Example same_instant_keeps_first_write :
  let s1 := insert_object store (at_ 1) "b" 0 "k" [h 1; h 2] 100 "etag1" in
  etag_of (insert_object s1 (at_ 1) "b" 0 "k" [h 3] 50 "etag2") "b" "k" = Some "etag1".
Proof. vm_compute. reflexivity. Qed.
End StoreTests.

(** ** src/main.rs *)

Module CliTests.
Definition contains (s pattern : string) : bool := is_some (find s pattern).

(** The defaults with the site's id and the bind addresses changed. *)
Definition office : Config :=
  let c := default_config in
  mkConfig (mkServerConfig (log_format (server c)) "0.0.0.0:9000" "0.0.0.0:9001" (advertise (server c))
      (secret (server c)) (clock_offset_ms (server c)) (noise_private_key (server c)))
    (database c)
    (mkStorageConfig "office" (block_backend (storage c)) (min_free (storage c)) (max_total (storage c))
      (chunking (storage c)) (gc_grace_seconds (storage c)) (gc_interval_seconds (storage c))).

Definition q : string := String (ascii_of_N 34) "".
Definition serve_args : string :=
  "args: [" +:+ q +:+ "serve" +:+ q +:+ ", " +:+ q +:+ "--config" +:+ q +:+ ", " +:+ q +:+ "/data/config.toml" +:+ q +:+ "]".
Definition render_k8s_uses_site_and_ports_from_config : bool :=
  let y := render_k8s_manifests office in
  asserts [contains y "shardscape-office"; contains y "name: shardscape"; contains y "containerPort: 9000";
    contains y "containerPort: 9001"; contains y serve_args].

(** [a] and [b] are the bytes of the two draws. *)
Definition random_hex_is_right_length_and_varies `{!Hex} (a b : bytes) : bool :=
  asserts [String.length (random_hex a) == 64%nat; random_hex a != random_hex b].

Example render_test_passes : render_k8s_uses_site_and_ports_from_config = true.
Proof. vm_compute. reflexivity. Qed.

Theorem random_hex_test_passes `{!Hex} a b :
  length a = 32%nat → a ≠ b → random_hex_is_right_length_and_varies a b = true.
Proof.
  intros Ha Hab. apply asserts_all. repeat (apply Forall_cons; split); [..|by apply Forall_nil].
  - apply bool_decide_eq_true. unfold random_hex. by rewrite hex_encode_length, Ha.
  - apply negb_true_iff, bool_decide_eq_false. by intros Heq%hex_encode_inj.
Qed.
End CliTests.
