(* ===== verification/NoiseTests.v ===== *)
(** * The unit tests of the encrypted transport (src/noise_transport.rs: [mod tests])

    Each definition is a test function under its own name: the handshake, the messages each side
    writes, what the other has to read, and the assertions.  The pipe, the keys, the handshake
    state and the cipher are parameters, and so is the order in which the tasks are polled; the
    tests pass for all of them, given enough rounds. *)

From S2P Require Import Prelude Crates Clock Hashing Noise Handshake Transfer Tests.

Section noise_tests.
Context `{!Blake3, !Cipher, !Snow, !LawfulSnow}.
(** The two private keys and the randomness of [test_keys]. *)
Context (i_key r_key : bytes) (i_seed r_seed : Seed).

Definition handshake (psk_i psk_r : bytes) : result stop TransportState * result stop TransportState :=
  let hello := writes_on (connect i_key psk_i i_seed) [] in
  let reply := writes_on (accept r_key psk_r r_seed) hello in
  let '(client, ci) := connect i_key psk_i i_seed (mkChannel reply [] []) in
  (client, (accept r_key psk_r r_seed (mkChannel (written ci ++ []) [] [])).1).

Definition test_psk : bytes := derive_psk "unit-test-cluster-secret".
Definition connected_pair : option (TransportState * TransportState) :=
  match handshake test_psk test_psk with
  | (Ok client, Ok server) => Some (client, server)
  | _ => None
  end.

Definition wrong_psk_fails_handshake : bool :=
  let '(client, server) := handshake (derive_psk "secret-a") (derive_psk "secret-b") in
  is_err client || is_err server.

(** ** Tests that transfer bytes *)

Section transfers.
Context {IO JO : Type} `{!AsyncStream IO} `{!LawfulStream IO} `{!Socket IO}.
Context `{!AsyncStream JO} `{!LawfulStream JO} `{!Socket JO}.
(** The pipe after the handshake, and the schedule. *)
Context (client_io : IO) (server_io : JO) (rounds : list (list turn)).

(** The messages of the client and of the server; what the server and the client have read when
    the writers are done. *)
Definition exchange (ms_a ms_b : list bytes) : option (bytes * bytes) :=
  '(ti, tr) ← connected_pair;
  let '(a, b) := run_turns (start client_io server_io ti tr ms_a ms_b) (concat rounds) in
  if flushed a && flushed b && read_all a && read_all b && negb (failed a) && negb (failed b)
  then Some (got b, got a) else None.

Definition handshake_then_simple_round_trip : bool :=
  exchange [as_bytes "hello over noise"] [] == Some (as_bytes "hello over noise", []).

(** [(0..n).map(f)] *)
Definition bytes_from (f : N → N) (n : Z) : bytes :=
  (λ i, ascii_of_N (f (N.of_nat i) mod 256)) <$> seq 0 (Z.to_nat n).

Definition large_payload : bytes := bytes_from (λ i, ((i * 2654435761) mod 2 ^ 32) / 2 ^ 13)%N 600000.
Definition large_multi_frame_payload_round_trips : bool :=
  exchange [large_payload] [] == Some (large_payload, []).

Definition a_to_b : bytes := bytes_from (λ i, (i * 31) mod 2 ^ 32)%N 150000.
Definition b_to_a : bytes := bytes_from (λ i, ((i * 17) mod 2 ^ 32 + 5) mod 2 ^ 32)%N 150000.
Definition concurrent_bidirectional_traffic_does_not_corrupt : bool :=
  exchange [a_to_b] [b_to_a] == Some (a_to_b, b_to_a).

(** [format!("msg-{i:04}")] *)
Definition msg (i : nat) : bytes :=
  as_bytes "msg-" ++ ((λ d, ascii_of_N (48 + N.of_nat (i / d mod 10))) <$> [1000; 100; 10; 1]%nat).
Definition msgs : list bytes := msg <$> seq 0 500.
Definition text_contains (text pattern : bytes) : bool :=
  existsb (λ k, bool_decide (pattern `prefix_of` drop k text)) (seq 0 (S (length text))).
Definition many_small_messages_preserve_order_and_integrity : bool :=
  match exchange msgs [] with
  | Some (text, _) =>
      forallb (λ i, text_contains text (msg i)) (seq 0 500) &&
      bool_decide (msg 0 ++ msg 1 `prefix_of` text)
  | None => false
  end.

(** ** They pass *)

Context (Hik : length i_key = 32%nat) (Hrk : length r_key = 32%nat).

Lemma pair_connects : ∃ ti tr, connected_pair = Some (ti, tr) ∧ paired ti tr.
Proof.
  pose proof (blake3_length (as_bytes "unit-test-cluster-secret")) as Hpsk.
  destruct (ends_meet i_key r_key test_psk test_psk i_seed r_seed Hik Hrk Hpsk Hpsk) as (ti & ci & r & Hc & _ & Ha & Hsame & _).
  destruct (Hsame eq_refl) as (tr & -> & Hp), (Ha []) as (cr & Hacc & _).
  exists ti, tr. unfold connected_pair, handshake. by rewrite Hc, Hacc.
Qed.

Context (Hconn : connected client_io server_io) (Hfair : Forall (λ r, ∀ t : turn, t ∈ r) rounds).

Lemma exchange_ok ms_a ms_b : Z.of_nat (length (concat ms_a)) < 2 ^ 64 - 1 → Z.of_nat (length (concat ms_b)) < 2 ^ 64 - 1 →
  (enough_rounds (IO := IO) (JO := JO) ms_a ms_b ≤ length rounds)%nat → exchange ms_a ms_b = Some (concat ms_a, concat ms_b).
Proof.
  intros Ha Hb Hr. destruct pair_connects as (ti & tr & Hpair & Hp). unfold exchange. rewrite Hpair. cbn [mbind option_bind].
  pose proof (transfer_ends client_io server_io ti tr ms_a ms_b rounds Hp Hconn Ha Hb Hfair Hr) as Ht.
  destruct (run_turns _ _) as [a b]. destruct Ht as ((-> & -> & -> & ->) & -> & -> & -> & ->). done.
Qed.

Lemma length_bytes_from f k : 0 ≤ k → Z.of_nat (length (bytes_from f k)) = k.
Proof. intros Hk. unfold bytes_from. rewrite length_fmap, length_seq. lia. Qed.

Lemma contains_part (pre part post : bytes) : text_contains (pre ++ part ++ post) part = true.
Proof.
  apply existsb_exists. exists (length pre). split; [apply in_seq; rewrite length_app; lia|].
  apply bool_decide_eq_true. rewrite drop_app_length. by apply prefix_app_r.
Qed.

Lemma contains_message i l : i ∈ l → text_contains (concat (msg <$> l)) (msg i) = true.
Proof.
  intros (l1 & l2 & ->)%list_elem_of_split. rewrite fmap_app, concat_app. apply contains_part.
Qed.

(** One payload in each direction. *)
Lemma payloads_ok (a b : bytes) ms_b : concat ms_b = b → Z.of_nat (length a) < 2 ^ 64 - 1 → Z.of_nat (length b) < 2 ^ 64 - 1 →
  (enough_rounds (IO := IO) (JO := JO) [a] ms_b ≤ length rounds)%nat → (exchange [a] ms_b == Some (a, b)) = true.
Proof.
  intros Hb Ha Hlb Hr. apply bool_decide_eq_true. rewrite exchange_ok; cbn [concat]; rewrite ?app_nil_r, ?Hb; done.
Qed.

Abbreviation enough ms_a ms_b := (enough_rounds (IO := IO) (JO := JO) ms_a ms_b ≤ length rounds)%nat.

Theorem transfer_tests_pass :
  (enough [as_bytes "hello over noise"] [] → handshake_then_simple_round_trip = true) ∧
  (enough [large_payload] [] → large_multi_frame_payload_round_trips = true) ∧
  (enough [a_to_b] [b_to_a] → concurrent_bidirectional_traffic_does_not_corrupt = true) ∧
  (enough msgs [] → many_small_messages_preserve_order_and_integrity = true).
Proof.
  split_and!; intros Hr.
  - by apply payloads_ok.
  - apply payloads_ok; [done| |done|done]. unfold large_payload. by rewrite length_bytes_from.
  - apply payloads_ok; [apply app_nil_r|unfold a_to_b|unfold b_to_a|done]; by rewrite length_bytes_from.
  - unfold many_small_messages_preserve_order_and_integrity. rewrite exchange_ok; [|vm_compute; done|done|done].
    apply andb_true_iff. split.
    + apply forallb_forall. intros i Hin. by apply contains_message, list_elem_of_In.
    + apply bool_decide_eq_true. unfold msgs. change (seq 0 500) with (0%nat :: 1%nat :: seq 2 498).
      cbn [fmap list_fmap concat]. rewrite app_assoc. by apply prefix_app_r.
Qed.
End transfers.

Section throttled.
Context {D : Type} `{!AsyncStream D} `{!LawfulStream D} `{!Socket D}.
#[local] Instance socket_throttled : Socket (Throttle D 7) := throttle_socket (max_write := 7) ltac:(lia).
(** The toggle counts the writes of the handshake too. *)
Context (i_io r_io : D) (toggle : nat) (rounds : list (list turn)).

Definition throttled_payload : bytes := bytes_from (λ i, N.lxor i (i / 2 ^ 7))%N 200000.
Definition round_trips_through_a_backpressured_stream : bool :=
  exchange (mkThrottle i_io toggle : Throttle D 7) r_io rounds [throttled_payload] [] == Some (throttled_payload, []).

Theorem backpressure_test_passes :
  length i_key = 32%nat → length r_key = 32%nat → connected i_io r_io → Forall (λ r, ∀ t : turn, t ∈ r) rounds →
  (enough_rounds (IO := Throttle D 7) (JO := D) [throttled_payload] [] ≤ length rounds)%nat →
  round_trips_through_a_backpressured_stream = true.
Proof.
  intros Hik Hrk Hc Hf Hr. apply payloads_ok; [done..| |done|done]. unfold throttled_payload. by rewrite length_bytes_from.
Qed.
End throttled.

(** Two secrets with different keys. *)
Theorem wrong_psk_test_passes : length i_key = 32%nat → length r_key = 32%nat → derive_psk "secret-a" ≠ derive_psk "secret-b" →
  wrong_psk_fails_handshake = true.
Proof.
  intros Hik Hrk Hne. destruct (ends_meet i_key r_key (derive_psk "secret-a") (derive_psk "secret-b") i_seed r_seed Hik Hrk) as
    (ti & ci & r & Hc & _ & Ha & _ & Hdiff); [apply blake3_length..|]. destruct (Ha []) as (cr & Hacc & _).
  unfold wrong_psk_fails_handshake, handshake. rewrite Hc, Hacc, (Hdiff Hne). done.
Qed.
End noise_tests.
