(* ===== verification/StorageTests.v ===== *)
(** * The unit tests of src/storage.rs, run on the model

    As in [Tests]: a definition per test function, here on the service of [Handlers] with the
    mock stores the source defines ([MockObjectStore], [MockBlockStore]), whose locks are the
    fields of one state.  The etags the tests expect are MD5 digests, so the tests run on an
    implementation of RFC 1321. *)

From stdpp Require Import pretty.
From S2P Require Import Prelude Crates Clock Hashing Chunking Range Listing Policy Disk Tables Store.
From S2P Require Import Objects BlockStore GC Replication S3 Sizes Handlers Tests.

(** ** MD5 (RFC 1321) *)

Module Rfc1321.
Definition mask : Z := 2 ^ 32 - 1.
Definition add32 (x y : Z) : Z := Z.land (x + y) mask.
Definition rotl (x c : Z) : Z := Z.land (Z.lor (Z.shiftl x c) (Z.shiftr x (32 - c))) mask.
Definition not32 (x : Z) : Z := Z.lxor x mask.

(** The table of sines and the shift amounts. *)
Definition K : list Z :=
  [3614090360; 3905402710; 606105819; 3250441966; 4118548399; 1200080426;
   2821735955; 4249261313; 1770035416; 2336552879; 4294925233; 2304563134;
   1804603682; 4254626195; 2792965006; 1236535329; 4129170786; 3225465664;
   643717713; 3921069994; 3593408605; 38016083; 3634488961; 3889429448;
   568446438; 3275163606; 4107603335; 1163531501; 2850285829; 4243563512;
   1735328473; 2368359562; 4294588738; 2272392833; 1839030562; 4259657740;
   2763975236; 1272893353; 4139469664; 3200236656; 681279174; 3936430074;
   3572445317; 76029189; 3654602809; 3873151461; 530742520; 3299628645;
   4096336452; 1126891415; 2878612391; 4237533241; 1700485571; 2399980690;
   4293915773; 2240044497; 1873313359; 4264355552; 2734768916; 1309151649;
   4149444226; 3174756917; 718787259; 3951481745].
Definition shifts : list Z :=
  [7; 12; 17; 22; 7; 12; 17; 22; 7; 12; 17; 22; 7; 12; 17; 22;
   5; 9; 14; 20; 5; 9; 14; 20; 5; 9; 14; 20; 5; 9; 14; 20;
   4; 11; 16; 23; 4; 11; 16; 23; 4; 11; 16; 23; 4; 11; 16; 23;
   6; 10; 15; 21; 6; 10; 15; 21; 6; 10; 15; 21; 6; 10; 15; 21].

(** Little-endian words and bytes. *)
Definition to_Z (c : ascii) : Z := Z.of_N (N_of_ascii c).
Fixpoint words (fuel : nat) (b : bytes) : list Z :=
  match fuel, b with
  | S f, b0 :: b1 :: b2 :: b3 :: r => (to_Z b0 + Z.shiftl (to_Z b1) 8 + Z.shiftl (to_Z b2) 16 + Z.shiftl (to_Z b3) 24) :: words f r
  | _, _ => []
  end.
Fixpoint le_bytes (n : nat) (x : Z) : bytes :=
  match n with
  | O => []
  | S n => ascii_of_N (Z.to_N (Z.land x 255)) :: le_bytes n (Z.shiftr x 8)
  end.

Definition pad (b : bytes) : bytes :=
  let len := length b in
  b ++ ascii_of_N 128 :: replicate ((119 - len mod 64) mod 64) Ascii.zero ++ le_bytes 8 (8 * Z.of_nat len).

Definition round (m : list Z) (st : Z * Z * Z * Z) (i : nat) : Z * Z * Z * Z :=
  let '(a, b, c, d) := st in
  let '(f, g) :=
    if (i <? 16)%nat then (Z.lor (Z.land b c) (Z.land (not32 b) d), i)
    else if (i <? 32)%nat then (Z.lor (Z.land d b) (Z.land (not32 d) c), ((5 * i + 1) mod 16)%nat)
    else if (i <? 48)%nat then (Z.lxor b (Z.lxor c d), ((3 * i + 5) mod 16)%nat)
    else (Z.lxor c (Z.lor b (not32 d)), ((7 * i) mod 16)%nat) in
  let x := add32 (add32 (add32 f a) (nth i K 0)) (nth g m 0) in
  (d, add32 b (rotl x (nth i shifts 0)), b, c).

Definition block (st : Z * Z * Z * Z) (chunk : bytes) : Z * Z * Z * Z :=
  let '(a, b, c, d) := st in
  let '(a', b', c', d') := foldl (round (words 16 chunk)) st (List.seq 0 64) in
  (add32 a a', add32 b b', add32 c c', add32 d d').

Definition digest (data : bytes) : bytes :=
  let padded := pad data in
  let '(a, b, c, d) :=
    foldl block (0x67452301, 0xefcdab89, 0x98badcfe, 0x10325476) (chunks_exact (S (length padded)) 64 padded) in
  le_bytes 4 a ++ le_bytes 4 b ++ le_bytes 4 c ++ le_bytes 4 d.

#[export] Instance md5_rfc : Md5 := {| md5 := digest |}.
End Rfc1321.

#[local] Existing Instances Reference.blake3_pad Reference.hex_lower Reference.uuid_text Rfc1321.md5_rfc.
#[local] Existing Instances JsonReference.json_tokens order_id.

Example md5_suite :
  hex_encode (md5 (as_bytes "")) = "d41d8cd98f00b204e9800998ecf8427e" ∧
  hex_encode (md5 (as_bytes "abc")) = "900150983cd24fb0d6963f7d28e17f72" ∧
  hex_encode (md5 (as_bytes "12345678901234567890123456789012345678901234567890123456789012345678901234567890")) =
    "57edf4a22be3c955ac49da2e2107b67a".
Proof. vm_compute. done. Qed.

(** ** The pure functions *)

Module PureTests.
(** [entry] is not needed: the plan does not look at the entry. *)
Definition locations (ids : list string) : gmap string bytes :=
  list_to_map ((λ id, (id, ascii_of_N <$> [1; 2; 3]%N)) <$> ids).
Definition peers (pairs : list (string * string)) : gmap string string := list_to_map pairs.
Definition kv (keys : list string) : list obj := (λ k, (k, 0, "etag")) <$> keys.

Definition delimiter_groups_root_prefixes : bool :=
  let '(contents, common) := group_by_delimiter (kv ["datasets/a.txt"; "datasets/b/c.txt"; "notes/x"; "top.txt"]) "" "/" in
  asserts [common == ["datasets/"; "notes/"]; (obj_key <$> contents) == ["top.txt"]].

Definition delimiter_groups_under_prefix : bool :=
  let '(contents, common) := group_by_delimiter
    (kv ["datasets/knob_flame_v3/a.xml"; "datasets/knob_flame_v3/b.xml"; "datasets/other/z"; "datasets/top.txt"])
    "datasets/" "/" in
  asserts [common == ["datasets/knob_flame_v3/"; "datasets/other/"]; (obj_key <$> contents) == ["datasets/top.txt"]].

Definition delimiter_no_match_keeps_all_contents : bool :=
  let '(contents, common) := group_by_delimiter (kv ["a.txt"; "b.txt"]) "" "/" in
  asserts [common == []; length contents == 2%nat].

Definition merge_and_truncate_counts_prefixes_and_contents : bool :=
  let '(contents, common, truncated, next) := merge_and_truncate (kv ["a.txt"; "z.txt"]) ["m/"; "n/"] 3 in
  asserts [truncated; (obj_key <$> contents) == ["a.txt"]; common == ["m/"; "n/"]; next == Some "n/"].

Definition merge_and_truncate_not_truncated_when_within_max : bool :=
  let '(_, _, truncated, next) := merge_and_truncate (kv ["a"]) ["b/"] 10 in
  asserts [negb truncated; next == None].

Definition resolve_range_int_and_suffix : bool :=
  asserts [resolve_range (RangeInt 0 (Some 9)) 100 == Some (0, 9); resolve_range (RangeInt 50 None) 100 == Some (50, 99);
    resolve_range (RangeInt 90 (Some 999)) 100 == Some (90, 99); resolve_range (RangeSuffix 20) 100 == Some (80, 99);
    resolve_range (RangeSuffix 500) 100 == Some (0, 99); resolve_range (RangeInt 100 None) 100 == None;
    resolve_range (RangeInt 0 None) 0 == None].

Definition slice_blocks_for_range_spans_and_boundaries : bool :=
  let sizes := [10; 10; 10] in
  asserts [slice_blocks_for_range sizes 12 15 == [(1%nat, 2, 4)];
    slice_blocks_for_range sizes 5 24 == [(0%nat, 5, 5); (1%nat, 0, 10); (2%nat, 0, 5)];
    slice_blocks_for_range sizes 10 19 == [(1%nat, 0, 10)];
    slice_blocks_for_range sizes 0 29 == [(0%nat, 0, 10); (1%nat, 0, 10); (2%nat, 0, 10)];
    slice_blocks_for_range sizes 29 29 == [(2%nat, 9, 1)]].

Definition slice_block_bytes_skips_and_takes : bool :=
  let b := as_bytes "0123456789" in
  asserts [slice_block_bytes b 0 None == b; slice_block_bytes b 2 (Some 3) == as_bytes "234";
    slice_block_bytes b 8 (Some 50) == as_bytes "89"; slice_block_bytes b 20 None == []].

Definition is_drop (p : ReplicationPlan) : bool := match p with Drop => true | _ => false end.
Definition is_defer (p : ReplicationPlan) : bool := match p with Defer => true | _ => false end.
Definition candidates (p : ReplicationPlan) : option (list (string * string)) :=
  match p with FetchFrom c => Some c | _ => None end.

Definition plan_drops_when_block_has_no_locations : bool :=
  is_drop (plan_replication (locations []) "site-a" (peers [("site-b", "u")])).
Definition plan_drops_when_we_already_hold_it_locally : bool :=
  is_drop (plan_replication (locations ["site-a"; "site-b"]) "site-a" (peers [("site-b", "u")])).
Definition plan_defers_when_no_live_peer_holds_it : bool :=
  is_defer (plan_replication (locations ["site-c"]) "site-a" (peers [("site-b", "u")])).
Definition plan_defers_when_peer_set_is_empty : bool :=
  is_defer (plan_replication (locations ["site-b"]) "site-a" (peers [])).
Definition plan_fetches_from_the_live_peer_that_holds_it : bool :=
  candidates (plan_replication (locations ["site-b"]) "site-a"
    (peers [("site-b", "http://b:8115"); ("site-c", "http://c:8115")])) == Some [("site-b", "http://b:8115")].
Definition plan_fetch_candidates_exclude_peers_that_dont_hold_the_block : bool :=
  match candidates (plan_replication (locations ["site-b"; "site-d"]) "site-a" (peers [("site-b", "ub"); ("site-c", "uc")])) with
  | Some [c] => c.1 == "site-b"
  | _ => false
  end.
Definition plan_local_presence_takes_precedence_over_fetchable_peers : bool :=
  is_drop (plan_replication (locations ["site-a"; "site-b"]) "site-a" (peers [("site-b", "u")])).

Example pure_tests_pass :
  asserts [delimiter_groups_root_prefixes; delimiter_groups_under_prefix; delimiter_no_match_keeps_all_contents;
    merge_and_truncate_counts_prefixes_and_contents; merge_and_truncate_not_truncated_when_within_max;
    resolve_range_int_and_suffix; slice_blocks_for_range_spans_and_boundaries; slice_block_bytes_skips_and_takes;
    plan_drops_when_block_has_no_locations; plan_drops_when_we_already_hold_it_locally;
    plan_defers_when_no_live_peer_holds_it; plan_defers_when_peer_set_is_empty;
    plan_fetches_from_the_live_peer_that_holds_it; plan_fetch_candidates_exclude_peers_that_dont_hold_the_block;
    plan_local_presence_takes_precedence_over_fetchable_peers] = true.
Proof. vm_compute. reflexivity. Qed.
End PureTests.

(** ** Garbage collection and the local backend *)

Module GcTests.
Import StoreTests.
(** The mock block store's [delete_block] does nothing. *)
#[local] Instance mock_blob : BlobStore :=
  {| Blob := unit; put _ _ := ret []; get _ _ := ret []; delete_blob _ _ := ret tt |}.

Definition gh (n : N) : bytes := replicate 32 (ascii_of_N n).
Definition gc_backend : Node := mkNodeState (store_with "test-site" 0) tt.
Definition on_store (f : Store → Store) (n : Node) : Node := mkNodeState (f (db n)) (blob n).
Definition held_locally (n : Node) (h : bytes) : bool := is_some (get_local_block_fid (db n) h).
(** [.await.unwrap()] of a sweep; a test that panics fails. *)
Definition unwrap (r : result error unit * Node) : option Node :=
  match r with (Ok _, n) => Some n | (Err _, _) => None end.
Definition passes (o : option bool) : bool := default false o.

Definition gc_never_reaps_a_referenced_block : bool :=
  let n := on_store (λ s, store_local_block s (at_ 1) (gh 1) (as_bytes "3,01") 10) gc_backend in
  let n := on_store (λ s, insert_object s (at_ 2) "b" 0 "k" [gh 1] 10 "e") n in
  passes (n ← unwrap (reap_orphaned_blocks 0 (at_ 3) n); Some (held_locally n (gh 1))).

Definition gc_reaps_orphan_past_grace : bool :=
  let n := on_store (λ s, store_local_block s (at_ 1) (gh 2) (as_bytes "3,02") 10) gc_backend in
  passes (n ← unwrap (reap_orphaned_blocks 0 (at_ 2) n); Some (negb (held_locally n (gh 2)))).

Definition gc_respects_grace_then_force_overrides : bool :=
  let n := on_store (λ s, store_local_block s (at_ 1) (gh 3) (as_bytes "3,03") 10) gc_backend in
  passes (n1 ← unwrap (reap_orphaned_blocks 3600 (at_ 2) n);
          n2 ← unwrap (force_sweep_orphaned_blocks 3600 (at_ 3) n1);
          Some (asserts [held_locally n1 (gh 3); negb (held_locally n2 (gh 3))])).

Definition gc_cancels_pending_when_block_becomes_referenced_again : bool :=
  let n := on_store (λ s, store_local_block s (at_ 1) (gh 4) (as_bytes "3,04") 10) gc_backend in
  passes (n1 ← unwrap (reap_orphaned_blocks 3600 (at_ 2) n);
          n3 ← unwrap (reap_orphaned_blocks 3600 (at_ 4) (on_store (λ s, insert_object s (at_ 3) "b" 0 "k4" [gh 4] 10 "e") n1));
          Some (asserts [length (get_pending_deletions (db n1)) == 1%nat; length (get_pending_deletions (db n3)) == 0%nat;
            held_locally n3 (gh 4)])).

Definition local_blob_round_trip_and_sharded_path : bool :=
  let hash := gh 0xAB in
  let data := as_bytes "hello shardscape" in
  let hex := hex_encode hash in
  let expected := [String.substring 0 2 hex; String.substring 2 2 hex; hex] in
  let '(r1, d1) := LocalBlob.local_put hash data (LocalBlob.mkDisk ∅ []) in
  let '(r2, d2) := LocalBlob.local_get hash LocalBlob.LOCAL d1 in
  let '(r3, d3) := LocalBlob.local_delete hash LocalBlob.LOCAL d2 in
  let '(r4, _) := LocalBlob.local_delete hash LocalBlob.LOCAL d3 in
  asserts [negb (is_err r1); is_some (LocalBlob.files d1 !! expected);
    match r2 with Ok got => got == data | Err _ => false end;
    negb (is_err r3); is_none (LocalBlob.files d3 !! expected); negb (is_err r4)].

Example gc_tests_pass :
  asserts [gc_never_reaps_a_referenced_block; gc_reaps_orphan_past_grace; gc_respects_grace_then_force_overrides;
    gc_cancels_pending_when_block_becomes_referenced_again; local_blob_round_trip_and_sharded_path] = true.
Proof. vm_compute. reflexivity. Qed.
End GcTests.

(** ** The service with its mocks *)

(** The state of [MockObjectStore] and [MockBlockStore], with the guard of the backend. *)
Record Mock : Type := mkMock {
  inserted : option (string * string * Z * string);
  existing : option (list bytes * Z * string);
  delete_calls : list (string * string);
  stored_count : nat;
  removed_refs : list string;
  added_usages : list string;
  block_data : bytes;
  mock_guard : DiskGuard;
}.

Module Mocks.
Definition ok {A} (f : Mock → A) : io Mock fault A := λ m, (Ok (f m), m).
Definition update (f : Mock → Mock) : io Mock fault unit := λ m, (Ok tt, f m).
Definition zeros : bytes := replicate 32 Ascii.zero.

#[export] Instance MockObjectStore : ObjectStore Mock := {|
  os_insert_object bucket _ key _ size etag := update (λ m,
    mkMock (Some (bucket, key, size, etag)) (existing m) (delete_calls m) (stored_count m) (removed_refs m)
      (added_usages m) (block_data m) (mock_guard m));
  os_get_object _ _ := ok existing;
  os_block_sizes hashes := ok (λ _, (λ _, 0) <$> hashes);
  os_list_buckets := ok (λ _, []);
  os_list_objects _ _ _ _ := ok (λ m,
    (match existing m with Some (_, size, etag) => [("k", size, etag)] | None => [] end, false));
  os_delete_object b k := update (λ m,
    mkMock (inserted m) (existing m) (delete_calls m ++ [(b, k)]) (stored_count m) (removed_refs m)
      (added_usages m) (block_data m) (mock_guard m));
  os_create_multipart_upload _ _ _ := ok (λ _, tt);
  os_get_multipart_upload_key _ _ := ok (λ _, Some "k");
  os_insert_part _ _ _ _ _ _ := ok (λ _, tt);
  os_list_parts _ _ := ok (λ _,
    [(1, [zeros], 10, "aabbccdd"); (2, [replicate 32 (ascii_of_N 1)], 10, "eeff0011")]);
  os_delete_multipart_upload _ _ := ok (λ _, tt);
  os_list_multipart_uploads _ _ _ _ := ok (λ _, []);
|}.

#[export] Instance MockBlockStore : Handlers.BlockStore Mock := {|
  bs_store_block _ _ _ := λ m,
    (Ok zeros, mkMock (inserted m) (existing m) (delete_calls m) (S (stored_count m)) (removed_refs m)
      (added_usages m) (block_data m) (mock_guard m));
  bs_get_block _ := ok block_data;
  bs_add_usage _ ref_id := update (λ m,
    mkMock (inserted m) (existing m) (delete_calls m) (stored_count m) (removed_refs m)
      (added_usages m ++ [ref_id]) (block_data m) (mock_guard m));
  bs_remove_reference _ ref_id := update (λ m,
    mkMock (inserted m) (existing m) (delete_calls m) (stored_count m) (removed_refs m ++ [ref_id])
      (added_usages m) (block_data m) (mock_guard m));
  bs_promote_local _ _ := ok (λ _, tt);
  bs_fetch_from_peer _ _ := ok (λ _, []);
  bs_delete_block _ _ := ok (λ _, tt);
|}.

(** [MockObjectStore::new] and [MockBlockStore::new] behind a disabled guard, and the variants
    with an object, with data and with another guard. *)
Definition fresh : Mock := mkMock None None [] 0 [] [] [] disabled.
Definition with_existing (blocks : list bytes) (size : Z) (etag : string) (m : Mock) : Mock :=
  mkMock (inserted m) (Some (blocks, size, etag)) (delete_calls m) (stored_count m) (removed_refs m)
    (added_usages m) (block_data m) (mock_guard m).
Definition with_data (data : bytes) (m : Mock) : Mock :=
  mkMock (inserted m) (existing m) (delete_calls m) (stored_count m) (removed_refs m) (added_usages m) data (mock_guard m).
Definition with_guard (g : DiskGuard) (m : Mock) : Mock :=
  mkMock (inserted m) (existing m) (delete_calls m) (stored_count m) (removed_refs m) (added_usages m) (block_data m) g.
End Mocks.

Module ServiceTests.
Import Mocks.

(** [make_backend]: the mocks, chunks of a fixed size, no database. *)
Definition backend (chunk_size : nat) : ChunkingStrategy := fixed_strategy {| chunk_size := chunk_size |}.
Definition text (_ : error) : string := "".

Section calls.
Context `{!ChunkingStrategy}.
Definition put (bucket key : string) (data : bytes) : io Mock failure string :=
  Handlers.put_object text None mock_guard None bucket key (Some [Ok data]).
Definition complete (bucket key upload_id : string) : io Mock failure string :=
  Handlers.complete_multipart_upload text None None bucket key upload_id.
End calls.

Definition bytes_of (n : N) (count : nat) : bytes := replicate count (ascii_of_N n).
Definition fails_with (code : S3ErrorCode) {A} (r : result failure A) : option (option string) :=
  match r with Err (S3Error c msg) => if decide (c = code) then Some msg else None | _ => None end.
Definition answers {A} (r : result failure A) : option A := match r with Ok a => Some a | Err _ => None end.

(** *** disk guard *)

Definition put_object_refused_when_disk_guard_tripped : bool :=
  let '(r, m) := @put (backend 10) "b" "k" (bytes_of 0x41 25) (with_guard DiskTests.tripped fresh) in
  asserts [is_some (fails_with ServiceUnavailable r); stored_count m == 0%nat; is_none (inserted m)].

Definition put_object_refused_when_over_quota : bool :=
  let '(r, m) := @put (backend 10) "b" "k" (bytes_of 0x41 25) (with_guard DiskTests.over_quota fresh) in
  asserts [match fails_with ServiceUnavailable r with Some (Some msg) => is_some (find msg "quota") | _ => false end;
    stored_count m == 0%nat; is_none (inserted m)].

Definition put_object_allowed_when_guard_disabled : bool :=
  let '(r, m) := @put (backend 10) "b" "k" (ascii_of_N <$> [1; 2; 3]%N) fresh in
  asserts [is_some (answers r); is_some (inserted m)].

(** *** put_object *)

Definition put_object_25_bytes_produces_3_blocks_and_correct_etag : bool :=
  let '(r, m) := @put (backend 10) "b" "k" (bytes_of 0x41 25) fresh in
  asserts [stored_count m == 3%nat; inserted m == Some ("b", "k", 25, "1995da96cd16a48cebcbc08424f6f945");
    answers r == Some (quoted "1995da96cd16a48cebcbc08424f6f945")].

Definition put_object_empty_body_produces_zero_blocks_and_stored : bool :=
  let '(r, m) := @put (backend 10) "b" "empty" [] fresh in
  asserts [stored_count m == 0%nat; ((λ i, i.1.2) <$> inserted m) == Some 0;
    answers r == Some (quoted "d41d8cd98f00b204e9800998ecf8427e")].

Definition put_object_single_byte : bool :=
  let '(r, m) := @put (backend 10) "b" "one" (bytes_of 0x61 1) fresh in
  asserts [stored_count m == 1%nat; ((λ i, i.1.2) <$> inserted m) == Some 1;
    answers r == Some (quoted "0cc175b9c0f1b6a831c399e269772661")].

Definition put_object_exact_chunk_boundary : bool :=
  let '(r, m) := @put (backend 10) "b" "k" (bytes_of 0xBB 20) fresh in
  asserts [is_some (answers r); stored_count m == 2%nat].

Definition put_object_overwrite_removes_old_block_references : bool :=
  let '(r, m) := @put (backend 10) "b" "k" (bytes_of 0x42 5) (with_existing [bytes_of 0xAA 32] 10 "old-etag" fresh) in
  asserts [is_some (answers r); existsb (λ r, r == "obj:b:k") (removed_refs m)].

Definition put_object_etag_is_quoted_in_response : bool :=
  match answers (@put (backend 64) "b" "k" (ascii_of_N <$> [1; 2; 3]%N) fresh).1 with
  | Some etag => (head (as_bytes etag) == Some dquote) && (last (as_bytes etag) == Some dquote)
  | None => false
  end.

Definition etag_for_chunk_size (data : bytes) (chunk : nat) : option string :=
  answers (@put (backend chunk) "b" "k" data fresh).1.
Definition put_object_etag_independent_of_chunk_size : bool :=
  let data := bytes_of 0x42 100 in
  asserts [is_some (etag_for_chunk_size data 10); etag_for_chunk_size data 10 == etag_for_chunk_size data 50;
    etag_for_chunk_size data 50 == etag_for_chunk_size data 200].

(** *** get_object, head_object, delete_object *)

Definition get_object_returns_correct_size_and_etag : bool :=
  match Handlers.get_object text None None "b" "k" None
          (with_data (bytes_of 0xCC 42) (with_existing [zeros] 42 "myetag" fresh)) with
  | (Ok out, _) => asserts [content_length out == 42; get_e_tag out == quoted "myetag"]
  | _ => false
  end.

Definition get_object_missing_key_returns_no_such_key : bool :=
  is_some (fails_with NoSuchKey (Handlers.get_object text None None "b" "missing" None fresh).1).

Definition delete_object_removes_block_references : bool :=
  let '(r, m) := Handlers.delete_object text None None "b" "k" (with_existing [bytes_of 0xDD 32] 5 "e" fresh) in
  asserts [is_some (answers r); existsb (λ r, r == "obj:b:k") (removed_refs m); delete_calls m == [("b", "k")]].

Definition delete_object_missing_key_still_succeeds : bool :=
  let '(r, m) := Handlers.delete_object text None None "b" "ghost" fresh in
  asserts [is_some (answers r); delete_calls m == [("b", "ghost")]].

Definition delete_objects_batch_all_succeed : bool :=
  match Handlers.delete_objects text None None "b" ["k1"; "k2"] fresh with
  | (Ok (deleted, errors), _) => asserts [length deleted == 2%nat; errors == []]
  | _ => false
  end.

Definition head_object_returns_size_and_etag_without_body : bool :=
  match Handlers.head_object text None None "b" "k" (with_existing [zeros] 99 "headetag" fresh) with
  | (Ok (size, etag), _) => asserts [size == 99; etag == quoted "headetag"]
  | _ => false
  end.

Definition head_object_missing_returns_no_such_key : bool :=
  is_some (fails_with NoSuchKey (Handlers.head_object text None None "b" "gone" fresh).1).

(** *** listings *)

Definition list_objects_v2_empty_bucket : bool :=
  match Handlers.list_objects_v2 text None None "b" None None None None None fresh with
  | (Ok out, _) => asserts [lo_key_count out == Some 0%nat; negb (lo_is_truncated out)]
  | _ => false
  end.

Definition list_object_versions_empty_bucket : bool :=
  match Handlers.list_object_versions text None None "b" None None None None fresh with
  | (Ok (out, _), _) => asserts [length (lo_contents out) == 0%nat; negb (lo_is_truncated out); lo_name out == "b"]
  | _ => false
  end.

(** The version id and the latest flag of an entry are constants of the response. *)
Definition list_object_versions_reports_single_null_version_per_object : bool :=
  match Handlers.list_object_versions text None None "b" None None None None (with_existing [zeros] 42 "vetag" fresh) with
  | (Ok (out, _), _) => asserts [lo_contents out == [("k", 42, quoted "vetag")]; lo_next out == None]
  | _ => false
  end.

(** *** multipart uploads; [upload_id] is the drawn identifier *)

Definition upload_id : string := "7f0d1b1e-8d4e-4b7a-9a55-0f6d0c1d2e3f".

Definition complete_multipart_upload_assembles_parts_and_stores_object : bool :=
  let '(r, m) := complete "b" "k" upload_id fresh in asserts [is_some (answers r); is_some (inserted m)].

Definition complete_multipart_upload_swaps_upload_ref_for_object_ref : bool :=
  let '(r, m) := complete "b" "k" upload_id fresh in
  asserts [is_some (answers r); existsb (λ r, r == "obj:b:k") (added_usages m);
    existsb (λ r, r == "upload:b:" +:+ upload_id) (removed_refs m)].

Definition complete_multipart_upload_rejects_key_mismatch : bool :=
  is_some (fails_with InvalidRequest (complete "b" "different-key" upload_id fresh).1).

Definition abort_multipart_upload_succeeds : bool :=
  is_some (answers (Handlers.abort_multipart_upload text None None "b" "k" upload_id fresh).1).

Example service_tests_pass :
  asserts [put_object_refused_when_disk_guard_tripped; put_object_refused_when_over_quota;
    put_object_allowed_when_guard_disabled; put_object_25_bytes_produces_3_blocks_and_correct_etag;
    put_object_empty_body_produces_zero_blocks_and_stored; put_object_single_byte; put_object_exact_chunk_boundary;
    put_object_overwrite_removes_old_block_references; put_object_etag_is_quoted_in_response;
    put_object_etag_independent_of_chunk_size; get_object_returns_correct_size_and_etag;
    get_object_missing_key_returns_no_such_key; delete_object_removes_block_references;
    delete_object_missing_key_still_succeeds; delete_objects_batch_all_succeed;
    head_object_returns_size_and_etag_without_body; head_object_missing_returns_no_such_key;
    list_objects_v2_empty_bucket; list_object_versions_empty_bucket;
    list_object_versions_reports_single_null_version_per_object;
    complete_multipart_upload_assembles_parts_and_stores_object;
    complete_multipart_upload_swaps_upload_ref_for_object_ref; complete_multipart_upload_rejects_key_mismatch;
    abort_multipart_upload_succeeds] = true.
Proof. vm_compute. reflexivity. Qed.
End ServiceTests.
